(* ===== verification/_CoqProject ===== *)
-Q . S2P
Prelude.v
GoStrings.v
Crypto.v
GoNet.v
GoFloat.v
Json.v
JsonParse.v
JsonFacts.v
JsonRoundtrip.v
Api.v
Engine.v
EngineFacts.v
Samples.v
EngineProps.v
EngineJson.v
K8s.v
CredManager.v
NodeController.v
SampleCluster.v
NodeProps.v
Rollout.v
Controllers.v
ControllerProps.v
Webhooks.v
ClientConfig.v
SampleClient.v
ClientProps.v
ClientTargets.v
ClientSelectors.v
ClientServed.v
Template.v
TemplateFacts.v
TemplateProps.v
Handler.v
HandlerProps.v
Snapshot.v
EndToEnd.v
Cluster.v
Watches.v
Strip.v
ReadSet.v
ConfigOf.v
ReadsApart.v
WatchComplete.v
Passes.v
Store.v
Operator.v
Missed.v
Metrics.v
OperatorRuns.v
System.v
Cli.v
CliProps.v
UsageCollector.v
StatsGrpc.v
Elasticsearch.v
UsageProps.v
ElasticsearchProps.v
UsageRun.v
Main.v
