(* ===== verification/Prelude.v ===== *)
(** * A verified model of singbox-operator

    singbox-operator is a Kubernetes operator that turns a set of custom
    resources (SingBoxNode, User, UserGroup, EgressPolicy, ExternalOutbound) into
    sing-box server configurations, and an HTTP API that hands the matching
    client configurations to users.  Its parts, and how they interact:

    - [api/v1alpha1] defines the resources and the selector and match methods;
    - [internal/configengine] is a pure function from a node's view of the
      cluster ([Input]) to its sing-box configuration and the hash of its bytes;
    - [internal/credmanager] reads and creates the Secrets that hold credentials;
    - [internal/controller] has one reconciler per resource.  That of SingBoxNode
      collects the engine's [Input] through the Kubernetes client, calls the
      engine, writes a ConfigMap, rolls the pod when the hash changes, keeps the
      Services and publishes entry endpoints in the status; the others validate
      their resource, set its conditions and touch the nodes they affect;
    - [internal/webhook] validates resources at admission;
    - [internal/apiserver] answers a download request: it finds the user by UUID,
      computes what the client should connect to from the same resources and the
      published endpoints, and merges that into a template;
    - [internal/usagecollector] polls the nodes' traffic counters and writes
      records to Elasticsearch;
    - [internal/cli] creates users and nodes from the command line.

    ** Files

    Shared:
    - Prelude.v: notations, the tactics [bool_prop] and [case_go], the hint
      database [go]; Go slices, maps, the order in which a map is visited
      ([MapRange]), deduplication with a seen map, and sorting;
    - GoStrings.v: the parts of [strings] and [strconv] in use; Crypto.v: SHA-1,
      SHA-256 and hex; GoNet.v: net/netip.ParseAddr, net.ParseIP, net.ParseCIDR;
      GoFloat.v: float64 parsing and formatting; Json.v: [any] values and
      json.Marshal; JsonParse.v: json.Unmarshal; JsonFacts.v: the parser ends and
      is independent of its fuel; JsonRoundtrip.v: what is encoded parses back;
    - K8s.v: objects, the client's calls and answers, programs over them, their
      execution against a server, and a weakest precondition over call traces.

    Components (source under src/):
    - Api.v: api/v1alpha1/*_types.go;
    - Engine.v: internal/configengine/engine.go, one definition per function,
      from [Input] down to the bytes and the hash; EngineFacts.v and
      EngineProps.v: its lemmas and theorems; EngineJson.v: its bytes parse back,
      and show the order of the policies;
    - CredManager.v: internal/credmanager and internal/controller/node_health.go;
    - NodeController.v: internal/controller/singboxnode_controller.go and
      egresspolicy_helpers.go; NodeProps.v: their theorems; Rollout.v:
      convergence of the pod over repeated passes;
    - Controllers.v: the modules UserReconciler, UserGroupReconciler,
      EgressPolicyReconciler and ExternalOutboundReconciler, for the files
      user_controller.go, usergroup_controller.go, egresspolicy_controller.go and
      externaloutbound_controller.go; ControllerProps.v: their theorems;
    - Webhooks.v: internal/webhook, the validators, the admission of a request
      and their theorems;
    - ClientConfig.v: internal/apiserver/policy.go, client_policy.go and
      client_config.go; ClientProps.v (endpoints, credentials), ClientTargets.v
      (which exit targets are offered, map order), ClientSelectors.v (tags and
      selectors) and ClientServed.v (agreement with the engine): its theorems;
    - Template.v: internal/apiserver/template.go, with the built-in template;
      TemplateFacts.v and TemplateProps.v: its lemmas and theorems;
    - Handler.v: internal/apiserver/handler.go; HandlerProps.v: the outcomes of a
      request; Snapshot.v and EndToEnd.v: the composition of the endpoint with
      the node reconciler over one state of the cluster;
    - Cluster.v: the stored objects by kind and key, watch events, and the answers
      of the cached client, with the field indexes of cmd/main.go; Watches.v: the
      five SetupWithManager functions and node_health.go's predicate; Strip.v,
      ReadSet.v and ConfigOf.v: the part of the cluster that a node's
      configuration depends on; ReadsApart.v: collectInput when its reads are apart
      in time; WatchComplete.v: the watches notice the changes; Passes.v: the API
      server with its cached client, and what a pass achieves while others write;
      Operator.v: the controllers with their queues against that server, as a
      step relation; Missed.v: the changes it does not act on; Store.v: an API
      server in memory; OperatorRuns.v: the operator executed on it; System.v: the
      operator and the endpoint together;
    - Metrics.v: internal/metrics/metrics.go and its uses by the reconcilers;
    - Cli.v: internal/cli/user/init.go and internal/cli/node/add.go; CliProps.v:
      their theorems and the composition of user init with the endpoint;
    - UsageCollector.v: internal/usagecollector (collector.go, config.go,
      discovery.go, model.go, the counter names of v2rayclient.go and the bulk
      verdict of elasticsearch.go); UsageProps.v: its theorems; Elasticsearch.v:
      the sink, its request and the decoding of its response; ElasticsearchProps.v:
      their theorems; StatsGrpc.v: v2rayapi/stats_grpc.go, the stubs and handlers
      of the nodes' stats service; UsageRun.v: the stats client, the loop of Run,
      the collector assembled as in cmd/main.go, and the accounting theorem;
    - Main.v: cmd/main.go, from the flags to the start of the manager;
    - Samples.v, SampleCluster.v, SampleClient.v: concrete objects and one
      instance of every parameter, on which the witnesses are evaluated.

    ** How state and effects are modelled

    A reconciler is a [prog] (K8s.v): a tree of client calls, each with the Go
    call's answer type, errors included.  A [server] answers calls from a state;
    [exec], [trace] and [result] run a program against one.  Theorems about
    reconcilers quantify over every server, so they hold whatever the API server
    answers and whatever other writers do between two calls; what they assume
    of the answers (unique names in one listing) is a hypothesis on the trace.
    The engine and the client configuration are pure functions.  A Go map is a
    [gmap]; where code ranges over one it takes a [MapRange], an arbitrary order,
    and the determinism theorems show the order does not matter.  A fallible
    function returns a sum, [inl] being the error.  Integers are [Z]; the
    int32 and int fields of the resources are only compared, formatted and
    parsed, and the range of strconv.Atoi is written out; the int64 traffic
    counters are summed with their wrap-around ([wrap64]).  Recursion is
    structural everywhere: loops are folds over the lists the code ranges over,
    SHA padding and strings.Split bound their recursion by the input's length
    ([split_cuts_enough] shows that this is enough).  Only the JSON parser takes
    fuel, two units per byte of the text plus one ([parse_fuel]); [parse_total]
    shows that this is enough for every text and [parse_mono] that more fuel
    changes nothing.  The concrete runs of OperatorRuns.v and System.v take at most
    1500 steps ([drain]), and end with no event and no request of any of the five
    controllers left ([at_rest]).

    The operator as a whole (Operator.v) is a step relation over the API server,
    the manager's cache, the events on their way to it, the queues, the passes
    under way and the nodes affected by changes that no watch reports.  A step is
    one API call of another client or of a pass under way, the delivery of an
    event to the cache and the watches, the start or the end of a pass, a change
    of the clock or a restart of the operator; so passes interleave call by call
    and read a cache that may lag behind.  Every change of an object is delivered
    as an event of its own.  The passes are reasoned about with [wpi] (Passes.v),
    which tolerates every step that does not reach the node in question.  A node
    is marked stale ([op_stale]) by a change that no watch reports and by a
    trigger of the policy controller that writes the stamp which the node already
    carries ([lost_trigger]), and until its next pass begins; the theorems on the
    operator say nothing of a stale node, and Missed.v shows that both happen.

    In which order a listing returns the objects is left open, for every call
    anew: [snapshot_of] and [agrees] relate answers up to permutation, and [reads]
    is just one of the snapshots.  The reconciler sorts nodes, external outbounds
    and users but not the policies, so what a cluster calls for ([callsFor]) is
    Compute for some order of the policies ([policy_order_shows]: the order
    matters).  A namespace listing is by a namespace that is not empty, as those
    of the reconcilers are.

    Code outside the repository is a parameter with the laws it documents:
    [LabelSelectors] (metav1.LabelSelectorAsSelector), [GoStd] (regexp.Compile,
    strconv.Quote), [ConditionLib] (meta.SetStatusCondition), [ControllerUtil]
    (finalizers, owner references), [TLSCerts] (pem, x509), [Collaborators] (the
    collector's interfaces), [StatsNetwork], [GrpcServing] (gRPC) and [Protobuf],
    [HTTPClient] (net/http),
    [URLs], [TimeText], [DNSNames] (validation.IsDNS1123Subdomain),
    [NotFoundErrors] (apierrors.NewNotFound) and [WatchLib] (the predicates and
    handlers of controller-runtime); whether a registration with the manager
    succeeds is an argument of [main].  Where a theorem needs a server that behaves like a
    store, what it relies on is a class too, with a concrete instance:
    [PodServer] (Rollout.v: an idealised store of pods, in which calls do not fail,
    reads are current and a graceful deletion ends after a bounded number of
    passes; it serves a liveness theorem only), [ApiServer] (Passes.v, with the
    instance [store_api] of Store.v), [ObjectStore] (CliProps.v: an error may leave
    open whether an object was stored, and the server may fill in metadata),
    [CounterStore] and [CounterNetwork] (UsageRun.v: a failed query may have reset
    the counters; the second implies the first for the assembled collector,
    [assembled_store]).

    ** What the theorems show

    - Engine: for an input that meets the contract [RoutableInput], on a node that
      may use itself when it has both roles ([selfAllowed], which nothing ensures:
      [self_rule_dangles]), every rule's outbound exists; tags are distinct, users and rules
      agree with the groups' permissions in both directions, policies come first
      and in order, the bytes are deterministic, statistics cover the identities,
      derived credentials have their documented shape;
    - engine bytes: they parse back to the computed configuration;
    - node reconciler: collectInput establishes the engine's contract
      ([RoutableInput]) and the groups' permissions against any server; a written
      ConfigMap holds Compute of such an input; the pod is never deleted and
      created in one pass, and repeated passes reach an up-to-date pod within a
      bounded number; the status reports a hash only after its deployment;
      an object being deleted, or without the finalizer, is not deployed;
    - credentials: a relay credential is never replaced;
    - other controllers and webhooks: admission, status conditions and the
      node reconciler agree on what is valid;
    - watches: a change of the cluster that neither enqueues a node nor a policy
      that selects it leaves the node's configuration as it was, but for two kinds
      of change that are named ([unwatched]);
    - operator: whenever every event has arrived and no request for a node or a
      policy is pending or under way, the ConfigMap of every node that is not being
      deleted and not stale holds what the stored objects call for and its status
      reports it, whatever the order of the calls of the workers and of other
      clients and of the listings, however late the events and whichever writes
      failed; what a user downloads then is served by the ConfigMaps that are
      stored, for the nodes that clients can reach ([reachable_spec]) and external
      outbounds that are complete ([externals_ready]);
    - metrics: they are used as declared, and a pass observes one duration;
    - entry point: the manager starts with every part registered, and an index for
      every listing by field, or not at all, and starts whenever it can; the usage collector and the nodes' counters are
      switched together; the port range of the flags is enforced at admission;
    - client: the offered targets are characterised exactly, the configuration is
      deterministic, closed and duplicate-free, published endpoints parse back,
      and every outbound handed to a client is accepted, routed and defined by
      the inbound node's own configuration;
    - template merge: rules name generated outbounds, route and DNS modes agree,
      proxy endpoints are resolvable, the rest of the template is preserved, every
      template text is decided, the built-in template merges whenever the
      policies allow it;
    - endpoint: every outcome of a request, which only reads; end to end, what a
      client downloads is served by the nodes of the same cluster;
    - command line: user init adds both objects or, when its errors are clear, none,
      and the UUID it prints works;
    - usage collector: counter names round trip with the engine's identities, a
      poll cycle writes exactly the totals of what it read, within int64 bounds,
      document ids are determined by the record's identity, cycles exclude each
      other under any interleaving (a step relation, [PollLock]), the bulk body is
      framed whatever names it holds, Write succeeds exactly when the response
      says so, the stats stubs reach the server's methods, and over a run no
      traffic is counted twice, or lost before the sink but with a response that
      never arrived;
    - [self_rule_dangles], [policy_rule_ignores_groups], [ipv6_endpoint_lost],
      [client_tag_collision], [custom_rules_behind_auto], [ai_rule_dangles],
      [node_add_admission], [secret_rotation_missed], [same_second_trigger_lost],
      [policy_order_shows], [node_update_enqueues], [init_timeout],
      [userGroupRef_unused] and [status_error_uncounted] state defects of the code.

    ** Not modelled, and why

    Log lines; flag.Parse (main starts from the parsed values) and the zap
    options; the registration of the Go types with the scheme and the generated
    deep copies (values of the model are immutable); the generated protobuf
    encoding (a parameter); cobra's command registration and the registry behind
    prometheus.MustRegister (I/O); the listening and shutdown of the HTTP server
    around its handler; the end-to-end test helpers.  Timeouts and cancellation of
    contexts are answers of the parameters.  Regular-expression syntax and Go
    quoting are parameters ([GoStd]): the code only asks whether a text is
    accepted, and what the error says.  That the queues drain is not claimed: a
    write that keeps failing is retried for ever; for the pod of one node,
    Rollout.v bounds the number of passes. *)

From stdpp Require Export base numbers option strings pretty sorting gmap list.
From Stdlib Require Import Ascii.

(** ** Notations *)
Declare Scope go_scope.
Delimit Scope go_scope with go.

(** Go's [==] and [!=] on comparable values, as Booleans. *)
Notation "x ==? y" := (bool_decide (x = y)) (at level 70, no associativity) : go_scope.
Notation "x !=? y" := (negb (bool_decide (x = y))) (at level 70, no associativity) : go_scope.
Open Scope go_scope.

(** A fallible Go function [(T, error)]: [inl] carries the error. *)
Notation "'let!' x ':=' c 'in' k" :=
  (match c with inl e => inl e | inr x => k end)
  (at level 10, x name, c at level 100, k at level 200) : go_scope.

#[global] Arguments String.append !s1 s2 : simpl nomatch.

(** ** Tactics and hint databases *)
Create HintDb go discriminated.
Create Rewrite HintDb go.

(** Turns every Boolean test in the context or goal into the proposition it decides. *)
Ltac bool_prop :=
  repeat match goal with
  | H : bool_decide _ = true |- _ => apply bool_decide_eq_true_1 in H
  | H : bool_decide _ = false |- _ => apply bool_decide_eq_false_1 in H
  | H : (_ && _)%bool = true |- _ => apply andb_true_iff in H; destruct H
  | H : (_ || _)%bool = false |- _ => apply orb_false_iff in H; destruct H
  | H : negb _ = true |- _ => apply negb_true_iff in H
  | H : negb _ = false |- _ => apply negb_false_iff in H
  end.

(** Splits on the innermost [if]/[match] scrutinee of the goal or of [H]. *)
Ltac case_go := repeat (case_match; simplify_eq/=); bool_prop.

(** ** Go slices and maps *)
Section slices.
Context {A : Type}.

(** slices.Contains *)
Definition slices_Contains `{EqDecision A} (l : list A) (x : A) : bool := bool_decide (x ∈ l).

Lemma slices_Contains_true `{EqDecision A} (l : list A) x : slices_Contains l x = true ↔ x ∈ l.
Proof. apply bool_decide_eq_true. Qed.

Lemma slices_Contains_false `{EqDecision A} (l : list A) x : slices_Contains l x = false ↔ x ∉ l.
Proof. apply bool_decide_eq_false. Qed.
End slices.

(** [m[k]] of a Go map: the zero value when the key is absent (a nil map is [∅]). *)
Definition map_index {V} (zero : V) (m : gmap string V) (k : string) : V := default zero (m !! k).

(** Iterating a Go map visits every binding once, in an order the language
    leaves unspecified.  An instance of [MapRange] is one choice of that order;
    code that ranges over a map is parameterised by it. *)
Class MapRange := {
  range : ∀ {V}, gmap string V → list (string * V);
  range_perm : ∀ {V} (m : gmap string V), range m ≡ₚ map_to_list m;
}.

#[export] Program Instance range_map_to_list : MapRange := {| range V m := map_to_list m |}.
Next Obligation. done. Qed.

(** The values visited by [for _, v := range m]. *)
Definition range_values `{MapRange} {V} (m : gmap string V) : list V := (range m).*2.

Lemma elem_of_range `{MapRange} {V} (m : gmap string V) k v : (k, v) ∈ range m ↔ m !! k = Some v.
Proof. rewrite range_perm. apply elem_of_map_to_list. Qed.

Lemma elem_of_range_values `{MapRange} {V} (m : gmap string V) v :
  v ∈ range_values m ↔ ∃ k, m !! k = Some v.
Proof.
  unfold range_values. rewrite list_elem_of_fmap. split.
  - intros ([k v'] & -> & Hk%elem_of_range). eauto.
  - intros [k Hk]. exists (k, v). by rewrite elem_of_range.
Qed.

Lemma range_values_perm (R1 R2 : MapRange) {V} (m : gmap string V) :
  @range_values R1 V m ≡ₚ @range_values R2 V m.
Proof. unfold range_values. by rewrite (@range_perm R1), (@range_perm R2). Qed.

(** An invariant of a loop [for _, x := range l]. *)
Lemma foldl_inv {A B} (P : B → Prop) (f : B → A → B) st l :
  P st → (∀ st x, x ∈ l → P st → P (f st x)) → P (foldl f st l).
Proof.
  revert st. induction l as [|x l IH]; intros st Hst Hf; simpl; [done|].
  apply IH; [apply Hf; [left|done]|]. intros st' y Hy. apply Hf. by right.
Qed.

Lemma filter_none {A} (p : A → bool) l : Forall (λ x, p x = false) l → filter (λ x, p x = true) l = [].
Proof. induction 1 as [|x l Hx _ IH]; [done|]. by rewrite filter_cons, Hx, decide_False. Qed.

(** ** Order-preserving deduplication: [if !seen[x] { seen[x] = true; out = append(out, x) }] *)
Section push_new.
Context {A : Type} `{Countable A}.

Definition push_new (st : gset A * list A) (x : A) : gset A * list A :=
  if bool_decide (x ∈ st.1) then st else ({[x]} ∪ st.1, st.2 ++ [x]).

(** The [seen] set holds exactly the names already collected, each once. *)
Definition seen_ok (st : gset A * list A) : Prop := st.1 = list_to_set st.2 ∧ NoDup st.2.

Lemma seen_ok_nil : seen_ok (∅, []).
Proof. split; [done | constructor]. Qed.

Lemma push_new_ok st x : seen_ok st → seen_ok (push_new st x).
Proof.
  intros [Hs Hnd]. unfold push_new. case_bool_decide as Hx; [done|]. split; simpl.
  - rewrite Hs, list_to_set_app_L, list_to_set_singleton_L. apply union_comm_L.
  - apply NoDup_app. split_and!; [done | | apply NoDup_singleton].
    intros y Hy ->%list_elem_of_singleton. apply Hx. rewrite Hs. by apply elem_of_list_to_set.
Qed.

Lemma push_new_elem st x y : seen_ok st → y ∈ (push_new st x).2 ↔ y ∈ st.2 ∨ y = x.
Proof.
  intros [Hs _]. unfold push_new. case_bool_decide as Hx; simpl.
  - rewrite Hs, elem_of_list_to_set in Hx. split; [by left|]. by intros [?| ->].
  - rewrite elem_of_app, list_elem_of_singleton. done.
Qed.

Lemma foldl_push_new_ok st l : seen_ok st → seen_ok (foldl push_new st l).
Proof. revert st. induction l; simpl; auto using push_new_ok. Qed.

Lemma foldl_push_new_elem st l y :
  seen_ok st → y ∈ (foldl push_new st l).2 ↔ y ∈ st.2 ∨ y ∈ l.
Proof.
  revert st. induction l as [|x l IH]; intros st Hst; simpl.
  - rewrite elem_of_nil. tauto.
  - rewrite IH by auto using push_new_ok. rewrite push_new_elem, elem_of_cons by done. tauto.
Qed.
End push_new.

(** A loop body that skips some elements and pushes a projection of the others. *)
Lemma foldl_push_filter {A B} `{Countable B} (p : A → bool) (f : A → B) st l :
  foldl (λ st x, if p x then push_new st (f x) else st) st l
  = foldl push_new st (f <$> filter (λ x, p x = true) l).
Proof.
  revert st. induction l as [|x l IH]; intros st; simpl; [done|].
  rewrite IH, filter_cons. destruct (p x) eqn:Hp; by repeat case_decide.
Qed.

#[export] Hint Resolve seen_ok_nil push_new_ok foldl_push_new_ok : go.

(** ** Sorting: sort.Strings, sort.Slice, sort.SliceStable

    [sort_by less] is the stable insertion sort.  sort.SliceStable is stable;
    sort.Slice and sort.Strings promise only a sorted permutation, and
    [sort_by_ext] shows that such a result is unique (hence equal to
    [sort_by less]) whenever elements that compare equal are equal. *)
Class StrictWeak {A} (less : A → A → bool) : Prop := {
  sw_asym : ∀ x y, less x y = true → less y x = false;
  sw_trans : ∀ x y z, less y x = false → less z y = false → less z x = false;
}.

Section sort_by.
Context {A : Type} (less : A → A → bool).

Fixpoint sort_insert (x : A) (l : list A) : list A :=
  match l with
  | [] => [x]
  | y :: l' => if less y x then y :: sort_insert x l' else x :: y :: l'
  end.

Definition sort_by (l : list A) : list A := foldr sort_insert [] l.

Lemma sort_insert_perm x l : sort_insert x l ≡ₚ x :: l.
Proof.
  induction l as [|y l IH]; simpl; [done|]. destruct (less y x); [|done].
  rewrite IH. by rewrite Permutation_swap.
Qed.

Lemma sort_by_perm l : sort_by l ≡ₚ l.
Proof. induction l as [|x l IH]; simpl; [done|]. by rewrite sort_insert_perm, IH. Qed.

Lemma elem_of_sort_by x l : x ∈ sort_by l ↔ x ∈ l.
Proof. by rewrite sort_by_perm. Qed.

(** [a] and [b] compare equal. *)
Definition tied (a b : A) : bool := negb (less a b) && negb (less b a).

Context `{!StrictWeak less}.

Lemma sort_insert_sorted x l :
  StronglySorted (λ a b, less b a = false) l → StronglySorted (λ a b, less b a = false) (sort_insert x l).
Proof.
  induction 1 as [|y l Hl IH Hy]; simpl; [repeat constructor|].
  destruct (less y x) eqn:Hyx.
  - constructor; [done|]. rewrite sort_insert_perm. constructor; auto using sw_asym.
  - constructor; [by constructor|]. constructor; [done|].
    eapply Forall_impl; [done|]. simpl. eauto using sw_trans.
Qed.

Lemma sort_by_sorted l : StronglySorted (λ a b, less b a = false) (sort_by l).
Proof. induction l; simpl; [constructor | auto using sort_insert_sorted]. Qed.

Lemma tied_not_less a x y : tied a x = true → tied a y = true → less y x = false.
Proof. unfold tied. intros. bool_prop. eauto using sw_trans. Qed.

Lemma sort_insert_stable a x l :
  filter (λ z, tied a z = true) (sort_insert x l) = filter (λ z, tied a z = true) (x :: l).
Proof.
  induction l as [|y l IH]; simpl; [done|]. destruct (less y x) eqn:Hyx; [|done].
  rewrite !filter_cons, IH, filter_cons. repeat case_decide; try done.
  pose proof (tied_not_less a x y). naive_solver congruence.
Qed.

(** Elements that compare equal keep their relative order. *)
Lemma sort_by_stable a l :
  filter (λ z, tied a z = true) (sort_by l) = filter (λ z, tied a z = true) l.
Proof.
  induction l as [|x l IH]; simpl; [done|].
  by rewrite sort_insert_stable, !filter_cons, IH.
Qed.

(** A sorted permutation is unique when tied elements are equal. *)
Lemma sort_by_unique l l' :
  l' ≡ₚ l → StronglySorted (λ a b, less b a = false) l' →
  (∀ x y, x ∈ l → y ∈ l → less x y = false → less y x = false → x = y) →
  l' = sort_by l.
Proof.
  intros Hp Hs Hties. eapply StronglySorted_unique_strong; [|done|apply sort_by_sorted|].
  - intros x y Hx Hy. simpl. intros. apply Hties; [by rewrite <-Hp| by apply elem_of_sort_by|..]; done.
  - by rewrite sort_by_perm.
Qed.

Lemma sort_by_ext l1 l2 :
  l1 ≡ₚ l2 → (∀ x y, x ∈ l1 → y ∈ l1 → less x y = false → less y x = false → x = y) →
  sort_by l1 = sort_by l2.
Proof.
  intros Hp Hties. apply sort_by_unique; [by rewrite sort_by_perm | apply sort_by_sorted|].
  intros x y. rewrite <-Hp. apply Hties.
Qed.
End sort_by.

(** Go's [<] on strings is the bytewise lexicographic order. *)
Definition str_less : string → string → bool := String.ltb.

Lemma str_less_leb s t : str_less s t = negb (String.leb t s).
Proof.
  unfold str_less, String.ltb, String.leb. rewrite (String.compare_antisym s t).
  by destruct (String.compare t s).
Qed.

Lemma str_less_false s t : str_less s t = false ↔ (t ≤ s)%string.
Proof. rewrite str_less_leb, negb_false_iff. unfold String.le. by destruct (String.leb t s). Qed.

Lemma str_less_tied s t : str_less s t = false → str_less t s = false → s = t.
Proof. rewrite !str_less_false. intros. by apply (anti_symm String.le). Qed.

Lemma str_less_true s t : str_less s t = true → str_less t s = false.
Proof.
  intros Hst. destruct (str_less t s) eqn:Hts; [|done]. rewrite str_less_leb, negb_true_iff in Hst, Hts.
  destruct (String.leb_total s t); congruence.
Qed.

#[export] Instance str_less_sw : StrictWeak str_less.
Proof.
  split; [apply str_less_true|]. intros x y z. rewrite !str_less_false. intros. by trans y.
Qed.

(** Comparing records by a string key, as [sort.Slice] callers do. *)
Definition less_on {A} (f : A → string) (x y : A) : bool := str_less (f x) (f y).

#[export] Instance less_on_sw {A} (f : A → string) : StrictWeak (less_on f).
Proof. split; unfold less_on; [intros x y; apply sw_asym | intros x y z H1 H2; exact (sw_trans _ _ _ H1 H2)]. Qed.

Definition sort_strings : list string → list string := sort_by str_less.

Lemma sort_strings_ext l1 l2 : l1 ≡ₚ l2 → sort_strings l1 = sort_strings l2.
Proof. intros Hp. apply sort_by_ext; [apply _|done|]. eauto using str_less_tied. Qed.

Lemma sort_strings_sorted l : StronglySorted String.le (sort_strings l).
Proof.
  pose proof (sort_by_sorted str_less l) as Hs. unfold sort_strings.
  induction Hs as [|x l' ? IH Hx]; constructor; [done|].
  eapply Forall_impl; [done|]. intros y. apply str_less_false.
Qed.

Lemma elem_of_sort_strings x l : x ∈ sort_strings l ↔ x ∈ l.
Proof. apply elem_of_sort_by. Qed.

(** Sorting by a key that is injective on the list ignores the initial order. *)
Lemma sort_on_ext {A} (f : A → string) l1 l2 :
  l1 ≡ₚ l2 → NoDup (f <$> l1) → sort_by (less_on f) l1 = sort_by (less_on f) l2.
Proof.
  intros Hp Hnd. apply sort_by_ext; [apply _|done|].
  intros x y Hx Hy ??. assert (f x = f y) as Hf by (by apply str_less_tied).
  apply list_elem_of_lookup in Hx as [i Hi], Hy as [j Hj].
  assert (i = j) as ->; [|congruence].
  apply (NoDup_lookup _ _ _ (f x) Hnd); rewrite list_lookup_fmap; [rewrite Hi | rewrite Hj]; simpl; congruence.
Qed.

#[export] Hint Rewrite @elem_of_sort_by elem_of_sort_strings : go.
