(* ===== verification/GoStrings.v ===== *)
(** * GoStrings: the parts of Go's [strings] and [strconv] packages the operator uses

    strings.HasPrefix, TrimPrefix, Cut, Split, SplitN, LastIndex (as the split it
    is used for) and strconv.Atoi / fmt "%d", on byte strings, with the round-trip
    lemmas that the endpoint and counter-name components build on. *)

From S2P Require Import Prelude.
From Stdlib Require Import Ascii.

(** ** Characters of a string *)
Fixpoint has_char (c : ascii) (s : string) : bool :=
  match s with
  | EmptyString => false
  | String d s => bool_decide (c = d) || has_char c s
  end.

Lemma has_char_app c s t : has_char c (s +:+ t) = has_char c s || has_char c t.
Proof. induction s as [|d s IH]; [done|]. simpl. by rewrite IH, orb_assoc. Qed.

Lemma str_app_assoc s t u : (s +:+ t) +:+ u = s +:+ (t +:+ u).
Proof. induction s; [done|]. simpl. by f_equal. Qed.

Lemma str_app_nil_r s : s +:+ "" = s.
Proof. induction s; [done|]. simpl. by f_equal. Qed.

Lemma str_app_length s t : String.length (s +:+ t) = String.length s + String.length t.
Proof. induction s; [done|]. simpl. by f_equal. Qed.

(** ** strings.HasPrefix, strings.TrimPrefix, strings.Cut *)
Fixpoint strip_prefix (sep s : string) : option string :=
  match sep, s with
  | EmptyString, _ => Some s
  | String c sep, String d s => if c ==? d then strip_prefix sep s else None
  | String _ _, EmptyString => None
  end.

Definition strings_HasPrefix (s prefix : string) : bool :=
  bool_decide (is_Some (strip_prefix prefix s)).

Definition strings_TrimPrefix (s prefix : string) : string := default s (strip_prefix prefix s).

Fixpoint strings_Cut (s sep : string) : option (string * string) :=
  match strip_prefix sep s with
  | Some rest => Some ("", rest)
  | None =>
    match s with
    | EmptyString => None
    | String c s => prod_map (String c) id <$> strings_Cut s sep
    end
  end.

(** The text before and after the last [sep]: strings.LastIndex and the two slices around it. *)
Fixpoint strings_CutLast (s sep : string) : option (string * string) :=
  match s with
  | EmptyString => if bool_decide (sep = "") then Some ("", "") else None
  | String c s' =>
    match strings_CutLast s' sep with
    | Some (before, after) => Some (String c before, after)
    | None => pair "" <$> strip_prefix sep s
    end
  end.

(** At most [n] cuts, hence at most [n + 1] parts. *)
Fixpoint split_cuts (n : nat) (s sep : string) : list string :=
  match n with
  | O => [s]
  | S n =>
    match strings_Cut s sep with
    | None => [s]
    | Some (before, after) => before :: split_cuts n after sep
    end
  end.

(** strings.SplitN(s, sep, n) for n > 0 *)
Definition strings_SplitN (s sep : string) (n : nat) : list string := split_cuts (pred n) s sep.

(** strings.Split(s, sep) for a non-empty [sep]: a cut shortens the rest, so
    [String.length s] cuts are enough ([split_cuts_enough]). *)
Definition strings_Split (s sep : string) : list string := split_cuts (String.length s) s sep.

Lemma strip_prefix_app p s : strip_prefix p (p +:+ s) = Some s.
Proof. induction p as [|c p IH]; [done|]. simpl. by rewrite bool_decide_eq_true_2. Qed.

Lemma strip_prefix_Some p s r : strip_prefix p s = Some r ↔ s = p +:+ r.
Proof.
  split; [|intros ->; apply strip_prefix_app].
  revert s. induction p as [|c p IH]; intros [|d s] Hs; simplify_eq/=; try done.
  case_bool_decide as Hcd; [|done]. subst. simpl. f_equal. by apply IH.
Qed.

Lemma strings_Cut_Some s sep a b : strings_Cut s sep = Some (a, b) → s = a +:+ sep +:+ b.
Proof.
  revert a. induction s as [|c s IH]; intros a; simpl.
  - destruct (strip_prefix sep "") eqn:Hp; intros [=]; subst. by apply strip_prefix_Some in Hp.
  - destruct (strip_prefix sep (String c s)) eqn:Hp.
    + intros [=]; subst. by apply strip_prefix_Some in Hp.
    + destruct (strings_Cut s sep) as [[a' b']|] eqn:Hc; intros [=]; subst.
      simpl. f_equal. by apply IH.
Qed.

(** The first separator is found when what precedes it lacks its first character. *)
Lemma strings_Cut_app c sep a b :
  has_char c a = false → strings_Cut (a +:+ String c sep +:+ b) (String c sep) = Some (a, b).
Proof.
  induction a as [|d a IH].
  - intros _. simpl. rewrite bool_decide_eq_true_2 by done. by rewrite strip_prefix_app.
  - simpl in *. intros ?. bool_prop. rewrite bool_decide_eq_false_2 by done. by rewrite IH.
Qed.

Lemma strings_CutLast_None c sep s :
  has_char c s = false → strings_CutLast s (String c sep) = None.
Proof.
  induction s as [|d s IH]; simpl; [done|]. intros ?. bool_prop.
  rewrite IH by done. by rewrite bool_decide_eq_false_2.
Qed.

Lemma strings_CutLast_app c a b :
  has_char c b = false → strings_CutLast (a +:+ String c "" +:+ b) (String c "") = Some (a, b).
Proof.
  intros Hb. induction a as [|d a IH]; simpl in *.
  - by rewrite strings_CutLast_None, bool_decide_eq_true_2.
  - by rewrite IH.
Qed.

Lemma strings_Cut_shorter c sep s a b :
  strings_Cut s (String c sep) = Some (a, b) → String.length b < String.length s.
Proof. intros ->%strings_Cut_Some. rewrite !str_app_length. simpl. lia. Qed.

(** strings.Split makes every possible cut. *)
Lemma split_cuts_enough c sep n s :
  String.length s ≤ n → split_cuts n s (String c sep) = strings_Split s (String c sep).
Proof.
  unfold strings_Split. remember (String.length s) as m eqn:Hm.
  revert n s Hm. induction (lt_wf m) as [m _ IH]. intros n s -> Hn.
  destruct (strings_Cut s (String c sep)) as [[a b]|] eqn:Hc.
  - apply strings_Cut_shorter in Hc as Hlt.
    destruct n as [|n], (String.length s) as [|l] eqn:Hl; try lia.
    simpl. rewrite Hc. f_equal. by rewrite (IH (String.length b) Hlt n), (IH (String.length b) Hlt l) by (done || lia).
  - destruct n, (String.length s); simpl; by rewrite ?Hc.
Qed.

(** ** strconv.Atoi and decimal formatting *)
Local Open Scope Z_scope.

Definition digit_val (c : ascii) : option Z :=
  let n := Z.of_N (N_of_ascii c) in
  if (48 <=? n) && (n <=? 57) then Some (n - 48) else None.

Fixpoint parse_digits (acc : Z) (s : string) : option Z :=
  match s with
  | EmptyString => Some acc
  | String c s => d ← digit_val c; parse_digits (acc * 10 + d) s
  end.

Definition int_min : Z := - 2 ^ 63.
Definition int_max : Z := 2 ^ 63 - 1.

(** strconv.Atoi on a 64-bit platform: an optional sign, at least one digit, in range. *)
Definition strconv_Atoi (s : string) : option Z :=
  let '(neg, ds) :=
    match s with
    | String c s' => if c ==? "-"%char then (true, s') else if c ==? "+"%char then (false, s') else (false, s)
    | EmptyString => (false, s)
    end in
  if ds ==? "" then None
  else n ← parse_digits 0 ds;
       let v := if neg : bool then - n else n in
       if (int_min <=? v) && (v <=? int_max) then Some v else None.

(** fmt "%d" *)
Definition fmt_d (n : Z) : string := pretty n.

Lemma digit_val_char (x : N) : (x < 10)%N → digit_val (pretty_N_char x) = Some (Z.of_N x).
Proof.
  intros Hx. assert (x = 0 ∨ x = 1 ∨ x = 2 ∨ x = 3 ∨ x = 4 ∨ x = 5 ∨ x = 6 ∨ x = 7 ∨ x = 8 ∨ x = 9)%N
    as Hc by lia. by destruct_or! Hc; subst.
Qed.

Lemma parse_digits_go (x : N) s : parse_digits 0 (pretty_N_go x s) = parse_digits (Z.of_N x) s.
Proof.
  revert s. induction (N.lt_wf_0 x) as [x _ IH]; intros s.
  assert (x = 0 ∨ 0 < x)%N as [->|Hx] by lia; [done|].
  rewrite pretty_N_go_step by done. rewrite IH by (by apply N.div_lt). simpl.
  rewrite digit_val_char by (by apply N.mod_lt). simpl. f_equal.
  rewrite N2Z.inj_div, N2Z.inj_mod. pose proof (Z.div_mod (Z.of_N x) 10). lia.
Qed.

Lemma pretty_N_go_char (x : N) s c :
  has_char c s = false → digit_val c = None → has_char c (pretty_N_go x s) = false.
Proof.
  intros Hs Hc. revert s Hs. induction (N.lt_wf_0 x) as [x _ IH]; intros s Hs.
  assert (x = 0 ∨ 0 < x)%N as [->|Hx] by lia; [done|].
  rewrite pretty_N_go_step by done. apply IH; [by apply N.div_lt|]. simpl. rewrite Hs, orb_false_r.
  apply bool_decide_eq_false_2. intros ->. rewrite digit_val_char in Hc; [done|by apply N.mod_lt].
Qed.

Lemma pretty_pos_no_sign (p : positive) :
  ∃ c s, pretty p = String c s ∧ c ≠ "-"%char ∧ c ≠ "+"%char.
Proof.
  assert (has_char "-" (pretty p) = false ∧ has_char "+" (pretty p) = false) as [H1 H2].
  { split; by apply pretty_N_go_char. }
  destruct (pretty p) as [|c s] eqn:Hp.
  - pose proof (parse_digits_go (Npos p) "") as Hd. change (pretty_N_go (Npos p) "") with (pretty p) in Hd.
    rewrite Hp in Hd. done.
  - simpl in *. bool_prop. eauto 10.
Qed.

(** Decimal formatting and Atoi are inverse on the int range. *)
Lemma Atoi_fmt_d n : int_min ≤ n ≤ int_max → strconv_Atoi (fmt_d n) = Some n.
Proof.
  intros Hn. unfold fmt_d. destruct n as [|p|p]; [done|..].
  - destruct (pretty_pos_no_sign p) as (c & s & Hp & H1 & H2).
    pose proof (parse_digits_go (Npos p) "") as Hd. change (pretty_N_go (Npos p) "") with (pretty p) in Hd.
    change (pretty (Zpos p)) with (pretty p). unfold strconv_Atoi. rewrite Hp in *.
    rewrite !bool_decide_eq_false_2, Hd by done. simpl.
    by rewrite ?(proj2 (Z.leb_le _ _)) by (unfold int_min, int_max in *; lia).
  - destruct (pretty_pos_no_sign p) as (c & s & Hp & H1 & H2).
    pose proof (parse_digits_go (Npos p) "") as Hd. change (pretty_N_go (Npos p) "") with (pretty p) in Hd.
    change (pretty (Zneg p)) with ("-" +:+ pretty p). unfold strconv_Atoi. rewrite Hp in *. simpl in *.
    rewrite Hd. simpl.
    by rewrite ?(proj2 (Z.leb_le _ _)) by (unfold int_min, int_max in *; lia).
Qed.
