(* ===== verification/Crypto.v ===== *)
(** * Crypto: byte strings, hexadecimal and the SHA digests of the Go standard library

    [crypto/sha1], [crypto/sha256] and [encoding/hex] as executable functions on
    lists of byte values, used by configengine (DeriveUUID, DerivePassword,
    ComputeHash), by the credential manager and by usagecollector.DocumentKey. *)

From S2P Require Import Prelude.
From Stdlib Require Import Ascii.
Local Open Scope Z_scope.

(** ** Bytes of a Go string *)
Definition bytes_of_string (s : string) : list Z :=
  map (λ c, Z.of_N (N_of_ascii c)) (String.list_ascii_of_string s).

(** The [n] low-order bytes of [x], most significant first. *)
Fixpoint be_bytes (n : nat) (x : Z) : list Z :=
  match n with
  | O => []
  | S n => be_bytes n (x / 256) ++ [x mod 256]
  end.

Definition be_word (bs : list Z) : Z := foldl (λ acc b, acc * 256 + b) 0 bs.

Fixpoint chunks {A} (fuel n : nat) (l : list A) : list (list A) :=
  match fuel, l with
  | O, _ | _, [] => []
  | S fuel, _ => take n l :: chunks fuel n (drop n l)
  end.

(** ** 32-bit words *)
Definition w32 (x : Z) : Z := x mod 2 ^ 32.
Definition rotl32 (x n : Z) : Z := Z.lor (w32 (Z.shiftl x n)) (Z.shiftr x (32 - n)).
Definition rotr32 (x n : Z) : Z := Z.lor (Z.shiftr x n) (w32 (Z.shiftl x (32 - n))).
Definition not32 (x : Z) : Z := Z.lxor x (2 ^ 32 - 1).

(** Merkle-Damgard padding shared by SHA-1 and SHA-256 (FIPS 180-4, 5.1.1). *)
Definition md_pad (m : list Z) : list Z :=
  let l := Z.of_nat (length m) in
  m ++ 128 :: replicate (Z.to_nat ((55 - l) mod 64)) 0 ++ be_bytes 8 (8 * l).

Definition md_blocks (m : list Z) : list (list Z) :=
  let p := md_pad m in
  map (λ b, map be_word (chunks 16 4 b)) (chunks (length p) 64 p).

(** ** SHA-1 *)
Definition sha1_f (t : nat) (b c d : Z) : Z :=
  if (t <? 20)%nat then Z.lor (Z.land b c) (Z.land (not32 b) d)
  else if (t <? 40)%nat then Z.lxor (Z.lxor b c) d
  else if (t <? 60)%nat then Z.lor (Z.lor (Z.land b c) (Z.land b d)) (Z.land c d)
  else Z.lxor (Z.lxor b c) d.

Definition sha1_k (t : nat) : Z :=
  if (t <? 20)%nat then 0x5a827999 else if (t <? 40)%nat then 0x6ed9eba1
  else if (t <? 60)%nat then 0x8f1bbcdc else 0xca62c1d6.

Definition sha1_round (st : (Z * Z * Z * Z * Z) * list Z) (t : nat) :=
  let '((a, b, c, d, e), w) := st in
  let wt := nth 0 w 0 in
  let wn := rotl32 (Z.lxor (Z.lxor (nth 13 w 0) (nth 8 w 0)) (Z.lxor (nth 2 w 0) wt)) 1 in
  let tmp := w32 (rotl32 a 5 + sha1_f t b c d + e + sha1_k t + wt) in
  ((tmp, a, rotl32 b 30, c, d), drop 1 w ++ [wn]).

Definition sha1_block (h : Z * Z * Z * Z * Z) (w : list Z) :=
  let '(h0, h1, h2, h3, h4) := h in
  let '((a, b, c, d, e), _) := foldl sha1_round (h, w) (seq 0 80) in
  (w32 (h0 + a), w32 (h1 + b), w32 (h2 + c), w32 (h3 + d), w32 (h4 + e)).

Definition sha1_Sum (m : list Z) : list Z :=
  let '(h0, h1, h2, h3, h4) :=
    foldl sha1_block (0x67452301, 0xefcdab89, 0x98badcfe, 0x10325476, 0xc3d2e1f0) (md_blocks m) in
  be_bytes 4 h0 ++ be_bytes 4 h1 ++ be_bytes 4 h2 ++ be_bytes 4 h3 ++ be_bytes 4 h4.

(** ** SHA-256 *)
(** The integer cube root below 2^35, bit by bit from the top. *)
Fixpoint cbrt_bits (n : nat) (r x : Z) : Z :=
  match n with
  | O => r
  | S n => let c := r + 2 ^ Z.of_nat n in cbrt_bits n (if c * c * c <=? x then c else r) x
  end.

Definition is_prime (n : nat) : bool := forallb (λ d, negb (n mod d =? 0)%nat) (seq 2 (n - 2)).

(** The first 64 primes (FIPS 180-4, 4.2.2): the constants are 32 bits of the fractional part of
    their cube roots. *)
Definition sha256_k : list Z :=
  Eval vm_compute in
    map (λ p, cbrt_bits 35 0 (Z.of_nat p * 2 ^ 96) mod 2 ^ 32) (List.filter is_prime (seq 2 310)).

Definition sha256_round (st : (Z * Z * Z * Z * Z * Z * Z * Z) * list Z) (k : Z) :=
  let '((a, b, c, d, e, f, g, h), w) := st in
  let wt := nth 0 w 0 in
  let w1 := nth 1 w 0 in
  let w14 := nth 14 w 0 in
  let s0 := Z.lxor (Z.lxor (rotr32 w1 7) (rotr32 w1 18)) (Z.shiftr w1 3) in
  let s1 := Z.lxor (Z.lxor (rotr32 w14 17) (rotr32 w14 19)) (Z.shiftr w14 10) in
  let wn := w32 (wt + s0 + nth 9 w 0 + s1) in
  let S1 := Z.lxor (Z.lxor (rotr32 e 6) (rotr32 e 11)) (rotr32 e 25) in
  let ch := Z.lxor (Z.land e f) (Z.land (not32 e) g) in
  let t1 := w32 (h + S1 + ch + k + wt) in
  let S0 := Z.lxor (Z.lxor (rotr32 a 2) (rotr32 a 13)) (rotr32 a 22) in
  let maj := Z.lxor (Z.lxor (Z.land a b) (Z.land a c)) (Z.land b c) in
  let t2 := w32 (S0 + maj) in
  ((w32 (t1 + t2), a, b, c, w32 (d + t1), e, f, g), drop 1 w ++ [wn]).

Definition sha256_block (hh : Z * Z * Z * Z * Z * Z * Z * Z) (w : list Z) :=
  let '(h0, h1, h2, h3, h4, h5, h6, h7) := hh in
  let '((a, b, c, d, e, f, g, h), _) := foldl sha256_round (hh, w) sha256_k in
  (w32 (h0 + a), w32 (h1 + b), w32 (h2 + c), w32 (h3 + d),
   w32 (h4 + e), w32 (h5 + f), w32 (h6 + g), w32 (h7 + h)).

Definition sha256_Sum256 (m : list Z) : list Z :=
  let '(h0, h1, h2, h3, h4, h5, h6, h7) :=
    foldl sha256_block
      (0x6a09e667, 0xbb67ae85, 0x3c6ef372, 0xa54ff53a,
       0x510e527f, 0x9b05688c, 0x1f83d9ab, 0x5be0cd19) (md_blocks m) in
  be_bytes 4 h0 ++ be_bytes 4 h1 ++ be_bytes 4 h2 ++ be_bytes 4 h3 ++
  be_bytes 4 h4 ++ be_bytes 4 h5 ++ be_bytes 4 h6 ++ be_bytes 4 h7.

(** ** Hexadecimal *)
Definition hex_digits : list ascii :=
  String.list_ascii_of_string "0123456789abcdef".

Definition hex_digit (n : Z) : ascii := nth (Z.to_nat n) hex_digits "0"%char.

Definition hex_encode (bs : list Z) : string :=
  String.string_of_list_ascii
    (b ← bs; [hex_digit (b / 16); hex_digit (b mod 16)]).

Example sha256_abc : hex_encode (sha256_Sum256 (bytes_of_string "abc")) =
  "ba7816bf8f01cfea414140de5dae2223b00361a396177a9cb410ff61f20015ad".
Proof. vm_compute. reflexivity. Qed.
Example sha1_abc : hex_encode (sha1_Sum (bytes_of_string "abc")) =
  "a9993e364706816aba3e25717850c26c9cd0d89d".
Proof. vm_compute. reflexivity. Qed.

Definition hex_val (c : ascii) : option Z :=
  let n := Z.of_N (N_of_ascii c) in
  if (48 <=? n) && (n <=? 57) then Some (n - 48)
  else if (97 <=? n) && (n <=? 102) then Some (n - 87)
  else if (65 <=? n) && (n <=? 70) then Some (n - 55)
  else None.

(** hex.DecodeString: [None] on an odd length or a byte that is not a hex digit. *)
Fixpoint hex_decode (cs : list ascii) : option (list Z) :=
  match cs with
  | [] => Some []
  | [_] => None
  | c1 :: c2 :: cs => h ← hex_val c1; l ← hex_val c2; rest ← hex_decode cs; Some (16 * h + l :: rest)
  end.

(** ** Sizes *)
Definition is_byte (b : Z) : Prop := 0 ≤ b < 256.

Lemma be_bytes_length n x : length (be_bytes n x) = n.
Proof. revert x. induction n; intros; simpl; [done|]. rewrite length_app, IHn. simpl. lia. Qed.

Lemma be_bytes_range n x : Forall is_byte (be_bytes n x).
Proof.
  revert x. induction n; intros; simpl; [done|]. apply Forall_app. split; [done|]. repeat constructor; apply Z.mod_pos_bound; lia.
Qed.

Lemma sha1_Sum_length m : length (sha1_Sum m) = 20%nat.
Proof. unfold sha1_Sum. repeat case_match. by rewrite !length_app, !be_bytes_length. Qed.

Lemma sha1_Sum_range m : Forall is_byte (sha1_Sum m).
Proof. unfold sha1_Sum. repeat case_match. rewrite !Forall_app. auto 10 using be_bytes_range. Qed.

Lemma sha256_Sum256_length m : length (sha256_Sum256 m) = 32%nat.
Proof. unfold sha256_Sum256. repeat case_match. by rewrite !length_app, !be_bytes_length. Qed.

Definition is_hex (c : ascii) : bool := bool_decide (c ∈ hex_digits).

Lemma hex_digit_hex n : is_hex (hex_digit n) = true.
Proof.
  unfold is_hex, hex_digit. apply bool_decide_eq_true_2. destruct (nth_in_or_default (Z.to_nat n) hex_digits "0"%char) as [?| ->].
  - by apply list_elem_of_In.
  - vm_compute. left.
Qed.

Fixpoint all_hex (s : string) : bool :=
  match s with EmptyString => true | String c s => is_hex c && all_hex s end.

Lemma hex_encode_cons b bs : hex_encode (b :: bs) = String (hex_digit (b / 16)) (String (hex_digit (b mod 16)) (hex_encode bs)).
Proof. done. Qed.

Lemma hex_encode_hex bs : all_hex (hex_encode bs) = true ∧ String.length (hex_encode bs) = (2 * length bs)%nat.
Proof.
  induction bs as [|b bs [IH1 IH2]]; [done|]. rewrite hex_encode_cons. cbn [all_hex String.length length].
  rewrite !hex_digit_hex, IH1, IH2. split; [done|lia].
Qed.
