(* ===== verification/GoNet.v ===== *)
(** * GoNet: textual IP addresses

    netip.ParseAddr of the Go standard library, with the functions of package
    net that the operator calls and that are defined from it: net.ParseIP and
    net.ParseCIDR. *)

From S2P Require Import Prelude GoStrings Crypto.
From Stdlib Require Import Ascii.

(** A netip.Addr: the bytes of an IPv4 address, or those of an IPv6 address and its zone. *)
Inductive Addr :=
  | Addr4 (bytes : list Z)
  | Addr6 (bytes : list Z) (zone : string).

Definition Addr_Zone (a : Addr) : string := if a is Addr6 _ zone then zone else "".
Definition Addr_BitLen (a : Addr) : Z := if a is Addr4 _ then 32 else 128.

(** parseIPv4Fields: [fields] are the octets before the current one, [val] its
    value so far and [digLen] its number of digits. *)
Fixpoint parseIPv4Fields (fields : list Z) (val : Z) (digLen : nat) (s : string) : option (list Z) :=
  match s with
  | EmptyString => if length fields <? 3 then None else Some (fields ++ [val])
  | String c s =>
    match digit_val c with
    | Some d =>
      if (digLen =? 1) && (val =? 0)%Z then None
      else let val := (val * 10 + d)%Z in if (255 <? val)%Z then None else parseIPv4Fields fields val (S digLen) s
    | None =>
      if c !=? "."%char then None
      else if (digLen =? 0) || (s ==? "") || (length fields =? 3) then None
      else parseIPv4Fields (fields ++ [val]) 0 0 s
    end
  end.

Definition parseIPv4 (s : string) : option Addr := Addr4 <$> parseIPv4Fields [] 0 0 s.

(** The hexadecimal digits at the head of [s], their value, and the rest. *)
Fixpoint take_hex (digits : nat) (acc : Z) (s : string) : nat * Z * string :=
  match s with
  | EmptyString => (digits, acc, s)
  | String c s' =>
    match hex_val c with
    | Some d => take_hex (S digits) (acc * 16 + d) s'
    | None => (digits, acc, s)
    end
  end.

(** The loop of parseIPv6 with room for [n] more groups: the bytes read, the
    position of the ellipsis, and the text left when the loop ends. *)
Fixpoint parseGroups (n : nat) (ip : list Z) (ellipsis : option nat) (s : string) : option (list Z * option nat * string) :=
  match n with
  | O => Some (ip, ellipsis, s)
  | S n =>
    let '(digits, acc, rest) := take_hex 0 0 s in
    if (digits =? 0) || (4 <? digits) then None
    else
      let ip' := ip ++ [acc / 256; acc mod 256]%Z in
      match rest with
      | EmptyString => Some (ip', ellipsis, "")
      | String c rest =>
        if c ==? "."%char then
          if bool_decide (ellipsis = None) && negb (length ip =? 12) then None
          else if 16 <? length ip + 4 then None
          else fields ← parseIPv4Fields [] 0 0 s; Some (ip ++ fields, ellipsis, "")
        else if c !=? ":"%char then None
        else match rest with
             | EmptyString => None
             | String c' rest' =>
               if c' ==? ":"%char then
                 if bool_decide (ellipsis ≠ None) then None
                 else if rest' ==? "" then Some (ip', Some (length ip'), "")
                 else parseGroups n ip' (Some (length ip')) rest'
               else parseGroups n ip' ellipsis rest
             end
      end
  end.

Definition parseIPv6 (s : string) : option Addr :=
  '(s, zone) ← match strings_Cut s "%" with
               | Some (_, "") => None
               | Some (s, zone) => Some (s, zone)
               | None => Some (s, "")
               end;
  let '(ellipsis, s) := match strip_prefix "::" s with Some r => (Some 0, r) | None => (None, s) end in
  if bool_decide (ellipsis ≠ None) && (s ==? "") then Some (Addr6 (replicate 16 0%Z) zone)
  else
    '(ip, ellipsis, rest) ← parseGroups 8 [] ellipsis s;
    if rest !=? "" then None
    else match ellipsis with
         | None => if length ip <? 16 then None else Some (Addr6 ip zone)
         | Some e => if length ip <? 16 then Some (Addr6 (take e ip ++ replicate (16 - length ip) 0%Z ++ drop e ip) zone) else None
         end.

(** The first of the characters dot, colon and percent decides. *)
Fixpoint addrKind (s : string) : option ascii :=
  match s with
  | EmptyString => None
  | String c s => if slices_Contains ["."; ":"; "%"]%char c then Some c else addrKind s
  end.

(** [None] is an error. *)
Definition netip_ParseAddr (s : string) : option Addr :=
  match addrKind s with
  | Some "."%char => parseIPv4 s
  | Some ":"%char => parseIPv6 s
  | _ => None
  end.

(** net.ParseIP(s) != nil *)
Definition net_ParseIP (s : string) : bool :=
  match netip_ParseAddr s with
  | Some a => Addr_Zone a ==? ""
  | None => false
  end.

(** dtoi, for a text that it reads to the end *)
Fixpoint dtoi (n : Z) (s : string) : option Z :=
  match s with
  | EmptyString => Some n
  | String c s => d ← digit_val c; let n := (n * 10 + d)%Z in if (0xFFFFFF <=? n)%Z then None else dtoi n s
  end.

Definition cidrValid (s : string) : bool :=
  match strings_Cut s "/" with
  | None => false
  | Some (addr, mask) =>
    match netip_ParseAddr addr with
    | None => false
    | Some a =>
      (Addr_Zone a ==? "") && (mask !=? "") &&
      match dtoi 0 mask with Some n => (n <=? Addr_BitLen a)%Z | None => false end
    end
  end.

(** The error of net.ParseCIDR. *)
Definition net_ParseCIDR (s : string) : option string :=
  if cidrValid s then None else Some ("invalid CIDR address: " +:+ s).

Lemma cidr_error_text s e : net_ParseCIDR s = Some e → e ≠ "".
Proof. unfold net_ParseCIDR. case_match; by intros [= <-]. Qed.

Example addr_examples :
  netip_ParseAddr "192.0.2.1" = Some (Addr4 [192; 0; 2; 1]%Z) ∧ netip_ParseAddr "192.0.2.01" = None ∧
  netip_ParseAddr "256.0.0.1" = None ∧ netip_ParseAddr "1.2.3" = None ∧ netip_ParseAddr "1.2.3.4.5" = None ∧
  netip_ParseAddr "hk.example" = None ∧ netip_ParseAddr "" = None ∧
  netip_ParseAddr "::1" = Some (Addr6 (replicate 15 0 ++ [1])%Z "") ∧
  netip_ParseAddr "2001:db8::a:b%eth0" = Some (Addr6 ([32; 1; 13; 184] ++ replicate 8 0 ++ [0; 10; 0; 11])%Z "eth0") ∧
  netip_ParseAddr "::ffff:192.0.2.1" = Some (Addr6 (replicate 10 0 ++ [255; 255; 192; 0; 2; 1])%Z "") ∧
  netip_ParseAddr "1:2:3:4:5:6:7" = None ∧ netip_ParseAddr "1::2::3" = None ∧ netip_ParseAddr "1:2:3:4:5:6:7:8::" = None ∧
  net_ParseIP "fe80::1%eth0" = false ∧ net_ParseIP "fe80::1" = true ∧
  cidrValid "10.0.0.0/8" = true ∧ cidrValid "10.0.0.0/33" = false ∧ cidrValid "2001:db8::/33" = true ∧ cidrValid "10.0.0.0/" = false.
Proof. vm_compute. done. Qed.
