(* ===== verification/GoFloat.v ===== *)
(** * GoFloat: the float64 numbers of encoding/json

    json.Unmarshal reads a number into a float64 (strconv.ParseFloat) and
    json.Marshal writes the shortest decimal that reads back as the same float64
    (strconv.AppendFloat with precision -1).  [float64_text] is the composition
    of the two: the text that a number literal becomes when a document is read
    and written again, or [None] when it is out of range. *)

From S2P Require Import Prelude GoStrings.
From Stdlib Require Import Ascii.
Local Open Scope Z_scope.

(** ** The nearest float64 *)

(** [x / y], rounded to the nearest integer, ties to even. *)
Definition div_round (x y : Z) : Z :=
  let q := x / y in
  let r := x mod y in
  if 2 * r <? y then q else if y <? 2 * r then q + 1 else if Z.even q then q else q + 1.

(** [num * 2^-k / den] as a fraction. *)
Definition scale2 (num den k : Z) : Z * Z := if 0 <=? k then (num, den * 2 ^ k) else (num * 2 ^ (- k), den).

(** The float64 nearest to [num / den > 0] as (m, k), meaning m * 2^k: 53 bits,
    or the subnormal exponent -1074; [None] beyond the largest float64. *)
Definition nearest_float64 (num den : Z) : option (Z * Z) :=
  let k0 := Z.log2 num - Z.log2 den - 52 in
  let '(a, b) := scale2 num den k0 in
  let k := Z.max (if a <? 2 ^ 52 * b then k0 - 1 else k0) (-1074) in
  let '(a, b) := scale2 num den k in
  let m := div_round a b in
  let '(m, k) := if m =? 2 ^ 53 then (2 ^ 52, k + 1) else (m, k) in
  if 971 <? k then None else Some (m, k).

(** The fraction [d * 10^p]. *)
Definition dec_fraction (d p : Z) : Z * Z := if 0 <=? p then (d * 10 ^ p, 1) else (d, 10 ^ (- p)).

(** The float64 nearest to [d * 10^p]; the bounds on the decimal exponent only
    avoid huge powers: beyond them the result is infinite or zero. *)
Definition decimal_float64 (d p : Z) : option (Z * Z) :=
  if d =? 0 then Some (0, 0)
  else
    let digits := Z.of_nat (String.length (pretty d)) in
    if 310 <? p + digits then None
    else if p + digits <? -330 then Some (0, 0)
    else let '(num, den) := dec_fraction d p in nearest_float64 num den.

(** ** The shortest decimal *)

(** The number of digits before the decimal point of [num / den], possibly
    negative: the least [e] with [num / den < 10^e], searched downwards from an
    upper bound. *)
Fixpoint decimal_exponent (fuel : nat) (num den e : Z) : Z :=
  match fuel with
  | O => e
  | S fuel =>
    let '(a, b) := dec_fraction 1 (e - 1) in
    if num * b <? a * den then decimal_exponent fuel num den (e - 1) else e
  end.

(** Whether [d * 10^p] reads as the float64 (m, k). *)
Definition reads_as (m k d p : Z) : bool := bool_decide (decimal_float64 d p = Some (m, k)).

(** The decimals of [n] digits next to [num / den] below and above; the nearer
    one that reads back, then the other. *)
Definition digits_candidate (m k num den e : Z) (n : nat) : option (Z * Z) :=
  let p := e - Z.of_nat n in
  let '(a, b) := dec_fraction 1 p in
  let x := num * b in
  let y := den * a in
  let lo := x / y in
  let near := div_round x y in
  let far := if near =? lo then lo + 1 else lo in
  if reads_as m k near p then Some (near, p)
  else if reads_as m k far p then Some (far, p) else None.

(** Seventeen digits always read back. *)
Definition shortest_decimal (m k : Z) : Z * Z :=
  let '(num, den) := if 0 <=? k then (m * 2 ^ k, 1) else (m, 2 ^ (- k)) in
  let e := decimal_exponent 700 num den 310 in
  default (m, 0) (head (omap (digits_candidate m k num den e) (seq 1 17))).

(** ** Formatting *)
Fixpoint zeros (n : nat) : string := match n with O => "" | S n => String "0" (zeros n) end.

(** AppendFloat with format 'f': the digits [ds], the point after [point] of them. *)
Definition format_f (ds : string) (point : Z) : string :=
  let len := Z.of_nat (String.length ds) in
  if point <=? 0 then "0." +:+ zeros (Z.to_nat (- point)) +:+ ds
  else if len <=? point then ds +:+ zeros (Z.to_nat (point - len))
  else String.substring 0 (Z.to_nat point) ds +:+ "." +:+ String.substring (Z.to_nat point) (Z.to_nat (len - point)) ds.

(** Format 'e' with the clean-up of encoding/json: no leading zero in the exponent. *)
Definition format_e (ds : string) (point : Z) : string :=
  let x := point - 1 in
  let mantissa := match ds with
                  | String c "" => ds
                  | String c rest => String c ("." +:+ rest)
                  | "" => ""
                  end in
  mantissa +:+ (if x <? 0 then "e-" else "e+") +:+ pretty (Z.abs x).

Fixpoint strip_zeros (fuel : nat) (d p : Z) : Z * Z :=
  match fuel with
  | O => (d, p)
  | S fuel => if d mod 10 =? 0 then strip_zeros fuel (d / 10) (p + 1) else (d, p)
  end.

(** [abs < 1e-6 || abs >= 1e21] selects the exponent form; [point] is its decimal exponent. *)
Definition format_float64 (negative : bool) (v : Z * Z) : string :=
  let sign : string := if negative then "-" else "" in
  if v.1 =? 0 then sign +:+ "0"
  else
    let '(d, p) := shortest_decimal v.1 v.2 in
    let '(d, p) := strip_zeros 20 d p in
    let ds := pretty d in
    let point := p + Z.of_nat (String.length ds) in
    sign +:+ (if (point <=? -6) || (21 <? point) then format_e ds point else format_f ds point).

(** ** Number literals *)
Fixpoint take_digits (s : string) : string * string :=
  match s with
  | String c s' => match digit_val c with Some _ => prod_map (String c) id (take_digits s') | None => ("", s) end
  | EmptyString => ("", "")
  end.

(** The parts of a literal of the JSON grammar: sign, digits, fraction digits, exponent. *)
Definition literal_parts (s : string) : bool * string * string * Z :=
  let '(neg, s) := match strip_prefix "-" s with Some r => (true, r) | None => (false, s) end in
  let '(int, s) := take_digits s in
  let '(frac, s) := match strip_prefix "." s with Some r => take_digits r | None => ("", s) end in
  let exponent :=
    match s with
    | EmptyString => 0
    | String _ s =>
      match strip_prefix "-" s with
      | Some r => - default 0 (parse_digits 0 r)
      | None => default 0 (parse_digits 0 (strings_TrimPrefix s "+"))
      end
    end in
  (neg, int, frac, exponent).

Definition float64_text (literal : string) : option string :=
  let '(neg, int, frac, exponent) := literal_parts literal in
  let d := default 0 (parse_digits 0 (int +:+ frac)) in
  format_float64 neg <$> decimal_float64 d (exponent - Z.of_nat (String.length frac)).

(** Literals and what Go makes of them. *)
Example float64_text_examples :
  float64_text <$> ["0"; "-0"; "443"; "0.1"; "1.50"; "9007199254740993"; "1e21"; "123456789012345678901"; "0.000001"; "1e-7";
                    "2e308"; "0.30000000000000004"; "1e-400"] =
  [Some "0"; Some "-0"; Some "443"; Some "0.1"; Some "1.5"; Some "9007199254740992"; Some "1e+21"; Some "123456789012345680000";
   Some "0.000001"; Some "1e-7"; None;
   Some "0.30000000000000004"; Some "0"].
Proof. vm_compute. reflexivity. Qed.
