(* ===== verification/Json.v ===== *)
(** * Json: Go's [any] values and encoding/json.Marshal

    [json] is what a Go [any] holds when the operator builds configurations.  A
    [map[string]any] is a [JObj] whose keys are kept in ascending order by
    [obj_set]: a Go map has no order of its own, and json.Marshal writes its
    keys sorted, so the sorted list is the canonical form.  A Go struct is a
    [JObj] in field order.  A nil slice or map is [JNull].  [JNum] is an integer;
    a float64 that json.Unmarshal read is a [JFloat] of the text that
    json.Marshal writes for it. *)

From S2P Require Import Prelude Crypto.
From Stdlib Require Import Ascii.

#[warnings="-register-all"]
Inductive json :=
  | JNull
  | JBool (b : bool)
  | JNum (n : Z)
  | JFloat (text : string)
  | JStr (s : string)
  | JArr (l : list json)
  | JObj (o : list (string * json)).

(** ** Maps *)
Fixpoint obj_get (k : string) (o : list (string * json)) : option json :=
  match o with
  | [] => None
  | (k', v) :: o => if k ==? k' then Some v else obj_get k o
  end.

(** [m[k] = v] *)
Fixpoint obj_set (k : string) (v : json) (o : list (string * json)) : list (string * json) :=
  match o with
  | [] => [(k, v)]
  | (k', v') :: o' =>
    if k ==? k' then (k, v) :: o'
    else if str_less k k' then (k, v) :: o
    else (k', v') :: obj_set k v o'
  end.

(** [delete(m, k)] *)
Definition obj_delete (k : string) (o : list (string * json)) : list (string * json) :=
  filter (λ kv, kv.1 ≠ k) o.

(** A composite literal [map[string]any{...}]. *)
Definition obj_of (l : list (string * json)) : list (string * json) :=
  foldl (λ o kv, obj_set kv.1 kv.2 o) [] l.

(** maps.Copy(dst, src) *)
Definition obj_copy (dst src : list (string * json)) : list (string * json) :=
  foldl (λ o kv, obj_set kv.1 kv.2 o) dst src.

Lemma obj_get_set_eq k v o : obj_get k (obj_set k v o) = Some v.
Proof.
  induction o as [|[k' v'] o IH]; simpl; [by rewrite bool_decide_eq_true_2|].
  case_bool_decide as Hk; simpl; [by rewrite bool_decide_eq_true_2|].
  destruct (str_less k k'); simpl; [by rewrite bool_decide_eq_true_2|].
  by rewrite bool_decide_eq_false_2.
Qed.

Lemma obj_get_set_ne k k' v o : k ≠ k' → obj_get k (obj_set k' v o) = obj_get k o.
Proof.
  intros Hne. induction o as [|[k2 v2] o IH]; simpl; [by rewrite bool_decide_eq_false_2|].
  case_bool_decide as Hk; simpl.
  - subst. by rewrite !(bool_decide_eq_false_2 (k = k2)).
  - destruct (str_less k' k2); simpl; [by rewrite (bool_decide_eq_false_2 (k = k'))|].
    by rewrite IH.
Qed.

Lemma obj_get_delete_eq k o : obj_get k (obj_delete k o) = None.
Proof.
  unfold obj_delete. induction o as [|[k' v] o IH]; [done|]. rewrite filter_cons. simpl.
  case_decide; simpl; [|done]. by rewrite bool_decide_eq_false_2.
Qed.

Lemma obj_get_delete_ne k k' o : k ≠ k' → obj_get k (obj_delete k' o) = obj_get k o.
Proof.
  intros Hne. unfold obj_delete. induction o as [|[k2 v] o IH]; [done|]. rewrite filter_cons. simpl.
  case_decide; simpl; rewrite IH; [done|]. rewrite bool_decide_eq_false_2; naive_solver.
Qed.

#[export] Hint Rewrite obj_get_set_eq obj_get_delete_eq : go.

(** [v.(map[string]any)], [v.(string)], [v.([]any)] *)
Definition as_obj (j : json) : option (list (string * json)) := if j is JObj o then Some o else None.
Definition as_str (j : json) : option string := if j is JStr s then Some s else None.
Definition as_arr (j : json) : option (list json) := if j is JArr l then Some l else None.

(** [s, _ := m[k].(string)] *)
Definition get_str (k : string) (o : list (string * json)) : string :=
  default "" (obj_get k o ≫= as_str).

(** ** json.Marshal *)
Definition dquote : string := String "034"%char "".
Definition backslash : string := String "092"%char "".
Definition newline : string := String "010"%char "".

(** The size of the valid UTF-8 sequence at the head of [bs], [None] when invalid. *)
Definition utf8_size (bs : list Z) : option nat :=
  (let cont b := (128 <=? b) && (b <=? 191) in
  let within lo hi b := (lo <=? b) && (b <=? hi) in
  match bs with
  | b0 :: b1 :: rest =>
    if within 194 223 b0 then if cont b1 then Some 2%nat else None
    else match rest with
    | b2 :: rest =>
      if within 224 239 b0 then
        let ok1 := if b0 =? 224 then within 160 191 b1
                   else if b0 =? 237 then within 128 159 b1 else cont b1 in
        if ok1 && cont b2 then Some 3%nat else None
      else match rest with
      | b3 :: _ =>
        if within 240 244 b0 then
          let ok1 := if b0 =? 240 then within 144 191 b1
                     else if b0 =? 244 then within 128 143 b1 else cont b1 in
          if ok1 && cont b2 && cont b3 then Some 4%nat else None
        else None
      | [] => None
      end
    | [] => None
    end
  | _ => None
  end)%Z.

(** An ASCII byte inside a JSON string; [html] is the encoder's escapeHTML, which
    json.Marshal sets. *)
Definition json_ascii (html : bool) (c : ascii) : string :=
  let n := Z.of_N (N_of_ascii c) in
  if (n =? 34)%Z || (n =? 92)%Z then backslash +:+ String c ""
  else if (n =? 8)%Z then backslash +:+ "b"
  else if (n =? 12)%Z then backslash +:+ "f"
  else if (n =? 10)%Z then backslash +:+ "n"
  else if (n =? 13)%Z then backslash +:+ "r"
  else if (n =? 9)%Z then backslash +:+ "t"
  else if (n <? 32)%Z || html && ((n =? 60)%Z || (n =? 62)%Z || (n =? 38)%Z)
  then backslash +:+ "u00" +:+ hex_encode [n]
  else String c "".

(** [copy] bytes of the current rune are still to be copied, [skip] to be dropped. *)
Fixpoint json_escape (html : bool) (copy skip : nat) (s : string) : string :=
  match s with
  | EmptyString => ""
  | String c s' =>
    match skip, copy with
    | S skip, _ => json_escape html copy skip s'
    | O, S copy => String c (json_escape html copy 0 s')
    | O, O =>
      if (Z.of_N (N_of_ascii c) <? 128)%Z then json_ascii html c +:+ json_escape html 0 0 s'
      else match utf8_size (bytes_of_string s) with
      | None => backslash +:+ "ufffd" +:+ json_escape html 0 0 s'
      | Some n =>
        match take 3 (bytes_of_string s) with
        | [226; 128; 168]%Z => backslash +:+ "u2028" +:+ json_escape html 0 2 s'
        | [226; 128; 169]%Z => backslash +:+ "u2029" +:+ json_escape html 0 2 s'
        | _ => String c (json_escape html (pred n) 0 s')
        end
      end
    end
  end.

Definition json_quote (html : bool) (s : string) : string := dquote +:+ json_escape html 0 0 s +:+ dquote.

Fixpoint join (sep : string) (l : list string) : string :=
  match l with
  | [] => ""
  | [x] => x
  | x :: l => x +:+ sep +:+ join sep l
  end.

(** json.Encoder.Encode, without the newline. *)
Fixpoint json_Encode (html : bool) (j : json) : string :=
  match j with
  | JNull => "null"
  | JBool b => if b then "true" else "false"
  | JNum n => pretty n
  | JFloat text => text
  | JStr s => json_quote html s
  | JArr l => "[" +:+ join "," (map (json_Encode html) l) +:+ "]"
  | JObj o => "{" +:+ join "," (map (λ kv, json_quote html kv.1 +:+ ":" +:+ json_Encode html kv.2) o) +:+ "}"
  end.

Abbreviation json_Marshal := (json_Encode true).

Example marshal_example :
  json_Marshal (JObj (obj_of [("type", JStr "direct"); ("tag", JStr "a<b"); ("port", JNum 10808)])) =
  join dquote ["{"; "port"; ":10808,"; "tag"; ":"; "a" +:+ backslash +:+ "u003cb"; ","; "type"; ":"; "direct"; "}"].
Proof. reflexivity. Qed.
