(* ===== verification/JsonParse.v ===== *)
(** * JsonParse: encoding/json.Unmarshal

    A recursive-descent parser for the JSON grammar that encoding/json accepts
    (its scanner, string unquoting and nesting limit), into a tree that keeps
    the members of an object in order; [tree_any] is the [any] value that
    json.Unmarshal builds from the tree. *)

From S2P Require Import Prelude GoStrings Crypto Json GoFloat.
From Stdlib Require Import Ascii.

(** ** Syntax trees *)
#[warnings="-register-all"]
Inductive jtree :=
  | TNull
  | TBool (b : bool)
  | TNum (literal : string)
  | TStr (s : string)
  | TArr (l : list jtree)
  | TObj (l : list (string * jtree)).

(** ** Strings *)
Definition byte_val (c : ascii) : Z := Z.of_N (N_of_ascii c).

(** utf8.EncodeRune *)
Definition utf8_encode (r : Z) : string :=
  (let byte n := ascii_of_N (Z.to_N n) in
  let cont n := byte (128 + n mod 64) in
  if r <? 128 then String (byte r) ""
  else if r <? 2048 then String (byte (192 + r / 64)) (String (cont r) "")
  else if r <? 65536 then String (byte (224 + r / 4096)) (String (cont (r / 64)) (String (cont r) ""))
  else String (byte (240 + r / 262144)) (String (cont (r / 4096)) (String (cont (r / 64)) (String (cont r) ""))))%Z.

(** unicode.ReplacementChar *)
Definition replacement : string := utf8_encode 65533.

Definition hex4 (a b c d : ascii) : option Z :=
  a ← hex_val a; b ← hex_val b; c ← hex_val c; d ← hex_val d; Some (((a * 16 + b) * 16 + c) * 16 + d)%Z.

(** The character of a one-letter escape. *)
Definition simple_escape (c : ascii) : option ascii :=
  let n := byte_val c in
  if (n =? 34)%Z || (n =? 92)%Z || (n =? 47)%Z then Some c
  else if (n =? 98)%Z then Some "008"%char
  else if (n =? 102)%Z then Some "012"%char
  else if (n =? 110)%Z then Some "010"%char
  else if (n =? 114)%Z then Some "013"%char
  else if (n =? 116)%Z then Some "009"%char
  else None.

Definition is_surrogate (r : Z) : bool := ((55296 <=? r) && (r <=? 57343))%Z.

(** utf16.DecodeRune, [None] for the replacement character *)
Definition decode_pair (r1 r2 : Z) : option Z :=
  if ((55296 <=? r1) && (r1 <=? 56319) && (56320 <=? r2) && (r2 <=? 57343))%Z
  then Some ((r1 - 55296) * 1024 + (r2 - 56320) + 65536)%Z else None.

Definition prepend (a : string) (r : option (string * string)) : option (string * string) := prod_map (String.append a) id <$> r.

(** The value of a string literal whose opening quote was read, and the rest
    after its closing quote.  [copy] bytes of the current rune are still to be
    copied; an invalid byte becomes the replacement character. *)
Fixpoint unquote (copy : nat) (s : string) : option (string * string) :=
  match s with
  | EmptyString => None
  | String c s1 =>
    match copy with
    | S copy => prepend (String c "") (unquote copy s1)
    | O =>
      let n := byte_val c in
      if (n =? 34)%Z then Some ("", s1)
      else if (n =? 92)%Z then
        match s1 with
        | EmptyString => None
        | String e s2 =>
          if (byte_val e =? 117)%Z then
            match s2 with
            | String a (String b (String c (String d s3))) =>
              match hex4 a b c d with
              | None => None
              | Some r =>
                if is_surrogate r then
                  match s3 with
                  | String q (String u (String a' (String b' (String c' (String d' s4))))) =>
                    match (if ((byte_val q =? 92) && (byte_val u =? 117))%Z then hex4 a' b' c' d' ≫= decode_pair r else None) with
                    | Some dec => prepend (utf8_encode dec) (unquote 0 s4)
                    | None => prepend replacement (unquote 0 s3)
                    end
                  | _ => prepend replacement (unquote 0 s3)
                  end
                else prepend (utf8_encode r) (unquote 0 s3)
              end
            | _ => None
            end
          else match simple_escape e with
               | Some x => prepend (String x "") (unquote 0 s2)
               | None => None
               end
        end
      else if (n <? 32)%Z then None
      else if (n <? 128)%Z then prepend (String c "") (unquote 0 s1)
      else match utf8_size (bytes_of_string s) with
           | Some k => prepend (String c "") (unquote (pred k) s1)
           | None => prepend replacement (unquote 0 s1)
           end
    end
  end.

(** ** Numbers *)
Definition nonempty (r : string * string) : option (string * string) := if r.1 ==? "" then None else Some r.

(** int: 0, or a non-zero digit and digits *)
Definition scan_int (s : string) : option (string * string) :=
  match s with
  | String "0" s => Some ("0", s)
  | _ => nonempty (take_digits s)
  end.

(** The longest number literal at the head of [s]; [None] when it is malformed. *)
Definition scan_number (s : string) : option (string * string) :=
  let '(sign, s) := match strip_prefix "-" s with Some r => ("-", r) | None => ("", s) end in
  int ← scan_int s;
  frac ← match strip_prefix "." int.2 with
         | Some r => prod_map (String.append ".") id <$> nonempty (take_digits r)
         | None => Some ("", int.2)
         end;
  ex ← match frac.2 with
       | String e r =>
         if ((byte_val e =? 101) || (byte_val e =? 69))%Z then
           let '(sg, r) := match r with
                           | String "+" r => ("+", r)
                           | String "-" r => ("-", r)
                           | _ => ("", r)
                           end in
           prod_map (String.append (String e sg)) id <$> nonempty (take_digits r)
         else Some ("", frac.2)
       | EmptyString => Some ("", "")
       end;
  Some (sign +:+ int.1 +:+ frac.1 +:+ ex.1, ex.2).

(** ** Values *)
Fixpoint skip_ws (s : string) : string :=
  match s with
  | String c s' => if slices_Contains [32; 9; 10; 13]%Z (byte_val c) then skip_ws s' else s
  | EmptyString => ""
  end.

(** maxNestingDepth of encoding/json *)
Definition maxNestingDepth : nat := 100 * 100.
#[global] Arguments maxNestingDepth : simpl never.

(** A parse that ends: a tree and the rest, or a syntax error.  [None] is a
    parse that ran out of fuel. *)
Definition presult : Type := option (option (jtree * string)).

Fixpoint parse_value (fuel depth : nat) (s : string) : presult :=
  match fuel with
  | O => None
  | S fuel =>
    match skip_ws s with
    | EmptyString => Some None
    | String c s1 =>
      let n := byte_val c in
      if (n =? 123)%Z then
        if maxNestingDepth <=? depth then Some None
        else match strip_prefix "}" (skip_ws s1) with
             | Some rest => Some (Some (TObj [], rest))
             | None => parse_members fuel (S depth) [] s1
             end
      else if (n =? 91)%Z then
        if maxNestingDepth <=? depth then Some None
        else match strip_prefix "]" (skip_ws s1) with
             | Some rest => Some (Some (TArr [], rest))
             | None => parse_elements fuel (S depth) [] s1
             end
      else if (n =? 34)%Z then Some (prod_map TStr id <$> unquote 0 s1)
      else
        match strip_prefix "null" (String c s1), strip_prefix "true" (String c s1), strip_prefix "false" (String c s1) with
        | Some rest, _, _ => Some (Some (TNull, rest))
        | _, Some rest, _ => Some (Some (TBool true, rest))
        | _, _, Some rest => Some (Some (TBool false, rest))
        | None, None, None => Some (prod_map TNum id <$> scan_number (String c s1))
        end
    end
  end
with parse_elements (fuel depth : nat) (acc : list jtree) (s : string) : presult :=
  match fuel with
  | O => None
  | S fuel =>
    match parse_value fuel depth s with
    | Some (Some (v, rest)) =>
      match strip_prefix "," (skip_ws rest), strip_prefix "]" (skip_ws rest) with
      | Some rest, _ => parse_elements fuel depth (acc ++ [v]) rest
      | None, Some rest => Some (Some (TArr (acc ++ [v]), rest))
      | None, None => Some None
      end
    | r => r
    end
  end
with parse_members (fuel depth : nat) (acc : list (string * jtree)) (s : string) : presult :=
  match fuel with
  | O => None
  | S fuel =>
    match strip_prefix dquote (skip_ws s) ≫= unquote 0 with
    | None => Some None
    | Some (key, rest) =>
      match strip_prefix ":" (skip_ws rest) with
      | None => Some None
      | Some rest =>
        match parse_value fuel depth rest with
        | Some (Some (v, rest)) =>
          match strip_prefix "," (skip_ws rest), strip_prefix "}" (skip_ws rest) with
          | Some rest, _ => parse_members fuel depth (acc ++ [(key, v)]) rest
          | None, Some rest => Some (Some (TObj (acc ++ [(key, v)]), rest))
          | None, None => Some None
          end
        | r => r
        end
      end
    end
  end.

(** Enough fuel for any text ([parse_value_total]). *)
Definition parse_fuel (s : string) : nat := S (2 * String.length s).

(** json.Valid and the syntax tree of the document. *)
Definition json_parse (s : string) : option jtree :=
  match parse_value (parse_fuel s) 0 s with
  | Some (Some (t, rest)) => if skip_ws rest ==? "" then Some t else None
  | _ => None
  end.

(** ** json.Unmarshal *)

(** The [any] of a tree, [None] when a number is out of the range of float64
    (json.Unmarshal then returns an error).  A repeated key keeps its last value. *)
Fixpoint tree_any (t : jtree) : option json :=
  match t with
  | TNull => Some JNull
  | TBool b => Some (JBool b)
  | TNum literal => JFloat <$> float64_text literal
  | TStr s => Some (JStr s)
  | TArr l => JArr <$> mapM tree_any l
  | TObj l => (λ kvs, JObj (obj_of kvs)) <$> mapM (λ kv, pair kv.1 <$> tree_any kv.2) l
  end.

(** json.Unmarshal(data, &m) for a nil [m map[string]any]: the document [null]
    leaves it nil; [None] is an error. *)
Definition json_Unmarshal_map (data : string) : option (option (list (string * json))) :=
  t ← json_parse data;
  j ← tree_any t;
  match j with
  | JObj o => Some (Some o)
  | JNull => Some None
  | _ => None
  end.
