(* ===== verification/JsonRoundtrip.v ===== *)
(** * JsonRoundtrip: json.Unmarshal reads back what json.Marshal writes

    The document of a value is parsed to the tree of the value, in which an
    invalid UTF-8 byte of a string has become the replacement character. *)

From S2P Require Import Prelude GoStrings Crypto Json GoFloat JsonParse JsonFacts.
From Stdlib Require Import Ascii.

(** ** Strings *)
Fixpoint utf8_sanitize (copy : nat) (s : string) : string :=
  match s with
  | EmptyString => ""
  | String c s' =>
    match copy with
    | S copy => String c (utf8_sanitize copy s')
    | O =>
      if (byte_val c <? 128)%Z then String c (utf8_sanitize 0 s')
      else match utf8_size (bytes_of_string s) with
           | Some n => String c (utf8_sanitize (pred n) s')
           | None => replacement +:+ utf8_sanitize 0 s'
           end
    end
  end.

(** The escape of an ASCII character is read as that character. *)
Lemma unquote_ascii html c t :
  (byte_val c <? 128)%Z = true → unquote 0 (json_ascii html c +:+ t) = prepend (String c "") (unquote 0 t).
Proof. destruct html, c as [[] [] [] [] [] [] [] []]; intros Hc; try discriminate Hc; reflexivity. Qed.

(** A rune of [n] bytes depends on its first [n] bytes only. *)
Lemma utf8_size_prefix b bs bs' n :
  utf8_size (b :: bs) = Some n → take (pred n) bs = take (pred n) bs' → utf8_size (b :: bs') = Some n.
Proof.
  unfold utf8_size. destruct bs as [|b1 bs]; [done|].
  destruct ((194 <=? b)%Z && (b <=? 223)%Z) eqn:H2.
  { case_match eqn:Hc; [|done]. intros [= <-] Hbs. destruct bs' as [|b1' bs']; [done|]. injection Hbs as <-. by rewrite Hc. }
  destruct bs as [|b2 bs]; [done|]. destruct ((224 <=? b)%Z && (b <=? 239)%Z) eqn:H3.
  { case_match eqn:Hc; [|done]. intros [= <-] Hbs.
    destruct bs' as [|b1' [|b2' bs']]; [done..|]. injection Hbs as <- <-. by rewrite Hc. }
  destruct bs as [|b3 bs]; [done|]. destruct ((240 <=? b)%Z && (b <=? 244)%Z) eqn:H4; [|done].
  case_match eqn:Hc; [|done]. intros [= <-] Hbs.
  destruct bs' as [|b1' [|b2' [|b3' bs']]]; [done..|]. injection Hbs as <- <- <-. by rewrite Hc.
Qed.

Lemma utf8_size_bound bs n : utf8_size bs = Some n → 2 ≤ n ≤ 4 ∧ n ≤ length bs.
Proof.
  unfold utf8_size. destruct bs as [|b0 [|b1 rest]]; [done..|]. case_match; [case_match; intros; simplify_eq/=; lia|].
  destruct rest as [|b2 rest]; [done|]. case_match; [case_match; intros; simplify_eq/=; lia|].
  destruct rest as [|b3 rest]; [done|]. repeat case_match; intros; simplify_eq/=; lia.
Qed.

(** While a rune is copied the escaped text is the text. *)
Lemma json_escape_copy html k s r :
  k ≤ String.length s → take k (bytes_of_string (json_escape html k 0 s +:+ r)) = take k (bytes_of_string s).
Proof.
  revert s. induction k as [|k IH]; intros [|c s] Hk; simpl in *; [done..|lia|]. f_equal. apply IH. lia.
Qed.

Lemma bytes_of_string_length s : length (bytes_of_string s) = String.length s.
Proof. unfold bytes_of_string. rewrite length_map. induction s; simpl; congruence. Qed.

Lemma byte_val_inj c c' : byte_val c = byte_val c' → c = c'.
Proof.
  unfold byte_val. intros H%N2Z.inj. rewrite <-(ascii_N_embedding c), <-(ascii_N_embedding c'). by rewrite H.
Qed.

(** The runes U+2028 and U+2029, which json.Marshal escapes although they are valid. *)
Lemma json_escape_rune html c s n :
  (byte_val c <? 128)%Z = false → utf8_size (bytes_of_string (String c s)) = Some n →
  json_escape html 0 0 (String c s) = String c (json_escape html (pred n) 0 s) ∨
  (∃ r s', (r = 8232 ∨ r = 8233)%Z ∧ String c s = utf8_encode r +:+ s' ∧ n = 3 ∧
           ∀ t, unquote 0 (json_escape html 0 0 (String c s) +:+ t) = prepend (utf8_encode r) (unquote 0 (json_escape html 0 0 s' +:+ t))).
Proof.
  intros Hc Hn. unfold byte_val in Hc. cbn [json_escape]. rewrite Hc, Hn.
  assert (∀ x, take 3 (bytes_of_string (String c s)) = [226; 128; x]%Z → ∃ c3 s', byte_val c3 = x ∧ c = "226"%char ∧ s = String "128" (String c3 s')) as Hshape.
  { intros x Hx. destruct s as [|c2 [|c3 s']]; try done. unfold bytes_of_string in Hx. simpl in Hx. injection Hx as H1 H2 H3.
    exists c3, s'. split; [done|]. split; [by apply byte_val_inj|]. f_equal. by apply byte_val_inj. }
  destruct (decide (take 3 (bytes_of_string (String c s)) = [226; 128; 168]%Z)) as [H8|H8].
  { right. destruct (Hshape _ H8) as (c3 & s' & H3 & -> & ->). assert (c3 = "168"%char) as -> by (by apply byte_val_inj).
    exists 8232%Z, s'. split_and!; [by left|done|vm_compute in Hn; congruence|done]. }
  destruct (decide (take 3 (bytes_of_string (String c s)) = [226; 128; 169]%Z)) as [H9|H9].
  { right. destruct (Hshape _ H9) as (c3 & s' & H3 & -> & ->). assert (c3 = "169"%char) as -> by (by apply byte_val_inj).
    exists 8233%Z, s'. split_and!; [by right|done|vm_compute in Hn; congruence|done]. }
  left. destruct (take 3 (bytes_of_string (String c s))) as [|b0 [|b1 [|b2 [|]]]]; repeat (case_match; try done); by simplify_eq.
Qed.

Lemma unquote_escape html s copy t :
  copy ≤ String.length s →
  unquote copy (json_escape html copy 0 s +:+ dquote +:+ t) = Some (utf8_sanitize copy s, t).
Proof.
  remember (String.length s) as n eqn:Hn. revert s Hn copy. induction (lt_wf n) as [n _ IH]. intros [|c s] -> copy Hcopy.
  { by assert (copy = 0) as -> by (simpl in Hcopy; lia). }
  assert (∀ s' k, String.length s' < String.length (String c s) → k ≤ String.length s' →
            unquote k (json_escape html k 0 s' +:+ dquote +:+ t) = Some (utf8_sanitize k s', t)) as IH' by (intros; by eapply IH).
  clear IH. destruct copy as [|k].
  2: { simpl in *. by rewrite IH' by lia. }
  cbn [utf8_sanitize]. destruct (byte_val c <? 128)%Z eqn:Hc.
  { assert (json_escape html 0 0 (String c s) = json_ascii html c +:+ json_escape html 0 0 s) as ->
      by (cbn [json_escape]; unfold byte_val in Hc; by rewrite Hc).
    rewrite str_app_assoc, unquote_ascii by done. by rewrite IH' by (simpl; lia). }
  destruct (utf8_size (bytes_of_string (String c s))) as [n|] eqn:Hsize.
  2: { assert (json_escape html 0 0 (String c s) = backslash +:+ "ufffd" +:+ json_escape html 0 0 s) as ->
         by (cbn [json_escape]; unfold byte_val in Hc; by rewrite Hc, Hsize).
       change (prepend replacement (unquote 0 (json_escape html 0 0 s +:+ dquote +:+ t)) = Some (replacement +:+ utf8_sanitize 0 s, t)).
       by rewrite IH' by (simpl; lia). }
  destruct (utf8_size_bound _ _ Hsize) as [Hn Hlen]. rewrite bytes_of_string_length in Hlen. cbn [String.length] in *.
  destruct (json_escape_rune html c s n Hc Hsize) as [-> | (r & s' & Hr & Hs & -> & Hu)].
  - change (String c ?x +:+ ?y) with (String c (x +:+ y)). cbn [unquote].
    rewrite (proj2 (Z.eqb_neq _ _)), (proj2 (Z.eqb_neq _ _)), (proj2 (Z.ltb_ge _ 32)), Hc by lia.
    change (bytes_of_string (String c ?x)) with (byte_val c :: bytes_of_string x) in *.
    rewrite (utf8_size_prefix _ _ _ _ Hsize) by (symmetry; apply json_escape_copy; lia).
    by rewrite IH' by lia.
  - rewrite Hu, IH' by (try lia; apply (f_equal String.length) in Hs; destruct Hr as [-> | ->]; simpl in Hs; lia).
    unfold prepend. simpl fmap. f_equal. f_equal. destruct Hr as [-> | ->]; injection Hs as -> ->; done.
Qed.

(** ** Numbers *)

(** The text after a number does not continue it. *)
Definition stops (rest : string) : Prop :=
  match rest with
  | EmptyString => True
  | String c _ => digit_val c = None ∧ c ≠ "."%char ∧ c ≠ "e"%char ∧ c ≠ "E"%char
  end.

(** A complete number literal. *)
Definition literal_ok (t : string) : Prop :=
  (∃ c t', t = String c t' ∧ (is_Some (digit_val c) ∨ c = "-"%char)) ∧
  ∀ rest, stops rest → scan_number (t +:+ rest) = Some (t, rest).

Fixpoint all_digits (s : string) : Prop :=
  match s with EmptyString => True | String c s => is_Some (digit_val c) ∧ all_digits s end.

Lemma all_digits_app s t : all_digits s → all_digits t → all_digits (s +:+ t).
Proof. induction s; simpl; [done|]. intros [? ?] ?. auto. Qed.

Lemma take_digits_app ds rest : all_digits ds → stops rest → take_digits (ds +:+ rest) = (ds, rest).
Proof.
  intros Hds Hrest. induction ds as [|c ds IH]; simpl in *.
  - destruct rest as [|c rest]; [done|]. destruct Hrest as [Hc _]. simpl. by rewrite Hc.
  - destruct Hds as [[d Hd] Hds]. rewrite Hd, IH; done.
Qed.

Lemma pretty_N_go_shape (x : N) s :
  (0 < x)%N → ∃ c u, pretty_N_go x s = String c (u +:+ s) ∧ (∃ d, digit_val c = Some d ∧ d ≠ 0%Z) ∧ all_digits u.
Proof.
  revert s. induction (N.lt_wf_0 x) as [x _ IH]; intros s Hx. rewrite pretty_N_go_step by done.
  destruct (N.eq_dec (x / 10)%N 0%N) as [Hq|Hq%N.neq_0_lt_0].
  - rewrite Hq. simpl. exists (pretty_N_char (x mod 10)), "". split; [done|]. split; [|done].
    exists (Z.of_N (x mod 10)). rewrite digit_val_char by (by apply N.mod_lt). split; [done|].
    assert (x < 10)%N by (by apply N.div_small_iff in Hq). rewrite N.mod_small by done. lia.
  - destruct (IH (x / 10)%N ltac:(by apply N.div_lt) (String (pretty_N_char (x mod 10)) s) Hq) as (c & u & -> & Hd & Hu).
    exists c, (u +:+ String (pretty_N_char (x mod 10)) ""). rewrite str_app_assoc. split; [done|]. split; [done|].
    apply all_digits_app; [done|]. simpl. rewrite digit_val_char by (by apply N.mod_lt). eauto.
Qed.

Lemma scan_int_app c u rest d :
  digit_val c = Some d → d ≠ 0%Z → all_digits u → stops rest →
  scan_int (String c (u +:+ rest)) = Some (String c u, rest).
Proof.
  intros Hc Hd Hu Hrest. assert (scan_int (String c (u +:+ rest)) = nonempty (take_digits (String c (u +:+ rest)))) as ->.
  { destruct (decide (c = "0"%char)) as [->|Hc0]; [by injection Hc as <-|]. by destruct c as [[] [] [] [] [] [] [] []]. }
  change (String c (u +:+ rest)) with (String c u +:+ rest). rewrite take_digits_app; [done| |done].
  split; eauto.
Qed.

(** The rest of a number after its integer part, when the text stops there. *)
Lemma scan_number_int sign int rest s1 s :
  match strip_prefix "-" s with Some r => ("-", r) | None => ("", s) end = (sign, s1) →
  scan_int s1 = Some (int, rest) → stops rest → scan_number s = Some (sign +:+ int, rest).
Proof.
  intros Hsign Hint Hrest. unfold scan_number. rewrite Hsign, Hint. simpl.
  assert (strip_prefix "." rest = None) as Hdot.
  { destruct rest as [|c rest]; [done|]. destruct Hrest as (_ & Hc & _). simpl. rewrite bool_decide_eq_false_2; [done|congruence]. }
  simpl in Hdot. rewrite Hdot. simpl. destruct rest as [|c rest]; simpl; [by rewrite !str_app_nil_r|].
  destruct Hrest as (_ & _ & He & HE). rewrite !(proj2 (Z.eqb_neq _ _)); simpl; [by rewrite !str_app_nil_r|..];
    intros Heq; [apply HE|apply He]; by apply byte_val_inj.
Qed.

Lemma literal_ok_pretty (n : Z) : literal_ok (pretty n).
Proof.
  destruct n as [|p|p].
  - split; [exists "0"%char, ""; split; [done|left; eauto]|].
    intros rest Hrest. apply (scan_number_int "" "0" rest ("0" +:+ rest)); done.
  - change (pretty (Zpos p)) with (pretty_N_go (Npos p) "").
    destruct (pretty_N_go_shape (Npos p) "") as (c & u & -> & (d & Hd & Hne) & Hu); [done|]. rewrite str_app_nil_r.
    split; [eauto 10|]. intros rest Hrest. apply (scan_number_int "" (String c u) rest (String c u +:+ rest)).
    + simpl. case_bool_decide; [by subst|done].
    + by eapply scan_int_app.
    + done.
  - change (pretty (Zneg p)) with ("-" +:+ pretty_N_go (Npos p) "").
    destruct (pretty_N_go_shape (Npos p) "") as (c & u & -> & (d & Hd & Hne) & Hu); [done|]. rewrite str_app_nil_r.
    split; [exists "-"%char, (String c u); eauto|]. intros rest Hrest.
    apply (scan_number_int "-" (String c u) rest (String c u +:+ rest)); [done|by eapply scan_int_app|done].
Qed.

(** ** Values *)

(** Induction over [json] with the hypotheses for the values of arrays and objects. *)
Section json_induction.
Context (P : json → Prop).
Context (Hnull : P JNull) (Hbool : ∀ b, P (JBool b)) (Hnum : ∀ n, P (JNum n)) (Hfloat : ∀ t, P (JFloat t)) (Hstr : ∀ s, P (JStr s)).
Context (Harr : ∀ l, Forall P l → P (JArr l)) (Hobj : ∀ o, Forall (λ kv, P kv.2) o → P (JObj o)).

Fixpoint json_nested_ind (j : json) : P j :=
  match j with
  | JNull => Hnull
  | JBool b => Hbool b
  | JNum n => Hnum n
  | JFloat t => Hfloat t
  | JStr s => Hstr s
  | JArr l => Harr l ((fix go l : Forall P l := match l with [] => Forall_nil_2 P | x :: l => Forall_cons_2 P x l (json_nested_ind x) (go l) end) l)
  | JObj o => Hobj o ((fix go o : Forall (λ kv, P kv.2) o := match o with [] => Forall_nil_2 _ | kv :: o => Forall_cons_2 (λ kv, P kv.2) kv o (json_nested_ind kv.2) (go o) end) o)
  end.
End json_induction.

(** The syntax tree of a marshalled value. *)
Fixpoint tree_of (j : json) : jtree :=
  match j with
  | JNull => TNull
  | JBool b => TBool b
  | JNum n => TNum (pretty n)
  | JFloat text => TNum text
  | JStr s => TStr (utf8_sanitize 0 s)
  | JArr l => TArr (map tree_of l)
  | JObj o => TObj (map (λ kv, (utf8_sanitize 0 kv.1, tree_of kv.2)) o)
  end.

(** Arrays and objects around the innermost value. *)
Fixpoint json_depth (j : json) : nat :=
  match j with
  | JArr l => S (max_list (map json_depth l))
  | JObj o => S (max_list (map (λ kv, json_depth kv.2) o))
  | _ => 0
  end.

(** Every float is written as a number literal. *)
Fixpoint floats_ok (j : json) : Prop :=
  match j with
  | JFloat text => literal_ok text
  | JArr l => Forall id (map floats_ok l)
  | JObj o => Forall id (map (λ kv, floats_ok kv.2) o)
  | _ => True
  end.

Section encoder.
Context (html : bool).

Definition parses_back (j : json) : Prop := ∀ depth rest,
  floats_ok j → stops rest → depth + json_depth j ≤ maxNestingDepth →
  ∃ fuel, parse_value fuel depth (json_Encode html j +:+ rest) = Some (Some (tree_of j, rest)).

Lemma parse_elements_more fuel fuel' depth acc s r :
  fuel ≤ fuel' → parse_elements fuel depth acc s = Some r → parse_elements fuel' depth acc s = Some r.
Proof. induction 1; [done|]. intros. apply parse_mono. auto. Qed.

Lemma parse_members_more fuel fuel' depth acc s r :
  fuel ≤ fuel' → parse_members fuel depth acc s = Some r → parse_members fuel' depth acc s = Some r.
Proof. induction 1; [done|]. intros. apply parse_mono. auto. Qed.

Lemma skip_ws_digit c s : is_Some (digit_val c) ∨ c = "-"%char → skip_ws (String c s) = String c s.
Proof.
  intros Hc. assert (slices_Contains [32; 9; 10; 13]%Z (byte_val c) = false) as Hn; [|cbn [skip_ws]; by rewrite Hn].
  destruct Hc as [[d Hd]| ->]; [|done]. destruct c as [[] [] [] [] [] [] [] []]; done.
Qed.

Lemma parse_number t depth rest : literal_ok t → stops rest → parse_value 1 depth (t +:+ rest) = Some (Some (TNum t, rest)).
Proof.
  intros [(c & t' & -> & Hc) Hscan] Hrest. specialize (Hscan rest Hrest).
  cbn [parse_value]. change (String c t' +:+ rest) with (String c (t' +:+ rest)) in *. rewrite skip_ws_digit, Hscan by done.
  destruct Hc as [[d Hd]| ->]; [|done]. by destruct c as [[] [] [] [] [] [] [] []].
Qed.

(** The head of a marshalled value is not a space and does not close a container. *)
Lemma marshal_head j rest :
  floats_ok j →
  skip_ws (json_Encode html j +:+ rest) = json_Encode html j +:+ rest ∧
  strip_prefix "]" (json_Encode html j +:+ rest) = None.
Proof.
  assert (∀ t, literal_ok t → skip_ws (t +:+ rest) = t +:+ rest ∧ strip_prefix "]" (t +:+ rest) = None) as Hlit.
  { intros t [(c & t' & -> & Hc) _]. simpl String.append. rewrite skip_ws_digit by done. split; [done|]. simpl.
    rewrite bool_decide_eq_false_2; [done|]. intros <-. by destruct Hc as [[? ?]|]. }
  destruct j as [|[]|n|t|s|l|o]; intros Hf; try done; [apply Hlit, literal_ok_pretty|by apply Hlit].
Qed.

Lemma strip_comma x : strip_prefix "," (skip_ws ("," +:+ x)) = Some x.
Proof. done. Qed.

Lemma strip_colon x : strip_prefix ":" (skip_ws (":" +:+ x)) = Some x.
Proof. done. Qed.

Lemma join_cons sep x y l : join sep (x :: y :: l) = x +:+ sep +:+ join sep (y :: l).
Proof. done. Qed.

Lemma parse_elements_marshal l :
  Forall parses_back l → ∀ depth acc rest,
  l ≠ [] → Forall id (map floats_ok l) → depth + max_list (map json_depth l) ≤ maxNestingDepth →
  ∃ fuel, parse_elements fuel depth acc (join "," (map (json_Encode html) l) +:+ "]" +:+ rest) = Some (Some (TArr (acc ++ map tree_of l), rest)).
Proof.
  induction 1 as [|j l Hj Hl IH]; intros depth acc rest Hne Hf Hdepth; [done|]. simpl in Hf, Hdepth. apply Forall_cons in Hf as [Hfj Hfl].
  destruct l as [|j' l].
  - destruct (Hj depth ("]" +:+ rest)) as [fuel Hp]; [done|done|lia|]. exists (S fuel). cbn [parse_elements map join].
    rewrite Hp. done.
  - destruct (Hj depth ("," +:+ join "," (map (json_Encode html) (j' :: l)) +:+ "]" +:+ rest)) as [fuel Hp]; [done|done|lia|].
    destruct (IH depth (acc ++ [tree_of j]) rest) as [fuel' Hp']; [done|done|lia|]. exists (S (max fuel fuel')).
    cbn [parse_elements]. change (map (json_Encode html) (j :: j' :: l)) with (json_Encode html j :: map (json_Encode html) (j' :: l)).
    change (map (json_Encode html) (j' :: l)) with (json_Encode html j' :: map (json_Encode html) l) in *. rewrite join_cons, !str_app_assoc.
    rewrite (parse_value_more _ _ _ _ _ (Nat.le_max_l fuel fuel') Hp), strip_comma.
    rewrite (parse_elements_more _ _ _ _ _ _ (Nat.le_max_r fuel fuel') Hp'), <- app_assoc. done.
Qed.

Definition member_text (kv : string * json) : string := json_quote html kv.1 +:+ ":" +:+ json_Encode html kv.2.
Definition member_tree (kv : string * json) : string * jtree := (utf8_sanitize 0 kv.1, tree_of kv.2).

Lemma parse_key kv rest :
  strip_prefix dquote (skip_ws (member_text kv +:+ rest)) ≫= unquote 0 = Some (utf8_sanitize 0 kv.1, ":" +:+ json_Encode html kv.2 +:+ rest).
Proof.
  unfold member_text, json_quote. rewrite !str_app_assoc.
  change (skip_ws (dquote +:+ ?x)) with (dquote +:+ x). change (strip_prefix dquote (dquote +:+ ?x)) with (Some x).
  cbn [mbind option_bind]. apply unquote_escape; simpl; lia.
Qed.

Lemma parse_members_marshal o :
  Forall (λ kv, parses_back kv.2) o → ∀ depth acc rest,
  o ≠ [] → Forall id (map (λ kv, floats_ok kv.2) o) → depth + max_list (map (λ kv, json_depth kv.2) o) ≤ maxNestingDepth →
  ∃ fuel, parse_members fuel depth acc (join "," (map member_text o) +:+ "}" +:+ rest) = Some (Some (TObj (acc ++ map member_tree o), rest)).
Proof.
  induction 1 as [|kv o Hj Hl IH]; intros depth acc rest Hne Hf Hdepth; [done|]. simpl in Hf, Hdepth. apply Forall_cons in Hf as [Hfj Hfl].
  destruct o as [|kv' o].
  - destruct (Hj depth ("}" +:+ rest)) as [fuel Hp]; [done|done|lia|]. exists (S fuel). cbn [parse_members map join].
    rewrite parse_key, strip_colon, Hp. done.
  - destruct (Hj depth ("," +:+ join "," (map member_text (kv' :: o)) +:+ "}" +:+ rest)) as [fuel Hp]; [done|done|lia|].
    destruct (IH depth (acc ++ [member_tree kv]) rest) as [fuel' Hp']; [done|done|lia|]. exists (S (max fuel fuel')).
    cbn [parse_members]. change (map member_text (kv :: kv' :: o)) with (member_text kv :: map member_text (kv' :: o)).
    change (map member_text (kv' :: o)) with (member_text kv' :: map member_text o) in *. rewrite join_cons, !str_app_assoc, parse_key, strip_colon.
    rewrite (parse_value_more _ _ _ _ _ (Nat.le_max_l fuel fuel') Hp), strip_comma.
    etrans; [exact (parse_members_more _ _ _ _ _ _ (Nat.le_max_r fuel fuel') Hp')|]. by rewrite <- app_assoc.
Qed.

Lemma parse_marshal j : parses_back j.
Proof.
  induction j as [|b|n|t|s|l IH|o IH] using json_nested_ind; intros depth rest Hf Hrest Hdepth.
  - by exists 1.
  - exists 1. by destruct b.
  - exists 1. apply parse_number; [apply literal_ok_pretty|done].
  - exists 1. by apply parse_number.
  - exists 1. simpl (json_Encode _ _). unfold json_quote. rewrite !str_app_assoc.
    change (parse_value 1 depth (dquote +:+ ?x)) with (Some (prod_map TStr id <$> unquote 0 x)). by rewrite unquote_escape by (simpl; lia).
  - cbn [json_depth] in Hdepth. assert ((maxNestingDepth <=? depth) = false) as Hd by (apply Nat.leb_gt; lia).
    destruct l as [|j l]; [exists 1; cbn; by rewrite Hd|].
    destruct (parse_elements_marshal (j :: l) IH (S depth) [] rest) as [fuel Hp]; [done|exact Hf|lia|].
    exists (S fuel). cbn [json_Encode]. rewrite !str_app_assoc.
    change (?x +:+ join ?s (map ?f (j :: l)) +:+ ?y) with (String "[" (join s (map f (j :: l)) +:+ y)).
    assert (∃ tl, join "," (map (json_Encode html) (j :: l)) +:+ "]" +:+ rest = json_Encode html j +:+ tl) as [tl Htl].
    { destruct l as [|j' l]; [by eexists|]. cbn [map]. rewrite join_cons, !str_app_assoc. by eexists. }
    apply Forall_cons in Hf as [Hfj _]. destruct (marshal_head j tl Hfj) as [Hws Hclose].
    cbn [parse_value]. rewrite Htl in *. simpl (skip_ws (String _ _)). cbv [byte_val]. simpl (Z.eqb _ _).
    rewrite Hd, Hws, Hclose. exact Hp.
  - cbn [json_depth] in Hdepth. assert ((maxNestingDepth <=? depth) = false) as Hd by (apply Nat.leb_gt; lia).
    destruct o as [|kv o]; [exists 1; cbn; by rewrite Hd|].
    destruct (parse_members_marshal (kv :: o) IH (S depth) [] rest) as [fuel Hp]; [done|exact Hf|lia|].
    exists (S fuel). change (json_Encode html (JObj (kv :: o))) with ("{" +:+ join "," (map member_text (kv :: o)) +:+ "}"). rewrite !str_app_assoc.
    assert (∃ tl, join "," (map member_text (kv :: o)) +:+ "}" +:+ rest = dquote +:+ tl) as [tl Htl].
    { destruct o as [|kv' o]; [by eexists|]. cbn [map]. rewrite join_cons. unfold member_text at 1, json_quote. rewrite !str_app_assoc. by eexists. }
    rewrite Htl in *. cbn [parse_value]. simpl (skip_ws (_ +:+ _)). cbv [byte_val]. simpl (Z.eqb _ _). rewrite Hd. exact Hp.
Qed.

(** The document of a value is parsed back to its tree. *)
Lemma json_parse_encode j :
  floats_ok j → json_depth j ≤ maxNestingDepth → json_parse (json_Encode html j) = Some (tree_of j).
Proof.
  intros Hf Hd. destruct (parse_marshal j 0 "" Hf I Hd) as [fuel Hp]. rewrite str_app_nil_r in Hp.
  set (s := json_Encode html j) in *. unfold json_parse.
  destruct (parse_value (parse_fuel s) 0 s) as [r|] eqn:Hr.
  - apply (parse_value_more _ _ _ _ _ (Nat.le_max_l fuel (parse_fuel s))) in Hp.
    apply (parse_value_more _ _ _ _ _ (Nat.le_max_r fuel (parse_fuel s))) in Hr.
    rewrite Hp in Hr. injection Hr as <-. done.
  - exfalso. eapply (proj1 (parse_total (parse_fuel s)) 0 s); [unfold parse_fuel; lia|done].
Qed.

End encoder.

(** ** Bounded values

    [plain d j]: [j] holds no float and at most [d] nested containers, so its
    document is well-formed JSON whatever the strings in it are. *)
Definition plain (d : nat) (j : json) : Prop := floats_ok j ∧ json_depth j ≤ d.
Definition plain_members (d : nat) (o : list (string * json)) : Prop := Forall (λ kv, plain d kv.2) o.

Create HintDb plain discriminated.

Lemma plain_scalar d j : (match j with JNull | JBool _ | JNum _ | JStr _ => True | _ => False end) → plain d j.
Proof. destruct j; try done; intros _; (split; [done|simpl; lia]). Qed.

Lemma max_list_le {A} (f : A → nat) l d : Forall (λ x, f x ≤ d) l → max_list (map f l) ≤ d.
Proof. induction 1; simpl; lia. Qed.

Lemma plain_arr d l : Forall (plain d) l → plain (S d) (JArr l).
Proof.
  intros Hl. split; simpl.
  - apply Forall_fmap. eapply Forall_impl; [done|]. by intros x [].
  - apply le_n_S, max_list_le. eapply Forall_impl; [done|]. by intros x [].
Qed.

Lemma plain_obj d o : plain_members d o → plain (S d) (JObj o).
Proof.
  intros Hl. split; simpl.
  - apply Forall_fmap. eapply Forall_impl; [done|]. by intros x [].
  - apply le_n_S, max_list_le. eapply Forall_impl; [done|]. by intros x [].
Qed.

Lemma plain_members_set d k v o : plain d v → plain_members d o → plain_members d (obj_set k v o).
Proof.
  intros Hv. induction 1 as [|[k' v'] o Hkv Ho IH]; simpl; [repeat constructor; apply Hv|].
  repeat case_match; repeat constructor; try apply Hv; try done; try apply Hkv.
Qed.

Lemma plain_members_of d l : plain_members d l → plain_members d (obj_of l).
Proof.
  intros Hl. unfold obj_of. apply foldl_inv; [constructor|]. intros o kv Hkv Ho.
  apply plain_members_set; [|done]. by eapply Forall_forall in Hl.
Qed.

Lemma plain_members_nil d : plain_members d [].
Proof. constructor. Qed.

Lemma plain_members_cons d k v o : plain d v → plain_members d o → plain_members d ((k, v) :: o).
Proof. by constructor. Qed.

Lemma plain_le d d' j : plain d j → d ≤ d' → plain d' j.
Proof. intros [? ?] ?. split; [done|lia]. Qed.

Lemma json_parse_plain html d j : plain d j → d ≤ maxNestingDepth → json_parse (json_Encode html j) = Some (tree_of j).
Proof. intros [? ?] ?. apply json_parse_encode; [done|lia]. Qed.

#[export] Hint Resolve plain_arr plain_obj plain_members_set plain_members_of plain_members_nil plain_members_cons : plain.
#[export] Hint Extern 1 (plain _ _) => apply plain_scalar; exact I : plain.
