(* ===== verification/Api.v ===== *)
(** * Api: the custom resources of api/v1alpha1

    Every spec and status field of SingBoxNode, User, UserGroup, EgressPolicy,
    ExternalOutbound and CustomRoute, the accessors of metav1.Object as a type
    class, and the selector and match methods of EgressPolicy.  A Go pointer
    field is an [option], an int32/int64 field a [Z], a string map a [gmap]. *)

From S2P Require Import Prelude Json GoNet.

(** ** Code outside the repository, as parameters *)

(** Functions of the Go standard library the operator calls for a verdict or a
    text only: [None] is a nil error.  The text of a regexp.Error starts with a
    fixed prefix, so it is never empty. *)
Class GoStd := {
  regexp_Compile : string → option string;
  strconv_Quote : string → string;
  regexp_error_text : ∀ s e, regexp_Compile s = Some e → e ≠ "";
}.

Record LabelSelectorRequirement := {
  lsr_Key : string;
  lsr_Operator : string;
  lsr_Values : list string;
}.

(** metav1.LabelSelectorAsSelector: an error, or the predicate on label sets. *)
Class LabelSelectors :=
  LabelSelectorAsSelector :
    gmap string string → list LabelSelectorRequirement → string + (gmap string string → bool).

(** ** Object metadata *)
Record OwnerReference := { or_Kind : string; or_Name : string }.

Record ObjectMeta := {
  om_Name : string;
  om_Namespace : string;
  om_Labels : gmap string string;
  om_Annotations : gmap string string;
  om_Generation : Z;
  om_Finalizers : list string;
  om_DeletionTimestamp : option Z;
  om_OwnerReferences : list OwnerReference;
}.

(** metav1.Object *)
Class HasMeta (A : Type) := meta : A → ObjectMeta.

Definition GetName {A} `{HasMeta A} (x : A) : string := om_Name (meta x).
Definition GetNamespace {A} `{HasMeta A} (x : A) : string := om_Namespace (meta x).
Definition GetLabels {A} `{HasMeta A} (x : A) : gmap string string := om_Labels (meta x).

Record Condition := {
  cond_Type : string;
  cond_Status : string;
  cond_Reason : string;
  cond_Message : string;
  cond_ObservedGeneration : Z;
}.

#[export] Instance Condition_eq : EqDecision Condition.
Proof. solve_decision. Defined.

Definition ConditionTrue : string := "True".
Definition ConditionFalse : string := "False".
Definition ConditionUnknown : string := "Unknown".

(** ** SingBoxNode *)
Definition ProxyRole := string.
Definition ProxyRoleInbound : ProxyRole := "inbound".
Definition ProxyRoleOutbound : ProxyRole := "outbound".
Definition NodeReadyConditionType : string := "NodeReady".
Definition OfflineAnnotation : string := "singboxoperator.shlande.top/offline".

Record ProtocolConfig := { pc_Protocol : string; pc_Port : Z }.

Record SingBoxNodeSpec := {
  ns_NodeRef : string;
  ns_Address : string;
  ns_Region : string;
  ns_ClientGroups : list string;
  ns_Roles : list ProxyRole;
  ns_SupportedProtocols : list ProtocolConfig;
  ns_InboundProtocol : string;
  ns_RelayPort : Z;
  ns_AllowedInbounds : list string;
  ns_AllowedOutbounds : list string;
  ns_Tag : string;
  ns_TLSSecretName : string;
  ns_Resources : option json;
}.

Record SingBoxNodeStatus := {
  nst_Phase : string;
  nst_ConfigHash : string;
  nst_EntryEndpoints : list string;
  nst_TLSServerName : string;
  nst_Conditions : list Condition;
  nst_ObservedGeneration : Z;
}.

Record SingBoxNode := {
  node_meta : ObjectMeta;
  node_spec : SingBoxNodeSpec;
  node_status : SingBoxNodeStatus;
}.

#[export] Instance SingBoxNode_meta : HasMeta SingBoxNode := node_meta.

(** ** User and UserGroup *)
Record UserSpec := {
  us_AuthSecret_Name : string;
  us_AuthSecret_Namespace : string;
  us_UserGroupRef : string;
}.

Record UserStatus := {
  ust_ActiveNodeCount : Z;
  ust_ActiveNodes : list string;
  ust_Conditions : list Condition;
  ust_ObservedGeneration : Z;
}.

Record User := { user_meta : ObjectMeta; user_spec : UserSpec; user_status : UserStatus }.

#[export] Instance User_meta : HasMeta User := user_meta.

Record UserGroupSpec := { ugs_AllowedNodes : list string; ugs_DeniedNodes : list string }.

Record UserGroup := { ug_meta : ObjectMeta; ug_spec : UserGroupSpec }.

#[export] Instance UserGroup_meta : HasMeta UserGroup := ug_meta.

(** ** EgressPolicy *)
Definition EgressPolicyActionRoute : string := "route".
Definition EgressPolicyActionReject : string := "reject".
Definition EgressPolicyReadyConditionType : string := "Ready".
Definition EgressPolicyDegradedConditionType : string := "Degraded".

Record EgressPolicySelector := {
  MatchLabels : gmap string string;
  MatchExpressions : list LabelSelectorRequirement;
  MatchNames : list string;
}.

Record EgressPolicyMatch := {
  pm_Domain : list string;
  pm_DomainSuffix : list string;
  pm_DomainRegex : list string;
  pm_IPCIDR : list string;
  pm_RuleSet : list string;
}.

Record EgressPolicySpec := {
  ps_IngressSelector : EgressPolicySelector;
  ps_EgressSelector : EgressPolicySelector;
  ps_Match : EgressPolicyMatch;
  ps_Action : string;
  ps_Priority : Z;
  ps_FallbackAction : string;
}.

Record EgressPolicyStatus := {
  pst_ResolvedIngresses : list string;
  pst_ResolvedEgress : string;
  pst_Conditions : list Condition;
  pst_ObservedGeneration : Z;
}.

#[export] Instance EgressPolicyStatus_eq : EqDecision EgressPolicyStatus.
Proof. solve_decision. Defined.

Record EgressPolicy := {
  policy_meta : ObjectMeta;
  policy_spec : EgressPolicySpec;
  policy_status : EgressPolicyStatus;
}.

#[export] Instance EgressPolicy_meta : HasMeta EgressPolicy := policy_meta.

(** ** ExternalOutbound *)
Definition ExternalOutboundAcceptedConditionType : string := "Accepted".
Definition ExternalProtocolSocks5 : string := "socks5".
Definition ExternalProtocolHTTP : string := "http".
Definition ExternalProtocolShadowsocks : string := "shadowsocks".
Definition ExternalProtocolTrojan : string := "trojan".
Definition ExternalProtocolHysteria2 : string := "hysteria2".
Definition ExternalProtocolTUIC : string := "tuic".
Definition ExternalProtocolAnyTLS : string := "anytls".

Definition CredKeyUsername : string := "username".
Definition CredKeyPassword : string := "password".
Definition CredKeyMethod : string := "method".
Definition CredKeyUUID : string := "uuid".
Definition CredKeyObfsPassword : string := "obfsPassword".

Record ExternalOutboundTLS := { tls_ServerName : string; tls_Insecure : bool }.

Record Hysteria2Options := { h2_UpMbps : Z; h2_DownMbps : Z; h2_Obfs : bool }.

Record ExternalOutboundSpec := {
  es_Protocol : string;
  es_Server : string;
  es_Port : Z;
  es_CredentialsSecretRef : option string;
  es_TLS : option ExternalOutboundTLS;
  es_Hysteria2 : option Hysteria2Options;
  es_Region : string;
  es_ClientGroups : list string;
  es_AllowedInbounds : list string;
}.

Record ExternalOutboundStatus := { est_Conditions : list Condition; est_ObservedGeneration : Z }.

Record ExternalOutbound := {
  eob_meta : ObjectMeta;
  eob_spec : ExternalOutboundSpec;
  eob_status : ExternalOutboundStatus;
}.

#[export] Instance ExternalOutbound_meta : HasMeta ExternalOutbound := eob_meta.

(** ** CustomRoute (retired, kept for source compatibility) *)
Definition OutboundKindSingBoxNode : string := "SingBoxNode".
Definition OutboundKindExternalOutbound : string := "ExternalOutbound".

Record CustomRouteSpec := {
  rs_InboundNode : string;
  rs_OutboundNode : string;
  rs_OutboundKind : string;
}.

Record CustomRoute := { route_meta : ObjectMeta; route_spec : CustomRouteSpec }.

#[export] Instance CustomRoute_meta : HasMeta CustomRoute := route_meta.

Definition EffectiveOutboundKind (r : CustomRoute) : string :=
  if rs_OutboundKind (route_spec r) ==? "" then OutboundKindSingBoxNode
  else rs_OutboundKind (route_spec r).

(** ** Role tests *)
(** hasRole: slices.Contains(node.Spec.Roles, role) (one copy per Go package) *)
Definition hasRole (node : SingBoxNode) (role : ProxyRole) : bool :=
  slices_Contains (ns_Roles (node_spec node)) role.

(** ** Methods of EgressPolicySelector and EgressPolicyMatch *)
Section selector.
Context `{LabelSelectors}.

Definition EgressPolicySelector_Valid (s : EgressPolicySelector) : option string :=
  match LabelSelectorAsSelector (MatchLabels s) (MatchExpressions s) with
  | inl err => Some err
  | inr _ => None
  end.

Definition EgressPolicySelector_Matches {A} `{HasMeta A} (s : EgressPolicySelector) (obj : A) : bool :=
  if (0 <? length (MatchNames s)) && negb (existsb (λ name, name ==? GetName obj) (MatchNames s))
  then false
  else match LabelSelectorAsSelector (MatchLabels s) (MatchExpressions s) with
       | inl _ => false
       | inr selector => selector (GetLabels obj)
       end.

End selector.

(** The first error reported while checking the elements in order. *)
Fixpoint first_error {A E} (f : A → option E) (l : list A) : option E :=
  match l with
  | [] => None
  | x :: l => match f x with Some e => Some e | None => first_error f l end
  end.

Lemma first_error_None {A E} (f : A → option E) l : first_error f l = None ↔ Forall (λ x, f x = None) l.
Proof.
  induction l as [|x l IH]; simpl; [by split|]. rewrite Forall_cons, <-IH.
  destruct (f x); naive_solver.
Qed.

Definition errEmptyPolicyMatch : string :=
  "at least one match field is required unless fallback is true".

Definition EgressPolicyMatch_Valid `{GoStd} (m : EgressPolicyMatch) (fallback : bool) : option string :=
  if bool_decide (pm_Domain m = []) && bool_decide (pm_DomainSuffix m = []) &&
     bool_decide (pm_DomainRegex m = []) && bool_decide (pm_IPCIDR m = []) && bool_decide (pm_RuleSet m = [])
  then if fallback then None else Some errEmptyPolicyMatch
  else match first_error regexp_Compile (pm_DomainRegex m) with
       | Some err => Some err
       | None => first_error net_ParseCIDR (pm_IPCIDR m)
       end.

Lemma first_error_Some {A E} (f : A → option E) l e : first_error f l = Some e → ∃ x, x ∈ l ∧ f x = Some e.
Proof.
  induction l as [|x l IH]; simpl; [done|]. destruct (f x) eqn:Hx; [intros [= <-]; exists x; split; [left|done]|].
  intros He. destruct (IH He) as (y & ? & ?). exists y. split; [by right|done].
Qed.

(** The error of an invalid match has a text. *)
Lemma Match_Valid_text `{GoStd} m fallback e : EgressPolicyMatch_Valid m fallback = Some e → e ≠ "".
Proof.
  unfold EgressPolicyMatch_Valid. destruct (_ && _); [by destruct fallback; intros [= <-]|].
  destruct (first_error regexp_Compile _) eqn:Hr.
  - apply first_error_Some in Hr as (x & _ & Hx). intros [= <-]. by eapply regexp_error_text.
  - intros (x & _ & Hx)%first_error_Some. by eapply cidr_error_text.
Qed.

(** Objects of a list with distinct names are determined by their name. *)
Lemma named_unique {A} `{HasMeta A} (l : list A) x y :
  NoDup (GetName <$> l) → x ∈ l → y ∈ l → GetName x = GetName y → x = y.
Proof.
  intros Hnd Hx Hy Heq. apply list_elem_of_lookup in Hx as [i Hi], Hy as [j Hj].
  assert (i = j) as ->; [|congruence]. apply (NoDup_lookup _ _ _ (GetName x) Hnd);
    rewrite list_lookup_fmap; [by rewrite Hi | by rewrite Hj, Heq].
Qed.
