(* ===== verification/Engine.v ===== *)
(** * Engine: internal/configengine

    The pure function from a node's view of the cluster ([Input]) to its sing-box
    server configuration.  One definition per Go function, in the order of
    engine.go; the theorems about them are in EngineFacts.v. *)

From S2P Require Import Prelude GoStrings Crypto Json Api.
From Stdlib Require Import Ascii.

(** ** Data *)
Definition relayContainerPort : Z := 10808.

Definition EffectiveRelayPort (node : SingBoxNode) : Z :=
  if (ns_RelayPort (node_spec node) >? 0)%Z then ns_RelayPort (node_spec node) else relayContainerPort.

Record UserCredential := { uc_UUID : string }.
Record NodeCredential := { nc_Username : string; nc_Password : string }.
Definition ExternalCredential := gmap string string.

Definition zeroUserCredential : UserCredential := {| uc_UUID := "" |}.
Definition zeroNodeCredential : NodeCredential := {| nc_Username := ""; nc_Password := "" |}.

Record Input := {
  Node : SingBoxNode;
  Users : list User;
  UserCreds : gmap string UserCredential;
  OutboundNodes : list SingBoxNode;
  Routes : list CustomRoute;
  EgressPolicies : list (option EgressPolicy);
  NodeCreds : gmap string NodeCredential;
  OutboundNodesByName : gmap string SingBoxNode;
  ExternalOutbounds : list (option ExternalOutbound);
  ExternalOutboundsByName : gmap string ExternalOutbound;
  ExternalCreds : gmap string (gmap string string);
  UsageCollectionEnabled : bool;
  V2RayAPIListenAddr : string;
  UserNodeRestrictions : gmap string (gmap string bool);
  UserNodeAllowlist : gmap string (gmap string bool);
}.

Record Output := { Config : string; Hash : string }.

Record v2rayStatsConfig := { st_Enabled : bool; st_Users : list string }.
Record v2rayAPIConfig := { api_Listen : string; api_Stats : v2rayStatsConfig }.
Record experimentalConfig := { V2RayAPI : option v2rayAPIConfig }.

Record routeRule := {
  rr_Inbound : list string;
  rr_AuthUser : list string;
  rr_Domain : list string;
  rr_DomainSuffix : list string;
  rr_DomainRegex : list string;
  rr_IPCIDR : list string;
  rr_RuleSet : list string;
  rr_Action : string;
  rr_Outbound : string;
}.

Record routeConfig := { Rules : list routeRule; Final : string }.

Record singboxConfig := {
  LogLevel : string;
  Inbounds : list json;
  Outbounds : list json;
  Route : routeConfig;
  Experimental : option experimentalConfig;
}.

(** ** Encoding of the configuration (the json tags of the structs) *)
Definition jstrs (l : list string) : json := JArr (map JStr l).

(** A string-slice field with omitempty. *)
Definition omit_strs (k : string) (l : list string) : list (string * json) :=
  if bool_decide (l = []) then [] else [(k, jstrs l)].

Definition omit_str (k s : string) : list (string * json) :=
  if s ==? "" then [] else [(k, JStr s)].

Definition routeRule_json (r : routeRule) : json :=
  JObj (omit_strs "inbound" (rr_Inbound r) ++ omit_strs "auth_user" (rr_AuthUser r) ++
        omit_strs "domain" (rr_Domain r) ++ omit_strs "domain_suffix" (rr_DomainSuffix r) ++
        omit_strs "domain_regex" (rr_DomainRegex r) ++ omit_strs "ip_cidr" (rr_IPCIDR r) ++
        omit_strs "rule_set" (rr_RuleSet r) ++ omit_str "action" (rr_Action r) ++
        omit_str "outbound" (rr_Outbound r)).

Definition routeConfig_json (r : routeConfig) : json :=
  JObj ((if bool_decide (length (Rules r) = 0) then [] else [("rules", JArr (map routeRule_json (Rules r)))]) ++
        [("final", JStr (Final r))]).

(** A nil statsUsers slice is encoded as null. *)
Definition v2rayStatsConfig_json (s : v2rayStatsConfig) : json :=
  JObj [("enabled", JBool (st_Enabled s));
        ("users", if bool_decide (st_Users s = []) then JNull else jstrs (st_Users s))].

Definition experimentalConfig_json (e : experimentalConfig) : json :=
  JObj (match V2RayAPI e with
        | None => []
        | Some a => [("v2ray_api", JObj [("listen", JStr (api_Listen a)); ("stats", v2rayStatsConfig_json (api_Stats a))])]
        end).

Definition singboxConfig_json (c : singboxConfig) : json :=
  JObj ([("log", JObj [("level", JStr (LogLevel c))]);
         ("inbounds", JArr (Inbounds c));
         ("outbounds", JArr (Outbounds c));
         ("route", routeConfig_json (Route c))] ++
        match Experimental c with
        | None => []
        | Some e => [("experimental", experimentalConfig_json e)]
        end).

(** ** Hash, ports, access control *)
Definition ComputeHash (config : string) : string :=
  hex_encode (take 8 (sha256_Sum256 (bytes_of_string config))).

Definition ExtractNodePorts (node : SingBoxNode) : list Z :=
  (pc_Port <$> ns_SupportedProtocols (node_spec node)) ++
  (if hasRole node ProxyRoleOutbound then [EffectiveRelayPort node] else []).

Definition IsNodeAllowed (nodeName : string) (allowedNodes deniedNodes : gmap string bool) : bool :=
  if map_index false deniedNodes nodeName then false
  else if bool_decide (size allowedNodes = 0) then true
  else map_index false allowedNodes nodeName.

(** The test every loop over users performs for a target. *)
Definition userAllowed (input : Input) (nodeName userName : string) : bool :=
  IsNodeAllowed nodeName (map_index ∅ (UserNodeAllowlist input) userName)
    (map_index ∅ (UserNodeRestrictions input) userName).

Definition findProtocolPort (node : SingBoxNode) (protocol : string) : Z :=
  match list_find (λ p, pc_Protocol p = protocol) (ns_SupportedProtocols (node_spec node)) with
  | Some (_, p) => pc_Port p
  | None => 0
  end.

Definition EffectiveInboundProtocol (node : SingBoxNode) : string :=
  if ns_InboundProtocol (node_spec node) !=? "" then ns_InboundProtocol (node_spec node) else "hysteria2".

(** ** Ordering of policies and routes *)
Definition policy_less (p q : EgressPolicy) : bool :=
  if bool_decide (ps_Priority (policy_spec p) ≠ ps_Priority (policy_spec q))
  then (ps_Priority (policy_spec p) <? ps_Priority (policy_spec q))%Z
  else str_less (GetName p) (GetName q).

Definition policiesForNode (input : Input) : list EgressPolicy :=
  sort_by policy_less (omap id (EgressPolicies input)).

Definition routesForNode (input : Input) : list CustomRoute :=
  sort_by (less_on GetName)
    (filter (λ r, rs_InboundNode (route_spec r) = GetName (Node input)) (Routes input)).

(** ** Credential derivation *)
Definition uuid_format (h : list Z) : string :=
  hex_encode (take 4 h) +:+ "-" +:+ hex_encode (take 2 (drop 4 h)) +:+ "-" +:+
  hex_encode (take 2 (drop 6 h)) +:+ "-" +:+ hex_encode (take 2 (drop 8 h)) +:+ "-" +:+
  hex_encode (take 6 (drop 10 h)).

(** The range over runes drops the dashes; a base with any other non-hex
    character fails to decode whether it is taken by rune or by byte. *)
Definition DeriveUUID (baseUUID suffix : string) : string :=
  let stripped := filter (λ c, c ≠ "-"%char) (String.list_ascii_of_string baseUUID) in
  let namespaceBytes :=
    match hex_decode stripped with
    | Some b => if bool_decide (length b ≠ 16) then replicate 16 0%Z else b
    | None => replicate 16 0%Z
    end in
  let h := sha1_Sum (namespaceBytes ++ bytes_of_string suffix) in
  let h := <[6 := (Z.lor (Z.land (nth 6 h 0) 0x0f) 0x50)%Z]> h in
  let h := <[8 := (Z.lor (Z.land (nth 8 h 0) 0x3f) 0x80)%Z]> h in
  uuid_format h.

Definition virtualUserName (userName outboundNodeName : string) : string :=
  userName +:+ "#" +:+ outboundNodeName.

Definition DerivePassword (baseUUID suffix : string) : string :=
  String.substring 0 32 (hex_encode (sha256_Sum256 (bytes_of_string (baseUUID +:+ "#" +:+ suffix)))).

Definition DeriveAuth (protocol uuid nodeName : string) : list (string * json) :=
  if (protocol ==? "hysteria2") || (protocol ==? "trojan")
  then obj_of [("password", JStr (DerivePassword uuid nodeName))]
  else if protocol ==? "vless"
  then obj_of [("uuid", JStr (DeriveUUID uuid nodeName))]
  else if protocol ==? "socks5"
  then obj_of [("username", JStr uuid); ("password", JStr (DerivePassword uuid nodeName))]
  else if protocol ==? "http"
  then obj_of [("username", JStr uuid); ("password", JStr (DerivePassword uuid nodeName))]
  else if protocol ==? "naive"
  then obj_of [("username", JStr uuid); ("password", JStr (DerivePassword uuid nodeName))]
  else if protocol ==? "anytls"
  then obj_of [("password", JStr (DerivePassword uuid nodeName))]
  else if protocol ==? "tuic"
  then obj_of [("uuid", JStr (DeriveUUID uuid nodeName)); ("password", JStr (DerivePassword uuid nodeName))]
  else obj_of [("password", JStr (DerivePassword uuid nodeName))].

(** ** External credentials *)
Definition hasRequiredExternalCreds (eob : ExternalOutbound) (creds : ExternalCredential) : bool :=
  let required keys := forallb (λ k, map_index "" creds k !=? "") keys in
  let p := es_Protocol (eob_spec eob) in
  if p ==? ExternalProtocolShadowsocks then required [CredKeyMethod; CredKeyPassword]
  else if p ==? ExternalProtocolTUIC then required [CredKeyUUID; CredKeyPassword]
  else if ((p ==? ExternalProtocolTrojan) || (p ==? ExternalProtocolHysteria2) || (p ==? ExternalProtocolAnyTLS))
          && negb (required [CredKeyPassword])
  then false
  else if (p ==? ExternalProtocolHysteria2) &&
          match es_Hysteria2 (eob_spec eob) with
          | Some h => h2_Obfs h && (map_index "" creds CredKeyObfsPassword ==? "")
          | None => false
          end
  then false
  else true.

Definition externalTLSEntry (tls : option ExternalOutboundTLS) : list (string * json) :=
  let entry := obj_of [("enabled", JBool true)] in
  match tls with
  | None => entry
  | Some tls =>
    let entry := if tls_ServerName tls !=? "" then obj_set "server_name" (JStr (tls_ServerName tls)) entry else entry in
    if tls_Insecure tls then obj_set "insecure" (JBool true) entry else entry
  end.

(** [if v := creds[k]; v != "" { entry[k] = v }] *)
Definition set_cred (creds : ExternalCredential) (k : string) (entry : list (string * json)) :=
  let v := map_index "" creds k in
  if v !=? "" then obj_set k (JStr v) entry else entry.

Definition hysteria2Entry (h : Hysteria2Options) (creds : ExternalCredential) (entry : list (string * json)) :=
  let entry := if (h2_UpMbps h >? 0)%Z then obj_set "up_mbps" (JNum (h2_UpMbps h)) entry else entry in
  let entry := if (h2_DownMbps h >? 0)%Z then obj_set "down_mbps" (JNum (h2_DownMbps h)) entry else entry in
  if h2_Obfs h
  then obj_set "obfs" (JObj (obj_of [("type", JStr "salamander");
                                     ("password", JStr (map_index "" creds CredKeyObfsPassword))])) entry
  else entry.

Definition buildExternalOutboundEntry (eob : ExternalOutbound) (creds : ExternalCredential) : json :=
  let spec := eob_spec eob in
  let cred k := JStr (map_index "" creds k) in
  let entry := obj_of [("tag", JStr ("outbound-" +:+ GetName eob)); ("server", JStr (es_Server spec));
                       ("server_port", JNum (es_Port spec))] in
  let p := es_Protocol spec in
  let tls entry := obj_set "tls" (JObj (externalTLSEntry (es_TLS spec))) entry in
  JObj
    (if p ==? ExternalProtocolSocks5 then
       set_cred creds CredKeyPassword (set_cred creds CredKeyUsername
         (obj_set "version" (JStr "5") (obj_set "type" (JStr "socks") entry)))
     else if p ==? ExternalProtocolHTTP then
       let entry := set_cred creds CredKeyPassword (set_cred creds CredKeyUsername
                      (obj_set "type" (JStr "http") entry)) in
       match es_TLS spec with Some _ => tls entry | None => entry end
     else if p ==? ExternalProtocolShadowsocks then
       obj_set "password" (cred CredKeyPassword) (obj_set "method" (cred CredKeyMethod)
         (obj_set "type" (JStr "shadowsocks") entry))
     else if p ==? ExternalProtocolTrojan then
       tls (obj_set "password" (cred CredKeyPassword) (obj_set "type" (JStr "trojan") entry))
     else if p ==? ExternalProtocolHysteria2 then
       let entry := obj_set "password" (cred CredKeyPassword) (obj_set "type" (JStr "hysteria2") entry) in
       tls (match es_Hysteria2 spec with Some h => hysteria2Entry h creds entry | None => entry end)
     else if p ==? ExternalProtocolTUIC then
       tls (obj_set "password" (cred CredKeyPassword) (obj_set "uuid" (cred CredKeyUUID)
         (obj_set "type" (JStr "tuic") entry)))
     else if p ==? ExternalProtocolAnyTLS then
       tls (obj_set "password" (cred CredKeyPassword) (obj_set "type" (JStr "anytls") entry))
     else entry).

Definition externalNameCollidesWithNode (input : Input) (name : string) : bool :=
  (name ==? GetName (Node input)) || bool_decide (is_Some (OutboundNodesByName input !! name)) ||
  existsb (λ n, GetName n ==? name) (OutboundNodes input).

(** The closure [add] of resolveExternalOutbounds: the [seen] map is updated even
    for an entry that is then skipped. *)
Definition addExternal (input : Input) (st : gset string * list ExternalOutbound)
    (eob : option ExternalOutbound) : gset string * list ExternalOutbound :=
  match eob with
  | None => st
  | Some eob =>
    if bool_decide (GetName eob ∈ st.1) then st
    else
      let seen := {[GetName eob]} ∪ st.1 in
      if externalNameCollidesWithNode input (GetName eob) then (seen, st.2)
      else if negb (hasRequiredExternalCreds eob (map_index ∅ (ExternalCreds input) (GetName eob))) then (seen, st.2)
      else (seen, st.2 ++ [eob])
  end.

Definition resolveExternalOutbounds (input : Input) (myRoutes : list CustomRoute) : list ExternalOutbound :=
  let st := foldl (addExternal input) (∅, []) (ExternalOutbounds input) in
  (foldl (λ st r,
     if EffectiveOutboundKind r !=? OutboundKindExternalOutbound then st
     else match ExternalOutboundsByName input !! rs_OutboundNode (route_spec r) with
          | None => st
          | Some eob => addExternal input st (Some eob)
          end) st myRoutes).2.

Definition buildExternalOutbounds (input : Input) (myRoutes : list CustomRoute) : list json :=
  map (λ eob, buildExternalOutboundEntry eob (map_index ∅ (ExternalCreds input) (GetName eob)))
    (resolveExternalOutbounds input myRoutes).

(** ** EgressPolicy rules and outbounds *)
Definition outboundTag (name : string) : string := "outbound-" +:+ name.
Definition inboundTag (input : Input) : string := "inbound-" +:+ EffectiveInboundProtocol (Node input).

Definition emptyRule : routeRule :=
  {| rr_Inbound := []; rr_AuthUser := []; rr_Domain := []; rr_DomainSuffix := []; rr_DomainRegex := [];
     rr_IPCIDR := []; rr_RuleSet := []; rr_Action := ""; rr_Outbound := "" |}.

Definition policyEgressAvailable (input : Input) (name : string) : bool :=
  match OutboundNodesByName input !! name with
  | Some node => hasRole node ProxyRoleOutbound && (ns_RelayPort (node_spec node) >? 0)%Z
  | None =>
    match ExternalOutboundsByName input !! name with
    | Some eob => hasRequiredExternalCreds eob (map_index ∅ (ExternalCreds input) name)
    | None => false
    end
  end.

Definition policyAuthUsers (input : Input) (egressName : string) : list string :=
  map (λ user, virtualUserName (GetName user) egressName)
    (filter (λ user, userAllowed input egressName (GetName user) = true) (Users input)).

(** The socks entry of a relay peer. *)
Definition relayOutbound (input : Input) (node : SingBoxNode) (name : string) : json :=
  let cred := map_index zeroNodeCredential (NodeCreds input) name in
  JObj (obj_of [("type", JStr "socks"); ("tag", JStr (outboundTag name));
                ("server", JStr (ns_Address (node_spec node))); ("server_port", JNum (ns_RelayPort (node_spec node)));
                ("username", JStr (nc_Username cred)); ("password", JStr (nc_Password cred))]).

Section policies.
Context `{MapRange, LabelSelectors}.

Definition resolvePolicyEgressName (input : Input) (policy : EgressPolicy) : string :=
  let sel := ps_EgressSelector (policy_spec policy) in
  let names :=
    (GetName <$> filter (λ node, hasRole node ProxyRoleOutbound && EgressPolicySelector_Matches sel node = true)
       (range_values (OutboundNodesByName input))) ++
    (GetName <$> filter (λ eob, EgressPolicySelector_Matches sel eob = true)
       (range_values (ExternalOutboundsByName input))) in
  match sort_strings names with
  | [name] => name
  | _ => ""
  end.

(** [name := policy.Status.ResolvedEgress; if name == "" { name = resolvePolicyEgressName(...) }] *)
Definition policyEgressName (input : Input) (policy : EgressPolicy) : string :=
  if pst_ResolvedEgress (policy_status policy) ==? "" then resolvePolicyEgressName input policy
  else pst_ResolvedEgress (policy_status policy).

(** One iteration of the loop of buildPolicyRules: the rules the policy appends. *)
Definition policyRules (input : Input) (policy : EgressPolicy) : list routeRule :=
  let spec := policy_spec policy in
  let m := ps_Match spec in
  let rule action outbound :=
    {| rr_Inbound := [inboundTag input]; rr_AuthUser := [];
       rr_Domain := pm_Domain m; rr_DomainSuffix := pm_DomainSuffix m; rr_DomainRegex := pm_DomainRegex m;
       rr_IPCIDR := pm_IPCIDR m; rr_RuleSet := pm_RuleSet m; rr_Action := action; rr_Outbound := outbound |} in
  let name := policyEgressName input policy in
  let fallback :=
    if (ps_Action spec ==? EgressPolicyActionRoute) && (ps_FallbackAction spec ==? EgressPolicyActionReject) then
      if (name !=? "") && policyEgressAvailable input name then
        let authUsers := policyAuthUsers input name in
        if 0 <? length authUsers then
          [{| rr_Inbound := []; rr_AuthUser := authUsers; rr_Domain := []; rr_DomainSuffix := []; rr_DomainRegex := [];
              rr_IPCIDR := []; rr_RuleSet := []; rr_Action := EgressPolicyActionReject; rr_Outbound := "" |}]
        else []
      else []
    else [] in
  if ps_Action spec ==? EgressPolicyActionReject then rule EgressPolicyActionReject "" :: fallback
  else if (name ==? "") || negb (policyEgressAvailable input name) then []
  else rule "" (outboundTag name) :: fallback.

Definition buildPolicyRules (input : Input) (policies : list EgressPolicy) : list routeRule :=
  policy ← policies; policyRules input policy.

Definition buildPolicyOutbound (input : Input) (name : string) : list json :=
  match OutboundNodesByName input !! name with
  | Some node => if bool_decide (ns_RelayPort (node_spec node) = 0%Z) then [] else [relayOutbound input node name]
  | None =>
    match ExternalOutboundsByName input !! name with
    | Some eob =>
      if hasRequiredExternalCreds eob (map_index ∅ (ExternalCreds input) name)
      then [buildExternalOutboundEntry eob (map_index ∅ (ExternalCreds input) name)] else []
    | None => []
    end
  end.

(** One iteration of the loop of buildPolicyOutbounds; [seen] holds the targets already handled. *)
Definition pushPolicyOutbound (input : Input) (st : gset string * list json) (policy : EgressPolicy)
    : gset string * list json :=
  if ps_Action (policy_spec policy) !=? EgressPolicyActionRoute then st
  else
    let name := policyEgressName input policy in
    if (name ==? "") || bool_decide (name ∈ st.1) then st
    else ({[name]} ∪ st.1, st.2 ++ buildPolicyOutbound input name).

Definition buildPolicyOutbounds (input : Input) (policies : list EgressPolicy) : list json :=
  (foldl (pushPolicyOutbound input) (∅, []) policies).2.

(** ** Inbounds and per-user rules *)

(** The loops of buildRouteInbounds and buildExperimentalConfig over relay peers and
    SingBoxNode routes: names in order of first occurrence. *)
Definition peerNames (input : Input) (routes : list CustomRoute) : gset string * list string :=
  let st := foldl (λ st n, if bool_decide (ns_RelayPort (node_spec n) ≠ 0%Z) then push_new st (GetName n) else st)
              (∅, []) (OutboundNodes input) in
  foldl (λ st r,
    if (EffectiveOutboundKind r ==? OutboundKindSingBoxNode) &&
       match OutboundNodesByName input !! rs_OutboundNode (route_spec r) with
       | Some outNode => bool_decide (ns_RelayPort (node_spec outNode) ≠ 0%Z)
       | None => false
       end
    then push_new st (rs_OutboundNode (route_spec r)) else st) st routes.

Definition pushPolicyEgress (input : Input) (st : gset string * list string) (policy : option EgressPolicy) :=
  match policy with
  | None => st
  | Some policy =>
    if ps_Action (policy_spec policy) !=? EgressPolicyActionRoute then st
    else
      let name := policyEgressName input policy in
      if (name !=? "") && policyEgressAvailable input name then push_new st name else st
  end.

(** The outboundNames of buildRouteInbounds. *)
Definition routeOutboundNames (input : Input) (routes : list CustomRoute) (includeSelf : bool) : list string :=
  let st := peerNames input routes in
  let st := foldl (pushPolicyEgress input) st (EgressPolicies input) in
  let st := if includeSelf then push_new st (GetName (Node input)) else st in
  (foldl push_new st (GetName <$> resolveExternalOutbounds input routes)).2.

(** The users[] entry of [user] for the target [nodeName], identified by [ident]. *)
Definition userEntry (input : Input) (proto nodeName ident : string) (user : User) : json :=
  let cred := map_index zeroUserCredential (UserCreds input) (GetName user) in
  let auth := DeriveAuth proto (uc_UUID cred) nodeName in
  JObj (if proto ==? "naive" then obj_set "username" (JStr ident) auth else obj_set "name" (JStr ident) auth).

Definition buildInboundEntry (protocol tag : string) (port : Z) (users : list json) : json :=
  let typeStr := if protocol ==? "socks5" then "socks" else protocol in
  let entry := obj_of [("type", JStr typeStr); ("tag", JStr tag); ("listen", JStr "::");
                       ("listen_port", JNum port); ("users", JArr users)] in
  JObj (if (protocol ==? "hysteria2") || (protocol ==? "naive") || (protocol ==? "anytls") || (protocol ==? "tuic")
        then obj_set "tls" (JObj (obj_of [("enabled", JBool true);
               ("certificate_path", JStr "/etc/sing-box/tls/tls.crt");
               ("key_path", JStr "/etc/sing-box/tls/tls.key")])) entry
        else entry).

Definition routeUsers (input : Input) (proto : string) (outboundNames : list string) : list json :=
  nodeName ← outboundNames;
  map (λ user, userEntry input proto nodeName (virtualUserName (GetName user) nodeName) user)
    (filter (λ user, userAllowed input nodeName (GetName user) = true) (Users input)).

Definition routeRules (input : Input) (outboundNames : list string) : list routeRule :=
  nodeName ← outboundNames;
  let authUsers := policyAuthUsers input nodeName in
  if 0 <? length authUsers then
    [{| rr_Inbound := []; rr_AuthUser := authUsers; rr_Domain := []; rr_DomainSuffix := []; rr_DomainRegex := [];
        rr_IPCIDR := []; rr_RuleSet := []; rr_Action := ""; rr_Outbound := outboundTag nodeName |}]
  else [].

Definition buildRouteInbounds (input : Input) (routes : list CustomRoute) (includeSelf : bool)
    : list json * list routeRule :=
  let outboundNames := routeOutboundNames input routes includeSelf in
  let proto := EffectiveInboundProtocol (Node input) in
  let port := findProtocolPort (Node input) proto in
  let inbounds :=
    if bool_decide (port ≠ 0%Z) then
      let users := routeUsers input proto outboundNames in
      if 0 <? length users then [buildInboundEntry proto ("inbound-" +:+ proto) port users] else []
    else [] in
  (inbounds, routeRules input outboundNames).
End policies.

Definition buildUsersBlock (input : Input) (protocol nodeName : string) : list json :=
  map (λ user, userEntry input protocol nodeName (GetName user) user) (Users input).

Definition buildUserInbounds (input : Input) : list json :=
  let proto := EffectiveInboundProtocol (Node input) in
  let port := findProtocolPort (Node input) proto in
  if bool_decide (port = 0%Z) then []
  else
    let users := buildUsersBlock input proto (GetName (Node input)) in
    if bool_decide (length users = 0) then [] else [buildInboundEntry proto ("inbound-" +:+ proto) port users].

Definition buildRelayInbound (input : Input) : json :=
  let cred := map_index zeroNodeCredential (NodeCreds input) (GetName (Node input)) in
  JObj (obj_of [("type", JStr "socks"); ("tag", JStr "relay-socks5"); ("listen", JStr "::");
                ("listen_port", JNum (EffectiveRelayPort (Node input)));
                ("users", JArr [JObj (obj_of [("username", JStr (nc_Username cred)); ("password", JStr (nc_Password cred))])])]).

(** ** Outbounds *)
(** [len(target.AllowedInbounds) > 0 && !slices.Contains(target.AllowedInbounds, node.Name)], negated,
    and the same for the node's AllowedOutbounds. *)
Definition listAllows (l : list string) (name : string) : bool :=
  bool_decide (length l = 0) || slices_Contains l name.

Definition buildOutboundNodeOutbounds (input : Input) (myRoutes : list CustomRoute) : list json :=
  let routedNodes : gset string := list_to_set (map (λ r, rs_OutboundNode (route_spec r)) myRoutes) in
  let node := Node input in
  omap (λ outNode,
    if bool_decide (GetName outNode ∈ routedNodes) then None
    else if negb (listAllows (ns_AllowedInbounds (node_spec outNode)) (GetName node)) then None
    else if negb (listAllows (ns_AllowedOutbounds (node_spec node)) (GetName outNode)) then None
    else if bool_decide (ns_RelayPort (node_spec outNode) = 0%Z) then None
    else Some (relayOutbound input outNode (GetName outNode))) (OutboundNodes input).

Definition buildRouteOutbounds (input : Input) (myRoutes : list CustomRoute) : list json :=
  let node := Node input in
  omap (λ route,
    match OutboundNodesByName input !! rs_OutboundNode (route_spec route) with
    | None => None
    | Some outNode =>
      if bool_decide (ns_RelayPort (node_spec outNode) = 0%Z) then None
      else if negb (listAllows (ns_AllowedInbounds (node_spec outNode)) (GetName node)) then None
      else if negb (listAllows (ns_AllowedOutbounds (node_spec node)) (GetName outNode)) then None
      else if (0 <? length (Users input)) &&
              forallb (λ user, negb (userAllowed input (GetName outNode) (GetName user))) (Users input) then None
      else Some (relayOutbound input outNode (GetName outNode))
    end) myRoutes.

Definition buildDirectOutbound : json := JObj (obj_of [("type", JStr "direct"); ("tag", JStr "direct")]).

(** [m, ok := ob.(map[string]any)] then [tag, _ := m["tag"].(string)] *)
Definition entryTag (ob : json) : option string := get_str "tag" <$> as_obj ob.

Definition deduplicateByTag (outbounds : list json) : list json :=
  (foldl (λ st ob,
     match entryTag ob with
     | None => (st.1, st.2 ++ [ob])
     | Some tag => if bool_decide (tag ∈ st.1) then st else ({[tag]} ∪ st.1, st.2 ++ [ob])
     end) (∅ : gset string, []) outbounds).2.

Fixpoint routeFinal (outbounds : list json) : string :=
  match outbounds with
  | [] => "direct"
  | ob :: outbounds =>
    match entryTag ob with
    | Some tag => if (tag !=? "direct") && (tag !=? "") then tag else routeFinal outbounds
    | None => routeFinal outbounds
    end
  end.

(** ** Traffic statistics *)
Definition statsOutboundNames (input : Input) : list string :=
  let myRoutes := routesForNode input in
  let st := peerNames input myRoutes in
  let st := if hasRole (Node input) ProxyRoleInbound && hasRole (Node input) ProxyRoleOutbound
            then push_new st (GetName (Node input)) else st in
  (foldl push_new st (GetName <$> resolveExternalOutbounds input myRoutes)).2.

Definition buildExperimentalConfig `{MapRange} (input : Input) : experimentalConfig :=
  let listenAddr := if V2RayAPIListenAddr input ==? "" then "0.0.0.0:10085" else V2RayAPIListenAddr input in
  let userSet : gmap string bool :=
    foldl (λ m v, <[v := true]> m) ∅
      (nodeName ← statsOutboundNames input; map (λ user, virtualUserName (GetName user) nodeName) (Users input)) in
  let statsUsers := sort_strings (range userSet).*1 in
  {| V2RayAPI := Some {| api_Listen := listenAddr; api_Stats := {| st_Enabled := true; st_Users := statsUsers |} |} |}.

(** ** Compute *)
Section compute.
Context `{MapRange, LabelSelectors}.

Definition isSelfOutbound (input : Input) : bool :=
  hasRole (Node input) ProxyRoleInbound && hasRole (Node input) ProxyRoleOutbound.

(** The inbounds and the rules of an inbound-role node (the first half of the
    isInbound branch of Compute); [rules] already holds the policy rules. *)
Definition inboundPart (input : Input) (rules : list routeRule) : list json * list routeRule :=
  let myRoutes := routesForNode input in
  let myPolicies := policiesForNode input in
  let hasOutboundPeers :=
    (0 <? length (OutboundNodes input)) || (0 <? length myRoutes) || (0 <? length myPolicies) ||
    isSelfOutbound input || (0 <? length (resolveExternalOutbounds input myRoutes)) in
  if 0 <? length myPolicies then
    let '(ibs, rls) := buildRouteInbounds input myRoutes (isSelfOutbound input) in
    ((if bool_decide (length ibs = 0) then buildUserInbounds input else ibs), rules ++ rls)
  else if hasOutboundPeers then
    let '(ibs, rls) := buildRouteInbounds input myRoutes (isSelfOutbound input) in (ibs, rules ++ rls)
  else (buildUserInbounds input, rules).

Definition selfOutbounds (input : Input) : list json :=
  let node := Node input in
  if isSelfOutbound input && listAllows (ns_AllowedOutbounds (node_spec node)) (GetName node)
  then [JObj (obj_of [("type", JStr "direct"); ("tag", JStr (outboundTag (GetName node)))])] else [].

Definition inboundOutbounds (input : Input) : list json :=
  let myRoutes := routesForNode input in
  buildOutboundNodeOutbounds input myRoutes ++ buildRouteOutbounds input myRoutes ++
  buildExternalOutbounds input myRoutes ++ buildPolicyOutbounds input (policiesForNode input) ++
  selfOutbounds input.

(** The configuration value that Compute marshals. *)
Definition computeConfig (input : Input) : singboxConfig :=
  let node := Node input in
  let rules := buildPolicyRules input (policiesForNode input) in
  let '(inbounds, rules) :=
    if hasRole node ProxyRoleInbound then inboundPart input rules else ([], rules) in
  let outbounds := if hasRole node ProxyRoleInbound then inboundOutbounds input else [] in
  let inbounds := if hasRole node ProxyRoleOutbound then inbounds ++ [buildRelayInbound input] else inbounds in
  let outbounds := deduplicateByTag (outbounds ++ [buildDirectOutbound]) in
  {| LogLevel := "info"; Inbounds := inbounds; Outbounds := outbounds;
     Route := {| Rules := rules; Final := if 0 <? length rules then "direct" else routeFinal outbounds |};
     Experimental := if UsageCollectionEnabled input then Some (buildExperimentalConfig input) else None |}.

(** json.Marshal has no unsupported value to report on a [json]: no error path remains. *)
Definition Compute (input : Input) : Output :=
  let data := json_Marshal (singboxConfig_json (computeConfig input)) in
  {| Config := data; Hash := ComputeHash data |}.
End compute.
