(* ===== verification/EngineFacts.v ===== *)
(** * EngineFacts: what configengine.Compute guarantees *)

From S2P Require Import Prelude GoStrings Crypto Json Api Engine.
From Stdlib Require Import Ascii.

(** ** Tags of outbound entries *)
Definition tags (obs : list json) : list string := omap entryTag obs.

Lemma tags_app l1 l2 : tags (l1 ++ l2) = tags l1 ++ tags l2.
Proof. apply omap_app. Qed.

Lemma tags_cons ob l : tags (ob :: l) = option_list (entryTag ob) ++ tags l.
Proof. unfold tags. cbn. by destruct (entryTag ob). Qed.

Lemma elem_of_tags t l : t ∈ tags l ↔ ∃ ob, ob ∈ l ∧ entryTag ob = Some t.
Proof. apply list_elem_of_omap. Qed.

Lemma entryTag_JObj o : entryTag (JObj o) = Some (get_str "tag" o).
Proof. done. Qed.

Lemma get_str_set_ne k k' v o : k ≠ k' → get_str k (obj_set k' v o) = get_str k o.
Proof. intros. unfold get_str. by rewrite obj_get_set_ne. Qed.

Lemma relayOutbound_tag input node name : entryTag (relayOutbound input node name) = Some (outboundTag name).
Proof. reflexivity. Qed.

Lemma set_cred_tag creds k entry : k ≠ "tag" → get_str "tag" (set_cred creds k entry) = get_str "tag" entry.
Proof. intros. unfold set_cred. case_match; [|done]. by apply get_str_set_ne. Qed.

Lemma hysteria2Entry_tag h creds entry : get_str "tag" (hysteria2Entry h creds entry) = get_str "tag" entry.
Proof. unfold hysteria2Entry. repeat case_match; by rewrite ?get_str_set_ne. Qed.

(** Every protocol's entry keeps the tag of the ExternalOutbound it renders. *)
Lemma buildExternalOutboundEntry_tag eob creds :
  entryTag (buildExternalOutboundEntry eob creds) = Some (outboundTag (GetName eob)).
Proof.
  unfold buildExternalOutboundEntry. rewrite entryTag_JObj. f_equal.
  repeat case_match; rewrite ?get_str_set_ne, ?hysteria2Entry_tag, ?set_cred_tag, ?get_str_set_ne by done;
    rewrite ?hysteria2Entry_tag, ?set_cred_tag, ?get_str_set_ne by done; reflexivity.
Qed.

(** ** deduplicateByTag *)
Lemma dedup_step (st : gset string * list json) l :
  let f st ob :=
    match entryTag ob with
    | None => (st.1, st.2 ++ [ob])
    | Some tag => if bool_decide (tag ∈ st.1) then st else ({[tag]} ∪ st.1, st.2 ++ [ob])
    end in
  ((foldl f st l).1, tags (foldl f st l).2) = foldl push_new (st.1, tags st.2) (tags l).
Proof.
  intros f. revert st. induction l as [|ob l IH]; intros st; [done|].
  cbn [foldl]. rewrite IH, tags_cons. unfold f at 1 2.
  destruct (entryTag ob) as [t|] eqn:Ht; simpl.
  - unfold push_new at 3. simpl. case_bool_decide; [done|]. cbn [fst snd].
    by rewrite tags_app, tags_cons, Ht.
  - by rewrite tags_app, tags_cons, Ht, app_nil_r.
Qed.

Lemma tags_dedup l : tags (deduplicateByTag l) = (foldl push_new (∅, []) (tags l)).2.
Proof. exact (f_equal snd (dedup_step (∅, []) l)). Qed.

Lemma tags_dedup_NoDup l : NoDup (tags (deduplicateByTag l)).
Proof. rewrite tags_dedup. apply foldl_push_new_ok, seen_ok_nil. Qed.

Lemma elem_of_tags_dedup t l : t ∈ tags (deduplicateByTag l) ↔ t ∈ tags l.
Proof. rewrite tags_dedup, foldl_push_new_elem by apply seen_ok_nil. rewrite elem_of_nil. tauto. Qed.

#[export] Hint Rewrite tags_app elem_of_tags_dedup : go.

(** ** resolveExternalOutbounds *)
(** An entry the node can use: it does not shadow a SingBoxNode and its credentials are complete. *)
Definition externalUsable (input : Input) (eob : ExternalOutbound) : Prop :=
  externalNameCollidesWithNode input (GetName eob) = false ∧
  hasRequiredExternalCreds eob (map_index ∅ (ExternalCreds input) (GetName eob)) = true.

Definition external_inv (P : ExternalOutbound → Prop) (st : gset string * list ExternalOutbound) : Prop :=
  Forall P st.2 ∧ NoDup (GetName <$> st.2) ∧ ∀ e, e ∈ st.2 → GetName e ∈ st.1.

Lemma addExternal_inv (P : ExternalOutbound → Prop) input st eob :
  (∀ e, eob = Some e → externalUsable input e → P e) →
  external_inv P st → external_inv P (addExternal input st eob).
Proof.
  intros He (HP & Hnd & Hs). destruct eob as [e|]; simpl; [|done]. case_bool_decide as Hin; [done|].
  destruct (externalNameCollidesWithNode input (GetName e)) eqn:Hc; [by split_and!; simpl; set_solver|].
  destruct (hasRequiredExternalCreds _ _) eqn:Hr; simpl; [|by split_and!; simpl; set_solver].
  split_and!; simpl.
  - apply Forall_app. split; [done|]. repeat constructor. by apply He.
  - rewrite fmap_app. apply NoDup_app. split_and!; [done| |apply NoDup_singleton].
    intros n (e' & -> & He')%list_elem_of_fmap Hn%list_elem_of_singleton. apply Hin. rewrite <-Hn. auto.
  - intros e' [?| ->%list_elem_of_singleton]%elem_of_app; set_solver.
Qed.

Lemma resolveExternalOutbounds_inv (P : ExternalOutbound → Prop) input routes :
  (∀ e, Some e ∈ ExternalOutbounds input → externalUsable input e → P e) →
  (∀ r e, r ∈ routes → ExternalOutboundsByName input !! rs_OutboundNode (route_spec r) = Some e →
     externalUsable input e → P e) →
  Forall P (resolveExternalOutbounds input routes) ∧ NoDup (GetName <$> resolveExternalOutbounds input routes).
Proof.
  intros H1 H2. unfold resolveExternalOutbounds.
  match goal with |- Forall _ ?st.2 ∧ _ => assert (external_inv P st) as (?&?&?); [|done] end.
  apply foldl_inv.
  - apply foldl_inv; [split_and!; [constructor..|set_solver]|].
    intros st e He. apply addExternal_inv. intros ? ->. auto.
  - intros st r Hr Hst. case_match; [done|]. case_match; [|done].
    apply addExternal_inv; [|done]. intros ? [= <-]. by apply (H2 r).
Qed.

Lemma addExternal_keeps input st eob e : e ∈ st.2 → e ∈ (addExternal input st eob).2.
Proof. intros He. unfold addExternal. repeat case_match; simpl; set_solver. Qed.

Lemma addExternal_seen input st eob n :
  n ∈ (addExternal input st eob).1 → n ∈ st.1 ∨ ∃ e, eob = Some e ∧ GetName e = n.
Proof. unfold addExternal. repeat case_match; simpl; intros Hn; set_solver. Qed.

(** With distinct names, every listed ExternalOutbound that is usable is resolved. *)
Lemma resolveExternalOutbounds_complete input routes e :
  Some e ∈ ExternalOutbounds input → NoDup (GetName <$> omap id (ExternalOutbounds input)) →
  externalUsable input e → e ∈ resolveExternalOutbounds input routes.
Proof.
  intros He Hnd [Hc Hr]. unfold resolveExternalOutbounds. apply foldl_inv.
  2: { intros st r _ Hst. repeat case_match; auto using addExternal_keeps. }
  apply list_elem_of_split in He as (l1 & l2 & Hl). rewrite Hl in *.
  rewrite omap_app, fmap_app, NoDup_app in Hnd. destruct Hnd as (_ & Hd & _).
  rewrite foldl_app. simpl. apply foldl_inv; [|auto using addExternal_keeps].
  set (st := foldl (addExternal input) (∅, []) l1).
  assert (∀ n, n ∈ st.1 → n ∈ GetName <$> omap id l1) as Hseen.
  { intros n. apply (foldl_inv (λ st, n ∈ st.1 → n ∈ GetName <$> omap id l1)); [set_solver|].
    intros st' x Hx IH [?|(e' & -> & <-)]%addExternal_seen; [auto|].
    apply list_elem_of_fmap_2, list_elem_of_omap. by exists (Some e'). }
  unfold addExternal. rewrite bool_decide_eq_false_2, Hc, Hr; [simpl; set_solver|].
  intros Hin%Hseen. apply (Hd _ Hin). cbn. left.
Qed.

(** ** Which targets get virtual users *)
(** A SingBoxNode peer, or the SingBoxNode target of a route, that is reachable over its relay port. *)
Definition peerTarget (input : Input) (routes : list CustomRoute) (name : string) : Prop :=
  (∃ n, n ∈ OutboundNodes input ∧ ns_RelayPort (node_spec n) ≠ 0%Z ∧ GetName n = name) ∨
  (∃ r n, r ∈ routes ∧ EffectiveOutboundKind r = OutboundKindSingBoxNode ∧
     rs_OutboundNode (route_spec r) = name ∧ OutboundNodesByName input !! name = Some n ∧
     ns_RelayPort (node_spec n) ≠ 0%Z).

Lemma peerNames_ok input routes : seen_ok (peerNames input routes).
Proof.
  unfold peerNames. apply foldl_inv; [|intros; case_match; auto with go].
  apply foldl_inv; [|intros; case_match]; auto with go.
Qed.

Lemma elem_of_peerNames input routes name :
  name ∈ (peerNames input routes).2 ↔ peerTarget input routes name.
Proof.
  unfold peerNames. rewrite (foldl_push_filter _ (λ r, rs_OutboundNode (route_spec r))).
  rewrite (foldl_push_filter _ GetName).
  rewrite !foldl_push_new_elem by auto with go. rewrite elem_of_nil, !list_elem_of_fmap.
  unfold peerTarget. setoid_rewrite list_elem_of_filter. split.
  - intros [[[]|(n & -> & Hn & ?)]|(r & -> & Hr & ?)]; bool_prop; [left; eauto|right].
    case_match; [|done]. bool_prop. naive_solver.
  - intros [(n & ? & ? & <-)|(r & n & ? & Hk & <- & Hn & ?)]; [left; right; exists n|right; exists r].
    + split_and!; [done|by apply bool_decide_eq_true_2|done].
    + split_and!; [done| |done]. rewrite Hn, Hk. by rewrite !bool_decide_eq_true_2.
Qed.

Section facts.
Context `{MapRange, LabelSelectors}.

(** The egress of an active route policy. *)
Definition policyTarget (input : Input) (name : string) : Prop :=
  ∃ p, Some p ∈ EgressPolicies input ∧ ps_Action (policy_spec p) = EgressPolicyActionRoute ∧
       policyEgressName input p = name ∧ name ≠ "" ∧ policyEgressAvailable input name = true.

Definition routeTarget (input : Input) (routes : list CustomRoute) (includeSelf : bool) (name : string) : Prop :=
  peerTarget input routes name ∨ policyTarget input name ∨
  (includeSelf = true ∧ name = GetName (Node input)) ∨
  (∃ eob, eob ∈ resolveExternalOutbounds input routes ∧ GetName eob = name).

Lemma foldl_pushPolicyEgress_ok input st l : seen_ok st → seen_ok (foldl (pushPolicyEgress input) st l).
Proof.
  intros. apply foldl_inv; [done|]. intros st' [p|]; simpl; [|done]. intros. repeat case_match; auto with go.
Qed.

Lemma elem_of_foldl_pushPolicyEgress input st l name :
  seen_ok st →
  name ∈ (foldl (pushPolicyEgress input) st l).2 ↔
  name ∈ st.2 ∨ ∃ p, Some p ∈ l ∧ ps_Action (policy_spec p) = EgressPolicyActionRoute ∧
                     policyEgressName input p = name ∧ name ≠ "" ∧ policyEgressAvailable input name = true.
Proof.
  revert st. induction l as [|[p|] l IH]; intros st Hst; cbn [foldl].
  - set_solver.
  - rewrite IH by (by apply (foldl_pushPolicyEgress_ok input st [Some p])).
    setoid_rewrite elem_of_cons. unfold pushPolicyEgress.
    destruct (_ !=? EgressPolicyActionRoute) eqn:Ha; bool_prop; [naive_solver|].
    destruct (_ && _) eqn:Hn; bool_prop.
    + rewrite push_new_elem by done. naive_solver.
    + apply andb_false_iff in Hn. split; [naive_solver|].
      intros [?|(p' & [[= ->]|?] & ? & <- & ? & Hav)]; [naive_solver| |naive_solver].
      destruct Hn; bool_prop; [done|congruence].
  - rewrite IH by done. setoid_rewrite elem_of_cons. naive_solver.
Qed.

Lemma elem_of_routeOutboundNames input routes includeSelf name :
  name ∈ routeOutboundNames input routes includeSelf ↔ routeTarget input routes includeSelf name.
Proof.
  unfold routeOutboundNames, routeTarget, policyTarget.
  pose proof (foldl_pushPolicyEgress_ok input _ (EgressPolicies input) (peerNames_ok input routes)) as Hok.
  rewrite foldl_push_new_elem by (destruct includeSelf; auto with go).
  rewrite list_elem_of_fmap.
  assert (name ∈ (if includeSelf then push_new (foldl (pushPolicyEgress input) (peerNames input routes) (EgressPolicies input)) (GetName (Node input))
                  else foldl (pushPolicyEgress input) (peerNames input routes) (EgressPolicies input)).2
          ↔ name ∈ (foldl (pushPolicyEgress input) (peerNames input routes) (EgressPolicies input)).2
            ∨ (includeSelf = true ∧ name = GetName (Node input))) as ->.
  { destruct includeSelf; [rewrite push_new_elem by done|]; naive_solver. }
  rewrite elem_of_foldl_pushPolicyEgress, elem_of_peerNames by apply peerNames_ok. naive_solver.
Qed.

(** ** buildPolicyOutbounds emits one entry per distinct route target *)
Lemma buildPolicyOutbounds_step input (st : gset string * list json) (names : list string) l :
  seen_ok (st.1, names) → st.2 = (names ≫= buildPolicyOutbound input) →
  ∃ names',
    (foldl (pushPolicyOutbound input) st l).2
    = (names' ≫= buildPolicyOutbound input) ∧
    (∀ x, x ∈ names' ↔ x ∈ names ∨ ∃ p, p ∈ l ∧ ps_Action (policy_spec p) = EgressPolicyActionRoute ∧
                                        policyEgressName input p = x ∧ x ≠ "").
Proof.
  revert st names. induction l as [|p l IH]; intros st names Hok Hst; cbn [foldl].
  { exists names. split; [done|]. set_solver. }
  unfold pushPolicyOutbound at 2. destruct (_ !=? EgressPolicyActionRoute) eqn:Ha; bool_prop.
  { destruct (IH _ _ Hok Hst) as (ns & ? & Hns). exists ns. split; [done|]. intros x. rewrite Hns. set_solver. }
  cbn zeta. destruct (_ || _) eqn:Hn.
  - destruct (IH _ _ Hok Hst) as (ns & ? & Hns). exists ns. split; [done|]. intros x. rewrite Hns.
    assert (∀ x, x ∈ names ↔ x ∈ st.1) as Hseen. { destruct Hok as [Hs _]. simpl in Hs. rewrite Hs. set_solver. }
    setoid_rewrite elem_of_cons. apply orb_true_iff in Hn as [?|?]; bool_prop; [set_solver|].
    rewrite <-Hseen in *. naive_solver.
  - bool_prop. destruct (IH ({[policyEgressName input p]} ∪ st.1, st.2 ++ buildPolicyOutbound input (policyEgressName input p))
                          (names ++ [policyEgressName input p])) as (ns & ? & Hns).
    + pose proof (push_new_ok _ (policyEgressName input p) Hok) as Hok'. unfold push_new in Hok'. simpl in *.
      by rewrite bool_decide_eq_false_2 in Hok'.
    + simpl. by rewrite Hst, bind_app; cbn; rewrite app_nil_r.
    + exists ns. split; [done|]. intros x. rewrite Hns. setoid_rewrite elem_of_cons. set_solver.
Qed.

Lemma buildPolicyOutbound_tag input name :
  (∀ k e, ExternalOutboundsByName input !! k = Some e → GetName e = k) →
  policyEgressAvailable input name = true → outboundTag name ∈ tags (buildPolicyOutbound input name).
Proof.
  unfold policyEgressAvailable, buildPolicyOutbound. intros Hname Hav. repeat case_match; bool_prop; try done.
  - lia.
  - rewrite tags_cons, relayOutbound_tag. left.
  - rewrite tags_cons, buildExternalOutboundEntry_tag. rewrite (Hname name) by done. left.
Qed.

Lemma buildPolicyOutbounds_tag input policies p :
  (∀ k e, ExternalOutboundsByName input !! k = Some e → GetName e = k) →
  p ∈ policies → ps_Action (policy_spec p) = EgressPolicyActionRoute → policyEgressName input p ≠ "" →
  policyEgressAvailable input (policyEgressName input p) = true →
  outboundTag (policyEgressName input p) ∈ tags (buildPolicyOutbounds input policies).
Proof.
  intros Hname Hp Ha Hne Hav. unfold buildPolicyOutbounds.
  destruct (buildPolicyOutbounds_step input (∅, []) [] policies seen_ok_nil eq_refl) as (ns & Hns & Hin).
  rewrite Hns. assert (policyEgressName input p ∈ ns) as Hpn. { apply Hin. right. eauto. }
  clear Hns Hin. induction ns as [|n ns IH]; [by apply elem_of_nil in Hpn|].
  cbn. rewrite tags_app, elem_of_app. apply elem_of_cons in Hpn as [<-|?]; [left|right; auto].
  by apply buildPolicyOutbound_tag.
Qed.

Lemma elem_of_policiesForNode input p : p ∈ policiesForNode input ↔ Some p ∈ EgressPolicies input.
Proof.
  unfold policiesForNode. rewrite elem_of_sort_by, list_elem_of_omap. naive_solver.
Qed.

Lemma elem_of_routesForNode input r :
  r ∈ routesForNode input ↔ r ∈ Routes input ∧ rs_InboundNode (route_spec r) = GetName (Node input).
Proof. unfold routesForNode. rewrite elem_of_sort_by, list_elem_of_filter. tauto. Qed.
End facts.

(** ** Policy order *)
#[export] Instance policy_less_sw : StrictWeak policy_less.
Proof.
  split; unfold policy_less; intros.
  - repeat case_bool_decide; try lia. by apply str_less_true.
  - repeat case_bool_decide; try lia. by eapply (sw_trans (less := str_less)).
Qed.

(** ** User identities *)
Lemma virtualUserName_inj u t u' t' :
  has_char "#"%char u = false → has_char "#"%char u' = false →
  virtualUserName u t = virtualUserName u' t' → u = u' ∧ t = t'.
Proof.
  unfold virtualUserName. intros Hu Hu' Heq.
  pose proof (strings_Cut_app "#" "" u t Hu) as H1. pose proof (strings_Cut_app "#" "" u' t' Hu') as H2. simpl in *.
  rewrite Heq in H1. naive_solver.
Qed.

(** ** The contract between the controller and the engine *)

(** What SingBoxNodeReconciler.collectInput promises Compute: the name indexes
    are keyed by name and contain the peers, policies are attached to inbound
    nodes only and have a known action, and every peer and route target passes the
    two allow-lists. *)
Class RoutableInput (input : Input) : Prop := {
  ri_node_names : ∀ k n, OutboundNodesByName input !! k = Some n → GetName n = k;
  ri_external_names : ∀ k e, ExternalOutboundsByName input !! k = Some e → GetName e = k;
  ri_peers_indexed : ∀ n, n ∈ OutboundNodes input → OutboundNodesByName input !! GetName n = Some n;
  ri_policies_inbound : ∀ p, Some p ∈ EgressPolicies input → hasRole (Node input) ProxyRoleInbound = true;
  ri_policy_action : ∀ p, Some p ∈ EgressPolicies input →
    ps_Action (policy_spec p) = EgressPolicyActionRoute ∨ ps_Action (policy_spec p) = EgressPolicyActionReject;
  ri_peer_gates : ∀ n, n ∈ OutboundNodes input →
    listAllows (ns_AllowedInbounds (node_spec n)) (GetName (Node input)) = true ∧
    listAllows (ns_AllowedOutbounds (node_spec (Node input))) (GetName n) = true;
  ri_route_gates : ∀ r n, r ∈ Routes input → OutboundNodesByName input !! rs_OutboundNode (route_spec r) = Some n →
    listAllows (ns_AllowedInbounds (node_spec n)) (GetName (Node input)) = true ∧
    listAllows (ns_AllowedOutbounds (node_spec (Node input))) (GetName n) = true;
}.

(** What the controller does not promise: a node with both roles is admitted by
    its own allowedOutbounds. *)
Definition selfAllowed (node : SingBoxNode) : Prop :=
  hasRole node ProxyRoleInbound = true → hasRole node ProxyRoleOutbound = true →
  listAllows (ns_AllowedOutbounds (node_spec node)) (GetName node) = true.

Lemma selfAllowed_outbound input : selfAllowed (Node input) → isSelfOutbound input = true →
  listAllows (ns_AllowedOutbounds (node_spec (Node input))) (GetName (Node input)) = true.
Proof. intros Hself. unfold isSelfOutbound. intros [Hin Hout]%andb_true_iff. by apply Hself. Qed.

Section routing.
Context `{MapRange, LabelSelectors}.
Context (input : Input).

(** The targets that Compute gives virtual users and rules to. *)
Definition computeTargets : list string :=
  routeOutboundNames input (routesForNode input) (isSelfOutbound input).

Lemma elem_of_policyAuthUsers v name :
  v ∈ policyAuthUsers input name ↔
  ∃ u, u ∈ Users input ∧ userAllowed input name (GetName u) = true ∧ v = virtualUserName (GetName u) name.
Proof.
  unfold policyAuthUsers. rewrite list_elem_of_fmap. setoid_rewrite list_elem_of_filter. naive_solver.
Qed.

Lemma elem_of_routeRules r names :
  r ∈ routeRules input names ↔
  ∃ name, name ∈ names ∧ policyAuthUsers input name ≠ [] ∧
    r = {| rr_Inbound := []; rr_AuthUser := policyAuthUsers input name; rr_Domain := []; rr_DomainSuffix := [];
           rr_DomainRegex := []; rr_IPCIDR := []; rr_RuleSet := []; rr_Action := ""; rr_Outbound := outboundTag name |}.
Proof.
  unfold routeRules. rewrite list_elem_of_bind. split.
  - intros (name & Hr & Hn). exists name. split; [done|].
    destruct (policyAuthUsers input name) eqn:Hu; simpl in Hr; [by apply elem_of_nil in Hr|].
    apply list_elem_of_singleton in Hr as ->. done.
  - intros (name & Hn & Hu & ->). exists name. split; [|done].
    destruct (policyAuthUsers input name); [done|]. simpl. by apply list_elem_of_singleton.
Qed.

(** Every rule of the configuration is a policy rule or the rule of a target. *)
Lemma elem_of_config_rules r :
  r ∈ Rules (Route (computeConfig input)) →
  (∃ p, p ∈ policiesForNode input ∧ r ∈ policyRules input p) ∨
  (hasRole (Node input) ProxyRoleInbound = true ∧ r ∈ routeRules input computeTargets).
Proof.
  unfold computeConfig. destruct (hasRole (Node input) ProxyRoleInbound) eqn:Hin.
  - unfold inboundPart, buildRouteInbounds, computeTargets. unfold buildPolicyRules.
    repeat case_match; simplify_eq/=; rewrite ?elem_of_app, list_elem_of_bind; naive_solver.
  - simpl. unfold buildPolicyRules. rewrite list_elem_of_bind. naive_solver.
Qed.

Lemma policyRules_outbound p r :
  r ∈ policyRules input p → rr_Outbound r ≠ "" →
  ps_Action (policy_spec p) ≠ EgressPolicyActionReject ∧ policyEgressName input p ≠ "" ∧
  policyEgressAvailable input (policyEgressName input p) = true ∧
  rr_Outbound r = outboundTag (policyEgressName input p).
Proof.
  unfold policyRules. intros Hr Hout. repeat case_match; bool_prop;
    repeat match goal with H : _ ∈ _ :: _ |- _ => apply elem_of_cons in H as [->|H] | H : _ ∈ [] |- _ => apply elem_of_nil in H end;
    try done.
Qed.

Lemma routesForNode_target_tag r n :
  RoutableInput input → r ∈ routesForNode input →
  OutboundNodesByName input !! rs_OutboundNode (route_spec r) = Some n → ns_RelayPort (node_spec n) ≠ 0%Z →
  policyAuthUsers input (rs_OutboundNode (route_spec r)) ≠ [] →
  outboundTag (rs_OutboundNode (route_spec r)) ∈ tags (buildRouteOutbounds input (routesForNode input)).
Proof.
  intros Hri Hr Hn Hport Husers. apply elem_of_tags. exists (relayOutbound input n (GetName n)).
  pose proof (ri_node_names _ _ Hn) as Hnm. split; [|by rewrite relayOutbound_tag, Hnm].
  unfold buildRouteOutbounds. apply list_elem_of_omap. exists r. split; [done|]. rewrite Hn.
  apply elem_of_routesForNode in Hr as [Hr _]. destruct (ri_route_gates r n) as [-> ->]; [done..|].
  rewrite bool_decide_eq_false_2 by done. simpl.
  destruct (policyAuthUsers input (rs_OutboundNode (route_spec r))) as [|v vs] eqn:Hv; [done|].
  assert (v ∈ policyAuthUsers input (rs_OutboundNode (route_spec r))) as (u & Hu & Hal & _)%elem_of_policyAuthUsers
    by (rewrite Hv; left).
  destruct (_ && _) eqn:Hd; [|done]. bool_prop.
  match goal with H : forallb _ _ = true |- _ => rewrite forallb_forall in H; specialize (H u) end.
  rewrite Hnm, Hal in *. apply list_elem_of_In in Hu. naive_solver.
Qed.

Lemma outbounds_tags t :
  t ∈ tags (Outbounds (computeConfig input)) ↔
  t = "direct" ∨ (hasRole (Node input) ProxyRoleInbound = true ∧ t ∈ tags (inboundOutbounds input)).
Proof.
  unfold computeConfig. destruct (if hasRole (Node input) ProxyRoleInbound then _ else _) as [ibs rls]; simpl.
  rewrite elem_of_tags_dedup, tags_app, elem_of_app. cbn. rewrite list_elem_of_singleton.
  destruct (hasRole (Node input) ProxyRoleInbound); cbn; [naive_solver|]. rewrite elem_of_nil. naive_solver.
Qed.

Lemma peer_target_tag name :
  RoutableInput input → policyAuthUsers input name ≠ [] → peerTarget input (routesForNode input) name →
  outboundTag name ∈ tags (buildOutboundNodeOutbounds input (routesForNode input)) ++
                     tags (buildRouteOutbounds input (routesForNode input)).
Proof.
  intros Hri Husers [(n & Hn & Hport & <-)|(r & n & Hr & _ & <- & Hn & Hport)]; apply elem_of_app; [|right].
  2: by apply routesForNode_target_tag with n.
  destruct (decide (GetName n ∈ map (λ r, rs_OutboundNode (route_spec r)) (routesForNode input))) as [Hro|Hro].
  - right. apply list_elem_of_fmap in Hro as (r & Heq & Hr).
    pose proof (ri_peers_indexed n Hn) as Hix. rewrite Heq in *. by apply routesForNode_target_tag with n.
  - left. apply elem_of_tags. exists (relayOutbound input n (GetName n)). split; [|done].
    unfold buildOutboundNodeOutbounds. apply list_elem_of_omap. exists n. split; [done|].
    destruct (ri_peer_gates n Hn) as [-> ->].
    rewrite bool_decide_eq_false_2 by (by rewrite elem_of_list_to_set). simpl.
    by rewrite bool_decide_eq_false_2.
Qed.

(** A target with at least one allowed user has its outbound entry. *)
Lemma target_tag name :
  RoutableInput input → selfAllowed (Node input) → hasRole (Node input) ProxyRoleInbound = true →
  name ∈ computeTargets → policyAuthUsers input name ≠ [] →
  outboundTag name ∈ tags (inboundOutbounds input).
Proof.
  intros Hri Hself Hin Hname Husers. unfold inboundOutbounds. rewrite !tags_app, !elem_of_app.
  apply elem_of_routeOutboundNames in Hname as [Hp|[(p & Hp & Ha & <- & Hne & Hav)|[[Hs ->]|(e & He & <-)]]].
  - apply peer_target_tag, elem_of_app in Hp; naive_solver.
  - do 3 right. left. apply buildPolicyOutbounds_tag;
      [apply ri_external_names | by apply elem_of_policiesForNode | done..].
  - do 4 right. unfold selfOutbounds. rewrite Hs, (selfAllowed_outbound input Hself Hs). by apply list_elem_of_singleton.
  - do 2 right. left. apply elem_of_tags. eexists. split; [by apply list_elem_of_fmap; eauto|].
    apply buildExternalOutboundEntry_tag.
Qed.
(** ** Where an outbound entry can come from *)

(** The objects that can give rise to the outbound of [name]. *)
Definition outboundSource (name : string) : Prop :=
  (∃ n, n ∈ OutboundNodes input ∧ GetName n = name) ∨
  (∃ k n, OutboundNodesByName input !! k = Some n ∧ (GetName n = name ∨ k = name)) ∨
  (∃ e, Some e ∈ ExternalOutbounds input ∧ GetName e = name) ∨
  (∃ k e, ExternalOutboundsByName input !! k = Some e ∧ GetName e = name) ∨
  (isSelfOutbound input = true ∧ listAllows (ns_AllowedOutbounds (node_spec (Node input))) (GetName (Node input)) = true ∧
   name = GetName (Node input)).

Lemma relay_tags_source t routes :
  t ∈ tags (buildOutboundNodeOutbounds input routes ++ buildRouteOutbounds input routes) →
  ∃ name, t = outboundTag name ∧ outboundSource name.
Proof.
  rewrite tags_app, elem_of_app, !elem_of_tags. unfold buildOutboundNodeOutbounds, buildRouteOutbounds.
  setoid_rewrite list_elem_of_omap. intros [(ob & (n & Hn & Hob) & Ht)|(ob & (r & Hr & Hob) & Ht)].
  - exists (GetName n). split; [|left; eauto]. repeat case_match; simplify_eq. by rewrite relayOutbound_tag in Ht; simplify_eq.
  - destruct (OutboundNodesByName input !! _) as [n|] eqn:Hn; [|done].
    exists (GetName n). split; [|right; left; eauto].
    repeat case_match; simplify_eq. by rewrite relayOutbound_tag in Ht; simplify_eq.
Qed.

Lemma external_tags_source t routes :
  t ∈ tags (buildExternalOutbounds input routes) → ∃ name, t = outboundTag name ∧ outboundSource name.
Proof.
  rewrite elem_of_tags. unfold buildExternalOutbounds. setoid_rewrite list_elem_of_fmap.
  intros (ob & (e & -> & He) & Ht). rewrite buildExternalOutboundEntry_tag in Ht. simplify_eq.
  exists (GetName e). split; [done|].
  destruct (resolveExternalOutbounds_inv (λ e, outboundSource (GetName e)) input routes) as [HP _].
  - intros e' ? _. right; right; left. eauto.
  - intros r e' _ ? _. do 3 right. left. eauto.
  - rewrite Forall_forall in HP. auto.
Qed.

Lemma policy_tags_source t policies :
  t ∈ tags (buildPolicyOutbounds input policies) → ∃ name, t = outboundTag name ∧ outboundSource name.
Proof.
  destruct (buildPolicyOutbounds_step input (∅, []) [] policies seen_ok_nil eq_refl) as (ns & Hns & _).
  unfold buildPolicyOutbounds. rewrite Hns, elem_of_tags. setoid_rewrite list_elem_of_bind.
  intros (ob & (name & Hob & _) & Ht). unfold buildPolicyOutbound in Hob. repeat case_match;
    try (by apply elem_of_nil in Hob); apply list_elem_of_singleton in Hob as ->.
  - rewrite relayOutbound_tag in Ht. simplify_eq. exists name. split; [done|]. right; left. eauto.
  - rewrite buildExternalOutboundEntry_tag in Ht. simplify_eq. eexists. split; [done|]. do 3 right. left. eauto.
Qed.

Lemma outbounds_source t :
  t ∈ tags (Outbounds (computeConfig input)) → t = "direct" ∨ ∃ name, t = outboundTag name ∧ outboundSource name.
Proof.
  rewrite outbounds_tags. intros [?|[_ Ht]]; [by left|right]. revert Ht. unfold inboundOutbounds.
  rewrite (app_assoc (buildOutboundNodeOutbounds _ _)), !tags_app, <-(tags_app (buildOutboundNodeOutbounds _ _)), !elem_of_app.
  intros [?|[?|[?|Ht]]]; eauto using relay_tags_source, external_tags_source, policy_tags_source.
  revert Ht. unfold selfOutbounds. destruct (_ && _) eqn:Hs; [|by intros ?%elem_of_nil].
  bool_prop. intros ->%list_elem_of_singleton. exists (GetName (Node input)). split; [done|]. do 4 right. done.
Qed.

(** ** The inbound listener and the per-target rules are emitted when there is a target *)
Lemma computeTargets_inbound rules name :
  name ∈ computeTargets →
  inboundPart input rules =
    (let '(ibs, rls) := buildRouteInbounds input (routesForNode input) (isSelfOutbound input) in
     (if (0 <? length (policiesForNode input)) && bool_decide (length ibs = 0) then buildUserInbounds input else ibs, rules ++ rls)).
Proof.
  intros Hname. unfold inboundPart. destruct (buildRouteInbounds _ _ _) as [ibs rls].
  destruct (0 <? length (policiesForNode input)) eqn:Hpol; [done|].
  destruct (_ || _) eqn:Hpeers; [done|]. exfalso. bool_prop.
  apply elem_of_routeOutboundNames in Hname as [[(n & Hn & _)|(r & n & Hr & _)]|[(p & Hp & _)|[[Hs _]|(e & He & _)]]].
  - destruct (OutboundNodes input); [by apply elem_of_nil in Hn|done].
  - destruct (routesForNode input); [by apply elem_of_nil in Hr|done].
  - apply elem_of_policiesForNode in Hp. destruct (policiesForNode input); [by apply elem_of_nil in Hp|done].
  - congruence.
  - destruct (resolveExternalOutbounds _ _); [by apply elem_of_nil in He|done].
Qed.

(** The listener entry of the target identities, if any. *)
Lemma buildRouteInbounds_inbounds :
  (buildRouteInbounds input (routesForNode input) (isSelfOutbound input)).1 =
  let proto := EffectiveInboundProtocol (Node input) in
  let users := routeUsers input proto computeTargets in
  if bool_decide (findProtocolPort (Node input) proto ≠ 0%Z) && (0 <? length users)
  then [buildInboundEntry proto ("inbound-" +:+ proto) (findProtocolPort (Node input) proto) users] else [].
Proof. unfold buildRouteInbounds. cbn zeta. by case_bool_decide. Qed.

Lemma inboundPart_inbounds rules :
  let route := (buildRouteInbounds input (routesForNode input) (isSelfOutbound input)).1 in
  (inboundPart input rules).1 = route ∨ (inboundPart input rules).1 = buildUserInbounds input ∧ route = [].
Proof.
  intros route. destruct computeTargets as [|t ts] eqn:Ht.
  - assert (route = []) as Hr. { unfold route. rewrite buildRouteInbounds_inbounds, Ht. cbn. by rewrite andb_false_r. }
    rewrite Hr. unfold inboundPart. unfold route in Hr. destruct (buildRouteInbounds _ _ _). simpl in Hr. subst.
    repeat case_match; simpl; auto.
  - rewrite (computeTargets_inbound rules t) by (rewrite Ht; left). unfold route.
    destruct (buildRouteInbounds _ _ _) as [ibs rls]. simpl. destruct (_ && _) eqn:Hp; [|by left].
    bool_prop. right. split; [done|]. by apply nil_length_inv.
Qed.

(** An entry of the listener of an inbound node. *)
Lemma elem_of_inboundPart rules ib :
  ib ∈ (inboundPart input rules).1 →
  let proto := EffectiveInboundProtocol (Node input) in
  ∃ users, ib = buildInboundEntry proto ("inbound-" +:+ proto) (findProtocolPort (Node input) proto) users ∧
    (users = routeUsers input proto computeTargets ∨
     routeUsers input proto computeTargets = [] ∧ users = buildUsersBlock input proto (GetName (Node input))).
Proof.
  pose proof buildRouteInbounds_inbounds as Hroute. cbn zeta in *.
  destruct (inboundPart_inbounds rules) as [->|[-> Hr]]; rewrite Hroute in *; intros Hib.
  - destruct (_ && _); [|by apply elem_of_nil in Hib]. apply list_elem_of_singleton in Hib. eauto.
  - revert Hib. unfold buildUserInbounds. cbn zeta.
    destruct (bool_decide (_ = 0%Z)) eqn:Hport; [by intros ?%elem_of_nil|].
    destruct (bool_decide (length _ = 0)); [by intros ?%elem_of_nil|].
    intros ->%list_elem_of_singleton. eexists. split; [done|]. right. split; [|done].
    bool_prop. rewrite bool_decide_eq_true_2 in Hr by done. simpl in Hr. by destruct (routeUsers _ _ _).
Qed.

Lemma target_rule_emitted name :
  hasRole (Node input) ProxyRoleInbound = true → name ∈ computeTargets → policyAuthUsers input name ≠ [] →
  ∃ r, r ∈ Rules (Route (computeConfig input)) ∧ rr_AuthUser r = policyAuthUsers input name ∧
       rr_Outbound r = outboundTag name ∧ rr_Action r = "".
Proof.
  intros Hin Hname Husers.
  assert (∃ r, r ∈ routeRules input computeTargets ∧ rr_AuthUser r = policyAuthUsers input name ∧
               rr_Outbound r = outboundTag name ∧ rr_Action r = "") as (r & Hr & ?).
  { eexists. rewrite elem_of_routeRules. split; [by eauto|done]. }
  exists r. split; [|done]. unfold computeConfig. rewrite Hin, (computeTargets_inbound _ name Hname).
  unfold buildRouteInbounds. simpl. apply elem_of_app. by right.
Qed.
End routing.
