(* ===== verification/Samples.v ===== *)
(** * Samples: concrete objects and parameter instances

    A small cluster (two relays, one external proxy, two users, one policy) and
    one concrete choice of every parameter of the model, on which the witness of
    each theorem is evaluated. *)

From S2P Require Import Prelude GoStrings Json Api Engine.
From Stdlib Require Import Ascii.

(** Cases on the elements of a concrete list. *)
Ltac list_cases H :=
  apply list_elem_of_In in H; simpl in H;
  repeat (destruct H as [H|H]; [try rewrite <- H|]); [..|destruct H].

(** ** Instances of the parameters *)

(** Equality-based and set-based requirements of a label selector. *)
Definition sample_requirement (labels : gmap string string) (r : LabelSelectorRequirement) : bool :=
  match labels !! lsr_Key r with
  | Some v =>
    if lsr_Operator r ==? "In" then slices_Contains (lsr_Values r) v
    else if lsr_Operator r ==? "NotIn" then negb (slices_Contains (lsr_Values r) v)
    else lsr_Operator r ==? "Exists"
  | None => (lsr_Operator r ==? "NotIn") || (lsr_Operator r ==? "DoesNotExist")
  end.

#[export] Instance sample_selectors : LabelSelectors := λ ml exprs,
  if forallb (λ r, slices_Contains ["In"; "NotIn"; "Exists"; "DoesNotExist"] (lsr_Operator r)) exprs
  then inr (λ labels, bool_decide (map_Forall (λ k v, labels !! k = Some v) ml) &&
                      forallb (sample_requirement labels) exprs)
  else inl "not a valid label selector operator".

#[export] Program Instance sample_std : GoStd := {|
  regexp_Compile s := if has_char "("%char s then Some "error parsing regexp: missing closing )" else None;
  strconv_Quote s := dquote +:+ s +:+ dquote;
|}.
Next Obligation. intros s e ?. simpl in *. by case_match; simplify_eq. Qed.

(** ** Objects *)
Definition mkMeta (name : string) : ObjectMeta :=
  {| om_Name := name; om_Namespace := "proxy"; om_Labels := ∅; om_Annotations := ∅; om_Generation := 1;
     om_Finalizers := []; om_DeletionTimestamp := None; om_OwnerReferences := [] |}.

Definition emptyNodeStatus : SingBoxNodeStatus :=
  {| nst_Phase := ""; nst_ConfigHash := ""; nst_EntryEndpoints := []; nst_TLSServerName := "";
     nst_Conditions := []; nst_ObservedGeneration := 0 |}.

Definition mkNode (name : string) (roles : list ProxyRole) (relay : Z) (allowedOut : list string) : SingBoxNode :=
  {| node_meta := mkMeta name;
     node_spec := {| ns_NodeRef := name; ns_Address := "10.0.0.1"; ns_Region := "jp"; ns_ClientGroups := [];
                     ns_Roles := roles; ns_SupportedProtocols := [{| pc_Protocol := "hysteria2"; pc_Port := 443 |}];
                     ns_InboundProtocol := ""; ns_RelayPort := relay; ns_AllowedInbounds := [];
                     ns_AllowedOutbounds := allowedOut; ns_Tag := ""; ns_TLSSecretName := ""; ns_Resources := None |};
     node_status := emptyNodeStatus |}.

Definition mkUser (name group : string) : User :=
  {| user_meta := mkMeta name;
     user_spec := {| us_AuthSecret_Name := name; us_AuthSecret_Namespace := "proxy"; us_UserGroupRef := group |};
     user_status := {| ust_ActiveNodeCount := 0; ust_ActiveNodes := []; ust_Conditions := [];
                       ust_ObservedGeneration := 0 |} |}.

Definition mkExternal (name proto : string) (secret : option string) : ExternalOutbound :=
  {| eob_meta := mkMeta name;
     eob_spec := {| es_Protocol := proto; es_Server := "203.0.113.9"; es_Port := 8443; es_CredentialsSecretRef := secret;
                    es_TLS := None; es_Hysteria2 := None; es_Region := "us"; es_ClientGroups := [];
                    es_AllowedInbounds := [] |};
     eob_status := {| est_Conditions := []; est_ObservedGeneration := 0 |} |}.

Definition anySelector : EgressPolicySelector :=
  {| MatchLabels := ∅; MatchExpressions := []; MatchNames := [] |}.

Definition namesSelector (names : list string) : EgressPolicySelector :=
  {| MatchLabels := ∅; MatchExpressions := []; MatchNames := names |}.

Definition mkPolicy (name action : string) (priority : Z) (egress : list string) : EgressPolicy :=
  {| policy_meta := mkMeta name;
     policy_spec := {| ps_IngressSelector := anySelector; ps_EgressSelector := namesSelector egress;
                       ps_Match := {| pm_Domain := ["example.com"]; pm_DomainSuffix := []; pm_DomainRegex := [];
                                      pm_IPCIDR := []; pm_RuleSet := [] |};
                       ps_Action := action; ps_Priority := priority; ps_FallbackAction := "" |};
     policy_status := {| pst_ResolvedIngresses := []; pst_ResolvedEgress := ""; pst_Conditions := [];
                         pst_ObservedGeneration := 0 |} |}.

Definition sample_uuid : string := "9f1c0000-1111-4222-8333-444455556666".

(** Inbound node in1 with the relay out1, the external proxy ext1, the user alice (bob may not use out1) and a
    policy that sends example.com to out1. *)
Definition sample_out : SingBoxNode := mkNode "out1" [ProxyRoleOutbound] 10808 [].

Definition sample_input : Input :=
  {| Node := mkNode "in1" [ProxyRoleInbound] 0 [];
     Users := [mkUser "alice" ""; mkUser "bob" "g"];
     UserCreds := {["alice" := {| uc_UUID := sample_uuid |}; "bob" := {| uc_UUID := sample_uuid |}]};
     OutboundNodes := [sample_out];
     Routes := [];
     EgressPolicies := [Some (mkPolicy "p1" EgressPolicyActionRoute 10 ["out1"])];
     NodeCreds := {["out1" := {| nc_Username := "out1"; nc_Password := "s3cret" |}]};
     OutboundNodesByName := {["out1" := sample_out]};
     ExternalOutbounds := [Some (mkExternal "ext1" ExternalProtocolSocks5 None)];
     ExternalOutboundsByName := {["ext1" := mkExternal "ext1" ExternalProtocolSocks5 None]};
     ExternalCreds := ∅;
     UsageCollectionEnabled := true;
     V2RayAPIListenAddr := "";
     UserNodeRestrictions := {["bob" := {["out1" := true]}]};
     UserNodeAllowlist := ∅ |}.

(** A node with both roles whose allowedOutbounds does not list itself. *)
Definition sample_self_input : Input :=
  {| Node := mkNode "both" [ProxyRoleInbound; ProxyRoleOutbound] 10808 ["out1"];
     Users := [mkUser "alice" ""];
     UserCreds := {["alice" := {| uc_UUID := sample_uuid |}]};
     OutboundNodes := [sample_out]; Routes := []; EgressPolicies := [];
     NodeCreds := ∅; OutboundNodesByName := {["out1" := sample_out]};
     ExternalOutbounds := []; ExternalOutboundsByName := ∅; ExternalCreds := ∅;
     UsageCollectionEnabled := false; V2RayAPIListenAddr := "";
     UserNodeRestrictions := ∅; UserNodeAllowlist := ∅ |}.
