(* ===== verification/EngineProps.v ===== *)
(** * EngineProps: the guarantees of configengine.Compute

    The theorems about the computed sing-box configuration: referential
    integrity of its tags, which user identities it admits and where they exit,
    policy precedence, determinism, and the shape of derived credentials. *)

From S2P Require Import Prelude GoStrings Crypto Json Api Engine EngineFacts Samples.
From Stdlib Require Import Ascii.

(** ** Referential integrity *)

(** C4. No dangling route: in the configuration computed from an input that
    meets the controller's contract, for a node that may use itself when it has
    both roles, every route rule that names an outbound
    names one that the same configuration defines (sing-box refuses to start on
    a dangling outbound tag). *)
Theorem rules_outbounds_exist `{MapRange, LabelSelectors} input r :
  RoutableInput input → selfAllowed (Node input) →
  r ∈ Rules (Route (computeConfig input)) → rr_Outbound r ≠ "" →
  rr_Outbound r ∈ tags (Outbounds (computeConfig input)).
Proof.
  intros Hri Hself Hr Hout. apply outbounds_tags. right.
  destruct (elem_of_config_rules _ _ Hr) as [(p & Hp & Hpr)|[Hin Hrr]].
  - apply elem_of_policiesForNode in Hp as Hp'. split; [by apply ri_policies_inbound with p|].
    destruct (policyRules_outbound _ _ _ Hpr Hout) as (Hrej & Hne & Hav & ->).
    unfold inboundOutbounds. rewrite !tags_app, !elem_of_app. do 3 right. left.
    apply buildPolicyOutbounds_tag; [apply ri_external_names | done | | done..].
    by destruct (ri_policy_action _ Hp').
  - split; [done|]. apply elem_of_routeRules in Hrr as (name & Hname & Husers & ->). by apply target_tag.
Qed.

(** The sample input meets the contract. *)
Lemma sample_routable : RoutableInput sample_input.
Proof.
  split.
  - intros k n. unfold sample_input, OutboundNodesByName. by intros [<- <-]%lookup_singleton_Some.
  - intros k e. unfold sample_input, ExternalOutboundsByName. by intros [<- <-]%lookup_singleton_Some.
  - by intros n ->%list_elem_of_singleton.
  - done.
  - intros p [= ->]%list_elem_of_singleton. by left.
  - by intros n ->%list_elem_of_singleton.
  - by intros r n ?%elem_of_nil.
Qed.

Lemma rules_outbounds_exist_witness :
  let r := nth 0 (Rules (Route (computeConfig sample_input))) emptyRule in
  rr_Outbound r = "outbound-out1" ∧ rr_Outbound r ∈ tags (Outbounds (computeConfig sample_input)).
Proof.
  split; [by vm_compute|]. apply rules_outbounds_exist; [apply sample_routable | by vm_compute | vm_compute; left | by vm_compute].
Defined.

(** ** Shape of the outbound list *)
Lemma routeFinal_in outbounds : routeFinal outbounds = "direct" ∨ routeFinal outbounds ∈ tags outbounds.
Proof.
  induction outbounds as [|ob obs IH]; [by left|]. cbn [routeFinal]. rewrite tags_cons, elem_of_app.
  destruct (entryTag ob) as [t|]; simpl; [|naive_solver]. case_match; [|naive_solver].
  right. left. by apply list_elem_of_singleton.
Qed.

(** For every input, tags of the emitted outbounds are pairwise distinct,
    the [direct] fallback is among them, and [route.final] names one of them. *)
Theorem outbounds_well_formed `{MapRange, LabelSelectors} input :
  NoDup (tags (Outbounds (computeConfig input))) ∧
  "direct" ∈ tags (Outbounds (computeConfig input)) ∧
  Final (Route (computeConfig input)) ∈ tags (Outbounds (computeConfig input)).
Proof.
  assert ("direct" ∈ tags (Outbounds (computeConfig input))) as Hd by (apply outbounds_tags; by left).
  split_and!; [|done|]; revert Hd; unfold computeConfig; destruct (if hasRole (Node input) ProxyRoleInbound then _ else _) as [ibs rls]; simpl; intros Hd.
  - apply tags_dedup_NoDup.
  - destruct (0 <? length rls); [done|]. by edestruct routeFinal_in as [->|].
Qed.

(** ** A defect: the rule of a node that may not use itself *)

(** C33. A node with both roles whose allowedOutbounds excludes itself still
    gives every permitted user an identity for the node and a rule that sends it
    to outbound-<self>, although Compute emits that outbound only when the node
    may use itself: the rule dangles unless another object defines the tag. *)
Theorem self_rule_dangles `{MapRange, LabelSelectors} input u :
  let self := GetName (Node input) in
  isSelfOutbound input = true →
  listAllows (ns_AllowedOutbounds (node_spec (Node input))) self = false →
  ¬ outboundSource input self →
  u ∈ Users input → userAllowed input self (GetName u) = true →
  ∃ r, r ∈ Rules (Route (computeConfig input)) ∧ virtualUserName (GetName u) self ∈ rr_AuthUser r ∧
       rr_Outbound r = outboundTag self ∧ rr_Outbound r ∉ tags (Outbounds (computeConfig input)).
Proof.
  intros self Hs Hno Hsrc Hu Hal.
  assert (virtualUserName (GetName u) self ∈ policyAuthUsers input self) as Hv by (apply elem_of_policyAuthUsers; eauto).
  destruct (target_rule_emitted input self) as (r & Hr & Hau & Hout & _).
  - unfold isSelfOutbound in Hs. by bool_prop.
  - apply elem_of_routeOutboundNames. right; right; left. done.
  - by intros Hnil; rewrite Hnil in Hv; apply elem_of_nil in Hv.
  - exists r. rewrite Hau, Hout. split_and!; [done..|]. intros [[=]|(n & [= <-] & Hn)]%outbounds_source. done.
Qed.

Lemma self_rule_dangles_witness :
  ∃ r, r ∈ Rules (Route (computeConfig sample_self_input)) ∧ "alice#both" ∈ rr_AuthUser r ∧
       rr_Outbound r = "outbound-both" ∧ rr_Outbound r ∉ tags (Outbounds (computeConfig sample_self_input)).
Proof.
  apply (self_rule_dangles sample_self_input (mkUser "alice" "")).
  - done.
  - done.
  - intros [(n & Hn & Hnm)|[(k & n & Hn & Hnm)|[(e & He & _)|[(k & e & He & _)|(_ & Ha & _)]]]]; try done.
    + by apply list_elem_of_singleton in Hn as ->.
    + revert Hn. unfold sample_self_input, OutboundNodesByName. intros [<- <-]%lookup_singleton_Some. naive_solver.
    + by apply elem_of_nil in He.
  - by apply list_elem_of_singleton.
  - done.
Defined.

(** ** Identities: who may exit where *)

(** Kubernetes object names contain no hash sign, the separator of virtualUserName. *)
Class PlainUsers (input : Input) : Prop :=
  plain_users : ∀ u, u ∈ Users input → has_char "#"%char (GetName u) = false.

Lemma policyRules_auth `{MapRange, LabelSelectors} input p r v :
  r ∈ policyRules input p → v ∈ rr_AuthUser r →
  rr_AuthUser r = policyAuthUsers input (policyEgressName input p) ∧ rr_Action r = EgressPolicyActionReject ∧ rr_Outbound r = "".
Proof.
  unfold policyRules. intros Hr Hv. repeat case_match;
    repeat match goal with H : _ ∈ _ :: _ |- _ => apply elem_of_cons in H as [->|H] | H : _ ∈ [] |- _ => by apply elem_of_nil in H end;
    try (by apply elem_of_nil in Hv); done.
Qed.

(** C12. Identity soundness: a rule that mentions the identity user#target
    exists only for a listed user whose group permits the target, and the rule
    either sends the identity to exactly that target or rejects it. *)
Theorem auth_user_exit `{MapRange, LabelSelectors} input r uname t :
  PlainUsers input → has_char "#"%char uname = false →
  r ∈ Rules (Route (computeConfig input)) → virtualUserName uname t ∈ rr_AuthUser r →
  (∃ u, u ∈ Users input ∧ GetName u = uname) ∧ userAllowed input t uname = true ∧
  (rr_Outbound r = outboundTag t ∧ rr_Action r = "" ∨ rr_Outbound r = "" ∧ rr_Action r = EgressPolicyActionReject).
Proof.
  intros Hplain Hname Hr Hv.
  assert (∃ name, rr_AuthUser r = policyAuthUsers input name ∧
            (rr_Outbound r = outboundTag name ∧ rr_Action r = "" ∨
             rr_Outbound r = "" ∧ rr_Action r = EgressPolicyActionReject)) as (name & Hau & Hout).
  { apply elem_of_config_rules in Hr as [(p & _ & Hr)|[_ (name & _ & _ & ->)%elem_of_routeRules]].
    - destruct (policyRules_auth _ _ _ _ Hr Hv) as (? & ? & ?). eauto 10.
    - exists name. simpl. auto. }
  rewrite Hau in Hv. apply elem_of_policyAuthUsers in Hv as (u & Hu & Hal & Heq).
  apply virtualUserName_inj in Heq as [-> ->]; [|done|by apply plain_users]. naive_solver.
Qed.

#[local] Instance sample_plain : PlainUsers sample_input.
Proof. intros u Hu. by list_cases Hu. Qed.

Lemma auth_user_exit_witness :
  let r := nth 1 (Rules (Route (computeConfig sample_input))) emptyRule in
  (∃ u, u ∈ Users sample_input ∧ GetName u = "alice") ∧ userAllowed sample_input "out1" "alice" = true ∧
  (rr_Outbound r = "outbound-out1" ∧ rr_Action r = "" ∨ rr_Outbound r = "" ∧ rr_Action r = EgressPolicyActionReject).
Proof.
  apply (auth_user_exit sample_input _ "alice" "out1"); [apply _ | done | vm_compute; right; left | vm_compute; left].
Defined.

(** The users[] of an inbound entry. *)
Definition inboundUsers (ib : json) : list json :=
  default [] (o ← as_obj ib; v ← obj_get "users" o; as_arr v).

Lemma inboundUsers_entry proto tag port users : inboundUsers (buildInboundEntry proto tag port users) = users.
Proof. unfold inboundUsers, buildInboundEntry. by case_match. Qed.

Lemma elem_of_routeUsers input proto names j :
  j ∈ routeUsers input proto names ↔
  ∃ u t, u ∈ Users input ∧ t ∈ names ∧ userAllowed input t (GetName u) = true ∧
         j = userEntry input proto t (virtualUserName (GetName u) t) u.
Proof.
  unfold routeUsers. rewrite list_elem_of_bind. setoid_rewrite list_elem_of_fmap.
  setoid_rewrite list_elem_of_filter. naive_solver.
Qed.

(** The users of the relay listener. *)
Lemma relayInbound_users input :
  let cred := map_index zeroNodeCredential (NodeCreds input) (GetName (Node input)) in
  inboundUsers (buildRelayInbound input) = [JObj (obj_of [("username", JStr (nc_Username cred)); ("password", JStr (nc_Password cred))])].
Proof. done. Qed.

(** C14. Credential soundness: every entry of the users[] of an emitted
    listener is the node's own relay credential, the only entry of the socks
    listener that a node with the outbound role has, or a listed user's entry for
    this node when no exit target produced any identity, or the entry of a
    listed user for an exit target that the user's group permits, keyed by the
    credential derived for exactly that target. *)
Theorem inbound_users_sound `{MapRange, LabelSelectors} input ib j :
  let proto := EffectiveInboundProtocol (Node input) in
  let cred := map_index zeroNodeCredential (NodeCreds input) (GetName (Node input)) in
  ib ∈ Inbounds (computeConfig input) → j ∈ inboundUsers ib →
  (hasRole (Node input) ProxyRoleOutbound = true ∧ entryTag ib = Some "relay-socks5" ∧ inboundUsers ib = [j] ∧
   j = JObj (obj_of [("username", JStr (nc_Username cred)); ("password", JStr (nc_Password cred))])) ∨
  (∃ u, u ∈ Users input ∧ j = userEntry input proto (GetName (Node input)) (GetName u) u ∧
        routeUsers input proto (computeTargets input) = []) ∨
  (∃ u t, u ∈ Users input ∧ t ∈ computeTargets input ∧ userAllowed input t (GetName u) = true ∧
          j = userEntry input proto t (virtualUserName (GetName u) t) u).
Proof.
  intros proto cred Hib Hj. revert Hib. unfold computeConfig.
  assert (ib = buildRelayInbound input → entryTag ib = Some "relay-socks5" ∧ inboundUsers ib = [j] ∧
    j = JObj (obj_of [("username", JStr (nc_Username cred)); ("password", JStr (nc_Password cred))])) as Hrelay.
  { intros ->. rewrite relayInbound_users in *. apply list_elem_of_singleton in Hj as ->. done. }
  assert (∀ rules, ib ∈ (inboundPart input rules).1 →
    (∃ u, u ∈ Users input ∧ j = userEntry input proto (GetName (Node input)) (GetName u) u ∧
          routeUsers input proto (computeTargets input) = []) ∨
    (∃ u t, u ∈ Users input ∧ t ∈ computeTargets input ∧ userAllowed input t (GetName u) = true ∧
            j = userEntry input proto t (virtualUserName (GetName u) t) u)) as Hpart.
  { intros rules (users & -> & Hor)%elem_of_inboundPart. rewrite inboundUsers_entry in Hj.
    destruct Hor as [->|[Hnil ->]]; [right; by apply elem_of_routeUsers|left].
    apply list_elem_of_fmap in Hj as (u & -> & Hu). eauto. }
  destruct (hasRole (Node input) ProxyRoleInbound) eqn:Hin.
  - specialize (Hpart (buildPolicyRules input (policiesForNode input))). destruct (inboundPart _ _) as [ibs rls]. simpl in *.
    case_match; [|by auto]. rewrite elem_of_app, list_elem_of_singleton. naive_solver.
  - simpl. case_match; [|by intros ?%elem_of_nil]. rewrite list_elem_of_singleton. auto.
Qed.

Lemma inbound_users_sound_witness :
  let ib := nth 0 (Inbounds (computeConfig sample_input)) JNull in
  let j := nth 2 (inboundUsers ib) JNull in
  j = userEntry sample_input "hysteria2" "ext1" "bob#ext1" (mkUser "bob" "g") ∧
  let cred := map_index zeroNodeCredential (NodeCreds sample_input) "in1" in
  ((hasRole (Node sample_input) ProxyRoleOutbound = true ∧ entryTag ib = Some "relay-socks5" ∧ inboundUsers ib = [j] ∧
    j = JObj (obj_of [("username", JStr (nc_Username cred)); ("password", JStr (nc_Password cred))])) ∨
   (∃ u, u ∈ Users sample_input ∧ j = userEntry sample_input "hysteria2" "in1" (GetName u) u ∧
         routeUsers sample_input "hysteria2" (computeTargets sample_input) = []) ∨
   (∃ u t, u ∈ Users sample_input ∧ t ∈ computeTargets sample_input ∧ userAllowed sample_input t (GetName u) = true ∧
           j = userEntry sample_input "hysteria2" t (virtualUserName (GetName u) t) u)).
Proof.
  split; [by vm_compute|]. apply (inbound_users_sound sample_input); vm_compute; [left|do 2 right; left].
Defined.

(** What Compute emits for an exit target that a listed user may use. *)
Lemma target_served `{MapRange, LabelSelectors} input u t :
  let proto := EffectiveInboundProtocol (Node input) in
  let users := routeUsers input proto (computeTargets input) in
  RoutableInput input → selfAllowed (Node input) → hasRole (Node input) ProxyRoleInbound = true →
  findProtocolPort (Node input) proto ≠ 0%Z →
  u ∈ Users input → t ∈ computeTargets input → userAllowed input t (GetName u) = true →
  buildInboundEntry proto ("inbound-" +:+ proto) (findProtocolPort (Node input) proto) users ∈ Inbounds (computeConfig input) ∧
  userEntry input proto t (virtualUserName (GetName u) t) u ∈ users ∧
  (∃ r, r ∈ Rules (Route (computeConfig input)) ∧ virtualUserName (GetName u) t ∈ rr_AuthUser r ∧
        rr_Outbound r = outboundTag t ∧ rr_Action r = "") ∧
  outboundTag t ∈ tags (Outbounds (computeConfig input)).
Proof.
  intros proto users Hri Hself Hin Hport Hu Ht Hal.
  assert (virtualUserName (GetName u) t ∈ policyAuthUsers input t) as Hv by (apply elem_of_policyAuthUsers; eauto).
  assert (policyAuthUsers input t ≠ []) as Hne by (by intros Hnil; rewrite Hnil in Hv; apply elem_of_nil in Hv).
  assert (userEntry input proto t (virtualUserName (GetName u) t) u ∈ users) as Hj
    by (apply elem_of_routeUsers; eauto 10).
  split_and!.
  - unfold computeConfig.
    rewrite Hin, (computeTargets_inbound _ _ t Ht). pose proof (buildRouteInbounds_inbounds input) as Hb.
    destruct (buildRouteInbounds _ _ _) as [ibs rls]. simpl in Hb. rewrite bool_decide_eq_true_2 in Hb by done.
    fold proto users in Hb. destruct users as [|x xs]; [by apply elem_of_nil in Hj|].
    simpl in Hb. rewrite Hb. rewrite (bool_decide_eq_false_2 (length [_] = 0)), andb_false_r by done. simpl.
    case_match; rewrite ?elem_of_app; [left|]; by apply list_elem_of_singleton.
  - done.
  - destruct (target_rule_emitted input t) as (r & ? & Hau & ? & ?); [done..|]. exists r. by rewrite Hau.
  - apply outbounds_tags. right. split; [done|]. by apply target_tag.
Qed.

(** C15. Completeness: from an input that meets the controller's contract, on an
    inbound node that listens and, when it also has the outbound role, may use
    itself, a listed user whose group permits an exit target has an entry for it in users[], with the
    identity user#target, and a rule that sends this identity to the target's
    outbound, which the configuration defines. *)
Theorem allowed_user_served `{MapRange, LabelSelectors} input u t :
  let proto := EffectiveInboundProtocol (Node input) in
  RoutableInput input → selfAllowed (Node input) → hasRole (Node input) ProxyRoleInbound = true →
  findProtocolPort (Node input) proto ≠ 0%Z →
  u ∈ Users input → t ∈ computeTargets input → userAllowed input t (GetName u) = true →
  (∃ ib, ib ∈ Inbounds (computeConfig input) ∧
         userEntry input proto t (virtualUserName (GetName u) t) u ∈ inboundUsers ib) ∧
  (∃ r, r ∈ Rules (Route (computeConfig input)) ∧ virtualUserName (GetName u) t ∈ rr_AuthUser r ∧
        rr_Outbound r = outboundTag t ∧ rr_Action r = "") ∧
  outboundTag t ∈ tags (Outbounds (computeConfig input)).
Proof.
  intros proto ???????. destruct (target_served input u t) as (Hl & Hj & Hrest); [done..|].
  split; [|done]. eexists. split; [exact Hl|]. by rewrite inboundUsers_entry.
Qed.

Lemma allowed_user_served_witness :
  (∃ ib, ib ∈ Inbounds (computeConfig sample_input) ∧
         userEntry sample_input "hysteria2" "out1" "alice#out1" (mkUser "alice" "") ∈ inboundUsers ib) ∧
  (∃ r, r ∈ Rules (Route (computeConfig sample_input)) ∧ "alice#out1" ∈ rr_AuthUser r ∧
        rr_Outbound r = "outbound-out1" ∧ rr_Action r = "") ∧
  "outbound-out1" ∈ tags (Outbounds (computeConfig sample_input)).
Proof.
  apply (allowed_user_served sample_input (mkUser "alice" "") "out1"); [apply sample_routable | by vm_compute | done | done | left | |done].
  vm_compute. left.
Defined.

(** ** Egress policies *)

Lemma config_rules_split `{MapRange, LabelSelectors} input :
  ∃ tail, Rules (Route (computeConfig input)) = (policiesForNode input ≫= policyRules input) ++ tail ∧
    Forall (λ r, rr_AuthUser r ≠ [] ∧ rr_Inbound r = [] ∧ rr_Outbound r ≠ "") tail.
Proof.
  assert (∀ names, Forall (λ r, rr_AuthUser r ≠ [] ∧ rr_Inbound r = [] ∧ rr_Outbound r ≠ "") (routeRules input names)) as Hr.
  { intros names. apply Forall_forall. intros r (name & _ & ? & ->)%elem_of_routeRules. done. }
  unfold computeConfig, inboundPart, buildRouteInbounds, buildPolicyRules.
  repeat case_match; simplify_eq/=; first [by eexists | exists []; by rewrite app_nil_r].
Qed.

(** Policy precedence: the rules of the configuration are those of the
    attached policies, in ascending (priority, name) order with every policy
    exactly once and ties in their listing order, followed only by per-identity
    rules; so no generic identity rule shadows a policy's destination match. *)
Theorem policy_rules_first `{MapRange, LabelSelectors} input :
  (∃ tail, Rules (Route (computeConfig input)) = (policiesForNode input ≫= policyRules input) ++ tail ∧
     Forall (λ r, rr_AuthUser r ≠ [] ∧ rr_Inbound r = [] ∧ rr_Outbound r ≠ "") tail) ∧
  policiesForNode input ≡ₚ omap id (EgressPolicies input) ∧
  StronglySorted (λ p q, policy_less q p = false) (policiesForNode input) ∧
  (∀ p, filter (λ q, tied policy_less p q = true) (policiesForNode input)
        = filter (λ q, tied policy_less p q = true) (omap id (EgressPolicies input))).
Proof.
  split_and!; [apply config_rules_split | apply sort_by_perm | apply sort_by_sorted, _ | intros; apply sort_by_stable, _].
Qed.

(** C34. A route policy's rule carries no auth_user condition: when its egress is
    available, matching traffic of every identity of the listener is sent there,
    also that of a user whose group denies the egress, and the rule precedes all
    per-identity rules. *)
Theorem policy_rule_ignores_groups `{MapRange, LabelSelectors} input p u :
  Some p ∈ EgressPolicies input → ps_Action (policy_spec p) = EgressPolicyActionRoute →
  let t := policyEgressName input p in
  t ≠ "" → policyEgressAvailable input t = true →
  u ∈ Users input → userAllowed input t (GetName u) = false →
  ∃ before r after, Rules (Route (computeConfig input)) = before ++ r :: after ∧
    rr_AuthUser r = [] ∧ rr_Inbound r = [inboundTag input] ∧ rr_Domain r = pm_Domain (ps_Match (policy_spec p)) ∧
    rr_Outbound r = outboundTag t ∧
    Forall (λ r', rr_AuthUser r' ≠ [] → rr_Action r' = EgressPolicyActionReject) before.
Proof.
  intros Hp Ha t Ht Hav Hu Hden.
  assert (∃ r rest, policyRules input p = r :: rest ∧ rr_AuthUser r = [] ∧ rr_Inbound r = [inboundTag input] ∧
            rr_Domain r = pm_Domain (ps_Match (policy_spec p)) ∧ rr_Outbound r = outboundTag t) as (r & rest & Hpr & Hr).
  { unfold policyRules. fold t. rewrite Ha, Hav, (bool_decide_eq_false_2 (t = "")) by done. simpl. by eauto 10. }
  destruct (config_rules_split input) as (tail & Htail & _).
  apply elem_of_policiesForNode, list_elem_of_split in Hp as (ps1 & ps2 & Hps).
  exists (ps1 ≫= policyRules input), r, (rest ++ (ps2 ≫= policyRules input) ++ tail).
  rewrite Htail, Hps, bind_app. cbn [mbind list_bind]. rewrite Hpr, <-!app_assoc. simpl.
  destruct Hr as (? & ? & ? & ?). split_and!; [done..|].
  apply Forall_forall. intros r' Hr' Hne. apply list_elem_of_bind in Hr' as (q & Hq & _).
  destruct (rr_AuthUser r') as [|v vs] eqn:Hv; [done|].
  apply (policyRules_auth input q r' v); [done|]. rewrite Hv. left.
Qed.

Lemma policy_rule_ignores_groups_witness :
  let p := mkPolicy "p1" EgressPolicyActionRoute 10 ["out1"] in
  policyEgressName sample_input p = "out1" ∧ userAllowed sample_input "out1" "bob" = false ∧
  ∃ before r after, Rules (Route (computeConfig sample_input)) = before ++ r :: after ∧
    rr_AuthUser r = [] ∧ rr_Inbound r = [inboundTag sample_input] ∧ rr_Domain r = ["example.com"] ∧
    rr_Outbound r = outboundTag (policyEgressName sample_input p) ∧
    Forall (λ r', rr_AuthUser r' ≠ [] → rr_Action r' = EgressPolicyActionReject) before.
Proof.
  split; [by vm_compute|]. split; [done|].
  apply (policy_rule_ignores_groups sample_input (mkPolicy "p1" EgressPolicyActionRoute 10 ["out1"]) (mkUser "bob" "g"));
    [left | done | by vm_compute | by vm_compute | right; left | by vm_compute].
Defined.

(** ** Determinism *)
Lemma resolvePolicyEgressName_range (R1 R2 : MapRange) `{LabelSelectors} input p :
  @resolvePolicyEgressName R1 _ input p = @resolvePolicyEgressName R2 _ input p.
Proof.
  unfold resolvePolicyEgressName.
  erewrite sort_strings_ext; [done|]. f_equiv; apply fmap_Permutation, filter_Permutation, range_values_perm.
Qed.

Lemma buildExperimentalConfig_range (R1 R2 : MapRange) input :
  @buildExperimentalConfig R1 input = @buildExperimentalConfig R2 input.
Proof.
  unfold buildExperimentalConfig. erewrite sort_strings_ext; [done|].
  by rewrite (@range_perm R1), (@range_perm R2).
Qed.

Section range_ext.
Context (R1 R2 : MapRange) `{LabelSelectors} (input : Input).

Lemma policyEgressName_range p : @policyEgressName R1 _ input p = @policyEgressName R2 _ input p.
Proof. unfold policyEgressName. by rewrite (resolvePolicyEgressName_range R1 R2). Qed.

Lemma policyRules_range p : @policyRules R1 _ input p = @policyRules R2 _ input p.
Proof. unfold policyRules. by rewrite policyEgressName_range. Qed.

Lemma buildPolicyOutbounds_range l : @buildPolicyOutbounds R1 _ input l = @buildPolicyOutbounds R2 _ input l.
Proof.
  assert (∀ st p, @pushPolicyOutbound R1 _ input st p = @pushPolicyOutbound R2 _ input st p) as Hpush.
  { intros st p. unfold pushPolicyOutbound. by rewrite policyEgressName_range. }
  unfold buildPolicyOutbounds. generalize (∅ : gset string, [] : list json).
  induction l as [|p l IH]; intros st; cbn [foldl]; [done|]. by rewrite Hpush, IH.
Qed.

Lemma routeOutboundNames_range routes self :
  @routeOutboundNames R1 _ input routes self = @routeOutboundNames R2 _ input routes self.
Proof.
  unfold routeOutboundNames.
  assert (∀ st l, foldl (@pushPolicyEgress R1 _ input) st l = foldl (@pushPolicyEgress R2 _ input) st l) as ->; [|done].
  intros st l. revert st. induction l as [|[p|] l IH]; intros st; simpl; [done| |done].
  by rewrite policyEgressName_range, IH.
Qed.
End range_ext.

(** C23. Determinism: the configuration bytes and their hash do not depend on
    the order in which Go iterates over maps, so reconciling an unchanged
    cluster never changes the hash that triggers a pod rollout. *)
Theorem Compute_deterministic (R1 R2 : MapRange) `{LabelSelectors} input :
  @Compute R1 _ input = @Compute R2 _ input.
Proof.
  assert (@computeConfig R1 _ input = @computeConfig R2 _ input) as Heq; [|by unfold Compute; rewrite Heq].
  unfold computeConfig, inboundPart, buildRouteInbounds, inboundOutbounds.
  assert (∀ l, @buildPolicyRules R1 _ input l = @buildPolicyRules R2 _ input l) as ->.
  { unfold buildPolicyRules. induction l as [|p l IH]; cbn; [done|]. by rewrite (policyRules_range R1 R2), IH. }
  by rewrite (buildExperimentalConfig_range R1 R2), (buildPolicyOutbounds_range R1 R2), (routeOutboundNames_range R1 R2).
Qed.

(** ** Traffic statistics *)
Definition statsUsers (c : singboxConfig) : list string :=
  match Experimental c with
  | Some e => match V2RayAPI e with Some a => st_Users (api_Stats a) | None => [] end
  | None => []
  end.

Lemma elem_of_statsOutboundNames input name :
  name ∈ statsOutboundNames input ↔
  peerTarget input (routesForNode input) name ∨ (isSelfOutbound input = true ∧ name = GetName (Node input)) ∨
  (∃ e, e ∈ resolveExternalOutbounds input (routesForNode input) ∧ GetName e = name).
Proof.
  unfold statsOutboundNames. fold (isSelfOutbound input).
  pose proof (peerNames_ok input (routesForNode input)) as Hok.
  rewrite foldl_push_new_elem by (case_match; auto with go). rewrite list_elem_of_fmap.
  destruct (isSelfOutbound input); [rewrite push_new_elem by done|]; rewrite elem_of_peerNames; naive_solver.
Qed.

Lemma elem_of_foldl_insert_keys `{MapRange} (l : list string) v :
  v ∈ (range (foldl (λ m v, <[v := true]> m) (∅ : gmap string bool) l)).*1 ↔ v ∈ l.
Proof.
  assert (∀ m : gmap string bool, is_Some (foldl (λ m v, <[v := true]> m) m l !! v) ↔ is_Some (m !! v) ∨ v ∈ l) as Hg.
  { induction l as [|x l IH]; intros m; simpl; [set_solver|]. rewrite IH, lookup_insert_is_Some'. set_solver. }
  rewrite list_elem_of_fmap. specialize (Hg ∅). rewrite lookup_empty in Hg. split.
  - intros ([k b] & -> & Hk%elem_of_range). simpl. destruct Hg as [Hg _]. destruct Hg as [[? [=]]|?]; eauto.
  - intros Hv. destruct Hg as [_ Hg]. destruct Hg as [b Hb]; [by right|]. exists (v, b). by rewrite elem_of_range.
Qed.

(** The names of an exit target that only a policy can add are also counted:
    what collectInput promises about policies. *)
Class PolicyTargetsConnected `{MapRange, LabelSelectors} (input : Input) : Prop :=
  policy_target_connected : ∀ name, policyTarget input name →
    peerTarget input (routesForNode input) name ∨ (isSelfOutbound input = true ∧ name = GetName (Node input)) ∨
    (∃ e, e ∈ resolveExternalOutbounds input (routesForNode input) ∧ GetName e = name).

(** Accounting: with usage collection on, the identities reported by the
    stats API are listed in sorted order without repetition, and every identity
    that the configuration admits is among them. *)
Theorem stats_cover_identities `{MapRange, LabelSelectors} input :
  PolicyTargetsConnected input → UsageCollectionEnabled input = true →
  let l := statsUsers (computeConfig input) in
  StronglySorted String.le l ∧ NoDup l ∧
  (∀ u t, u ∈ Users input → t ∈ computeTargets input → virtualUserName (GetName u) t ∈ l).
Proof.
  intros Hconn Hen l. unfold l, statsUsers, computeConfig.
  destruct (if hasRole (Node input) ProxyRoleInbound then _ else _). simpl. rewrite Hen. simpl. split_and!.
  - apply sort_strings_sorted.
  - unfold sort_strings. rewrite sort_by_perm, range_perm. apply NoDup_fst_map_to_list.
  - intros u t Hu Ht. apply elem_of_sort_strings, elem_of_foldl_insert_keys, list_elem_of_bind.
    exists t. rewrite list_elem_of_fmap, elem_of_statsOutboundNames. split; [eauto|].
    apply elem_of_routeOutboundNames in Ht as [?|[?|?]]; auto.
Qed.

Lemma stats_cover_identities_witness :
  let l := statsUsers (computeConfig sample_input) in
  StronglySorted String.le l ∧ NoDup l ∧
  (∀ u t, u ∈ Users sample_input → t ∈ computeTargets sample_input → virtualUserName (GetName u) t ∈ l).
Proof.
  apply stats_cover_identities; [|done].
  intros name (p & Hp & _ & <- & _). left. list_cases Hp. injection Hp as <-. left. exists sample_out.
  split; [left|]. by vm_compute.
Defined.

(** ** Derived credentials *)

(** A version-5, RFC 4122-variant UUID in lower-case text form. *)
Definition is_uuid_v5 (s : string) : Prop :=
  String.length s = 36%nat ∧
  (∀ i c, String.get i s = Some c → if slices_Contains [8; 13; 18; 23] i then c = "-"%char else is_hex c = true) ∧
  String.get 14 s = Some "5"%char ∧
  (∃ c, String.get 19 s = Some c ∧ c ∈ String.list_ascii_of_string "89ab").

Lemma version_nibble b : is_byte b → hex_digit (Z.lor (Z.land b 0x0f) 0x50 / 16) = "5"%char.
Proof.
  intros Hb. assert (Forall (λ b, hex_digit (Z.lor (Z.land b 0x0f) 0x50 / 16) = "5"%char) (Z.of_nat <$> seq 0 256)) as HF.
  { by vm_compute; repeat constructor. }
  rewrite Forall_forall in HF. apply HF, list_elem_of_fmap. exists (Z.to_nat b).
  unfold is_byte in Hb. rewrite elem_of_seq. lia.
Qed.

Lemma variant_nibble b :
  is_byte b → hex_digit (Z.lor (Z.land b 0x3f) 0x80 / 16) ∈ String.list_ascii_of_string "89ab".
Proof.
  intros Hb. assert (Forall (λ b, hex_digit (Z.lor (Z.land b 0x3f) 0x80 / 16) ∈ String.list_ascii_of_string "89ab") (Z.of_nat <$> seq 0 256)) as HF.
  { apply (bool_decide_eq_true_1 (Forall _ _)). by vm_compute. }
  rewrite Forall_forall in HF. apply HF, list_elem_of_fmap. exists (Z.to_nat b).
  unfold is_byte in Hb. rewrite elem_of_seq. lia.
Qed.

(** C32. Whatever the base UUID and the suffix (also when the base does not
    parse), DeriveUUID returns a well-formed version-5 UUID. *)
Theorem DeriveUUID_v5 base suffix : is_uuid_v5 (DeriveUUID base suffix).
Proof.
  unfold DeriveUUID. match goal with |- context [sha1_Sum ?m] => generalize m; intros msg end.
  pose proof (sha1_Sum_length msg) as Hlen. pose proof (sha1_Sum_range msg) as Hr.
  remember (sha1_Sum msg) as h eqn:Hh; clear Hh.
  do 20 (destruct h as [|? h]; [done|]). destruct h; [|done].
  repeat match goal with H : Forall _ (_ :: _) |- _ => apply Forall_cons in H as [? H] end.
  cbn [nth insert list_insert]. unfold uuid_format. cbn [take drop]. rewrite !hex_encode_cons. cbn [hex_encode].
  rewrite version_nibble by done. split_and!; [done| |done|eexists; split; [done|by apply variant_nibble]].
  intros i c. do 36 (destruct i as [|i]; [intros [= <-]; try apply hex_digit_hex; done|]). done.
Qed.

(** DerivePassword always yields 32 lower-case hex digits, and the
    configuration hash 16. *)
Theorem derived_text_shape base suffix config :
  (all_hex (DerivePassword base suffix) = true ∧ String.length (DerivePassword base suffix) = 32%nat) ∧
  (all_hex (ComputeHash config) = true ∧ String.length (ComputeHash config) = 16%nat).
Proof.
  split.
  - unfold DerivePassword. pose proof (sha256_Sum256_length (bytes_of_string (base +:+ "#" +:+ suffix))) as Hl.
    remember (sha256_Sum256 _) as h eqn:Hh; clear Hh. pose proof (hex_encode_hex (take 16 h)) as [H1 H2].
    assert (String.substring 0 32 (hex_encode h) = hex_encode (take 16 h)) as ->.
    { do 16 (destruct h as [|? h]; [done|]). cbn [take]. rewrite !hex_encode_cons. cbn. by destruct (hex_encode h). }
    rewrite H1, H2, length_take, Hl. done.
  - unfold ComputeHash. destruct (hex_encode_hex (take 8 (sha256_Sum256 (bytes_of_string config)))) as [-> ->].
    by rewrite length_take, sha256_Sum256_length.
Qed.
