(* ===== verification/EngineJson.v ===== *)
(** * EngineJson: the bytes of the computed configuration

    Every value that configengine builds is free of floats and nests a bounded
    number of containers, so the bytes it publishes are a JSON document, and
    parsing them gives back exactly the configuration value: no name, credential
    or rule text can break out of its string.  Since the bytes determine the
    rules, the order of the rules shows in them; the rules per user follow the
    order in which the policies were listed. *)

From S2P Require Import Prelude GoStrings Crypto Json JsonParse JsonFacts JsonRoundtrip Api Engine EngineFacts Samples.

(** Descends through the conditionals of an entry builder. *)
Ltac plain_auto := repeat (case_match; auto 25 with plain); auto 25 with plain.

Lemma plain_jstrs d l : plain (S d) (jstrs l).
Proof. apply plain_arr, Forall_fmap. induction l; constructor; [by apply plain_scalar|done]. Qed.

Lemma plain_members_app d o1 o2 : plain_members d o1 → plain_members d o2 → plain_members d (o1 ++ o2).
Proof. apply Forall_app_2. Qed.

#[export] Hint Resolve plain_jstrs plain_members_app : plain.

Lemma plain_omit_strs d k l : plain_members (S d) (omit_strs k l).
Proof. unfold omit_strs. plain_auto. Qed.

Lemma plain_omit_str d k s : plain_members d (omit_str k s).
Proof. unfold omit_str. plain_auto. Qed.

#[export] Hint Resolve plain_omit_strs plain_omit_str : plain.

Lemma plain_routeRule r : plain 2 (routeRule_json r).
Proof. unfold routeRule_json. auto 25 with plain. Qed.

Lemma plain_DeriveAuth d p u n : plain_members d (DeriveAuth p u n).
Proof. unfold DeriveAuth. plain_auto. Qed.

Lemma plain_userEntry input proto name ident user : plain 1 (userEntry input proto name ident user).
Proof. unfold userEntry. pose proof plain_DeriveAuth. plain_auto. Qed.

Lemma plain_buildInboundEntry p tag port users : Forall (plain 1) users → plain 3 (buildInboundEntry p tag port users).
Proof. unfold buildInboundEntry. intros. plain_auto. Qed.

Lemma plain_externalTLSEntry d tls : plain_members d (externalTLSEntry tls).
Proof. unfold externalTLSEntry. plain_auto. Qed.

Lemma plain_set_cred d creds k entry : plain_members d entry → plain_members d (set_cred creds k entry).
Proof. unfold set_cred. intros. plain_auto. Qed.

Lemma plain_hysteria2Entry h creds entry : plain_members 1 entry → plain_members 1 (hysteria2Entry h creds entry).
Proof. unfold hysteria2Entry. intros. plain_auto. Qed.

#[export] Hint Resolve plain_routeRule plain_userEntry plain_buildInboundEntry plain_externalTLSEntry plain_set_cred plain_hysteria2Entry : plain.

Lemma plain_externalEntry eob creds : plain 2 (buildExternalOutboundEntry eob creds).
Proof. unfold buildExternalOutboundEntry. apply plain_obj. plain_auto. Qed.

Lemma plain_relayOutbound d input n name : plain (S d) (relayOutbound input n name).
Proof. unfold relayOutbound. auto 25 with plain. Qed.

Lemma plain_relayInbound input : plain 3 (buildRelayInbound input).
Proof. unfold buildRelayInbound. auto 25 using Forall_cons, Forall_nil with plain. Qed.

#[export] Hint Resolve plain_externalEntry plain_relayOutbound plain_relayInbound : plain.

(** ** The sections of the configuration *)
Lemma Forall_omap {A B} (P : B → Prop) (f : A → option B) l : (∀ x y, f x = Some y → P y) → Forall P (omap f l).
Proof. intros Hf. apply Forall_forall. intros y (x & _ & Hx)%list_elem_of_omap. eauto. Qed.

Lemma plain_deduplicate d l : Forall (plain d) l → Forall (plain d) (deduplicateByTag l).
Proof.
  intros Hl. unfold deduplicateByTag. apply (foldl_inv (λ st, Forall (plain d) st.2)); [constructor|].
  intros st ob Hob Hst. assert (plain d ob) by (by eapply Forall_forall in Hl).
  repeat case_match; simpl; try done; apply Forall_app_2; auto.
Qed.

Section sections.
Context `{MapRange, LabelSelectors}.

Lemma plain_policyOutbounds input ps : Forall (plain 2) (buildPolicyOutbounds input ps).
Proof.
  unfold buildPolicyOutbounds. apply (foldl_inv (λ st, Forall (plain 2) st.2)); [constructor|].
  intros st p _ Hst. unfold pushPolicyOutbound, buildPolicyOutbound.
  repeat case_match; simpl; try done; apply Forall_app_2; auto using Forall_cons_2, Forall_nil_2 with plain.
Qed.

Lemma plain_inboundOutbounds input : Forall (plain 2) (inboundOutbounds input).
Proof.
  unfold inboundOutbounds. rewrite !Forall_app. split_and!.
  - apply Forall_omap. intros n ob. repeat case_match; intros; simplify_eq. auto with plain.
  - apply Forall_omap. intros n ob. repeat case_match; intros; simplify_eq. auto with plain.
  - apply Forall_fmap, Forall_true. intros eob. apply plain_externalEntry.
  - apply plain_policyOutbounds.
  - unfold selfOutbounds. case_match; auto 20 using Forall_cons_2, Forall_nil_2 with plain.
Qed.

Lemma plain_routeInbounds input routes self : Forall (plain 3) (buildRouteInbounds input routes self).1.
Proof.
  unfold buildRouteInbounds. simpl. repeat case_match; auto using Forall_nil_2. apply Forall_singleton, plain_buildInboundEntry.
  apply Forall_forall. intros ob (name & Hob & _)%list_elem_of_bind.
  apply list_elem_of_fmap in Hob as (u & -> & _). apply plain_userEntry.
Qed.

Lemma plain_userInbounds input : Forall (plain 3) (buildUserInbounds input).
Proof.
  unfold buildUserInbounds. repeat case_match; auto using Forall_nil_2. apply Forall_singleton, plain_buildInboundEntry.
  apply Forall_fmap, Forall_true. intros u. apply plain_userEntry.
Qed.

Lemma plain_inboundPart input rules : Forall (plain 3) (inboundPart input rules).1.
Proof.
  unfold inboundPart. pose proof (plain_routeInbounds input (routesForNode input) (isSelfOutbound input)) as Hr.
  destruct (buildRouteInbounds _ _ _) as [ibs rls]. pose proof (plain_userInbounds input). by repeat case_match.
Qed.

Lemma plain_config input : plain 5 (singboxConfig_json (computeConfig input)).
Proof.
  assert (Forall (plain 3) (Inbounds (computeConfig input))) as Hib.
  { unfold computeConfig. pose proof (plain_inboundPart input (buildPolicyRules input (policiesForNode input))) as Hp.
    destruct (hasRole _ ProxyRoleInbound); [destruct (inboundPart _ _) as [ibs rls]|]; simpl in *;
      destruct (hasRole _ ProxyRoleOutbound); rewrite ?Forall_app, ?Forall_singleton; auto using Forall_nil_2 with plain. }
  assert (Forall (plain 3) (Outbounds (computeConfig input))) as Hob.
  { assert (Outbounds (computeConfig input) = deduplicateByTag ((if hasRole (Node input) ProxyRoleInbound then inboundOutbounds input else []) ++ [buildDirectOutbound])) as ->.
    { unfold computeConfig. by destruct (if hasRole _ _ then _ else _) as [? ?]. }
    apply plain_deduplicate, Forall_app_2; [|apply Forall_singleton; unfold buildDirectOutbound; auto with plain].
    destruct (hasRole _ _); [|constructor]. eapply Forall_impl; [apply plain_inboundOutbounds|]. intros ob Hob.
    by apply (plain_le 2); [|lia]. }
  destruct (computeConfig input) as [lvl ibs obs [rules fin] ex]. simpl in *. unfold singboxConfig_json. simpl.
  assert (Forall (plain 2) (map routeRule_json rules)) by (apply Forall_fmap, Forall_true; intros; apply plain_routeRule).
  unfold routeConfig_json, experimentalConfig_json, v2rayStatsConfig_json. simpl.
  apply plain_obj. repeat first [apply plain_members_cons|apply plain_members_app]; plain_auto.
Qed.
End sections.

(** Round trip of the published configuration: for every input, whatever
    bytes its names, credentials, domains and addresses hold, the document that
    Compute writes is well-formed JSON, and parsing it gives back exactly the
    configuration value (with invalid UTF-8 replaced, as json.Marshal does). *)
Theorem config_parses_back `{MapRange, LabelSelectors} input :
  json_parse (Config (Compute input)) = Some (tree_of (singboxConfig_json (computeConfig input))).
Proof. eapply json_parse_plain; [apply plain_config|]. unfold maxNestingDepth. lia. Qed.

(** ** The order of the policies *)

(** Strings that json.Marshal writes as they are read back. *)
Fixpoint ascii_only (s : string) : bool :=
  match s with EmptyString => true | String c s => (byte_val c <? 128)%Z && ascii_only s end.

Lemma sanitize_ascii s : ascii_only s = true → utf8_sanitize 0 s = s.
Proof. induction s as [|c s IH]; [done|]. cbn [ascii_only utf8_sanitize]. intros [-> Hs]%andb_true_iff. by rewrite IH. Qed.

(** Equal documents have equal rules. *)
Lemma same_bytes_rules `{MapRange, LabelSelectors} input input' :
  Config (Compute input) = Config (Compute input') →
  map (tree_of ∘ routeRule_json) (Rules (Route (computeConfig input))) = map (tree_of ∘ routeRule_json) (Rules (Route (computeConfig input'))).
Proof.
  intros Heq. pose proof (config_parses_back input) as H1. rewrite Heq, config_parses_back in H1. apply (inj Some) in H1. symmetry in H1.
  destruct (computeConfig input) as [? ? ? [rules fin] ?], (computeConfig input') as [? ? ? [rules' fin'] ?].
  apply (f_equal (λ t, match t with TObj (_ :: _ :: _ :: (_, r) :: _) => r | t => t end)) in H1.
  unfold singboxConfig_json, routeConfig_json in H1. cbn -[routeRule_json] in H1. cbn [Route Rules] in *.
  rewrite <- !(map_map routeRule_json tree_of).
  destruct rules as [|r rules], rules' as [|r' rules']; cbn -[routeRule_json] in H1 |- *; try done;
    exact (f_equal (λ t, match t with TObj ((_, TArr l) :: _) => l | _ => [] end) H1).
Qed.

Definition setPolicies (input : Input) (ps : list (option EgressPolicy)) : Input :=
  {| Node := Node input; Users := Users input; UserCreds := UserCreds input; OutboundNodes := OutboundNodes input; Routes := Routes input;
     EgressPolicies := ps; NodeCreds := NodeCreds input; OutboundNodesByName := OutboundNodesByName input;
     ExternalOutbounds := ExternalOutbounds input; ExternalOutboundsByName := ExternalOutboundsByName input;
     ExternalCreds := ExternalCreds input; UsageCollectionEnabled := UsageCollectionEnabled input; V2RayAPIListenAddr := V2RayAPIListenAddr input;
     UserNodeRestrictions := UserNodeRestrictions input; UserNodeAllowlist := UserNodeAllowlist input |}.

Section order.
Context `{MapRange, LabelSelectors}.

(** The policy routes to an available target that no relay peer is named like, and some user may use it. *)
Record routesTo (input : Input) (p : EgressPolicy) (name : string) : Prop := {
  rt_action : ps_Action (policy_spec p) = EgressPolicyActionRoute;
  rt_name : policyEgressName input p = name ∧ name ≠ "";
  rt_available : policyEgressAvailable input name = true;
  rt_users : policyAuthUsers input name ≠ [];
  rt_peers : name ∉ (peerNames input (routesForNode input)).2;
  rt_ascii : ascii_only name = true;
}.

Lemma foldl_appends {A} (f : gset string * list string → A → gset string * list string) st l :
  (∀ st x, st.2 `prefix_of` (f st x).2) → st.2 `prefix_of` (foldl f st l).2.
Proof. intros Hf. revert st. induction l as [|x l IH]; intros st; [done|]. cbn [foldl]. etrans; [apply Hf|apply IH]. Qed.

Lemma push_new_appends (st : gset string * list string) x : st.2 `prefix_of` (push_new st x).2.
Proof. unfold push_new. case_bool_decide; [done|]. by exists [x]. Qed.

Lemma pushPolicyEgress_new input st p name :
  routesTo input p name → name ∉ st.1 → pushPolicyEgress input st (Some p) = ({[name]} ∪ st.1, st.2 ++ [name]).
Proof.
  intros [Ha [Hn Hne] Hav _ _ _] Hst. unfold pushPolicyEgress. rewrite Ha, Hn, Hav.
  rewrite (bool_decide_eq_true_2 (EgressPolicyActionRoute = _)) by done. cbn [negb].
  rewrite (bool_decide_eq_false_2 (name = "")) by done. cbn [negb andb]. unfold push_new. by rewrite bool_decide_eq_false_2.
Qed.

(** The first two policies come first among the targets that policies add. *)
Lemma routeOutboundNames_first input p q np nq rest self :
  routesTo input p np → routesTo input q nq → np ≠ nq →
  ∃ t, routeOutboundNames (setPolicies input (Some p :: Some q :: rest)) (routesForNode input) self
       = (peerNames input (routesForNode input)).2 ++ np :: nq :: t.
Proof.
  intros Hp Hq Hne. unfold routeOutboundNames. change (peerNames (setPolicies input ?l)) with (peerNames input).
  set (st := peerNames _ _) in *.
  assert (seen_ok st) as [Hst _] by apply peerNames_ok.
  cbn [EgressPolicies setPolicies foldl]. change (pushPolicyEgress (setPolicies input _)) with (pushPolicyEgress input).
  rewrite (pushPolicyEgress_new input st p np Hp) by (rewrite Hst, elem_of_list_to_set; apply Hp).
  rewrite (pushPolicyEgress_new input _ q nq Hq) by (cbn [fst]; rewrite Hst, elem_of_union, elem_of_list_to_set; pose proof (rt_peers _ _ _ Hq); set_solver).
  cbn [fst snd]. rewrite <- app_assoc. cbn [app]. set (seen := _ ∪ _).
  assert ((st.2 ++ [np; nq]) `prefix_of` (foldl (pushPolicyEgress input) (seen, st.2 ++ [np; nq]) rest).2) as Hl.
  { apply (foldl_appends (pushPolicyEgress input) (seen, st.2 ++ [np; nq])). intros st' x. unfold pushPolicyEgress.
    repeat case_match; try done; apply push_new_appends. }
  set (st1 := foldl (pushPolicyEgress input) _ rest) in *.
  match goal with |- context [foldl push_new ?s ?l] => assert ((st.2 ++ [np; nq]) `prefix_of` (foldl push_new s l).2) as [t Ht] end.
  { etrans; [|apply foldl_appends, push_new_appends]. destruct self; [|done]. etrans; [exact Hl|apply push_new_appends]. }
  exists t. rewrite Ht, <- app_assoc. done.
Qed.

(** With distinct names the sorted policies do not depend on the order. *)
Lemma policiesForNode_swap input ps ps' :
  omap id ps ≡ₚ omap id ps' → NoDup (GetName <$> omap id ps) → policiesForNode (setPolicies input ps) = policiesForNode (setPolicies input ps').
Proof.
  intros Hperm Hnd. unfold policiesForNode. cbn [EgressPolicies setPolicies]. apply sort_by_unique; [apply _|by rewrite sort_by_perm|apply sort_by_sorted; apply _|].
  intros x y Hx Hy Hxy Hyx. rewrite <- Hperm in Hx, Hy. apply (named_unique (omap id ps)); [done..|].
  unfold policy_less in *. repeat case_bool_decide; try lia. by apply str_less_tied.
Qed.

(** The rules of an inbound node with policies. *)
Lemma computeConfig_rules input :
  hasRole (Node input) ProxyRoleInbound = true → policiesForNode input ≠ [] →
  Rules (Route (computeConfig input)) = buildPolicyRules input (policiesForNode input) ++
    routeRules input (routeOutboundNames input (routesForNode input) (isSelfOutbound input)).
Proof.
  intros Hrole Hne. unfold computeConfig. rewrite Hrole. unfold inboundPart, buildRouteInbounds.
  destruct (policiesForNode input) eqn:Hp; [done|]. cbn [length Nat.ltb Nat.leb]. by case_bool_decide.
Qed.

(** The rule of one target. *)
Lemma routeRules_cons input name names :
  policyAuthUsers input name ≠ [] → ascii_only name = true →
  ∃ r, routeRules input (name :: names) = r :: routeRules input names ∧
    ∃ users, tree_of (routeRule_json r) = TObj [("auth_user", users); ("outbound", TStr (outboundTag name))].
Proof.
  intros Husers Hascii. unfold routeRules. cbn [mbind list_bind]. destruct (policyAuthUsers input name) as [|u us] eqn:Hu; [done|]. cbn [length Nat.ltb Nat.leb app].
  eexists. split; [reflexivity|]. eexists. cbn -[utf8_sanitize outboundTag]. unfold omit_str. cbn -[utf8_sanitize outboundTag].
  rewrite (bool_decide_eq_false_2 (outboundTag name = "")) by done. rewrite bool_decide_eq_true_2 by done.
  cbn -[utf8_sanitize outboundTag]. rewrite (sanitize_ascii (outboundTag name)) by (cbn; exact Hascii). reflexivity.
Qed.

(** C40. The order in which the policies are listed shows in the published bytes:
    take an inbound node and policies with distinct names, of which the first two
    listed route to two different available targets that are no relay peers and
    that some user may use; listing these two the other way round gives another
    document, although the engine sorts the policies before it makes their rules.
    The per-user rules follow the listing. *)
Theorem policy_order_shows input p q np nq rest :
  hasRole (Node input) ProxyRoleInbound = true → NoDup (GetName <$> p :: q :: omap id rest) →
  routesTo input p np → routesTo input q nq → np ≠ nq →
  Config (Compute (setPolicies input (Some p :: Some q :: rest))) ≠ Config (Compute (setPolicies input (Some q :: Some p :: rest))).
Proof.
  intros Hrole Hnd Hp Hq Hne Heq%same_bytes_rules.
  assert (∀ x l, policiesForNode (setPolicies input (Some x :: l)) ≠ []) as Hsome.
  { intros x l Hnil. apply (f_equal length) in Hnil. unfold policiesForNode in Hnil. by rewrite sort_by_perm in Hnil. }
  rewrite !computeConfig_rules in Heq by (done || apply Hsome).
  rewrite (policiesForNode_swap input (Some p :: Some q :: rest) (Some q :: Some p :: rest)) in Heq; [|apply Permutation_swap|exact Hnd].
  rewrite !map_app in Heq. apply app_inv_head in Heq.
  change (routesForNode (setPolicies input ?l)) with (routesForNode input) in Heq.
  change (isSelfOutbound (setPolicies input ?l)) with (isSelfOutbound input) in Heq.
  change (routeRules (setPolicies input ?l)) with (routeRules input) in Heq.
  destruct (routeOutboundNames_first input p q np nq rest (isSelfOutbound input) Hp Hq Hne) as [t Ht].
  destruct (routeOutboundNames_first input q p nq np rest (isSelfOutbound input) Hq Hp (not_eq_sym Hne)) as [t' Ht'].
  rewrite Ht, Ht' in Heq. unfold routeRules in Heq. rewrite !bind_app, !map_app in Heq. apply app_inv_head in Heq.
  destruct (routeRules_cons input np (nq :: t) (rt_users _ _ _ Hp) (rt_ascii _ _ _ Hp)) as (r & Hr & users & Htree).
  destruct (routeRules_cons input nq (np :: t') (rt_users _ _ _ Hq) (rt_ascii _ _ _ Hq)) as (r' & Hr' & users' & Htree').
  unfold routeRules in Hr, Hr'. rewrite Hr, Hr' in Heq. cbn [map] in Heq. apply (inj2 cons) in Heq as [Heq _]. unfold compose in Heq.
  rewrite Htree, Htree' in Heq. injection Heq as _ Htag. by apply Hne, (inj (String.app "outbound-")).
Qed.
End order.

(** ** Two exits outside the cluster, each with a policy of its own *)
Definition order_input : Input :=
  {| Node := mkNode "in1" [ProxyRoleInbound] 0 [];
     Users := [mkUser "alice" ""];
     UserCreds := {["alice" := {| uc_UUID := sample_uuid |}]};
     OutboundNodes := [sample_out]; Routes := []; EgressPolicies := [];
     NodeCreds := ∅; OutboundNodesByName := {["out1" := sample_out]};
     ExternalOutbounds := [];
     ExternalOutboundsByName := {["ext1" := mkExternal "ext1" ExternalProtocolSocks5 None; "ext2" := mkExternal "ext2" ExternalProtocolSocks5 None]};
     ExternalCreds := ∅; UsageCollectionEnabled := false; V2RayAPIListenAddr := "";
     UserNodeRestrictions := ∅; UserNodeAllowlist := ∅ |}.

Lemma policy_order_shows_witness :
  let p := mkPolicy "p1" EgressPolicyActionRoute 10 ["ext1"] in
  let q := mkPolicy "p2" EgressPolicyActionRoute 20 ["ext2"] in
  Config (Compute (setPolicies order_input [Some p; Some q])) ≠ Config (Compute (setPolicies order_input [Some q; Some p])).
Proof.
  intros p q. apply (policy_order_shows order_input p q "ext1" "ext2" []).
  - reflexivity.
  - apply (bool_decide_unpack (NoDup _)). vm_compute. exact I.
  - split; [reflexivity|split; [vm_compute; reflexivity|discriminate]|vm_compute; reflexivity|vm_compute; discriminate| |reflexivity].
    apply (bool_decide_unpack (_ ∉ _)). vm_compute. exact I.
  - split; [reflexivity|split; [vm_compute; reflexivity|discriminate]|vm_compute; reflexivity|vm_compute; discriminate| |reflexivity].
    apply (bool_decide_unpack (_ ∉ _)). vm_compute. exact I.
  - discriminate.
Defined.
