(* ===== verification/K8s.v ===== *)
(** * K8s: programs over the Kubernetes API

    The controllers and the API server talk to the cluster through
    controller-runtime's client.Client, whose implementation (and the API server
    behind it) is outside the repository.  A [prog] is a Go function as a tree of
    client calls: each call is answered by an arbitrary server, and the program
    continues with the answer.  [exec] runs a program against any server; [wp]
    is the proof rule, universally quantified over answers, that the theorems
    about controllers are derived from.  Log output is not modelled. *)

From S2P Require Import Prelude GoStrings Json Api.

(** ** Errors *)
Record error := mkError { IsNotFound : bool; IsConflict : bool; Error : string }.

(** fmt.Errorf without %w: an error no API predicate recognises. *)
Definition Errorf (msg : string) : error := {| IsNotFound := false; IsConflict := false; Error := msg |}.

(** fmt.Errorf(prefix + "%w", err): errors.As still finds the wrapped status. *)
Definition wrapErr (prefix : string) (e : error) : error :=
  {| IsNotFound := IsNotFound e; IsConflict := IsConflict e; Error := prefix +:+ Error e |}.

(** client.IgnoreNotFound *)
Definition IgnoreNotFound (e : error) : option error := if IsNotFound e then None else Some e.

(** ** Core objects *)
Record NamespacedName := { nn_Namespace : string; nn_Name : string }.

#[export] Instance NamespacedName_eq : EqDecision NamespacedName.
Proof. solve_decision. Defined.

#[export] Program Instance NamespacedName_countable : Countable NamespacedName :=
  inj_countable' (λ k, (nn_Namespace k, nn_Name k)) (λ p, {| nn_Namespace := p.1; nn_Name := p.2 |}) _.
Next Obligation. by intros []. Qed.

Definition keyOf {A} `{HasMeta A} (x : A) : NamespacedName :=
  {| nn_Namespace := GetNamespace x; nn_Name := GetName x |}.

Record Secret := { secret_meta : ObjectMeta; Data : gmap string string }.
#[export] Instance Secret_meta : HasMeta Secret := secret_meta.

Record ConfigMap := { cm_meta : ObjectMeta; cm_Data : gmap string string }.
#[export] Instance ConfigMap_meta : HasMeta ConfigMap := cm_meta.

Record Service := { svc_meta : ObjectMeta }.
#[export] Instance Service_meta : HasMeta Service := svc_meta.

Record VolumeMount := { vm_Name : string; vm_MountPath : string; vm_ReadOnly : bool }.

Inductive VolumeSource :=
  | ConfigMapVolumeSource (name : string)
  | SecretVolumeSource (name : string) (items : list (string * string)).

Record Volume := { vol_Name : string; vol_Source : VolumeSource }.

Record Container := {
  ct_Name : string;
  ct_Image : string;
  ct_Args : list string;
  ct_VolumeMounts : list VolumeMount;
  ct_Resources : json;
}.

Record PodSpec := {
  HostNetwork : bool;
  DNSPolicy : string;
  NodeSelector : gmap string string;
  RestartPolicy : string;
  Containers : list Container;
  Volumes : list Volume;
}.

Record PodStatus := { Phase : string; PodIP : string }.

Record Pod := { pod_meta : ObjectMeta; pod_spec : PodSpec; pod_status : PodStatus }.
#[export] Instance Pod_meta : HasMeta Pod := pod_meta.

Record NodeCondition := { nc_Type : string; nc_Status : string }.

(** corev1.Node *)
Record K8sNode := { kn_meta : ObjectMeta; kn_Conditions : list NodeCondition }.
#[export] Instance K8sNode_meta : HasMeta K8sNode := kn_meta.

(** ** Client calls *)
Inductive kind := KSingBoxNode | KUser | KUserGroup | KEgressPolicy | KExternalOutbound
                | KSecret | KConfigMap | KPod | KService | KNode.

#[export] Instance kind_eq : EqDecision kind.
Proof. solve_decision. Defined.

Definition obj (k : kind) : Type :=
  match k with
  | KSingBoxNode => SingBoxNode | KUser => User | KUserGroup => UserGroup | KEgressPolicy => EgressPolicy
  | KExternalOutbound => ExternalOutbound | KSecret => Secret | KConfigMap => ConfigMap | KPod => Pod
  | KService => Service | KNode => K8sNode
  end.

Inductive listOption :=
  | InNamespace (ns : string)
  | MatchingFields (field value : string)
  (** client.InNamespace and client.MatchingLabels *)
  | InNamespaceMatchingLabels (ns : string) (labels : gmap string string).

Inductive call :=
  | Get (k : kind) (key : NamespacedName)
  | List (k : kind) (opt : listOption)
  | Create (k : kind) (o : obj k)
  | Update (k : kind) (o : obj k)
  | StatusUpdate (k : kind) (o : obj k)
  | Patch (k : kind) (base o : obj k)
  | Delete (k : kind) (o : obj k)
  (** controllerutil.CreateOrUpdate *)
  | CreateOrUpdate (k : kind) (o : obj k) (mutate : obj k → error + obj k)
  (** the current time in a layout, crypto/rand.Read of [n] bytes *)
  | NowText (layout : string)
  | RandRead (n : nat)
  (** prometheus: counters, gauges, and the duration since the start of the function *)
  | MetricInc (name : string) (labels : list string)
  | MetricSet (name : string) (labels : list string) (v : Z)
  | MetricObserveDuration (name : string) (labels : list string).

Definition answer (c : call) : Type :=
  match c with
  | Get k _ => error + obj k
  | List k _ => error + list (obj k)
  | Create _ _ | Update _ _ | StatusUpdate _ _ | Patch _ _ _ | Delete _ _ => option error
  | CreateOrUpdate _ _ _ => error + string
  | NowText _ => string
  | RandRead _ => list Z * option error
  | MetricInc _ _ | MetricSet _ _ _ | MetricObserveDuration _ _ => unit
  end.

(** ** Programs *)
Inductive prog (A : Type) : Type :=
  | Ret (a : A)
  | Call (c : call) (f : answer c → prog A).
Arguments Ret {A} a.
Arguments Call {A} c f.

Definition do (c : call) : prog (answer c) := Call c Ret.

Fixpoint prog_bind {A B} (f : A → prog B) (p : prog A) : prog B :=
  match p with
  | Ret a => f a
  | Call c k => Call c (λ r, prog_bind f (k r))
  end.

#[export] Instance prog_mbind : MBind prog := @prog_bind.
#[export] Instance prog_mret : MRet prog := @Ret.

(** [x, err := p; if err != nil { return ..., err }] *)
Notation "x '←?' p ; z" :=
  (prog_bind (λ r, match r with inl e => Ret (inl e) | inr x => z end) p)
  (at level 20, p at level 100, z at level 200) : go_scope.

(** A loop whose body may return early with an error. *)
Fixpoint foldE {A B} (f : B → A → prog (error + B)) (st : B) (l : list A) : prog (error + B) :=
  match l with
  | [] => Ret (inr st)
  | x :: l => st ←? f st x; foldE f st l
  end.

(** A loop that always runs to its end. *)
Fixpoint foldM {A B} (f : B → A → prog B) (st : B) (l : list A) : prog B :=
  match l with
  | [] => Ret st
  | x :: l => prog_bind (λ st, foldM f st l) (f st x)
  end.

(** ** Execution against a server *)
Record event := Ev { ev_call : call; ev_answer : answer ev_call }.
Arguments Ev c r : rename.

(** A server: a state and an answer to every call in every state. *)
Record server := { srv_state : Type; srv_step : srv_state → ∀ c : call, answer c * srv_state }.

Fixpoint exec {A} (sv : server) (s : srv_state sv) (p : prog A) : list event * A * srv_state sv :=
  match p with
  | Ret a => ([], a, s)
  | Call c f =>
    let '(r, s) := srv_step sv s c in
    let '(tr, a, s) := exec sv s (f r) in
    (Ev c r :: tr, a, s)
  end.

Definition trace {A} (sv : server) (s : srv_state sv) (p : prog A) : list event := (exec sv s p).1.1.
Definition result {A} (sv : server) (s : srv_state sv) (p : prog A) : A := (exec sv s p).1.2.

(** ** Proof rule *)

(** [wp ok p tr Q]: from the history [tr], every run of [p] whose answers
    satisfy [ok] ends with a history and a result that satisfy [Q]. *)
Fixpoint wp {A} (ok : event → Prop) (p : prog A) (tr : list event) (Q : list event → A → Prop) : Prop :=
  match p with
  | Ret a => Q tr a
  | Call c f => ∀ r, ok (Ev c r) → wp ok (f r) (tr ++ [Ev c r]) Q
  end.

Lemma wp_mono {A} ok (p : prog A) tr (Q Q' : list event → A → Prop) :
  (∀ tr a, Q tr a → Q' tr a) → wp ok p tr Q → wp ok p tr Q'.
Proof. intros HQ. revert tr. induction p; simpl; eauto. Qed.

Lemma wp_bind {A B} ok (f : A → prog B) p tr Q :
  wp ok p tr (λ tr a, wp ok (f a) tr Q) → wp ok (prog_bind f p) tr Q.
Proof. revert tr. induction p; simpl; auto. Qed.

Lemma wp_call {B} ok c (f : answer c → prog B) tr Q :
  (∀ r, ok (Ev c r) → wp ok (f r) (tr ++ [Ev c r]) Q) → wp ok (prog_bind f (do c)) tr Q.
Proof. done. Qed.

Lemma wp_foldM {A B} ok (I : list event → B → Prop) (f : B → A → prog B) st l tr :
  I tr st → (∀ tr st x, x ∈ l → I tr st → wp ok (f st x) tr I) → wp ok (foldM f st l) tr I.
Proof.
  intros Hst Hf. revert tr st Hst. induction l as [|x l IH]; intros tr st Hst; [done|].
  simpl. apply wp_bind. eapply wp_mono; [|apply Hf; [left|done]].
  intros tr' st' Hst'. apply IH; [|done]. intros ??? Hy. apply Hf. by right.
Qed.

Lemma wp_and {A} ok (p : prog A) tr (Q1 Q2 : list event → A → Prop) :
  wp ok p tr Q1 → wp ok p tr Q2 → wp ok p tr (λ tr a, Q1 tr a ∧ Q2 tr a).
Proof. revert tr. induction p; simpl; auto. Qed.

(** Calls only extend the history. *)
Lemma wp_history {A} ok (p : prog A) tr Q :
  wp ok p tr Q → wp ok p tr (λ tr' a, (∀ e, e ∈ tr → e ∈ tr') ∧ Q tr' a).
Proof.
  revert tr. induction p as [a|c f IH]; intros tr; simpl; [auto|]. intros Hwp r Hr.
  eapply wp_mono; [|apply IH, Hwp, Hr]. simpl. intros tr' a [Hsub ?]. split; [|done].
  intros e He. apply Hsub. set_solver.
Qed.

(** A property of the run on its own, seen from a longer history. *)
Lemma wp_shift {A} ok (p : prog A) tr0 tr1 (Q : list event → A → Prop) :
  wp ok p tr1 Q → wp ok p (tr0 ++ tr1) (λ tr a, ∃ new, tr = tr0 ++ new ∧ Q new a).
Proof.
  revert tr1. induction p as [a|c f IH]; intros tr1; simpl; [eauto|]. intros Hwp r Hr.
  rewrite <-app_assoc. auto.
Qed.

Lemma wp_from {A} ok (p : prog A) tr0 (Q : list event → A → Prop) :
  wp ok p [] Q → wp ok p tr0 (λ tr a, ∃ new, tr = tr0 ++ new ∧ Q new a).
Proof. intros Hwp. rewrite <-(app_nil_r tr0) at 1. by apply wp_shift. Qed.

(** [emits P p]: every call that [p] can make satisfies [P]. *)
Fixpoint emits {A} (P : call → Prop) (p : prog A) : Prop :=
  match p with
  | Ret _ => True
  | Call c f => P c ∧ ∀ r, emits P (f r)
  end.

Lemma emits_mono {A} (P Q : call → Prop) (p : prog A) : (∀ c, P c → Q c) → emits P p → emits Q p.
Proof. intros HPQ. induction p as [a|c f IH]; [done|]. intros [Hc Hf]. split; [auto|]. intros a. by apply IH. Qed.

Lemma emits_bind {A B} P (f : A → prog B) p : emits P p → (∀ a, emits P (f a)) → emits P (prog_bind f p).
Proof. induction p as [a|c g IH]; simpl; [auto|]. intros [? ?] ?. auto. Qed.

Lemma emits_foldM {A B} P (f : B → A → prog B) st l : (∀ st x, emits P (f st x)) → emits P (foldM f st l).
Proof. intros Hf. revert st. induction l; intros st; simpl; [done|]. apply emits_bind; auto. Qed.

Lemma emits_foldE {A B} P (f : B → A → prog (error + B)) st l : (∀ st x, emits P (f st x)) → emits P (foldE f st l).
Proof. intros Hf. revert st. induction l; intros st; simpl; [done|]. apply emits_bind; [auto|]. intros []; [done|auto]. Qed.

Lemma wp_emits {A} ok P (p : prog A) tr :
  emits P p → wp ok p tr (λ tr' _, ∃ new, tr' = tr ++ new ∧ Forall (λ e, P (ev_call e)) new).
Proof.
  revert tr. induction p as [a|c f IH]; intros tr; simpl.
  - intros _. exists []. by rewrite app_nil_r.
  - intros [Hc Hf] r _. eapply wp_mono; [|by apply IH]. simpl. intros tr' a (new & -> & Hnew).
    exists (Ev c r :: new). rewrite <-app_assoc. split; [done|]. by constructor.
Qed.

(** Walks through a program, splitting on answers and conditions. *)
Ltac emits_step :=
  match goal with
  | |- emits _ (prog_bind _ _) => apply emits_bind
  | |- emits _ (_ ≫= _) => apply emits_bind
  | |- emits _ (foldM _ _ _) => apply emits_foldM
  | |- emits _ (foldE _ _ _) => apply emits_foldE
  | |- emits _ (do _) => simpl; split; [|done]
  | |- emits _ (Ret _) => exact I
  | |- emits _ (match ?x with _ => _ end) => destruct x
  | |- ∀ _, _ => intro
  end.
Ltac emits_solve := repeat (emits_step; try done).

(** What [wp] proves holds of the run against any server. *)
Lemma wp_exec {A} ok (p : prog A) Q sv s tr :
  wp ok p tr Q → Forall ok (trace sv s p) → Q (tr ++ trace sv s p) (result sv s p).
Proof.
  unfold trace, result. revert s tr. induction p as [a|c f IH]; intros s tr; simpl; [by rewrite app_nil_r|].
  destruct (srv_step sv s c) as [r s']. intros Hwp. specialize (IH r s' (tr ++ [Ev c r])).
  destruct (exec sv s' (f r)) as [[tr' a] s'']. simpl in *.
  rewrite Forall_cons. intros [Hok Htr]. rewrite <-app_assoc in IH. simpl in IH. auto.
Qed.

(** The common case: no assumption on the answers, empty history. *)
Lemma wp_run {A} (p : prog A) Q sv s :
  wp (λ _, True) p [] Q → Q (trace sv s p) (result sv s p).
Proof. intros Hwp. apply (wp_exec _ _ _ sv s _ Hwp). by apply Forall_true. Qed.

(** ** Library code the controllers call, as parameters *)

(** The condition of a type. *)
Definition findCondition (t : string) (cs : list Condition) : option Condition :=
  snd <$> list_find (λ c, cond_Type c = t) cs.

Lemma findCondition_cons t c cs :
  findCondition t (c :: cs) = if decide (cond_Type c = t) then Some c else findCondition t cs.
Proof.
  unfold findCondition. simpl. case_decide; [done|]. rewrite <-option_fmap_compose. apply option_fmap_ext. by intros [].
Qed.

(** k8s.io/apimachinery meta.SetStatusCondition: replaces or adds the condition of its type. *)
Class ConditionLib := {
  SetStatusCondition : list Condition → Condition → list Condition;
  find_set_same : ∀ cs c, findCondition (cond_Type c) (SetStatusCondition cs c) = Some c;
  find_set_other : ∀ cs c t, t ≠ cond_Type c → findCondition t (SetStatusCondition cs c) = findCondition t cs;
}.

(** sigs.k8s.io/controller-runtime controllerutil: finalizers and owner references. *)
Class ControllerUtil := {
  ContainsFinalizer : ObjectMeta → string → bool;
  AddFinalizer : ObjectMeta → string → ObjectMeta;
  RemoveFinalizer : ObjectMeta → string → ObjectMeta;
  SetControllerReference : ObjectMeta → ObjectMeta → error + ObjectMeta;
  contains_add : ∀ m f, ContainsFinalizer (AddFinalizer m f) f = true;
  contains_remove : ∀ m f, ContainsFinalizer (RemoveFinalizer m f) f = false;
  ref_key : ∀ owner m m', SetControllerReference owner m = inr m' →
    om_Name m' = om_Name m ∧ om_Namespace m' = om_Namespace m ∧
    om_Labels m' = om_Labels m ∧ om_Annotations m' = om_Annotations m;
}.

(** ctrl.Result *)
Record Result := { Requeue : bool; RequeueAfter : Z }.
Definition noResult : Result := {| Requeue := false; RequeueAfter := 0 |}.

(** ** Views of a trace *)
Definition cast_obj {k' : kind} (k : kind) (o : obj k') : option (obj k) :=
  match decide (k' = k) with left e => Some (eq_rect k' obj o k e) | right _ => None end.

Lemma cast_obj_same k (o : obj k) : cast_obj k o = Some o.
Proof.
  unfold cast_obj. destruct (decide (k = k)) as [e|]; [|done].
  by rewrite (proof_irrel e eq_refl).
Qed.

(** The objects of kind [k] that a run asked to create, delete, update, ..., with the server's answer. *)
Definition ev_create (k : kind) (e : event) : option (obj k * option error) :=
  match e with
  | Ev c a => match c return answer c → option (obj k * option error) with
              | Create k' o => λ a, (λ o, (o, a)) <$> cast_obj k o
              | _ => λ _, None
              end a
  end.

Definition ev_delete (k : kind) (e : event) : option (obj k * option error) :=
  match e with
  | Ev c a => match c return answer c → option (obj k * option error) with
              | Delete k' o => λ a, (λ o, (o, a)) <$> cast_obj k o
              | _ => λ _, None
              end a
  end.

Definition ev_status (k : kind) (e : event) : option (obj k * option error) :=
  match e with
  | Ev c a => match c return answer c → option (obj k * option error) with
              | StatusUpdate k' o => λ a, (λ o, (o, a)) <$> cast_obj k o
              | _ => λ _, None
              end a
  end.

(** The object that a Get returned. *)
Definition ev_got (k : kind) (e : event) : option (obj k) :=
  match e with
  | Ev c a => match c return answer c → option (obj k) with
              | Get k' _ => λ a, match a with inr o => cast_obj k o | inl _ => None end
              | _ => λ _, None
              end a
  end.

(** The calls that change the cluster. *)
Definition writes (e : event) : bool :=
  match ev_call e with
  | Create _ _ | Update _ _ | StatusUpdate _ _ | Patch _ _ _ | Delete _ _ | CreateOrUpdate _ _ _ => true
  | _ => false
  end.

#[export] Hint Rewrite cast_obj_same : go.
