(* ===== verification/CredManager.v ===== *)
(** * CredManager: internal/credmanager and node health

    Reading and provisioning the Secrets that hold relay, user and external
    credentials, and the readiness of Kubernetes Nodes (controller/node_health.go). *)

From S2P Require Import Prelude GoStrings Crypto Json Api Engine K8s.
From Stdlib Require Import Ascii.

(** ** Random credentials *)
Definition base64_digits : list ascii :=
  String.list_ascii_of_string "ABCDEFGHIJKLMNOPQRSTUVWXYZabcdefghijklmnopqrstuvwxyz0123456789+/".

Definition base64_digit (n : Z) : ascii := nth (Z.to_nat n) base64_digits "A"%char.

(** base64.StdEncoding.EncodeToString *)
Fixpoint base64_encode (bs : list Z) : string :=
  (match bs with
  | a :: b :: c :: bs =>
    String (base64_digit (a / 4)) (String (base64_digit ((a mod 4) * 16 + b / 16))
      (String (base64_digit ((b mod 16) * 4 + c / 64)) (String (base64_digit (c mod 64)) (base64_encode bs))))
  | [a; b] =>
    String (base64_digit (a / 4)) (String (base64_digit ((a mod 4) * 16 + b / 16))
      (String (base64_digit ((b mod 16) * 4)) "="))
  | [a] => String (base64_digit (a / 4)) (String (base64_digit ((a mod 4) * 16)) "==")
  | [] => ""
  end)%Z.

Definition generateUUID : prog string :=
  b ← do (RandRead 16);
  let b := b.1 in
  let b := <[6 := (Z.lor (Z.land (nth 6 b 0) 0x0f) 0x40)%Z]> b in
  let b := <[8 := (Z.lor (Z.land (nth 8 b 0) 0x3f) 0x80)%Z]> b in
  Ret (uuid_format b).

Definition generatePassword : prog (error + string) :=
  b ← do (RandRead 32);
  match b.2 with
  | Some err => Ret (inl err)
  | None => Ret (inr (base64_encode b.1))
  end.

(** ** Credential Secrets *)
Definition secretName (nodeName : string) : string := "singboxnode-" +:+ nodeName +:+ "-relay-cred".

Definition secretCredential (secret : Secret) : NodeCredential :=
  {| nc_Username := map_index "" (Data secret) "username"; nc_Password := map_index "" (Data secret) "password" |}.

Definition newMeta (name namespace : string) (labels annotations : gmap string string) : ObjectMeta :=
  {| om_Name := name; om_Namespace := namespace; om_Labels := labels; om_Annotations := annotations;
     om_Generation := 0; om_Finalizers := []; om_DeletionTimestamp := None; om_OwnerReferences := [] |}.

Section credmanager.
Context `{ControllerUtil}.

Definition EnsureNodeCredential (node : SingBoxNode) : prog (error + NodeCredential) :=
  let name := secretName (GetName node) in
  r ← do (Get KSecret {| nn_Namespace := GetNamespace node; nn_Name := name |});
  match r with
  | inr secret => Ret (inr (secretCredential secret))
  | inl err =>
    if negb (IsNotFound err) then Ret (inl (wrapErr "getting relay credential secret: " err))
    else
      username ← generateUUID;
      p ← generatePassword;
      match p with
      | inl err => Ret (inl (wrapErr "generating password: " err))
      | inr password =>
        match SetControllerReference (node_meta node) (newMeta name (GetNamespace node) ∅ ∅) with
        | inl err => Ret (inl (wrapErr "setting owner reference: " err))
        | inr m =>
          let secret := {| secret_meta := m; Data := {["username" := username; "password" := password]} |} in
          e ← do (Create KSecret secret);
          match e with
          | Some err => Ret (inl (wrapErr "creating relay credential secret: " err))
          | None => Ret (inr {| nc_Username := username; nc_Password := password |})
          end
        end
      end
  end.
End credmanager.

Definition GetNodeCredential (nodeName namespace : string) : prog (error + NodeCredential) :=
  r ← do (Get KSecret {| nn_Namespace := namespace; nn_Name := secretName nodeName |});
  match r with
  | inl err => Ret (inl (wrapErr ("getting relay credential secret for node " +:+ nodeName +:+ ": ") err))
  | inr secret => Ret (inr (secretCredential secret))
  end.

(** The non-empty values of a Secret; building a map from a map's bindings does not depend on their order. *)
Definition nonEmptyData (data : gmap string string) : gmap string string := filter (λ kv, kv.2 ≠ "") data.

Definition GetExternalCredentials (eob : ExternalOutbound) : prog (error + gmap string string) :=
  match es_CredentialsSecretRef (eob_spec eob) with
  | None => Ret (inr ∅)
  | Some ref =>
    r ← do (Get KSecret {| nn_Namespace := GetNamespace eob; nn_Name := ref |});
    match r with
    | inl err => Ret (inl (wrapErr ("getting credentials secret for ExternalOutbound " +:+ GetName eob +:+ ": ") err))
    | inr secret => Ret (inr (nonEmptyData (Data secret)))
    end
  end.

Definition GetUserCredential (user : User) : prog (error + UserCredential) :=
  let ns := if us_AuthSecret_Namespace (user_spec user) ==? "" then GetNamespace user
            else us_AuthSecret_Namespace (user_spec user) in
  r ← do (Get KSecret {| nn_Namespace := ns; nn_Name := us_AuthSecret_Name (user_spec user) |});
  match r with
  | inl err => Ret (inl (wrapErr ("getting auth secret for user " +:+ GetName user +:+ ": ") err))
  | inr secret => Ret (inr {| uc_UUID := map_index "" (Data secret) "uuid" |})
  end.

(** ** Node health (controller/node_health.go) *)
Definition NodeReady : string := "Ready".

Definition isNodeReady (node : K8sNode) : bool :=
  match list_find (λ c, nc_Type c = NodeReady) (kn_Conditions node) with
  | Some (_, c) => nc_Status c ==? ConditionTrue
  | None => false
  end.

Definition isNodeOfflineAnnotated (node : K8sNode) : bool :=
  map_index "" (om_Annotations (kn_meta node)) OfflineAnnotation ==? "true".

Definition isNodeAvailable (node : K8sNode) : bool := isNodeReady node && negb (isNodeOfflineAnnotated node).

Definition getNodeReadyStatus (node : K8sNode) : string :=
  match list_find (λ c, nc_Type c = NodeReady) (kn_Conditions node) with
  | Some (_, c) => nc_Status c
  | None => ConditionUnknown
  end.

(** An update event whose objects are Nodes; a nil object or another type is [None]. *)
Definition NodeReadyConditionChangedPredicate_Update (oldNode newNode : option K8sNode) : bool :=
  match oldNode, newNode with
  | Some o, Some n => getNodeReadyStatus o !=? getNodeReadyStatus n
  | _, _ => false
  end.

(** ** Guarantees *)

(** The key under which a node's relay credential lives. *)
Definition credKey (node : SingBoxNode) : NamespacedName :=
  {| nn_Namespace := GetNamespace node; nn_Name := secretName (GetName node) |}.

(** What a run of EnsureNodeCredential may have done and returned. *)
Definition ensureOutcome (node : SingBoxNode) (tr : list event) (res : error + NodeCredential) : Prop :=
  (∀ e, e ∈ tr → writes e = true →
     ∃ secret a err, e = Ev (Create KSecret secret) a ∧ keyOf secret = credKey node ∧
       head tr = Some (Ev (Get KSecret (credKey node)) (inl err)) ∧ IsNotFound err = true) ∧
  length (filter (λ e, writes e = true) tr) ≤ 1 ∧
  (∀ cred, res = inr cred →
     (∃ secret, tr = [Ev (Get KSecret (credKey node)) (inr secret)] ∧ cred = secretCredential secret) ∨
     (∃ secret, Ev (Create KSecret secret) None ∈ tr ∧ cred = secretCredential secret)).

Lemma ensure_reads node tr res :
  Forall (λ e, writes e = false) tr → (∀ cred, res = inr cred → ∃ secret,
    tr = [Ev (Get KSecret (credKey node)) (inr secret)] ∧ cred = secretCredential secret) →
  ensureOutcome node tr res.
Proof.
  intros Hr Hres. split_and!; [|rewrite filter_none by done; simpl; lia|eauto].
  rewrite Forall_forall in Hr. intros e He Hw. specialize (Hr e He). congruence.
Qed.

(** C30. The relay credential is provisioned at most once and never replaced:
    whatever the server answers, the only write is one Create of the node's own
    Secret, after a read that reported it absent; a returned credential is
    the stored one or the one just created. *)
Theorem EnsureNodeCredential_safe `{ControllerUtil} sv s node :
  ensureOutcome node (trace sv s (EnsureNodeCredential node)) (result sv s (EnsureNodeCredential node)).
Proof.
  apply wp_run. unfold EnsureNodeCredential, generateUUID, generatePassword.
  change ({| nn_Namespace := _; nn_Name := secretName _ |}) with (credKey node).
  simpl. intros [err|secret] _; simpl; [|apply ensure_reads; [repeat constructor | intros ? [= <-]; eauto]].
  destruct (IsNotFound err) eqn:Hnf; simpl; [|by apply ensure_reads; [repeat constructor|]].
  intros [b1 e1] _ [b2 [e2|]] _; simpl; [by apply ensure_reads; [repeat constructor|]|].
  destruct (SetControllerReference _ _) as [e|m] eqn:Href; simpl; [by apply ensure_reads; [repeat constructor|]|].
  destruct (ref_key _ _ _ Href) as (Hn & Hns & _). intros [ce|] _; simpl.
  all: split_and!; [|simpl; lia|intros cred Hc; simplify_eq].
  all: try (intros e He Hw; apply list_elem_of_In in He as [<-|[<-|[<-|[<-|[]]]]]; [done..|];
            eexists _, _, err; split_and!; [done| |done..]; unfold keyOf, credKey, GetName, GetNamespace, meta, Secret_meta; simpl; by rewrite Hn, Hns).
  right. eexists. split; [do 3 right; left|]. done.
Qed.
