(* ===== verification/NodeController.v ===== *)
(** * NodeController: the SingBoxNode reconciler

    internal/controller/singboxnode_controller.go and egresspolicy_helpers.go:
    collecting the engine's input from the cluster, the ConfigMap, Pod and
    Service steps, status updates, the reconcile loop that sequences them, and
    the watch mappers.  Theorems are in NodeProps.v. *)

From S2P Require Import Prelude GoStrings Crypto Json Api Engine K8s CredManager.

(** ** Constants and the reconciler's configuration *)
Definition singboxNodeFinalizer : string := "singboxoperator.shlande.top/singboxnode-finalizer".
Definition configMapSuffix : string := "-config".
Definition podSuffix : string := "-sing-box-server".
Definition configHashAnnotation : string := "singboxoperator.shlande.top/config-hash".
Definition defaultSingBoxImage : string := "ghcr.io/sagernet/sing-box:latest".
Definition podTemplateVersion : Z := 2.

Record SingBoxNodeReconciler := {
  r_DefaultTLSSecret : string;
  r_SingBoxImage : string;
  r_UsageCollectionEnabled : bool;
  r_V2RayAPIListenAddr : string;
}.

Definition singboxImage (r : SingBoxNodeReconciler) : string :=
  if r_SingBoxImage r !=? "" then r_SingBoxImage r else defaultSingBoxImage.

(** encoding/pem and crypto/x509: the DER block of a PEM text, the DNS names of a certificate. *)
Class TLSCerts := {
  pem_Decode : string → option string;
  x509_DNSNames : string → option (list string);
}.

(** ** Object updates *)
Definition with_annotation (k v : string) (m : ObjectMeta) : ObjectMeta :=
  {| om_Name := om_Name m; om_Namespace := om_Namespace m; om_Labels := om_Labels m;
     om_Annotations := <[k := v]> (om_Annotations m); om_Generation := om_Generation m;
     om_Finalizers := om_Finalizers m; om_DeletionTimestamp := om_DeletionTimestamp m;
     om_OwnerReferences := om_OwnerReferences m |}.

Definition with_node_meta (m : ObjectMeta) (n : SingBoxNode) : SingBoxNode :=
  {| node_meta := m; node_spec := node_spec n; node_status := node_status n |}.

Definition with_node_status (st : SingBoxNodeStatus) (n : SingBoxNode) : SingBoxNode :=
  {| node_meta := node_meta n; node_spec := node_spec n; node_status := st |}.

Definition with_node_conditions (cs : list Condition) (st : SingBoxNodeStatus) : SingBoxNodeStatus :=
  {| nst_Phase := nst_Phase st; nst_ConfigHash := nst_ConfigHash st; nst_EntryEndpoints := nst_EntryEndpoints st;
     nst_TLSServerName := nst_TLSServerName st; nst_Conditions := cs; nst_ObservedGeneration := nst_ObservedGeneration st |}.

Definition upd_nodes (input : Input) (nodes : list SingBoxNode) (byName : gmap string SingBoxNode)
    (creds : gmap string NodeCredential) : Input :=
  {| Node := Node input; Users := Users input; UserCreds := UserCreds input; OutboundNodes := nodes;
     Routes := Routes input; EgressPolicies := EgressPolicies input; NodeCreds := creds;
     OutboundNodesByName := byName; ExternalOutbounds := ExternalOutbounds input;
     ExternalOutboundsByName := ExternalOutboundsByName input; ExternalCreds := ExternalCreds input;
     UsageCollectionEnabled := UsageCollectionEnabled input; V2RayAPIListenAddr := V2RayAPIListenAddr input;
     UserNodeRestrictions := UserNodeRestrictions input; UserNodeAllowlist := UserNodeAllowlist input |}.

Definition upd_externals (input : Input) (exts : list (option ExternalOutbound)) (byName : gmap string ExternalOutbound)
    (creds : gmap string (gmap string string)) : Input :=
  {| Node := Node input; Users := Users input; UserCreds := UserCreds input; OutboundNodes := OutboundNodes input;
     Routes := Routes input; EgressPolicies := EgressPolicies input; NodeCreds := NodeCreds input;
     OutboundNodesByName := OutboundNodesByName input; ExternalOutbounds := exts;
     ExternalOutboundsByName := byName; ExternalCreds := creds;
     UsageCollectionEnabled := UsageCollectionEnabled input; V2RayAPIListenAddr := V2RayAPIListenAddr input;
     UserNodeRestrictions := UserNodeRestrictions input; UserNodeAllowlist := UserNodeAllowlist input |}.

Definition upd_users (input : Input) (users : list User) (creds : gmap string UserCredential)
    (restrictions allowlist : gmap string (gmap string bool)) : Input :=
  {| Node := Node input; Users := users; UserCreds := creds; OutboundNodes := OutboundNodes input;
     Routes := Routes input; EgressPolicies := EgressPolicies input; NodeCreds := NodeCreds input;
     OutboundNodesByName := OutboundNodesByName input; ExternalOutbounds := ExternalOutbounds input;
     ExternalOutboundsByName := ExternalOutboundsByName input; ExternalCreds := ExternalCreds input;
     UsageCollectionEnabled := UsageCollectionEnabled input; V2RayAPIListenAddr := V2RayAPIListenAddr input;
     UserNodeRestrictions := restrictions; UserNodeAllowlist := allowlist |}.

Definition upd_policies (input : Input) (policies : list (option EgressPolicy)) : Input :=
  {| Node := Node input; Users := Users input; UserCreds := UserCreds input; OutboundNodes := OutboundNodes input;
     Routes := Routes input; EgressPolicies := policies; NodeCreds := NodeCreds input;
     OutboundNodesByName := OutboundNodesByName input; ExternalOutbounds := ExternalOutbounds input;
     ExternalOutboundsByName := ExternalOutboundsByName input; ExternalCreds := ExternalCreds input;
     UsageCollectionEnabled := UsageCollectionEnabled input; V2RayAPIListenAddr := V2RayAPIListenAddr input;
     UserNodeRestrictions := UserNodeRestrictions input; UserNodeAllowlist := UserNodeAllowlist input |}.

(** ** Resolution of an EgressPolicy (egresspolicy_helpers.go) *)
Section resolution.
Context `{GoStd, LabelSelectors}.

Definition egressMatches (policy : EgressPolicy) (nodes : list SingBoxNode) (outbounds : list ExternalOutbound)
    : list string :=
  let sel := ps_EgressSelector (policy_spec policy) in
  (GetName <$> filter (λ n, hasRole n ProxyRoleOutbound && EgressPolicySelector_Matches sel n = true) nodes) ++
  (GetName <$> filter (λ e, EgressPolicySelector_Matches sel e = true) outbounds).

(** The three results: names, the resolved egress, the message ("" when valid). *)
Definition resolveEgressPolicy (policy : EgressPolicy) (nodes : list SingBoxNode) (outbounds : list ExternalOutbound)
    : list string * string * string :=
  let spec := policy_spec policy in
  match EgressPolicyMatch_Valid (ps_Match spec) (ps_FallbackAction spec !=? "") with
  | Some err => ([], "", err)
  | None =>
    if (ps_Action spec !=? EgressPolicyActionRoute) && (ps_Action spec !=? EgressPolicyActionReject)
    then ([], "", "unsupported action " +:+ strconv_Quote (ps_Action spec))
    else if ps_Action spec ==? EgressPolicyActionReject then ([], "", "")
    else
      match egressMatches policy nodes outbounds with
      | [] => ([], "", "")
      | [name] => ([name], name, "")
      | names => (names, "", "egressSelector matched " +:+ fmt_d (Z.of_nat (length names)) +:+
                             " egress targets, expected exactly one")
      end
  end.
End resolution.

Definition findOutboundNode (nodes : list SingBoxNode) (name : string) : option SingBoxNode :=
  snd <$> list_find (λ n, GetName n = name ∧ hasRole n ProxyRoleOutbound = true) nodes.

Definition findExternalOutbound (outbounds : list ExternalOutbound) (name : string) : option ExternalOutbound :=
  snd <$> list_find (λ e, GetName e = name) outbounds.

Definition egressConnectedToInbound (inbound : SingBoxNode) (name : string) (nodes : list SingBoxNode)
    (outbounds : list ExternalOutbound) : bool :=
  match findOutboundNode nodes name with
  | Some target =>
    if GetName target ==? GetName inbound then hasRole inbound ProxyRoleOutbound
    else if ns_Region (node_spec target) !=? ns_Region (node_spec inbound) then false
    else if negb (listAllows (ns_AllowedInbounds (node_spec target)) (GetName inbound)) then false
    else if negb (listAllows (ns_AllowedOutbounds (node_spec inbound)) (GetName target)) then false
    else true
  | None =>
    match findExternalOutbound outbounds name with
    | Some target =>
      if (es_Region (eob_spec target) ==? "") || (es_Region (eob_spec target) !=? ns_Region (node_spec inbound)) then false
      else if negb (listAllows (es_AllowedInbounds (eob_spec target)) (GetName inbound)) then false
      else if negb (listAllows (ns_AllowedOutbounds (node_spec inbound)) (GetName target)) then false
      else true
    | None => false
    end
  end.

(** ** collectInput *)
Definition emptyInput (r : SingBoxNodeReconciler) (node : SingBoxNode) : Input :=
  {| Node := node; Users := []; UserCreds := ∅; OutboundNodes := []; Routes := []; EgressPolicies := [];
     NodeCreds := ∅; OutboundNodesByName := ∅; ExternalOutbounds := []; ExternalOutboundsByName := ∅;
     ExternalCreds := ∅; UsageCollectionEnabled := r_UsageCollectionEnabled r;
     V2RayAPIListenAddr := r_V2RayAPIListenAddr r; UserNodeRestrictions := ∅; UserNodeAllowlist := ∅ |}.

(** [cred, err := GetNodeCredential(...); if err == nil { input.NodeCreds[name] = cred }] *)
Definition loadNodeCredential (name namespace : string) (input : Input) : prog Input :=
  cred ← GetNodeCredential name namespace;
  match cred with
  | inl _ => Ret input
  | inr c => Ret (upd_nodes input (OutboundNodes input) (OutboundNodesByName input) (<[name := c]> (NodeCreds input)))
  end.

Definition loadExternalCredential (eob : ExternalOutbound) (input : Input) : prog Input :=
  creds ← GetExternalCredentials eob;
  match creds with
  | inl _ => Ret input
  | inr c => Ret (upd_externals input (ExternalOutbounds input) (ExternalOutboundsByName input)
                    (<[GetName eob := c]> (ExternalCreds input)))
  end.

(** The body of the loop over SingBoxNodes. *)
Definition collectPeer (node : SingBoxNode) (input : Input) (other : SingBoxNode) : prog Input :=
  if GetName other ==? GetName node then Ret input
  else if (ns_Region (node_spec other) ==? ns_Region (node_spec node)) && hasRole other ProxyRoleOutbound then
    if negb (listAllows (ns_AllowedInbounds (node_spec other)) (GetName node)) then Ret input
    else if negb (listAllows (ns_AllowedOutbounds (node_spec node)) (GetName other)) then Ret input
    else loadNodeCredential (GetName other) (GetNamespace node)
           (upd_nodes input (OutboundNodes input ++ [other])
              (<[GetName other := other]> (OutboundNodesByName input)) (NodeCreds input))
  else Ret input.

(** The body of the loop over ExternalOutbounds. *)
Definition collectExternal (node : SingBoxNode) (sbnNames : gset string) (input : Input) (eob : ExternalOutbound)
    : prog Input :=
  if bool_decide (GetName eob ∈ sbnNames) then Ret input
  else if (es_Region (eob_spec eob) ==? "") || (es_Region (eob_spec eob) !=? ns_Region (node_spec node)) then Ret input
  else if negb (listAllows (es_AllowedInbounds (eob_spec eob)) (GetName node)) then Ret input
  else if negb (listAllows (ns_AllowedOutbounds (node_spec node)) (GetName eob)) then Ret input
  else loadExternalCredential eob
         (upd_externals input (ExternalOutbounds input ++ [Some eob])
            (<[GetName eob := eob]> (ExternalOutboundsByName input)) (ExternalCreds input)).

(** [for _, n := range names { set[n] = true }] *)
Definition nameSet (names : list string) : gmap string bool := foldl (λ m n, <[n := true]> m) ∅ names.

(** [input.Users = append(...)], then the credential when it can be read. *)
Definition addUser (user : User) (input : Input) : prog Input :=
  cred ← GetUserCredential user;
  let users := Users input ++ [user] in
  match cred with
  | inl _ => Ret (upd_users input users (UserCreds input) (UserNodeRestrictions input) (UserNodeAllowlist input))
  | inr c => Ret (upd_users input users (<[GetName user := c]> (UserCreds input))
                    (UserNodeRestrictions input) (UserNodeAllowlist input))
  end.

(** The body of the loop over Users. *)
Definition collectUser (node : SingBoxNode) (input : Input) (user : User) : prog (error + Input) :=
  let ref := us_UserGroupRef (user_spec user) in
  if ref ==? "" then prog_bind (λ input, Ret (inr input)) (addUser user input)
  else
    ug ← do (Get KUserGroup {| nn_Namespace := GetNamespace node; nn_Name := ref |});
    match ug with
    | inl err =>
      if IsNotFound err then prog_bind (λ input, Ret (inr input)) (addUser user input)
      else Ret (inl (wrapErr ("fetching UserGroup " +:+ ref +:+ ": ") err))
    | inr ug =>
      let deniedSet := nameSet (ugs_DeniedNodes (ug_spec ug)) in
      let allowedSet := nameSet (ugs_AllowedNodes (ug_spec ug)) in
      input ← addUser user input;
      Ret (inr (upd_users input (Users input) (UserCreds input)
                  (<[GetName user := deniedSet]> (UserNodeRestrictions input))
                  (if bool_decide (size allowedSet = 0) then UserNodeAllowlist input
                   else <[GetName user := allowedSet]> (UserNodeAllowlist input))))
    end.

Section collect.
Context `{GoStd, LabelSelectors}.

(** The body of the loop over EgressPolicies. *)
Definition collectPolicy (node : SingBoxNode) (nodes : list SingBoxNode) (exts : list ExternalOutbound)
    (input : Input) (policy : EgressPolicy) : prog Input :=
  if negb (hasRole node ProxyRoleInbound) ||
     negb (EgressPolicySelector_Matches (ps_IngressSelector (policy_spec policy)) node) then Ret input
  else
    let '(_, egressName, message) := resolveEgressPolicy policy nodes exts in
    if message !=? "" then Ret input
    else if ps_Action (policy_spec policy) ==? EgressPolicyActionReject
    then Ret (upd_policies input (EgressPolicies input ++ [Some policy]))
    else if egressName ==? "" then Ret input
    else if negb (egressConnectedToInbound node egressName nodes exts) then Ret input
    else
      let input := upd_policies input (EgressPolicies input ++ [Some policy]) in
      match findOutboundNode nodes egressName with
      | Some egressNode =>
        loadNodeCredential (GetName egressNode) (GetNamespace node)
          (upd_nodes input (OutboundNodes input) (<[GetName egressNode := egressNode]> (OutboundNodesByName input))
             (NodeCreds input))
      | None =>
        match findExternalOutbound exts egressName with
        | Some egress =>
          loadExternalCredential egress
            (upd_externals input (ExternalOutbounds input)
               (<[GetName egress := egress]> (ExternalOutboundsByName input)) (ExternalCreds input))
        | None => Ret input
        end
      end.

Definition collectInput (r : SingBoxNodeReconciler) (node : SingBoxNode) : prog (error + Input) :=
  let ns := GetNamespace node in
  allNodes ← do (List KSingBoxNode (InNamespace ns));
  match allNodes with
  | inl err => Ret (inl (wrapErr "listing SingBoxNodes: " err))
  | inr allNodes =>
    let nodes : list SingBoxNode := sort_by (less_on GetName) allNodes in
    let sbnNames : gset string := list_to_set (GetName node :: (GetName <$> nodes)) in
    input ← foldM (collectPeer node) (emptyInput r node) nodes;
    allExts ← do (List KExternalOutbound (InNamespace ns));
    match allExts with
    | inl err => Ret (inl (wrapErr "listing ExternalOutbounds: " err))
    | inr allExts =>
      let exts : list ExternalOutbound := sort_by (less_on GetName) allExts in
      input ← foldM (collectExternal node sbnNames) input exts;
      input ←? (if hasRole node ProxyRoleInbound then
                  allUsers ← do (List KUser (InNamespace ns));
                  match allUsers with
                  | inl err => Ret (inl (wrapErr "listing Users: " err))
                  | inr allUsers => foldE (collectUser node) input (sort_by (less_on GetName) (allUsers : list User))
                  end
                else Ret (inr input));
      allPolicies ← do (List KEgressPolicy (InNamespace ns));
      match allPolicies with
      | inl err => Ret (inl (wrapErr "listing EgressPolicies: " err))
      | inr allPolicies =>
        input ← foldM (collectPolicy node nodes exts) input (allPolicies : list EgressPolicy);
        if hasRole node ProxyRoleOutbound
        then prog_bind (λ input, Ret (inr input)) (loadNodeCredential (GetName node) ns input)
        else Ret (inr input)
      end
    end
  end.
End collect.

(** ** ConfigMap, Pod and Services *)
Definition needsTLS (node : SingBoxNode) : bool :=
  existsb (λ p, (pc_Protocol p ==? "hysteria2") || (pc_Protocol p ==? "tuic") ||
                (pc_Protocol p ==? "naive") || (pc_Protocol p ==? "anytls"))
    (ns_SupportedProtocols (node_spec node)).

(** spec.tlsSecretName, or the operator's default. *)
Definition tlsSecretFor (r : SingBoxNodeReconciler) (node : SingBoxNode) : string :=
  if ns_TLSSecretName (node_spec node) ==? "" then r_DefaultTLSSecret r else ns_TLSSecretName (node_spec node).

Definition desiredPodHash (configHash : string) : string := configHash +:+ "-" +:+ fmt_d podTemplateVersion.

(** nil resources are the zero ResourceRequirements, with no requests and no limits. *)
Definition resourcesOrDefault (r : option json) : json := match r with Some r => r | None => JObj [] end.

Definition podVolumeMounts (r : SingBoxNodeReconciler) (node : SingBoxNode) : list VolumeMount :=
  [{| vm_Name := "config"; vm_MountPath := "/etc/sing-box"; vm_ReadOnly := false |}] ++
  (if needsTLS node && (tlsSecretFor r node !=? "")
   then [{| vm_Name := "tls"; vm_MountPath := "/etc/sing-box/tls"; vm_ReadOnly := true |}] else []).

Definition podVolumes (r : SingBoxNodeReconciler) (node : SingBoxNode) : list Volume :=
  [{| vol_Name := "config"; vol_Source := ConfigMapVolumeSource (GetName node +:+ configMapSuffix) |}] ++
  (if needsTLS node && (tlsSecretFor r node !=? "")
   then [{| vol_Name := "tls"; vol_Source := SecretVolumeSource (tlsSecretFor r node)
              [("tls.crt", "tls.crt"); ("tls.key", "tls.key")] |}] else []).

(** The zero status of an object to be created. *)
Definition noPodStatus : PodStatus := {| Phase := ""; PodIP := "" |}.

Definition desiredPodMeta (node : SingBoxNode) (configHash : string) : ObjectMeta :=
  newMeta (GetName node +:+ podSuffix) (GetNamespace node)
    {["app" := "singbox"; "singboxnode" := GetName node]}
    {[configHashAnnotation := desiredPodHash configHash]}.

Definition desiredPodSpec (r : SingBoxNodeReconciler) (node : SingBoxNode) : PodSpec :=
  {| HostNetwork := true; DNSPolicy := "ClusterFirstWithHostNet";
     NodeSelector := {["kubernetes.io/hostname" := ns_NodeRef (node_spec node)]};
     RestartPolicy := "Always";
     Containers := [{| ct_Name := "singbox"; ct_Image := singboxImage r;
                       ct_Args := ["run"; "-c"; "/etc/sing-box/config.json"];
                       ct_VolumeMounts := podVolumeMounts r node;
                       ct_Resources := resourcesOrDefault (ns_Resources (node_spec node)) |}];
     Volumes := podVolumes r node |}.

(** [return v, r.Op(...)] *)
Definition or_error {A} (v : A) (e : option error) : error + A :=
  match e with Some err => inl err | None => inr v end.

Section reconcile.
Context `{ControllerUtil, ConditionLib}.

(** The closure passed to CreateOrUpdate. *)
Definition mutateConfigMap (node : SingBoxNode) (output : Output) (cm : ConfigMap) : error + ConfigMap :=
  match SetControllerReference (node_meta node) (with_annotation configHashAnnotation (Hash output) (cm_meta cm)) with
  | inl err => inl err
  | inr m => inr {| cm_meta := m; cm_Data := {["config.json" := Config output]} |}
  end.

(** A node read from the API has a non-nil annotations map exactly when it has an annotation. *)
Definition reconcileConfigMap (node : SingBoxNode) (output : Output) : prog (option error) :=
  let cm := {| cm_meta := newMeta (GetName node +:+ configMapSuffix) (GetNamespace node) ∅ ∅; cm_Data := ∅ |} in
  let annotations := om_Annotations (node_meta node) in
  let region := ns_Region (node_spec node) in
  _ ← (if bool_decide (annotations ≠ ∅) && (map_index "" annotations configHashAnnotation !=? Hash output)
       then do (MetricInc "singbox_config_updates_total" [region; "config_change"]) else Ret tt);
  op ← do (CreateOrUpdate KConfigMap cm (mutateConfigMap node output));
  match op with
  | inl err => Ret (Some err)
  | inr op =>
    _ ← (if op ==? "updated" then do (MetricInc "singbox_config_updates_total" [region; "config_update"]) else Ret tt);
    Ret None
  end.

Definition reconcilePod (r : SingBoxNodeReconciler) (node : SingBoxNode) (configHash : string) : prog (error + bool) :=
  existing ← do (Get KPod {| nn_Namespace := GetNamespace node; nn_Name := GetName node +:+ podSuffix |});
  match existing with
  | inr existing =>
    if map_index "" (om_Annotations (pod_meta existing)) configHashAnnotation ==? desiredPodHash configHash
    then Ret (inr false)
    else
      delErr ← do (Delete KPod existing);
      match delErr with
      | Some delErr => if IsNotFound delErr then Ret (inr true) else Ret (inl delErr)
      | None => Ret (inr true)
      end
  | inl err =>
    if negb (IsNotFound err) then Ret (inl err)
    else
      match SetControllerReference (node_meta node) (desiredPodMeta node configHash) with
      | inl err => Ret (inl err)
      | inr m =>
        e ← do (Create KPod {| pod_meta := m; pod_spec := desiredPodSpec r node; pod_status := noPodStatus |});
        Ret (or_error false e)
      end
  end.

(** Whether one of the owner references makes the service an orphan of [node]. *)
Definition ownedBy (node : SingBoxNode) (svc : Service) : bool :=
  existsb (λ ref, (or_Kind ref ==? "SingBoxNode") && (or_Name ref ==? GetName node)) (om_OwnerReferences (svc_meta svc)).

Definition deleteOrphanServices (node : SingBoxNode) : prog (error + unit) :=
  svcs ←? do (List KService (InNamespace (GetNamespace node)));
  foldE (λ _ svc,
    if ownedBy node svc then
      e ← do (Delete KService svc);
      match e with
      | Some err => if IsNotFound err then Ret (inr tt)
                    else Ret (inl (wrapErr ("deleting orphan service " +:+ GetName (svc : Service) +:+ ": ") err))
      | None => Ret (inr tt)
      end
    else Ret (inr tt)) tt svcs.

Definition reconcileServices (node : SingBoxNode) : prog (error + bool) :=
  e ← deleteOrphanServices node;
  match e with
  | inl err => Ret (inl (wrapErr "deleting orphan services: " err))
  | inr _ => Ret (inr false)
  end.

(** ** Finalizer, credential and status *)
Definition handleDeletion (node : SingBoxNode) : prog (Result * option error) :=
  if ContainsFinalizer (node_meta node) singboxNodeFinalizer then
    e ← do (Update KSingBoxNode (with_node_meta (RemoveFinalizer (node_meta node) singboxNodeFinalizer) node));
    Ret (noResult, e)
  else Ret (noResult, None).

Definition ensureCredential (node : SingBoxNode) : prog (option error) :=
  if hasRole node ProxyRoleOutbound then
    c ← EnsureNodeCredential node;
    match c with inl err => Ret (Some err) | inr _ => Ret None end
  else Ret None.

Context `{GoStd}.

(** The NodeReady condition for the outcome of reading the Kubernetes Node. *)
Definition nodeReadyCondition (nodeRef : string) (generation : Z) (k8s : error + K8sNode) : Condition :=
  let cond status reason message :=
    {| cond_Type := NodeReadyConditionType; cond_Status := status; cond_Reason := reason; cond_Message := message;
       cond_ObservedGeneration := generation |} in
  let q := "Kubernetes Node " +:+ strconv_Quote nodeRef in
  match k8s with
  | inl _ => cond ConditionFalse "NodeNotFound" (q +:+ " not found")
  | inr k8sNode =>
    if negb (isNodeAvailable k8sNode) then
      if isNodeOfflineAnnotated k8sNode
      then cond ConditionFalse "NodeOffline" (q +:+ " is manually taken offline")
      else cond ConditionFalse "NodeNotReady" (q +:+ " is not ready")
    else cond ConditionTrue "NodeReady" (q +:+ " is ready")
  end.

Definition updateNodeReadyStatus (node : SingBoxNode) : prog (option error) :=
  k8s ← do (Get KNode {| nn_Namespace := ""; nn_Name := ns_NodeRef (node_spec node) |});
  latest ← do (Get KSingBoxNode (keyOf node));
  match latest with
  | inl err => Ret (Some err)
  | inr latest =>
    let cond := nodeReadyCondition (ns_NodeRef (node_spec node)) (om_Generation (node_meta latest)) k8s in
    let st := node_status latest in
    do (StatusUpdate KSingBoxNode (with_node_status (with_node_conditions (SetStatusCondition (nst_Conditions st) cond) st) latest))
  end.

Context `{TLSCerts}.

Fixpoint firstNonEmpty (l : list string) : string :=
  match l with
  | [] => ""
  | s :: l => if s !=? "" then s else firstNonEmpty l
  end.

Definition resolveTLSServerName (r : SingBoxNodeReconciler) (node : SingBoxNode) : prog string :=
  if negb (needsTLS node) then Ret ""
  else if tlsSecretFor r node ==? "" then Ret ""
  else
    secret ← do (Get KSecret {| nn_Namespace := GetNamespace node; nn_Name := tlsSecretFor r node |});
    match secret with
    | inl _ => Ret ""
    | inr secret =>
      let certPEM := map_index "" (Data secret) "tls.crt" in
      if certPEM ==? "" then Ret ""
      else match pem_Decode certPEM with
           | None => Ret ""
           | Some block => match x509_DNSNames block with
                           | None => Ret ""
                           | Some names => Ret (firstNonEmpty names)
                           end
           end
    end.

(** fmt.Sprintf("%s:%s:%d", proto.Protocol, address, proto.Port) *)
Definition entryEndpoint (address : string) (p : ProtocolConfig) : string :=
  pc_Protocol p +:+ ":" +:+ address +:+ ":" +:+ fmt_d (pc_Port p).

Definition runningStatus (latest : SingBoxNode) (configHash serverName : string) : SingBoxNodeStatus :=
  let spec := node_spec latest in
  let generation := om_Generation (node_meta latest) in
  {| nst_Phase := "Running"; nst_ConfigHash := configHash;
     nst_EntryEndpoints := entryEndpoint (ns_Address spec) <$> ns_SupportedProtocols spec;
     nst_TLSServerName := serverName;
     nst_Conditions := SetStatusCondition (nst_Conditions (node_status latest))
       {| cond_Type := "Ready"; cond_Status := ConditionTrue; cond_Reason := "Reconciled";
          cond_Message := "SingBoxNode reconciled successfully"; cond_ObservedGeneration := generation |};
     nst_ObservedGeneration := generation |}.

Definition updateStatus (r : SingBoxNodeReconciler) (node : SingBoxNode) (configHash : string)
    : prog (Result * option error) :=
  latest ← do (Get KSingBoxNode (keyOf node));
  match latest with
  | inl err => Ret (noResult, Some err)
  | inr latest =>
    serverName ← resolveTLSServerName r latest;
    e ← do (StatusUpdate KSingBoxNode (with_node_status (runningStatus latest configHash serverName) latest));
    match e with
    | Some err => Ret (noResult, Some err)
    | None =>
      _ ← foldM (λ _ role, do (MetricSet "singbox_proxy_nodes_total" [ns_Region (node_spec latest); role; "Running"] 1)) tt
            (ns_Roles (node_spec latest));
      Ret (noResult, None)
    end
  end.

Definition setDegraded (node : SingBoxNode) (reason message : string) : prog (Result * option error) :=
  latest ← do (Get KSingBoxNode (keyOf node));
  match latest with
  | inl err => Ret (noResult, Some err)
  | inr latest =>
    let st := node_status latest in
    let conds := SetStatusCondition (nst_Conditions st)
      {| cond_Type := "Degraded"; cond_Status := ConditionTrue; cond_Reason := reason; cond_Message := message;
         cond_ObservedGeneration := om_Generation (node_meta latest) |} in
    e ← do (StatusUpdate KSingBoxNode (with_node_status
              {| nst_Phase := "Failed"; nst_ConfigHash := nst_ConfigHash st; nst_EntryEndpoints := nst_EntryEndpoints st;
                 nst_TLSServerName := nst_TLSServerName st; nst_Conditions := conds;
                 nst_ObservedGeneration := nst_ObservedGeneration st |} latest));
    match e with
    | Some err => Ret (noResult, Some err)
    | None => Ret (noResult, Some (Errorf (reason +:+ ": " +:+ message)))
    end
  end.

(** ** Reconcile *)

(** The deferred function of every Reconcile: [reconcileErr] selects the result label. *)
Definition withMetrics (controller : string) (body : prog (option error * (Result * option error)))
    : prog (Result * option error) :=
  out ← body;
  let '(reconcileErr, res) := out in
  _ ← (if reconcileErr is Some _ then do (MetricInc "singbox_reconcile_errors_total" [controller; "reconcile_error"]) else Ret tt);
  _ ← do (MetricObserveDuration "singbox_reconcile_duration_seconds"
            [controller; if reconcileErr is Some _ then "error" else "success"]);
  Ret res.

(** [reconcileErr = err; return ctrl.Result{}, err] *)
Definition failWith (err : error) : prog (option error * (Result * option error)) :=
  Ret (Some err, (noResult, Some err)).

(** Returning another function's results without touching reconcileErr. *)
Definition passOn (p : prog (Result * option error)) : prog (option error * (Result * option error)) :=
  res ← p; Ret (None, res).

Context `{LabelSelectors, MapRange}.

(** configengine.Compute as the controller sees it: encoding cannot fail (see Engine.Compute). *)
Definition computeResult (input : Input) : error + Output := inr (Compute input).

(** From the computed output on: ConfigMap, Pod, Services, status. *)
Definition applyOutput (r : SingBoxNodeReconciler) (node : SingBoxNode) (output : Output)
    : prog (option error * (Result * option error)) :=
  e ← reconcileConfigMap node output;
  match e with
  | Some err => failWith err
  | None =>
    pod ← reconcilePod r node (Hash output);
    match pod with
    | inl err => failWith err
    | inr true => Ret (None, ({| Requeue := false; RequeueAfter := 3 |}, None))
    | inr false =>
      svc ← reconcileServices node;
      match svc with
      | inl err => failWith err
      | inr true => Ret (None, ({| Requeue := true; RequeueAfter := 0 |}, None))
      | inr false => passOn (updateStatus r node (Hash output))
      end
    end
  end.

(** From the finalizer check on, for a node that is not being deleted and has its finalizer. *)
Definition reconcileLive (r : SingBoxNodeReconciler) (node : SingBoxNode)
    : prog (option error * (Result * option error)) :=
  _ ← updateNodeReadyStatus node;
  e ← ensureCredential node;
  match e with
  | Some err => failWith err
  | None =>
    input ← collectInput r node;
    match input with
    | inl err => failWith err
    | inr input =>
      match computeResult input with
      | inl err => res ← setDegraded node "ConfigComputeFailed" (Error err); Ret (Some err, res)
      | inr output => applyOutput r node output
      end
    end
  end.

Definition Reconcile (r : SingBoxNodeReconciler) (req : NamespacedName) : prog (Result * option error) :=
  withMetrics "singboxnode" (
    node ← do (Get KSingBoxNode req);
    match node with
    | inl err => if IsNotFound err then Ret (None, (noResult, None)) else failWith err
    | inr node =>
      if om_DeletionTimestamp (node_meta node) is Some _ then passOn (handleDeletion node)
      else if negb (ContainsFinalizer (node_meta node) singboxNodeFinalizer) then
        e ← do (Update KSingBoxNode (with_node_meta (AddFinalizer (node_meta node) singboxNodeFinalizer) node));
        match e with
        | Some err => failWith err
        | None => Ret (None, ({| Requeue := true; RequeueAfter := 0 |}, None))
        end
      else reconcileLive r node
    end).
End reconcile.

(** ** Watch mappers *)

(** client.Object: an object of some kind; a mapper's type assertion is a match on it. *)
Definition anyObj : Type := {k : kind & obj k}.

(** Lists [kind k] in [ns]; a failed List yields no requests. *)
Definition listOrNil (k : kind) (opt : listOption) : prog (list (obj k)) :=
  l ← do (List k opt);
  match l with inl _ => Ret [] | inr l => Ret l end.

Definition sameRegionNodeMapper (o : anyObj) : prog (list NamespacedName) :=
  match o with
  | existT KSingBoxNode changedNode =>
    allNodes ← listOrNil KSingBoxNode (InNamespace (GetNamespace (changedNode : SingBoxNode)));
    Ret (keyOf <$> filter (λ n : SingBoxNode, GetName n ≠ GetName (changedNode : SingBoxNode) ∧
                     ns_Region (node_spec n) = ns_Region (node_spec changedNode)) (allNodes : list SingBoxNode))
  | _ => Ret []
  end.

Definition inboundKeys (nodes : list SingBoxNode) : list NamespacedName :=
  keyOf <$> filter (λ n, hasRole n ProxyRoleInbound = true) nodes.

Definition matchingProtocolNodeMapper (o : anyObj) : prog (list NamespacedName) :=
  match o with
  | existT KUser user =>
    allNodes ← listOrNil KSingBoxNode (InNamespace (GetNamespace (user : User)));
    Ret (inboundKeys allNodes)
  | _ => Ret []
  end.

Definition usersInGroupToNodesMapper (o : anyObj) : prog (list NamespacedName) :=
  match o with
  | existT KUserGroup userGroup =>
    let ns := GetNamespace (userGroup : UserGroup) in
    users ← do (List KUser (InNamespace ns));
    match users with
    | inl _ => Ret []
    | inr users =>
      allNodes ← listOrNil KSingBoxNode (InNamespace ns);
      let members := filter (λ u : User, us_UserGroupRef (user_spec u) = GetName (userGroup : UserGroup)) (users : list User) in
      Ret (foldl (λ st _, foldl push_new st (inboundKeys allNodes)) (∅, []) members).2
    end
  | _ => Ret []
  end.

Section mappers.
Context `{LabelSelectors}.

Definition egressPolicyMapper (o : anyObj) : prog (list NamespacedName) :=
  match o with
  | existT KEgressPolicy policy =>
    allNodes ← listOrNil KSingBoxNode (InNamespace (GetNamespace (policy : EgressPolicy)));
    Ret (keyOf <$> filter (λ n : SingBoxNode, hasRole n ProxyRoleInbound &&
           EgressPolicySelector_Matches (ps_IngressSelector (policy_spec policy)) n = true) (allNodes : list SingBoxNode))
  | _ => Ret []
  end.

(** Whether a change of the ExternalOutbound can change the configuration of [node]. *)
Definition affectedBy (eobRegion : string) (eob : option ExternalOutbound) (policies : list EgressPolicy)
    (node : SingBoxNode) : bool :=
  hasRole node ProxyRoleInbound &&
  ((eobRegion !=? "") && (ns_Region (node_spec node) ==? eobRegion) ||
   match eob with
   | Some eob =>
     existsb (λ policy, (ps_Action (policy_spec policy) ==? EgressPolicyActionRoute) &&
                        EgressPolicySelector_Matches (ps_IngressSelector (policy_spec policy)) node &&
                        EgressPolicySelector_Matches (ps_EgressSelector (policy_spec policy)) eob) policies
   | None => false
   end).

Definition inboundsAffectedByExternalOutbound (namespace eobName eobRegion : string) : prog (list NamespacedName) :=
  nodes ← do (List KSingBoxNode (InNamespace namespace));
  match nodes with
  | inl _ => Ret []
  | inr nodes =>
    exts ← do (List KExternalOutbound (InNamespace namespace));
    match exts with
    | inl _ => Ret []
    | inr exts =>
      policies ← do (List KEgressPolicy (InNamespace namespace));
      match policies with
      | inl _ => Ret []
      | inr policies =>
        let eob := findExternalOutbound exts eobName in
        let st := foldl (λ st (node : SingBoxNode),
          if affectedBy eobRegion eob policies node && bool_decide (GetName node ∉ st.1)
          then ({[GetName node]} ∪ st.1, st.2 ++ [keyOf node]) else st) (∅ : gset string, []) (nodes : list SingBoxNode) in
        Ret st.2
      end
    end
  end.

Definition externalOutboundMapper (o : anyObj) : prog (list NamespacedName) :=
  match o with
  | existT KExternalOutbound eob =>
    let eob : ExternalOutbound := eob in
    inboundsAffectedByExternalOutbound (GetNamespace eob) (GetName eob) (es_Region (eob_spec eob))
  | _ => Ret []
  end.

Definition externalCredentialSecretMapper (o : anyObj) : prog (list NamespacedName) :=
  match o with
  | existT KSecret secret =>
    let secret : Secret := secret in
    exts ← listOrNil KExternalOutbound (InNamespace (GetNamespace secret));
    st ← foldM (λ st (eob : ExternalOutbound),
           if bool_decide (es_CredentialsSecretRef (eob_spec eob) ≠ Some (GetName secret)) then Ret st
           else
             reqs ← inboundsAffectedByExternalOutbound (GetNamespace eob) (GetName eob) (es_Region (eob_spec eob));
             Ret (foldl push_new st reqs)) (∅, []) (exts : list ExternalOutbound);
    Ret st.2
  | _ => Ret []
  end.

Definition nodeToSingBoxNodesMapper (o : anyObj) : prog (list NamespacedName) :=
  match o with
  | existT KNode k8sNode =>
    sbns ← listOrNil KSingBoxNode (MatchingFields "spec.nodeRef" (GetName (k8sNode : K8sNode)));
    Ret (keyOf <$> (sbns : list SingBoxNode))
  | _ => Ret []
  end.
End mappers.
