(* ===== verification/SampleCluster.v ===== *)
(** * SampleCluster: a concrete API server for the controllers' witnesses

    One choice of the library parameters (conditions, finalizers, owner
    references, certificates) and a server that answers every call from a small
    fixed cluster: an inbound node, a relay, an external proxy, two users, a
    group and a policy. *)

From S2P Require Import Prelude GoStrings Json Api Engine Samples K8s CredManager NodeController.

(** ** Library parameters *)
Fixpoint set_condition (cs : list Condition) (c : Condition) : list Condition :=
  match cs with
  | [] => [c]
  | c' :: cs => if cond_Type c' ==? cond_Type c then c :: cs else c' :: set_condition cs c
  end.

#[export] Program Instance sample_conditions : ConditionLib := {| SetStatusCondition := set_condition |}.
Next Obligation.
  intros cs c. induction cs as [|c' cs IH]; simpl; [by rewrite findCondition_cons, decide_True|].
  case_bool_decide; rewrite findCondition_cons; [by rewrite decide_True|by rewrite decide_False].
Qed.
Next Obligation.
  intros cs c t Ht. induction cs as [|c' cs IH]; simpl; [by rewrite findCondition_cons, decide_False by done|].
  case_bool_decide as Heq; rewrite !findCondition_cons; [|by rewrite IH]. rewrite !decide_False; congruence.
Qed.

Definition with_finalizers (fs : list string) (m : ObjectMeta) : ObjectMeta :=
  {| om_Name := om_Name m; om_Namespace := om_Namespace m; om_Labels := om_Labels m; om_Annotations := om_Annotations m;
     om_Generation := om_Generation m; om_Finalizers := fs; om_DeletionTimestamp := om_DeletionTimestamp m;
     om_OwnerReferences := om_OwnerReferences m |}.

#[export] Instance OwnerReference_eq : EqDecision OwnerReference.
Proof. solve_decision. Defined.

Definition with_owner (r : OwnerReference) (m : ObjectMeta) : ObjectMeta :=
  {| om_Name := om_Name m; om_Namespace := om_Namespace m; om_Labels := om_Labels m; om_Annotations := om_Annotations m;
     om_Generation := om_Generation m; om_Finalizers := om_Finalizers m; om_DeletionTimestamp := om_DeletionTimestamp m;
     om_OwnerReferences := if slices_Contains (om_OwnerReferences m) r then om_OwnerReferences m else r :: om_OwnerReferences m |}.

#[export] Program Instance sample_controllerutil : ControllerUtil := {|
  ContainsFinalizer m f := slices_Contains (om_Finalizers m) f;
  AddFinalizer m f := with_finalizers (f :: om_Finalizers m) m;
  RemoveFinalizer m f := with_finalizers (filter (λ g, g ≠ f) (om_Finalizers m)) m;
  SetControllerReference owner m := inr (with_owner {| or_Kind := "SingBoxNode"; or_Name := om_Name owner |} m);
|}.
Next Obligation. intros. apply slices_Contains_true. left. Qed.
Next Obligation. intros. apply slices_Contains_false. simpl. rewrite list_elem_of_filter. tauto. Qed.
Next Obligation. by intros owner m m' [= <-]. Qed.

#[export] Instance sample_certs : TLSCerts := {| pem_Decode s := Some s; x509_DNSNames s := Some [""; s] |}.

(** ** The cluster *)
Definition notFound : error := {| IsNotFound := true; IsConflict := false; Error := "not found" |}.

Definition sample_node : SingBoxNode :=
  with_node_meta (with_finalizers [singboxNodeFinalizer] (mkMeta "in1")) (mkNode "in1" [ProxyRoleInbound] 0 []).

(** The same node before the operator saw it. *)
Definition sample_new_node : SingBoxNode := mkNode "in1" [ProxyRoleInbound] 0 [].

Definition sample_ext : ExternalOutbound :=
  let e := mkExternal "ext1" ExternalProtocolSocks5 None in
  {| eob_meta := eob_meta e; eob_spec :=
       {| es_Protocol := ExternalProtocolSocks5; es_Server := "203.0.113.9"; es_Port := 8443; es_CredentialsSecretRef := None;
          es_TLS := None; es_Hysteria2 := None; es_Region := "jp"; es_ClientGroups := []; es_AllowedInbounds := [] |};
     eob_status := eob_status e |}.

Definition sample_group : UserGroup :=
  {| ug_meta := mkMeta "g"; ug_spec := {| ugs_AllowedNodes := []; ugs_DeniedNodes := ["out1"] |} |}.

Definition sample_secret : Secret :=
  {| secret_meta := mkMeta "s"; Data := {["uuid" := sample_uuid; "username" := "relay"; "password" := "s3cret"]} |}.

Definition sample_policy : EgressPolicy := mkPolicy "p1" EgressPolicyActionRoute 10 ["out1"].

Definition sample_k8s_node : K8sNode :=
  {| kn_meta := mkMeta "in1"; kn_Conditions := [{| nc_Type := "Ready"; nc_Status := "True" |}] |}.

(** The answers, when reading the node returns [node]. *)
Definition sample_answer (node : SingBoxNode) (c : call) : answer c :=
  match c with
  | Get k _ =>
    match k with
    | KSingBoxNode => inr node | KUser => inr (mkUser "bob" "g") | KUserGroup => inr sample_group
    | KEgressPolicy => inr sample_policy | KExternalOutbound => inr sample_ext | KSecret => inr sample_secret
    | KConfigMap => inl notFound | KPod => inl notFound | KService => inl notFound | KNode => inr sample_k8s_node
    end
  | List k _ =>
    match k with
    | KSingBoxNode => inr [sample_out; node] | KUser => inr [mkUser "bob" "g"; mkUser "alice" ""]
    | KEgressPolicy => inr [sample_policy] | KExternalOutbound => inr [sample_ext] | _ => inr []
    end
  | Create _ _ | Update _ _ | StatusUpdate _ _ | Patch _ _ _ | Delete _ _ => None
  | CreateOrUpdate _ _ _ => inr "created"
  | NowText _ => "20260101T000000Z"
  | RandRead n => (replicate n 7%Z, None)
  | MetricInc _ _ | MetricSet _ _ _ | MetricObserveDuration _ _ => tt
  end.

Definition sample_server (node : SingBoxNode) : server :=
  {| srv_state := unit; srv_step s c := (sample_answer node c, s) |}.

Definition sample_reconciler : SingBoxNodeReconciler :=
  {| r_DefaultTLSSecret := "tls"; r_SingBoxImage := ""; r_UsageCollectionEnabled := true; r_V2RayAPIListenAddr := "" |}.

Definition sample_req : NamespacedName := {| nn_Namespace := "proxy"; nn_Name := "in1" |}.

(** The input that collectInput returns for the sample cluster. *)
Definition sample_collected : Input :=
  match result (sample_server sample_node) tt (collectInput sample_reconciler sample_node) with
  | inr input => input
  | inl _ => sample_input
  end.
