(* ===== verification/NodeProps.v ===== *)
(** * NodeProps: guarantees of the SingBoxNode reconciler *)

From S2P Require Import Prelude GoStrings Crypto Json Api Engine EngineFacts Samples EngineProps K8s CredManager NodeController SampleCluster.

(** ** Pods *)
Definition podKey (node : SingBoxNode) : NamespacedName :=
  {| nn_Namespace := GetNamespace node; nn_Name := GetName node +:+ podSuffix |}.

Definition podHash (p : Pod) : string := map_index "" (om_Annotations (pod_meta p)) configHashAnnotation.

(** What one pass over the node's pod may do: keep it, delete it, create it, or stop on an error. *)
Inductive podStep (node : SingBoxNode) (hash : string) : list event → error + bool → Prop :=
  | pod_kept p :
      podHash p = desiredPodHash hash →
      podStep node hash [Ev (Get KPod (podKey node)) (inr p)] (inr false)
  | pod_deleted p a res :
      podHash p ≠ desiredPodHash hash →
      res = match a with Some e => if IsNotFound e then inr true else inl e | None => inr true end →
      podStep node hash [Ev (Get KPod (podKey node)) (inr p); Ev (Delete KPod p) a] res
  | pod_created e p a :
      IsNotFound e = true → keyOf p = podKey node → podHash p = desiredPodHash hash →
      podStep node hash [Ev (Get KPod (podKey node)) (inl e); Ev (Create KPod p) a] (or_error false a)
  | pod_failed e err :
      podStep node hash [Ev (Get KPod (podKey node)) (inl e)] (inl err).

Lemma reconcilePod_step `{ControllerUtil} r node hash :
  wp (λ _, True) (reconcilePod r node hash) [] (podStep node hash).
Proof.
  unfold reconcilePod. simpl. intros [e|p] _; simpl.
  - destruct (IsNotFound e) eqn:Hnf; simpl; [|constructor].
    destruct (SetControllerReference _ _) as [err|m] eqn:Href; simpl; [constructor|].
    destruct (ref_key _ _ _ Href) as (Hn & Hns & _ & Ha). intros a _. constructor; [done|..].
    + unfold keyOf, GetName, GetNamespace, meta, Pod_meta. simpl. by rewrite Hn, Hns.
    + unfold podHash. simpl. rewrite Ha. unfold desiredPodMeta, newMeta, map_index. simpl. by rewrite lookup_singleton_eq.
  - case_bool_decide; simpl; [by constructor|]. intros [e|] _; simpl; [destruct (IsNotFound e) eqn:Hnf; simpl|];
      econstructor; rewrite ?Hnf; done.
Qed.

(** Pod rollout: against any API server, one pass either keeps a pod
    whose annotation already has the desired hash, or deletes a pod with
    another hash and asks for a requeue, or creates a pod with the desired hash
    after the server reported none; it never deletes and creates in one pass. *)
Theorem reconcilePod_rollout `{ControllerUtil} sv s r node hash :
  let tr := trace sv s (reconcilePod r node hash) in
  let res := result sv s (reconcilePod r node hash) in
  podStep node hash tr res ∧
  (omap (ev_create KPod) tr = [] ∨ omap (ev_delete KPod) tr = []) ∧
  (res = inr true → omap (ev_delete KPod) tr ≠ [] ∧ omap (ev_create KPod) tr = []).
Proof.
  assert (podStep node hash (trace sv s (reconcilePod r node hash)) (result sv s (reconcilePod r node hash))) as Hstep
    by apply (wp_run _ _ sv s (reconcilePod_step r node hash)).
  split; [done|]. destruct Hstep as [p Hh|p a res Hh ->|e p a|e err]; cbn; autorewrite with go; cbn.
  all: repeat split; auto; try (by intros [=]); by destruct a.
Qed.

(** ** collectInput as a function of what it read *)

(** The SingBoxNodes that become peers of [node]. *)
Definition peerEligible (node n : SingBoxNode) : bool :=
  (GetName n !=? GetName node) && (ns_Region (node_spec n) ==? ns_Region (node_spec node)) &&
  hasRole n ProxyRoleOutbound && listAllows (ns_AllowedInbounds (node_spec n)) (GetName node) &&
  listAllows (ns_AllowedOutbounds (node_spec node)) (GetName n).

(** The region and allow-list conditions on an ExternalOutbound. *)
Definition externalReachable (node : SingBoxNode) (e : ExternalOutbound) : bool :=
  (es_Region (eob_spec e) !=? "") && (es_Region (eob_spec e) ==? ns_Region (node_spec node)) &&
  listAllows (es_AllowedInbounds (eob_spec e)) (GetName node) &&
  listAllows (ns_AllowedOutbounds (node_spec node)) (GetName e).

Definition index_by_name {A} `{HasMeta A} (m : gmap string A) (l : list A) : gmap string A :=
  foldl (λ m x, <[GetName x := x]> m) m l.

Lemma wp_loadNodeCredential ok name ns input tr Q :
  (∀ tr creds, Q tr (upd_nodes input (OutboundNodes input) (OutboundNodesByName input) creds)) →
  wp ok (loadNodeCredential name ns input) tr Q.
Proof.
  intros HQ. unfold loadNodeCredential, GetNodeCredential. simpl. intros [e|s] _; simpl; [|done].
  specialize (HQ (tr ++ [Ev (Get KSecret {| nn_Namespace := ns; nn_Name := secretName name |}) (inl e)]) (NodeCreds input)). by destruct input.
Qed.

Lemma wp_loadExternalCredential ok eob input tr Q :
  (∀ tr creds, Q tr (upd_externals input (ExternalOutbounds input) (ExternalOutboundsByName input) creds)) →
  wp ok (loadExternalCredential eob input) tr Q.
Proof.
  intros HQ. unfold loadExternalCredential, GetExternalCredentials. destruct (es_CredentialsSecretRef _) as [ref|]; simpl; [|done].
  intros [e|s] _; simpl; [|done].
  specialize (HQ (tr ++ [Ev (Get KSecret {| nn_Namespace := GetNamespace eob; nn_Name := ref |}) (inl e)]) (ExternalCreds input)). by destruct input.
Qed.

Lemma collectPeer_eligible node input n :
  collectPeer node input n =
  if peerEligible node n
  then loadNodeCredential (GetName n) (GetNamespace node)
         (upd_nodes input (OutboundNodes input ++ [n]) (<[GetName n := n]> (OutboundNodesByName input)) (NodeCreds input))
  else Ret input.
Proof.
  unfold collectPeer, peerEligible. destruct (_ ==? _), (ns_Region _ ==? _), (hasRole n _), (listAllows _ _), (listAllows _ (GetName n)); done.
Qed.

Lemma collectExternal_eligible node names input e :
  collectExternal node names input e =
  if bool_decide (GetName e ∉ names) && externalReachable node e
  then loadExternalCredential e
         (upd_externals input (ExternalOutbounds input ++ [Some e]) (<[GetName e := e]> (ExternalOutboundsByName input)) (ExternalCreds input))
  else Ret input.
Proof.
  unfold collectExternal, externalReachable. rewrite bool_decide_not.
  destruct (bool_decide (GetName e ∈ names)), (_ ==? ""), (es_Region _ ==? ns_Region _), (listAllows _ _), (listAllows _ (GetName e)); done.
Qed.

Lemma wp_collectPeers ok node l input tr :
  wp ok (foldM (collectPeer node) input l) tr (λ _ input', ∃ creds,
    let peers := filter (λ n, peerEligible node n = true) l in
    input' = upd_nodes input (OutboundNodes input ++ peers) (index_by_name (OutboundNodesByName input) peers) creds).
Proof.
  revert input tr. induction l as [|n l IH]; intros input tr; simpl.
  - exists (NodeCreds input). rewrite app_nil_r. by destruct input.
  - apply wp_bind. rewrite filter_cons, collectPeer_eligible.
    destruct (peerEligible node n); [rewrite decide_True by done|by apply IH].
    apply wp_loadNodeCredential. intros tr' creds. eapply wp_mono; [|apply IH].
    simpl. intros _ input' [creds' ->]. exists creds'. by rewrite <-app_assoc.
Qed.

Lemma wp_collectExternals ok node names l input tr :
  wp ok (foldM (collectExternal node names) input l) tr (λ _ input', ∃ creds,
    let exts := filter (λ e, bool_decide (GetName e ∉ names) && externalReachable node e = true) l in
    input' = upd_externals input (ExternalOutbounds input ++ (Some <$> exts))
               (index_by_name (ExternalOutboundsByName input) exts) creds).
Proof.
  revert input tr. induction l as [|e l IH]; intros input tr; simpl.
  - exists (ExternalCreds input). rewrite app_nil_r. by destruct input.
  - apply wp_bind. rewrite filter_cons, collectExternal_eligible.
    destruct (_ && _); [rewrite decide_True by done|by apply IH].
    apply wp_loadExternalCredential. intros tr' creds. eapply wp_mono; [|apply IH].
    simpl. intros _ input' [creds' ->]. exists creds'. by rewrite <-app_assoc.
Qed.

(** ** Group permissions *)
Lemma lookup_nameSet l n : nameSet l !! n = if bool_decide (n ∈ l) then Some true else None.
Proof.
  unfold nameSet. assert (∀ m : gmap string bool, foldl (λ m n, <[n := true]> m) m l !! n =
    if bool_decide (n ∈ l) then Some true else m !! n) as ->; [|done].
  induction l as [|x l IH]; intros m; simpl; [done|]. rewrite IH.
  destruct (decide (n ∈ l)); [rewrite !bool_decide_eq_true_2 by set_solver; done|].
  rewrite (bool_decide_eq_false_2 (n ∈ l)) by done.
  destruct (decide (n = x)) as [->|]; [rewrite lookup_insert_eq, bool_decide_eq_true_2 by set_solver; done|].
  rewrite lookup_insert_ne, bool_decide_eq_false_2 by set_solver. done.
Qed.

Lemma nameSet_size l : size (nameSet l) = 0 ↔ l = [].
Proof.
  rewrite map_size_empty_iff. split; [|by intros ->]. intros Hm. destruct l as [|x l]; [done|].
  pose proof (lookup_nameSet (x :: l) x) as Hx. rewrite Hm, lookup_empty, bool_decide_eq_true_2 in Hx by left. done.
Qed.

(** Deny wins; an empty allow-list allows every target. *)
Lemma IsNodeAllowed_nameSet t allowed denied :
  IsNodeAllowed t (nameSet allowed) (nameSet denied) = true ↔ (t ∉ denied) ∧ (allowed = [] ∨ t ∈ allowed).
Proof.
  unfold IsNodeAllowed, map_index. rewrite !lookup_nameSet, <-nameSet_size.
  destruct (decide (t ∈ denied)); [rewrite (bool_decide_eq_true_2 (t ∈ denied)) by done; simpl; naive_solver|].
  rewrite (bool_decide_eq_false_2 (t ∈ denied)) by done. simpl.
  case_bool_decide; [naive_solver|]. case_bool_decide; simpl; naive_solver.
Qed.

Definition groupKey (node : SingBoxNode) (user : User) : NamespacedName :=
  {| nn_Namespace := GetNamespace node; nn_Name := us_UserGroupRef (user_spec user) |}.

(** The exit targets that [input] permits [user] are those of the group read in [tr], or all of
    them when the user has no group or the group was reported absent. *)
Definition userPermission (node : SingBoxNode) (tr : list event) (input : Input) (user : User) : Prop :=
  ((us_UserGroupRef (user_spec user) = "" ∨
    ∃ e, Ev (Get KUserGroup (groupKey node user)) (inl e) ∈ tr ∧ IsNotFound e = true) ∧
   ∀ t, userAllowed input t (GetName user) = true) ∨
  (∃ ug, Ev (Get KUserGroup (groupKey node user)) (inr ug) ∈ tr ∧
   ∀ t, userAllowed input t (GetName user) = true ↔
        (t ∉ ugs_DeniedNodes (ug_spec ug)) ∧ (ugs_AllowedNodes (ug_spec ug) = [] ∨ t ∈ ugs_AllowedNodes (ug_spec ug))).

(** Permissions of [user] are unaffected by later reads and by entries for other names. *)
Lemma userPermission_frame node tr tr' input input' user :
  (∀ e, e ∈ tr → e ∈ tr') →
  (∀ t, userAllowed input' t (GetName user) = userAllowed input t (GetName user)) →
  userPermission node tr input user → userPermission node tr' input' user.
Proof.
  intros Htr Heq [[[Hr|(e & He & Hnf)] Hp]|(ug & Hug & Hp)].
  - left. split; [by left|]. intros. by rewrite Heq.
  - left. split; [right; eauto|]. intros. by rewrite Heq.
  - right. exists ug. split; [auto|]. intros. by rewrite Heq.
Qed.

Definition usersInv (node : SingBoxNode) (tr : list event) (input : Input) : Prop :=
  Forall (userPermission node tr input) (Users input) ∧
  ∀ n, n ∉ GetName <$> Users input → UserNodeRestrictions input !! n = None ∧ UserNodeAllowlist input !! n = None.

(** Appending a user with the entries [restr]/[allow] changed at most at its own name. *)
Lemma usersInv_push node tr tr' input user creds restr allow :
  usersInv node tr input → GetName user ∉ GetName <$> Users input → (∀ e, e ∈ tr → e ∈ tr') →
  (∀ n, n ≠ GetName user → restr !! n = UserNodeRestrictions input !! n ∧ allow !! n = UserNodeAllowlist input !! n) →
  userPermission node tr' (upd_users input (Users input ++ [user]) creds restr allow) user →
  usersInv node tr' (upd_users input (Users input ++ [user]) creds restr allow).
Proof.
  intros [HF Hnone] Hnew Htr Hframe Hu. split; simpl.
  - apply Forall_app. split; [|by constructor]. rewrite Forall_forall in HF |- *. intros u Hin.
    eapply userPermission_frame; [done| |by apply HF]. intros t.
    assert (GetName u ≠ GetName user) as Hne by (intros Heq; apply Hnew; rewrite <-Heq; by apply list_elem_of_fmap_2).
    unfold userAllowed, map_index. simpl. by destruct (Hframe _ Hne) as [-> ->].
  - intros n Hn. rewrite fmap_app, not_elem_of_app in Hn. destruct Hn as [Hn1 Hn2].
    assert (n ≠ GetName user) as Hne by set_solver. destruct (Hframe _ Hne) as [-> ->]. by apply Hnone.
Qed.

Lemma userAllowed_free input (user : User) t :
  UserNodeRestrictions input !! GetName user = None → UserNodeAllowlist input !! GetName user = None →
  userAllowed input t (GetName user) = true.
Proof. intros Hr Ha. unfold userAllowed, map_index. by rewrite Hr, Ha. Qed.

(** Adding a user without a group. *)
Lemma wp_addFreeUser ok node user input tr Q :
  usersInv node tr input → GetName user ∉ GetName <$> Users input →
  (us_UserGroupRef (user_spec user) = "" ∨
   ∃ e, Ev (Get KUserGroup (groupKey node user)) (inl e) ∈ tr ∧ IsNotFound e = true) →
  (∀ tr creds, usersInv node tr (upd_users input (Users input ++ [user]) creds (UserNodeRestrictions input) (UserNodeAllowlist input)) →
     Q tr (inr (upd_users input (Users input ++ [user]) creds (UserNodeRestrictions input) (UserNodeAllowlist input)))) →
  wp ok (prog_bind (λ input, Ret (inr (A := error) input)) (addUser user input)) tr Q.
Proof.
  intros Hinv Hnew Hfree HQ. apply wp_bind.
  assert (∀ tr' creds, (∀ e, e ∈ tr → e ∈ tr') →
    usersInv node tr' (upd_users input (Users input ++ [user]) creds (UserNodeRestrictions input) (UserNodeAllowlist input))) as Hpush.
  { intros tr' creds Htr. eapply usersInv_push; [done..|]. left.
    destruct Hinv as [_ Hnone]. destruct (Hnone _ Hnew). split; [|intros; by apply userAllowed_free].
    destruct Hfree as [?|(e & ? & ?)]; eauto. }
  unfold addUser, GetUserCredential. simpl. intros [e|s] _; simpl; apply HQ, Hpush; set_solver.
Qed.

Lemma upd_users_twice input u c r a u' c' r' a' : upd_users (upd_users input u c r a) u' c' r' a' = upd_users input u' c' r' a'.
Proof. done. Qed.

Lemma wp_collectUser ok node user input tr :
  usersInv node tr input → GetName user ∉ GetName <$> Users input →
  wp ok (collectUser node input user) tr (λ tr' r, if r is inr input' then
    usersInv node tr' input' ∧
    ∃ creds restr allow, input' = upd_users input (Users input ++ [user]) creds restr allow else True).
Proof.
  intros Hinv Hnew. unfold collectUser. case_bool_decide as Href.
  { eapply wp_addFreeUser; [done..|by left|]. eauto 10. }
  fold (groupKey node user). simpl. intros [e|ug] _; simpl.
  { destruct (IsNotFound e) eqn:Hnf; simpl; [|done]. eapply wp_addFreeUser; [|done| |].
    - destruct Hinv as [HF Hn]. split; [|done]. eapply Forall_impl; [done|]. intros u.
      apply userPermission_frame; [set_solver|done].
    - right. exists e. set_solver.
    - eauto 10. }
  unfold addUser, GetUserCredential. simpl.
  set (ev := Ev (Get KUserGroup (groupKey node user)) (inr ug)).
  intros c _. destruct c as [ce|cs]; simpl; rewrite upd_users_twice.
  all: split; [|eauto 10]; eapply usersInv_push; [done|done|set_solver| |].
  all: try (intros n Hn; rewrite lookup_insert_ne by done; split; [done|]; case_bool_decide; by rewrite ?lookup_insert_ne).
  all: right; exists ug; split; [set_solver|]; intros t; rewrite <-IsNodeAllowed_nameSet; unfold userAllowed, map_index; simpl;
    rewrite lookup_insert_eq; simpl; case_bool_decide as Hs; rewrite ?lookup_insert_eq; simpl; [|done].
  all: destruct Hinv as [_ Hnone]; destruct (Hnone _ Hnew) as [_ ->]; simpl.
  all: by apply map_size_empty_iff in Hs; rewrite Hs.
Qed.

Lemma wp_collectUsers ok node l input tr :
  usersInv node tr input → NoDup (GetName <$> (Users input ++ l)) →
  wp ok (foldE (collectUser node) input l) tr (λ tr' r, if r is inr input' then
    usersInv node tr' input' ∧ ∃ creds restr allow, input' = upd_users input (Users input ++ l) creds restr allow else True).
Proof.
  revert input tr. induction l as [|u l IH]; intros input tr Hinv Hnd; simpl.
  { split; [done|]. rewrite app_nil_r. exists (UserCreds input), (UserNodeRestrictions input), (UserNodeAllowlist input). by destruct input. }
  apply wp_bind. eapply wp_mono; [|apply wp_collectUser; [done|]].
  2: { rewrite fmap_app, fmap_cons, NoDup_app in Hnd. destruct Hnd as (_ & Hd & _). intros Hin. apply (Hd _ Hin). left. }
  intros tr' [e|input'] HQ; [done|]. simpl in HQ. destruct HQ as (Hinv' & creds & restr & allow & ->).
  eapply wp_mono; [|apply IH; [done|]].
  - simpl. intros tr'' [e|input'']; [done|]. intros (? & c & r & a & ->). split; [done|].
    exists c, r, a. by rewrite <-app_assoc.
  - simpl. by rewrite <-app_assoc.
Qed.

(** ** The policy loop *)
Lemma findOutboundNode_Some nodes name n :
  findOutboundNode nodes name = Some n → n ∈ nodes ∧ GetName n = name ∧ hasRole n ProxyRoleOutbound = true.
Proof.
  unfold findOutboundNode. intros ([i n'] & Hf & [= ->])%fmap_Some. apply list_find_Some in Hf as (Hi & [? ?] & _).
  split_and!; [by eapply list_elem_of_lookup_2|done..].
Qed.

Lemma findExternalOutbound_Some exts name e : findExternalOutbound exts name = Some e → e ∈ exts ∧ GetName e = name.
Proof.
  unfold findExternalOutbound. intros ([i e'] & Hf & [= ->])%fmap_Some. apply list_find_Some in Hf as (Hi & ? & _).
  split; [by eapply list_elem_of_lookup_2|done].
Qed.

(** A connected egress node is the node itself or one of its peers. *)
Lemma connected_node node nodes exts name n :
  egressConnectedToInbound node name nodes exts = true → findOutboundNode nodes name = Some n →
  (GetName n = GetName node ∧ hasRole node ProxyRoleOutbound = true) ∨ peerEligible node n = true.
Proof.
  unfold egressConnectedToInbound. intros Hc Hf. rewrite Hf in Hc.
  destruct (findOutboundNode_Some _ _ _ Hf) as (_ & _ & Hrole). unfold peerEligible. rewrite Hrole.
  destruct (GetName n ==? GetName node) eqn:Hn; bool_prop; [by left|right].
  destruct (ns_Region (node_spec n) ==? _), (listAllows _ _), (listAllows _ (GetName n)); done.
Qed.

Lemma connected_external node nodes exts name e :
  egressConnectedToInbound node name nodes exts = true → findOutboundNode nodes name = None →
  findExternalOutbound exts name = Some e → externalReachable node e = true.
Proof.
  unfold egressConnectedToInbound, externalReachable. intros Hc Hf He. rewrite Hf, He in Hc.
  destruct (es_Region (eob_spec e) ==? ""), (es_Region _ ==? ns_Region _), (listAllows _ _), (listAllows _ (GetName e)); done.
Qed.

Section policy_loop.
Context `{GoStd, LabelSelectors} (node : SingBoxNode) (nodes : list SingBoxNode) (exts : list ExternalOutbound).

Lemma resolve_action policy names egress :
  resolveEgressPolicy policy nodes exts = (names, egress, "") →
  ps_Action (policy_spec policy) = EgressPolicyActionRoute ∨ ps_Action (policy_spec policy) = EgressPolicyActionReject.
Proof.
  unfold resolveEgressPolicy. destruct (EgressPolicyMatch_Valid _ _) as [e|] eqn:Hv.
  { intros [= _ _ ->]. by apply Match_Valid_text in Hv. }
  destruct (bool_decide (_ = EgressPolicyActionRoute)) eqn:H1; bool_prop; [by left|].
  destruct (bool_decide (_ = EgressPolicyActionReject)) eqn:H2; bool_prop; [by right|]. done.
Qed.

(** What holds of the input while policies are added to [base], whose peers are the eligible nodes. *)
Record policyInv (base input : Input) : Prop := {
  pi_frame : ∃ pols bn nc eb ec, input = upd_policies (upd_nodes (upd_externals base (ExternalOutbounds base) eb ec)
                                           (OutboundNodes base) bn nc) pols;
  pi_policies : ∀ p, Some p ∈ EgressPolicies input → hasRole node ProxyRoleInbound = true ∧
    (ps_Action (policy_spec p) = EgressPolicyActionRoute ∨ ps_Action (policy_spec p) = EgressPolicyActionReject);
  pi_index : ∀ k n, OutboundNodesByName input !! k = Some n → GetName n = k ∧ n ∈ nodes ∧
    (n ∈ OutboundNodes base ∨ k = GetName node ∧ hasRole node ProxyRoleInbound = true ∧ hasRole node ProxyRoleOutbound = true);
  pi_peers : ∀ n, n ∈ OutboundNodes base → OutboundNodesByName input !! GetName n = Some n;
  pi_externals : ∀ k e, ExternalOutboundsByName input !! k = Some e →
    GetName e = k ∧ e ∈ exts ∧ externalReachable node e = true;
}.

Context (base : Input).
Context (Hpeers : OutboundNodes base = filter (λ n, peerEligible node n = true) nodes).
Context (Hnd : NoDup (GetName <$> nodes)).

Lemma same_name n n' : n ∈ nodes → n' ∈ nodes → GetName n = GetName n' → n = n'.
Proof.
  intros Hn Hn' Heq. apply list_elem_of_lookup in Hn as [i Hi], Hn' as [j Hj].
  assert (i = j) as ->; [|congruence]. apply (NoDup_lookup _ _ _ (GetName n) Hnd);
    rewrite list_lookup_fmap; [by rewrite Hi | by rewrite Hj, Heq].
Qed.

Lemma policyInv_policy input p :
  policyInv base input → hasRole node ProxyRoleInbound = true →
  (ps_Action (policy_spec p) = EgressPolicyActionRoute ∨ ps_Action (policy_spec p) = EgressPolicyActionReject) →
  policyInv base (upd_policies input (EgressPolicies input ++ [Some p])).
Proof.
  intros [(pols & bn & nc & eb & ec & ->) Hp Hi Hpe He] Hin Ha. split; simpl in *; [by eexists _, _, _, _, _| |done..].
  intros p' [?|[= ->]%list_elem_of_singleton]%elem_of_app; auto.
Qed.

Lemma policyInv_node input n creds :
  policyInv base input → hasRole node ProxyRoleInbound = true → n ∈ nodes →
  (GetName n = GetName node ∧ hasRole node ProxyRoleOutbound = true) ∨ peerEligible node n = true →
  policyInv base (upd_nodes input (OutboundNodes input) (<[GetName n := n]> (OutboundNodesByName input)) creds).
Proof.
  intros [(pols & bn & nc & eb & ec & ->) Hp Hi Hpe He] Hin Hn Hor. split; simpl in *.
  - by eexists _, _, _, _, _.
  - done.
  - intros k n' [[<- <-]|[? ?]]%lookup_insert_Some; [|auto]. split_and!; [done..|].
    destruct Hor as [[Heq ?]|?]; [right; auto|left]. rewrite Hpeers. by apply list_elem_of_filter.
  - intros n' Hn'. destruct (decide (GetName n = GetName n')) as [Heq|Hne]; [|rewrite lookup_insert_ne by done; auto].
    rewrite <-Heq, lookup_insert_eq. f_equal. apply same_name; [done| |done].
    rewrite Hpeers in Hn'. by apply list_elem_of_filter in Hn' as [_ ?].
  - done.
Qed.

Lemma policyInv_external input e creds :
  policyInv base input → e ∈ exts → externalReachable node e = true →
  policyInv base (upd_externals input (ExternalOutbounds input) (<[GetName e := e]> (ExternalOutboundsByName input)) creds).
Proof.
  intros [(pols & bn & nc & eb & ec & ->) Hp Hi Hpe Hex] He Hr. split; simpl in *; [by eexists _, _, _, _, _|done..|].
  intros k e' [[<- <-]|[? ?]]%lookup_insert_Some; auto.
Qed.

Lemma wp_collectPolicy ok input p tr :
  policyInv base input → wp ok (collectPolicy node nodes exts input p) tr (λ _, policyInv base).
Proof.
  intros Hinv. unfold collectPolicy. destruct (_ || _) eqn:Hsel; [done|]. bool_prop.
  destruct (resolveEgressPolicy p nodes exts) as [[names egress] msg] eqn:Hres.
  case_bool_decide as Hmsg; simpl; [subst msg|done]. apply resolve_action in Hres as Hact.
  assert (policyInv base (upd_policies input (EgressPolicies input ++ [Some p]))) as Hinv' by (by apply policyInv_policy).
  case_bool_decide; simpl; [done|]. case_bool_decide; simpl; [done|].
  destruct (egressConnectedToInbound node egress nodes exts) eqn:Hc; simpl; [|done].
  destruct (findOutboundNode nodes egress) as [n|] eqn:Hn.
  - apply wp_loadNodeCredential. intros _ creds. simpl.
    apply (policyInv_node _ n creds Hinv'); [done|by eapply findOutboundNode_Some|by eapply connected_node].
  - destruct (findExternalOutbound exts egress) as [e|] eqn:He; [|done].
    apply wp_loadExternalCredential. intros _ creds. simpl.
    apply (policyInv_external _ e creds Hinv'); [by eapply findExternalOutbound_Some|by eapply connected_external].
Qed.
End policy_loop.

(** ** The collected input *)
Section index.
Context {A} `{HasMeta A}.

Lemma index_by_name_Some (m : gmap string A) l k x :
  index_by_name m l !! k = Some x → (GetName x = k ∧ x ∈ l) ∨ m !! k = Some x.
Proof.
  unfold index_by_name. revert m. induction l as [|y l IH]; intros m; simpl; [by right|].
  intros [[? ?]|[[<- <-]|[? ?]]%lookup_insert_Some]%IH; [left|left|by right].
  - split; [done|by right].
  - split; [done|left].
Qed.

Lemma index_by_name_complete (m : gmap string A) l x :
  NoDup (GetName <$> l) → x ∈ l → index_by_name m l !! GetName x = Some x.
Proof.
  unfold index_by_name. revert m. induction l as [|y l IH]; intros m Hnd Hx; [by apply elem_of_nil in Hx|].
  simpl in *. apply NoDup_cons in Hnd as [Hy Hnd]. apply elem_of_cons in Hx as [->|Hx]; [|auto].
  assert (∀ m' : gmap string A, m' !! GetName y = Some y → foldl (λ m x, <[GetName x := x]> m) m' l !! GetName y = Some y) as Hkeep.
  { clear IH Hnd. induction l as [|z l IH]; intros m' Hm; simpl in *; [done|]. apply IH; [set_solver|].
    rewrite lookup_insert_ne by set_solver. done. }
  apply Hkeep, lookup_insert_eq.
Qed.
End index.

Lemma NoDup_names_filter {A} `{HasMeta A} (P : A → Prop) `{∀ x, Decision (P x)} l :
  NoDup (GetName <$> l) → NoDup (GetName <$> filter P l).
Proof.
  intros Hnd. eapply sublist_NoDup; [done|]. by apply fmap_sublist, sublist_filter.
Qed.

(** Names are unique in the answer to a namespaced List, as in any Kubernetes namespace. *)
Definition obj_name (k : kind) : obj k → string :=
  match k with
  | KSingBoxNode => GetName (A := SingBoxNode) | KUser => GetName (A := User) | KUserGroup => GetName (A := UserGroup)
  | KEgressPolicy => GetName (A := EgressPolicy) | KExternalOutbound => GetName (A := ExternalOutbound)
  | KSecret => GetName (A := Secret) | KConfigMap => GetName (A := ConfigMap) | KPod => GetName (A := Pod)
  | KService => GetName (A := Service) | KNode => GetName (A := K8sNode)
  end.

Definition uniqueNames (e : event) : Prop :=
  match e with
  | Ev c a => match c return answer c → Prop with
              | List k (InNamespace _) => λ a, match a with inr l => NoDup (obj_name k <$> l) | inl _ => True end
              | _ => λ _, True
              end a
  end.

(** What a successful run of collectInput returned, in terms of the lists it read. *)
Definition collected `{GoStd, LabelSelectors} (node : SingBoxNode) (tr : list event) (input : Input) : Prop :=
  ∃ nodes exts : list _,
    (∃ l, Ev (List KSingBoxNode (InNamespace (GetNamespace node))) (inr l) ∈ tr ∧ nodes ≡ₚ l) ∧
    (∃ l, Ev (List KExternalOutbound (InNamespace (GetNamespace node))) (inr l) ∈ tr ∧ exts ≡ₚ l) ∧
    NoDup (GetName <$> nodes) ∧ NoDup (GetName <$> exts) ∧
    Node input = node ∧ Routes input = [] ∧
    OutboundNodes input = filter (λ n, peerEligible node n = true) nodes ∧
    ExternalOutbounds input = Some <$> filter (λ e, bool_decide (GetName e ∉ (list_to_set (GetName node :: (GetName <$> nodes)) : gset string))
                                                && externalReachable node e = true) exts ∧
    policyInv node nodes exts input input ∧ usersInv node tr input.

Lemma usersInv_more node tr tr' input input' :
  (∀ e, e ∈ tr → e ∈ tr') → Users input' = Users input →
  UserNodeRestrictions input' = UserNodeRestrictions input → UserNodeAllowlist input' = UserNodeAllowlist input →
  usersInv node tr input → usersInv node tr' input'.
Proof.
  intros Htr Hu Hr Ha [HF Hn]. split; rewrite ?Hu, ?Hr, ?Ha; [|done]. eapply Forall_impl; [done|].
  intros u. apply userPermission_frame; [done|]. intros t. unfold userAllowed. by rewrite Hr, Ha.
Qed.

Section collect_input.
Context `{GoStd, LabelSelectors} (r : SingBoxNodeReconciler) (node : SingBoxNode).

(** The input after the peer and external loops, ready for users and policies. *)
Definition discovered (nodes : list SingBoxNode) (exts : list ExternalOutbound) (input : Input) : Prop :=
  let peers := filter (λ n, peerEligible node n = true) nodes in
  let found := filter (λ e, bool_decide (GetName e ∉ (list_to_set (GetName node :: (GetName <$> nodes)) : gset string))
                            && externalReachable node e = true) exts in
  Node input = node ∧ Routes input = [] ∧ EgressPolicies input = [] ∧
  OutboundNodes input = peers ∧ OutboundNodesByName input = index_by_name ∅ peers ∧
  ExternalOutbounds input = Some <$> found ∧ ExternalOutboundsByName input = index_by_name ∅ found.

Lemma discovered_inv nodes exts input :
  NoDup (GetName <$> nodes) → discovered nodes exts input → policyInv node nodes exts input input.
Proof.
  intros Hnd (Hnode & Hr & Hp & Ho & Hob & He & Heb). split.
  - exists (EgressPolicies input), (OutboundNodesByName input), (NodeCreds input), (ExternalOutboundsByName input), (ExternalCreds input).
    by destruct input.
  - rewrite Hp. by intros p ?%elem_of_nil.
  - rewrite Hob, Ho. intros k n [[<- Hn]|Hk]%index_by_name_Some; [|by rewrite lookup_empty in Hk].
    split_and!; [done| |by left]. by apply list_elem_of_filter in Hn as [_ ?].
  - rewrite Hob, Ho. intros n. apply index_by_name_complete. by apply NoDup_names_filter.
  - rewrite Heb. intros k e [[<- Hn]|Hk]%index_by_name_Some; [|by rewrite lookup_empty in Hk].
    apply list_elem_of_filter in Hn as [Hx Hin]. bool_prop. split_and!; done.
Qed.

(** The policy loop and the node's own credential, after the users. *)
Lemma wp_collectPolicies ok nodes exts base policies tr :
  NoDup (GetName <$> nodes) → discovered nodes exts base → usersInv node tr base →
  wp ok (input ← foldM (collectPolicy node nodes exts) base policies;
         if hasRole node ProxyRoleOutbound
         then prog_bind (λ input, Ret (inr (A := error) input)) (loadNodeCredential (GetName node) (GetNamespace node) input)
         else Ret (inr input)) tr
    (λ tr' res, if res is inr input then policyInv node nodes exts input input ∧ usersInv node tr' input ∧
       Node input = Node base ∧ Routes input = Routes base ∧ OutboundNodes input = OutboundNodes base ∧
       ExternalOutbounds input = ExternalOutbounds base else True).
Proof.
  intros Hnd Hd Hu. eapply wp_mono; [|apply (wp_history _ _ _ (λ _ res, if res is inr input then policyInv node nodes exts base input else True))].
  - intros tr' [e|input] [Htr Hinv]; [done|]. destruct Hinv as [(pols & bn & nc & eb & ec & ->) Hp Hi Hpe He]. simpl in *.
    split_and!; [|by eapply usersInv_more; [..|apply Hu]|done..].
    split; simpl; [by eexists _, _, _, _, _|done..].
  - apply wp_bind. eapply wp_mono; [|apply wp_foldM with (I := λ _, policyInv node nodes exts base)].
    + intros tr' input Hinv. case_match; [|done]. apply wp_bind, wp_loadNodeCredential. intros tr'' creds. simpl.
      destruct Hinv as [(pols & bn & nc & eb & ec & ->) Hp Hi Hpe He]. simpl in *. split; simpl; [by eexists _, _, _, _, _|done..].
    + by apply discovered_inv.
    + intros tr' input p Hp Hinv. apply wp_collectPolicy; [|done..]. by destruct Hd as (_ & _ & _ & ? & _).
Qed.

Lemma wp_collectInput tr0 :
  wp uniqueNames (collectInput r node) tr0 (λ tr res, if res is inr input then collected node tr input else True).
Proof.
  unfold collectInput. simpl. intros [e|allNodes] Hn; [done|]. simpl in Hn. set (nodes := sort_by (less_on GetName) allNodes).
  assert (NoDup (GetName <$> nodes)) as Hnd by (unfold nodes; by rewrite sort_by_perm).
  apply wp_bind. eapply wp_mono; [|apply wp_history, wp_collectPeers].
  intros tr1 input1 [Htr1 [creds ->]]. simpl. intros [e|allExts] He; [done|]. simpl in He.
  set (exts := sort_by (less_on GetName) allExts).
  apply wp_bind. eapply wp_mono; [|apply wp_history, wp_collectExternals].
  intros tr2 input2 [Htr2 [creds2 Hin2]].
  assert (discovered nodes exts input2) as Hd2 by (rewrite Hin2; done).
  assert (usersInv node tr2 input2) as Hu2 by (rewrite Hin2; by split; [constructor|]).
  assert (Users input2 = []) as Hnil by (by rewrite Hin2). clear Hin2.
  apply wp_bind. eapply wp_mono; [|apply wp_history with (Q := λ tr r, if r is inr input then
     discovered nodes exts input ∧ usersInv node tr input else True)].
  - intros tr3 [e|input3] [Htr3 HQ]; [done|]. destruct HQ as [Hd3 Hu3]. simpl. intros [e|pols] _; [done|].
    eapply wp_mono; [|apply wp_history, wp_collectPolicies; [done..|]].
    + intros tr4 [e|input4] [Htr4 HQ]; [done|]. destruct HQ as (Hinv & Hu & Hn4 & Hr4 & Ho4 & He4). simpl in *.
      destruct Hd3 as (? & ? & ? & ? & ? & ? & ?). exists nodes, exts. split_and!; try congruence; [| |done| |by rewrite Ho4|by rewrite He4].
      * exists allNodes. split; [apply Htr4; rewrite elem_of_app; left; apply Htr3, Htr2; set_solver|apply sort_by_perm].
      * exists allExts. split; [apply Htr4; rewrite elem_of_app; left; apply Htr3, Htr2; set_solver|apply sort_by_perm].
      * unfold exts. by rewrite sort_by_perm.
    + eapply usersInv_more; [..|apply Hu3]; [set_solver|done..].
  - destruct (hasRole node ProxyRoleInbound); [|done]. simpl. intros [e|users] Hus; [done|]. simpl in Hus.
    eapply wp_mono; [|apply wp_collectUsers].
    + intros tr3 [e|input3]; [done|]. intros (Hinv & c & re & al & ->). done.
    + eapply usersInv_more; [..|apply Hu2]; [set_solver|done..].
    + rewrite Hnil. simpl. by rewrite sort_by_perm.
Qed.
End collect_input.

(** ** Contract with the engine *)
Lemma peerEligible_gates node n :
  peerEligible node n = true → listAllows (ns_AllowedInbounds (node_spec n)) (GetName node) = true ∧
    listAllows (ns_AllowedOutbounds (node_spec node)) (GetName n) = true.
Proof. unfold peerEligible. intros. by bool_prop. Qed.

Lemma collected_routable `{GoStd, LabelSelectors} node tr input :
  collected node tr input → RoutableInput input.
Proof.
  intros (nodes & exts & _ & _ & Hnd & _ & Hnode & Hroutes & Hpeers & _ & [_ Hp Hi Hpe He] & _).
  split; rewrite ?Hnode, ?Hroutes.
  - intros k n Hn. by apply Hi in Hn as (? & _).
  - intros k e Hk. by apply He in Hk as (? & _).
  - done.
  - intros p Hpol. by apply Hp in Hpol as [? _].
  - intros p Hpol. by apply Hp in Hpol as [_ ?].
  - intros n. rewrite Hpeers. intros [? _]%list_elem_of_filter. by apply peerEligible_gates.
  - by intros r n ?%elem_of_nil.
Qed.

(** C10. The controller meets the engine's contract: whatever the cluster
    answers, provided names are unique per namespace, an input returned by
    collectInput is that of the node and satisfies RoutableInput: the name indexes
    are keyed by name and contain the peers, only an inbound node has policies,
    each of which routes or rejects, and every peer passes the allow-lists of both
    sides. *)
Theorem collectInput_routable `{GoStd, LabelSelectors} sv s r node input :
  Forall uniqueNames (trace sv s (collectInput r node)) →
  result sv s (collectInput r node) = inr input → Node input = node ∧ RoutableInput input.
Proof.
  intros Hok Hres. pose proof (wp_exec _ _ _ sv s _ (wp_collectInput r node []) Hok) as Hc. rewrite Hres in Hc.
  split; [|by eapply collected_routable]. by destruct Hc as (nodes & exts & _ & _ & _ & _ & Hnode & _).
Qed.

(** Group permissions reach the engine unchanged: for every collected
    user, the exit targets the engine permits are exactly those of the user's
    group as read in this run (deny wins, an empty allow-list allows all), and
    all targets for a user without a group or whose group is absent. *)
Theorem collectInput_permissions `{GoStd, LabelSelectors} sv s r node input u :
  Forall uniqueNames (trace sv s (collectInput r node)) →
  result sv s (collectInput r node) = inr input → u ∈ Users input →
  userPermission node (trace sv s (collectInput r node)) input u.
Proof.
  intros Hok Hres Hu. pose proof (wp_exec _ _ _ sv s _ (wp_collectInput r node []) Hok) as Hc. rewrite Hres in Hc.
  destruct Hc as (nodes & exts & _ & _ & _ & _ & _ & _ & _ & _ & _ & [HF _]). rewrite Forall_forall in HF. by apply HF.
Qed.

Lemma collected_externals_NoDup `{GoStd, LabelSelectors} node tr input :
  collected node tr input → NoDup (GetName <$> omap id (ExternalOutbounds input)).
Proof.
  intros (nodes & exts & _ & _ & _ & Hnd & _ & _ & _ & -> & _).
  assert (∀ l : list ExternalOutbound, omap id (Some <$> l) = l) as -> by (induction l; cbn; congruence).
  by apply NoDup_names_filter.
Qed.

(** Every node of the name index has a name that the node list read in [tr] contains. *)
Definition disjointNames (node : SingBoxNode) (tr : list event) : Prop :=
  ∀ nodes exts, Ev (List KSingBoxNode (InNamespace (GetNamespace node))) (inr nodes) ∈ tr →
    Ev (List KExternalOutbound (InNamespace (GetNamespace node))) (inr exts) ∈ tr →
    ∀ e : ExternalOutbound, e ∈ exts → GetName e ∉ GetName node :: (GetName <$> (nodes : list SingBoxNode)).

(** Usage accounting is complete: in a namespace where no ExternalOutbound
    has the name of a SingBoxNode, every exit target that an EgressPolicy adds is
    already a peer, the node itself or a discovered ExternalOutbound, so the
    statistics of the computed configuration cover all identities. *)
Theorem collectInput_stats_connected `{MapRange, GoStd, LabelSelectors} sv s r node input :
  Forall uniqueNames (trace sv s (collectInput r node)) →
  disjointNames node (trace sv s (collectInput r node)) →
  result sv s (collectInput r node) = inr input →
  PolicyTargetsConnected input.
Proof.
  intros Hok Hdis Hres name (p & Hpol & _ & _ & Hne & Hav).
  pose proof (wp_exec _ _ _ sv s _ (wp_collectInput r node []) Hok) as Hc. rewrite Hres in Hc. simpl in Hc.
  pose proof (collected_externals_NoDup _ _ _ Hc) as Hend.
  destruct Hc as (nodes & exts & (ln & Hln & Hpn) & (le & Hle & Hpe) & Hnd & _ & Hnode & _ & Hpeers & Hexts & [_ _ Hi _ He] & _).
  unfold policyEgressAvailable in Hav. destruct (OutboundNodesByName input !! name) as [n|] eqn:Hn.
  - bool_prop. apply Hi in Hn as (Hnm & _ & [Hin|(-> & Hr1 & Hr2)]).
    + left. left. exists n. split_and!; [done|lia|done].
    + right; left. unfold isSelfOutbound. by rewrite Hnode, Hr1, Hr2.
  - destruct (ExternalOutboundsByName input !! name) as [e|] eqn:Hx; [|done]. right; right.
    apply He in Hx as (Hnm & Hin & Hreach). exists e. split; [|done].
    assert (GetName e ∉ GetName node :: (GetName <$> nodes)) as Hfresh.
    { rewrite Hpn. eapply Hdis; [done..|]. by rewrite <-Hpe. }
    apply resolveExternalOutbounds_complete; [|done|].
    + rewrite Hexts. apply list_elem_of_fmap_2, list_elem_of_filter. split; [|done].
      rewrite Hreach, bool_decide_eq_true_2; [done|]. by rewrite elem_of_list_to_set.
    + split; [|by rewrite Hnm]. unfold externalNameCollidesWithNode.
      rewrite Hnode, bool_decide_eq_false_2 by set_solver. rewrite Hnm, Hn, bool_decide_eq_false_2 by (by intros []).
      simpl. apply not_true_iff_false. rewrite existsb_exists. intros (n & Hnin & Heq). bool_prop.
      apply list_elem_of_In in Hnin. rewrite Hpeers in Hnin. apply list_elem_of_filter in Hnin as [_ Hnin].
      apply Hfresh. right. rewrite Hnm, <-Heq. by apply list_elem_of_fmap_2.
Qed.

(** ** The whole reconciliation *)

(** Calls other than a ConfigMap write. *)
Definition noConfigWrite (c : call) : Prop := match c with CreateOrUpdate _ _ _ => False | _ => True end.

(** Calls other than a write of a node's status. *)
Definition noStatusWrite (c : call) : Prop := match c with StatusUpdate _ _ => False | _ => True end.

Section emitted.
Context `{GoStd, LabelSelectors, ControllerUtil, ConditionLib, TLSCerts}.

Lemma collectInput_emits (P : call → Prop) r node :
  (∀ k key, P (Get k key)) → (∀ k ns, P (List k (InNamespace ns))) → emits P (collectInput r node).
Proof.
  intros Hget Hlist.
  unfold collectInput, collectPeer, collectExternal, collectUser, collectPolicy, addUser, loadNodeCredential,
    loadExternalCredential, GetNodeCredential, GetExternalCredentials, GetUserCredential.
  emits_solve; auto.
Qed.

Lemma ensureCredential_emits (P : call → Prop) node :
  (∀ k key, P (Get k key)) → (∀ n, P (RandRead n)) → (∀ o, P (Create KSecret o)) → emits P (ensureCredential node).
Proof.
  intros. unfold ensureCredential, EnsureNodeCredential, generateUUID, generatePassword. emits_solve; auto.
Qed.

Lemma updateNodeReadyStatus_emits (P : call → Prop) node :
  (∀ k key, P (Get k key)) → (∀ o, P (StatusUpdate KSingBoxNode o)) → emits P (updateNodeReadyStatus node).
Proof. intros. unfold updateNodeReadyStatus. emits_solve; auto. Qed.

Lemma updateStatus_emits (P : call → Prop) r node hash :
  (∀ k key, P (Get k key)) → (∀ o, P (StatusUpdate KSingBoxNode o)) → (∀ n l v, P (MetricSet n l v)) →
  emits P (updateStatus r node hash).
Proof. intros. unfold updateStatus, resolveTLSServerName. emits_solve; auto. Qed.

Lemma reconcileServices_emits (P : call → Prop) node :
  (∀ k opt, P (List k opt)) → (∀ o, P (Delete KService o)) → emits P (reconcileServices node).
Proof. intros. unfold reconcileServices, deleteOrphanServices. emits_solve; auto. Qed.

Lemma reconcilePod_emits (P : call → Prop) r node hash :
  (∀ k key, P (Get k key)) → (∀ o, P (Create KPod o)) → (∀ o, P (Delete KPod o)) → emits P (reconcilePod r node hash).
Proof. intros. unfold reconcilePod. emits_solve; auto. Qed.
End emitted.

(** A ConfigMap write and its mutate function. *)
Definition ev_config (e : event) : option (ConfigMap * (ConfigMap → error + ConfigMap)) :=
  match ev_call e with
  | CreateOrUpdate k o m =>
    match k return obj k → (obj k → error + obj k) → option (ConfigMap * (ConfigMap → error + ConfigMap)) with
    | KConfigMap => λ o m, Some (o, m)
    | _ => λ _ _, None
    end o m
  | _ => None
  end.

Lemma ev_config_none c a : noConfigWrite c → ev_config (Ev c a) = None.
Proof. by destruct c. Qed.

Section whole.
Context `{GoStd, LabelSelectors, ControllerUtil, ConditionLib, TLSCerts, MapRange}.

(** The ConfigMap that a run wrote is that of the node it read, with the output
    computed from an input collected in the same run. *)
Definition configSound (req : NamespacedName) (tr : list event) (w : ConfigMap * (ConfigMap → error + ConfigMap)) : Prop :=
  ∃ node input, Ev (Get KSingBoxNode req) (inr node) ∈ tr ∧ collected node tr input ∧
    keyOf w.1 = {| nn_Namespace := GetNamespace node; nn_Name := GetName node +:+ configMapSuffix |} ∧
    w.2 = mutateConfigMap node (Compute input).

Lemma collected_more node tr tr' input :
  (∀ e, e ∈ tr → e ∈ tr') → collected node tr input → collected node tr' input.
Proof.
  intros Htr (nodes & exts & (ln & Hln & ?) & (le & Hle & ?) & ? & ? & ? & ? & ? & ? & ? & Hu).
  exists nodes, exts. split_and!; try done; [exists ln; auto|exists le; auto|]. by eapply usersInv_more; [..|apply Hu].
Qed.

Lemma configSound_more req tr tr' w : (∀ e, e ∈ tr → e ∈ tr') → configSound req tr w → configSound req tr' w.
Proof.
  intros Htr (node & input & ? & ? & ?). exists node, input. split_and!; eauto using collected_more; naive_solver.
Qed.

Definition allSound (req : NamespacedName) (tr : list event) : Prop := Forall (configSound req tr) (omap ev_config tr).

Lemma allSound_quiet req tr new :
  allSound req tr → Forall (λ e, noConfigWrite (ev_call e)) new → allSound req (tr ++ new).
Proof.
  unfold allSound. intros Hs Hnew. rewrite omap_app.
  assert (omap ev_config new = []) as ->.
  { induction Hnew as [|[c a] new Hc _ IH]; [done|]. cbn. by rewrite ev_config_none. }
  rewrite app_nil_r. eapply Forall_impl; [done|]. intros w. apply configSound_more. set_solver.
Qed.

(** A step that writes no ConfigMap keeps the property. *)
Lemma wp_quiet {A} (p : prog A) req tr (Q : list event → A → Prop) :
  emits noConfigWrite p → allSound req tr → (∀ tr' a, allSound req tr' → (∀ e, e ∈ tr → e ∈ tr') → Q tr' a) →
  wp uniqueNames p tr Q.
Proof.
  intros He Hs HQ. eapply wp_mono; [|by apply (wp_emits _ _ _ _ He)]. simpl.
  intros tr' a (new & -> & Hnew). apply HQ; [by apply allSound_quiet|set_solver].
Qed.

Lemma wp_reconcileConfigMap req node input tr :
  Ev (Get KSingBoxNode req) (inr node) ∈ tr → collected node tr input → allSound req tr →
  wp uniqueNames (reconcileConfigMap node (Compute input)) tr (λ tr' _, allSound req tr').
Proof.
  intros Hn Hc Hs. unfold reconcileConfigMap. apply wp_bind.
  apply (wp_quiet _ req); [by emits_solve|done|]. intros tr1 _ Hs1 Hsub1. simpl. intros op _.
  set (w := CreateOrUpdate _ _ _).
  assert (allSound req (tr1 ++ [Ev w op])) as Hs2.
  { unfold allSound. rewrite omap_app. apply Forall_app. split.
    - eapply Forall_impl; [done|]. intros w'. apply configSound_more. set_solver.
    - constructor; [|done]. exists node, input. split_and!; [set_solver| |done..]. eapply collected_more; [|done]. set_solver. }
  destruct op as [e|op]; [done|]. apply (wp_quiet _ req); [by emits_solve|done|]. by intros.
Qed.

Lemma wp_applyOutput req r node input tr :
  Ev (Get KSingBoxNode req) (inr node) ∈ tr → collected node tr input → allSound req tr →
  wp uniqueNames (applyOutput r node (Compute input)) tr (λ tr' _, allSound req tr').
Proof.
  intros Hn Hc Hs. unfold applyOutput. apply wp_bind. eapply wp_mono; [|by apply wp_reconcileConfigMap].
  intros tr1 [e|] Hs1; [done|]. apply (wp_quiet _ req); [|done|auto].
  apply emits_bind; [by apply reconcilePod_emits|]. intros [e|[]]; [done..|].
  apply emits_bind; [by apply reconcileServices_emits|]. intros [e|[]]; [done..|].
  unfold passOn. apply emits_bind; [by apply updateStatus_emits|done].
Qed.

Lemma wp_Reconcile r req : wp uniqueNames (Reconcile r req) [] (λ tr _, allSound req tr).
Proof.
  unfold Reconcile, withMetrics. apply wp_bind.
  eapply wp_mono with (Q := λ tr _, allSound req tr).
  { intros tr [rerr res] Hs. apply (wp_quiet _ req); [by emits_solve|done|auto]. }
  simpl. intros [e|node] _; simpl; [by destruct (IsNotFound e); constructor|].
  set (tr := [Ev (Get KSingBoxNode req) (inr node)]).
  assert (allSound req tr) as Hs by constructor.
  destruct (om_DeletionTimestamp (node_meta node)).
  { apply (wp_quiet _ req); [|done|auto]. unfold passOn, handleDeletion. by emits_solve. }
  destruct (ContainsFinalizer _ _); cbn [negb]; [|by simpl; intros [e|] _; constructor].
  unfold reconcileLive. apply wp_bind. apply (wp_quiet _ req); [by apply updateNodeReadyStatus_emits|done|].
  intros tr1 _ Hs1 Hsub1. apply wp_bind. apply (wp_quiet _ req); [by apply ensureCredential_emits|done|].
  intros tr2 [e|] Hs2 Hsub2; [done|]. apply wp_bind.
  eapply wp_mono; [|apply wp_and; [apply wp_collectInput|
    apply (wp_quiet _ req _ (λ tr' _, allSound req tr' ∧ (∀ e, e ∈ tr2 → e ∈ tr'))); [by apply collectInput_emits|done|by auto]]].
  intros tr3 [e|input] [Hc [Hs3 Hsub3]]; [done|]. simpl.
  apply wp_applyOutput; [|done|done]. apply Hsub3, Hsub2, Hsub1. left.
Qed.
End whole.

(** C5. End to end: in every run of Reconcile (against any cluster with unique
    names), each ConfigMap written is the one of the node just read, it carries
    exactly the configuration and hash that Compute returns for an input
    collected in this run, and that input is the node's and meets the engine's
    contract (RoutableInput). *)
Theorem Reconcile_config_sound `{GoStd, LabelSelectors, ControllerUtil, ConditionLib, TLSCerts, MapRange} sv s r req w cm cm' :
  Forall uniqueNames (trace sv s (Reconcile r req)) →
  w ∈ omap ev_config (trace sv s (Reconcile r req)) → w.2 cm = inr cm' →
  ∃ node input, Ev (Get KSingBoxNode req) (inr node) ∈ trace sv s (Reconcile r req) ∧
    keyOf w.1 = {| nn_Namespace := GetNamespace node; nn_Name := GetName node +:+ configMapSuffix |} ∧
    cm_Data cm' = {["config.json" := Config (Compute input)]} ∧
    om_Annotations (cm_meta cm') !! configHashAnnotation = Some (Hash (Compute input)) ∧
    Node input = node ∧ RoutableInput input.
Proof.
  intros Hok Hw Hm. pose proof (wp_exec _ _ _ sv s _ (wp_Reconcile r req) Hok) as Hs. unfold allSound in Hs.
  rewrite Forall_forall in Hs. destruct (Hs _ Hw) as (node & input & Hn & Hc & Hk & Hmut).
  exists node, input. rewrite Hmut in Hm. unfold mutateConfigMap in Hm.
  destruct (SetControllerReference _ _) as [|m] eqn:Href; [done|]. destruct (ref_key _ _ _ Href) as (_ & _ & _ & Ha).
  injection Hm as <-. simpl. rewrite Ha. simpl. rewrite lookup_insert_eq.
  split_and!; [done..| |by apply (collected_routable node (trace sv s (Reconcile r req)))].
  by destruct Hc as (? & ? & _ & _ & _ & _ & ? & _).
Qed.

(** ** Status *)

(** Evidence, in a trace, that the output is deployed: the ConfigMap write succeeded and the pod
    step kept or created a pod with its hash. *)
Definition deployed `{ControllerUtil} (node : SingBoxNode) (output : Output) (tr : list event) : Prop :=
  (∃ cm op, Ev (CreateOrUpdate KConfigMap cm (mutateConfigMap node output)) (inr op) ∈ tr) ∧
  (∃ podtr, podStep node (Hash output) podtr (inr false) ∧ ∀ e, e ∈ podtr → e ∈ tr).

(** A status write that reports [hash] as running, with the endpoints of the latest spec. *)
Definition reportsRunning (hash : string) (n : SingBoxNode) : Prop :=
  nst_Phase (node_status n) = "Running" ∧ nst_ConfigHash (node_status n) = hash ∧
  nst_ObservedGeneration (node_status n) = om_Generation (node_meta n) ∧
  nst_EntryEndpoints (node_status n) = entryEndpoint (ns_Address (node_spec n)) <$> ns_SupportedProtocols (node_spec n) ∧
  (∃ c, findCondition "Ready" (nst_Conditions (node_status n)) = Some c ∧ cond_Status c = ConditionTrue).

Lemma omap_status_quiet k new : Forall (λ e, noStatusWrite (ev_call e)) new → omap (ev_status k) new = [].
Proof. induction 1 as [|[c a] new Hc _ IH]; [done|]. by destruct c. Qed.

Section status.
Context `{ControllerUtil, ConditionLib, TLSCerts} (node : SingBoxNode).

(** Every status written so far reports [output], and was written after it was deployed. *)
Definition statusSound (output : Output) (tr : list event) : Prop :=
  ∀ n a, (n, a) ∈ omap (ev_status KSingBoxNode) tr →
    reportsRunning (Hash output) n ∧
    ∃ pre post, tr = pre ++ post ∧ omap (ev_status KSingBoxNode) pre = [] ∧ deployed node output pre.

Lemma statusSound_quiet output tr : omap (ev_status KSingBoxNode) tr = [] → statusSound output tr.
Proof. intros Hq n a. by rewrite Hq, elem_of_nil. Qed.

Lemma wp_quiet_status {A} (p : prog A) tr Q :
  emits noStatusWrite p → omap (ev_status KSingBoxNode) tr = [] →
  (∀ new a, omap (ev_status KSingBoxNode) (tr ++ new) = [] → Q (tr ++ new) a) → wp (λ _, True) p tr Q.
Proof.
  intros He Hq HQ. eapply wp_mono; [|by apply (wp_emits _ _ _ _ He)]. simpl.
  intros tr' a (new & -> & Hnew). apply HQ. by rewrite omap_app, Hq, omap_status_quiet.
Qed.

Lemma wp_reconcileConfigMap_status output tr :
  omap (ev_status KSingBoxNode) tr = [] →
  wp (λ _, True) (reconcileConfigMap node output) tr (λ tr' e, omap (ev_status KSingBoxNode) tr' = [] ∧
    (e = None → ∃ cm op, Ev (CreateOrUpdate KConfigMap cm (mutateConfigMap node output)) (inr op) ∈ tr')).
Proof.
  intros Hq. unfold reconcileConfigMap. apply wp_bind. apply wp_quiet_status; [by emits_solve|done|].
  intros new1 _ Hq1. apply wp_call. intros [e|op] _.
  { split; [|done]. by rewrite omap_app, Hq1. }
  apply wp_quiet_status; [by emits_solve|by rewrite omap_app, Hq1|].
  intros new2 e Hq2. split; [done|]. intros _. eexists _, op. rewrite !elem_of_app. left. right. left.
Qed.

Lemma updateStatus_sound r output tr :
  omap (ev_status KSingBoxNode) tr = [] → deployed node output tr →
  wp (λ _, True) (updateStatus r node (Hash output)) tr (λ tr' _, statusSound output tr').
Proof.
  intros Hq Hd. unfold updateStatus. apply wp_call. intros [e|latest] _.
  { apply statusSound_quiet. by rewrite omap_app, Hq. }
  apply wp_bind. apply wp_quiet_status; [unfold resolveTLSServerName; by emits_solve|by rewrite omap_app, Hq|].
  intros new name Hq1. set (tr1 := (tr ++ _) ++ new) in *. apply wp_call. intros a _.
  set (n := with_node_status _ latest).
  assert (statusSound output (tr1 ++ [Ev (StatusUpdate KSingBoxNode n) a])) as Hs.
  { intros n' a'. rewrite omap_app, Hq1. cbn. autorewrite with go. cbn. intros [= -> ->]%list_elem_of_singleton. split.
    - unfold reportsRunning. simpl. split_and!; [done..|]. eexists. split; [exact (find_set_same _ _)|done].
    - exists tr1, [Ev (StatusUpdate KSingBoxNode n) a]. split_and!; [done..|].
      destruct Hd as [(cm & op & ?) (ptr & ? & ?)]. split; [exists cm, op; set_solver|exists ptr; set_solver]. }
  destruct a as [e|]; [done|]. apply wp_bind.
  eapply wp_mono; [|apply (wp_emits _ noStatusWrite); emits_solve]. simpl. intros tr2 _ (new2 & -> & Hnew2) n' a'.
  rewrite (omap_app _ _ new2), (omap_status_quiet _ new2), app_nil_r by done. intros Hin. destruct (Hs _ _ Hin) as (? & pre & post & Heq & ? & ?).
  split; [done|]. exists pre, (post ++ new2). by rewrite Heq, <-app_assoc.
Qed.

Lemma wp_applyOutput_status `{GoStd, LabelSelectors, MapRange} r output :
  wp (λ _, True) (applyOutput r node output) [] (λ tr _, statusSound output tr).
Proof.
  unfold applyOutput. apply wp_bind. eapply wp_mono; [|by apply wp_reconcileConfigMap_status].
  intros tr1 [e|] [Hq1 Hcm]; [by apply statusSound_quiet|]. specialize (Hcm eq_refl). apply wp_bind.
  eapply wp_mono; [|apply wp_and; [apply wp_from, reconcilePod_step|
    apply (wp_quiet_status _ _ (λ tr' _, omap (ev_status KSingBoxNode) tr' = [])); [by apply reconcilePod_emits|done|done]]].
  intros tr2 res [(podtr & -> & Hpod) Hq2]. destruct res as [e|[]]; [by apply statusSound_quiet..|].
  apply wp_bind. apply wp_quiet_status; [by apply reconcileServices_emits|done|].
  intros new [e|[]] Hq3; [by apply statusSound_quiet..|]. unfold passOn. apply wp_bind.
  eapply wp_mono; [|apply updateStatus_sound; [done|]]; [done|].
  destruct Hcm as (cm & op & Hin). split; [exists cm, op; set_solver|exists podtr; set_solver].
Qed.
End status.

(** C11. A node's status is truthful: when applying an output writes the
    node's status, the status reports Running, the hash of that output, the
    generation and the endpoints of the latest spec, and it is written only after
    the ConfigMap write succeeded and a pod annotated with that very hash was
    found or created. *)
Theorem applyOutput_status `{GoStd, LabelSelectors, ControllerUtil, ConditionLib, TLSCerts, MapRange} sv s r node output n a :
  (n, a) ∈ omap (ev_status KSingBoxNode) (trace sv s (applyOutput r node output)) →
  reportsRunning (Hash output) n ∧
  ∃ pre post, trace sv s (applyOutput r node output) = pre ++ post ∧
    omap (ev_status KSingBoxNode) pre = [] ∧ deployed node output pre.
Proof. apply (wp_run _ _ sv s (wp_applyOutput_status node r output)). Qed.

(** ** Finalizer *)

(** The writes that Reconcile may issue for a node it must not deploy. *)
Definition finalizerWrite `{ControllerUtil} (node : SingBoxNode) (e : event) : Prop :=
  ∃ a, (om_DeletionTimestamp (node_meta node) = None ∧
        e = Ev (Update KSingBoxNode (with_node_meta (AddFinalizer (node_meta node) singboxNodeFinalizer) node)) a) ∨
       (om_DeletionTimestamp (node_meta node) ≠ None ∧
        e = Ev (Update KSingBoxNode (with_node_meta (RemoveFinalizer (node_meta node) singboxNodeFinalizer) node)) a).

Lemma wp_prefix {A} (p : prog A) tr : wp (λ _, True) p tr (λ tr' _, ∃ new, tr' = tr ++ new).
Proof.
  eapply wp_mono; [|apply (wp_emits _ (λ _, True)); induction p; simpl; auto]. simpl. intros ?? (new & -> & _). eauto.
Qed.

(** Finalizer discipline: for a node that is being deleted, or that does
    not carry the operator's finalizer yet, one reconciliation writes nothing but
    the node's own finalizer list, removing the finalizer in the first case and
    adding it in the second; nothing is deployed. *)
Theorem Reconcile_finalizer_first `{GoStd, LabelSelectors, ControllerUtil, ConditionLib, TLSCerts, MapRange} sv s r req node :
  (head (trace sv s (Reconcile r req)) ≫= ev_got KSingBoxNode) = Some node →
  om_DeletionTimestamp (node_meta node) ≠ None ∨ ContainsFinalizer (node_meta node) singboxNodeFinalizer = false →
  Forall (finalizerWrite node) (filter (λ e, writes e = true) (trace sv s (Reconcile r req))) ∧
  length (filter (λ e, writes e = true) (trace sv s (Reconcile r req))) ≤ 1.
Proof.
  set (Q := λ (tr : list event) (_ : Result * option error), (head tr ≫= ev_got KSingBoxNode) = Some node →
    om_DeletionTimestamp (node_meta node) ≠ None ∨ ContainsFinalizer (node_meta node) singboxNodeFinalizer = false →
    Forall (finalizerWrite node) (filter (λ e, writes e = true) tr) ∧ length (filter (λ e, writes e = true) tr) ≤ 1).
  apply (wp_run _ Q sv s). unfold Reconcile, withMetrics. apply wp_bind, wp_call. intros [e|n] _.
  { simpl. destruct (IsNotFound e); simpl; intros; discriminate. }
  destruct (om_DeletionTimestamp (node_meta n)) as [t|] eqn:Hd.
  - unfold passOn, handleDeletion. apply wp_bind. destruct (ContainsFinalizer (node_meta n) singboxNodeFinalizer); simpl.
    + intros a _ u _. unfold Q. cbn. autorewrite with go. intros [= <-] _. split; [|simpl; lia].
      repeat constructor. exists a. right. by rewrite Hd.
    + intros u _. unfold Q. cbn. split; [constructor|simpl; lia].
  - destruct (ContainsFinalizer (node_meta n) singboxNodeFinalizer) eqn:Hf.
    + cbn [negb]. eapply wp_mono; [|apply wp_prefix]. intros tr out (new & ->).
      eapply wp_mono; [|apply wp_prefix]. intros tr' res (new' & ->). unfold Q. cbn. autorewrite with go.
      intros [= <-] [?|?]; congruence.
    + simpl. intros [e|] _; simpl; intros; unfold Q; cbn; autorewrite with go; intros [= <-] _; (split; [|simpl; lia]);
        repeat constructor; eexists; left; done.
Qed.

(** ** Witnesses on the sample cluster *)
Lemma sample_unique {A} (p : prog A) :
  emits (λ c, match c with List KSingBoxNode _ | List KUser _ | List KExternalOutbound _ | List KEgressPolicy _ | List KService _ => True
              | List _ _ => False | _ => True end) p →
  Forall uniqueNames (trace (sample_server sample_node) tt p).
Proof.
  unfold trace. induction p as [a|c f IH]; intros He; simpl; [constructor|].
  destruct He as [Hc Hf]. specialize (IH _ (Hf (sample_answer sample_node c))).
  destruct (exec _ _ _) as [[tr a] s]. simpl in *. constructor; [|done].
  destruct c as [|k opt| | | | | | | | | | |]; try done. destruct opt; [|done..].
  destruct k; try done; simpl; apply (bool_decide_eq_true_1 (NoDup _)); by vm_compute.
Qed.

Lemma sample_collect_unique :
  Forall uniqueNames (trace (sample_server sample_node) tt (collectInput sample_reconciler sample_node)).
Proof.
  apply sample_unique. unfold collectInput, collectPeer, collectExternal, collectUser, collectPolicy, addUser,
    loadNodeCredential, loadExternalCredential, GetNodeCredential, GetExternalCredentials, GetUserCredential.
  by emits_solve.
Qed.

Lemma sample_result :
  result (sample_server sample_node) tt (collectInput sample_reconciler sample_node) = inr sample_collected.
Proof. by vm_compute. Qed.

Lemma collectInput_routable_witness : Node sample_collected = sample_node ∧ RoutableInput sample_collected.
Proof.
  apply (collectInput_routable (sample_server sample_node) tt sample_reconciler sample_node sample_collected
           sample_collect_unique sample_result).
Defined.

Lemma collectInput_permissions_witness :
  userAllowed sample_collected "out1" "bob" = false ∧
  userPermission sample_node (trace (sample_server sample_node) tt (collectInput sample_reconciler sample_node))
    sample_collected (mkUser "bob" "g").
Proof.
  split; [by vm_compute|].
  apply (collectInput_permissions _ _ _ _ _ _ sample_collect_unique sample_result). vm_compute. right. left.
Defined.

(** The lists of one kind that a trace contains. *)
Definition ev_listed (k : kind) (e : event) : option (list (obj k)) :=
  match e with
  | Ev c a => match c return answer c → option (list (obj k)) with
              | List k' _ => λ a, match a with
                                  | inr l => match decide (k' = k) with
                                             | left e => Some (eq_rect k' (λ k, list (obj k)) l k e)
                                             | right _ => None
                                             end
                                  | inl _ => None
                                  end
              | _ => λ _, None
              end a
  end.

Lemma elem_of_listed k opt (l : list (obj k)) (tr : list event) : Ev (List k opt) (inr l) ∈ tr → l ∈ omap (ev_listed k) tr.
Proof.
  intros Hin. apply list_elem_of_omap. eexists. split; [done|]. simpl.
  destruct (decide (k = k)) as [e|]; [|done]. by rewrite (proof_irrel e eq_refl).
Qed.

Lemma collectInput_stats_connected_witness : PolicyTargetsConnected sample_collected.
Proof.
  apply (collectInput_stats_connected (sample_server sample_node) tt sample_reconciler sample_node sample_collected
           sample_collect_unique); [|apply sample_result].
  intros nodes exts Hn%elem_of_listed He%elem_of_listed e Hin. vm_compute in Hn, He.
  list_cases Hn. list_cases He. rewrite <-He in Hin. list_cases Hin.
  apply (bool_decide_eq_true_1 (_ ∉ _)). by vm_compute.
Defined.

Lemma sample_reconcile_unique :
  Forall uniqueNames (trace (sample_server sample_node) tt (Reconcile sample_reconciler sample_req)).
Proof.
  apply sample_unique. unfold Reconcile, withMetrics, reconcileLive, applyOutput, passOn, failWith, handleDeletion,
    updateNodeReadyStatus, ensureCredential, EnsureNodeCredential, generateUUID, generatePassword, setDegraded,
    reconcileConfigMap, reconcilePod, reconcileServices, deleteOrphanServices, updateStatus, resolveTLSServerName,
    collectInput, collectPeer, collectExternal, collectUser, collectPolicy, addUser, loadNodeCredential,
    loadExternalCredential, GetNodeCredential, GetExternalCredentials, GetUserCredential.
  by emits_solve.
Qed.

(** The ConfigMap write of a sample reconciliation. *)
Definition sample_write : ConfigMap * (ConfigMap → error + ConfigMap) :=
  match omap ev_config (trace (sample_server sample_node) tt (Reconcile sample_reconciler sample_req)) with
  | w :: _ => w
  | [] => ({| cm_meta := mkMeta ""; cm_Data := ∅ |}, inr)
  end.

Definition sample_cm : ConfigMap :=
  match sample_write.2 sample_write.1 with inr cm => cm | inl _ => sample_write.1 end.

Lemma Reconcile_config_sound_witness :
  om_Name (cm_meta sample_write.1) = "in1-config" ∧
  ∃ node input, Ev (Get KSingBoxNode sample_req) (inr node) ∈ trace (sample_server sample_node) tt (Reconcile sample_reconciler sample_req) ∧
    keyOf sample_write.1 = {| nn_Namespace := GetNamespace node; nn_Name := GetName node +:+ configMapSuffix |} ∧
    cm_Data sample_cm = {["config.json" := Config (Compute input)]} ∧
    om_Annotations (cm_meta sample_cm) !! configHashAnnotation = Some (Hash (Compute input)) ∧
    Node input = node ∧ RoutableInput input.
Proof.
  split; [by vm_compute|].
  apply (Reconcile_config_sound (sample_server sample_node) tt sample_reconciler sample_req sample_write sample_write.1 sample_cm
           sample_reconcile_unique); [|by vm_compute]. vm_compute. left.
Defined.

Definition sample_output : Output := Compute sample_collected.

Definition sample_status : SingBoxNode :=
  match omap (ev_status KSingBoxNode) (trace (sample_server sample_node) tt (applyOutput sample_reconciler sample_node sample_output)) with
  | (n, _) :: _ => n
  | [] => sample_node
  end.

Lemma applyOutput_status_witness :
  nst_EntryEndpoints (node_status sample_status) = ["hysteria2:10.0.0.1:443"] ∧
  reportsRunning (Hash sample_output) sample_status ∧
  ∃ pre post, trace (sample_server sample_node) tt (applyOutput sample_reconciler sample_node sample_output) = pre ++ post ∧
    omap (ev_status KSingBoxNode) pre = [] ∧ deployed sample_node sample_output pre.
Proof.
  split; [by vm_compute|].
  apply (applyOutput_status (sample_server sample_node) tt sample_reconciler sample_node sample_output sample_status None).
  vm_compute. left.
Defined.

Lemma Reconcile_finalizer_first_witness :
  let tr := trace (sample_server sample_new_node) tt (Reconcile sample_reconciler sample_req) in
  Forall (finalizerWrite sample_new_node) (filter (λ e, writes e = true) tr) ∧
  length (filter (λ e, writes e = true) tr) ≤ 1.
Proof.
  apply (Reconcile_finalizer_first (sample_server sample_new_node) tt sample_reconciler sample_req sample_new_node);
    [by vm_compute|right; by vm_compute].
Defined.
