(* ===== verification/Rollout.v ===== *)
(** * Rollout: the pod of a node converges

    One pass of reconcilePod only keeps, deletes or creates (NodeProps); this
    file shows that repeated passes reach a pod with the desired hash, against
    any API server that behaves like a store of the node's pod with graceful
    deletion: a deleted pod stays readable for a bounded number of reads.  The
    store is idealised: its calls do not fail, its reads are current, and a pod is
    stored as it was sent; a failed pass is repeated, which this file leaves out. *)

From S2P Require Import Prelude GoStrings Json Api Samples K8s CredManager NodeController SampleCluster NodeProps.

(** ** The pod as the API server holds it *)
Inductive podState :=
  | Absent
  | Live (p : Pod)
  (** deletion has begun; the pod is still returned by this read and [k] more *)
  | Terminating (p : Pod) (k : nat).

(** The state after one more read. *)
Definition afterGet (st : podState) : podState :=
  match st with
  | Terminating p (S k) => Terminating p k
  | Terminating _ 0 => Absent
  | _ => st
  end.

(** No more than [k] further reads return a terminating pod. *)
Definition gone_within (k : nat) (st : podState) : Prop :=
  match st with Absent => True | Live _ => False | Terminating _ k' => k' ≤ k end.

(** What reconcilePod relies on of the API server, for the pod under [key] and
    at most [grace] reads of a pod that is being deleted. *)
Class PodServer (sv : server) (key : NamespacedName) (grace : nat) := {
  pod_view : srv_state sv → podState;
  get_pod : ∀ s, let '(a, s') := srv_step sv s (Get KPod key) in
    pod_view s' = afterGet (pod_view s) ∧
    match pod_view s with Absent => ∃ e, a = inl e ∧ IsNotFound e = true | Live p | Terminating p _ => a = inr p end;
  (** deleting a live pod starts its deletion; deleting it again does not prolong it *)
  delete_pod : ∀ s p, let '(a, s') := srv_step sv s (Delete KPod p) in
    (∀ e, a = Some e → IsNotFound e = true) ∧
    match pod_view s with
    | Live _ => gone_within grace (pod_view s')
    | Terminating _ k => gone_within k (pod_view s')
    | Absent => pod_view s' = Absent
    end;
  create_pod : ∀ s p, keyOf p = key → pod_view s = Absent →
    let '(a, s') := srv_step sv s (Create KPod p) in a = None ∧ pod_view s' = Live p;
}.

Section rollout.
Context `{ControllerUtil} (sv : server) (r : SingBoxNodeReconciler) (node : SingBoxNode) (hash : string) (grace : nat).
Context `{!PodServer sv (podKey node) grace}.

(** The state after a pass, and after [n] passes. *)
Definition pass (s : srv_state sv) : srv_state sv := (exec sv s (reconcilePod r node hash)).2.
Definition passes (n : nat) (s : srv_state sv) : srv_state sv := Nat.iter n pass s.

Definition upToDate (st : podState) : Prop :=
  match st with Live p => podHash p = desiredPodHash hash | _ => False end.

(** How many passes are left. *)
Definition passesLeft (st : podState) : nat :=
  match st with
  | Absent => 1
  | Terminating _ k => k + 2
  | Live p => if podHash p ==? desiredPodHash hash then 0 else grace + 3
  end.

(** The owner reference can be set: the node does not already have another controller for its pod. *)
Context (Href : ∃ m, SetControllerReference (node_meta node) (desiredPodMeta node hash) = inr m).

(** One pass from each state of the pod. *)
Lemma pass_spec s :
  match pod_view s with
  | Absent => upToDate (pod_view (pass s)) ∧ result sv s (reconcilePod r node hash) = inr false
  | Terminating _ 0 => pod_view (pass s) = Absent
  | Terminating _ (S k) => gone_within k (pod_view (pass s))
  | Live p =>
    if podHash p ==? desiredPodHash hash
    then pod_view (pass s) = Live p ∧ result sv s (reconcilePod r node hash) = inr false
    else gone_within grace (pod_view (pass s)) ∧ result sv s (reconcilePod r node hash) = inr true
  end.
Proof.
  pose proof (get_pod s) as Hget. unfold pass, result, reconcilePod. cbn [exec prog_bind mbind prog_mbind do]. fold (podKey node).
  destruct (srv_step sv s (Get KPod (podKey node))) as [a s1]. destruct Hget as [Hview Ha].
  assert (∀ p, a = inr p → pod_view s1 = Absent ∨ (∃ k, pod_view s1 = Terminating p k) ∨ pod_view s1 = Live p) as Hcases.
  { intros p ->. destruct (pod_view s) as [|q|q [|k]]; simpl in Hview; [by destruct Ha as (? & ? & ?)|..]; simplify_eq; eauto. }
  destruct (pod_view s) as [|p|p k] eqn:Hs.
  - destruct Ha as (e & -> & Hnf). destruct Href as [m Hm]. rewrite Hnf, Hm. cbn.
    match goal with |- context [Create KPod ?p] => pose proof (create_pod s1 p) as Hc end.
    destruct (ref_key _ _ _ Hm) as (Hn & Hns & _ & Hann). ospecialize (Hc _ _).
    { unfold keyOf, GetName, GetNamespace, meta, Pod_meta. simpl. by rewrite Hn, Hns. }
    { done. }
    destruct (srv_step sv s1 _) as [a s2]. destruct Hc as [-> Hv]. cbn. rewrite Hv. cbn. split; [|done].
    unfold podHash. simpl. rewrite Hann. unfold desiredPodMeta, newMeta, map_index. simpl. by rewrite lookup_singleton_eq.
  - subst a. cbn. fold (podHash p). destruct (podHash p ==? desiredPodHash hash); cbn; [by rewrite Hview|].
    pose proof (delete_pod s1 p) as Hd. rewrite Hview in Hd. simpl in Hd. destruct (srv_step sv s1 _) as [a s2]. destruct Hd as [Hnf Hv].
    destruct a as [e|]; cbn; [rewrite (Hnf e eq_refl)|]; cbn; done.
  - subst a. cbn. fold (podHash p). destruct (podHash p ==? desiredPodHash hash); cbn; [rewrite Hview; destruct k; simpl; [done|lia]|].
    pose proof (delete_pod s1 p) as Hd. rewrite Hview in Hd. simpl in Hd. destruct (srv_step sv s1 _) as [a s2]. destruct Hd as [Hnf Hv].
    destruct a as [e|]; cbn; [rewrite (Hnf e eq_refl)|]; cbn; by destruct k; simpl in Hv.
Qed.

(** Every pass brings the pod closer. *)
Lemma pass_progress s : passesLeft (pod_view (pass s)) ≤ pred (passesLeft (pod_view s)).
Proof.
  pose proof (pass_spec s) as Hp. unfold upToDate in Hp.
  destruct (pod_view s) as [|p|p [|k]]; cbn in *; [|case_bool_decide as Hh| |]; unfold passesLeft, gone_within in *.
  - destruct (pod_view (pass s)); try tauto. by rewrite bool_decide_true by tauto.
  - destruct Hp as [-> _]. by rewrite bool_decide_true.
  - destruct (pod_view (pass s)); [lia|tauto|lia].
  - rewrite Hp. lia.
  - destruct (pod_view (pass s)); [lia|tauto|lia].
Qed.

Lemma passes_left n s : passesLeft (pod_view (passes n s)) ≤ passesLeft (pod_view s) - n.
Proof. induction n as [|n IH]; simpl; [lia|]. pose proof (pass_progress (passes n s)). lia. Qed.

Lemma passesLeft_0 st : passesLeft st = 0 → ∃ p, st = Live p ∧ podHash p = desiredPodHash hash.
Proof. destruct st as [|p|p k]; simpl; [lia| |lia]. case_bool_decide; [eauto|lia]. Qed.

(** An up-to-date pod is kept, and the pass does not ask for a requeue. *)
Lemma pass_kept s p : pod_view s = Live p → podHash p = desiredPodHash hash →
  pod_view (pass s) = Live p ∧ result sv s (reconcilePod r node hash) = inr false.
Proof. intros Hs Hp. pose proof (pass_spec s) as Hpass. by rewrite Hs, bool_decide_true in Hpass. Qed.

Lemma passes_kept n s p : pod_view s = Live p → podHash p = desiredPodHash hash →
  pod_view (passes n s) = Live p ∧ result sv (passes n s) (reconcilePod r node hash) = inr false.
Proof.
  intros Hs Hp. induction n as [|n [IH _]]; [by split; [|apply (pass_kept _ _ Hs Hp)]|].
  assert (pod_view (passes (S n) s) = Live p) by (by apply pass_kept). split; [done|by apply (pass_kept _ p)].
Qed.

(** C8. The rollout of a configuration finishes, against a store of pods whose
    calls do not fail and whose reads are current: from any state of the pod (none,
    running with any hash, being deleted) the passes over it reach, after at most
    [grace + 3] of them, one pod with the desired hash, which every further pass
    keeps without asking for a requeue; a pod that has the hash from the start is
    never replaced. *)
Theorem rollout_converges s :
  (∀ p k, pod_view s = Terminating p k → k ≤ grace) →
  ∃ p, podHash p = desiredPodHash hash ∧
    (∀ n, grace + 3 ≤ n → pod_view (passes n s) = Live p ∧ result sv (passes n s) (reconcilePod r node hash) = inr false) ∧
    (∀ q, pod_view s = Live q → podHash q = desiredPodHash hash → ∀ n, pod_view (passes n s) = Live q).
Proof.
  intros Hgrace. destruct (passesLeft_0 (pod_view (passes (grace + 3) s))) as (p & Hp & Hh).
  { pose proof (passes_left (grace + 3) s) as Hle. assert (passesLeft (pod_view s) ≤ grace + 3); [|lia].
    destruct (pod_view s) as [|q|q k]; simpl; [lia|case_bool_decide; lia|]. specialize (Hgrace q k eq_refl). lia. }
  exists p. split; [done|]. split.
  - intros n Hn. replace n with ((n - (grace + 3)) + (grace + 3)) by lia. unfold passes. rewrite Nat.iter_add.
    by apply passes_kept.
  - intros q Hq Hqh n. by apply passes_kept.
Qed.
End rollout.

(** ** A store of one pod *)

(** Deletion takes two reads; other calls are answered as in the sample cluster. *)
Definition pod_store_step (s : podState) (c : call) : answer c * podState :=
  match c return answer c * podState with
  | Get k key =>
    match k return answer (Get k key) * podState with
    | KPod => (match s with Absent => inl notFound | Live p | Terminating p _ => inr p end, afterGet s)
    | k => (sample_answer sample_node (Get k key), s)
    end
  | Delete k _ =>
    if decide (k = KPod) then (match s with Absent => Some notFound | _ => None end, match s with Live p => Terminating p 1 | _ => s end)
    else (None, s)
  | Create k o => (None, match cast_obj KPod o with Some p => Live p | None => s end)
  | c => (sample_answer sample_node c, s)
  end.

Definition pod_store : server := {| srv_state := podState; srv_step := pod_store_step |}.

#[export] Program Instance pod_store_ok key : PodServer pod_store key 1 := {| pod_view (s : srv_state pod_store) := s |}.
Next Obligation. intros key []; simpl; eauto. Qed.
Next Obligation. intros key [|q|q k] p; simpl; (split; [by intros ? [= <-]|simpl; try done; lia]). Qed.
Next Obligation. intros key s p _ _. done. Qed.

(** A pod of an older configuration is deleted, drained and replaced. *)
Definition stale_pod : Pod :=
  {| pod_meta := newMeta ("in1" +:+ podSuffix) "proxy" ∅ {[configHashAnnotation := "stale"]};
     pod_spec := desiredPodSpec sample_reconciler sample_node; pod_status := noPodStatus |}.

Lemma rollout_converges_witness :
  ∃ p, podHash p = desiredPodHash "h" ∧
    (∀ n, 4 ≤ n → passes pod_store sample_reconciler sample_node "h" n (Live stale_pod) = Live p ∧
       result pod_store (passes pod_store sample_reconciler sample_node "h" n (Live stale_pod)) (reconcilePod sample_reconciler sample_node "h") = inr false) ∧
    passes pod_store sample_reconciler sample_node "h" 3 (Live stale_pod) = Absent.
Proof.
  destruct (rollout_converges pod_store sample_reconciler sample_node "h" 1) with (s := Live stale_pod) as (p & Hp & Hn & _).
  { eexists. reflexivity. }
  { by intros ? ? [=]. }
  exists p. split; [exact Hp|]. split; [exact Hn|]. vm_compute. reflexivity.
Defined.
