(* ===== verification/Controllers.v ===== *)
(** * Controllers: the User, UserGroup, EgressPolicy and ExternalOutbound reconcilers

    internal/controller/{user,usergroup,egresspolicy,externaloutbound}_controller.go.
    None of them manages a workload: they write conditions and touch the
    annotations that make the SingBoxNode reconciler run. *)

From S2P Require Import Prelude GoStrings Crypto Json Api Engine K8s CredManager NodeController.

Definition reconcileTriggerAnnotation : string := "singboxoperator.shlande.top/reconcile-trigger".
Definition triggerLayout : string := "20060102T150405Z".
Definition RFC3339 : string := "2006-01-02T15:04:05Z07:00".

(** Reads the node again and stamps it (triggerNodeReconcile of the User and the EgressPolicy reconciler). *)
Definition triggerNodeReconcile (key : NamespacedName) : prog (option error) :=
  latest ← do (Get KSingBoxNode key);
  match latest with
  | inl err => Ret (Some err)
  | inr latest =>
    now ← do (NowText triggerLayout);
    do (Update KSingBoxNode (with_node_meta (with_annotation reconcileTriggerAnnotation now (node_meta latest)) latest))
  end.

(** ** User *)
Module UserReconciler.
Section user.
Context `{ConditionLib, GoStd}.

Definition findMatchingInboundNodes (user : User) : prog (error + list SingBoxNode) :=
  allNodes ← do (List KSingBoxNode (InNamespace (GetNamespace user)));
  match allNodes with
  | inl err => Ret (inl (wrapErr "listing SingBoxNodes: " err))
  | inr allNodes =>
    let matching := filter (λ n : SingBoxNode, hasRole n ProxyRoleInbound = true) allNodes in
    let ref := us_UserGroupRef (user_spec user) in
    if ref ==? "" then Ret (inr matching)
    else
      ug ← do (Get KUserGroup {| nn_Namespace := GetNamespace user; nn_Name := ref |});
      match ug with
      | inl err => if IgnoreNotFound err is Some _ then Ret (inl err) else Ret (inr matching)
      | inr ug =>
        let allowedSet := nameSet (ugs_AllowedNodes (ug_spec ug)) in
        let deniedSet := nameSet (ugs_DeniedNodes (ug_spec ug)) in
        Ret (inr (filter (λ n, IsNodeAllowed (GetName n) allowedSet deniedSet = true) matching))
      end
  end.

Definition with_user_status (st : UserStatus) (u : User) : User :=
  {| user_meta := user_meta u; user_spec := user_spec u; user_status := st |}.

(** int32(len(nodes)) *)
Definition int32_of (n : Z) : Z := ((n + 2 ^ 31) mod 2 ^ 32 - 2 ^ 31)%Z.

Definition readyStatus (latest : User) (nodes : list SingBoxNode) : UserStatus :=
  let generation := om_Generation (user_meta latest) in
  {| ust_ActiveNodeCount := int32_of (Z.of_nat (length nodes));
     ust_ActiveNodes := GetName <$> nodes;
     ust_Conditions := SetStatusCondition (ust_Conditions (user_status latest))
       {| cond_Type := "Ready"; cond_Status := ConditionTrue; cond_Reason := "Reconciled";
          cond_Message := "User active on " +:+ fmt_d (Z.of_nat (length nodes)) +:+ " nodes";
          cond_ObservedGeneration := generation |};
     ust_ObservedGeneration := generation |}.

Definition with_user_condition (c : Condition) (st : UserStatus) : UserStatus :=
  {| ust_ActiveNodeCount := ust_ActiveNodeCount st; ust_ActiveNodes := ust_ActiveNodes st;
     ust_Conditions := SetStatusCondition (ust_Conditions st) c; ust_ObservedGeneration := ust_ObservedGeneration st |}.

(** The final Status().Update and the gauge. *)
Definition writeStatus (latest : User) (st : UserStatus) : prog (Result * option error) :=
  e ← do (StatusUpdate KUser (with_user_status st latest));
  match e with
  | Some err => Ret (noResult, Some err)
  | None => _ ← do (MetricSet "singbox_proxy_users_total" [] 1); Ret (noResult, None)
  end.

Definition updateStatus (user : User) (nodes : list SingBoxNode) : prog (Result * option error) :=
  latest ← do (Get KUser (keyOf user));
  match latest with
  | inl err => Ret (noResult, Some err)
  | inr latest =>
    let latest : User := latest in
    let generation := om_Generation (user_meta latest) in
    let st := readyStatus latest nodes in
    let ref := us_UserGroupRef (user_spec latest) in
    if ref ==? "" then writeStatus latest st
    else
      ug ← do (Get KUserGroup {| nn_Namespace := GetNamespace latest; nn_Name := ref |});
      match ug with
      | inl ugErr =>
        if IgnoreNotFound ugErr is Some _ then Ret (noResult, Some ugErr)
        else writeStatus latest (with_user_condition
               {| cond_Type := "UserGroupReady"; cond_Status := ConditionFalse; cond_Reason := "UserGroupNotFound";
                  cond_Message := "UserGroup " +:+ strconv_Quote ref +:+ " not found in namespace " +:+ strconv_Quote (GetNamespace latest);
                  cond_ObservedGeneration := generation |} st)
      | inr _ =>
        writeStatus latest (with_user_condition
          {| cond_Type := "UserGroupReady"; cond_Status := ConditionTrue; cond_Reason := "UserGroupFound";
             cond_Message := ""; cond_ObservedGeneration := generation |} st)
      end
  end.

Definition Reconcile (req : NamespacedName) : prog (Result * option error) :=
  withMetrics "user" (
    user ← do (Get KUser req);
    match user with
    | inl err => if IsNotFound err then Ret (None, (noResult, None)) else failWith err
    | inr user =>
      nodes ← findMatchingInboundNodes user;
      match nodes with
      | inl err => failWith err
      | inr nodes =>
        _ ← foldM (λ _ node, _ ← triggerNodeReconcile (keyOf (node : SingBoxNode)); Ret tt) tt nodes;
        passOn (updateStatus user nodes)
      end
    end).
End user.
End UserReconciler.

(** ** UserGroup *)
Module UserGroupReconciler.
Definition with_user_meta (m : ObjectMeta) (u : User) : User :=
  {| user_meta := m; user_spec := user_spec u; user_status := user_status u |}.

(** A group that no longer exists still triggers the users that refer to it. *)
Definition Reconcile (req : NamespacedName) : prog (Result * option error) :=
  g ← do (Get KUserGroup req);
  if (if g is inl err then negb (IsNotFound err) else false)
  then Ret (noResult, if g is inl err then Some err else None)
  else
    users ← do (List KUser (InNamespace (nn_Namespace req)));
    match users with
    | inl err => Ret (noResult, Some err)
    | inr users =>
      timestamp ← do (NowText RFC3339);
      _ ← foldM (λ _ (user : User),
            if us_UserGroupRef (user_spec user) !=? nn_Name req then Ret tt
            else _ ← do (Patch KUser user
                   (with_user_meta (with_annotation reconcileTriggerAnnotation timestamp (user_meta user)) user));
                 Ret tt) tt (users : list User);
      Ret (noResult, None)
    end.
End UserGroupReconciler.

(** ** EgressPolicy *)
Module EgressPolicyReconciler.
Section policy.
Context `{GoStd, LabelSelectors, ConditionLib}.

Definition ingressMatches (policy : EgressPolicy) (nodes : list SingBoxNode) : list string :=
  GetName <$> filter (λ n, hasRole n ProxyRoleInbound &&
                           EgressPolicySelector_Matches (ps_IngressSelector (policy_spec policy)) n = true) nodes.

(** The reason and the message of the first failed check, both empty when the policy is resolved. *)
Definition validatePolicyResolution (policy : EgressPolicy) (ingressNames egressNames : list string) : string * string :=
  let spec := policy_spec policy in
  match EgressPolicySelector_Valid (ps_IngressSelector spec) with
  | Some err => ("InvalidIngressSelector", err)
  | None =>
  match EgressPolicySelector_Valid (ps_EgressSelector spec) with
  | Some err => ("InvalidEgressSelector", err)
  | None =>
  match EgressPolicyMatch_Valid (ps_Match spec) (ps_FallbackAction spec !=? "") with
  | Some err => ("InvalidMatch", err)
  | None =>
    if (ps_Action spec !=? EgressPolicyActionRoute) && (ps_Action spec !=? EgressPolicyActionReject)
    then ("InvalidAction", "unsupported action " +:+ strconv_Quote (ps_Action spec))
    else if bool_decide (length ingressNames = 0)
    then ("IngressNotFound", "ingressSelector matched no inbound SingBoxNode")
    else if (ps_FallbackAction spec !=? "") && (ps_FallbackAction spec !=? EgressPolicyActionReject)
    then ("InvalidFallbackAction", "unsupported fallbackAction " +:+ strconv_Quote (ps_FallbackAction spec))
    else if (ps_Action spec ==? EgressPolicyActionRoute) && bool_decide (length egressNames = 0)
    then ("EgressNotFound", "egressSelector matched no egress targets; policy is inactive")
    else if (ps_Action spec ==? EgressPolicyActionRoute) && negb (bool_decide (length egressNames = 1))
    then ("EgressNotUnique", "egressSelector matched " +:+ fmt_d (Z.of_nat (length egressNames)) +:+
                             " egress targets, expected exactly one")
    else ("", "")
  end end end.

(** The status written for a reason and a message. *)
Definition resolvedStatus (latest : EgressPolicy) (ingressNames egressNames : list string) (reason message : string)
    : EgressPolicyStatus :=
  let generation := om_Generation (policy_meta latest) in
  let cond ty status reason message :=
    {| cond_Type := ty; cond_Status := status; cond_Reason := reason; cond_Message := message;
       cond_ObservedGeneration := generation |} in
  let cs := pst_Conditions (policy_status latest) in
  let cs :=
    if reason !=? "" then
      let degraded := if reason ==? "EgressNotFound" then ConditionFalse else ConditionTrue in
      SetStatusCondition (SetStatusCondition cs (cond EgressPolicyDegradedConditionType degraded reason message))
        (cond EgressPolicyReadyConditionType ConditionFalse reason message)
    else
      SetStatusCondition
        (SetStatusCondition cs (cond EgressPolicyDegradedConditionType ConditionFalse "Resolved" "EgressPolicy selectors resolved"))
        (cond EgressPolicyReadyConditionType ConditionTrue "Resolved" "EgressPolicy resolved successfully") in
  {| pst_ResolvedIngresses := ingressNames;
     pst_ResolvedEgress := match egressNames with [name] => name | _ => "" end;
     pst_Conditions := cs; pst_ObservedGeneration := generation |}.

Definition with_policy_status (st : EgressPolicyStatus) (p : EgressPolicy) : EgressPolicy :=
  {| policy_meta := policy_meta p; policy_spec := policy_spec p; policy_status := st |}.

(** equality.Semantic.DeepEqual on statuses without time fields is equality. *)
Definition updateStatus (policy : EgressPolicy) (ingressNames egressNames : list string) (reason message : string)
    : prog (option error) :=
  latest ← do (Get KEgressPolicy (keyOf policy));
  match latest with
  | inl err => Ret (Some err)
  | inr latest =>
    let st := resolvedStatus latest ingressNames egressNames reason message in
    if policy_status latest ==? st then Ret None
    else do (StatusUpdate KEgressPolicy (with_policy_status st latest))
  end.

Definition Reconcile (req : NamespacedName) : prog (Result * option error) :=
  withMetrics "egresspolicy" (
    policy ← do (Get KEgressPolicy req);
    match policy with
    | inl err => if IsNotFound err then Ret (None, (noResult, None)) else failWith err
    | inr policy =>
      let ns := GetNamespace (policy : EgressPolicy) in
      nodes ← do (List KSingBoxNode (InNamespace ns));
      match nodes with
      | inl err => failWith err
      | inr nodes =>
        exts ← do (List KExternalOutbound (InNamespace ns));
        match exts with
        | inl err => failWith err
        | inr exts =>
          let ingressNames := sort_strings (ingressMatches policy nodes) in
          let egressNames := sort_strings (egressMatches policy nodes exts) in
          let '(reason, message) := validatePolicyResolution policy ingressNames egressNames in
          e ← updateStatus policy ingressNames egressNames reason message;
          match e with
          | Some err => failWith err
          | None =>
            t ← foldE (λ _ name,
                  e ← triggerNodeReconcile {| nn_Namespace := ns; nn_Name := name |};
                  Ret (or_error tt e)) tt ingressNames;
            match t with
            | inl err => failWith err
            | inr _ => Ret (None, (noResult, None))
            end
          end
        end
      end
    end).

Definition policyMapper (namespace : string) : prog (list NamespacedName) :=
  policies ← listOrNil KEgressPolicy (InNamespace namespace);
  Ret (keyOf <$> (policies : list EgressPolicy)).
End policy.
End EgressPolicyReconciler.

(** ** ExternalOutbound *)
Module ExternalOutboundReconciler.
Definition validShadowsocksMethods : list string :=
  ["aes-128-gcm"; "aes-256-gcm"; "chacha20-ietf-poly1305"; "xchacha20-ietf-poly1305";
   "2022-blake3-aes-128-gcm"; "2022-blake3-aes-256-gcm"; "2022-blake3-chacha20-poly1305"; "none"].

Record externalOutboundViolation := { reason : string; message : string }.

Definition violation (r m : string) : option externalOutboundViolation := Some {| reason := r; message := m |}.

(** requiredCredentialKeys *)
Definition requiredCredentialKeys (eob : ExternalOutbound) : list string :=
  let p := es_Protocol (eob_spec eob) in
  if p ==? ExternalProtocolShadowsocks then [CredKeyMethod; CredKeyPassword]
  else if (p ==? ExternalProtocolTrojan) || (p ==? ExternalProtocolAnyTLS) then [CredKeyPassword]
  else if p ==? ExternalProtocolHysteria2 then
    [CredKeyPassword] ++
    (if es_Hysteria2 (eob_spec eob) is Some h then (if h2_Obfs h then [CredKeyObfsPassword] else []) else [])
  else if p ==? ExternalProtocolTUIC then [CredKeyUUID; CredKeyPassword]
  else [].

Section external.
Context `{GoStd, ConditionLib}.

Definition specViolation (eob : ExternalOutbound) : option externalOutboundViolation :=
  let spec := eob_spec eob in
  let p := es_Protocol spec in
  let tlsViolation :=
    if (p ==? ExternalProtocolTrojan) || (p ==? ExternalProtocolHysteria2) || (p ==? ExternalProtocolTUIC) ||
       (p ==? ExternalProtocolAnyTLS) then
      match es_TLS spec with
      | None => violation "InvalidSpec" ("spec.tls is required for protocol " +:+ strconv_Quote p)
      | Some tls =>
        if (tls_ServerName tls ==? "") && negb (tls_Insecure tls)
        then violation "InvalidSpec" "spec.tls.serverName is required unless spec.tls.insecure is true" else None
      end
    else if (p ==? ExternalProtocolSocks5) || (p ==? ExternalProtocolShadowsocks) then
      match es_TLS spec with
      | Some _ => violation "InvalidSpec" ("spec.tls is not allowed for protocol " +:+ strconv_Quote p)
      | None => None
      end
    else None in
  match tlsViolation with
  | Some v => Some v
  | None =>
    if (if es_Hysteria2 spec is Some _ then true else false) && (p !=? ExternalProtocolHysteria2)
    then violation "InvalidSpec" "spec.hysteria2 is only allowed when spec.protocol is hysteria2"
    else if (if es_CredentialsSecretRef spec is Some _ then false else true) &&
            (p !=? ExternalProtocolSocks5) && (p !=? ExternalProtocolHTTP)
    then violation "InvalidSpec" ("spec.credentialsSecretRef is required for protocol " +:+ strconv_Quote p)
    else None
  end.

Definition nameConflict (eob : ExternalOutbound) : prog (error + option externalOutboundViolation) :=
  node ← do (Get KSingBoxNode (keyOf eob));
  match node with
  | inl err => if IsNotFound err then Ret (inr None) else Ret (inl err)
  | inr _ => Ret (inr (violation "NameConflict" ("a SingBoxNode named " +:+ strconv_Quote (GetName eob) +:+
               " exists in namespace " +:+ strconv_Quote (GetNamespace eob) +:+ " and wins the outbound name")))
  end.

(** The checks on the data of the credentials Secret named [ref]. *)
Definition secretViolation (eob : ExternalOutbound) (ref : string) (data : gmap string string)
    : option externalOutboundViolation :=
  let p := es_Protocol (eob_spec eob) in
  let has k := map_index "" data k !=? "" in
  if (p ==? ExternalProtocolSocks5) || (p ==? ExternalProtocolHTTP) then
    if negb (eqb (has CredKeyUsername) (has CredKeyPassword))
    then violation "SecretKeyMissing" ("credentials secret " +:+ strconv_Quote ref +:+ " must set both " +:+
           strconv_Quote CredKeyUsername +:+ " and " +:+ strconv_Quote CredKeyPassword +:+ " or neither")
    else None
  else
    match first_error (λ k, if has k then None else
            Some ("credentials secret " +:+ strconv_Quote ref +:+ " is missing required key " +:+ strconv_Quote k +:+
                  " for protocol " +:+ strconv_Quote p)) (requiredCredentialKeys eob) with
    | Some m => violation "SecretKeyMissing" m
    | None =>
      let method := map_index "" data CredKeyMethod in
      if (p ==? ExternalProtocolShadowsocks) && negb (slices_Contains validShadowsocksMethods method)
      then violation "InvalidMethod" ("shadowsocks method " +:+ strconv_Quote method +:+ " in credentials secret " +:+
             strconv_Quote ref +:+ " is not supported")
      else None
    end.

Definition credentialViolation (eob : ExternalOutbound) : prog (error + option externalOutboundViolation) :=
  match es_CredentialsSecretRef (eob_spec eob) with
  | None => Ret (inr None)
  | Some ref =>
    secret ← do (Get KSecret {| nn_Namespace := GetNamespace eob; nn_Name := ref |});
    match secret with
    | inl err =>
      if IsNotFound err
      then Ret (inr (violation "SecretNotFound" ("credentials secret " +:+ strconv_Quote ref +:+ " not found in namespace " +:+
                  strconv_Quote (GetNamespace eob))))
      else Ret (inl err)
    | inr secret => Ret (inr (secretViolation eob ref (Data secret)))
    end
  end.

Definition with_external_status (st : ExternalOutboundStatus) (e : ExternalOutbound) : ExternalOutbound :=
  {| eob_meta := eob_meta e; eob_spec := eob_spec e; eob_status := st |}.

Definition acceptedStatus (latest : ExternalOutbound) (status reason message : string) : ExternalOutboundStatus :=
  let generation := om_Generation (eob_meta latest) in
  {| est_Conditions := SetStatusCondition (est_Conditions (eob_status latest))
       {| cond_Type := ExternalOutboundAcceptedConditionType; cond_Status := status; cond_Reason := reason;
          cond_Message := message; cond_ObservedGeneration := generation |};
     est_ObservedGeneration := generation |}.

Definition setAccepted (eob : ExternalOutbound) (status reason message : string) : prog (Result * option error) :=
  latest ← do (Get KExternalOutbound (keyOf eob));
  match latest with
  | inl err => Ret (noResult, Some err)
  | inr latest =>
    e ← do (StatusUpdate KExternalOutbound (with_external_status (acceptedStatus latest status reason message) latest));
    match e with
    | Some err => if IsConflict err then Ret ({| Requeue := true; RequeueAfter := 0 |}, None) else Ret (noResult, Some err)
    | None => Ret (noResult, None)
    end
  end.

(** The first violation: spec, then name, then credentials. *)
Definition findViolation (eob : ExternalOutbound) : prog (error + option externalOutboundViolation) :=
  match specViolation eob with
  | Some v => Ret (inr (Some v))
  | None =>
    v ←? nameConflict eob;
    match v with
    | Some v => Ret (inr (Some v))
    | None => credentialViolation eob
    end
  end.

Definition Reconcile (req : NamespacedName) : prog (Result * option error) :=
  withMetrics "externaloutbound" (
    eob ← do (Get KExternalOutbound req);
    match eob with
    | inl err => if IsNotFound err then Ret (None, (noResult, None)) else failWith err
    | inr eob =>
      v ← findViolation eob;
      match v with
      | inl err => failWith err
      | inr v =>
        res ← match v with
              | Some v => setAccepted eob ConditionFalse (reason v) (message v)
              | None => setAccepted eob ConditionTrue "Valid" "ExternalOutbound spec is valid"
              end;
        Ret (snd res, res)
      end
    end).

Definition credentialsSecretMapper (o : anyObj) : prog (list NamespacedName) :=
  match o with
  | existT KSecret secret =>
    let secret : Secret := secret in
    exts ← listOrNil KExternalOutbound (InNamespace (GetNamespace secret));
    Ret (keyOf <$> filter (λ e : ExternalOutbound, es_CredentialsSecretRef (eob_spec e) = Some (GetName secret))
                     (exts : list ExternalOutbound))
  | _ => Ret []
  end.
End external.
End ExternalOutboundReconciler.
