(* ===== verification/ControllerProps.v ===== *)
(** * ControllerProps: guarantees of the other reconcilers *)

From S2P Require Import Prelude GoStrings Crypto Json Api Engine K8s CredManager NodeController Controllers Samples SampleCluster.

(** ** EgressPolicy *)
Section policy.
Import EgressPolicyReconciler.
Context `{GoStd, LabelSelectors, ConditionLib}.

Lemma sort_strings_singleton l x : sort_strings l = [x] ↔ l = [x].
Proof.
  split; [|by intros ->]. intros Hs. apply Permutation_singleton_r. rewrite <-Hs. symmetry. apply sort_by_perm.
Qed.

Lemma list_singleton_exists {A} (l : list A) : length l = 1 → ∃ x, l = [x].
Proof. destruct l as [|x [|]]; try done. eauto. Qed.

(** One verdict: a policy that the EgressPolicy controller marks resolved
    is one the node reconciler accepts, with the same egress: for a route policy
    the name in status.resolvedEgress is the one resolveEgressPolicy returns. *)
Theorem policy_verdicts_agree policy latest nodes exts :
  let ingressNames := sort_strings (ingressMatches policy nodes) in
  let egressNames := sort_strings (egressMatches policy nodes exts) in
  validatePolicyResolution policy ingressNames egressNames = ("", "") →
  snd (resolveEgressPolicy policy nodes exts) = "" ∧ ingressNames ≠ [] ∧
  (ps_Action (policy_spec policy) = EgressPolicyActionRoute →
   resolveEgressPolicy policy nodes exts =
     (egressNames, pst_ResolvedEgress (resolvedStatus latest ingressNames egressNames "" ""), "") ∧
   egressNames = [pst_ResolvedEgress (resolvedStatus latest ingressNames egressNames "" "")]).
Proof.
  intros ing egr. unfold validatePolicyResolution, resolveEgressPolicy.
  destruct (EgressPolicySelector_Valid (ps_IngressSelector _)); [done|].
  destruct (EgressPolicySelector_Valid (ps_EgressSelector _)); [done|].
  destruct (EgressPolicyMatch_Valid _ _); [done|]. destruct (_ && _) eqn:Hact; [done|].
  destruct (bool_decide (length ing = 0)) eqn:Hing; [done|]. bool_prop.
  destruct ((ps_FallbackAction (policy_spec policy) !=? "") && _); [done|].
  assert (ing ≠ []) as Hne by (by intros ->).
  destruct (bool_decide (ps_Action _ = EgressPolicyActionRoute)) eqn:Hr; bool_prop.
  - rewrite Hr. simpl. destruct (bool_decide (length egr = 0)) eqn:Hz; [done|].
    destruct (bool_decide (length egr = 1)) eqn:Hone; [|done]. bool_prop. intros _.
    destruct (list_singleton_exists egr) as [x Hx]; [done|].
    assert (egressMatches policy nodes exts = [x]) as -> by (by apply sort_strings_singleton). by rewrite Hx.
  - simpl in Hact. bool_prop. rewrite Hact. intros _. by split_and!; [rewrite bool_decide_eq_true_2| |].
Qed.

(** The conditions tell the verdict apart: both are written for the
    observed generation with the verdict's reason, Ready is True exactly when the
    policy is resolved, and Degraded is True exactly for a verdict other than
    resolved or EgressNotFound. *)
Theorem policy_conditions latest ingressNames egressNames reason message :
  let st := resolvedStatus latest ingressNames egressNames reason message in
  ∃ ready degraded,
    findCondition EgressPolicyReadyConditionType (pst_Conditions st) = Some ready ∧
    findCondition EgressPolicyDegradedConditionType (pst_Conditions st) = Some degraded ∧
    cond_ObservedGeneration ready = om_Generation (policy_meta latest) ∧
    cond_ObservedGeneration degraded = om_Generation (policy_meta latest) ∧
    cond_Reason ready = (if reason ==? "" then "Resolved" else reason) ∧
    (cond_Status ready = ConditionTrue ↔ reason = "") ∧
    (cond_Status degraded = ConditionTrue ↔ reason ≠ "" ∧ reason ≠ "EgressNotFound").
Proof.
  unfold resolvedStatus. cbn zeta. simpl pst_Conditions.
  destruct (bool_decide (reason = "")) eqn:Hr; bool_prop; simpl.
  - eexists _, _. split_and!; [exact (find_set_same _ _)|rewrite find_set_other by done; exact (find_set_same _ _)|done..|naive_solver].
  - eexists _, _. split_and!; [exact (find_set_same _ _)|rewrite find_set_other by done; exact (find_set_same _ _)|done..|].
    simpl. case_bool_decide; naive_solver.
Qed.
End policy.

(** ** ExternalOutbound *)
Section external.
Import ExternalOutboundReconciler.
Context `{GoStd, ConditionLib}.

Lemma lookup_nonEmptyData data k : map_index "" (nonEmptyData data) k = map_index "" data k.
Proof.
  unfold map_index, nonEmptyData. rewrite map_lookup_filter. destruct (data !! k) as [v|]; simpl; [|done].
  case_guard; simpl; [done|]. by destruct (decide (v = "")) as [->|].
Qed.

Lemma secretViolation_keys eob ref data k :
  secretViolation eob ref data = None → k ∈ requiredCredentialKeys eob →
  map_index "" data k ≠ "".
Proof.
  unfold secretViolation. intros Hv Hk. destruct (_ || _) eqn:Hp.
  - exfalso. assert (requiredCredentialKeys eob = []) as Hnil; [|by rewrite Hnil in Hk; apply elem_of_nil in Hk].
    unfold requiredCredentialKeys.
    by apply orb_true_iff in Hp as [->%bool_decide_eq_true| ->%bool_decide_eq_true].
  - destruct (first_error _ _) eqn:He; [done|]. rewrite first_error_None, Forall_forall in He.
    specialize (He _ Hk). intros Hz. by rewrite Hz in He.
Qed.

(** An accepted ExternalOutbound is usable: when the spec, and the data of
    the referenced Secret if any, raise no violation, the engine finds every
    credential it needs in what GetExternalCredentials returns for that Secret,
    so it does not silently drop the outbound. *)
Theorem accepted_is_usable eob :
  specViolation eob = None →
  match es_CredentialsSecretRef (eob_spec eob) with
  | None => hasRequiredExternalCreds eob ∅ = true
  | Some ref => ∀ data, secretViolation eob ref data = None → hasRequiredExternalCreds eob (nonEmptyData data) = true
  end.
Proof.
  intros Hspec. destruct (es_CredentialsSecretRef (eob_spec eob)) as [ref|] eqn:Href.
  - intros data Hv. pose proof (λ k, secretViolation_keys eob ref data k Hv) as Hkeys. clear Hv Hspec.
    unfold requiredCredentialKeys, hasRequiredExternalCreds in *. cbn [forallb].
    rewrite !lookup_nonEmptyData. set (p := es_Protocol (eob_spec eob)) in *.
    assert (∀ k, map_index "" data k ≠ "" → (map_index "" data k !=? "") = true) as Hb
      by (intros; by rewrite bool_decide_eq_false_2).
    destruct (p ==? ExternalProtocolShadowsocks) eqn:E1; [by rewrite !Hb by (apply Hkeys; set_solver)|].
    destruct (p ==? ExternalProtocolTUIC) eqn:E2.
    { bool_prop. rewrite E2 in Hkeys. by rewrite !Hb by (apply Hkeys; vm_compute; set_solver). }
    destruct (p ==? ExternalProtocolTrojan) eqn:E3.
    { bool_prop. simpl in *. rewrite Hb by (apply Hkeys; set_solver). simpl. rewrite E3. done. }
    destruct (p ==? ExternalProtocolAnyTLS) eqn:E4.
    { bool_prop. rewrite orb_true_r in *. rewrite Hb by (apply Hkeys; set_solver). simpl. rewrite E4. done. }
    destruct (p ==? ExternalProtocolHysteria2) eqn:E5; [|done]. simpl in *.
    rewrite Hb by (apply Hkeys; set_solver). simpl. destruct (es_Hysteria2 (eob_spec eob)) as [h|]; [|done].
    destruct (h2_Obfs h); [|done]. simpl. rewrite bool_decide_eq_false_2; [done|]. apply Hkeys. set_solver.
  - revert Hspec. unfold specViolation, hasRequiredExternalCreds. rewrite Href.
    set (p := es_Protocol (eob_spec eob)).
    destruct (p ==? ExternalProtocolSocks5) eqn:E1; bool_prop; [rewrite E1; vm_compute; done|].
    destruct (p ==? ExternalProtocolHTTP) eqn:E2; bool_prop; [rewrite E2; vm_compute; done|].
    intros Hs. exfalso. revert Hs. repeat (case_match; simplify_eq; try done).
Qed.
End external.

(** ** Witnesses *)
Lemma policy_verdicts_agree_witness :
  let ing := sort_strings (EgressPolicyReconciler.ingressMatches sample_policy [sample_node; sample_out]) in
  let egr := sort_strings (egressMatches sample_policy [sample_node; sample_out] [sample_ext]) in
  snd (resolveEgressPolicy sample_policy [sample_node; sample_out] [sample_ext]) = "" ∧ ing ≠ [] ∧
  (ps_Action (policy_spec sample_policy) = EgressPolicyActionRoute →
   resolveEgressPolicy sample_policy [sample_node; sample_out] [sample_ext] =
     (egr, pst_ResolvedEgress (EgressPolicyReconciler.resolvedStatus sample_policy ing egr "" ""), "") ∧
   egr = [pst_ResolvedEgress (EgressPolicyReconciler.resolvedStatus sample_policy ing egr "" "")]).
Proof. apply (policy_verdicts_agree sample_policy sample_policy). by vm_compute. Defined.

Lemma accepted_is_usable_witness : hasRequiredExternalCreds sample_ext ∅ = true.
Proof. apply (accepted_is_usable sample_ext). by vm_compute. Defined.
