(* ===== verification/Webhooks.v ===== *)
(** * Webhooks: admission validation

    internal/webhook and internal/webhook/v1alpha1.  A validator returns the
    field errors it collects; admission is refused when there is any
    (ErrorList.ToAggregate of an empty list is nil). *)

From S2P Require Import Prelude GoStrings GoNet Json Api Engine K8s CredManager NodeController Controllers Samples.
From Stdlib Require Import Ascii.

(** ** Field errors *)
Inductive fieldErrorType := Required | Invalid | Duplicate | NotSupported | Forbidden.

(** The detail is the offending value for Duplicate and NotSupported; BadValue, which repeats the
    field's own value, is left out. *)
Record fieldError := { fe_Type : fieldErrorType; fe_Path : string; fe_Detail : string }.

Definition fieldErr (t : fieldErrorType) (path detail : string) : fieldError :=
  {| fe_Type := t; fe_Path := path; fe_Detail := detail |}.

(** [field.NewPath(p).Index(i)] *)
Definition indexPath (p : string) (i : nat) : string := p +:+ "[" +:+ fmt_d (Z.of_nat i) +:+ "]".

(** [if c { errs = append(errs, e) }] *)
Definition errorIf (c : bool) (e : fieldError) : list fieldError := if c then [e] else [].

(** A loop over [l] with an index and a state that appends errors. *)
Fixpoint scan {A St E} (step : St → nat → A → St * list E) (i : nat) (st : St) (l : list A) : list E :=
  match l with
  | [] => []
  | x :: l => let '(st, es) := step st i x in es ++ scan step (S i) st l
  end.

(** ** SingBoxNode *)
Record SingBoxNodeWebhook := { NodePortRangeMin : Z; NodePortRangeMax : Z }.

Definition inNodePortRange (w : SingBoxNodeWebhook) (port : Z) : bool :=
  if (NodePortRangeMin w =? 0)%Z && (NodePortRangeMax w =? 0)%Z then false
  else (NodePortRangeMin w <=? port)%Z && (port <=? NodePortRangeMax w)%Z.

(** The bytes of the string: a space is never part of a longer UTF-8 sequence. *)
Definition isValidHostname (hostname : string) : bool :=
  negb ((String.length hostname =? 0) || (253 <? String.length hostname)) && negb (has_char " "%char hostname).

Definition nodePortAdvice : string :=
  "]; hostPort in this range is rejected by Cilium — use a port outside this range".

Definition protocolDuplicates (l : list ProtocolConfig) : list fieldError :=
  scan (λ (seen : gset string) i p,
    ({[pc_Protocol p]} ∪ seen,
     errorIf (bool_decide (pc_Protocol p ∈ seen))
       (fieldErr Duplicate (indexPath "spec.supportedProtocols" i +:+ ".protocol") (pc_Protocol p)))) 0 ∅ l.

Definition portErrors (w : SingBoxNodeWebhook) (l : list ProtocolConfig) : list fieldError :=
  scan (λ (used : gmap Z string) i p,
    let path := indexPath "spec.supportedProtocols" i +:+ ".port" in
    if bool_decide (pc_Port p = 0%Z) then (used, [])
    else
      (<[pc_Port p := indexPath "supportedProtocols" i +:+ ".port"]> used,
       match used !! pc_Port p with
       | Some existing => [fieldErr Invalid path ("port conflict with " +:+ existing)]
       | None => []
       end ++
       errorIf (inNodePortRange w (pc_Port p))
         (fieldErr Invalid path ("port " +:+ fmt_d (pc_Port p) +:+ " falls within the Kubernetes NodePort range [" +:+
            fmt_d (NodePortRangeMin w) +:+ ", " +:+ fmt_d (NodePortRangeMax w) +:+ nodePortAdvice)))) 0 ∅ l.

(** The two loops over allowedInbounds and allowedOutbounds. *)
Definition allowListErrors (field : string) (l : list string) : list fieldError :=
  scan (λ (seen : gset string) i entry,
    let path := indexPath ("spec." +:+ field) i in
    ({[entry]} ∪ seen,
     errorIf (entry ==? "") (fieldErr Invalid path (field +:+ " entry must not be empty")) ++
     errorIf (bool_decide (entry ∈ seen)) (fieldErr Duplicate path entry))) 0 ∅ l.

Section validators.
Context `{GoStd}.

Definition addressErrors (address : string) : list fieldError :=
  if address ==? "" then [fieldErr Required "spec.address" "address must not be empty"]
  else if net_ParseIP address then []
  else errorIf (negb (isValidHostname address))
         (fieldErr Invalid "spec.address" "address must be a valid IP address or hostname").

Definition inboundErrors (spec : SingBoxNodeSpec) : list fieldError :=
  if negb (slices_Contains (ns_Roles spec) ProxyRoleInbound) then []
  else
    errorIf (ns_Tag spec ==? "default")
      (fieldErr Invalid "spec.tag" (dquote +:+ "default" +:+ dquote +:+ " is reserved for untagged inbound nodes; choose a different tag value")) ++
    (if bool_decide (length (ns_SupportedProtocols spec) = 0)
     then [fieldErr Required "spec.supportedProtocols" "inbound nodes must declare at least one supported protocol with a port"]
     else
       let effectiveProto := if ns_InboundProtocol spec ==? "" then "hysteria2" else ns_InboundProtocol spec in
       errorIf (negb (existsb (λ p, pc_Protocol p ==? effectiveProto) (ns_SupportedProtocols spec)))
         (fieldErr Invalid "spec.inboundProtocol" ("effective inbound protocol " +:+ strconv_Quote effectiveProto +:+
            " must be present in spec.supportedProtocols (add an entry with protocol=" +:+ strconv_Quote effectiveProto +:+
            " and the desired port)"))).

Definition validateSingBoxNode (w : SingBoxNodeWebhook) (node : SingBoxNode) : list fieldError :=
  let spec := node_spec node in
  addressErrors (ns_Address spec) ++
  protocolDuplicates (ns_SupportedProtocols spec) ++
  portErrors w (ns_SupportedProtocols spec) ++
  errorIf (bool_decide (ns_RelayPort spec ≠ 0%Z) && inNodePortRange w (ns_RelayPort spec))
    (fieldErr Invalid "spec.relayPort" ("relayPort " +:+ fmt_d (ns_RelayPort spec) +:+
       " falls within the Kubernetes NodePort range [" +:+ fmt_d (NodePortRangeMin w) +:+ ", " +:+ fmt_d (NodePortRangeMax w) +:+ nodePortAdvice)) ++
  errorIf (bool_decide (length (ns_Roles spec) = 0)) (fieldErr Required "spec.roles" "at least one role is required") ++
  scan (λ (_ : unit) i role,
    (tt, errorIf ((role !=? ProxyRoleInbound) && (role !=? ProxyRoleOutbound))
           (fieldErr NotSupported (indexPath "spec.roles" i) role))) 0 tt (ns_Roles spec) ++
  allowListErrors "allowedInbounds" (ns_AllowedInbounds spec) ++
  allowListErrors "allowedOutbounds" (ns_AllowedOutbounds spec) ++
  inboundErrors spec.

(** ** EgressPolicy *)
Definition optError (path : string) (e : option string) : list fieldError :=
  match e with Some e => [fieldErr Invalid path e] | None => [] end.

Definition validateEgressPolicy `{LabelSelectors} (policy : EgressPolicy) : list fieldError :=
  let spec := policy_spec policy in
  let sel := ps_EgressSelector spec in
  errorIf ((ps_Action spec !=? EgressPolicyActionRoute) && (ps_Action spec !=? EgressPolicyActionReject))
    (fieldErr NotSupported "spec.action" (ps_Action spec)) ++
  optError "spec.ingressSelector" (EgressPolicySelector_Valid (ps_IngressSelector spec)) ++
  optError "spec.egressSelector" (EgressPolicySelector_Valid sel) ++
  optError "spec.match" (EgressPolicyMatch_Valid (ps_Match spec) (ps_FallbackAction spec !=? "")) ++
  errorIf ((ps_FallbackAction spec !=? "") && (ps_FallbackAction spec !=? EgressPolicyActionReject))
    (fieldErr NotSupported "spec.fallbackAction" (ps_FallbackAction spec)) ++
  errorIf ((ps_Action spec ==? EgressPolicyActionRoute) && bool_decide (MatchNames sel = []) &&
           bool_decide (MatchLabels sel = ∅) && bool_decide (length (MatchExpressions sel) = 0))
    (fieldErr Required "spec.egressSelector" "egressSelector is required for route actions").

(** ** ExternalOutbound *)
Definition validateExternalOutbound (eob : ExternalOutbound) : list fieldError :=
  let spec := eob_spec eob in
  let p := es_Protocol spec in
  (if (p ==? ExternalProtocolTrojan) || (p ==? ExternalProtocolHysteria2) || (p ==? ExternalProtocolTUIC) ||
      (p ==? ExternalProtocolAnyTLS) then
     match es_TLS spec with
     | None => [fieldErr Required "spec.tls" ("tls is required for protocol " +:+ strconv_Quote p)]
     | Some tls => errorIf ((tls_ServerName tls ==? "") && negb (tls_Insecure tls))
                     (fieldErr Required "spec.tls.serverName" "serverName is required unless insecure is true")
     end
   else if (p ==? ExternalProtocolSocks5) || (p ==? ExternalProtocolShadowsocks) then
     match es_TLS spec with
     | Some _ => [fieldErr Forbidden "spec.tls" ("tls is not allowed for protocol " +:+ strconv_Quote p)]
     | None => []
     end
   else []) ++
  errorIf ((if es_Hysteria2 spec is Some _ then true else false) && (p !=? ExternalProtocolHysteria2))
    (fieldErr Forbidden "spec.hysteria2" "hysteria2 options are only allowed when protocol is hysteria2") ++
  errorIf ((if es_CredentialsSecretRef spec is Some _ then false else true) && (p !=? ExternalProtocolSocks5) &&
           (p !=? ExternalProtocolHTTP))
    (fieldErr Required "spec.credentialsSecretRef" ("credentialsSecretRef is required for protocol " +:+ strconv_Quote p)).
End validators.

(** ** User and UserGroup *)
(** k8s.io/apimachinery validation.IsDNS1123Subdomain: the violated rules, none for a valid name. *)
Class DNSNames := { IsDNS1123Subdomain : string → list string }.

Section names.
Context `{DNSNames}.

Definition subdomainError (path name : string) : list fieldError :=
  match IsDNS1123Subdomain name with
  | [] => []
  | e :: _ => [fieldErr Invalid path ("must be a valid DNS subdomain: " +:+ e)]
  end.

Definition validateUser (user : User) : list fieldError :=
  errorIf (us_AuthSecret_Name (user_spec user) ==? "")
    (fieldErr Required "spec.authSecret.name" "authSecret.name must not be empty") ++
  (if us_UserGroupRef (user_spec user) !=? ""
   then subdomainError "spec.userGroupRef" (us_UserGroupRef (user_spec user)) else []).

Definition validateUserGroup (ug : UserGroup) : list fieldError :=
  scan (λ (_ : unit) i name, (tt, subdomainError (indexPath "spec.allowedNodes" i) name)) 0 tt (ugs_AllowedNodes (ug_spec ug)) ++
  scan (λ (_ : unit) i name, (tt, subdomainError (indexPath "spec.deniedNodes" i) name)) 0 tt (ugs_DeniedNodes (ug_spec ug)).
End names.

(** ** The admission interface *)

(** admission.Validator: the errors a request of each verb is refused with, none
    when it is admitted.  The validators return no warnings. *)
Record Validator (A : Type) := {
  ValidateCreate : A → list fieldError;
  ValidateUpdate : A → A → list fieldError;
  ValidateDelete : A → list fieldError;
}.
Arguments ValidateCreate {A} _ _.
Arguments ValidateUpdate {A} _ _ _.
Arguments ValidateDelete {A} _ _.

Definition SingBoxNode_Validator `{GoStd} (w : SingBoxNodeWebhook) : Validator SingBoxNode := {|
  ValidateCreate node := validateSingBoxNode w node;
  ValidateUpdate oldNode newNode := validateSingBoxNode w newNode;
  ValidateDelete node := [];
|}.

Definition User_Validator `{DNSNames} : Validator User := {|
  ValidateCreate user := validateUser user;
  ValidateUpdate oldUser newUser := validateUser newUser;
  ValidateDelete user := [];
|}.

Definition EgressPolicy_Validator `{GoStd, LabelSelectors} : Validator EgressPolicy := {|
  ValidateCreate policy := validateEgressPolicy policy;
  ValidateUpdate oldPolicy policy := validateEgressPolicy policy;
  ValidateDelete policy := [];
|}.

Definition UserGroup_Validator `{DNSNames} : Validator UserGroup := {|
  ValidateCreate ug := validateUserGroup ug;
  ValidateUpdate oldObj newObj := validateUserGroup newObj;
  ValidateDelete ug := [];
|}.

Definition ExternalOutbound_Validator `{GoStd} : Validator ExternalOutbound := {|
  ValidateCreate eob := validateExternalOutbound eob;
  ValidateUpdate oldObj newObj := validateExternalOutbound newObj;
  ValidateDelete eob := [];
|}.

(** admission.Defaulter of SingBoxNode and User: nothing is defaulted. *)
Definition SingBoxNode_Default (node : SingBoxNode) : SingBoxNode := node.
Definition User_Default (user : User) : User := user.

(** An admission request for an object of type [A], and the verdict of its webhooks:
    the defaulter runs first, the validator sees its result. *)
Inductive AdmissionRequest (A : Type) :=
  | CreateRequest (o : A)
  | UpdateRequest (old new : A)
  | DeleteRequest (o : A).
Arguments CreateRequest {A} _.
Arguments UpdateRequest {A} _ _.
Arguments DeleteRequest {A} _.

Record Webhook (A : Type) := { wh_Defaulter : option (A → A); wh_Validator : Validator A }.
Arguments wh_Defaulter {A} _.
Arguments wh_Validator {A} _.

(** The object that is stored, or the errors. *)
Definition admission {A} (wh : Webhook A) (req : AdmissionRequest A) : list fieldError + option A :=
  let dflt := default id (wh_Defaulter wh) in
  let verdict errs o := match errs with [] => inr o | _ => inl errs end in
  match req with
  | CreateRequest o => let o := dflt o in verdict (ValidateCreate (wh_Validator wh) o) (Some o)
  | UpdateRequest old new => let new := dflt new in verdict (ValidateUpdate (wh_Validator wh) old new) (Some new)
  | DeleteRequest o => verdict (ValidateDelete (wh_Validator wh) o) None
  end.

(** The webhooks that the Setup functions complete. *)
Definition SetupSingBoxNodeWebhookWithManager `{GoStd} (nodePortRangeMin nodePortRangeMax : Z) : Webhook SingBoxNode :=
  let wh := {| NodePortRangeMin := nodePortRangeMin; NodePortRangeMax := nodePortRangeMax |} in
  {| wh_Defaulter := Some SingBoxNode_Default; wh_Validator := SingBoxNode_Validator wh |}.
Definition SetupUserWebhookWithManager `{DNSNames} : Webhook User :=
  {| wh_Defaulter := Some User_Default; wh_Validator := User_Validator |}.
Definition SetupEgressPolicyWebhookWithManager `{GoStd, LabelSelectors} : Webhook EgressPolicy :=
  {| wh_Defaulter := None; wh_Validator := EgressPolicy_Validator |}.
Definition SetupUserGroupWebhookWithManager `{DNSNames} : Webhook UserGroup :=
  {| wh_Defaulter := None; wh_Validator := UserGroup_Validator |}.
Definition SetupExternalOutboundWebhookWithManager `{GoStd} : Webhook ExternalOutbound :=
  {| wh_Defaulter := None; wh_Validator := ExternalOutbound_Validator |}.

(** ** What admission guarantees *)
Lemma errorIf_nil c e : errorIf c e = [] ↔ c = false.
Proof. by destruct c. Qed.

Lemma scan_nil_unit {A E} (f : nat → A → list E) (P : A → Prop) i l :
  (∀ i x, f i x = [] ↔ P x) → scan (λ (_ : unit) i x, (tt, f i x)) i tt l = [] ↔ Forall P l.
Proof.
  intros Hf. revert i. induction l as [|x l IH]; intros i; simpl; [by split|].
  rewrite app_nil, Forall_cons, IH, Hf. done.
Qed.

(** A loop that rejects values already seen, and values that fail [P]. *)
Lemma scan_nil_seen {A E} `{Countable B} (key : A → B) (f : gset B → nat → A → list E) (P : A → Prop) i seen l :
  (∀ seen i x, f seen i x = [] ↔ P x ∧ key x ∉ seen) →
  scan (λ seen i x, ({[key x]} ∪ seen, f seen i x)) i seen l = [] ↔
  Forall P l ∧ NoDup (key <$> l) ∧ ∀ x, x ∈ l → key x ∉ seen.
Proof.
  intros Hf. revert i seen. induction l as [|x l IH]; intros i seen; simpl.
  { split; [|done]. intros _. split_and!; [constructor..|]. by intros x ?%elem_of_nil. }
  rewrite app_nil, IH, Hf, Forall_cons, NoDup_cons. setoid_rewrite elem_of_cons. split.
  - intros [[? ?] (? & ? & Hd)]. split_and!; [done|done| |done|].
    + intros (y & Heq & Hy)%list_elem_of_fmap. apply (Hd y Hy). set_solver.
    + intros y [->|Hy]; [done|]. specialize (Hd y Hy). set_solver.
  - intros ([? ?] & [Hx ?] & Hd). split; [split; [done|auto]|]. split_and!; [done..|]. intros y Hy.
    assert (key y ≠ key x). { intros Heq. apply Hx. rewrite <-Heq. by apply list_elem_of_fmap_2. }
    specialize (Hd y). set_solver.
Qed.

Definition usedPorts (l : list ProtocolConfig) : list Z := filter (λ p, p ≠ 0%Z) (pc_Port <$> l).

Lemma portErrors_nil w l :
  portErrors w l = [] ↔ NoDup (usedPorts l) ∧ Forall (λ p, inNodePortRange w p = false) (usedPorts l).
Proof.
  unfold portErrors. match goal with |- scan ?f _ _ _ = [] ↔ _ => set (step := f) end.
  assert (∀ i used, scan step i used l = [] ↔
    (NoDup (usedPorts l) ∧ Forall (λ p, inNodePortRange w p = false) (usedPorts l)) ∧ ∀ p, p ∈ usedPorts l → used !! p = None) as ->.
  { unfold usedPorts. induction l as [|x l IH]; intros i used; simpl.
    - split; [|done]. intros _. split; [split; constructor|]. by intros p ?%elem_of_nil.
    - rewrite filter_cons. unfold step at 1. case_bool_decide as Hz; simpl.
      + rewrite decide_False by (intros Hn; done). apply IH.
      + rewrite decide_True by done. rewrite !app_nil, errorIf_nil, IH, NoDup_cons, Forall_cons.
        setoid_rewrite elem_of_cons. destruct (used !! pc_Port x) eqn:Hu; split.
        * by intros [[? _] _].
        * intros [_ Hd]. specialize (Hd (pc_Port x)). naive_solver congruence.
        * intros [[_ ?] [[? ?] Hd]]. assert (pc_Port x ∉ filter (λ p, p ≠ 0%Z) (pc_Port <$> l)).
          { intros Hin. specialize (Hd _ Hin). by rewrite lookup_insert_eq in Hd. }
          split; [done|]. intros p [->|Hp]; [done|]. specialize (Hd _ Hp). by apply lookup_insert_None in Hd as [? _].
        * intros [[[Hx ?] [? ?]] Hd]. split_and!; try done. intros p Hp. apply lookup_insert_None. split; [auto|]. by intros <-. }
  split; [by intros [? _]|]. intros. split; [done|]. intros. apply lookup_empty.
Qed.

(** The well-formed nodes. *)
Record ValidNode `{GoStd} (w : SingBoxNodeWebhook) (spec : SingBoxNodeSpec) : Prop := {
  vn_address : ns_Address spec ≠ "" ∧
    (net_ParseIP (ns_Address spec) = true ∨ String.length (ns_Address spec) ≤ 253 ∧ has_char " "%char (ns_Address spec) = false);
  vn_protocols : NoDup (pc_Protocol <$> ns_SupportedProtocols spec);
  vn_ports : NoDup (usedPorts (ns_SupportedProtocols spec)) ∧
    Forall (λ p, inNodePortRange w p = false) (usedPorts (ns_SupportedProtocols spec));
  vn_relay : ns_RelayPort spec = 0%Z ∨ inNodePortRange w (ns_RelayPort spec) = false;
  vn_roles : ns_Roles spec ≠ [] ∧ Forall (λ r, r = ProxyRoleInbound ∨ r = ProxyRoleOutbound) (ns_Roles spec);
  vn_inbounds : Forall (λ s, s ≠ "") (ns_AllowedInbounds spec) ∧ NoDup (ns_AllowedInbounds spec);
  vn_outbounds : Forall (λ s, s ≠ "") (ns_AllowedOutbounds spec) ∧ NoDup (ns_AllowedOutbounds spec);
  vn_inbound : ProxyRoleInbound ∈ ns_Roles spec → ns_Tag spec ≠ "default" ∧
    ∃ p, p ∈ ns_SupportedProtocols spec ∧
      pc_Protocol p = (if ns_InboundProtocol spec ==? "" then "hysteria2" else ns_InboundProtocol spec);
}.

Lemma allowListErrors_nil field l : allowListErrors field l = [] ↔ Forall (λ s, s ≠ "") l ∧ NoDup l.
Proof.
  unfold allowListErrors. rewrite (scan_nil_seen id _ (λ s, s ≠ "")).
  - rewrite list_fmap_id. split; [naive_solver|]. intros [? ?]. split_and!; [done..|]. set_solver.
  - intros seen i x. rewrite app_nil, !errorIf_nil, !bool_decide_eq_false. done.
Qed.

Lemma addressErrors_nil `{GoStd} a :
  addressErrors a = [] ↔ a ≠ "" ∧ (net_ParseIP a = true ∨ String.length a ≤ 253 ∧ has_char " "%char a = false).
Proof.
  unfold addressErrors. case_bool_decide as Ha; [naive_solver|]. destruct (net_ParseIP a); [naive_solver|].
  rewrite errorIf_nil, negb_false_iff. unfold isValidHostname. destruct a as [|c a]; [done|].
  rewrite andb_true_iff, !negb_true_iff, orb_false_iff, Nat.ltb_ge. simpl. naive_solver.
Qed.

Lemma inboundErrors_nil `{GoStd} spec :
  inboundErrors spec = [] ↔ (ProxyRoleInbound ∈ ns_Roles spec → ns_Tag spec ≠ "default" ∧
    ∃ p, p ∈ ns_SupportedProtocols spec ∧
      pc_Protocol p = (if ns_InboundProtocol spec ==? "" then "hysteria2" else ns_InboundProtocol spec)).
Proof.
  unfold inboundErrors. destruct (slices_Contains (ns_Roles spec) ProxyRoleInbound) eqn:Hr; simpl.
  2: { apply slices_Contains_false in Hr. naive_solver. }
  apply slices_Contains_true in Hr. rewrite app_nil, errorIf_nil, bool_decide_eq_false.
  assert (∀ eff, existsb (λ p, pc_Protocol p ==? eff) (ns_SupportedProtocols spec) = true ↔
            ∃ p, p ∈ ns_SupportedProtocols spec ∧ pc_Protocol p = eff) as Hex.
  { intros eff. rewrite existsb_exists. setoid_rewrite bool_decide_eq_true. by setoid_rewrite list_elem_of_In. }
  destruct (ns_SupportedProtocols spec) as [|q l] eqn:Hl; simpl.
  - split; [naive_solver|]. intros Hx. destruct (Hx Hr) as (_ & p & Hp & _). by apply elem_of_nil in Hp.
  - rewrite errorIf_nil, negb_false_iff. simpl in Hex. rewrite Hex. naive_solver.
Qed.

(** Node admission: the webhook raises no error exactly for the specs that
    are well-formed: a usable address, distinct protocols, distinct ports outside
    the NodePort range, known roles, duplicate-free allow-lists, and for an
    inbound node an entry for the protocol its listener will use. *)
Lemma validateSingBoxNode_nil `{GoStd} w node : validateSingBoxNode w node = [] ↔ ValidNode w (node_spec node).
Proof.
  unfold validateSingBoxNode. set (spec := node_spec node).
  rewrite !app_nil, addressErrors_nil, portErrors_nil, !allowListErrors_nil, inboundErrors_nil, !errorIf_nil.
  assert (protocolDuplicates (ns_SupportedProtocols spec) = [] ↔ NoDup (pc_Protocol <$> ns_SupportedProtocols spec)) as ->.
  { unfold protocolDuplicates. rewrite (scan_nil_seen pc_Protocol _ (λ _, True)).
    - split; [naive_solver|]. intros. split_and!; [by apply Forall_true|done|set_solver].
    - intros. rewrite errorIf_nil, bool_decide_eq_false. naive_solver. }
  rewrite (scan_nil_unit _ (λ r, r = ProxyRoleInbound ∨ r = ProxyRoleOutbound)).
  2: { intros i x. rewrite errorIf_nil, andb_false_iff, !negb_false_iff, !bool_decide_eq_true. done. }
  rewrite andb_false_iff, !bool_decide_eq_false. split.
  - intros (? & ? & ? & Hrel & Hroles & ? & ? & ? & ?). split; try done.
    + destruct Hrel as [Hr|?]; [|by right]. left. destruct (decide (ns_RelayPort spec = 0%Z)); [done|tauto].
    + split; [by intros Hnil; rewrite Hnil in Hroles|done].
  - intros [[? ?] ? [? ?] Hrel [Hne ?] [? ?] [? ?] ?]. split_and!; try done; [naive_solver|by intros ?%nil_length_inv].
Qed.

(** Admission and controller agree on ExternalOutbound specs: the webhook
    accepts exactly those in which the controller finds no spec violation. *)
Theorem external_admission_agrees `{GoStd} eob :
  validateExternalOutbound eob = [] ↔ ExternalOutboundReconciler.specViolation eob = None.
Proof.
  unfold validateExternalOutbound, ExternalOutboundReconciler.specViolation, ExternalOutboundReconciler.violation.
  set (p := es_Protocol (eob_spec eob)). set (h2 := if es_Hysteria2 _ is Some _ then true else false).
  set (ref := if es_CredentialsSecretRef _ is Some _ then false else true).
  rewrite !app_nil, !errorIf_nil. cbn zeta. destruct (h2 && _), (ref && _ && _).
  all: repeat case_match; rewrite ?errorIf_nil; naive_solver.
Qed.

(** Admitted policies are never invalid: after admission the EgressPolicy
    controller can only report that the policy is resolved or that a selector
    currently matches no ingress, no egress, or several egresses. *)
Theorem admitted_policy_verdicts `{GoStd, LabelSelectors} policy ingressNames egressNames :
  validateEgressPolicy policy = [] →
  fst (EgressPolicyReconciler.validatePolicyResolution policy ingressNames egressNames) ∈
    [""; "IngressNotFound"; "EgressNotFound"; "EgressNotUnique"].
Proof.
  unfold validateEgressPolicy, optError. rewrite !app_nil, !errorIf_nil. intros (Hact & Hin & Heg & Hm & Hfb & _).
  unfold EgressPolicyReconciler.validatePolicyResolution.
  destruct (EgressPolicySelector_Valid (ps_IngressSelector _)); [done|].
  destruct (EgressPolicySelector_Valid (ps_EgressSelector _)); [done|].
  destruct (EgressPolicyMatch_Valid _ _); [done|]. rewrite Hact, Hfb.
  repeat case_match; simpl; set_solver.
Qed.

Lemma admitted_policy_verdicts_witness :
  fst (EgressPolicyReconciler.validatePolicyResolution (mkPolicy "p1" EgressPolicyActionRoute 10 ["out1"]) ["in1"] []) = "EgressNotFound" ∧
  fst (EgressPolicyReconciler.validatePolicyResolution (mkPolicy "p1" EgressPolicyActionRoute 10 ["out1"]) ["in1"] []) ∈
    [""; "IngressNotFound"; "EgressNotFound"; "EgressNotUnique"].
Proof. split; [done|]. apply admitted_policy_verdicts. by vm_compute. Defined.
