(* ===== verification/ClientConfig.v ===== *)
(** * ClientConfig: the client configuration built by internal/apiserver

    policy.go, client_policy.go and client_config.go: which exit targets a user's
    client is offered, under which tags and selectors, and with which
    credentials. *)

From S2P Require Import Prelude GoStrings Crypto Json Api Engine NodeController.

Record ClientConfigInput := {
  cc_User : User;
  cc_EgressPolicies : list EgressPolicy;
  cc_UserCred : UserCredential;
  cc_InboundNodes : list SingBoxNode;
  cc_RoutesByInbound : gmap string (list CustomRoute);
  cc_OutboundsByName : gmap string SingBoxNode;
  cc_ExternalOutboundsByName : gmap string ExternalOutbound;
  cc_ExternalOutbounds : list ExternalOutbound;
  cc_OfflineNodeNames : gmap string bool;
  cc_AllowedNodeNames : gmap string bool;
  cc_DeniedNodeNames : gmap string bool;
  cc_PolicyOnlyEgressNames : gmap string bool;
}.

Definition with_policyOnly (m : gmap string bool) (input : ClientConfigInput) : ClientConfigInput :=
  {| cc_User := cc_User input; cc_EgressPolicies := cc_EgressPolicies input; cc_UserCred := cc_UserCred input;
     cc_InboundNodes := cc_InboundNodes input; cc_RoutesByInbound := cc_RoutesByInbound input;
     cc_OutboundsByName := cc_OutboundsByName input; cc_ExternalOutboundsByName := cc_ExternalOutboundsByName input;
     cc_ExternalOutbounds := cc_ExternalOutbounds input; cc_OfflineNodeNames := cc_OfflineNodeNames input;
     cc_AllowedNodeNames := cc_AllowedNodeNames input; cc_DeniedNodeNames := cc_DeniedNodeNames input;
     cc_PolicyOnlyEgressNames := m |}.

(** ** Policies (policy.go, client_policy.go) *)
Section policies.
Context `{MapRange, GoStd, LabelSelectors}.

Definition policyOnlyEgresses (policies : list EgressPolicy) (nodes : list SingBoxNode) (outbounds : list ExternalOutbound)
    : gmap string bool :=
  foldl (λ names policy,
    if ps_Action (policy_spec policy) !=? EgressPolicyActionRoute then names
    else match egressMatches policy nodes outbounds with
         | [name] => <[name := true]> names
         | _ => names
         end) ∅ policies.

Definition policyMatchRule (m : EgressPolicyMatch) : list (string * json) :=
  let set k l rule := if bool_decide (length l = 0) then rule else obj_set k (jstrs l) rule in
  set "rule_set" (pm_RuleSet m) (set "ip_cidr" (pm_IPCIDR m) (set "domain_regex" (pm_DomainRegex m)
    (set "domain_suffix" (pm_DomainSuffix m) (set "domain" (pm_Domain m) [])))).

(** The name of the last match and the number of matches. *)
Definition resolveClientPolicyEgress (input : ClientConfigInput) (policy : EgressPolicy) : string * nat :=
  let sel := ps_EgressSelector (policy_spec policy) in
  let st := foldl (λ st n, if EgressPolicySelector_Matches sel n then (GetName n, S st.2) else st)
              ("", 0) (range_values (cc_OutboundsByName input)) in
  foldl (λ st e, if EgressPolicySelector_Matches sel e then (GetName e, S st.2) else st)
    st (range_values (cc_ExternalOutboundsByName input)).

Definition targetHasClientGroup (input : ClientConfigInput) (name group : string) : bool :=
  match cc_OutboundsByName input !! name with
  | Some n => slices_Contains (ns_ClientGroups (node_spec n)) group
  | None =>
    match cc_ExternalOutboundsByName input !! name with
    | Some e => slices_Contains (es_ClientGroups (eob_spec e)) group
    | None => false
    end
  end.

(** One iteration of the loop of buildClientPolicies; [inl] is the returned error. *)
Definition clientPolicyStep (input : ClientConfigInput) (st : list json * gmap string bool) (policy : EgressPolicy)
    : string + (list json * gmap string bool) :=
  let spec := policy_spec policy in
  let name := GetName policy in
  match EgressPolicySelector_Valid (ps_IngressSelector spec) with
  | Some err => inl ("policy " +:+ name +:+ " ingressSelector: " +:+ err)
  | None =>
  match EgressPolicySelector_Valid (ps_EgressSelector spec) with
  | Some err => inl ("policy " +:+ name +:+ " egressSelector: " +:+ err)
  | None =>
  match EgressPolicyMatch_Valid (ps_Match spec) (ps_FallbackAction spec !=? "") with
  | Some err => inl ("policy " +:+ name +:+ " match: " +:+ err)
  | None =>
    if (ps_FallbackAction spec !=? "") && (ps_FallbackAction spec !=? EgressPolicyActionReject)
    then inl ("policy " +:+ name +:+ ": invalid fallbackAction " +:+ strconv_Quote (ps_FallbackAction spec))
    else if (ps_Action spec !=? EgressPolicyActionRoute) && (ps_Action spec !=? EgressPolicyActionReject)
    then inl ("policy " +:+ name +:+ ": invalid action " +:+ strconv_Quote (ps_Action spec))
    else
      let rule := policyMatchRule (ps_Match spec) in
      if ps_Action spec ==? EgressPolicyActionReject
      then inr (st.1 ++ [JObj (obj_set "action" (JStr "reject") rule)], st.2)
      else
        let '(egress, count) := resolveClientPolicyEgress input policy in
        if count =? 0 then inr st
        else if negb (count =? 1)
        then inl ("policy " +:+ name +:+ ": egressSelector matched " +:+ fmt_d (Z.of_nat count) +:+ " targets, expected exactly one")
        else
          let rule := if targetHasClientGroup input egress "ai" then obj_set "outbound" (JStr "ai") rule
                      else obj_set "action" (JStr "reject") rule in
          inr (st.1 ++ [JObj rule], <[egress := true]> st.2)
  end end end.

Fixpoint clientPolicyLoop (input : ClientConfigInput) (st : list json * gmap string bool) (l : list EgressPolicy)
    : string + (list json * gmap string bool) :=
  match l with
  | [] => inr st
  | p :: l => let! st := clientPolicyStep input st p in clientPolicyLoop input st l
  end.

(** The rules and the targets; the policy outbounds are always nil.  The handler
    passes no nil policy, so the nil check of the loop has no counterpart. *)
Definition buildClientPolicies (input : ClientConfigInput) : string + (list json * gmap string bool) :=
  clientPolicyLoop input ([], ∅) (sort_by policy_less (cc_EgressPolicies input)).
End policies.

(** ** Endpoints *)
Definition supportsProtocol (node : SingBoxNode) (protocol : string) : bool :=
  existsb (λ p, pc_Protocol p ==? protocol) (ns_SupportedProtocols (node_spec node)).

Fixpoint findEntryEndpoint (endpoints : list string) (protocol : string) : option (string * Z) :=
  match endpoints with
  | [] => None
  | ep :: endpoints =>
    match strings_SplitN ep ":" 3 with
    | [proto; address; port] =>
      if proto !=? protocol then findEntryEndpoint endpoints protocol
      else match strconv_Atoi port with
           | Some p => Some (address, p)
           | None => findEntryEndpoint endpoints protocol
           end
    | _ => findEntryEndpoint endpoints protocol
    end
  end.

(** ** Exit targets of an inbound node *)
Record outboundRef := { or_TargetName : string; or_AllowedInbounds : list string; or_ClientGroups : list string }.

Definition hasOutboundRole (node : SingBoxNode) : bool := slices_Contains (ns_Roles (node_spec node)) ProxyRoleOutbound.

(** The conditions every target must meet whatever its kind. *)
Definition targetOffered (input : ClientConfigInput) (inbound : SingBoxNode) (seen : gset string) (name : string) : bool :=
  bool_decide (name ∉ seen) &&
  (negb (map_index false (cc_PolicyOnlyEgressNames input) name) || targetHasClientGroup input name "ai") &&
  IsNodeAllowed name (cc_AllowedNodeNames input) (cc_DeniedNodeNames input) &&
  listAllows (ns_AllowedOutbounds (node_spec inbound)) name.

Definition offline (input : ClientConfigInput) (name : string) : bool := map_index false (cc_OfflineNodeNames input) name.

Definition nodeRef (n : SingBoxNode) : outboundRef :=
  {| or_TargetName := GetName n; or_AllowedInbounds := ns_AllowedInbounds (node_spec n); or_ClientGroups := ns_ClientGroups (node_spec n) |}.

Definition selfRef (inbound : SingBoxNode) : outboundRef :=
  {| or_TargetName := GetName inbound; or_AllowedInbounds := []; or_ClientGroups := ns_ClientGroups (node_spec inbound) |}.

Definition externalRef (e : ExternalOutbound) : outboundRef :=
  {| or_TargetName := GetName e; or_AllowedInbounds := es_AllowedInbounds (eob_spec e); or_ClientGroups := es_ClientGroups (eob_spec e) |}.

(** [seen[name] = true; refs = append(refs, ref)] *)
Definition pushRef (st : gset string * list outboundRef) (ref : outboundRef) : gset string * list outboundRef :=
  ({[or_TargetName ref]} ∪ st.1, st.2 ++ [ref]).

(** The test on a SingBoxNode target (the loop over OutboundsByName and the SingBoxNode routes). *)
Definition offersNode (input : ClientConfigInput) (inbound : SingBoxNode) (seen : gset string) (n : SingBoxNode) : bool :=
  bool_decide (ns_RelayPort (node_spec n) ≠ 0%Z) && (ns_Region (node_spec n) ==? ns_Region (node_spec inbound)) &&
  targetOffered input inbound seen (GetName n) && negb (offline input (GetName n)) &&
  listAllows (ns_AllowedInbounds (node_spec n)) (GetName inbound).

(** The test on the inbound node itself. *)
Definition offersSelf (input : ClientConfigInput) (inbound : SingBoxNode) (seen : gset string) : bool :=
  hasOutboundRole inbound && targetOffered input inbound seen (GetName inbound) && negb (offline input (GetName inbound)).

(** The test on an ExternalOutbound target; the region is non-empty for discovered ones only. *)
Definition offersExternal (input : ClientConfigInput) (inbound : SingBoxNode) (seen : gset string) (e : ExternalOutbound) : bool :=
  (es_Region (eob_spec e) ==? ns_Region (node_spec inbound)) && targetOffered input inbound seen (GetName e) &&
  bool_decide (cc_OutboundsByName input !! GetName e = None) &&
  listAllows (es_AllowedInbounds (eob_spec e)) (GetName inbound).

Section targets.
Context `{MapRange}.

Definition resolveOutboundNodes (input : ClientConfigInput) (inboundName : string) : list outboundRef :=
  match snd <$> list_find (λ n, GetName n = inboundName) (cc_InboundNodes input) with
  | None => []
  | Some inbound =>
    let st := foldl (λ st n, if offersNode input inbound st.1 n then pushRef st (nodeRef n) else st)
                (∅, []) (range_values (cc_OutboundsByName input)) in
    let st := if offersSelf input inbound st.1
              then pushRef st (selfRef inbound) else st in
    let st := foldl (λ st e, if (es_Region (eob_spec e) !=? "") && offersExternal input inbound st.1 e
                             then pushRef st (externalRef e) else st)
                st (range_values (cc_ExternalOutboundsByName input)) in
    let st := foldl (λ st r,
      if EffectiveOutboundKind r ==? OutboundKindExternalOutbound then
        match cc_ExternalOutboundsByName input !! rs_OutboundNode (route_spec r) with
        | Some e => if offersExternal input inbound st.1 e then pushRef st (externalRef e) else st
        | None => st
        end
      else
        match cc_OutboundsByName input !! rs_OutboundNode (route_spec r) with
        | Some n => if offersNode input inbound st.1 n then pushRef st (nodeRef n) else st
        | None => st
        end) st (map_index [] (cc_RoutesByInbound input) inboundName) in
    sort_by (less_on or_TargetName) st.2
  end.

(** ** Outbound entries *)
Definition buildProxyOutbound (tag address : string) (port : Z) (protocol userName outboundNodeName tlsServerName : string)
    (cred : UserCredential) : list (string * json) :=
  let typeStr := if protocol ==? "socks5" then "socks" else protocol in
  let ob := obj_of [("type", JStr typeStr); ("tag", JStr tag); ("server", JStr address); ("server_port", JNum port)] in
  let ob := obj_copy ob (DeriveAuth protocol (uc_UUID cred) outboundNodeName) in
  let ob := if protocol ==? "naive" then obj_set "username" (JStr (userName +:+ "#" +:+ outboundNodeName)) ob else ob in
  if (protocol ==? "hysteria2") || (protocol ==? "naive") || (protocol ==? "anytls") || (protocol ==? "tuic") then
    let tls := obj_of [("enabled", JBool true)] in
    obj_set "tls" (JObj (if tlsServerName !=? "" then obj_set "server_name" (JStr tlsServerName) tls
                         else obj_set "insecure" (JBool true) tls)) ob
  else ob.

(** [outbound.Name] alone for the node itself, [outbound.Name#inbound.Name] otherwise *)
Definition clientTag (outbound inbound : string) : string :=
  if outbound ==? inbound then outbound else outbound +:+ "#" +:+ inbound.

(** The selector groups that receive the tag of a target. *)
Definition groupsOf (input : ClientConfigInput) (ref : outboundRef) : list string :=
  filter (λ g, slices_Contains ["hk"; "jp"; "us"; "ai"] g &&
               negb ((g !=? "ai") && map_index false (cc_PolicyOnlyEgressNames input) (or_TargetName ref)) = true)
    (or_ClientGroups ref).

(** One iteration of the inner loop of BuildClientConfig. *)
Definition addTarget (input : ClientConfigInput) (inbound : SingBoxNode) (protocol address : string) (port : Z)
    (st : list json * gmap string (list string)) (ref : outboundRef) : list json * gmap string (list string) :=
  let tag := clientTag (or_TargetName ref) (GetName inbound) in
  let ob := buildProxyOutbound tag address port protocol (GetName (cc_User input)) (or_TargetName ref)
              (nst_TLSServerName (node_status inbound)) (cc_UserCred input) in
  let groups := groupsOf input ref in
  (if 0 <? length groups then st.1 ++ [JObj ob] else st.1,
   foldl (λ m g, <[g := map_index [] m g ++ [tag]]> m) st.2 groups).

(** One iteration of the outer loop: a listening, online inbound node. *)
Definition addInbound (input : ClientConfigInput) (st : list json * gmap string (list string)) (inbound : SingBoxNode)
    : list json * gmap string (list string) :=
  if offline input (GetName inbound) then st
  else
    let protocol := EffectiveInboundProtocol inbound in
    if negb (supportsProtocol inbound protocol) then st
    else match findEntryEndpoint (nst_EntryEndpoints (node_status inbound)) protocol with
         | None => st
         | Some (address, port) =>
           foldl (addTarget input inbound protocol address port) st (resolveOutboundNodes input (GetName inbound))
         end.

(** slices.Compact *)
Fixpoint slices_Compact (l : list string) : list string :=
  match l with
  | x :: ((y :: _) as l') => if x ==? y then slices_Compact l' else x :: slices_Compact l'
  | _ => l
  end.

Definition selectorEntry (tag : string) (tags : list string) : json :=
  JObj (obj_of [("type", JStr "selector"); ("tag", JStr tag); ("outbounds", jstrs (slices_Compact (sort_strings tags)))]).

(** The targets of active policies outside the ai group leave the regional pools. *)
Definition hidePolicyTargets (input : ClientConfigInput) (targets : gmap string bool) : ClientConfigInput :=
  if bool_decide (size targets = 0) then input
  else with_policyOnly
         (foldl (λ m name, if negb (targetHasClientGroup input name "ai") then <[name := true]> m else m)
            (cc_PolicyOnlyEgressNames input) (range targets).*1) input.

Context `{GoStd, LabelSelectors}.

Definition BuildClientConfig (input : ClientConfigInput) : string + list json :=
  let! pol := buildClientPolicies input in
  let input := hidePolicyTargets input pol.2 in
  let '(proxyOutbounds, groupOutbounds) := foldl (addInbound input) ([], ∅) (cc_InboundNodes input) in
  let groupTags := sort_strings (filter (λ k, map_index [] groupOutbounds k ≠ []) (range groupOutbounds).*1) in
  inr (proxyOutbounds ++ map (λ g, selectorEntry g (map_index [] groupOutbounds g)) groupTags ++ [buildDirectOutbound]).
End targets.
