(* ===== verification/SampleClient.v ===== *)
(** * SampleClient: a concrete cluster as a client sees it

    The inbound node entry1 (with the outbound role), the relay exit1, the
    external proxy ext1 and the user alice, as the API server and as the
    reconciler of entry1 see them; used by the witnesses of the client theorems. *)

From S2P Require Import Prelude GoStrings Json Api Engine Samples NodeController ClientConfig.

Definition clientNode (name : string) (roles : list ProxyRole) (relay : Z) (groups : list string) (address : string) : SingBoxNode :=
  {| node_meta := mkMeta name;
     node_spec := {| ns_NodeRef := name; ns_Address := address; ns_Region := "jp"; ns_ClientGroups := groups;
                     ns_Roles := roles; ns_SupportedProtocols := [{| pc_Protocol := "hysteria2"; pc_Port := 443 |};
                                                                  {| pc_Protocol := "vless"; pc_Port := 8443 |}];
                     ns_InboundProtocol := ""; ns_RelayPort := relay; ns_AllowedInbounds := [];
                     ns_AllowedOutbounds := []; ns_Tag := ""; ns_TLSSecretName := ""; ns_Resources := None |};
     node_status := {| nst_Phase := "Running"; nst_ConfigHash := "";
                       nst_EntryEndpoints := entryEndpoint address <$> [{| pc_Protocol := "hysteria2"; pc_Port := 443 |};
                                                                        {| pc_Protocol := "vless"; pc_Port := 8443 |}];
                       nst_TLSServerName := "jp.example.com"; nst_Conditions := []; nst_ObservedGeneration := 1 |} |}.

Definition client_entry : SingBoxNode := clientNode "entry1" [ProxyRoleInbound; ProxyRoleOutbound] 0 ["jp"] "10.0.0.1".
Definition client_exit : SingBoxNode := clientNode "exit1" [ProxyRoleOutbound] 10808 ["us"; "ai"] "10.0.0.2".

Definition client_ext : ExternalOutbound :=
  {| eob_meta := mkMeta "ext1";
     eob_spec := {| es_Protocol := ExternalProtocolSocks5; es_Server := "203.0.113.9"; es_Port := 8443;
                    es_CredentialsSecretRef := None; es_TLS := None; es_Hysteria2 := None; es_Region := "jp";
                    es_ClientGroups := ["us"]; es_AllowedInbounds := [] |};
     eob_status := {| est_Conditions := []; est_ObservedGeneration := 0 |} |}.

Definition client_nodes : gmap string SingBoxNode := {["entry1" := client_entry; "exit1" := client_exit]}.

Definition sample_client : ClientConfigInput :=
  {| cc_User := mkUser "alice" ""; cc_EgressPolicies := [mkPolicy "p1" EgressPolicyActionRoute 10 ["exit1"]];
     cc_UserCred := {| uc_UUID := sample_uuid |}; cc_InboundNodes := [client_entry]; cc_RoutesByInbound := ∅;
     cc_OutboundsByName := client_nodes; cc_ExternalOutboundsByName := {["ext1" := client_ext]};
     cc_ExternalOutbounds := [client_ext]; cc_OfflineNodeNames := ∅; cc_AllowedNodeNames := ∅; cc_DeniedNodeNames := ∅;
     cc_PolicyOnlyEgressNames := policyOnlyEgresses [mkPolicy "p1" EgressPolicyActionRoute 10 ["exit1"]]
                                   [client_entry; client_exit] [client_ext] |}.

(** The outbounds of alice's client, and what each selector holds. *)
Definition sample_client_out : list json := match BuildClientConfig sample_client with inr out => out | inl _ => [] end.

(** The same cluster, as the reconciler of entry1 collects it. *)
Definition sample_entry : Input :=
  {| Node := client_entry;
     Users := [mkUser "alice" ""]; UserCreds := {["alice" := {| uc_UUID := sample_uuid |}]};
     OutboundNodes := [client_exit]; Routes := [];
     EgressPolicies := [Some (mkPolicy "p1" EgressPolicyActionRoute 10 ["exit1"])];
     NodeCreds := {["exit1" := {| nc_Username := "exit1"; nc_Password := "s3cret" |}]};
     OutboundNodesByName := {["exit1" := client_exit]};
     ExternalOutbounds := [Some client_ext]; ExternalOutboundsByName := {["ext1" := client_ext]};
     ExternalCreds := ∅; UsageCollectionEnabled := true; V2RayAPIListenAddr := "";
     UserNodeRestrictions := ∅; UserNodeAllowlist := ∅ |}.
