(* ===== verification/ClientProps.v ===== *)
(** * ClientProps: the connection a client outbound describes

    Endpoint strings and their parser, and the agreement of client outbounds with
    the listener and the users[] entries of the inbound node. *)

From S2P Require Import Prelude GoStrings Crypto Json Api Engine EngineFacts Samples EngineProps K8s NodeController SampleCluster ClientConfig SampleClient.
From Stdlib Require Import Ascii.

(** ** Endpoints *)
Lemma parse_digits_char c acc s : has_char c s = true → digit_val c = None → parse_digits acc s = None.
Proof.
  intros Hs Hc. revert acc. induction s as [|d s IH]; intros acc; simpl in *; [done|].
  destruct (bool_decide (c = d)) eqn:Hd; bool_prop; [subst; by rewrite Hc|].
  destruct (digit_val d); simpl; auto.
Qed.

Lemma Atoi_colon s : has_char ":" s = true → strconv_Atoi s = None.
Proof.
  intros Hs. assert (∀ t, (has_char ":" t = true → parse_digits 0 t = None)) as Hpd
    by (intros t Ht; by apply (parse_digits_char ":")).
  destruct s as [|c s]; [done|]. unfold strconv_Atoi.
  assert (c = "-"%char ∨ c = "+"%char → has_char ":" s = true) as Hsign by (intros [->| ->]; by simpl in Hs).
  repeat case_bool_decide; simplify_eq; rewrite ?Hpd by auto; try done; simpl in *; by case_bool_decide.
Qed.

(** The text before and after the first occurrence of a character. *)
Lemma has_char_split c s : has_char c s = true → ∃ a b, s = a +:+ String c b ∧ has_char c a = false.
Proof.
  induction s as [|d s IH]; simpl; [done|].
  destruct (bool_decide (c = d)) eqn:Hd; bool_prop; [subst; by exists "", s|]. simpl.
  intros (a & b & -> & Ha)%IH. exists (String d a), b. simpl. by rewrite Ha, bool_decide_eq_false_2.
Qed.

Lemma SplitN_endpoint a b rest :
  has_char ":" a = false → has_char ":" b = false →
  strings_SplitN (a +:+ ":" +:+ b +:+ ":" +:+ rest) ":" 3 = [a; b; rest].
Proof.
  intros Ha Hb. unfold strings_SplitN. simpl pred. cbn [split_cuts].
  rewrite (strings_Cut_app ":" "") by done. cbv beta iota. by rewrite (strings_Cut_app ":" "") by done.
Qed.

(** The port part of an endpoint whose address contains a colon starts inside the address. *)
Lemma SplitN_endpoint_colon a b c rest :
  has_char ":" a = false → has_char ":" b = false →
  strings_SplitN (a +:+ ":" +:+ (b +:+ String ":" c) +:+ ":" +:+ rest) ":" 3 = [a; b; c +:+ ":" +:+ rest].
Proof. intros Ha Hb. rewrite <-(SplitN_endpoint a b) by done. do 3 f_equal. by rewrite str_app_assoc. Qed.

(** A protocol name is plain, and its port is an int32 field of the API. *)
Definition plainProtocol (p : ProtocolConfig) : Prop :=
  has_char ":" (pc_Protocol p) = false ∧ (- 2 ^ 31 ≤ pc_Port p < 2 ^ 31)%Z.

Lemma findEntryEndpoint_published n protocol :
  has_char ":" (ns_Address (node_spec n)) = false →
  Forall plainProtocol (ns_SupportedProtocols (node_spec n)) →
  findEntryEndpoint (entryEndpoint (ns_Address (node_spec n)) <$> ns_SupportedProtocols (node_spec n)) protocol =
  if supportsProtocol n protocol then Some (ns_Address (node_spec n), findProtocolPort n protocol) else None.
Proof.
  intros Haddr. unfold supportsProtocol, findProtocolPort. simpl.
  induction 1 as [|p l [Hp Hport] _ IH]; [done|]. simpl. unfold entryEndpoint at 1.
  rewrite SplitN_endpoint by done. destruct (decide (pc_Protocol p = protocol)) as [He|He].
  - rewrite !bool_decide_eq_true_2 by done. simpl. rewrite Atoi_fmt_d; [done|]. unfold int_min, int_max. lia.
  - rewrite !bool_decide_eq_false_2 by done. simpl. etrans; [exact IH|].
    by destruct (list_find (λ p, pc_Protocol p = protocol) l) as [[??]|].
Qed.

(** The endpoints that the controller publishes in the status of a node
    with a colon-free address are parsed back by the client configuration: for
    every protocol the node supports, the client gets the node's address and the
    port on which the node's own configuration listens for that protocol. *)
Theorem endpoint_listener `{ConditionLib} n hash serverName protocol :
  has_char ":" (ns_Address (node_spec n)) = false →
  Forall plainProtocol (ns_SupportedProtocols (node_spec n)) →
  findEntryEndpoint (nst_EntryEndpoints (runningStatus n hash serverName)) protocol =
  if supportsProtocol n protocol then Some (ns_Address (node_spec n), findProtocolPort n protocol) else None.
Proof. apply findEntryEndpoint_published. Qed.

Lemma endpoint_listener_witness :
  findEntryEndpoint (nst_EntryEndpoints (runningStatus client_entry "h" "")) "vless" = Some ("10.0.0.1", 8443%Z).
Proof.
  rewrite endpoint_listener; [done | done |]. repeat constructor; by vm_compute.
Defined.

(** C36. A node whose address contains a colon (an IPv6 address) publishes
    endpoints that the client configuration cannot parse, so no client is
    offered any outbound through it. *)
Theorem ipv6_endpoint_lost `{MapRange, ConditionLib} input st n hash serverName :
  has_char ":" (ns_Address (node_spec n)) = true →
  Forall plainProtocol (ns_SupportedProtocols (node_spec n)) →
  nst_EntryEndpoints (node_status n) = nst_EntryEndpoints (runningStatus n hash serverName) →
  addInbound input st n = st.
Proof.
  intros (a & b & Haddr & Ha)%has_char_split Hps Heps. unfold addInbound.
  assert (∀ protocol, findEntryEndpoint (nst_EntryEndpoints (node_status n)) protocol = None) as Hnone.
  { intros protocol. rewrite Heps. simpl. rewrite Haddr.
    induction Hps as [|p l [Hp _] _ IH]; [done|]. simpl. unfold entryEndpoint at 1.
    rewrite SplitN_endpoint_colon, Atoi_colon by (try done; by rewrite !has_char_app, orb_true_r). by case_match. }
  rewrite Hnone. by repeat case_match.
Qed.

Lemma ipv6_endpoint_lost_witness :
  let n := clientNode "entry6" [ProxyRoleInbound; ProxyRoleOutbound] 0 ["jp"] "2001:db8::1" in
  offersSelf sample_client n ∅ = true ∧ addInbound sample_client ([], ∅) n = ([], ∅).
Proof.
  split; [by vm_compute|]. apply (ipv6_endpoint_lost _ _ _ "h" "s"); [done | repeat constructor; by vm_compute | done].
Defined.

(** ** Credentials *)

(** The keys with which sing-box authenticates a connection. *)
Definition loginKeys : list string := ["username"; "password"; "uuid"].

(** What DeriveAuth sets, whatever the protocol. *)
Lemma DeriveAuth_cases protocol uuid name (P : list (string * json) → Prop) :
  let pw := JStr (DerivePassword uuid name) in
  let id := JStr (DeriveUUID uuid name) in
  (protocol ≠ "naive" → P (obj_of [("password", pw)])) → (protocol ≠ "naive" → P (obj_of [("uuid", id)])) →
  P (obj_of [("username", JStr uuid); ("password", pw)]) →
  (protocol ≠ "naive" → P (obj_of [("uuid", id); ("password", pw)])) →
  P (DeriveAuth protocol uuid name).
Proof.
  intros pw id H1 H2 H3 H4. unfold DeriveAuth. fold pw id.
  repeat (case_bool_decide; subst; simpl; [solve [auto with congruence | by apply H1 | by apply H2 | by apply H4]|]).
  by apply H1.
Qed.

(** Client and server agree on how a user reaches an exit target: the client
    outbound and the listener of the inbound node have the same protocol type and
    port, TLS on both sides or on neither, and the same username, password and
    uuid in the outbound as in the users[] entry of that user and target. *)
Lemma client_matches_listener input u t tag address port protocol serverName users :
  let cred := map_index zeroUserCredential (UserCreds input) (GetName u) in
  ∃ su srv, userEntry input protocol t (virtualUserName (GetName u) t) u = JObj su ∧
    buildInboundEntry protocol ("inbound-" +:+ protocol) port users = JObj srv ∧
    let ob := buildProxyOutbound tag address port protocol (GetName u) t serverName cred in
    obj_get "type" ob = obj_get "type" srv ∧ obj_get "server_port" ob = obj_get "listen_port" srv ∧
    (is_Some (obj_get "tls" ob) ↔ is_Some (obj_get "tls" srv)) ∧
    (∀ k, k ∈ loginKeys → obj_get k ob = obj_get k su).
Proof.
  intros cred. unfold userEntry, buildInboundEntry, buildProxyOutbound. fold cred.
  do 2 eexists. split; [done|]. split; [done|]. cbv zeta.
  pattern (DeriveAuth protocol (uc_UUID cred) t). apply DeriveAuth_cases;
    generalize (DerivePassword (uc_UUID cred) t), (DeriveUUID (uc_UUID cred) t); intros pw id;
    try (intros Hn; rewrite (bool_decide_eq_false_2 (protocol = "naive")) by done);
    destruct (protocol ==? "socks5"), (protocol ==? "hysteria2"), (protocol ==? "anytls"), (protocol ==? "tuic"),
      (serverName ==? ""); try destruct (protocol ==? "naive"); simpl orb; simpl negb; cbv iota;
    (split_and!; [reflexivity | reflexivity | split; intros [x Hx]; vm_compute in Hx |- *; eauto; done |];
     intros k Hk; list_cases Hk; reflexivity).
Qed.

