(* ===== verification/ClientTargets.v ===== *)
(** * ClientTargets: which exit targets a client is offered, and its selectors

    The specification of resolveOutboundNodes, its independence of Go's map
    order, and the tags and selectors of BuildClientConfig. *)

From S2P Require Import Prelude GoStrings Crypto Json Api Engine EngineFacts Samples NodeController ClientConfig SampleClient.
From Stdlib Require Import Btauto.

(** ** The exit targets offered through an inbound node *)
Definition pushNewRef (st : gset string * list outboundRef) (ref : outboundRef) : gset string * list outboundRef :=
  if bool_decide (or_TargetName ref ∈ st.1) then st else pushRef st ref.

Definition refNames (l : list outboundRef) : list string := or_TargetName <$> l.

Lemma filter_iff_elem {A} (P Q : A → Prop) `{∀ x, Decision (P x), ∀ x, Decision (Q x)} (l : list A) :
  (∀ x, x ∈ l → P x ↔ Q x) → filter P l = filter Q l.
Proof.
  induction l as [|x l IH]; intros Hl; [done|]. rewrite !filter_cons, IH by (intros; apply Hl; by right).
  specialize (Hl x). repeat case_decide; set_solver.
Qed.

(** A loop over a map whose objects have distinct names adds the new ones. *)
Lemma foldl_pushNewRef_NoDup st l :
  NoDup (refNames l) →
  foldl pushNewRef st l = (list_to_set (refNames l) ∪ st.1, st.2 ++ filter (λ r, or_TargetName r ∉ st.1) l).
Proof.
  revert st. induction l as [|r l IH]; intros st; simpl; [intros _; by rewrite app_nil_r, union_empty_l_L, <-surjective_pairing|].
  rewrite NoDup_cons. intros [Hr Hnd]. rewrite IH, filter_cons by done. unfold pushNewRef.
  case_bool_decide as Hin; simpl.
  - rewrite decide_False by tauto. f_equal. set_solver.
  - rewrite decide_True, <-app_assoc by done. simpl. f_equal; [set_solver|]. do 2 f_equal.
    apply filter_iff_elem. intros r' Hr'. split; [set_solver|]. intros ?.
    assert (or_TargetName r' ≠ or_TargetName r); [|set_solver]. intros He. apply Hr. rewrite <-He. by apply list_elem_of_fmap_2.
Qed.

Lemma foldl_pushNewRef_ok st l :
  st.1 = list_to_set (refNames st.2) → NoDup (refNames st.2) →
  let st' := foldl pushNewRef st l in
  st'.1 = list_to_set (refNames st'.2) ∧ NoDup (refNames st'.2) ∧
  (∀ t, t ∈ refNames st'.2 ↔ t ∈ refNames st.2 ∨ t ∈ refNames l) ∧ (∀ r, r ∈ st'.2 → r ∈ st.2 ∨ r ∈ l).
Proof.
  intros Hs Hnd. revert st Hs Hnd. induction l as [|r l IH]; intros st Hs Hnd; simpl; [set_solver|].
  assert (pushNewRef st r = st ∧ or_TargetName r ∈ refNames st.2 ∨
          pushNewRef st r = pushRef st r ∧ or_TargetName r ∉ refNames st.2) as [[-> Hr]|[-> Hr]].
  { unfold pushNewRef. rewrite Hs. case_bool_decide; rewrite elem_of_list_to_set in *; auto. }
  - specialize (IH st Hs Hnd). set_solver.
  - destruct (IH (pushRef st r)) as (? & ? & Ht & Hm); simpl.
    + unfold refNames. rewrite fmap_app. simpl. rewrite Hs, list_to_set_app_L. set_solver.
    + unfold refNames. rewrite fmap_app. apply NoDup_app. split_and!; [done|set_solver|apply NoDup_singleton].
    + split_and!; [done..| |].
      * intros t. rewrite Ht. simpl. unfold refNames. rewrite fmap_app. set_solver.
      * intros r' [Hr'|?]%Hm; simpl in *; set_solver.
Qed.

(** The objects in the name maps carry the name they are indexed by. *)
Class KeyedInput (input : ClientConfigInput) : Prop := {
  ki_nodes : ∀ k n, cc_OutboundsByName input !! k = Some n → GetName n = k;
  ki_exts : ∀ k e, cc_ExternalOutboundsByName input !! k = Some e → GetName e = k;
}.

Lemma NoDup_range_names {A} `{HasMeta A, MapRange} (m : gmap string A) :
  (∀ k x, m !! k = Some x → GetName x = k) → NoDup (GetName <$> range_values m).
Proof.
  intros Hm. assert (GetName <$> range_values m = (range m).*1) as ->.
  { unfold range_values. rewrite <-list_fmap_compose. apply list_fmap_ext.
    intros i [k x] Hi. apply list_elem_of_lookup_2, elem_of_range in Hi. simpl. by apply Hm. }
  rewrite range_perm. apply NoDup_fst_map_to_list.
Qed.

(** ** The tests without the [seen] map *)
Section candidates.
Context `{MapRange}.
Context (input : ClientConfigInput) (inbound : SingBoxNode).

Lemma targetOffered_seen seen name :
  targetOffered input inbound seen name = bool_decide (name ∉ seen) && targetOffered input inbound ∅ name.
Proof. unfold targetOffered. rewrite (bool_decide_eq_true_2 (name ∉ ∅)) by set_solver. btauto. Qed.

Definition nodeCandidates : list outboundRef :=
  nodeRef <$> filter (λ n, offersNode input inbound ∅ n = true) (range_values (cc_OutboundsByName input)).

Definition selfCandidates : list outboundRef :=
  if offersSelf input inbound ∅ then [selfRef inbound] else [].

Definition externalCandidates : list outboundRef :=
  externalRef <$> filter (λ e, (es_Region (eob_spec e) !=? "") && offersExternal input inbound ∅ e = true)
                    (range_values (cc_ExternalOutboundsByName input)).

Definition routeCandidate (r : CustomRoute) : option outboundRef :=
  if EffectiveOutboundKind r ==? OutboundKindExternalOutbound then
    e ← cc_ExternalOutboundsByName input !! rs_OutboundNode (route_spec r);
    if offersExternal input inbound ∅ e then Some (externalRef e) else None
  else
    n ← cc_OutboundsByName input !! rs_OutboundNode (route_spec r);
    if offersNode input inbound ∅ n then Some (nodeRef n) else None.

Definition candidates : list outboundRef :=
  nodeCandidates ++ selfCandidates ++ externalCandidates ++
  omap routeCandidate (map_index [] (cc_RoutesByInbound input) (GetName inbound)).

(** A guarded push is a push of a candidate. *)
Lemma push_guard (p : gset string → bool) st ref :
  (∀ seen, p seen = bool_decide (or_TargetName ref ∉ seen) && p ∅) →
  (if p st.1 then pushRef st ref else st) = foldl pushNewRef st (if p ∅ then [ref] else []).
Proof.
  intros Hp. rewrite (Hp st.1). destruct (p ∅); simpl; [|by rewrite andb_false_r].
  unfold pushNewRef. repeat case_bool_decide; by try tauto.
Qed.

Lemma offersNode_seen n seen :
  offersNode input inbound seen n = bool_decide (or_TargetName (nodeRef n) ∉ seen) && offersNode input inbound ∅ n.
Proof. unfold offersNode. rewrite (targetOffered_seen seen). simpl. btauto. Qed.

Lemma offersSelf_seen seen :
  offersSelf input inbound seen = bool_decide (GetName inbound ∉ seen) && offersSelf input inbound ∅.
Proof. unfold offersSelf. rewrite (targetOffered_seen seen). btauto. Qed.

Lemma offersExternal_seen e seen :
  offersExternal input inbound seen e = bool_decide (or_TargetName (externalRef e) ∉ seen) && offersExternal input inbound ∅ e.
Proof. unfold offersExternal. rewrite (targetOffered_seen seen). simpl. btauto. Qed.

(** A loop of guarded pushes is a loop over its candidates. *)
Lemma push_loop {A} (f : gset string * list outboundRef → A → gset string * list outboundRef) (c : A → list outboundRef) l st :
  (∀ st x, f st x = foldl pushNewRef st (c x)) → foldl f st l = foldl pushNewRef st (l ≫= c).
Proof.
  intros Hf. revert st. induction l as [|x l IH]; intros st; simpl; [done|]. by rewrite IH, Hf, foldl_app.
Qed.
End candidates.

Lemma fmap_filter_bind {A B} (p : A → bool) (f : A → B) l :
  f <$> filter (λ x, p x = true) l = l ≫= λ x, if p x then [f x] else [].
Proof. induction l as [|x l IH]; [done|]. rewrite filter_cons, bind_cons, <-IH. by destruct (p x). Qed.

Lemma omap_bind {A B} (f : A → option B) l : omap f l = l ≫= λ x, option_list (f x).
Proof. induction l as [|x l IH]; [done|]. rewrite bind_cons, <-IH. simpl. by destruct (f x). Qed.

Lemma find_inbound input name inbound :
  snd <$> list_find (λ n, GetName n = name) (cc_InboundNodes input) = Some inbound →
  GetName inbound = name ∧ inbound ∈ cc_InboundNodes input.
Proof.
  intros ([i n] & Hf & ->)%fmap_Some. apply list_find_Some in Hf as (Hn & ? & _).
  split; [done|]. by eapply list_elem_of_lookup_2.
Qed.

(** The four loops add the candidates in order, each name once. *)
Lemma resolveOutboundNodes_candidates `{MapRange} input name inbound :
  snd <$> list_find (λ n, GetName n = name) (cc_InboundNodes input) = Some inbound →
  resolveOutboundNodes input name =
  sort_by (less_on or_TargetName) (foldl pushNewRef (∅, []) (candidates input inbound)).2.
Proof.
  intros Hf. destruct (find_inbound _ _ _ Hf) as [<- _]. unfold resolveOutboundNodes. rewrite Hf. cbv zeta.
  unfold candidates. rewrite !foldl_app. do 2 f_equal.
  assert (∀ st, (if offersSelf input inbound st.1 then pushRef st (selfRef inbound) else st) = foldl pushNewRef st (selfCandidates input inbound)) as Hself.
  { intros st. unfold selfCandidates. apply (push_guard (offersSelf input inbound)). apply offersSelf_seen. }
  rewrite Hself, omap_bind. unfold nodeCandidates, externalCandidates. rewrite !fmap_filter_bind.
  rewrite (push_loop _ (λ n, if offersNode input inbound ∅ n then [nodeRef n] else [])),
    (push_loop _ (λ e, if (es_Region (eob_spec e) !=? "") && offersExternal input inbound ∅ e then [externalRef e] else [])),
    (push_loop _ (λ r, option_list (routeCandidate input inbound r))); [done|..].
  - intros st r. unfold routeCandidate. case_match.
    + destruct (_ !! _) as [e|]; [|done]. simpl.
      rewrite (push_guard (λ seen, offersExternal input inbound seen e)) by apply offersExternal_seen. by case_match.
    + destruct (_ !! _) as [n|]; [|done]. simpl.
      rewrite (push_guard (λ seen, offersNode input inbound seen n)) by (intros; apply offersNode_seen). by case_match.
  - intros st e. apply (push_guard (λ seen, (es_Region (eob_spec e) !=? "") && offersExternal input inbound seen e)).
    intros. rewrite offersExternal_seen. btauto.
  - intros st n. apply (push_guard (λ seen, offersNode input inbound seen n)). intros. apply offersNode_seen.
Qed.

(** What every exit target must meet, whatever its kind. *)
Definition Offerable (input : ClientConfigInput) (inbound : SingBoxNode) (t : string) : Prop :=
  (map_index false (cc_PolicyOnlyEgressNames input) t = true → targetHasClientGroup input t "ai" = true) ∧
  IsNodeAllowed t (cc_AllowedNodeNames input) (cc_DeniedNodeNames input) = true ∧
  (ns_AllowedOutbounds (node_spec inbound) = [] ∨ t ∈ ns_AllowedOutbounds (node_spec inbound)).

Definition Online (input : ClientConfigInput) (t : string) : Prop := map_index false (cc_OfflineNodeNames input) t = false.

Lemma listAllows_true l x : listAllows l x = true ↔ l = [] ∨ x ∈ l.
Proof.
  unfold listAllows. rewrite orb_true_iff, bool_decide_eq_true, slices_Contains_true. by rewrite length_zero_iff_nil.
Qed.

Lemma targetOffered_spec input inbound t : targetOffered input inbound ∅ t = true ↔ Offerable input inbound t.
Proof.
  unfold targetOffered, Offerable. rewrite (bool_decide_eq_true_2 (t ∉ ∅)), !andb_true_iff, orb_true_iff, negb_true_iff, listAllows_true by set_solver.
  destruct (map_index _ _ _), (targetHasClientGroup _ _ _); naive_solver.
Qed.

Lemma offersNode_spec input inbound n :
  offersNode input inbound ∅ n = true ↔
  ns_RelayPort (node_spec n) ≠ 0%Z ∧ ns_Region (node_spec n) = ns_Region (node_spec inbound) ∧
  Offerable input inbound (GetName n) ∧ Online input (GetName n) ∧
  (ns_AllowedInbounds (node_spec n) = [] ∨ GetName inbound ∈ ns_AllowedInbounds (node_spec n)).
Proof.
  unfold offersNode. rewrite !andb_true_iff, !bool_decide_eq_true, targetOffered_spec, listAllows_true, negb_true_iff.
  unfold Online, offline. tauto.
Qed.

Lemma offersSelf_spec input inbound :
  offersSelf input inbound ∅ = true ↔
  ProxyRoleOutbound ∈ ns_Roles (node_spec inbound) ∧ Offerable input inbound (GetName inbound) ∧ Online input (GetName inbound).
Proof.
  unfold offersSelf, hasOutboundRole. rewrite !andb_true_iff, targetOffered_spec, slices_Contains_true, negb_true_iff.
  unfold Online, offline. tauto.
Qed.

Lemma offersExternal_spec input inbound e :
  offersExternal input inbound ∅ e = true ↔
  es_Region (eob_spec e) = ns_Region (node_spec inbound) ∧ Offerable input inbound (GetName e) ∧
  cc_OutboundsByName input !! GetName e = None ∧
  (es_AllowedInbounds (eob_spec e) = [] ∨ GetName inbound ∈ es_AllowedInbounds (eob_spec e)).
Proof.
  unfold offersExternal. rewrite !andb_true_iff, !bool_decide_eq_true, targetOffered_spec, listAllows_true. tauto.
Qed.

(** The three ways in which a target is reachable through an inbound node. *)
Definition reachesNode (input : ClientConfigInput) (inbound : SingBoxNode) (t : string) : Prop :=
  ∃ n, cc_OutboundsByName input !! t = Some n ∧ ns_RelayPort (node_spec n) ≠ 0%Z ∧
    ns_Region (node_spec n) = ns_Region (node_spec inbound) ∧ Online input t ∧
    (ns_AllowedInbounds (node_spec n) = [] ∨ GetName inbound ∈ ns_AllowedInbounds (node_spec n)).

Definition reachesSelf (input : ClientConfigInput) (inbound : SingBoxNode) (t : string) : Prop :=
  t = GetName inbound ∧ ProxyRoleOutbound ∈ ns_Roles (node_spec inbound) ∧ Online input t.

Definition reachesExternal (input : ClientConfigInput) (inbound : SingBoxNode) (t : string) : Prop :=
  ∃ e, cc_ExternalOutboundsByName input !! t = Some e ∧ cc_OutboundsByName input !! t = None ∧
    es_Region (eob_spec e) = ns_Region (node_spec inbound) ∧
    (es_AllowedInbounds (eob_spec e) = [] ∨ GetName inbound ∈ es_AllowedInbounds (eob_spec e)) ∧
    (es_Region (eob_spec e) ≠ "" ∨
     ∃ r, r ∈ map_index [] (cc_RoutesByInbound input) (GetName inbound) ∧
          EffectiveOutboundKind r = OutboundKindExternalOutbound ∧ rs_OutboundNode (route_spec r) = t).

Section reaches.
Context `{MapRange} (input : ClientConfigInput) `{!KeyedInput input} (inbound : SingBoxNode).

Lemma elem_of_nodeCandidates t :
  t ∈ refNames (nodeCandidates input inbound) ↔ Offerable input inbound t ∧ reachesNode input inbound t.
Proof.
  unfold refNames, nodeCandidates, reachesNode. rewrite <-list_fmap_compose, list_elem_of_fmap.
  setoid_rewrite list_elem_of_filter. setoid_rewrite offersNode_spec. setoid_rewrite elem_of_range_values.
  split.
  - intros (n & -> & ? & k & Hk). simpl. rewrite (ki_nodes _ _ Hk) in *. naive_solver.
  - intros [? (n & Hn & ?)]. exists n. simpl. rewrite (ki_nodes _ _ Hn). naive_solver.
Qed.

Lemma elem_of_selfCandidates t :
  t ∈ refNames (selfCandidates input inbound) ↔ Offerable input inbound t ∧ reachesSelf input inbound t.
Proof.
  unfold selfCandidates, reachesSelf. pose proof (offersSelf_spec input inbound) as Hs.
  destruct (offersSelf input inbound ∅); simpl; rewrite ?list_elem_of_singleton, ?elem_of_nil.
  - destruct Hs as [Hs _]. specialize (Hs eq_refl). split; [intros ->; tauto | tauto].
  - destruct Hs as [_ Hs]. split; [done|]. intros (? & -> & ?). enough (false = true) by done. tauto.
Qed.

Lemma elem_of_externalCandidates t :
  t ∈ refNames (externalCandidates input inbound) ↔
  ∃ e, cc_ExternalOutboundsByName input !! t = Some e ∧ es_Region (eob_spec e) ≠ "" ∧ offersExternal input inbound ∅ e = true.
Proof.
  unfold refNames, externalCandidates. rewrite <-list_fmap_compose, list_elem_of_fmap.
  setoid_rewrite list_elem_of_filter. setoid_rewrite elem_of_range_values.
  split.
  - intros (e & -> & ? & k & Hk). bool_prop. simpl. rewrite (ki_exts _ _ Hk). eauto.
  - intros (e & He & ? & Ho). exists e. simpl. rewrite (ki_exts _ _ He), Ho, bool_decide_eq_false_2 by done. eauto.
Qed.

Lemma elem_of_routeCandidates t l :
  t ∈ refNames (omap (routeCandidate input inbound) l) ↔
  ∃ r, r ∈ l ∧ rs_OutboundNode (route_spec r) = t ∧
    (EffectiveOutboundKind r = OutboundKindExternalOutbound ∧
       (∃ e, cc_ExternalOutboundsByName input !! t = Some e ∧ offersExternal input inbound ∅ e = true) ∨
     EffectiveOutboundKind r ≠ OutboundKindExternalOutbound ∧
       (∃ n, cc_OutboundsByName input !! t = Some n ∧ offersNode input inbound ∅ n = true)).
Proof.
  unfold refNames. rewrite list_elem_of_fmap. setoid_rewrite list_elem_of_omap. unfold routeCandidate. split.
  - intros (ref & -> & r & Hr & Hc). case_bool_decide.
    + apply bind_Some in Hc as (e & He & Hc). case_match; simplify_eq/=.
      exists r. rewrite (ki_exts _ _ He). naive_solver.
    + apply bind_Some in Hc as (n & Hn & Hc). case_match; simplify_eq/=.
      exists r. rewrite (ki_nodes _ _ Hn). naive_solver.
  - intros (r & Hr & <- & [[Hk (e & He & Ho)]|[Hk (n & Hn & Ho)]]).
    + exists (externalRef e). simpl. rewrite (ki_exts _ _ He). split; [done|]. exists r. split; [done|].
      by rewrite bool_decide_eq_true_2, He; simpl; rewrite ?Ho.
    + exists (nodeRef n). simpl. rewrite (ki_nodes _ _ Hn). split; [done|]. exists r. split; [done|].
      by rewrite bool_decide_eq_false_2, Hn; simpl; rewrite ?Ho.
Qed.

Lemma elem_of_candidates t :
  t ∈ refNames (candidates input inbound) ↔
  Offerable input inbound t ∧ (reachesNode input inbound t ∨ reachesSelf input inbound t ∨ reachesExternal input inbound t).
Proof.
  unfold candidates, refNames. rewrite !fmap_app, !elem_of_app.
  rewrite elem_of_nodeCandidates, elem_of_selfCandidates, elem_of_externalCandidates, elem_of_routeCandidates.
  setoid_rewrite offersExternal_spec. setoid_rewrite offersNode_spec. split.
  - intros [[??]|[[??]|[(e & He & ?)|(r & ? & <- & [[? (e & He & ?)]|[? (n & Hn & ?)]])]]]; [by auto..| | |].
    + rewrite (ki_exts _ _ He) in *. split; [tauto|]. do 2 right. exists e. naive_solver.
    + rewrite (ki_exts _ _ He) in *. split; [tauto|]. do 2 right. exists e. naive_solver.
    + rewrite (ki_nodes _ _ Hn) in *. split; [tauto|]. left. exists n. naive_solver.
  - intros [? [?|[?|(e & He & ? & ? & ? & Hor)]]]; [by auto..|]. pose proof (ki_exts _ _ He) as Hname.
    destruct Hor as [?|(r & ? & ? & ?)].
    + right; right; left. exists e. rewrite Hname. naive_solver.
    + right; right; right. exists r. split_and!; [done..|]. left. split; [done|]. exists e. rewrite Hname. naive_solver.
Qed.
End reaches.

(** C22. The targets offered through an inbound node: resolveOutboundNodes lists
    exactly the names that the user's group admits, that the inbound node's
    allowedOutbounds admits, that no policy reserves (unless in the ai group), and
    that are an online same-region relay with a relay port, or the node itself when
    it has the outbound role, or a same-region external outbound that no outbound
    node shadows, each admitting the inbound node; every name appears once, in
    ascending order. *)
Theorem resolveOutboundNodes_spec `{MapRange} input name inbound :
  KeyedInput input → snd <$> list_find (λ n, GetName n = name) (cc_InboundNodes input) = Some inbound →
  let names := refNames (resolveOutboundNodes input name) in
  NoDup names ∧ StronglySorted String.le names ∧
  ∀ t, t ∈ names ↔ Offerable input inbound t ∧
         (reachesNode input inbound t ∨ reachesSelf input inbound t ∨ reachesExternal input inbound t).
Proof.
  intros Hk Hf names. unfold names. rewrite (resolveOutboundNodes_candidates _ _ _ Hf).
  destruct (foldl_pushNewRef_ok (∅, []) (candidates input inbound)) as (_ & Hnd & Ht & _); [done|constructor|].
  split_and!.
  - unfold refNames. by rewrite sort_by_perm.
  - pose proof (sort_by_sorted (less_on or_TargetName) (foldl pushNewRef (∅, []) (candidates input inbound)).2) as Hs.
    induction Hs as [|x l ? IH Hx]; simpl; constructor; [done|].
    apply Forall_fmap. eapply Forall_impl; [done|]. intros y. apply str_less_false.
  - intros t. rewrite <-elem_of_candidates by done. unfold refNames at 1. rewrite sort_by_perm. fold (refNames).
    rewrite Ht. simpl. set_solver.
Qed.

#[export] Instance sample_client_keyed : KeyedInput sample_client.
Proof.
  split; intros k x; simpl.
  - unfold client_nodes. intros [[<- <-]|[? [<- <-]%lookup_singleton_Some]]%lookup_insert_Some; done.
  - by intros [<- <-]%lookup_singleton_Some.
Qed.

Lemma resolveOutboundNodes_spec_witness :
  let names := refNames (resolveOutboundNodes sample_client "entry1") in
  names = ["entry1"; "exit1"; "ext1"] ∧
  NoDup names ∧ StronglySorted String.le names ∧
  ∀ t, t ∈ names ↔ Offerable sample_client client_entry t ∧
         (reachesNode sample_client client_entry t ∨ reachesSelf sample_client client_entry t ∨
          reachesExternal sample_client client_entry t).
Proof.
  split; [by vm_compute|]. by apply (resolveOutboundNodes_spec sample_client "entry1" client_entry sample_client_keyed).
Defined.

(** ** Independence of the map order *)

(** The same names seen and the same references collected, in any order. *)
Definition refs_equiv (st st' : gset string * list outboundRef) : Prop := st.1 = st'.1 ∧ st.2 ≡ₚ st'.2.

#[export] Instance pushNewRef_proper : Proper (refs_equiv ==> eq ==> refs_equiv) pushNewRef.
Proof.
  intros st st' [Hs Hl] r _ <-. unfold pushNewRef. rewrite Hs. case_bool_decide; [done|].
  split; simpl; by rewrite ?Hs, ?Hl.
Qed.

Lemma foldl_pushNewRef_equiv st st' l : refs_equiv st st' → refs_equiv (foldl pushNewRef st l) (foldl pushNewRef st' l).
Proof. revert st st'. induction l as [|r l IH]; intros st st' Hst; simpl; [done|]. apply IH. by rewrite Hst. Qed.

Lemma foldl_pushNewRef_perm st st' l l' :
  NoDup (refNames l) → l ≡ₚ l' → refs_equiv st st' → refs_equiv (foldl pushNewRef st l) (foldl pushNewRef st' l').
Proof.
  intros Hnd Hp [Hs Hl]. assert (NoDup (refNames l')) as Hnd' by (unfold refNames in *; by rewrite <-Hp).
  rewrite !foldl_pushNewRef_NoDup by done. split; simpl; rewrite Hs.
  - unfold refNames. by rewrite Hp.
  - by rewrite Hl, Hp.
Qed.

Lemma refNames_filter_NoDup {A} (f : A → outboundRef) (P : A → Prop) `{∀ x, Decision (P x)} (l : list A) :
  NoDup ((or_TargetName ∘ f) <$> l) → NoDup (refNames (f <$> filter P l)).
Proof.
  unfold refNames. rewrite <-list_fmap_compose. induction l as [|x l IH]; [done|].
  rewrite fmap_cons, NoDup_cons, filter_cons. intros [Hx Hl]. case_decide; [|by apply IH].
  rewrite fmap_cons, NoDup_cons. split; [|by apply IH]. intros Hin. apply Hx.
  apply list_elem_of_fmap in Hin as (y & -> & [_ Hy]%list_elem_of_filter). apply list_elem_of_fmap. eauto.
Qed.

Lemma resolveOutboundNodes_ext (R1 R2 : MapRange) input name :
  KeyedInput input → @resolveOutboundNodes R1 input name = @resolveOutboundNodes R2 input name.
Proof.
  intros Hk. destruct (snd <$> list_find (λ n, GetName n = name) (cc_InboundNodes input)) as [inbound|] eqn:Hf;
    [|unfold resolveOutboundNodes; by rewrite Hf].
  rewrite (@resolveOutboundNodes_candidates R1 _ _ _ Hf), (@resolveOutboundNodes_candidates R2 _ _ _ Hf).
  apply sort_on_ext.
  - unfold candidates. rewrite !foldl_app. apply foldl_pushNewRef_equiv.
    apply foldl_pushNewRef_perm.
    { apply refNames_filter_NoDup, (NoDup_range_names (H0 := R1)), ki_exts. }
    { unfold externalCandidates. by rewrite (range_values_perm R1 R2). }
    apply foldl_pushNewRef_equiv, foldl_pushNewRef_perm; [| |done].
    { apply refNames_filter_NoDup, (NoDup_range_names (H0 := R1)), ki_nodes. }
    { unfold nodeCandidates. by rewrite (range_values_perm R1 R2). }
  - by apply (foldl_pushNewRef_ok (∅, []) (@candidates R1 input inbound)); [|constructor].
Qed.

(** ** Policies *)
Section policy_egress.
Context `{LabelSelectors}.

(** The targets that a policy selects, in the order in which they are visited. *)
Definition policyTargets `{MapRange} (input : ClientConfigInput) (policy : EgressPolicy) : list string :=
  let sel := ps_EgressSelector (policy_spec policy) in
  (GetName <$> filter (λ n, EgressPolicySelector_Matches sel n = true) (range_values (cc_OutboundsByName input))) ++
  (GetName <$> filter (λ e, EgressPolicySelector_Matches sel e = true) (range_values (cc_ExternalOutboundsByName input))).

Lemma last_match_count {A} `{HasMeta A} (p : A → bool) names (l : list A) :
  foldl (λ st x, if p x then (GetName x, S st.2) else st) (default "" (last names), length names) l =
  let names := names ++ (GetName <$> filter (λ x, p x = true) l) in (default "" (last names), length names).
Proof.
  revert names. induction l as [|x l IH]; intros names; simpl; [by rewrite app_nil_r|].
  rewrite filter_cons. destruct (p x) eqn:Hp; [|by rewrite decide_False by done].
  rewrite decide_True by done. specialize (IH (names ++ [GetName x])). rewrite last_snoc, length_app in IH.
  simpl in IH. rewrite Nat.add_1_r in IH. simpl. rewrite IH, <-app_assoc. done.
Qed.

Lemma resolveClientPolicyEgress_targets `{MapRange} input policy :
  resolveClientPolicyEgress input policy =
  (default "" (last (policyTargets input policy)), length (policyTargets input policy)).
Proof.
  unfold resolveClientPolicyEgress. rewrite (last_match_count _ []). simpl. by rewrite last_match_count.
Qed.

Lemma clientPolicyStep_ext `{GoStd} (R1 R2 : MapRange) input st policy :
  @clientPolicyStep R1 _ _ input st policy = @clientPolicyStep R2 _ _ input st policy.
Proof.
  unfold clientPolicyStep. rewrite (@resolveClientPolicyEgress_targets R1), (@resolveClientPolicyEgress_targets R2).
  assert (@policyTargets R1 input policy ≡ₚ @policyTargets R2 input policy) as Hp.
  { unfold policyTargets. by rewrite (range_values_perm R1 R2), (range_values_perm R1 R2 (cc_ExternalOutboundsByName input)). }
  assert (length (@policyTargets R1 input policy) = length (@policyTargets R2 input policy)) as Hlen by (by rewrite Hp).
  destruct (decide (length (@policyTargets R1 input policy) = 1)) as [H1|H1].
  - destruct (@policyTargets R1 input policy) as [|x [|??]]; try done.
    apply Permutation_singleton_l in Hp. by rewrite Hp.
  - rewrite <-Hlen. destruct (length (@policyTargets R1 input policy)) as [|[|k]]; done.
Qed.

Lemma buildClientPolicies_ext `{GoStd} (R1 R2 : MapRange) input :
  @buildClientPolicies R1 _ _ input = @buildClientPolicies R2 _ _ input.
Proof.
  unfold buildClientPolicies. generalize (@nil json, ∅ : gmap string bool).
  induction (sort_by policy_less (cc_EgressPolicies input)) as [|p l IH]; intros st; simpl; [done|].
  rewrite (clientPolicyStep_ext R1 R2). by destruct (clientPolicyStep input st p).
Qed.
End policy_egress.

Lemma foldl_fun_ext {A B} (f g : A → B → A) st l : (∀ st x, f st x = g st x) → foldl f st l = foldl g st l.
Proof. intros Hfg. revert st. induction l; intros st; simpl; by rewrite ?Hfg. Qed.

Lemma lookup_foldl_mark (p : string → bool) (m : gmap string bool) l k :
  foldl (λ m name, if p name then <[name := true]> m else m) m l !! k =
  if bool_decide (k ∈ l) && p k then Some true else m !! k.
Proof.
  revert m. induction l as [|x l IH]; intros m; simpl; [done|]. rewrite IH.
  destruct (decide (k = x)) as [->|Hne].
  - rewrite (bool_decide_eq_true_2 (x ∈ x :: l)) by set_solver. destruct (p x); simpl; [|by rewrite andb_false_r].
    rewrite lookup_insert, decide_True by done. by destruct (_ && _).
  - rewrite (bool_decide_ext (k ∈ x :: l) (k ∈ l)) by set_solver. destruct (p x); [|done]. by rewrite lookup_insert_ne.
Qed.

Lemma hidePolicyTargets_ext (R1 R2 : MapRange) input targets :
  @hidePolicyTargets R1 input targets = @hidePolicyTargets R2 input targets.
Proof.
  unfold hidePolicyTargets. case_bool_decide; [done|]. f_equal. apply map_eq. intros k. rewrite !lookup_foldl_mark.
  by rewrite (bool_decide_ext (k ∈ (@range R1 _ targets).*1) (k ∈ (@range R2 _ targets).*1)) by (by rewrite !range_perm).
Qed.

#[export] Instance hidePolicyTargets_keyed `{MapRange} input targets :
  KeyedInput input → KeyedInput (hidePolicyTargets input targets).
Proof. intros [Hn He]. unfold hidePolicyTargets. case_match; by constructor. Qed.

(** C24. The client configuration is a function of its input: whatever order Go
    visits the node, external outbound, policy target and group maps in, the
    result is the same list of outbounds, or the same error. *)
Theorem BuildClientConfig_deterministic `{GoStd, LabelSelectors} (R1 R2 : MapRange) input :
  KeyedInput input → @BuildClientConfig R1 _ _ input = @BuildClientConfig R2 _ _ input.
Proof.
  intros Hk. unfold BuildClientConfig. rewrite (buildClientPolicies_ext R1 R2).
  destruct (buildClientPolicies input) as [|[rules targets]]; [done|]. cbv zeta. simpl.
  rewrite (hidePolicyTargets_ext R1 R2). set (input' := @hidePolicyTargets R2 input targets).
  assert (KeyedInput input') as Hk' by apply _.
  assert (∀ st ib, @addInbound R1 input' st ib = @addInbound R2 input' st ib) as Hadd.
  { intros. unfold addInbound. by rewrite (resolveOutboundNodes_ext R1 R2). }
  assert (foldl (@addInbound R1 input') ([], ∅) (cc_InboundNodes input') =
          foldl (@addInbound R2 input') ([], ∅) (cc_InboundNodes input')) as ->.
  { by apply foldl_fun_ext. }
  destruct (foldl _ _ _) as [obs groups]. do 3 f_equal. f_equal. apply sort_strings_ext.
  by rewrite (@range_perm R1), (@range_perm R2).
Qed.

(** Visiting a map in the opposite order. *)
Program Definition range_reversed : MapRange := {| range V m := reverse (map_to_list m) |}.
Next Obligation. intros. apply reverse_Permutation. Qed.

Lemma BuildClientConfig_deterministic_witness :
  @range_values range_reversed _ client_nodes = reverse (range_values client_nodes) ∧
  @BuildClientConfig range_reversed _ _ sample_client = BuildClientConfig sample_client.
Proof. split; [by vm_compute|]. apply (BuildClientConfig_deterministic range_reversed _ sample_client sample_client_keyed). Defined.
