(* ===== verification/ClientSelectors.v ===== *)
(** * ClientSelectors: the tags and selectors of a client configuration

    Which outbounds BuildClientConfig emits, that its selectors refer to them and
    to nothing else, and when all tags of a configuration are distinct. *)

From S2P Require Import Prelude GoStrings Crypto Json Api Engine EngineFacts Samples K8s NodeController ClientConfig SampleClient ClientProps ClientTargets.
From Stdlib Require Import Ascii.

(** ** slices.Compact after sort.Strings *)
Lemma slices_Compact_cons x y l :
  slices_Compact (x :: y :: l) = if x ==? y then slices_Compact (y :: l) else x :: slices_Compact (y :: l).
Proof. done. Qed.

Lemma elem_of_slices_Compact x l : x ∈ slices_Compact l ↔ x ∈ l.
Proof.
  induction l as [|y [|z l] IH]; [done..|]. rewrite slices_Compact_cons. case_bool_decide as Hyz.
  - rewrite IH. subst. set_solver.
  - rewrite !(elem_of_cons _ x y), IH. done.
Qed.

Lemma slices_Compact_NoDup l : StronglySorted String.le l → NoDup (slices_Compact l).
Proof.
  induction 1 as [|y l Hl IH Hy]; [constructor|]. destruct l as [|z l]; [apply NoDup_singleton|].
  rewrite slices_Compact_cons. case_bool_decide as Hyz; [done|]. constructor; [|done].
  rewrite elem_of_slices_Compact, elem_of_cons. intros [?|Hin]; [done|]. apply Hyz.
  apply StronglySorted_inv in Hl as [_ Hz]. rewrite Forall_forall in Hz, Hy.
  apply (anti_symm String.le); [apply Hy; left|by apply Hz].
Qed.

Lemma slices_Compact_sorted l : StronglySorted String.le l → StronglySorted String.le (slices_Compact l).
Proof.
  induction 1 as [|y l Hl IH Hy]; [constructor|]. destruct l as [|z l]; [repeat constructor|].
  rewrite slices_Compact_cons. case_bool_decide; [done|]. constructor; [done|].
  apply Forall_forall. intros x. rewrite elem_of_slices_Compact. by apply Forall_forall.
Qed.

(** ** One target, one inbound node *)
Lemma buildProxyOutbound_tag tag address port protocol userName t serverName cred :
  entryTag (JObj (buildProxyOutbound tag address port protocol userName t serverName cred)) = Some tag.
Proof.
  rewrite entryTag_JObj. f_equal. unfold buildProxyOutbound.
  pattern (DeriveAuth protocol (uc_UUID cred) t).
  apply DeriveAuth_cases; generalize (DerivePassword (uc_UUID cred) t), (DeriveUUID (uc_UUID cred) t); intros;
    repeat (case_match; rewrite ?get_str_set_ne by done); done.
Qed.

Definition clientGroups : list string := ["hk"; "jp"; "us"; "ai"].

Section build.
Context `{MapRange} (input : ClientConfigInput).

Lemma groupsOf_known ref g : g ∈ groupsOf input ref → g ∈ clientGroups.
Proof. unfold groupsOf. rewrite list_elem_of_filter. intros [? _]. bool_prop. by apply slices_Contains_true. Qed.

(** The targets that an inbound node contributes an outbound for. *)
Definition advertised (inbound : SingBoxNode) : list outboundRef :=
  if offline input (GetName inbound) || negb (supportsProtocol inbound (EffectiveInboundProtocol inbound)) then []
  else match findEntryEndpoint (nst_EntryEndpoints (node_status inbound)) (EffectiveInboundProtocol inbound) with
       | None => []
       | Some _ => filter (λ ref, groupsOf input ref ≠ []) (resolveOutboundNodes input (GetName inbound))
       end.

Lemma addTarget_tags inbound protocol address port st ref :
  tags (addTarget input inbound protocol address port st ref).1 =
  tags st.1 ++ if decide (groupsOf input ref ≠ []) then [clientTag (or_TargetName ref) (GetName inbound)] else [].
Proof.
  unfold addTarget. simpl. destruct (groupsOf input ref) as [|g gs]; simpl; [by rewrite app_nil_r|].
  rewrite tags_app, tags_cons, buildProxyOutbound_tag. done.
Qed.

Lemma addInbound_tags st inbound :
  tags (addInbound input st inbound).1 =
  tags st.1 ++ ((λ ref, clientTag (or_TargetName ref) (GetName inbound)) <$> advertised inbound).
Proof.
  unfold addInbound, advertised. destruct (offline _ _); simpl; [by rewrite app_nil_r|].
  destruct (supportsProtocol _ _); simpl; [|by rewrite app_nil_r].
  destruct (findEntryEndpoint _ _) as [[address port]|]; [|by rewrite app_nil_r].
  revert st. induction (resolveOutboundNodes input (GetName inbound)) as [|ref l IH]; intros st; simpl; [by rewrite app_nil_r|].
  rewrite IH, addTarget_tags, filter_cons, <-app_assoc. by repeat case_decide.
Qed.

Lemma foldl_addInbound_tags st l :
  tags (foldl (addInbound input) st l).1 =
  tags st.1 ++ (inbound ← l; (λ ref, clientTag (or_TargetName ref) (GetName inbound)) <$> advertised inbound).
Proof.
  revert st. induction l as [|ib l IH]; intros st; simpl; [by rewrite app_nil_r|].
  by rewrite IH, addInbound_tags, <-app_assoc.
Qed.

(** The tags of the groups are the tags of the outbounds, and the groups are known. *)
Definition groupsInv (st : list json * gmap string (list string)) : Prop :=
  (∀ t, t ∈ tags st.1 ↔ ∃ g, t ∈ map_index [] st.2 g) ∧
  (∀ g, is_Some (st.2 !! g) → map_index [] st.2 g ≠ [] ∧ g ∈ clientGroups).

Lemma map_index_push (m : gmap string (list string)) g g' tag t :
  t ∈ map_index [] (<[g := map_index [] m g ++ [tag]]> m) g' ↔ t ∈ map_index [] m g' ∨ g' = g ∧ t = tag.
Proof.
  unfold map_index. destruct (decide (g' = g)) as [->|].
  - rewrite lookup_insert, decide_True by done. simpl. set_solver.
  - rewrite lookup_insert_ne by done. set_solver.
Qed.

Lemma foldl_push_groups (m : gmap string (list string)) tag gs :
  let m' := foldl (λ m g, <[g := map_index [] m g ++ [tag]]> m) m gs in
  (∀ g t, t ∈ map_index [] m' g ↔ t ∈ map_index [] m g ∨ g ∈ gs ∧ t = tag) ∧
  (∀ g, is_Some (m' !! g) ↔ is_Some (m !! g) ∨ g ∈ gs).
Proof.
  revert m. induction gs as [|g0 gs IH]; intros m; simpl; [set_solver|].
  destruct (IH (<[g0 := map_index [] m g0 ++ [tag]]> m)) as [IH1 IH2]. split.
  - intros g t. rewrite IH1, map_index_push. set_solver.
  - intros g. rewrite IH2, lookup_insert_is_Some'. set_solver.
Qed.

Lemma addTarget_inv inbound protocol address port st ref :
  groupsInv st → groupsInv (addTarget input inbound protocol address port st ref).
Proof.
  intros [Htags Hne]. pose proof (addTarget_tags inbound protocol address port st ref) as Ht.
  set (tag := clientTag (or_TargetName ref) (GetName inbound)) in *.
  destruct (foldl_push_groups st.2 tag (groupsOf input ref)) as [Hm Hs].
  unfold groupsInv. rewrite Ht. unfold addTarget. cbn [snd]. fold tag. split.
  - intros t. rewrite elem_of_app, Htags. setoid_rewrite Hm. case_decide as Hg.
    + rewrite list_elem_of_singleton. destruct (groupsOf input ref) as [|g0 gs]; [done|]. set_solver.
    + rewrite Hg. set_solver.
  - intros g [Hg|Hg]%Hs.
    + destruct (Hne g Hg) as [Hn ?]. split; [|done]. intros Hnil. apply Hn.
      destruct (map_index [] st.2 g) as [|x l] eqn:Hl; [done|]. exfalso.
      apply (not_elem_of_nil x). rewrite <-Hnil. apply Hm. left. rewrite Hl. left.
    + split; [|by eapply groupsOf_known]. intros Hnil. apply (not_elem_of_nil tag). rewrite <-Hnil. apply Hm. auto.
Qed.

Lemma foldl_addInbound_inv l : groupsInv (foldl (addInbound input) ([], ∅) l).
Proof.
  apply foldl_inv.
  - split; [|by intros g [? ?]]. intros t. unfold map_index. setoid_rewrite lookup_empty. simpl. set_solver.
  - intros st ib _ Hst. unfold addInbound. repeat (case_match; try done).
    apply foldl_inv; [done|]. intros. by apply addTarget_inv.
Qed.
End build.

(** ** The generated configuration *)
Definition selector (g : string) (members : list string) : json :=
  JObj (obj_of [("type", JStr "selector"); ("tag", JStr g); ("outbounds", jstrs members)]).

(** An outbound that connects to a server. *)
Definition isProxy (ob : json) : Prop := ∃ o address, ob = JObj o ∧ obj_get "server" o = Some (JStr address).

Lemma buildProxyOutbound_server tag address port protocol userName t serverName cred :
  obj_get "server" (buildProxyOutbound tag address port protocol userName t serverName cred) = Some (JStr address).
Proof.
  unfold buildProxyOutbound. pattern (DeriveAuth protocol (uc_UUID cred) t).
  apply DeriveAuth_cases; generalize (DerivePassword (uc_UUID cred) t), (DeriveUUID (uc_UUID cred) t); intros;
    repeat (case_match; rewrite ?obj_get_set_ne by done); done.
Qed.

Lemma foldl_addInbound_proxies `{MapRange} input l : Forall isProxy (foldl (addInbound input) ([], ∅) l).1.
Proof.
  apply foldl_inv; [constructor|]. intros st ib _ Hst. unfold addInbound. repeat (case_match; try done).
  apply (foldl_inv (λ st, Forall isProxy st.1)); [done|]. intros st' ref _ Hst'. unfold addTarget. cbn [fst].
  case_match; [|done]. apply Forall_app. split; [done|]. apply Forall_singleton. eexists _, _. split; [done|]. apply buildProxyOutbound_server.
Qed.

Section result.
Context `{MapRange, GoStd, LabelSelectors} (input : ClientConfigInput).

(** The input of the outbound loops: the targets of active policies are hidden. *)
Definition activeInput : ClientConfigInput :=
  match buildClientPolicies input with
  | inr pol => hidePolicyTargets input pol.2
  | inl _ => input
  end.

(** The shape of a successful result. *)
Lemma BuildClientConfig_inr out :
  BuildClientConfig input = inr out →
  let st := foldl (addInbound activeInput) ([], ∅) (cc_InboundNodes input) in
  let groupTags := sort_strings (filter (λ k, map_index [] st.2 k ≠ []) (range st.2).*1) in
  out = st.1 ++ map (λ g, selectorEntry g (map_index [] st.2 g)) groupTags ++ [buildDirectOutbound].
Proof.
  unfold BuildClientConfig, activeInput. destruct (buildClientPolicies input) as [|pol]; [done|].
  assert (cc_InboundNodes (hidePolicyTargets input pol.2) = cc_InboundNodes input) as ->
    by (unfold hidePolicyTargets; by case_match).
  cbv zeta. destruct (foldl _ _ _) as [obs groups]. by intros [= <-].
Qed.

Lemma elem_of_groupTags (m : gmap string (list string)) g :
  (∀ g, is_Some (m !! g) → map_index [] m g ≠ [] ∧ g ∈ clientGroups) →
  g ∈ sort_strings (filter (λ k, map_index [] m k ≠ []) (range m).*1) ↔ map_index [] m g ≠ [].
Proof.
  intros Hm. rewrite elem_of_sort_strings, list_elem_of_filter. split; [tauto|]. intros Hg. split; [done|].
  unfold map_index in Hg. destruct (m !! g) as [l|] eqn:Hl; [|done].
  apply list_elem_of_fmap. exists (g, l). by rewrite elem_of_range.
Qed.

Lemma groupTags_NoDup (m : gmap string (list string)) :
  NoDup (sort_strings (filter (λ k, map_index [] m k ≠ []) (range m).*1)).
Proof.
  unfold sort_strings. rewrite sort_by_perm. apply NoDup_filter. rewrite range_perm. apply NoDup_fst_map_to_list.
Qed.
End result.

(** C28. The selectors of a client configuration are closed: it is a list of proxy
    outbounds, then one selector per non-empty group of hk, jp, us and ai, then
    direct; every selector lists at least one member, without duplicates and in
    ascending order, each of them the tag of one of those proxy outbounds, and
    every proxy outbound is a member of some selector. *)
Theorem client_selectors_closed `{MapRange, GoStd, LabelSelectors} input out :
  BuildClientConfig input = inr out →
  ∃ proxies groups,
    out = proxies ++ map (λ gm, selector gm.1 gm.2) groups ++ [buildDirectOutbound] ∧
    Forall isProxy proxies ∧ NoDup groups.*1 ∧
    (∀ g members, (g, members) ∈ groups →
       g ∈ clientGroups ∧ members ≠ [] ∧ NoDup members ∧ StronglySorted String.le members ∧
       ∀ t, t ∈ members → t ∈ tags proxies) ∧
    (∀ t, t ∈ tags proxies → ∃ g members, (g, members) ∈ groups ∧ t ∈ members).
Proof.
  intros Hout%BuildClientConfig_inr. pose proof (foldl_addInbound_inv (activeInput input) (cc_InboundNodes input)) as [Ht Hm].
  pose proof (foldl_addInbound_proxies (activeInput input) (cc_InboundNodes input)) as Hproxy.
  destruct (foldl _ _ _) as [obs m]. cbn [fst snd] in *. cbv zeta in Hout.
  pose proof (groupTags_NoDup m) as Hnd. pose proof (λ g, elem_of_groupTags m g Hm) as Hg.
  set (gs := sort_strings _) in *. set (members g := slices_Compact (sort_strings (map_index [] m g))).
  exists obs, (map (λ g, (g, members g)) gs). split_and!; [|done| | |].
  - rewrite Hout, map_map. done.
  - rewrite <-list_fmap_compose. by rewrite list_fmap_id.
  - intros g ms (g' & [= -> ->] & Hin)%list_elem_of_fmap. apply Hg in Hin. unfold members.
    assert (∀ t, t ∈ slices_Compact (sort_strings (map_index [] m g')) ↔ t ∈ map_index [] m g') as He
      by (intros; by rewrite elem_of_slices_Compact, elem_of_sort_strings).
    split_and!.
    + apply Hm. unfold map_index in Hin. by destruct (m !! g').
    + destruct (map_index [] m g') as [|t l] eqn:Hl; [done|]. intros Hnil. apply (not_elem_of_nil t).
      rewrite <-Hnil. apply He. left.
    + apply slices_Compact_NoDup, sort_strings_sorted.
    + apply slices_Compact_sorted, sort_strings_sorted.
    + intros t Hmem%He. apply Ht. eauto.
  - intros t [g Hin]%Ht. exists g, (members g). split.
    + apply list_elem_of_fmap. exists g. split; [done|]. apply Hg. by intros Hnil; rewrite Hnil in Hin; apply elem_of_nil in Hin.
    + unfold members. by rewrite elem_of_slices_Compact, elem_of_sort_strings.
Qed.

Lemma sample_client_result : BuildClientConfig sample_client = inr sample_client_out.
Proof. by vm_compute. Qed.

Lemma client_selectors_closed_witness :
  tags sample_client_out = ["entry1"; "exit1#entry1"; "ext1#entry1"; "ai"; "jp"; "us"; "direct"] ∧
  ∃ proxies groups,
    sample_client_out = proxies ++ map (λ gm, selector gm.1 gm.2) groups ++ [buildDirectOutbound] ∧
    Forall isProxy proxies ∧ NoDup groups.*1 ∧
    (∀ g members, (g, members) ∈ groups →
       g ∈ clientGroups ∧ members ≠ [] ∧ NoDup members ∧ StronglySorted String.le members ∧
       ∀ t, t ∈ members → t ∈ tags proxies) ∧
    (∀ t, t ∈ tags proxies → ∃ g members, (g, members) ∈ groups ∧ t ∈ members).
Proof. split; [by vm_compute|]. exact (client_selectors_closed sample_client _ sample_client_result). Defined.

(** ** Distinct tags *)

(** The tags of the entries that do not stand for a target. *)
Definition reservedTags : list string := clientGroups ++ ["direct"].

(** Object names: distinct for the inbound nodes, free of the separator, and not a reserved tag. *)
Class PlainNames (input : ClientConfigInput) : Prop := {
  pn_distinct : NoDup (GetName <$> cc_InboundNodes input);
  pn_inbound : ∀ ib, ib ∈ cc_InboundNodes input → has_char "#" (GetName ib) = false;
  pn_nodes : ∀ k n, cc_OutboundsByName input !! k = Some n → has_char "#" k = false;
  pn_exts : ∀ k e, cc_ExternalOutboundsByName input !! k = Some e → has_char "#" k = false;
  pn_reserved : ∀ ib, ib ∈ cc_InboundNodes input → GetName ib ∉ reservedTags;
}.

Lemma reserved_plain t : t ∈ reservedTags → has_char "#" t = false.
Proof. intros Ht. by list_cases Ht. Qed.

Lemma clientTag_hash t ib : t ≠ ib → has_char "#" (clientTag t ib) = true.
Proof. intros Hne. unfold clientTag. rewrite bool_decide_eq_false_2 by done. by rewrite !has_char_app, orb_true_r. Qed.

Lemma clientTag_inj t ib t' ib' :
  has_char "#" t = false → has_char "#" t' = false → clientTag t ib = clientTag t' ib' → t = t' ∧ ib = ib'.
Proof.
  intros Ht Ht'. pose proof (clientTag_hash t ib) as H1. pose proof (clientTag_hash t' ib') as H2.
  unfold clientTag in *. repeat case_bool_decide; subst; intros Heq.
  - done.
  - rewrite <-Heq in H2. naive_solver congruence.
  - rewrite Heq in H1. naive_solver congruence.
  - by apply virtualUserName_inj.
Qed.

Lemma advertised_refs `{MapRange} input ib ref :
  ref ∈ advertised input ib → ref ∈ resolveOutboundNodes input (GetName ib).
Proof.
  unfold advertised. repeat case_match; rewrite ?elem_of_nil, ?list_elem_of_filter; naive_solver.
Qed.

Lemma resolveOutboundNodes_NoDup `{MapRange} input name : NoDup (refNames (resolveOutboundNodes input name)).
Proof.
  destruct (snd <$> list_find (λ n, GetName n = name) (cc_InboundNodes input)) as [inbound|] eqn:Hf;
    [|unfold resolveOutboundNodes; rewrite Hf; constructor].
  rewrite (resolveOutboundNodes_candidates _ _ _ Hf). unfold refNames. rewrite sort_by_perm.
  by apply (foldl_pushNewRef_ok (∅, []) (candidates input inbound)); [|constructor].
Qed.

Section unique.
Context `{MapRange} (input : ClientConfigInput) `{!KeyedInput input, !PlainNames input}.

Lemma advertised_plain ib t : t ∈ refNames (advertised input ib) → has_char "#" t = false.
Proof.
  intros (ref & -> & Href%advertised_refs)%list_elem_of_fmap.
  destruct (snd <$> list_find (λ n, GetName n = GetName ib) (cc_InboundNodes input)) as [inbound|] eqn:Hf;
    [|unfold resolveOutboundNodes in Href; rewrite Hf in Href; by apply elem_of_nil in Href].
  rewrite (resolveOutboundNodes_candidates _ _ _ Hf) in Href.
  destruct (find_inbound _ _ _ Hf) as [Hname Hin].
  destruct (foldl_pushNewRef_ok (∅, []) (candidates input inbound)) as (_ & _ & Ht & _); [done|constructor|].
  apply elem_of_sort_by in Href. apply (list_elem_of_fmap_2 or_TargetName), Ht in Href as [Hn|Hc]; [by apply elem_of_nil in Hn|].
  apply elem_of_candidates in Hc as [_ [(n & Hn & _)|[(-> & _)|(e & He & _)]]]; [..|done].
  - by eapply pn_nodes.
  - by apply pn_inbound.
  - by eapply pn_exts.
Qed.

Lemma client_tags_NoDup l :
  NoDup (GetName <$> l) →
  NoDup (inbound ← l; (λ ref, clientTag (or_TargetName ref) (GetName inbound)) <$> advertised input inbound).
Proof.
  induction l as [|ib l IH]; [constructor|]. rewrite fmap_cons, NoDup_cons, bind_cons. intros [Hib Hl].
  assert (∀ ref, ref ∈ advertised input ib → has_char "#" (or_TargetName ref) = false) as Hp
    by (intros; apply (advertised_plain ib); by apply list_elem_of_fmap_2).
  apply NoDup_app. split_and!; [| |by apply IH].
  - assert (NoDup (refNames (advertised input ib))) as Hnd.
    { pose proof (refNames_filter_NoDup id (λ ref, groupsOf input ref ≠ []) _ (resolveOutboundNodes_NoDup input (GetName ib))) as Hr.
      rewrite list_fmap_id in Hr. unfold advertised. by repeat case_match; try constructor. }
    revert Hnd Hp. induction (advertised input ib) as [|ref refs IHr]; [constructor|]. simpl.
    rewrite NoDup_cons. intros [Hr Hnd] Hp. constructor; [|apply IHr; [done|]; intros; apply Hp; by right].
    intros (ref' & Heq & Hr')%list_elem_of_fmap. apply Hr.
    apply clientTag_inj in Heq as [-> _]; [by apply list_elem_of_fmap_2|apply Hp; left|apply Hp; by right].
  - intros t (ref & -> & Hr)%list_elem_of_fmap (ib' & (ref' & Heq & Hr')%list_elem_of_fmap & Hin)%list_elem_of_bind.
    apply clientTag_inj in Heq as [_ Heq]; [|by apply Hp|apply (advertised_plain ib'); by apply list_elem_of_fmap_2].
    apply Hib. rewrite Heq. by apply list_elem_of_fmap_2.
Qed.
End unique.

#[export] Instance activeInput_keyed `{MapRange, GoStd, LabelSelectors} input : KeyedInput input → KeyedInput (activeInput input).
Proof. intros. unfold activeInput. case_match; apply _. Qed.

#[export] Instance activeInput_plain `{MapRange, GoStd, LabelSelectors} input : PlainNames input → PlainNames (activeInput input).
Proof. intros []. unfold activeInput, hidePolicyTargets. repeat case_match; by constructor. Qed.

Lemma tags_selectors (f : string → list string) l : tags (map (λ g, selectorEntry g (f g)) l) = l.
Proof. induction l as [|g l IH]; [done|]. cbn [map]. by rewrite tags_cons, IH. Qed.

(** The tags of a client configuration are distinct (sing-box refuses a
    configuration with duplicate outbound tags), provided that the inbound nodes
    have distinct names, that no name contains the separator of the tags, and that
    no inbound node is named like a selector group or direct. *)
Theorem client_tags_unique `{MapRange, GoStd, LabelSelectors} input out :
  KeyedInput input → PlainNames input → BuildClientConfig input = inr out → NoDup (tags out).
Proof.
  intros Hk Hp Hout%BuildClientConfig_inr. cbv zeta in Hout.
  pose proof (foldl_addInbound_tags (activeInput input) ([], ∅) (cc_InboundNodes input)) as Ht.
  destruct (foldl_addInbound_inv (activeInput input) (cc_InboundNodes input)) as [_ Hm].
  destruct (foldl _ _ _) as [obs m]. cbn [fst snd] in *. subst out. simpl in Ht.
  rewrite !tags_app, tags_selectors, Ht. change (tags [buildDirectOutbound]) with ["direct"].
  set (gs := sort_strings _).
  assert (∀ g, g ∈ gs ++ ["direct"] → g ∈ reservedTags) as Hres.
  { intros g. unfold reservedTags. rewrite !elem_of_app. unfold gs. rewrite elem_of_groupTags by done.
    intros [Hg|?]; [left|by right]. apply Hm. unfold map_index in Hg. by destruct (m !! g). }
  apply NoDup_app. split_and!.
  - apply client_tags_NoDup; [apply _..|]. apply pn_distinct.
  - intros t (ib & (ref & -> & Href)%list_elem_of_fmap & Hib)%list_elem_of_bind Hg%Hres.
    destruct (decide (or_TargetName ref = GetName ib)) as [Heq|Hne].
    + apply (pn_reserved ib Hib). unfold clientTag in Hg. by rewrite Heq, bool_decide_eq_true_2 in Hg.
    + apply reserved_plain in Hg. rewrite clientTag_hash in Hg; done.
  - apply NoDup_app. split_and!; [apply groupTags_NoDup| |apply NoDup_singleton].
    intros g Hg ->%list_elem_of_singleton. unfold gs in Hg. rewrite elem_of_groupTags in Hg by done.
    destruct (Hm "direct") as [_ Hd]; [|by list_cases Hd].
    unfold map_index in Hg. by destruct (m !! "direct").
Qed.

#[export] Instance sample_client_plain : PlainNames sample_client.
Proof.
  split; simpl.
  - apply NoDup_singleton.
  - by intros ib ->%list_elem_of_singleton.
  - unfold client_nodes. intros k x [[<- <-]|[? [<- <-]%lookup_singleton_Some]]%lookup_insert_Some; done.
  - by intros k x [<- <-]%lookup_singleton_Some.
  - intros ib ->%list_elem_of_singleton. by apply slices_Contains_false.
Qed.

Lemma client_tags_unique_witness : length (tags sample_client_out) = 7 ∧ NoDup (tags sample_client_out).
Proof.
  split; [by vm_compute|].
  exact (client_tags_unique sample_client _ sample_client_keyed sample_client_plain sample_client_result).
Defined.

(** A node with both roles that is named like a group: its own outbound and the
    selector of the group get the same tag. *)
Definition jp_node : SingBoxNode := clientNode "jp" [ProxyRoleInbound; ProxyRoleOutbound] 0 ["jp"] "10.0.0.3".

Definition jp_client : ClientConfigInput :=
  {| cc_User := mkUser "alice" ""; cc_EgressPolicies := []; cc_UserCred := {| uc_UUID := sample_uuid |};
     cc_InboundNodes := [jp_node]; cc_RoutesByInbound := ∅; cc_OutboundsByName := {["jp" := jp_node]};
     cc_ExternalOutboundsByName := ∅; cc_ExternalOutbounds := []; cc_OfflineNodeNames := ∅; cc_AllowedNodeNames := ∅;
     cc_DeniedNodeNames := ∅; cc_PolicyOnlyEgressNames := ∅ |}.

Lemma client_tag_collision :
  match BuildClientConfig jp_client with inr out => tags out = ["jp"; "jp"; "direct"] | inl _ => False end.
Proof. by vm_compute. Qed.
