(* ===== verification/ClientServed.v ===== *)
(** * ClientServed: every outbound a client receives is served

    The client configuration (internal/apiserver) and the node configuration
    (internal/configengine) are computed independently, from the same cluster.
    This file relates the two: what a client is told to connect to is what the
    inbound node listens for and routes. *)

From S2P Require Import Prelude GoStrings Crypto Json Api Engine EngineFacts Samples EngineProps K8s NodeController SampleCluster ClientConfig SampleClient ClientProps ClientTargets ClientSelectors.
From Stdlib Require Import Ascii.

(** [cc] and [input] are views of one cluster, [input] being that of the inbound
    node: the user, its credential and its group are the same, there are no
    CustomRoutes (they are retired), the peers that the reconciler collects
    include every same-region relay both allow-lists admit, and so for the
    external outbounds, whose credentials are complete and whose names are not
    those of nodes. *)
Class ServedBy (cc : ClientConfigInput) (input : Input) : Prop := {
  sb_node : snd <$> list_find (λ n, GetName n = GetName (Node input)) (cc_InboundNodes cc) = Some (Node input);
  sb_role : hasRole (Node input) ProxyRoleInbound = true;
  sb_user : cc_User cc ∈ Users input;
  sb_cred : map_index zeroUserCredential (UserCreds input) (GetName (cc_User cc)) = cc_UserCred cc;
  sb_allowed : map_index ∅ (UserNodeAllowlist input) (GetName (cc_User cc)) = cc_AllowedNodeNames cc;
  sb_denied : map_index ∅ (UserNodeRestrictions input) (GetName (cc_User cc)) = cc_DeniedNodeNames cc;
  sb_routes : map_index [] (cc_RoutesByInbound cc) (GetName (Node input)) = [];
  sb_self : ∀ n, cc_OutboundsByName cc !! GetName (Node input) = Some n → hasRole (Node input) ProxyRoleOutbound = true;
  sb_peers : ∀ n, cc_OutboundsByName cc !! GetName n = Some n → GetName n ≠ GetName (Node input) →
    ns_Region (node_spec n) = ns_Region (node_spec (Node input)) →
    listAllows (ns_AllowedInbounds (node_spec n)) (GetName (Node input)) = true →
    listAllows (ns_AllowedOutbounds (node_spec (Node input))) (GetName n) = true → n ∈ OutboundNodes input;
  sb_exts_distinct : NoDup (GetName <$> omap id (ExternalOutbounds input));
  sb_exts : ∀ e, cc_ExternalOutboundsByName cc !! GetName e = Some e → cc_OutboundsByName cc !! GetName e = None →
    es_Region (eob_spec e) ≠ "" → es_Region (eob_spec e) = ns_Region (node_spec (Node input)) →
    listAllows (es_AllowedInbounds (eob_spec e)) (GetName (Node input)) = true →
    listAllows (ns_AllowedOutbounds (node_spec (Node input))) (GetName e) = true →
    Some e ∈ ExternalOutbounds input ∧ externalUsable input e;
}.

(** The node's status carries the endpoints of its spec, with a colon-free address. *)
Class Published (n : SingBoxNode) : Prop := {
  pub_endpoints : nst_EntryEndpoints (node_status n) = entryEndpoint (ns_Address (node_spec n)) <$> ns_SupportedProtocols (node_spec n);
  pub_address : has_char ":" (ns_Address (node_spec n)) = false;
  pub_protocols : Forall plainProtocol (ns_SupportedProtocols (node_spec n));
  pub_port : findProtocolPort n (EffectiveInboundProtocol n) ≠ 0%Z;
}.

(** The configuration of the node accepts the client outbound [j] as the user
    [u] and sends its traffic out through the target [t]. *)
Definition Serves `{MapRange, LabelSelectors} (input : Input) (u : User) (t : string) (j : json) : Prop :=
  ∃ ob su listener, j = JObj ob ∧ JObj listener ∈ Inbounds (computeConfig input) ∧ JObj su ∈ inboundUsers (JObj listener) ∧
    obj_get "server" ob = Some (JStr (ns_Address (node_spec (Node input)))) ∧
    obj_get "type" ob = obj_get "type" listener ∧ obj_get "server_port" ob = obj_get "listen_port" listener ∧
    (is_Some (obj_get "tls" ob) ↔ is_Some (obj_get "tls" listener)) ∧
    (∀ k, k ∈ loginKeys → obj_get k ob = obj_get k su) ∧
    (∃ r, r ∈ Rules (Route (computeConfig input)) ∧ virtualUserName (GetName u) t ∈ rr_AuthUser r ∧
          rr_Outbound r = outboundTag t ∧ rr_Action r = "") ∧
    outboundTag t ∈ tags (Outbounds (computeConfig input)).

(** ** Which outbounds are emitted *)
Lemma elem_of_client_outbounds `{MapRange} input l j :
  j ∈ (foldl (addInbound input) ([], ∅) l).1 →
  ∃ inbound address port ref, inbound ∈ l ∧ ref ∈ resolveOutboundNodes input (GetName inbound) ∧
    findEntryEndpoint (nst_EntryEndpoints (node_status inbound)) (EffectiveInboundProtocol inbound) = Some (address, port) ∧
    j = JObj (buildProxyOutbound (clientTag (or_TargetName ref) (GetName inbound)) address port
                (EffectiveInboundProtocol inbound) (GetName (cc_User input)) (or_TargetName ref)
                (nst_TLSServerName (node_status inbound)) (cc_UserCred input)).
Proof.
  apply (foldl_inv (λ st, j ∈ st.1 → _)); [by intros ?%elem_of_nil|].
  intros st ib Hib Hst. unfold addInbound. destruct (offline _ _); [done|]. destruct (negb _); [done|].
  destruct (findEntryEndpoint _ _) as [[address port]|] eqn:Hep; [|done].
  apply (foldl_inv (λ st, j ∈ st.1 → _)); [done|]. intros st' ref Href Hst'. unfold addTarget. cbn [fst].
  case_match; [|done]. rewrite elem_of_app, list_elem_of_singleton. intros [?| ->]; [auto|].
  exists ib, address, port, ref. done.
Qed.

Section served.
Context `{MapRange, LabelSelectors, GoStd} (cc : ClientConfigInput) (input : Input).
Context `{!KeyedInput cc, !ServedBy cc input}.

Lemma activeInput_fields :
  cc_User (activeInput cc) = cc_User cc ∧ cc_UserCred (activeInput cc) = cc_UserCred cc ∧
  cc_InboundNodes (activeInput cc) = cc_InboundNodes cc ∧
  cc_OutboundsByName (activeInput cc) = cc_OutboundsByName cc ∧
  cc_ExternalOutboundsByName (activeInput cc) = cc_ExternalOutboundsByName cc ∧
  cc_RoutesByInbound (activeInput cc) = cc_RoutesByInbound cc ∧
  cc_AllowedNodeNames (activeInput cc) = cc_AllowedNodeNames cc ∧ cc_DeniedNodeNames (activeInput cc) = cc_DeniedNodeNames cc.
Proof. unfold activeInput, hidePolicyTargets. by repeat case_match. Qed.

(** An offered target is a target of the node's configuration, and the user may use it. *)
Lemma offered_target t :
  t ∈ refNames (resolveOutboundNodes (activeInput cc) (GetName (Node input))) →
  t ∈ computeTargets input ∧ userAllowed input t (GetName (cc_User cc)) = true.
Proof.
  destruct activeInput_fields as (_ & _ & Hin & Hnodes & Hexts & Hroutes & Hal & Hden).
  assert (snd <$> list_find (λ n, GetName n = GetName (Node input)) (cc_InboundNodes (activeInput cc)) = Some (Node input)) as Hf
    by (rewrite Hin; apply sb_node).
  rewrite (resolveOutboundNodes_candidates _ _ _ Hf). unfold refNames. rewrite sort_by_perm. fold refNames. intros Ht.
  destruct (foldl_pushNewRef_ok (∅, []) (candidates (activeInput cc) (Node input))) as (_ & _ & Hiff & _); [done|constructor|].
  apply Hiff in Ht as [Hnil|Ht]; [by apply elem_of_nil in Hnil|]. clear Hiff.
  apply elem_of_candidates in Ht as [(_ & Hallowed & Hout) Hreach]; [|apply _].
  rewrite Hal, Hden in Hallowed. unfold userAllowed. rewrite sb_allowed, sb_denied. split; [|done].
  apply listAllows_true in Hout. apply elem_of_routeOutboundNames. unfold routeTarget.
  destruct Hreach as [(n & Hn & Hp & Hreg & _ & Hib%listAllows_true)|[(-> & Hrole & _)|(e & He & Hno & Hreg & Hib%listAllows_true & Hor)]].
  - rewrite Hnodes in Hn. pose proof (ki_nodes _ _ Hn). subst t.
    destruct (decide (GetName n = GetName (Node input))) as [Heq|Hne].
    + right; right; left. split; [|done]. unfold isSelfOutbound. rewrite sb_role. rewrite Heq in Hn. by erewrite sb_self.
    + left; left. exists n. split_and!; [by apply sb_peers|done..].
  - right; right; left. split; [|done]. unfold isSelfOutbound. rewrite sb_role. by apply slices_Contains_true.
  - rewrite Hnodes in Hno. rewrite Hexts in He. rewrite Hroutes in Hor. pose proof (ki_exts _ _ He). subst t.
    destruct Hor as [Hne|(r & Hr & _)]; [|rewrite sb_routes in Hr; by apply elem_of_nil in Hr].
    do 3 right. exists e. split; [|done]. destruct (sb_exts e) as [Hl Hu]; [done..|].
    by apply resolveExternalOutbounds_complete; [|apply sb_exts_distinct|].
Qed.

Lemma offered_served ref tag serverName address port `{!Published (Node input), !RoutableInput input} :
  selfAllowed (Node input) →
  ref ∈ resolveOutboundNodes (activeInput cc) (GetName (Node input)) →
  findEntryEndpoint (nst_EntryEndpoints (node_status (Node input))) (EffectiveInboundProtocol (Node input)) = Some (address, port) →
  Serves input (cc_User cc) (or_TargetName ref)
    (JObj (buildProxyOutbound tag address port (EffectiveInboundProtocol (Node input)) (GetName (cc_User cc))
             (or_TargetName ref) serverName (cc_UserCred cc))).
Proof.
  intros Hself Href Hep. destruct (offered_target (or_TargetName ref)) as [Ht Hal]; [by apply list_elem_of_fmap_2|].
  rewrite pub_endpoints, findEntryEndpoint_published in Hep by apply Published0.
  destruct (supportsProtocol _ _); [|done]. injection Hep as <- <-.
  destruct (target_served input (cc_User cc) (or_TargetName ref)) as (Hl & Hu & Hrule & Htag);
    [done|done|apply sb_role|apply pub_port|apply sb_user|done..|].
  set (users := routeUsers _ _ _) in *. set (proto := EffectiveInboundProtocol (Node input)) in *.
  destruct (client_matches_listener input (cc_User cc) (or_TargetName ref) tag (ns_Address (node_spec (Node input)))
              (findProtocolPort (Node input) proto) proto serverName users) as (su & lst & Hsu & Hlst & Hagree).
  rewrite sb_cred in Hagree. destruct Hagree as (? & ? & ? & ?).
  eexists _, su, lst. split; [done|]. rewrite <-Hlst, <-Hsu, inboundUsers_entry. split_and!; try done.
  apply buildProxyOutbound_server.
Qed.
End served.

(** End to end: every proxy outbound of a client's configuration belongs to
    an inbound node and a target such that, when the node's own configuration is
    computed from the same cluster and its endpoints are published, the node
    listens on that address and port with the same protocol and TLS, accepts the
    outbound's credentials as this user, routes this identity to the target and
    defines the target's outbound. *)
Theorem client_outbound_served `{MapRange, LabelSelectors, GoStd} cc out j :
  KeyedInput cc → BuildClientConfig cc = inr out → j ∈ out → isProxy j →
  ∃ inbound t, inbound ∈ cc_InboundNodes cc ∧
    ∀ input, Node input = inbound → ServedBy cc input → Published inbound → RoutableInput input → selfAllowed inbound →
      Serves input (cc_User cc) t j.
Proof.
  intros Hk Hout%BuildClientConfig_inr Hj Hproxy. cbv zeta in Hout. rewrite Hout, !elem_of_app in Hj.
  destruct (activeInput_fields cc) as (Huser & Hcred & _).
  destruct Hj as [(ib & address & port & ref & Hib & Href & Hep & ->)%elem_of_client_outbounds|Hj].
  - exists ib, (or_TargetName ref). split; [done|]. intros input Hnode Hsb Hpub Hri Hself.
    rewrite <-Hnode in *. rewrite Huser, Hcred. by apply offered_served.
  - exfalso. destruct Hproxy as (o & a & -> & Hs).
    destruct Hj as [(g & Heq & _)%list_elem_of_fmap|Heq%list_elem_of_singleton]; injection Heq as ->; done.
Qed.

(** ** The sample cluster *)
Lemma sample_served : ServedBy sample_client sample_entry.
Proof.
  split; try by vm_compute.
  - left.
  - intros n Hn Hne _ _ _. simpl in *. unfold client_nodes in Hn.
    apply lookup_insert_Some in Hn as [[_ <-]|[_ [_ <-]%lookup_singleton_Some]]; [done|]. left.
  - apply NoDup_singleton.
  - intros e He _ _ _ _ _. simpl in He. apply lookup_singleton_Some in He as [_ <-]. split; [left|]. by vm_compute.
Qed.

Lemma sample_entry_published : Published client_entry.
Proof. split; [by vm_compute | done | repeat constructor; by vm_compute | done]. Qed.

Lemma sample_entry_routable : RoutableInput sample_entry.
Proof.
  split; simpl.
  - by intros k n [<- <-]%lookup_singleton_Some.
  - by intros k e [<- <-]%lookup_singleton_Some.
  - by intros n ->%list_elem_of_singleton.
  - done.
  - intros p [= ->]%list_elem_of_singleton. by left.
  - by intros n ->%list_elem_of_singleton.
  - by intros r n ?%elem_of_nil.
Qed.

(** In the sample cluster every proxy outbound of alice is served by entry1. *)
Lemma client_outbound_served_witness :
  let j := nth 1 sample_client_out JNull in
  entryTag j = Some "exit1#entry1" ∧ ∃ t, Serves sample_entry (mkUser "alice" "") t j.
Proof.
  intros j. split; [by vm_compute|].
  destruct (client_outbound_served sample_client sample_client_out j sample_client_keyed sample_client_result)
    as (ib & t & Hib & Hserve); [vm_compute; right; left | do 2 eexists; split; by vm_compute |].
  exists t. apply list_elem_of_singleton in Hib. rewrite Hib in Hserve.
  exact (Hserve sample_entry eq_refl sample_served sample_entry_published sample_entry_routable ltac:(by vm_compute)).
Defined.
