(* ===== verification/Template.v ===== *)
(** * Template: the template merge of internal/apiserver/template.go

    The administrator's (or the built-in) template is parsed, its route, DNS and
    experimental sections are completed with the generated rules and DNS servers,
    and its outbounds are replaced by the generated ones.  The objects of the
    parsed template are not shared, so an in-place update of one of them is the
    update of the member that holds it. *)

From S2P Require Import Prelude GoStrings GoNet Json JsonParse Api Engine ClientConfig.
From Stdlib Require Import Ascii.

Definition proxyDNSTag : string := "proxy-dns".
Definition localDNSTag : string := "local".
Definition clientModeAuto : string := "Auto".

(** name and tag, in the order of preference *)
Definition clientRegionModes : list (string * string) := [("HK", "hk"); ("JP", "jp"); ("US", "us")].
#[global] Arguments clientRegionModes : simpl never.

(** A text written with apostrophes for double quotes. *)
Definition quoted (s : string) : string :=
  String.string_of_list_ascii (map (λ c, if c ==? "'"%char then "034"%char else c) (String.list_ascii_of_string s)).

Definition DefaultTemplate : string := quoted "{
  'log': {'level': 'info'},
  'dns': {
    'servers': [
      {'type': 'https', 'tag': 'proxy-dns', 'server': '1.1.1.1'},
      {'type': 'hosts', 'path': [], 'predefined': {}, 'tag': 'block'},
      {'type': 'local', 'tag': 'local'}
    ],
    'rules': [
      {'rule_set': 'geosite-cn', 'server': 'local'}
    ],
    'final': 'proxy-dns',
    'strategy': 'ipv4_only'
  },
  'inbounds': [
    {
      'type': 'tun',
      'tag': 'tun-in',
      'address': '172.19.0.1/30',
      'auto_route': true,
      'strict_route': true,
      'stack': 'gvisor',
      'platform': {
        'http_proxy': {
          'enabled': true,
          'server': '127.0.0.1',
          'server_port': 7891
        }
      }
    },
    {'type': 'socks', 'tag': 'socks-in', 'listen': '127.0.0.1', 'listen_port': 7890},
    {'type': 'http', 'tag': 'http-in', 'listen': '127.0.0.1', 'listen_port': 7891}
  ],
  'outbounds': [],
  'route': {
    'rules': [
      {'action': 'sniff'},
      {'protocol': 'dns', 'action': 'hijack-dns'},
      {'rule_set': ['geosite-cn'], 'outbound': 'direct'},
      {'ip_is_private': true, 'outbound': 'direct'},
      {'rule_set': ['category-ads-all'], 'action': 'reject'}
    ],
    'rule_set': [
      {
        'tag': 'geosite-cn',
        'type': 'remote',
        'format': 'binary',
        'url': 'https://fastly.jsdelivr.net/gh/SagerNet/sing-geosite@rule-set/geosite-cn.srs',
        'http_client': {'detour': 'direct'}
      },
      {
        'tag': 'category-ads-all',
        'type': 'remote',
        'format': 'binary',
        'url': 'https://fastly.jsdelivr.net/gh/SagerNet/sing-geosite@rule-set/geosite-category-ads-all.srs',
        'http_client': {'detour': 'direct'}
      }
    ],
    'final': 'direct',
    'auto_detect_interface': true,
    'default_domain_resolver': 'proxy-dns'
  },
  'experimental': {'clash_api': {'default_mode': 'Auto'}}
}".

(** [m[k].(map[string]any)] and the like: [None] when the assertion fails. *)
Definition get_obj (k : string) (o : list (string * json)) : option (list (string * json)) := obj_get k o ≫= as_obj.
Definition get_arr (k : string) (o : list (string * json)) : option (list json) := obj_get k o ≫= as_arr.
Definition get_string (k : string) (o : list (string * json)) : option string := obj_get k o ≫= as_str.

(** The object at a member, updated in place. *)
Definition update_obj (k : string) (f : list (string * json) → list (string * json)) (o : list (string * json)) : list (string * json) :=
  match obj_get k o with
  | Some (JObj v) => obj_set k (JObj (f v)) o
  | _ => o
  end.

(** How a merge fails: an error built with fmt.Errorf, the error of
    json.Unmarshal, or a panic. *)
Inductive mergeError :=
  | FmtError (text : string)
  | UnmarshalError
  | NilMapWrite.

(** The body of the loop of normalizeDeprecatedClientConfig. *)
Definition normalizeRuleSet (raw : json) : json :=
  match raw with
  | JObj set =>
    match obj_get "download_detour" set with
    | Some (JStr detour) =>
      let set := match obj_get "http_client" set with
                 | None => obj_set "http_client" (JObj (obj_of [("detour", JStr detour)])) set
                 | Some _ => set
                 end in
      JObj (obj_delete "download_detour" set)
    | _ => raw
    end
  | _ => raw
  end.

Definition normalizeDeprecatedClientConfig (m : list (string * json)) : list (string * json) :=
  let m := update_obj "dns" (obj_delete "independent_cache") m in
  update_obj "route" (λ route,
    match obj_get "rule_set" route with
    | Some (JArr sets) => obj_set "rule_set" (JArr (map normalizeRuleSet sets)) route
    | _ => route
    end) m.

(** The document [null] leaves the map nil: writing its outbounds panics. *)
Definition MergeOutbounds (templateJSON : string) (generatedOutbounds : list json) : mergeError + string :=
  match json_Unmarshal_map templateJSON with
  | None => inl UnmarshalError
  | Some None => inl NilMapWrite
  | Some (Some m) => inr (json_Marshal (JObj (obj_set "outbounds" (JArr generatedOutbounds) (normalizeDeprecatedClientConfig m))))
  end.

(** [m[k] == s] for a string constant [s] *)
Definition is_str (k s : string) (o : list (string * json)) : bool :=
  match obj_get k o with Some (JStr t) => t ==? s | _ => false end.

Definition isDomesticDirectRule (rule : list (string * json)) : bool :=
  if negb (is_str "outbound" "direct" rule) then false
  else if match obj_get "ip_is_private" rule with Some (JBool b) => b | _ => false end then true
  else match obj_get "rule_set" rule with
       | Some (JArr sets) => existsb (λ set, match set with JStr s => s ==? "geosite-cn" | _ => false end) sets
       | _ => false
       end.

(** [item.(map[string]any)] satisfies [p]. *)
Definition rule_sat (p : list (string * json) → bool) (item : json) : bool :=
  match item with JObj rule => p rule | _ => false end.

(** The rules before the insertion point, and the others. *)
Fixpoint splitPreamble (original : list json) : list json * list json :=
  match original with
  | [] => ([], [])
  | item :: items =>
    if rule_sat (λ rule, is_str "action" "sniff" rule || is_str "action" "hijack-dns" rule) item
    then prod_map (cons item) id (splitPreamble items) else ([], original)
  end.

(** The tags of the entries that are objects with a string tag. *)
Definition objTags (l : list json) : list string := omap (λ ob, as_obj ob ≫= get_string "tag") l.

(** The first server with the tag. *)
Fixpoint findServer (tag : string) (servers : list json) : option (list (string * json)) :=
  match servers with
  | [] => None
  | JObj server :: rest => if is_str "tag" tag server then Some server else findServer tag rest
  | _ :: rest => findServer tag rest
  end.

Definition clientDNSServer (config : list (string * json)) (tag : string) : option (list (string * json)) :=
  findServer tag (default [] (get_obj "dns" config ≫= get_arr "servers")).

(** The update in place of the server that [findServer] finds. *)
Fixpoint updateServer (tag : string) (f : list (string * json) → list (string * json)) (servers : list json) : list json :=
  match servers with
  | [] => []
  | JObj server :: rest => if is_str "tag" tag server then JObj (f server) :: rest else JObj server :: updateServer tag f rest
  | raw :: rest => raw :: updateServer tag f rest
  end.

(** The outbound as the last loop of configureClientDNS leaves it, and whether it needed the local server. *)
Definition bootstrapOutbound (raw : json) : json * bool :=
  match raw with
  | JObj outbound =>
    let server := get_str "server" outbound in
    if (server ==? "") || match obj_get "domain_resolver" outbound with None | Some JNull => false | _ => true end
    then (raw, false)
    else match netip_ParseAddr server with
         | Some _ => (raw, false)
         | None => (JObj (obj_set "domain_resolver" (JStr localDNSTag) outbound), true)
         end
  | _ => (raw, false)
  end.

(** A slice that was nil before the appends. *)
Definition nil_slice (l : list json) : json := if bool_decide (l = []) then JNull else JArr l.

Definition regionDNSTag (mtag : string) : string := proxyDNSTag +:+ "-" +:+ mtag.
#[global] Arguments regionDNSTag : simpl never.

(** The loop over the region modes: the servers and the rules that it appends. *)
Fixpoint regionDNS (config proxyDNS : list (string * json)) (has : string → bool) (modes : list (string * string))
    : mergeError + (list json * list json) :=
  match modes with
  | [] => inr ([], [])
  | (name, mtag) :: modes =>
    if negb (has mtag) then regionDNS config proxyDNS has modes
    else
      let tag := regionDNSTag mtag in
      match clientDNSServer config tag with
      | Some _ => inl (FmtError ("template DNS server tag " +:+ dquote +:+ tag +:+ dquote +:+ " is reserved for generated Clash mode DNS"))
      | None =>
        let! rest := regionDNS config proxyDNS has modes in
        inr (JObj (obj_set "detour" (JStr mtag) (obj_set "tag" (JStr tag) proxyDNS)) :: rest.1,
             JObj (obj_of [("clash_mode", JStr name); ("server", JStr tag)]) :: rest.2)
      end
  end.

(** The detour of the managed server: without a regional proxy it is dialled directly. *)
Definition setDetour (proxySelector : string) (proxyDNS : list (string * json)) : list (string * json) :=
  if proxySelector !=? "" then obj_set "detour" (JStr proxySelector) proxyDNS else obj_delete "detour" proxyDNS.

(** The configuration, the route section and the outbounds after the call. *)
Definition configureClientDNS (config route : list (string * json)) (outbounds : list json) (proxySelector : string)
    (has : string → bool) : mergeError + (list (string * json) * list (string * json) * json) :=
  match clientDNSServer config proxyDNSTag, get_obj "dns" config, get_obj "dns" config ≫= get_arr "servers" with
  | Some proxyDNS, Some dns, Some servers =>
    match match obj_get "rules" dns with
          | Some (JArr l) => Some l
          | None | Some JNull => Some []
          | _ => None
          end with
    | None => inl (FmtError "template dns.rules must be an array")
    | Some dnsRules =>
      let! regions := regionDNS config (setDetour proxySelector proxyDNS) has clientRegionModes in
      let servers := updateServer proxyDNSTag (setDetour proxySelector) servers ++ regions.1 in
      let rules := dnsRules ++ regions.2 ++ [JObj (obj_of [("clash_mode", JStr clientModeAuto); ("server", JStr proxyDNSTag)])] in
      let result := map bootstrapOutbound outbounds in
      let servers := if existsb snd result && negb (bool_decide (is_Some (clientDNSServer config localDNSTag)))
                     then servers ++ [JObj (obj_of [("type", JStr "local"); ("tag", JStr localDNSTag)])] else servers in
      let dns := obj_set "final" (JStr proxyDNSTag) (obj_set "rules" (JArr rules) (obj_set "servers" (JArr servers) dns)) in
      inr (obj_set "dns" (JObj dns) config, obj_set "default_domain_resolver" (JStr proxyDNSTag) route, nil_slice (map fst result))
    end
  | _, _, _ => inr (config, route, JArr outbounds)
  end.

Section merge.
Context `{MapRange, GoStd, LabelSelectors}.

(** The check of one policy's rule sets against the tags of the template. *)
Definition checkRuleSets (input : ClientConfigInput) (defined : list string) (p : EgressPolicy) : option mergeError :=
  if (ps_Action (policy_spec p) ==? EgressPolicyActionRoute) && ((resolveClientPolicyEgress input p).2 =? 0) then None
  else first_error (λ ref,
         if slices_Contains defined ref then None
         else Some (FmtError ("policy " +:+ GetName p +:+ ": rule_set " +:+ strconv_Quote ref +:+
                            " is not defined in template route.rule_set")))
         (pm_RuleSet (ps_Match (policy_spec p))).

(** The regional selector of Auto mode, empty when there is none. *)
Definition proxySelector (has : string → bool) : string :=
  match list_find (λ mode, has mode.2 = true) clientRegionModes with
  | Some (_, mode) => mode.2
  | None => ""
  end.

(** The rules for the Clash modes. *)
Definition modeRules (has : string → bool) : list json :=
  let rule name tag := JObj (obj_of [("clash_mode", JStr name); ("outbound", JStr tag)]) in
  (if proxySelector has !=? "" then [rule clientModeAuto (proxySelector has)] else []) ++
  (mode ← clientRegionModes; if has mode.2 then [rule mode.1 mode.2] else []).

(** What the last loop over the template's rules appends for one of them. *)
Definition keepRule (item : json) : list json :=
  if rule_sat isDomesticDirectRule item then []
  else if rule_sat (λ rule, is_str "clash_mode" "Proxy" rule || is_str "clash_mode" "proxy" rule) item then []
  else match item with
       | JObj rule => if is_str "outbound" "proxy" rule then [JObj (obj_set "outbound" (JStr "direct") (obj_delete "outbound" rule))] else [item]
       | _ => [item]
       end.

(** The rules array of the merged route section. *)
Definition mergeRules (m : list (string * json)) (original policyRules : list json) (has : string → bool) : list json :=
  let '(preamble, rest) := splitPreamble original in
  preamble ++ policyRules ++
  (if clientDNSServer m proxyDNSTag is Some _ then [JObj (obj_of [("action", JStr "resolve")])] else []) ++
  filter (λ item, rule_sat isDomesticDirectRule item = true) rest ++
  modeRules has ++ (item ← rest; keepRule item).

(** experimental.clash_api.default_mode *)
Definition setDefaultMode (m : list (string * json)) : list (string * json) :=
  let experimental := default [] (get_obj "experimental" m) in
  let clash := default [] (get_obj "clash_api" experimental) in
  obj_set "experimental" (JObj (obj_set "clash_api" (JObj (obj_set "default_mode" (JStr clientModeAuto) clash)) experimental)) m.

(** The configuration that MergeClientConfig marshals.  The caller's outbounds are not nil. *)
Definition mergedConfig (templateJSON : string) (generatedOutbounds : list json) (input : ClientConfigInput)
    : mergeError + list (string * json) :=
  match buildClientPolicies input with
  | inl err => inl (FmtError err)
  | inr (policyRules, _) =>
    match json_Unmarshal_map templateJSON with
    | None => inl UnmarshalError
    | Some doc =>
      let m := normalizeDeprecatedClientConfig (default [] doc) in
      match get_obj "route" m with
      | None => inl (FmtError "template route must be an object")
      | Some route =>
        if bool_decide (get_arr "rules" route = None) && negb (bool_decide (length policyRules = 0))
        then inl (FmtError "template route.rules must be an array")
        else
          let original := default [] (get_arr "rules" route) in
          let defined := objTags (default [] (get_arr "rule_set" route)) in
          match first_error (checkRuleSets input defined) (cc_EgressPolicies input) with
          | Some err => inl err
          | None =>
            let has tag := slices_Contains (objTags generatedOutbounds) tag in
            let route := obj_set "rules" (nil_slice (mergeRules m original policyRules has)) route in
            let m := setDefaultMode m in
            let route := if proxySelector has !=? "" then obj_set "final" (JStr (proxySelector has)) route else route in
            let! res := configureClientDNS m route generatedOutbounds (proxySelector has) has in
            inr (obj_set "outbounds" res.2 (obj_set "route" (JObj res.1.2) res.1.1))
          end
      end
    end
  end.

Definition MergeClientConfig (templateJSON : string) (generatedOutbounds : list json) (input : ClientConfigInput) : mergeError + string :=
  let! m := mergedConfig templateJSON generatedOutbounds input in inr (json_Marshal (JObj m)).
End merge.
