(* ===== verification/TemplateFacts.v ===== *)
(** * TemplateFacts: the sections of a merged client configuration

    The lemmas that the theorems on MergeClientConfig rest on: reading a member
    after the updates of the merge, and what each section of the result holds. *)

From S2P Require Import Prelude GoStrings GoNet Json JsonParse Api Engine ClientConfig Template.

(** ** Reading the merged configuration *)
Definition clientRules (m : list (string * json)) : list json := default [] (get_obj "route" m ≫= get_arr "rules").
Definition clientOutbounds (m : list (string * json)) : list json := default [] (get_arr "outbounds" m).
Definition dnsServers (m : list (string * json)) : list json := default [] (get_obj "dns" m ≫= get_arr "servers").
Definition dnsRules (m : list (string * json)) : list json := default [] (get_obj "dns" m ≫= get_arr "rules").

(** The outbound a rule names, and the Clash mode it is for. *)
Definition ruleOutbound (item : json) : option string := as_obj item ≫= get_string "outbound".
Definition ruleMode (item : json) : option string := as_obj item ≫= get_string "clash_mode".

Lemma get_obj_set_eq k v o : get_obj k (obj_set k (JObj v) o) = Some v.
Proof. unfold get_obj. by rewrite obj_get_set_eq. Qed.

Lemma get_obj_set_ne k k' v o : k ≠ k' → get_obj k (obj_set k' v o) = get_obj k o.
Proof. intros. unfold get_obj. by rewrite obj_get_set_ne. Qed.

Lemma get_string_set_eq k v o : get_string k (obj_set k (JStr v) o) = Some v.
Proof. unfold get_string. by rewrite obj_get_set_eq. Qed.

Lemma get_string_set_ne k k' v o : k ≠ k' → get_string k (obj_set k' v o) = get_string k o.
Proof. intros. unfold get_string. by rewrite obj_get_set_ne. Qed.

#[export] Hint Rewrite get_obj_set_eq get_string_set_eq : go.

Lemma nil_slice_list l : default [] (as_arr (nil_slice l)) = l.
Proof. unfold nil_slice. by case_bool_decide; subst. Qed.

Lemma is_str_true k s o : is_str k s o = true ↔ get_string k o = Some s.
Proof.
  unfold is_str, get_string. destruct (obj_get k o) as [[]|]; simpl; try done.
  rewrite bool_decide_eq_true. naive_solver.
Qed.

Lemma is_str_set_ne k k' v s o : k ≠ k' → is_str k s (obj_set k' v o) = is_str k s o.
Proof. intros. unfold is_str. by rewrite obj_get_set_ne. Qed.

Lemma is_str_delete_ne k k' s o : k ≠ k' → is_str k s (obj_delete k' o) = is_str k s o.
Proof. intros. unfold is_str. by rewrite obj_get_delete_ne. Qed.

Lemma setDefaultMode_get m k : k ≠ "experimental" → obj_get k (setDefaultMode m) = obj_get k m.
Proof. intros. unfold setDefaultMode. by rewrite obj_get_set_ne. Qed.

Lemma setDefaultMode_server m tag : clientDNSServer (setDefaultMode m) tag = clientDNSServer m tag.
Proof. unfold clientDNSServer, get_obj. by rewrite setDefaultMode_get. Qed.

(** ** The rules of the template *)
Lemma splitPreamble_app l : (splitPreamble l).1 ++ (splitPreamble l).2 = l.
Proof. induction l as [|x l IH]; simpl; [done|]. case_match; simpl; [by rewrite IH|done]. Qed.

Lemma keepRule_cases item x :
  x ∈ keepRule item →
  rule_sat isDomesticDirectRule item = false ∧
  (x = item ∧ ruleOutbound item ≠ Some "proxy" ∨
   ruleOutbound item = Some "proxy" ∧ ruleOutbound x = Some "direct" ∧ ruleMode x = ruleMode item).
Proof.
  unfold keepRule. destruct (rule_sat isDomesticDirectRule item) eqn:Hd; [by intros ?%elem_of_nil|].
  destruct (rule_sat (λ rule, _) item) eqn:Hm; [by intros ?%elem_of_nil|]. split; [done|].
  destruct item as [| | | | | |rule]; try (apply list_elem_of_singleton in H as ->; by left).
  unfold ruleOutbound, ruleMode. simpl. destruct (is_str "outbound" "proxy" rule) eqn:Hp; apply list_elem_of_singleton in H as ->.
  - right. apply is_str_true in Hp. simpl. rewrite get_string_set_eq, get_string_set_ne by done. split_and!; [done..|].
    unfold get_string. by rewrite obj_get_delete_ne.
  - left. split; [done|]. rewrite <- is_str_true. congruence.
Qed.

(** ** Selectors and modes *)
Lemma proxySelector_has has : proxySelector has ≠ "" → has (proxySelector has) = true ∧ proxySelector has ∈ clientRegionModes.*2.
Proof.
  unfold proxySelector. destruct (list_find _ _) as [[i mode]|] eqn:Hf; [|done]. intros _.
  apply list_find_Some in Hf as (Hi & Hh & _). split; [done|]. apply list_elem_of_fmap. exists mode. split; [done|].
  by eapply list_elem_of_lookup_2.
Qed.

Lemma elem_of_modeRules has x :
  x ∈ modeRules has ↔
  (∃ mode, mode ∈ clientRegionModes ∧ has mode.2 = true ∧ x = JObj (obj_of [("clash_mode", JStr mode.1); ("outbound", JStr mode.2)])) ∨
  proxySelector has ≠ "" ∧ x = JObj (obj_of [("clash_mode", JStr clientModeAuto); ("outbound", JStr (proxySelector has))]).
Proof.
  unfold modeRules. rewrite elem_of_app, list_elem_of_bind. case_bool_decide as Hs; simpl.
  - rewrite elem_of_nil. split; [|by intros [(mode & ? & Hh & ->)|[]]; [right|]; [exists mode; rewrite Hh; split; [left|]|done]].
    intros [[]|(mode & Hx & Hmode)]. destruct (has mode.2) eqn:Hh; [|by apply elem_of_nil in Hx].
    apply list_elem_of_singleton in Hx as ->. left. eauto.
  - rewrite list_elem_of_singleton. split.
    + intros [->|(mode & Hx & Hmode)]; [by right|]. destruct (has mode.2) eqn:Hh; [|by apply elem_of_nil in Hx].
      apply list_elem_of_singleton in Hx as ->. left. eauto.
    + intros [(mode & ? & Hh & ->)|[_ ->]]; [right|by left]. exists mode. rewrite Hh. split; [left|done].
Qed.

(** ** The DNS section *)

(** The region servers and rules, one of each for every region that has a selector. *)
Lemma regionDNS_spec config proxyDNS has modes r :
  regionDNS config proxyDNS has modes = inr r →
  let regions := filter (λ mode, has mode.2 = true) modes in
  r.1 = map (λ mode, JObj (obj_set "detour" (JStr mode.2) (obj_set "tag" (JStr (regionDNSTag mode.2)) proxyDNS))) regions ∧
  r.2 = map (λ mode, JObj (obj_of [("clash_mode", JStr mode.1); ("server", JStr (regionDNSTag mode.2))])) regions ∧
  Forall (λ mode, clientDNSServer config (regionDNSTag mode.2) = None) regions.
Proof.
  revert r. induction modes as [|[name mtag] modes IH]; intros r; cbn [regionDNS]; [by intros [= <-]|].
  rewrite filter_cons. cbn [fst snd]. destruct (has mtag) eqn:Hh; cbn [negb]; [rewrite decide_True by done|rewrite decide_False by done; apply IH].
  destruct (clientDNSServer config _) eqn:Hs; [done|]. destruct (regionDNS _ _ _ modes) as [|r'] eqn:Hr; [done|].
  intros [= <-]. destruct (IH r' eq_refl) as (-> & -> & Hall). simpl. split_and!; [done..|]. by constructor.
Qed.

(** configureClientDNS touches the dns member and the default resolver only. *)
Lemma configureClientDNS_frame config route obs sel has config' route' out :
  configureClientDNS config route obs sel has = inr (config', route', out) →
  (∀ k, k ≠ "dns" → obj_get k config' = obj_get k config) ∧
  (∀ k, k ≠ "default_domain_resolver" → obj_get k route' = obj_get k route).
Proof.
  unfold configureClientDNS. intros Hc. repeat (case_match; simplify_eq/=); split; intros k Hk; by rewrite ?obj_get_set_ne.
Qed.

(** A template with the managed resolver. *)
Definition managed (config : list (string * json)) : Prop := is_Some (clientDNSServer config proxyDNSTag).

Lemma managed_inv config :
  managed config → ∃ proxyDNS dns servers,
    clientDNSServer config proxyDNSTag = Some proxyDNS ∧ get_obj "dns" config = Some dns ∧ get_arr "servers" dns = Some servers.
Proof.
  intros [o Ho]. pose proof Ho as Ho'. unfold clientDNSServer in Ho'. destruct (get_obj "dns" config) as [dns|] eqn:Hd; [|done].
  cbn in Ho'. destruct (get_arr "servers" dns) as [servers|] eqn:Hs; [|done]. eauto 10.
Qed.

(** What configureClientDNS leaves when the template has the managed resolver. *)
Lemma configureClientDNS_managed config route obs sel has config' route' out proxyDNS dns servers :
  clientDNSServer config proxyDNSTag = Some proxyDNS → get_obj "dns" config = Some dns → get_arr "servers" dns = Some servers →
  configureClientDNS config route obs sel has = inr (config', route', out) →
  let regions := filter (λ mode, has mode.2 = true) clientRegionModes in
  let result := map bootstrapOutbound obs in
  dnsServers config' = updateServer proxyDNSTag (setDetour sel) servers ++
    map (λ mode, JObj (obj_set "detour" (JStr mode.2) (obj_set "tag" (JStr (regionDNSTag mode.2)) (setDetour sel proxyDNS)))) regions ++
    (if existsb snd result && negb (bool_decide (is_Some (clientDNSServer config localDNSTag)))
     then [JObj (obj_of [("type", JStr "local"); ("tag", JStr localDNSTag)])] else []) ∧
  (∃ old, dnsRules config' = old ++ map (λ mode, JObj (obj_of [("clash_mode", JStr mode.1); ("server", JStr (regionDNSTag mode.2))])) regions ++
     [JObj (obj_of [("clash_mode", JStr clientModeAuto); ("server", JStr proxyDNSTag)])] ∧
     old = default [] (get_arr "rules" dns)) ∧
  (get_obj "dns" config' ≫= get_string "final") = Some proxyDNSTag ∧
  get_string "default_domain_resolver" route' = Some proxyDNSTag ∧
  default [] (as_arr out) = map fst result ∧
  Forall (λ mode, findServer (regionDNSTag mode.2) servers = None) regions.
Proof.
  intros Hp Hd Hs Hc regions result. unfold configureClientDNS in Hc. rewrite Hp, Hd in Hc. cbn [mbind option_bind] in Hc. rewrite Hs in Hc.
  destruct (match obj_get "rules" dns with Some (JArr l) => _ | _ => _ end) as [rules|] eqn:Hrules; [|done].
  destruct (regionDNS _ _ _ _) as [|r] eqn:Hr; [done|]. simplify_eq. apply regionDNS_spec in Hr as (Hr1 & Hr2 & Hr3).
  unfold clientDNSServer in Hr3. rewrite Hd in Hr3. cbn [mbind option_bind] in Hr3. rewrite Hs in Hr3.
  unfold dnsServers, dnsRules. autorewrite with go. simpl.
  unfold get_arr at 1 2, get_string at 1. rewrite !obj_get_set_ne, !obj_get_set_eq, ?obj_get_set_ne, ?obj_get_set_eq by done. simpl.
  rewrite nil_slice_list. rewrite Hr1, Hr2. split_and!; try done.
  - fold result. rewrite app_assoc. destruct (_ && _); [done|]. by rewrite app_nil_r.
  - exists rules. split; [done|]. unfold get_arr. destruct (obj_get "rules" dns) as [[]|]; by simplify_eq.
Qed.

Lemma objTags_elem t l : t ∈ objTags l ↔ ∃ o, JObj o ∈ l ∧ get_string "tag" o = Some t.
Proof.
  unfold objTags. rewrite list_elem_of_omap. split.
  - intros ([| | | | | |o] & Hx & Ht); try done. eauto.
  - intros (o & Ho & Ht). exists (JObj o). eauto.
Qed.

Lemma findServer_app tag l l' :
  findServer tag (l ++ l') = match findServer tag l with Some s => Some s | None => findServer tag l' end.
Proof. induction l as [|[| | | | | |o] l IH]; simpl; try done. by destruct (is_str "tag" tag o). Qed.

Lemma findServer_tags tag l : is_Some (findServer tag l) ↔ tag ∈ objTags l.
Proof.
  rewrite objTags_elem. induction l as [|x l IH]; simpl.
  - split; [by intros [? ?]|]. by intros (? & ?%elem_of_nil & _).
  - destruct x as [| | | | | |o]; try (rewrite IH; split; intros (o' & Ho & Ht); exists o'; set_solver).
    destruct (is_str "tag" tag o) eqn:Ht.
    + split; [|eauto]. intros _. exists o. apply is_str_true in Ht. set_solver.
    + rewrite IH. split; intros (o' & Ho & Ht'); exists o'; [set_solver|]. split; [|done].
      apply elem_of_cons in Ho as [[= ->]|]; [|done]. by rewrite (proj2 (is_str_true _ _ _) Ht') in Ht.
Qed.

Lemma setDetour_tag sel tag o : is_str "tag" tag (setDetour sel o) = is_str "tag" tag o.
Proof. unfold setDetour. case_match; [by rewrite is_str_set_ne|by rewrite is_str_delete_ne]. Qed.

Lemma setDetour_detour sel o : get_string "detour" (setDetour sel o) = if sel ==? "" then None else Some sel.
Proof.
  unfold setDetour. case_bool_decide; simpl; [|apply get_string_set_eq]. unfold get_string. by rewrite obj_get_delete_eq.
Qed.

Lemma findServer_update_eq sel tag l : findServer tag (updateServer tag (setDetour sel) l) = setDetour sel <$> findServer tag l.
Proof.
  induction l as [|[| | | | | |o] l IH]; simpl; try done.
  destruct (is_str "tag" tag o) eqn:Ht; simpl; rewrite ?setDetour_tag, ?Ht; done.
Qed.

Lemma objTags_update sel tag l : objTags (updateServer tag (setDetour sel) l) = objTags l.
Proof.
  unfold objTags. induction l as [|[| | | | | |o] l IH]; try done. cbn [updateServer]. destruct (is_str "tag" tag o).
  - cbn [omap list_omap as_obj mbind option_bind]. assert (get_string "tag" (setDetour sel o) = get_string "tag" o) as ->; [|done].
    unfold setDetour, get_string. case_match; [by rewrite obj_get_set_ne|by rewrite obj_get_delete_ne].
  - cbn [omap list_omap as_obj mbind option_bind]. destruct (get_string "tag" o); [f_equal|]; exact IH.
Qed.

Lemma findServer_update_some sel tag tag' l :
  is_Some (findServer tag' (updateServer tag (setDetour sel) l)) ↔ is_Some (findServer tag' l).
Proof. by rewrite !findServer_tags, objTags_update. Qed.

Lemma findServer_update_ne sel tag tag' l : findServer tag' l = None → findServer tag' (updateServer tag (setDetour sel) l) = None.
Proof. rewrite !eq_None_not_Some. by rewrite findServer_update_some. Qed.

(** ** The merged configuration *)
Section merged.
Context `{MapRange, GoStd, LabelSelectors}.

(** The parsed and normalised template. *)
Definition templateMap (templateJSON : string) : list (string * json) :=
  normalizeDeprecatedClientConfig (default [] (default None (json_Unmarshal_map templateJSON))).

Definition templateRoute (templateJSON : string) : list (string * json) := default [] (get_obj "route" (templateMap templateJSON)).
Definition templateRules (templateJSON : string) : list json := default [] (get_arr "rules" (templateRoute templateJSON)).
Definition templateRuleSets (templateJSON : string) : list string := objTags (default [] (get_arr "rule_set" (templateRoute templateJSON))).

(** The tags of the generated outbounds. *)
Definition hasTag (obs : list json) (tag : string) : bool := slices_Contains (objTags obs) tag.

(** The route section before configureClientDNS. *)
Definition mergedRoute (t : string) (obs policyRules : list json) : list (string * json) :=
  let route := obj_set "rules" (nil_slice (mergeRules (templateMap t) (templateRules t) policyRules (hasTag obs))) (templateRoute t) in
  if proxySelector (hasTag obs) !=? "" then obj_set "final" (JStr (proxySelector (hasTag obs))) route else route.

Lemma mergedConfig_inv t obs input m :
  mergedConfig t obs input = inr m → ∃ policyRules targets config route out,
    buildClientPolicies input = inr (policyRules, targets) ∧
    is_Some (get_obj "route" (templateMap t)) ∧
    Forall (λ p, checkRuleSets input (templateRuleSets t) p = None) (cc_EgressPolicies input) ∧
    configureClientDNS (setDefaultMode (templateMap t)) (mergedRoute t obs policyRules) obs (proxySelector (hasTag obs)) (hasTag obs)
      = inr (config, route, out) ∧
    m = obj_set "outbounds" out (obj_set "route" (JObj route) config).
Proof.
  unfold mergedConfig. destruct (buildClientPolicies input) as [|[policyRules targets]] eqn:Hpol; [done|].
  destruct (json_Unmarshal_map t) as [doc|] eqn:Ht; [|done]. cbv zeta.
  assert (templateMap t = normalizeDeprecatedClientConfig (default [] doc)) as <- by (unfold templateMap; by rewrite Ht).
  destruct (get_obj "route" (templateMap t)) as [route|] eqn:Hroute; [|done].
  assert (templateRoute t = route) as <- by (unfold templateRoute; by rewrite Hroute).
  case_match; [done|]. fold (templateRules t) (templateRuleSets t).
  destruct (first_error _ _) eqn:Hchk; [done|]. apply first_error_None in Hchk.
  change (λ tag, slices_Contains (objTags obs) tag) with (hasTag obs). fold (mergedRoute t obs policyRules).
  destruct (configureClientDNS _ _ _ _ _) as [|[[config route'] out]] eqn:Hdns; [done|]. intros [= <-].
  exists policyRules, targets, config, route', out. by split_and!.
Qed.

Lemma merged_rules t obs input m :
  mergedConfig t obs input = inr m → ∃ policyRules targets,
    buildClientPolicies input = inr (policyRules, targets) ∧
    clientRules m = mergeRules (templateMap t) (templateRules t) policyRules (hasTag obs).
Proof.
  intros (policyRules & targets & config & route & out & Hpol & _ & _ & Hdns & ->)%mergedConfig_inv.
  exists policyRules, targets. split; [done|]. apply configureClientDNS_frame in Hdns as [_ Hroute].
  unfold clientRules. rewrite get_obj_set_ne, get_obj_set_eq by done. simpl. unfold get_arr. rewrite Hroute by done.
  unfold mergedRoute. case_match; rewrite ?obj_get_set_ne, obj_get_set_eq by done; apply nil_slice_list.
Qed.
End merged.

(** ** The outbounds *)
Lemma bootstrap_get ob k :
  k ≠ "domain_resolver" → as_obj (bootstrapOutbound ob).1 ≫= obj_get k = as_obj ob ≫= obj_get k.
Proof.
  intros Hk. destruct ob as [| | | | | |o]; try done. unfold bootstrapOutbound. repeat case_match; simpl; by rewrite ?obj_get_set_ne.
Qed.

Lemma bootstrap_tag ob : as_obj (bootstrapOutbound ob).1 ≫= get_string "tag" = as_obj ob ≫= get_string "tag".
Proof.
  assert (∀ j, as_obj j ≫= get_string "tag" = (as_obj j ≫= obj_get "tag") ≫= as_str) as Hget by (by intros []).
  by rewrite !Hget, bootstrap_get.
Qed.

Lemma objTags_bootstrap l : objTags (map fst (map bootstrapOutbound l)) = objTags l.
Proof.
  unfold objTags. induction l as [|x l IH]; [done|].
  change (map fst (map bootstrapOutbound (x :: l))) with ((bootstrapOutbound x).1 :: map fst (map bootstrapOutbound l)).
  cbn [omap list_omap]. rewrite bootstrap_tag. destruct (_ ≫= get_string "tag"); [f_equal|]; exact IH.
Qed.

Lemma bootstrapOutbound_resolver o :
  (bootstrapOutbound (JObj o)).2 = true →
  (bootstrapOutbound (JObj o)).1 = JObj (obj_set "domain_resolver" (JStr localDNSTag) o) ∧
  netip_ParseAddr (get_str "server" o) = None.
Proof. unfold bootstrapOutbound. by repeat case_match. Qed.

(** An outbound left alone needs no resolver or has one. *)
Lemma bootstrapOutbound_kept o :
  (bootstrapOutbound (JObj o)).2 = false → get_str "server" o ≠ "" → netip_ParseAddr (get_str "server" o) = None →
  (bootstrapOutbound (JObj o)).1 = JObj o ∧ ∃ r, obj_get "domain_resolver" o = Some r ∧ r ≠ JNull.
Proof.
  unfold bootstrapOutbound. intros Hb Hs Ha. rewrite bool_decide_eq_false_2 in * by done. rewrite Ha in *. simpl in *.
  destruct (obj_get "domain_resolver" o) as [[]|]; simpl in *; try done; eauto.
Qed.

(** ** The policy rules *)
Section policies.
Context `{MapRange, GoStd, LabelSelectors}.

Lemma policyMatchRule_get m k :
  k ∉ ["domain"; "domain_suffix"; "domain_regex"; "ip_cidr"; "rule_set"] → obj_get k (policyMatchRule m) = None.
Proof.
  intros Hk. rewrite !not_elem_of_cons in Hk. destruct_and! Hk. unfold policyMatchRule.
  repeat case_bool_decide; rewrite ?obj_get_set_ne; done.
Qed.

(** A policy rule either rejects or routes to the shared selector of a target in the ai group. *)
Definition policyRuleOk (input : ClientConfigInput) (item : json) : Prop :=
  ∃ p, p ∈ cc_EgressPolicies input ∧
    (item = JObj (obj_set "action" (JStr "reject") (policyMatchRule (ps_Match (policy_spec p)))) ∨
     item = JObj (obj_set "outbound" (JStr "ai") (policyMatchRule (ps_Match (policy_spec p)))) ∧
     ps_Action (policy_spec p) = EgressPolicyActionRoute ∧
     (resolveClientPolicyEgress input p).2 = 1 ∧
     targetHasClientGroup input (resolveClientPolicyEgress input p).1 "ai" = true).

Lemma clientPolicyStep_rules input st p st' :
  p ∈ cc_EgressPolicies input → clientPolicyStep input st p = inr st' →
  Forall (policyRuleOk input) st.1 → Forall (policyRuleOk input) st'.1.
Proof.
  intros Hp Hst Hok. unfold clientPolicyStep in Hst. destruct (resolveClientPolicyEgress input p) as [egress count] eqn:Hr.
  do 3 (case_match; [done|]). case_match; [done|]. case_match eqn:Hact; [done|].
  case_bool_decide as Hrej; simplify_eq/=.
  { apply Forall_app_2, Forall_singleton; [done|]. exists p. eauto. }
  destruct (count =? 0); simplify_eq/=; [done|]. destruct (count =? 1) eqn:Hone; simplify_eq/=.
  apply Forall_app_2, Forall_singleton; [done|]. exists p. split; [done|]. rewrite Hr. simpl.
  destruct (targetHasClientGroup input egress "ai"); [right|by left]. apply Nat.eqb_eq in Hone. split_and!; [done| |done..].
  rewrite andb_true_r in Hact. by bool_prop.
Qed.

Lemma buildClientPolicies_rules input rules targets :
  buildClientPolicies input = inr (rules, targets) → Forall (policyRuleOk input) rules.
Proof.
  unfold buildClientPolicies. set (l := sort_by policy_less (cc_EgressPolicies input)).
  assert (∀ p, p ∈ l → p ∈ cc_EgressPolicies input) as Hl by (intros p; apply elem_of_sort_by).
  assert (∀ st r, clientPolicyLoop input st l = inr r → Forall (policyRuleOk input) st.1 → Forall (policyRuleOk input) r.1) as Hloop.
  { induction l as [|p l IH]; intros st r; simpl; [by intros [= <-]|].
    destruct (clientPolicyStep input st p) as [|st'] eqn:Hst; [done|]. intros Hr Hok.
    eapply IH; [set_solver|done|]. eapply clientPolicyStep_rules; [|done..]. set_solver. }
  intros Hb. by apply (Hloop _ _ Hb).
Qed.

Lemma policyRuleOk_outbound input item tag : policyRuleOk input item → ruleOutbound item = Some tag → tag = "ai".
Proof.
  intros (p & _ & [->|[-> _]]) Ho; unfold ruleOutbound in Ho; simpl in Ho.
  - rewrite get_string_set_ne in Ho by done. unfold get_string in Ho. rewrite policyMatchRule_get in Ho; [done|].
    by apply (bool_decide_unpack (_ ∉ _)).
  - rewrite get_string_set_eq in Ho. congruence.
Qed.
End policies.

(** ** The outbounds of the result *)
Section outbounds.
Context `{MapRange, GoStd, LabelSelectors}.

Lemma merged_outbounds t obs input m :
  mergedConfig t obs input = inr m →
  clientOutbounds m = if clientDNSServer (templateMap t) proxyDNSTag is Some _ then map fst (map bootstrapOutbound obs) else obs.
Proof.
  intros (policyRules & targets & config & route & out & _ & _ & _ & Hdns & ->)%mergedConfig_inv.
  unfold clientOutbounds, get_arr. rewrite obj_get_set_eq. cbn [mbind option_bind].
  rewrite <- (setDefaultMode_server (templateMap t)). destruct (clientDNSServer _ proxyDNSTag) as [proxyDNS|] eqn:Hp.
  - destruct (managed_inv (setDefaultMode (templateMap t))) as (p' & dns & servers & Hp' & Hd & Hs); [by eexists|].
    by eapply configureClientDNS_managed in Hdns as (_ & _ & _ & _ & -> & _).
  - unfold configureClientDNS in Hdns. rewrite Hp in Hdns. by injection Hdns as <- <- <-.
Qed.

Lemma merged_tags t obs input m : mergedConfig t obs input = inr m → objTags (clientOutbounds m) = objTags obs.
Proof. intros ->%merged_outbounds. case_match; [apply objTags_bootstrap|done]. Qed.

Lemma direct_generated input obs : BuildClientConfig input = inr obs → "direct" ∈ objTags obs.
Proof.
  unfold BuildClientConfig. destruct (buildClientPolicies input) as [|pol]; [done|]. destruct (foldl _ _ _) as [po groups].
  intros [= <-]. apply objTags_elem. eexists. split; [rewrite !elem_of_app; right; right; by apply list_elem_of_singleton|done].
Qed.
End outbounds.

(** ** The merge of a template with the managed resolver *)
Section managed.
Context `{MapRange, GoStd, LabelSelectors}.

(** The DNS servers and rules of the result, from those of the template. *)
Lemma merged_dns t obs input m :
  mergedConfig t obs input = inr m → managed (templateMap t) →
  let sel := proxySelector (hasTag obs) in
  let regions := filter (λ mode, hasTag obs mode.2 = true) clientRegionModes in
  ∃ proxyDNS servers,
    findServer proxyDNSTag servers = Some proxyDNS ∧
    Forall (λ mode, findServer (regionDNSTag mode.2) servers = None) regions ∧
    dnsServers m = updateServer proxyDNSTag (setDetour sel) servers ++
      map (λ mode, JObj (obj_set "detour" (JStr mode.2) (obj_set "tag" (JStr (regionDNSTag mode.2)) (setDetour sel proxyDNS)))) regions ++
      (if existsb snd (map bootstrapOutbound obs) && negb (bool_decide (is_Some (findServer localDNSTag servers)))
       then [JObj (obj_of [("type", JStr "local"); ("tag", JStr localDNSTag)])] else []) ∧
    (∃ old, dnsRules m = old ++ map (λ mode, JObj (obj_of [("clash_mode", JStr mode.1); ("server", JStr (regionDNSTag mode.2))])) regions ++
       [JObj (obj_of [("clash_mode", JStr clientModeAuto); ("server", JStr proxyDNSTag)])]) ∧
    get_obj "dns" m ≫= get_string "final" = Some proxyDNSTag ∧
    get_obj "route" m ≫= get_string "default_domain_resolver" = Some proxyDNSTag ∧
    (sel ≠ "" → get_obj "route" m ≫= get_string "final" = Some sel).
Proof.
  intros (policyRules & targets & config & route & out & _ & _ & _ & Hdns & ->)%mergedConfig_inv Hman sel regions.
  assert (managed (setDefaultMode (templateMap t))) as Hman' by (unfold managed; by rewrite setDefaultMode_server).
  destruct (managed_inv _ Hman') as (proxyDNS & dns & servers & Hp & Hd & Hs).
  pose proof (configureClientDNS_frame _ _ _ _ _ _ _ _ Hdns) as [_ Hroute].
  destruct (configureClientDNS_managed _ _ _ _ _ _ _ _ _ _ _ Hp Hd Hs Hdns) as (Hserv & (old & Hrules & _) & Hfin & Hres & _ & Hnone).
  assert (∀ tag, clientDNSServer (setDefaultMode (templateMap t)) tag = findServer tag servers) as Hfind.
  { intros tag. unfold clientDNSServer. rewrite Hd. cbn [mbind option_bind]. by rewrite Hs. }
  rewrite Hfind in *. exists proxyDNS, servers. unfold dnsServers, dnsRules. rewrite !(get_obj_set_ne "dns") by done.
  rewrite !(get_obj_set_ne "route" "outbounds"), get_obj_set_eq by done. split_and!; eauto.
  intros Hsel. cbn [mbind option_bind]. unfold get_string. rewrite Hroute by done. unfold mergedRoute. fold sel.
  rewrite bool_decide_eq_false_2 by done. simpl. by rewrite obj_get_set_eq.
Qed.

Lemma region_server_found obs sel proxyDNS mode extra :
  mode ∈ clientRegionModes → hasTag obs mode.2 = true →
  ∃ s, findServer (regionDNSTag mode.2)
         (map (λ mode, JObj (obj_set "detour" (JStr mode.2) (obj_set "tag" (JStr (regionDNSTag mode.2)) (setDetour sel proxyDNS))))
            (filter (λ mode, hasTag obs mode.2 = true) clientRegionModes) ++ extra) = Some s ∧
       get_string "detour" s = Some mode.2.
Proof.
  intros Hmode Hh. assert (mode ∈ filter (λ mode, hasTag obs mode.2 = true) clientRegionModes) as Hin by (by apply list_elem_of_filter).
  clear Hmode Hh. induction (filter _ _) as [|mode' l IH]; [by apply elem_of_nil in Hin|]. simpl.
  rewrite is_str_set_ne by done. destruct (is_str "tag" (regionDNSTag mode.2) _) eqn:Ht.
  - eexists. split; [done|]. rewrite get_string_set_eq. apply is_str_true in Ht. rewrite get_string_set_eq in Ht.
    injection Ht as Ht. f_equal. unfold regionDNSTag in Ht. by simplify_eq/=.
  - apply IH. apply elem_of_cons in Hin as [->|]; [|done].
    rewrite (proj2 (is_str_true _ _ _) (get_string_set_eq _ _ _)) in Ht. done.
Qed.
End managed.

(** ** What the merge leaves alone *)
Lemma update_obj_ne k k' f o : k ≠ k' → obj_get k (update_obj k' f o) = obj_get k o.
Proof. intros. unfold update_obj. repeat case_match; by rewrite ?obj_get_set_ne. Qed.

Lemma update_obj_eq k f o : get_obj k (update_obj k f o) = f <$> get_obj k o.
Proof. unfold update_obj, get_obj. destruct (obj_get k o) as [[]|] eqn:Hk; simpl; rewrite ?obj_get_set_eq, ?Hk; done. Qed.

Lemma get_obj_update_ne k k' f o : k ≠ k' → get_obj k (update_obj k' f o) = get_obj k o.
Proof. intros. unfold get_obj. by rewrite update_obj_ne. Qed.

Lemma normalize_get m k : k ≠ "dns" → k ≠ "route" → obj_get k (normalizeDeprecatedClientConfig m) = obj_get k m.
Proof. intros. unfold normalizeDeprecatedClientConfig. by rewrite !update_obj_ne. Qed.

Lemma normalize_dns m : get_obj "dns" (normalizeDeprecatedClientConfig m) = obj_delete "independent_cache" <$> get_obj "dns" m.
Proof. unfold normalizeDeprecatedClientConfig. by rewrite get_obj_update_ne, update_obj_eq. Qed.

Lemma normalize_route m k : k ≠ "rule_set" →
  get_obj "route" (normalizeDeprecatedClientConfig m) ≫= obj_get k = get_obj "route" m ≫= obj_get k.
Proof.
  intros Hk. unfold normalizeDeprecatedClientConfig. rewrite update_obj_eq, get_obj_update_ne by done.
  destruct (get_obj "route" m) as [route|]; [|done]. simpl. destruct (obj_get "rule_set" route) as [[]|]; try done. by rewrite obj_get_set_ne.
Qed.

Lemma mergedRoute_get t obs rules k :
  k ∉ ["rules"; "final"] → obj_get k (mergedRoute t obs rules) = obj_get k (templateRoute t).
Proof. intros Hk. rewrite !not_elem_of_cons in Hk. destruct_and! Hk. unfold mergedRoute. case_match; by rewrite ?obj_get_set_ne. Qed.
