(* ===== verification/TemplateProps.v ===== *)
(** * TemplateProps: what the template merge guarantees

    Theorems on MergeClientConfig for every template the administrator may
    provide: which outbounds its rules name, how the DNS section is kept in step
    with the selectors, what of the template is preserved, and when the merge of
    the built-in template fails. *)

From S2P Require Import Prelude GoStrings GoNet Json JsonParse JsonFacts Api Engine Samples ClientConfig SampleClient Template TemplateFacts.

(** ** The route section *)

(** C13. No dangling regional rule: in a merged configuration, every rule that
    names an outbound names a generated one, unless it is a policy rule (which
    names the shared selector ai) or a rule that the template itself contains;
    and no rule after the leading sniff/hijack-dns rules keeps the retired proxy
    tag. *)
Theorem merged_rules_closed `{MapRange, GoStd, LabelSelectors} t input obs m item tag :
  BuildClientConfig input = inr obs → mergedConfig t obs input = inr m →
  item ∈ clientRules m → ruleOutbound item = Some tag →
  tag ∈ objTags (clientOutbounds m) ∨ (tag = "ai" ∧ policyRuleOk input item) ∨
  (item ∈ templateRules t ∧ (tag = "proxy" → item ∈ (splitPreamble (templateRules t)).1)).
Proof.
  intros Hb Hm Hitem Ho. rewrite (merged_tags _ _ _ _ Hm). pose proof (direct_generated _ _ Hb) as Hdirect.
  apply merged_rules in Hm as (rules & targets & Hpol%buildClientPolicies_rules & Hrules). rewrite Hrules in Hitem.
  unfold mergeRules in Hitem. pose proof (splitPreamble_app (templateRules t)) as Happ.
  destruct (splitPreamble (templateRules t)) as [preamble rest]. simpl in Happ.
  rewrite !elem_of_app in Hitem. destruct_or! Hitem.
  - right; right. rewrite <- Happ, elem_of_app. auto.
  - right; left. eapply Forall_forall in Hpol; [|done]. split; [by eapply policyRuleOk_outbound|done].
  - case_match; [|by apply elem_of_nil in Hitem]. by apply list_elem_of_singleton in Hitem as ->.
  - apply list_elem_of_filter in Hitem as [Hdom _]. destruct item as [| | | | | |rule]; try done. left.
    unfold rule_sat, isDomesticDirectRule in Hdom. destruct (is_str "outbound" "direct" rule) eqn:Hd; [|done].
    apply is_str_true in Hd. unfold ruleOutbound in Ho. simpl in Ho. congruence.
  - left. apply elem_of_modeRules in Hitem as [(mode & _ & Hh & ->)|[Hs ->]].
    + injection Ho as <-. by apply slices_Contains_true.
    + injection Ho as <-. by apply slices_Contains_true, proxySelector_has.
  - apply list_elem_of_bind in Hitem as (item' & Hx & Hitem'). apply keepRule_cases in Hx as [_ [[-> Hne]|(_ & Hd & _)]].
    + right; right. rewrite <- Happ, elem_of_app. split; [auto|]. congruence.
    + left. congruence.
Qed.

(** ** The DNS section *)

(** C27. Routing and DNS follow the same selector: with the managed resolver (a
    server tagged proxy-dns) in the template, every region that has a selector gets a Clash-mode rule in the
    route section and one in the DNS section, and the DNS server of that mode
    dials through the same selector; in Auto mode the preferred selector is that
    of the Auto rule, of route.final and of the managed server's detour, and
    without any regional selector the managed server keeps no detour. *)
Theorem modes_agree `{MapRange, GoStd, LabelSelectors} t input obs m :
  mergedConfig t obs input = inr m → managed (templateMap t) →
  (∀ mode, mode ∈ clientRegionModes → mode.2 ∈ objTags (clientOutbounds m) →
     JObj (obj_of [("clash_mode", JStr mode.1); ("outbound", JStr mode.2)]) ∈ clientRules m ∧
     JObj (obj_of [("clash_mode", JStr mode.1); ("server", JStr (regionDNSTag mode.2))]) ∈ dnsRules m ∧
     ∃ s, findServer (regionDNSTag mode.2) (dnsServers m) = Some s ∧ get_string "detour" s = Some mode.2) ∧
  (let sel := proxySelector (hasTag (clientOutbounds m)) in
   (sel ≠ "" → JObj (obj_of [("clash_mode", JStr clientModeAuto); ("outbound", JStr sel)]) ∈ clientRules m ∧
               get_obj "route" m ≫= get_string "final" = Some sel) ∧
   JObj (obj_of [("clash_mode", JStr clientModeAuto); ("server", JStr proxyDNSTag)]) ∈ dnsRules m ∧
   ∃ s, findServer proxyDNSTag (dnsServers m) = Some s ∧ get_string "detour" s = if sel ==? "" then None else Some sel).
Proof.
  intros Hm Hman. pose proof (merged_tags _ _ _ _ Hm) as Htags.
  assert (hasTag (clientOutbounds m) = hasTag obs) as -> by (unfold hasTag; by rewrite Htags). rewrite Htags.
  assert (∀ x, x ∈ modeRules (hasTag obs) → x ∈ clientRules m) as Hmr.
  { intros x Hx. destruct (merged_rules _ _ _ _ Hm) as (rules & targets & _ & ->). unfold mergeRules.
    destruct (splitPreamble _). rewrite !elem_of_app. auto 10. }
  destruct (merged_dns _ _ _ _ Hm Hman) as (proxyDNS & servers & Hp & Hnone & Hserv & (old & Hrules) & _ & _ & Hfin).
  split.
  - intros mode Hmode Htag. assert (hasTag obs mode.2 = true) as Hh by (by apply slices_Contains_true).
    split_and!; [apply Hmr, elem_of_modeRules; eauto| |].
    + rewrite Hrules, !elem_of_app. right. left. apply list_elem_of_fmap. exists mode. split; [done|]. by apply list_elem_of_filter.
    + rewrite Hserv, findServer_app, findServer_update_ne; [by apply region_server_found|].
      eapply Forall_forall in Hnone; [done|]. by apply list_elem_of_filter.
  - cbv zeta. split_and!.
    + intros Hsel. split; [apply Hmr, elem_of_modeRules; eauto|by apply Hfin].
    + rewrite Hrules, !elem_of_app. right. right. by apply list_elem_of_singleton.
    + rewrite Hserv, findServer_app, findServer_update_eq, Hp. simpl. eexists. split; [done|]. apply setDetour_detour.
Qed.

(** Proxy endpoints are resolved outside the proxy: with the managed
    resolver, every outbound of the merged configuration whose server is a host
    name has a resolver of its own, and one that the merge added is the local
    DNS server, which the configuration then defines. *)
Theorem endpoints_bootstrap `{MapRange, GoStd, LabelSelectors} t input obs m o :
  mergedConfig t obs input = inr m → managed (templateMap t) →
  JObj o ∈ clientOutbounds m → get_str "server" o ≠ "" → netip_ParseAddr (get_str "server" o) = None →
  (∃ r, obj_get "domain_resolver" o = Some r ∧ r ≠ JNull) ∧
  (JObj o ∉ obs → obj_get "domain_resolver" o = Some (JStr localDNSTag) ∧ localDNSTag ∈ objTags (dnsServers m)).
Proof.
  intros Hm Hman Ho Hserver Haddr. pose proof (merged_outbounds _ _ _ _ Hm) as Hout. destruct Hman as [pd Hpd]. rewrite Hpd in Hout.
  destruct (merged_dns _ _ _ _ Hm) as (proxyDNS & servers & _ & _ & Hserv & _); [by eexists|].
  rewrite Hout, map_map in Ho. apply list_elem_of_fmap in Ho as (ob & Ho & Hob).
  destruct ob as [| | | | | |o0]; try done. destruct (bootstrapOutbound (JObj o0)).2 eqn:Hneeds.
  - destruct (bootstrapOutbound_resolver _ Hneeds) as [Hb _]. rewrite Hb in Ho. injection Ho as ->.
    rewrite obj_get_set_eq. split; [eauto|]. intros _. split; [done|]. apply findServer_tags.
    assert (existsb snd (map bootstrapOutbound obs) = true) as Hex.
    { apply existsb_exists. exists (bootstrapOutbound (JObj o0)). split; [|done]. by apply in_map, list_elem_of_In. }
    rewrite Hserv, Hex, !findServer_app.
    destruct (findServer localDNSTag (updateServer _ _ _)) eqn:Hl; [by eexists|].
    rewrite bool_decide_eq_false_2 by (rewrite <- findServer_update_some, Hl; by intros [? ?]).
    destruct (findServer localDNSTag (map _ _)); by eexists.
  - assert (o0 = o) as -> by (unfold bootstrapOutbound in Ho, Hneeds; by repeat (case_match; simplify_eq/=)).
    by destruct (bootstrapOutbound_kept _ Hneeds Hserver Haddr) as [_ Hr].
Qed.

(** ** What is preserved *)

(** C17. The merge changes nothing else: members of the template other than dns,
    route, experimental and outbounds are as the administrator wrote them; so
    are those of route other than rules, final, default_domain_resolver and
    rule_set; every generated outbound is kept, in order, with all its members
    but domain_resolver; and a template without the managed resolver keeps its
    DNS section, less the removed independent_cache option. *)
Theorem merge_preserves `{MapRange, GoStd, LabelSelectors} t input obs m doc :
  json_Unmarshal_map t = Some (Some doc) → mergedConfig t obs input = inr m →
  (∀ k, k ∉ ["dns"; "route"; "experimental"; "outbounds"] → obj_get k m = obj_get k doc) ∧
  (∀ k, k ∉ ["rules"; "final"; "default_domain_resolver"; "rule_set"] →
     get_obj "route" m ≫= obj_get k = get_obj "route" doc ≫= obj_get k) ∧
  Forall2 (λ ob ob', ∀ k, k ≠ "domain_resolver" → as_obj ob' ≫= obj_get k = as_obj ob ≫= obj_get k) obs (clientOutbounds m) ∧
  (clientDNSServer doc proxyDNSTag = None → get_obj "dns" m = obj_delete "independent_cache" <$> get_obj "dns" doc).
Proof.
  intros Ht Hm. assert (templateMap t = normalizeDeprecatedClientConfig doc) as Hmap by (unfold templateMap; by rewrite Ht).
  pose proof (merged_outbounds _ _ _ _ Hm) as Hout.
  apply mergedConfig_inv in Hm as (rules & targets & config & route & out & _ & [r0 Hr0] & _ & Hdns & Heq).
  pose proof (configureClientDNS_frame _ _ _ _ _ _ _ _ Hdns) as [Hcfg Hroute]. split_and!.
  - intros k Hk. rewrite !not_elem_of_cons in Hk. destruct_and! Hk. subst m.
    by rewrite !obj_get_set_ne, Hcfg, setDefaultMode_get, Hmap, normalize_get.
  - intros k Hk. rewrite !not_elem_of_cons in Hk. destruct_and! Hk. subst m.
    rewrite get_obj_set_ne, get_obj_set_eq by done. simpl. rewrite Hroute, mergedRoute_get by (rewrite ?not_elem_of_cons, ?elem_of_nil; tauto).
    rewrite <- normalize_route, <- Hmap by done. unfold templateRoute. by rewrite Hr0.
  - rewrite Hout. clear. case_match; [rewrite map_map|]; induction obs; constructor; auto using bootstrap_get.
  - intros Hnone. subst m. rewrite !get_obj_set_ne by done. rewrite <- normalize_dns, <- Hmap.
    unfold configureClientDNS in Hdns. rewrite setDefaultMode_server in Hdns.
    destruct (clientDNSServer (templateMap t) proxyDNSTag) eqn:Hs.
    + exfalso. rewrite Hmap in Hs. unfold clientDNSServer in *. rewrite normalize_dns in Hs.
      destruct (get_obj "dns" doc) as [dns|]; [|done]. simpl in *. unfold get_arr in *. rewrite obj_get_delete_ne in Hs by done.
      by rewrite Hnone in Hs.
    + injection Hdns as <- <- <-. unfold get_obj. by rewrite setDefaultMode_get.
Qed.

(** ** The built-in template *)

(** The built-in template, parsed. *)
Definition defaultMap : list (string * json) := Eval vm_compute in templateMap DefaultTemplate.

Definition defaultRoute : list (string * json) := Eval vm_compute in default [] (get_obj "route" defaultMap).

Lemma default_Unmarshal : json_Unmarshal_map DefaultTemplate = Some (Some defaultMap).
Proof. vm_compute. reflexivity. Qed.

Lemma default_templateMap : templateMap DefaultTemplate = defaultMap.
Proof. vm_compute. reflexivity. Qed.

Lemma default_ruleSets : templateRuleSets DefaultTemplate = ["geosite-cn"; "category-ads-all"].
Proof. vm_compute. reflexivity. Qed.

Lemma regionDNS_free config proxyDNS has modes :
  Forall (λ mode, clientDNSServer config (regionDNSTag mode.2) = None) modes → ∃ r, regionDNS config proxyDNS has modes = inr r.
Proof.
  induction 1 as [|[name mtag] modes Hm _ [r IH]]; cbn [regionDNS]; [eauto|]. destruct (has mtag); cbn [negb]; [|eauto].
  simpl in Hm. rewrite Hm, IH. eauto.
Qed.

Lemma default_dns route obs sel has : ∃ r, configureClientDNS (setDefaultMode defaultMap) route obs sel has = inr r.
Proof.
  unfold configureClientDNS.
  destruct (clientDNSServer (setDefaultMode defaultMap) proxyDNSTag) as [pd|]; [|eauto].
  change (get_obj "dns" (setDefaultMode defaultMap)) with (get_obj "dns" defaultMap).
  destruct (get_obj "dns" defaultMap) as [dns|] eqn:Hd; [|eauto]. cbn [mbind option_bind].
  destruct (get_arr "servers" dns); [|eauto]. assert (∃ l, obj_get "rules" dns = Some (JArr l)) as [rules ->].
  { vm_compute in Hd. injection Hd as <-. eexists. reflexivity. }
  destruct (regionDNS_free (setDefaultMode defaultMap) (setDetour sel pd) has clientRegionModes) as [r ->]; [|eauto].
  repeat (constructor; [vm_compute; reflexivity|]). constructor.
Qed.

(** The built-in template never stands in the way: merging into it succeeds
    for exactly the inputs whose policies are valid and whose rule sets are the
    two that it defines, whatever outbounds were generated. *)
Theorem default_template_merges `{MapRange, GoStd, LabelSelectors} input obs :
  (∃ m, mergedConfig DefaultTemplate obs input = inr m) ↔
  (∃ pol, buildClientPolicies input = inr pol) ∧
  ∀ p, p ∈ cc_EgressPolicies input →
    ps_Action (policy_spec p) = EgressPolicyActionRoute ∧ (resolveClientPolicyEgress input p).2 = 0 ∨
    ∀ ref, ref ∈ pm_RuleSet (ps_Match (policy_spec p)) → ref ∈ ["geosite-cn"; "category-ads-all"].
Proof.
  assert (∀ p, checkRuleSets input ["geosite-cn"; "category-ads-all"] p = None ↔
    (ps_Action (policy_spec p) = EgressPolicyActionRoute ∧ (resolveClientPolicyEgress input p).2 = 0 ∨
     ∀ ref, ref ∈ pm_RuleSet (ps_Match (policy_spec p)) → ref ∈ ["geosite-cn"; "category-ads-all"])) as Hcheck.
  { intros p. unfold checkRuleSets. case_match eqn:Hskip.
    - apply andb_true_iff in Hskip as [Ha%bool_decide_eq_true_1 Hc%Nat.eqb_eq]. naive_solver.
    - rewrite first_error_None, Forall_forall. split.
      + intros Hall. right. intros ref Href%Hall. apply slices_Contains_true. by destruct (slices_Contains _ ref).
      + intros [[Ha Hc]|Hall] ref Href; [by rewrite Ha, Hc in Hskip|]. by rewrite (proj2 (slices_Contains_true _ _) (Hall _ Href)). }
  split.
  - intros [m (rules & targets & config & route & out & Hpol & _ & Hsets & _)%mergedConfig_inv]. split; [eauto|].
    intros p Hp. apply Hcheck. rewrite <- default_ruleSets. by eapply Forall_forall in Hsets.
  - intros [[[rules targets] Hpol] Hsets]. unfold mergedConfig. rewrite Hpol, default_Unmarshal. cbv zeta. simpl default.
    change (normalizeDeprecatedClientConfig defaultMap) with defaultMap.
    change (get_obj "route" defaultMap) with (Some defaultRoute). cbv iota beta.
    rewrite (bool_decide_eq_false_2 (get_arr _ _ = None)) by done. cbn [andb].
    change (objTags (default [] (get_arr "rule_set" defaultRoute))) with ["geosite-cn"; "category-ads-all"].
    assert (first_error (checkRuleSets input ["geosite-cn"; "category-ads-all"]) (cc_EgressPolicies input) = None) as ->.
    { apply first_error_None, Forall_forall. intros p Hp. by apply Hcheck, Hsets. }
    cbv beta iota. match goal with |- context [configureClientDNS _ ?r ?o ?s ?h] => destruct (default_dns r o s h) as [res ->] end.
    eauto.
Qed.

(** ** Termination *)

(** The only decoding error of the merge is that of the template text. *)
Lemma configureClientDNS_error config route obs sel has e :
  configureClientDNS config route obs sel has = inl e → e ≠ UnmarshalError.
Proof.
  assert (∀ pd modes, regionDNS config pd has modes = inl e → e ≠ UnmarshalError) as Hregion.
  { intros pd modes. induction modes as [|[name mtag] modes IH]; simpl; [done|]. destruct (has mtag); simpl; [|done].
    case_match; [by intros [= <-]|]. destruct (regionDNS config pd has modes); simpl; [|done]. intros [= ->]. auto. }
  unfold configureClientDNS. repeat case_match; intros Heq; simplify_eq; eauto.
Qed.

Lemma checkRuleSets_error `{MapRange, GoStd, LabelSelectors} input defined ps e :
  first_error (checkRuleSets input defined) ps = Some e → e ≠ UnmarshalError.
Proof.
  intros (p & _ & Hp)%first_error_Some. unfold checkRuleSets in Hp. case_match; [done|].
  apply first_error_Some in Hp as (ref & _ & Href). case_match; [done|]. by injection Href as <-.
Qed.

(** The outcome of a parse is an object, or null, and nothing follows it. *)
Definition decodesToMap (r : option (jtree * string)) : Prop :=
  ∃ tree rest, r = Some (tree, rest) ∧ skip_ws rest = "" ∧ (tree_any tree = Some JNull ∨ ∃ o, tree_any tree = Some (JObj o)).

Lemma json_Unmarshal_map_spec t r :
  parse_value (parse_fuel t) 0 t = Some r → (json_Unmarshal_map t = None ↔ ¬ decodesToMap r).
Proof.
  intros Hr. unfold json_Unmarshal_map, json_parse. rewrite Hr. unfold decodesToMap.
  destruct r as [[tree rest]|]; simpl; [|naive_solver]. case_bool_decide as Hrest; simpl; [|naive_solver].
  destruct (tree_any tree) as [j|] eqn:Hj; simpl; [|naive_solver]. destruct j; naive_solver.
Qed.

(** Every template text is decided: with two units of fuel per byte the
    parser always ends, more fuel never changes its verdict, and the merge reports
    a decoding error exactly when the policies are valid and the verdict is not a
    single object (or null) of float64-sized numbers. *)
Theorem template_parse_total `{MapRange, GoStd, LabelSelectors} t obs input :
  ∃ r, (∀ fuel, parse_fuel t ≤ fuel → parse_value fuel 0 t = Some r) ∧
    (MergeClientConfig t obs input = inl UnmarshalError ↔ (∃ pol, buildClientPolicies input = inr pol) ∧ ¬ decodesToMap r).
Proof.
  destruct (parse_value (parse_fuel t) 0 t) as [r|] eqn:Hr.
  2:{ exfalso. apply (proj1 (parse_total (parse_fuel t)) 0 t); [unfold parse_fuel; lia|done]. }
  exists r. split; [intros fuel Hf; by apply (parse_value_more _ _ _ _ _ Hf)|].
  rewrite <- (json_Unmarshal_map_spec t r Hr). unfold MergeClientConfig, mergedConfig.
  destruct (buildClientPolicies input) as [e|[rules targets]]; [naive_solver|].
  destruct (json_Unmarshal_map t) as [doc|]; [|naive_solver]. split; [|naive_solver]. cbv zeta.
  destruct (get_obj "route" _) as [route|]; [|done].
  destruct (bool_decide _ && _); [done|]. destruct (first_error _ _) as [e|] eqn:Hf; [apply checkRuleSets_error in Hf; simpl; congruence|].
  destruct (configureClientDNS _ _ _ _ _) as [e|] eqn:Hd; simpl; [apply configureClientDNS_error in Hd; congruence|done].
Qed.

(** ** Defects *)

(** C35. Rules behind the mode rules: whenever a regional selector exists, every
    rule of the template that is neither a leading sniff/hijack-dns rule nor a
    domestic direct rule comes after the generated Auto rule, which matches all
    traffic in the default mode; the reject rule for category-ads-all of the
    built-in template is one of them. *)
Theorem custom_rules_behind_auto `{MapRange, GoStd, LabelSelectors} t input obs m :
  mergedConfig t obs input = inr m → proxySelector (hasTag obs) ≠ "" →
  ∃ policyRules l1 l2,
    clientRules m = l1 ++ JObj (obj_of [("clash_mode", JStr clientModeAuto); ("outbound", JStr (proxySelector (hasTag obs)))]) :: l2 ∧
    (∀ item, item ∈ l1 → item ∈ (splitPreamble (templateRules t)).1 ∨ item ∈ policyRules ∨
                          item = JObj [("action", JStr "resolve")] ∨ rule_sat isDomesticDirectRule item = true) ∧
    Forall (policyRuleOk input) policyRules ∧
    ((splitPreamble (templateRules t)).2 ≫= keepRule) `suffix_of` l2.
Proof.
  intros Hm Hsel. apply merged_rules in Hm as (rules & targets & Hpol%buildClientPolicies_rules & ->).
  unfold mergeRules. destruct (splitPreamble (templateRules t)) as [preamble rest]. simpl.
  set (res := if clientDNSServer _ _ is Some _ then _ else _).
  set (dom := filter (λ item, rule_sat isDomesticDirectRule item = true) rest).
  unfold modeRules. rewrite bool_decide_eq_false_2 by done. simpl negb. cbv iota.
  exists rules, (preamble ++ rules ++ res ++ dom). eexists. split_and!.
  - rewrite <- !app_assoc. simpl. done.
  - intros item. rewrite !elem_of_app. intros [?|[?|[Hr|Hd]]]; [auto..| |].
    + right; right; left. unfold res in Hr. case_match; [|by apply elem_of_nil in Hr]. by apply list_elem_of_singleton in Hr.
    + right; right; right. by apply list_elem_of_filter in Hd as [? _].
  - done.
  - by apply suffix_app_r.
Qed.

(** alice, who may not use the policy's only target. *)
Definition denied_client : ClientConfigInput :=
  {| cc_User := cc_User sample_client; cc_EgressPolicies := cc_EgressPolicies sample_client; cc_UserCred := cc_UserCred sample_client;
     cc_InboundNodes := cc_InboundNodes sample_client; cc_RoutesByInbound := ∅;
     cc_OutboundsByName := cc_OutboundsByName sample_client; cc_ExternalOutboundsByName := cc_ExternalOutboundsByName sample_client;
     cc_ExternalOutbounds := cc_ExternalOutbounds sample_client; cc_OfflineNodeNames := ∅;
     cc_AllowedNodeNames := ∅; cc_DeniedNodeNames := {["exit1" := true]};
     cc_PolicyOnlyEgressNames := cc_PolicyOnlyEgressNames sample_client |}.

Definition denied_out : list json := match BuildClientConfig denied_client with inr out => out | inl _ => [] end.

(** The ai tag may dangle: for a user whose group denies the target of a
    route policy, the merged configuration routes the policy's traffic to the
    selector ai, and no outbound has that tag (sing-box refuses such a
    configuration), although unavailable paths are meant to reject traffic. *)
Theorem ai_rule_dangles :
  BuildClientConfig denied_client = inr denied_out ∧
  ∃ m item, mergedConfig DefaultTemplate denied_out denied_client = inr m ∧
    item ∈ clientRules m ∧ ruleOutbound item = Some "ai" ∧ "ai" ∉ objTags (clientOutbounds m).
Proof.
  split; [vm_compute; reflexivity|].
  assert (∃ m, mergedConfig DefaultTemplate denied_out denied_client = inr m ∧
    existsb (λ item, bool_decide (ruleOutbound item = Some "ai")) (clientRules m) = true ∧
    bool_decide ("ai" ∉ objTags (clientOutbounds m)) = true) as (m & Hm & Hai & Hno).
  { eexists. split; [vm_compute; reflexivity|]. split; vm_compute; reflexivity. }
  apply existsb_exists in Hai as (item & Hitem & Ho). bool_prop. exists m, item.
  split; [exact Hm|]. split; [by apply list_elem_of_In|]. split; assumption.
Qed.

(** ** Witnesses *)
Definition sample_merged : list (string * json) :=
  match mergedConfig DefaultTemplate sample_client_out sample_client with inr m => m | inl _ => [] end.

Lemma sample_client_built : BuildClientConfig sample_client = inr sample_client_out.
Proof. vm_compute. reflexivity. Qed.

Lemma sample_client_merged : mergedConfig DefaultTemplate sample_client_out sample_client = inr sample_merged.
Proof. vm_compute. reflexivity. Qed.

Definition sample_auto_rule : json := JObj [("clash_mode", JStr "Auto"); ("outbound", JStr "jp")].

Lemma sample_auto_in : sample_auto_rule ∈ clientRules sample_merged.
Proof.
  assert (∃ i, clientRules sample_merged !! i = Some sample_auto_rule) as [i Hi]; [exists 6; vm_compute; reflexivity|].
  by eapply list_elem_of_lookup_2.
Qed.

Lemma default_managed : managed (templateMap DefaultTemplate).
Proof. rewrite default_templateMap. eexists. vm_compute. reflexivity. Qed.

Lemma merged_rules_closed_witness :
  "jp" ∈ objTags (clientOutbounds sample_merged) ∨ ("jp" = "ai" ∧ policyRuleOk sample_client sample_auto_rule) ∨
  (sample_auto_rule ∈ templateRules DefaultTemplate ∧ ("jp" = "proxy" → sample_auto_rule ∈ (splitPreamble (templateRules DefaultTemplate)).1)).
Proof.
  apply (merged_rules_closed DefaultTemplate sample_client sample_client_out sample_merged sample_auto_rule "jp");
    [exact sample_client_built|exact sample_client_merged|exact sample_auto_in|reflexivity].
Defined.

Lemma modes_agree_witness :
  ∃ s, findServer proxyDNSTag (dnsServers sample_merged) = Some s ∧ get_string "detour" s = Some "jp".
Proof.
  destruct (proj2 (proj2 (proj2 (modes_agree DefaultTemplate sample_client sample_client_out sample_merged sample_client_merged default_managed))))
    as (s & Hs & Hd).
  exists s. split; [exact Hs|]. rewrite Hd. vm_compute. reflexivity.
Defined.

(** One generated outbound whose server is a host name. *)
Definition host_out : list json := [JObj (obj_of [("type", JStr "hysteria2"); ("tag", JStr "exit1"); ("server", JStr "hk.example.com")])].
Definition host_merged : list (string * json) :=
  match mergedConfig DefaultTemplate host_out sample_client with inr m => m | inl _ => [] end.
Definition host_entry : list (string * json) := match clientOutbounds host_merged with JObj o :: _ => o | _ => [] end.

Lemma endpoints_bootstrap_witness : ∃ r, obj_get "domain_resolver" host_entry = Some r ∧ r ≠ JNull.
Proof.
  refine (proj1 (endpoints_bootstrap DefaultTemplate sample_client host_out host_merged host_entry _ default_managed _ _ _)).
  - vm_compute. reflexivity.
  - assert (clientOutbounds host_merged = [JObj host_entry]) as -> by (vm_compute; reflexivity). by apply list_elem_of_singleton.
  - vm_compute. discriminate.
  - vm_compute. reflexivity.
Defined.

Lemma merge_preserves_witness : obj_get "log" sample_merged = obj_get "log" defaultMap.
Proof.
  apply (proj1 (merge_preserves DefaultTemplate sample_client sample_client_out sample_merged defaultMap default_Unmarshal sample_client_merged)).
  apply (bool_decide_unpack ("log" ∉ ["dns"; "route"; "experimental"; "outbounds"])). vm_compute. exact I.
Defined.

Lemma custom_rules_behind_auto_witness :
  ∃ l1 l2, clientRules sample_merged = l1 ++ sample_auto_rule :: l2 ∧
    ((splitPreamble (templateRules DefaultTemplate)).2 ≫= keepRule) `suffix_of` l2.
Proof.
  destruct (custom_rules_behind_auto DefaultTemplate sample_client sample_client_out sample_merged sample_client_merged)
    as (rules & l1 & l2 & Hr & _ & _ & Hs); [vm_compute; discriminate|].
  exists l1, l2. split; [|exact Hs]. rewrite Hr.
  replace (proxySelector (hasTag sample_client_out)) with "jp" by (vm_compute; reflexivity). reflexivity.
Defined.

(** The sample's policies are valid and use no rule set; a text that is no JSON document is refused. *)
Lemma default_template_merges_witness : ∃ pol, buildClientPolicies sample_client = inr pol.
Proof. exact (proj1 (proj1 (default_template_merges sample_client sample_client_out) (ex_intro _ sample_merged sample_client_merged))). Defined.

Lemma template_parse_total_witness : MergeClientConfig "{" sample_client_out sample_client = inl UnmarshalError.
Proof.
  destruct (template_parse_total "{" sample_client_out sample_client) as (r & Hr & Hiff).
  apply Hiff. split; [eexists; vm_compute; reflexivity|]. specialize (Hr (parse_fuel "{") (le_n _)). vm_compute in Hr.
  injection Hr as <-. intros (tree & rest & Heq & _). discriminate Heq.
Defined.
