(* ===== verification/Handler.v ===== *)
(** * Handler: the client configuration endpoint

    internal/apiserver/handler.go: a GET of /api/v1/client-config/<namespace>/<uuid>
    identifies the user by the UUID in its credential Secret, collects what the
    client configuration is computed from, and answers with the merged
    configuration.  The handler is a program over the Kubernetes client whose
    result is the HTTP response. *)

From S2P Require Import Prelude GoStrings Crypto Json Api Engine K8s CredManager NodeController ClientConfig Template.
From Stdlib Require Import Ascii.

(** ** HTTP responses *)
Record Response := { resp_Status : Z; resp_ContentType : string; resp_Body : string }.

Definition StatusOK : Z := 200.
Definition StatusBadRequest : Z := 400.
Definition StatusNotFound : Z := 404.
Definition StatusInternalServerError : Z := 500.

(** http.Error *)
Definition http_Error (error : string) (code : Z) : Response :=
  {| resp_Status := code; resp_ContentType := "text/plain; charset=utf-8"; resp_Body := error +:+ newline |}.

Definition http_NotFound : Response := http_Error "404 page not found" StatusNotFound.

Definition writeInternalError : Response :=
  {| resp_Status := StatusInternalServerError; resp_ContentType := "application/json";
     resp_Body := json_Marshal (JObj [("error", JStr "internal server error")]) +:+ newline |}.

(** ** The request *)

(** [n] hexadecimal digits at the head of [s]. *)
Fixpoint hex_run (n : nat) (s : string) : option string :=
  match n, s with
  | O, _ => Some s
  | S n, String c s => if hex_val c is Some _ then hex_run n s else None
  | S _, EmptyString => None
  end.

(** uuidRegex.MatchString *)
Definition uuidMatch (s : string) : bool :=
  match
    s ← hex_run 8 s; s ← strip_prefix "-" s;
    s ← hex_run 4 s; s ← strip_prefix "-" s;
    s ← hex_run 4 s; s ← strip_prefix "-" s;
    s ← hex_run 4 s; s ← strip_prefix "-" s;
    hex_run 12 s
  with
  | Some rest => rest ==? ""
  | None => false
  end.

Definition ascii_lower (c : ascii) : ascii :=
  let n := N_of_ascii c in if (65 <=? n)%N && (n <=? 90)%N then ascii_of_N (n + 32) else c.

Fixpoint str_lower (s : string) : string :=
  match s with EmptyString => "" | String c s => String (ascii_lower c) (str_lower s) end.

(** strings.EqualFold(s, t) where [t] matched uuidRegex: none of the characters
    of [t] folds to a character outside ASCII. *)
Definition strings_EqualFold (s t : string) : bool := str_lower s ==? str_lower t.

(** The namespace and the UUID of the path. *)
Definition requestParts (path : string) : option (string * string) :=
  match strings_SplitN (strings_TrimPrefix path "/api/v1/client-config/") "/" 2 with
  | [ns; uuid] => if (ns ==? "") || (uuid ==? "") then None else Some (ns, uuid)
  | _ => None
  end.

(** ** Collecting the input *)

(** A List that is answered with 500 when it fails. *)
Definition listItems (k : kind) (ns : string) : prog (Response + list (obj k)) :=
  r ← do (List k (InNamespace ns));
  Ret (match r with inl _ => inl writeInternalError | inr l => inr l end).

(** The loop over the users: the first whose credential matches, until a second match. *)
Fixpoint matchUsers (requestUUID : string) (matched : option (User * UserCredential)) (users : list User)
    : prog (option (User * UserCredential)) :=
  match users with
  | [] => Ret matched
  | user :: users =>
    r ← GetUserCredential user;
    match r with
    | inl _ => matchUsers requestUUID matched users
    | inr cred =>
      if negb (strings_EqualFold (uc_UUID cred) requestUUID) then matchUsers requestUUID matched users
      else match matched with
           | Some _ => Ret matched
           | None => matchUsers requestUUID (Some (user, cred)) users
           end
    end
  end.

Definition isSingBoxNodeReady (node : SingBoxNode) : bool :=
  match findCondition NodeReadyConditionType (nst_Conditions (node_status node)) with
  | Some c => cond_Status c ==? ConditionTrue
  | None => true
  end.

(** [m := make(map[string]T); for x { m[x.Name] = x }] *)
Definition byName {A} `{HasMeta A} (l : list A) : gmap string A := foldl (λ m x, <[GetName x := x]> m) ∅ l.

(** The names the user's group allows and denies; a nil map when the list is empty. *)
Definition groupNodes (ns : string) (user : User) : prog (Response + (gmap string bool * gmap string bool)) :=
  if us_UserGroupRef (user_spec user) ==? "" then Ret (inr (∅, ∅))
  else
    r ← do (Get KUserGroup {| nn_Namespace := ns; nn_Name := us_UserGroupRef (user_spec user) |});
    Ret (match r with
         | inl err => if negb (IsNotFound err) then inl (http_Error "internal server error" StatusInternalServerError) else inr (∅, ∅)
         | inr ug => inr (nameSet (ugs_AllowedNodes (ug_spec ug)), nameSet (ugs_DeniedNodes (ug_spec ug)))
         end).

Section handler.
Context `{MapRange, GoStd, LabelSelectors}.

Definition clientInput (user : User) (cred : UserCredential) (nodes : list SingBoxNode) (exts : list ExternalOutbound)
    (policies : list EgressPolicy) (groups : gmap string bool * gmap string bool) : ClientConfigInput :=
  {| cc_User := user; cc_EgressPolicies := policies; cc_UserCred := cred;
     cc_InboundNodes := filter (λ n, hasRole n ProxyRoleInbound = true) nodes;
     cc_RoutesByInbound := ∅;
     cc_OutboundsByName := byName (filter (λ n, hasRole n ProxyRoleOutbound = true) nodes);
     cc_ExternalOutboundsByName := byName exts;
     cc_ExternalOutbounds := exts;
     cc_OfflineNodeNames := nameSet (GetName <$> filter (λ n, isSingBoxNodeReady n = false) nodes);
     cc_AllowedNodeNames := groups.1; cc_DeniedNodeNames := groups.2;
     cc_PolicyOnlyEgressNames := policyOnlyEgresses policies nodes exts |}.

Definition collectClientInput (ns : string) (user : User) (cred : UserCredential) : prog (Response + ClientConfigInput) :=
  nodes ←? listItems KSingBoxNode ns;
  exts ←? listItems KExternalOutbound ns;
  policies ←? listItems KEgressPolicy ns;
  groups ←? groupNodes ns user;
  Ret (inr (clientInput user cred nodes exts policies groups)).

(** ** The template *)
Definition templateBytes (TemplateRef : string) : prog string :=
  if TemplateRef ==? "" then Ret DefaultTemplate
  else match strings_SplitN TemplateRef "/" 2 with
       | [ns; name] =>
         r ← do (Get KConfigMap {| nn_Namespace := ns; nn_Name := name |});
         Ret (match r with
              | inl _ => DefaultTemplate
              | inr cm => default DefaultTemplate (cm_Data cm !! "config.json")
              end)
       | _ => Ret DefaultTemplate
       end.

(** ** The handler *)
Record Server := { srv_BindAddress : string; srv_TemplateRef : string }.

Definition clientConfigResponse (s : Server) (input : ClientConfigInput) : prog Response :=
  match BuildClientConfig input with
  | inl _ => Ret writeInternalError
  | inr outbounds =>
    t ← templateBytes (srv_TemplateRef s);
    Ret (match MergeClientConfig t outbounds input with
         | inl _ => writeInternalError
         | inr result => {| resp_Status := StatusOK; resp_ContentType := "application/json"; resp_Body := result |}
         end)
  end.

Definition handleClientConfig (s : Server) (path : string) : prog Response :=
  match requestParts path with
  | None => Ret http_NotFound
  | Some (namespace, requestUUID) =>
    if negb (uuidMatch requestUUID) then Ret (http_Error "invalid uuid" StatusBadRequest)
    else
      r ← listItems KUser namespace;
      match r with
      | inl resp => Ret resp
      | inr users =>
        m ← matchUsers requestUUID None users;
        match m with
        | None => Ret http_NotFound
        | Some (user, cred) =>
          r ← collectClientInput namespace user cred;
          match r with
          | inl resp => Ret resp
          | inr input => clientConfigResponse s input
          end
        end
      end
  end.
End handler.
