(* ===== verification/HandlerProps.v ===== *)
(** * HandlerProps: who gets which client configuration

    The outcomes of a request to the client configuration endpoint, against any
    API server: the user is the first of the namespace whose credential matches,
    the configuration is the merge of that user's outbounds, every failure is
    answered with a fixed text, and the request writes nothing. *)

From S2P Require Import Prelude GoStrings Crypto Json JsonParse Api Engine Samples K8s CredManager NodeController NodeProps SampleCluster ClientConfig SampleClient ClientTargets Template TemplateProps Handler.

(** ** Identification of the user *)

(** The Secret that holds the user's credential. *)
Definition authKey (user : User) : NamespacedName :=
  {| nn_Namespace := if us_AuthSecret_Namespace (user_spec user) ==? "" then GetNamespace user else us_AuthSecret_Namespace (user_spec user);
     nn_Name := us_AuthSecret_Name (user_spec user) |}.

Definition secretUUID (secret : Secret) : string := map_index "" (Data secret) "uuid".

(** [tr] read the credential of [user], and it matches the requested UUID. *)
Definition credMatches (tr : list event) (uuid : string) (user : User) (cred : UserCredential) : Prop :=
  ∃ secret, Ev (Get KSecret (authKey user)) (inr secret) ∈ tr ∧ cred = {| uc_UUID := secretUUID secret |} ∧
    strings_EqualFold (secretUUID secret) uuid = true.

(** [tr] looked at the credential of [user], and it does not match. *)
Definition credDiffers (tr : list event) (uuid : string) (user : User) : Prop :=
  ∃ r, Ev (Get KSecret (authKey user)) r ∈ tr ∧ ∀ secret, r = inr secret → strings_EqualFold (secretUUID secret) uuid = false.

(** The first matching user of the list, if any. *)
Definition firstMatch (tr : list event) (uuid : string) (users : list User) (m : option (User * UserCredential)) : Prop :=
  match m with
  | None => Forall (credDiffers tr uuid) users
  | Some (user, cred) => ∃ pre post, users = pre ++ user :: post ∧ Forall (credDiffers tr uuid) pre ∧ credMatches tr uuid user cred
  end.

Lemma credDiffers_more tr tr' uuid u : (∀ e, e ∈ tr → e ∈ tr') → credDiffers tr uuid u → credDiffers tr' uuid u.
Proof. intros Htr (r & Hr & Hd). exists r. eauto. Qed.

Lemma firstMatch_more tr tr' uuid users m : (∀ e, e ∈ tr → e ∈ tr') → firstMatch tr uuid users m → firstMatch tr' uuid users m.
Proof.
  intros Htr. destruct m as [[u c]|]; simpl.
  - intros (pre & post & -> & Hpre & (secret & Hs & ? & ?)). exists pre, post. split_and!; [done| |exists secret; auto].
    eapply Forall_impl; [done|]. intros v. by apply credDiffers_more.
  - intros Hall. eapply Forall_impl; [done|]. intros v. by apply credDiffers_more.
Qed.

(** After a first match the loop keeps it. *)
Lemma wp_matchUsers_some ok uuid x users tr :
  wp ok (matchUsers uuid (Some x) users) tr (λ tr' m, (∀ e, e ∈ tr → e ∈ tr') ∧ m = Some x).
Proof.
  revert tr. induction users as [|u users IH]; intros tr; simpl; [done|]. unfold GetUserCredential. simpl. intros [err|secret] _; simpl.
  - eapply wp_mono; [|apply IH]. simpl. set_solver.
  - destruct (strings_EqualFold _ _); simpl; [set_solver|]. eapply wp_mono; [|apply IH]. simpl. set_solver.
Qed.

Lemma wp_matchUsers ok uuid users tr :
  wp ok (matchUsers uuid None users) tr (λ tr' m, (∀ e, e ∈ tr → e ∈ tr') ∧ firstMatch tr' uuid users m).
Proof.
  revert tr. induction users as [|u users IH]; intros tr; simpl; [by split; [|constructor]|]. unfold GetUserCredential. simpl.
  change {| nn_Namespace := _; nn_Name := us_AuthSecret_Name (user_spec u) |} with (authKey u).
  assert (∀ r tr' m, (∀ e, e ∈ tr ++ [Ev (Get KSecret (authKey u)) r] → e ∈ tr') → firstMatch tr' uuid users m →
    (∀ secret, r = inr secret → strings_EqualFold (secretUUID secret) uuid = false) → firstMatch tr' uuid (u :: users) m) as Hskip.
  { intros r tr' m Htr Hm Hr. assert (credDiffers tr' uuid u) as Hd by (exists r; split; [set_solver|done]).
    destruct m as [[v c]|]; [|by constructor]. destruct Hm as (pre & post & -> & ? & ?).
    exists (u :: pre), post. split_and!; [done|by constructor|done]. }
  intros [err|secret] _; simpl.
  - eapply wp_mono; [|apply IH]. simpl. intros tr' m [Htr Hm]. split; [set_solver|]. by eapply Hskip.
  - fold (secretUUID secret). destruct (strings_EqualFold _ _) eqn:Heq; simpl.
    + eapply wp_mono; [|apply wp_matchUsers_some]. simpl. intros tr' m [Htr ->]. split; [set_solver|].
      exists [], users. split_and!; [done|constructor|]. exists secret. split_and!; [set_solver|done..].
    + eapply wp_mono; [|apply IH]. simpl. intros tr' m [Htr Hm]. split; [set_solver|]. eapply Hskip; [done..|]. by intros ? [= <-].
Qed.

(** ** Outcomes *)
Section outcome.
Context `{MapRange, GoStd, LabelSelectors}.

(** The node lists of the user's group, as read. *)
Definition groupRead (tr : list event) (ns : string) (user : User) (groups : gmap string bool * gmap string bool) : Prop :=
  if us_UserGroupRef (user_spec user) ==? "" then groups = (∅, ∅)
  else ∃ r, Ev (Get KUserGroup {| nn_Namespace := ns; nn_Name := us_UserGroupRef (user_spec user) |}) r ∈ tr ∧
         match r with
         | inr ug => groups = (nameSet (ugs_AllowedNodes (ug_spec ug)), nameSet (ugs_DeniedNodes (ug_spec ug)))
         | inl err => IsNotFound err = true ∧ groups = (∅, ∅)
         end.

(** The input of the client configuration, as read. *)
Definition inputRead (tr : list event) (ns : string) (user : User) (cred : UserCredential) (input : ClientConfigInput) : Prop :=
  ∃ nodes exts policies groups,
    Ev (List KSingBoxNode (InNamespace ns)) (inr nodes) ∈ tr ∧ Ev (List KExternalOutbound (InNamespace ns)) (inr exts) ∈ tr ∧
    Ev (List KEgressPolicy (InNamespace ns)) (inr policies) ∈ tr ∧ groupRead tr ns user groups ∧
    input = clientInput user cred nodes exts policies groups.

(** The template: that of the referenced ConfigMap when the reference is
    well-formed, the ConfigMap could be read and has the key, otherwise the
    built-in one. *)
Definition templateRead (tr : list event) (ref t : string) : Prop :=
  if ref ==? "" then t = DefaultTemplate
  else match strings_SplitN ref "/" 2 with
       | [ns; name] => ∃ r, Ev (Get KConfigMap {| nn_Namespace := ns; nn_Name := name |}) r ∈ tr ∧
           t = match r with inr cm => default DefaultTemplate (cm_Data cm !! "config.json") | inl _ => DefaultTemplate end
       | _ => t = DefaultTemplate
       end.

Definition okResponse (body : string) : Response :=
  {| resp_Status := StatusOK; resp_ContentType := "application/json"; resp_Body := body |}.

(** A read that the answer depends on failed: a listing of the namespace, or the
    group with another error than NotFound. *)
Definition readFailed (tr : list event) (ns : string) (user : User) (resp : Response) : Prop :=
  (∃ k err, k ∈ [KSingBoxNode; KExternalOutbound; KEgressPolicy] ∧ Ev (List k (InNamespace ns)) (inl err) ∈ tr ∧ resp = writeInternalError) ∨
  (us_UserGroupRef (user_spec user) ≠ "" ∧
   ∃ err, Ev (Get KUserGroup {| nn_Namespace := ns; nn_Name := us_UserGroupRef (user_spec user) |}) (inl err) ∈ tr ∧ IsNotFound err = false ∧
     resp = http_Error "internal server error" StatusInternalServerError).

(** The answer for an input that could be read. *)
Definition builtResponse (s : Server) (tr : list event) (input : ClientConfigInput) (resp : Response) : Prop :=
  match BuildClientConfig input with
  | inl _ => resp = writeInternalError
  | inr out => ∃ t, templateRead tr (srv_TemplateRef s) t ∧
      resp = match MergeClientConfig t out input with inl _ => writeInternalError | inr body => okResponse body end
  end.

(** What a request has read, and what it is answered. *)
Definition requestOutcome (s : Server) (path : string) (tr : list event) (resp : Response) : Prop :=
  match requestParts path with
  | None => resp = http_NotFound
  | Some (ns, uuid) =>
    if negb (uuidMatch uuid) then resp = http_Error "invalid uuid" StatusBadRequest
    else
      (∃ err, Ev (List KUser (InNamespace ns)) (inl err) ∈ tr ∧ resp = writeInternalError) ∨
      ∃ users m, Ev (List KUser (InNamespace ns)) (inr users) ∈ tr ∧ firstMatch tr uuid users m ∧
        match m with
        | None => resp = http_NotFound
        | Some (user, cred) =>
          readFailed tr ns user resp ∨ ∃ input, inputRead tr ns user cred input ∧ builtResponse s tr input resp
        end
  end.

Lemma wp_groupNodes ok ns user tr :
  wp ok (groupNodes ns user) tr (λ tr' r, (∀ e, e ∈ tr → e ∈ tr') ∧
    match r with inl resp => readFailed tr' ns user resp | inr groups => groupRead tr' ns user groups end).
Proof.
  unfold groupNodes, groupRead. case_bool_decide as Href; simpl; [done|]. intros [err|ug] _; simpl.
  - split; [set_solver|]. destruct (IsNotFound err) eqn:Hnf; simpl.
    + exists (inl err). split; [set_solver|done].
    + right. split; [done|]. exists err. split_and!; [set_solver|done..].
  - split; [set_solver|]. exists (inr ug). split; [set_solver|done].
Qed.

Lemma wp_collectClientInput ok ns user cred tr :
  wp ok (collectClientInput ns user cred) tr
    (λ tr' r, (∀ e, e ∈ tr → e ∈ tr') ∧ match r with inl resp => readFailed tr' ns user resp | inr input => inputRead tr' ns user cred input end).
Proof.
  unfold collectClientInput, listItems. simpl.
  intros [e|nodes] _; simpl; [split; [set_solver|left; exists KSingBoxNode, e; set_solver]|].
  intros [e|exts] _; simpl; [split; [set_solver|left; exists KExternalOutbound, e; set_solver]|].
  intros [e|policies] _; simpl; [split; [set_solver|left; exists KEgressPolicy, e; set_solver]|].
  apply wp_bind. eapply wp_mono; [|apply wp_groupNodes]. intros tr' [resp|groups] [Htr Hg]; simpl; [split; [set_solver|done]|].
  split; [set_solver|]. exists nodes, exts, policies, groups. split_and!; [apply Htr; set_solver..|done|done].
Qed.

Lemma wp_templateBytes ok ref tr :
  wp ok (templateBytes ref) tr (λ tr' t, (∀ e, e ∈ tr → e ∈ tr') ∧ templateRead tr' ref t).
Proof.
  unfold templateBytes, templateRead. case_bool_decide; simpl; [done|].
  destruct (strings_SplitN ref "/" 2) as [|ns [|name []]]; simpl; try done.
  intros [err|cm] _; simpl; (split; [set_solver|]); eexists; (split; [apply elem_of_app; right; left|done]).
Qed.

Lemma groupRead_more tr tr' ns user groups : (∀ e, e ∈ tr → e ∈ tr') → groupRead tr ns user groups → groupRead tr' ns user groups.
Proof. intros Htr. unfold groupRead. case_bool_decide; [done|]. intros (r & ? & ?). eauto. Qed.

Lemma inputRead_more tr tr' ns user cred input : (∀ e, e ∈ tr → e ∈ tr') → inputRead tr ns user cred input → inputRead tr' ns user cred input.
Proof.
  intros Htr (nodes & exts & policies & groups & ? & ? & ? & Hg & ->). exists nodes, exts, policies, groups.
  split_and!; eauto using groupRead_more.
Qed.

Lemma wp_handleClientConfig s path : wp (λ _, True) (handleClientConfig s path) [] (requestOutcome s path).
Proof.
  unfold handleClientConfig, requestOutcome, clientConfigResponse, mbind, prog_mbind.
  destruct (requestParts path) as [[ns uuid]|]; [|done]. destruct (uuidMatch uuid); cbn [negb]; [|done].
  unfold listItems at 1, do, mbind, prog_mbind. cbn [prog_bind wp]. intros [err|users] _; cbn [wp]; [left; exists err; set_solver|].
  apply wp_bind. eapply wp_mono; [|apply wp_matchUsers].
  intros tr1 [[user cred]|] [Htr1 Hm]; cbv beta iota; [|right; exists users, None; split_and!; [set_solver|done..]].
  apply wp_bind. eapply wp_mono; [|apply wp_collectClientInput].
  assert (∀ tr2, (∀ e, e ∈ tr1 → e ∈ tr2) → Ev (List KUser (InNamespace ns)) (inr users) ∈ tr2 ∧ firstMatch tr2 uuid users (Some (user, cred))) as Hfrom.
  { intros tr2 Htr2. split; [apply Htr2, Htr1; set_solver|by eapply firstMatch_more]. }
  intros tr2 [resp|input] [Htr2 Hin]; cbv beta iota.
  { right. destruct (Hfrom tr2 Htr2). exists users, (Some (user, cred)). split_and!; [done..|by left]. }
  destruct (BuildClientConfig input) as [|out] eqn:Hb; cbv beta iota.
  { right. destruct (Hfrom tr2 Htr2). exists users, (Some (user, cred)). split_and!; [done..|right].
    exists input. split; [done|]. unfold builtResponse. by rewrite Hb. }
  apply wp_bind. eapply wp_mono; [|apply wp_templateBytes]. intros tr3 t [Htr3 Ht]. cbn [wp]. right.
  destruct (Hfrom tr3 ltac:(auto)). exists users, (Some (user, cred)). split_and!; [done..|right].
  exists input. split; [by eapply inputRead_more|]. unfold builtResponse. rewrite Hb. exists t. split; [done|]. by destruct (MergeClientConfig t out input).
Qed.

(** C6. Who gets which configuration: a request is answered 404 when its path
    is malformed and 400 when the UUID is; otherwise, against any API server, it
    is answered 500 when the listing of the users fails; the user is the first of
    the listing whose credential Secret could be read and holds the UUID, and the
    answer is 404 when there is none; for that user the answer is 500 exactly when
    a listing of the namespace failed, the group could not be read for another
    reason than its absence, or the configuration could not be built or merged,
    and otherwise 200 with the merge of the outbounds built for that user, with
    the credential just read, into the template of the referenced ConfigMap, or
    the built-in one when the reference is empty or malformed or the ConfigMap
    could not be read or has no config.json. *)
Theorem handleClientConfig_outcome sv s0 s path :
  requestOutcome s path (trace sv s0 (handleClientConfig s path)) (result sv s0 (handleClientConfig s path)).
Proof. apply (wp_run _ (requestOutcome s path)), wp_handleClientConfig. Qed.

(** The 200 answers. *)
Lemma ok_outcome s path ns uuid tr body :
  requestParts path = Some (ns, uuid) → requestOutcome s path tr (okResponse body) →
  ∃ users user cred input out t, Ev (List KUser (InNamespace ns)) (inr users) ∈ tr ∧ firstMatch tr uuid users (Some (user, cred)) ∧
    inputRead tr ns user cred input ∧ BuildClientConfig input = inr out ∧ templateRead tr (srv_TemplateRef s) t ∧
    MergeClientConfig t out input = inr body.
Proof.
  intros Hparts. unfold requestOutcome. rewrite Hparts.
  assert (∀ r, r = writeInternalError ∨ r = http_Error "internal server error" StatusInternalServerError ∨ r = http_NotFound ∨
    r = http_Error "invalid uuid" StatusBadRequest → okResponse body ≠ r) as Hno.
  { intros r Hr Heq. apply (f_equal resp_Status) in Heq. destruct Hr as [->|[->|[->| ->]]]; vm_compute in Heq; discriminate. }
  destruct (uuidMatch uuid); cbn [negb]; [|intros Hx; exfalso; revert Hx; apply Hno; auto].
  intros [(err & _ & Hx)|(users & m & Hus & Hm & Hout)]; [exfalso; revert Hx; apply Hno; auto|].
  destruct m as [[user cred]|]; [|exfalso; revert Hout; apply Hno; auto].
  destruct Hout as [[(k & err & _ & _ & Hx)|(_ & err & _ & _ & Hx)]|(input & Hin & Hb)]; [exfalso; revert Hx; apply Hno; auto..|].
  unfold builtResponse in Hb. destruct (BuildClientConfig input) as [|out] eqn:Hbuild; [exfalso; revert Hb; apply Hno; auto|].
  destruct Hb as (t & Ht & Hresp). destruct (MergeClientConfig t out input) as [|body'] eqn:Hmerge; [exfalso; revert Hresp; apply Hno; auto|].
  injection Hresp as <-. by exists users, user, cred, input, out, t.
Qed.
End outcome.

(** Reads of single objects, and listings of one namespace. *)
Definition readsOnly (ns : string) (c : call) : Prop :=
  match c with
  | Get _ _ => True
  | List _ (InNamespace ns') => ns' = ns
  | _ => False
  end.

Lemma matchUsers_emits (P : call → Prop) uuid m users : (∀ k key, P (Get k key)) → emits P (matchUsers uuid m users).
Proof.
  intros HP. revert m. induction users as [|u users IH]; intros m; cbn [matchUsers]; [done|].
  unfold GetUserCredential. emits_solve; auto.
Qed.

Lemma handleClientConfig_emits `{MapRange, GoStd, LabelSelectors} s path ns uuid :
  requestParts path = Some (ns, uuid) → emits (readsOnly ns) (handleClientConfig s path).
Proof.
  intros Hp. unfold handleClientConfig. rewrite Hp.
  unfold collectClientInput, listItems, groupNodes, clientConfigResponse, templateBytes.
  emits_solve; try (apply matchUsers_emits; done); try done.
Qed.

(** A request changes nothing and stays in its namespace: the endpoint only
    reads single objects and lists the namespace of the path, and a path that
    names no namespace and UUID, or a malformed UUID, is answered without any
    call to the cluster. *)
Theorem handleClientConfig_readonly `{MapRange, GoStd, LabelSelectors} sv s0 s path :
  let tr := trace sv s0 (handleClientConfig s path) in
  match requestParts path with
  | Some (ns, uuid) => Forall (λ e, readsOnly ns (ev_call e)) tr ∧ (uuidMatch uuid = false → tr = [])
  | None => tr = []
  end.
Proof.
  cbv zeta. destruct (requestParts path) as [[ns uuid]|] eqn:Hp; [|by unfold handleClientConfig; rewrite Hp].
  split; [|by intros Hu; unfold handleClientConfig; rewrite Hp, Hu].
  pose proof (wp_run _ _ sv s0 (wp_emits (λ _, True) _ _ [] (handleClientConfig_emits s path ns uuid Hp))) as (new & Htr & Hnew).
  by rewrite Htr.
Qed.

(** ** Examples *)
Lemma handleClientConfig_readonly_witness :
  Forall (λ e, readsOnly "proxy" (ev_call e))
    (trace (sample_server sample_node) tt (handleClientConfig {| srv_BindAddress := ":8090"; srv_TemplateRef := "" |}
       ("/api/v1/client-config/proxy/" +:+ sample_uuid))).
Proof.
  exact (proj1 (handleClientConfig_readonly (sample_server sample_node) tt {| srv_BindAddress := ":8090"; srv_TemplateRef := "" |}
    ("/api/v1/client-config/proxy/" +:+ sample_uuid))).
Defined.
