(* ===== verification/Snapshot.v ===== *)
(** * Snapshot: programs run against an unchanging cluster

    Two programs that read the same cluster are compared through a snapshot, the
    answer to every call.  The order of a listing is not part of what a cluster
    holds: [agrees] and [reordered] disregard it.  A run whose answers are exactly
    those of one snapshot returns what [snap_run], a pure function, computes. *)

From S2P Require Import Prelude GoStrings Json Api Engine K8s CredManager NodeController NodeProps HandlerProps.

Definition snapshot : Type := ∀ c : call, answer c.

(** Two answers to a call that differ at most in the order of a listing, which
    the client leaves open. *)
Definition alike (c : call) : answer c → answer c → Prop :=
  match c with
  | List _ _ => λ a b, match a, b with inr l, inr l' => l ≡ₚ l' | inl e, inl e' => e = e' | _, _ => False end
  | _ => eq
  end.

#[export] Instance alike_equiv c : Equivalence (alike c).
Proof.
  destruct c; try apply _. split.
  - intros [e|l]; simpl; reflexivity.
  - intros [e|l] [e'|l']; simpl; try done; intros; by symmetry.
  - intros [e1|l1] [e2|l2] [e3|l3]; simpl; try done; intros; by etrans.
Qed.

(** The answer comes from the snapshot. *)
Definition agrees (snap : snapshot) (e : event) : Prop := alike (ev_call e) (ev_answer e) (snap (ev_call e)).

(** The same objects, perhaps listed in another order. *)
Definition reordered (snap snap' : snapshot) : Prop := ∀ c, alike c (snap c) (snap' c).

(** The very answer of the snapshot. *)
Definition exactly (snap : snapshot) (e : event) : Prop := ev_answer e = snap (ev_call e).

Section run.
Context (snap : snapshot).

Fixpoint snap_run {A} (p : prog A) : A :=
  match p with
  | Ret a => a
  | Call c f => snap_run (f (snap c))
  end.

Lemma snap_run_bind {A B} (f : A → prog B) p : snap_run (prog_bind f p) = snap_run (f (snap_run p)).
Proof. induction p as [a|c g IH]; simpl; [done|apply IH]. Qed.

Lemma snap_run_foldM {A B} (f : B → A → prog B) st l : snap_run (foldM f st l) = foldl (λ st x, snap_run (f st x)) st l.
Proof. revert st. induction l as [|x l IH]; intros st; simpl; [done|]. by rewrite snap_run_bind, IH. Qed.

(** A run that agrees with the snapshot is the pure run. *)
Lemma snap_result {A} (p : prog A) sv s : Forall (exactly snap) (trace sv s p) → result sv s p = snap_run p.
Proof.
  unfold trace, result. revert s. induction p as [a|c f IH]; intros s; simpl; [done|].
  destruct (srv_step sv s c) as [r s']. specialize (IH r s'). destruct (exec sv s' (f r)) as [[tr a] s'']. simpl in *.
  rewrite Forall_cons. intros [Hr Htr]. rewrite IH by done. unfold exactly in Hr. simpl in Hr. by rewrite Hr.
Qed.

(** ** What the snapshot holds of a user and of an external outbound *)
Definition snapGroup (ns : string) (user : User) : option UserGroup :=
  if us_UserGroupRef (user_spec user) ==? "" then None
  else match snap (Get KUserGroup {| nn_Namespace := ns; nn_Name := us_UserGroupRef (user_spec user) |}) with
       | inr ug => Some ug
       | inl _ => None
       end.

(** The names the user's group allows and denies. *)
Definition snapGroups (ns : string) (user : User) : gmap string bool * gmap string bool :=
  match snapGroup ns user with
  | Some ug => (nameSet (ugs_AllowedNodes (ug_spec ug)), nameSet (ugs_DeniedNodes (ug_spec ug)))
  | None => (∅, ∅)
  end.

Definition snapExternal (e : ExternalOutbound) : gmap string string :=
  match es_CredentialsSecretRef (eob_spec e) with
  | None => ∅
  | Some ref =>
    match snap (Get KSecret {| nn_Namespace := GetNamespace e; nn_Name := ref |}) with
    | inr s => nonEmptyData (Data s)
    | inl _ => ∅
    end
  end.

(** ** The users of a collected input *)
Definition userFields (input : Input) := (Users input, UserCreds input, UserNodeRestrictions input, UserNodeAllowlist input).

(** The input describes [user] as the snapshot does. *)
Definition userTracked (ns : string) (input : Input) (user : User) : Prop :=
  user ∈ Users input ∧
  (∀ secret, snap (Get KSecret (authKey user)) = inr secret → UserCreds input !! GetName user = Some {| uc_UUID := secretUUID secret |}) ∧
  map_index ∅ (UserNodeAllowlist input) (GetName user) = (snapGroups ns user).1 ∧
  map_index ∅ (UserNodeRestrictions input) (GetName user) = (snapGroups ns user).2.

(** Names without a user have no entries. *)
Definition usersFresh (input : Input) : Prop :=
  ∀ n, n ∉ GetName <$> Users input → UserNodeRestrictions input !! n = None ∧ UserNodeAllowlist input !! n = None.

(** The credential entries after a user is added. *)
Definition credsWith (user : User) (creds : gmap string UserCredential) : gmap string UserCredential :=
  match snap (Get KSecret (authKey user)) with
  | inr secret => <[GetName user := {| uc_UUID := secretUUID secret |}]> creds
  | inl _ => creds
  end.

Lemma snap_addUser user input :
  snap_run (addUser user input) =
  upd_users input (Users input ++ [user]) (credsWith user (UserCreds input)) (UserNodeRestrictions input) (UserNodeAllowlist input).
Proof.
  unfold addUser, GetUserCredential, credsWith, authKey, secretUUID, mbind, prog_mbind, do. cbn [prog_bind snap_run].
  by destruct (snap (Get KSecret _)).
Qed.

Lemma credsWith_ne user creds n : n ≠ GetName user → credsWith user creds !! n = creds !! n.
Proof. intros. unfold credsWith. case_match; by rewrite ?lookup_insert_ne. Qed.

Lemma credsWith_eq user creds secret :
  snap (Get KSecret (authKey user)) = inr secret → credsWith user creds !! GetName user = Some {| uc_UUID := secretUUID secret |}.
Proof. intros Hs. unfold credsWith. rewrite Hs. apply lookup_insert_eq. Qed.

(** The restrictions and the allow-list after a user is added. *)
Definition restrWith (ns : string) (user : User) (m : gmap string (gmap string bool)) : gmap string (gmap string bool) :=
  match snapGroup ns user with
  | Some ug => <[GetName user := nameSet (ugs_DeniedNodes (ug_spec ug))]> m
  | None => m
  end.

Definition allowWith (ns : string) (user : User) (m : gmap string (gmap string bool)) : gmap string (gmap string bool) :=
  match snapGroup ns user with
  | Some ug => if bool_decide (size (nameSet (ugs_AllowedNodes (ug_spec ug))) = 0) then m
               else <[GetName user := nameSet (ugs_AllowedNodes (ug_spec ug))]> m
  | None => m
  end.

Lemma snap_collectUser node input user input' :
  snap_run (collectUser node input user) = inr input' →
  input' = upd_users input (Users input ++ [user]) (credsWith user (UserCreds input))
             (restrWith (GetNamespace node) user (UserNodeRestrictions input)) (allowWith (GetNamespace node) user (UserNodeAllowlist input)).
Proof.
  unfold collectUser, restrWith, allowWith, snapGroup, mbind, prog_mbind, do. cbn [prog_bind].
  case_bool_decide as Href; [rewrite snap_run_bind, snap_addUser; by intros [= <-]|]. cbn [snap_run].
  destruct (snap (Get KUserGroup _)) as [e|ug]; [destruct (IsNotFound e)|]; rewrite ?snap_run_bind, ?snap_addUser; by intros [= <-].
Qed.

(** What one iteration of the user loop changes. *)
Lemma collectUser_tracked node input user input' :
  snap_run (collectUser node input user) = inr input' → GetName user ∉ GetName <$> Users input → usersFresh input →
  userTracked (GetNamespace node) input' user ∧ Users input' = Users input ++ [user] ∧ ExternalCreds input' = ExternalCreds input ∧
  (∀ n, n ≠ GetName user → UserCreds input' !! n = UserCreds input !! n ∧
     UserNodeRestrictions input' !! n = UserNodeRestrictions input !! n ∧ UserNodeAllowlist input' !! n = UserNodeAllowlist input !! n).
Proof.
  intros Hrun Hnew Hfresh. destruct (Hfresh _ Hnew) as [Hr Ha]. apply snap_collectUser in Hrun as ->.
  unfold userTracked, snapGroups, map_index, restrWith, allowWith. simpl. split_and!.
  - set_solver.
  - apply credsWith_eq.
  - destruct (snapGroup _ user) as [ug|]; [|by rewrite Ha]. case_bool_decide as Hs; [|by rewrite lookup_insert_eq].
    rewrite Ha. apply map_size_empty_iff in Hs. by rewrite Hs.
  - destruct (snapGroup _ user); [by rewrite lookup_insert_eq|by rewrite Hr].
  - done.
  - done.
  - intros n Hn. split; [by apply credsWith_ne|]. destruct (snapGroup _ user); [|done].
    case_bool_decide; by rewrite ?lookup_insert_ne.
Qed.

(** Entries of other users leave what is known of [user] alone. *)
Lemma userTracked_frame ns input input' user :
  userTracked ns input user → (∀ u, u ∈ Users input → u ∈ Users input') →
  UserCreds input' !! GetName user = UserCreds input !! GetName user →
  UserNodeRestrictions input' !! GetName user = UserNodeRestrictions input !! GetName user →
  UserNodeAllowlist input' !! GetName user = UserNodeAllowlist input !! GetName user → userTracked ns input' user.
Proof.
  intros (Hu & Hc & Ha & Hr) Hus Hc' Hr' Ha'. unfold userTracked, map_index in *. rewrite Hc', Hr', Ha'. auto.
Qed.

Lemma collectUsers_tracked node l input input' :
  snap_run (foldE (collectUser node) input l) = inr input' → NoDup (GetName <$> (Users input ++ l)) → usersFresh input →
  Forall (userTracked (GetNamespace node) input') l ∧ ExternalCreds input' = ExternalCreds input ∧
  (∀ u, u ∈ Users input → u ∈ Users input') ∧
  (∀ n, n ∉ GetName <$> l → UserCreds input' !! n = UserCreds input !! n ∧
     UserNodeRestrictions input' !! n = UserNodeRestrictions input !! n ∧ UserNodeAllowlist input' !! n = UserNodeAllowlist input !! n).
Proof.
  revert input. induction l as [|u l IH]; intros input; cbn [foldE]; [simpl; intros [= <-] _ _; by repeat constructor|].
  rewrite snap_run_bind. destruct (snap_run (collectUser node input u)) as [e|input1] eqn:Hu; [done|]. intros Hrun Hnd Hfresh.
  assert (GetName u ∉ GetName <$> Users input) as Hnew.
  { rewrite fmap_app, fmap_cons, NoDup_app in Hnd. destruct Hnd as (_ & Hd & _). intros Hin. apply (Hd _ Hin). left. }
  assert (GetName u ∉ GetName <$> l) as Hul.
  { rewrite fmap_app, fmap_cons in Hnd. apply NoDup_app in Hnd as (_ & _ & [? _]%NoDup_cons). done. }
  destruct (collectUser_tracked _ _ _ _ Hu Hnew Hfresh) as (Ht & Hus & He & Hframe).
  destruct (IH input1 Hrun) as (Hall & He' & Hsub & Hframe').
  { rewrite Hus, <- app_assoc. done. }
  { intros n Hn. rewrite Hus, fmap_app, not_elem_of_app in Hn. destruct Hn as [Hn1 Hn2].
    destruct (Hframe n) as (_ & -> & ->); [set_solver|]. by apply Hfresh. }
  split_and!.
  - constructor; [|done]. destruct (Hframe' _ Hul) as (? & ? & ?). by eapply userTracked_frame.
  - congruence.
  - intros v Hv. apply Hsub. rewrite Hus. set_solver.
  - intros n Hn. apply not_elem_of_cons in Hn as [? ?]. destruct (Hframe n) as (<- & <- & <-); auto.
Qed.

(** ** The external outbounds *)
Definition extTracked (input : Input) (e : ExternalOutbound) : Prop := map_index ∅ (ExternalCreds input) (GetName e) = snapExternal e.

(** The entries after the credentials of [e] were loaded. *)
Lemma snap_loadExternal e input :
  ∃ creds, snap_run (loadExternalCredential e input) = upd_externals input (ExternalOutbounds input) (ExternalOutboundsByName input) creds ∧
    (∀ n, n ≠ GetName e → creds !! n = ExternalCreds input !! n) ∧
    (creds = ExternalCreds input ∧ snapExternal e = ∅ ∨ creds = <[GetName e := snapExternal e]> (ExternalCreds input)).
Proof.
  unfold loadExternalCredential, GetExternalCredentials, snapExternal, mbind, prog_mbind, do.
  destruct (es_CredentialsSecretRef (eob_spec e)) as [ref|]; cbn [prog_bind snap_run].
  - destruct (snap (Get KSecret _)) as [err|secret]; cbn [prog_bind snap_run].
    + exists (ExternalCreds input). split_and!; [by destruct input|done|by left].
    + eexists. split; [done|]. split; [intros; by rewrite lookup_insert_ne|by right].
  - eexists. split; [done|]. split; [intros; by rewrite lookup_insert_ne|by right].
Qed.

Lemma collectExternals_tracked node names l input :
  NoDup (GetName <$> l) → (∀ e, e ∈ l → ExternalCreds input !! GetName e = None) →
  let input' := snap_run (foldM (collectExternal node names) input l) in
  (∀ e, e ∈ l → GetName e ∉ names → externalReachable node e = true → extTracked input' e) ∧
  (∀ n, n ∉ GetName <$> l → ExternalCreds input' !! n = ExternalCreds input !! n) ∧ userFields input' = userFields input.
Proof.
  rewrite snap_run_foldM. revert input. induction l as [|e l IH]; intros input Hnd Hnone; simpl; [split_and!; set_solver|].
  simpl in Hnd. apply NoDup_cons in Hnd as [He Hnd].
  set (input1 := snap_run (collectExternal node names input e)).
  assert (userFields input1 = userFields input ∧ (∀ n, n ≠ GetName e → ExternalCreds input1 !! n = ExternalCreds input !! n) ∧
    (GetName e ∉ names → externalReachable node e = true → extTracked input1 e)) as (Huf & Hframe & Htr).
  { unfold input1. rewrite collectExternal_eligible. destruct (bool_decide (GetName e ∉ names) && externalReachable node e) eqn:Hel.
    - match goal with |- context [loadExternalCredential e ?i] => destruct (snap_loadExternal e i) as (creds & -> & Hne & Hc) end.
      split_and!; [done|apply Hne|]. intros _ _. unfold extTracked, map_index. simpl. simpl in Hc.
      destruct Hc as [[-> ->]| ->]; [by rewrite Hnone by left|by rewrite lookup_insert_eq].
    - split_and!; [done..|]. intros Hn Hreach. by rewrite bool_decide_eq_true_2, Hreach in Hel. }
  destruct (IH input1 Hnd) as (Hall & Hfr & Hufs).
  { intros e' He'. rewrite Hframe; [apply Hnone; by right|]. intros Heq. apply He. rewrite <- Heq. by apply list_elem_of_fmap_2. }
  split_and!.
  - intros e' [->|He']%elem_of_cons Hn Hreach; [|by apply Hall]. unfold extTracked, map_index. rewrite Hfr by done. by apply Htr.
  - intros n [? ?]%not_elem_of_cons. rewrite Hfr, Hframe; done.
  - congruence.
Qed.

(** ** The whole of collectInput *)
Lemma snap_loadNode name ns input :
  ∃ creds, snap_run (loadNodeCredential name ns input) = upd_nodes input (OutboundNodes input) (OutboundNodesByName input) creds.
Proof.
  unfold loadNodeCredential, GetNodeCredential, mbind, prog_mbind, do. cbn [prog_bind snap_run].
  destruct (snap (Get KSecret _)); cbn [prog_bind snap_run]; [|by eexists]. exists (NodeCreds input). by destruct input.
Qed.

Lemma collectPolicy_tracked `{GoStd, LabelSelectors} node nodes exts input p :
  NoDup (GetName <$> exts) →
  let input' := snap_run (collectPolicy node nodes exts input p) in
  userFields input' = userFields input ∧ ∀ e, e ∈ exts → extTracked input e → extTracked input' e.
Proof.
  intros Hnd. cbv zeta. unfold collectPolicy. destruct (_ || _); [done|]. destruct (resolveEgressPolicy p nodes exts) as [[names egress] msg].
  repeat (case_match; [by simpl|]). case_match.
  - match goal with |- context [loadNodeCredential ?a ?b ?i] => destruct (snap_loadNode a b i) as [creds ->] end. done.
  - destruct (findExternalOutbound exts egress) as [e'|] eqn:He'; [|done]. apply findExternalOutbound_Some in He' as [Hin _].
    match goal with |- context [loadExternalCredential e' ?i] => destruct (snap_loadExternal e' i) as (creds & -> & Hne & Hc) end.
    split; [done|]. intros e He Htr. unfold extTracked, map_index in *. simpl in *.
    destruct (decide (GetName e = GetName e')) as [Heq|]; [|by rewrite Hne].
    destruct Hc as [[-> _]| ->]; [done|]. rewrite Heq, lookup_insert_eq. simpl. f_equal.
    symmetry. by apply (named_unique exts).
Qed.

(** A successful collectInput describes every user of the namespace, and every
    reachable external outbound that no node shadows, as the snapshot does. *)
Lemma collectInput_tracked `{GoStd, LabelSelectors} r node input :
  (∀ k ns l, snap (List k (InNamespace ns)) = inr l → NoDup (obj_name k <$> l)) →
  snap_run (collectInput r node) = inr input →
  ∃ nodes exts, snap (List KSingBoxNode (InNamespace (GetNamespace node))) = inr nodes ∧
    snap (List KExternalOutbound (InNamespace (GetNamespace node))) = inr exts ∧
    (∀ e, e ∈ exts → GetName e ∉ GetName node :: (GetName <$> (nodes : list SingBoxNode)) → externalReachable node e = true → extTracked input e) ∧
    (hasRole node ProxyRoleInbound = true → ∃ users, snap (List KUser (InNamespace (GetNamespace node))) = inr users ∧
       Forall (userTracked (GetNamespace node) input) users).
Proof.
  intros Huniq. unfold collectInput, mbind, prog_mbind, do. cbn [prog_bind snap_run].
  destruct (snap (List KSingBoxNode _)) as [|nodes] eqn:Hnodes; [done|]. rewrite snap_run_bind. cbn [snap_run].
  destruct (snap (List KExternalOutbound _)) as [|exts] eqn:Hexts; [done|]. rewrite snap_run_bind.
  set (sorted := sort_by (less_on GetName) exts). set (names := list_to_set _ : gset string).
  set (input1 := snap_run (foldM (collectPeer node) _ _)).
  assert (userFields input1 = userFields (emptyInput r node) ∧ ExternalCreds input1 = ∅) as [Huf1 Hec1].
  { unfold input1. rewrite snap_run_foldM. apply foldl_inv; [done|]. intros i n _ [Hu He]. rewrite collectPeer_eligible.
    case_match; [|done]. match goal with |- context [loadNodeCredential ?a ?b ?c] => destruct (snap_loadNode a b c) as [creds ->] end. done. }
  assert (NoDup (GetName <$> sorted)) as Hnd by (unfold sorted; rewrite sort_by_perm; by apply Huniq in Hexts).
  destruct (collectExternals_tracked node names sorted input1 Hnd) as (Hext & _ & Huf2).
  { intros e _. by rewrite Hec1. }
  set (input2 := snap_run (foldM (collectExternal node names) input1 sorted)) in *. rewrite snap_run_bind.
  match goal with |- context [snap_run (if hasRole node ProxyRoleInbound then ?p else _)] => set (up := p) end.
  assert (∀ input3, snap_run (if hasRole node ProxyRoleInbound then up else Ret (inr input2)) = inr input3 →
    ExternalCreds input3 = ExternalCreds input2 ∧
    (hasRole node ProxyRoleInbound = true → ∃ users, snap (List KUser (InNamespace (GetNamespace node))) = inr users ∧
       Forall (userTracked (GetNamespace node) input3) users)) as Husers.
  { intros input3. destruct (hasRole node ProxyRoleInbound); [|by intros [= <-]]. unfold up. cbn [snap_run].
    destruct (snap (List KUser _)) as [|users] eqn:Hus; [done|]. intros Hrun.
    assert (Users input2 = [] ∧ UserNodeRestrictions input2 = ∅ ∧ UserNodeAllowlist input2 = ∅) as (Hu0 & Hr0 & Ha0).
    { rewrite Huf1 in Huf2. by injection Huf2. }
    apply (collectUsers_tracked _ _ input2) in Hrun as (Hall & He & _).
    - split; [done|]. intros _. exists users. split; [done|]. by rewrite sort_by_perm in Hall.
    - rewrite Hu0. simpl. rewrite sort_by_perm. by apply Huniq in Hus.
    - intros n _. by rewrite Hr0, Ha0. }
  destruct (snap_run (if hasRole node ProxyRoleInbound then up else _)) as [|input3] eqn:Hrun; [done|].
  destruct (Husers input3 eq_refl) as [Hec3 Hu3]. cbn [snap_run].
  destruct (snap (List KEgressPolicy _)) as [|policies]; [done|]. rewrite snap_run_bind, snap_run_foldM.
  match goal with |- context [foldl ?f input3 policies] => set (input4 := foldl f input3 policies) end.
  assert (userFields input4 = userFields input3 ∧ ∀ e, e ∈ sorted → extTracked input3 e → extTracked input4 e) as [Huf4 Hext4].
  { unfold input4. apply (foldl_inv (λ i, userFields i = userFields input3 ∧ ∀ e, e ∈ sorted → extTracked input3 e → extTracked i e)); [done|].
    intros i p _ [Hu He]. destruct (collectPolicy_tracked node (sort_by (less_on GetName) nodes) sorted i p Hnd) as [Hu' He'].
    split; [by etrans|]. intros e He1 He2. by apply He', He. }
  intros Hin. assert (userFields input = userFields input4 ∧ ExternalCreds input = ExternalCreds input4) as [Huf Hec].
  { destruct (hasRole node ProxyRoleOutbound); [|by injection Hin as <-]. rewrite snap_run_bind in Hin.
    match goal with H : context [loadNodeCredential ?a ?b ?i] |- _ => destruct (snap_loadNode a b i) as [creds Heq]; rewrite Heq in H end.
    by injection Hin as <-. }
  exists nodes, exts. split_and!; [done..| |].
  - intros e He Hn Hreach. unfold extTracked. rewrite Hec. apply Hext4; [by apply elem_of_sort_by|].
    unfold extTracked. rewrite Hec3. apply Hext; [by apply elem_of_sort_by| |done].
    unfold names. rewrite elem_of_list_to_set. by rewrite sort_by_perm.
  - intros Hrole. destruct (Hu3 Hrole) as (users & Hus & Hall). exists users. split; [done|]. eapply Forall_impl; [done|].
    intros u Hu. rewrite Huf4 in Huf. injection Huf as H1 H2 H3 H4.
    eapply userTracked_frame; [done|..]; congruence.
Qed.
End run.
