(* ===== verification/EndToEnd.v ===== *)
(** * EndToEnd: what a user downloads is what the nodes serve

    The endpoint's configuration and the configuration that the node reconciler
    deploys are computed by different components from different reads.  When
    both read the same cluster, in whatever order each of them lists it, every
    proxy outbound of the downloaded configuration is accepted, routed and defined by the configuration of its
    inbound node. *)

From S2P Require Import Prelude GoStrings Crypto Json JsonParse Api Engine EngineFacts Samples K8s CredManager NodeController NodeProps SampleCluster ClientConfig SampleClient ClientProps ClientTargets ClientSelectors ClientServed Template Handler HandlerProps Snapshot.

(** The cluster as the snapshot holds it: the API server's guarantees (unique
    names, objects in the namespace they are listed in), no external outbound
    named like a node, and complete external credentials. *)
Record PlainCluster (snap : snapshot) (ns : string) : Prop := {
  pc_unique : ∀ k ns l, snap (List k (InNamespace ns)) = inr l → NoDup (obj_name k <$> l);
  pc_namespace : ∀ l n, snap (List KSingBoxNode (InNamespace ns)) = inr l → n ∈ l → GetNamespace n = ns;
  pc_disjoint : ∀ nodes exts e, snap (List KSingBoxNode (InNamespace ns)) = inr nodes →
    snap (List KExternalOutbound (InNamespace ns)) = inr exts → e ∈ exts → GetName e ∉ GetName <$> (nodes : list SingBoxNode);
  pc_external : ∀ exts e, snap (List KExternalOutbound (InNamespace ns)) = inr exts → e ∈ exts →
    hasRequiredExternalCreds e (snapExternal snap e) = true;
}.

(** The listings of two snapshots of the same objects. *)
Lemma reordered_list snap snap' k opt l : reordered snap snap' → snap (List k opt) = inr l → ∃ l', snap' (List k opt) = inr l' ∧ l ≡ₚ l'.
Proof. intros Hre Hl. specialize (Hre (List k opt)). cbn in Hre. rewrite Hl in Hre. destruct (snap' (List k opt)) as [|l']; [done|]. by exists l'. Qed.

Lemma reordered_get snap snap' k key : reordered snap snap' → snap (Get k key) = snap' (Get k key).
Proof. intros Hre. exact (Hre (Get k key)). Qed.

Lemma reordered_external snap snap' e : reordered snap snap' → snapExternal snap e = snapExternal snap' e.
Proof. intros Hre. unfold snapExternal. destruct (es_CredentialsSecretRef (eob_spec e)); [|done]. by rewrite (reordered_get snap snap') by done. Qed.

Lemma reordered_groups snap snap' ns user : reordered snap snap' → snapGroups snap ns user = snapGroups snap' ns user.
Proof. intros Hre. unfold snapGroups, snapGroup. case_bool_decide; [done|]. by rewrite (reordered_get snap snap') by done. Qed.

Lemma reordered_sym snap snap' : reordered snap snap' → reordered snap' snap.
Proof. intros Hre c. symmetry. apply Hre. Qed.

Lemma reordered_plain snap snap' ns : reordered snap' snap → PlainCluster snap ns → PlainCluster snap' ns.
Proof.
  intros Hre [Hu Hn Hd He]. split.
  - intros k ns' l Hl. destruct (reordered_list snap' snap k _ l Hre Hl) as (l' & Hl' & ->). by eapply Hu.
  - intros l n Hl Hin. destruct (reordered_list snap' snap _ _ l Hre Hl) as (l' & Hl' & Hp). eapply Hn; [done|]. by rewrite <- Hp.
  - intros nodes exts e Hnodes Hexts Hin. destruct (reordered_list snap' snap _ _ nodes Hre Hnodes) as (nodes' & Hn' & Hpn).
    destruct (reordered_list snap' snap _ _ exts Hre Hexts) as (exts' & He' & Hpe). rewrite Hpn. eapply Hd; [done..|]. by rewrite <- Hpe.
  - intros exts e Hexts Hin. destruct (reordered_list snap' snap _ _ exts Hre Hexts) as (exts' & He' & Hpe).
    rewrite (reordered_external snap' snap) by done. eapply He; [done|]. by rewrite <- Hpe.
Qed.

Lemma byName_Some {A} `{HasMeta A} (l : list A) k x : byName l !! k = Some x → GetName x = k ∧ x ∈ l.
Proof. intros [?|Hk]%(index_by_name_Some ∅ l k x); [done|]. by rewrite lookup_empty in Hk. Qed.

Lemma found_by_name {A} `{HasMeta A} (l : list A) x :
  NoDup (GetName <$> l) → x ∈ l → snd <$> list_find (λ y, GetName y = GetName x) l = Some x.
Proof.
  intros Hnd Hx. destruct (list_find (λ y, GetName y = GetName x) l) as [[i y]|] eqn:Hf.
  - apply list_find_Some in Hf as (Hi & Hy & _). simpl. f_equal. apply (named_unique l); [done|by eapply list_elem_of_lookup_2|done..].
  - apply list_find_None in Hf. eapply Forall_forall in Hf; done.
Qed.

#[export] Instance clientInput_keyed `{MapRange, GoStd, LabelSelectors} user cred nodes exts policies groups :
  KeyedInput (clientInput user cred nodes exts policies groups).
Proof. split; intros k x Hk; by apply byName_Some in Hk as [? _]. Qed.

(** A name that no node has is not taken in the collected input. *)
Lemma fresh_no_collision `{GoStd, LabelSelectors} node tr input nodes name :
  collected node tr input → (∀ l, Ev (List KSingBoxNode (InNamespace (GetNamespace node))) (inr l) ∈ tr → l = nodes) →
  name ∉ GetName node :: (GetName <$> nodes) → externalNameCollidesWithNode input name = false.
Proof.
  intros (nodes' & exts & (l & Hl & Hperm) & _ & Hnd & _ & Hnode & _ & Hpeers & _ & [_ _ Hi _ _] & _) Hread Hfresh.
  apply Hread in Hl as ->. apply not_elem_of_cons in Hfresh as [Hself Hfresh].
  unfold externalNameCollidesWithNode. rewrite Hnode, bool_decide_eq_false_2 by done.
  assert (OutboundNodesByName input !! name = None) as ->.
  { destruct (OutboundNodesByName input !! name) as [n|] eqn:Hn; [|done]. apply Hi in Hn as (<- & Hin & _). exfalso. apply Hfresh.
    rewrite <- Hperm. by apply list_elem_of_fmap_2. }
  rewrite bool_decide_eq_false_2 by (by intros []). simpl. apply not_true_iff_false. rewrite existsb_exists. intros (n & Hin & Heq).
  bool_prop. apply list_elem_of_In in Hin. rewrite Hpeers in Hin. apply list_elem_of_filter in Hin as [_ Hin].
  apply Hfresh. rewrite <- Heq, <- Hperm. by apply list_elem_of_fmap_2.
Qed.

(** [snap] is what the reconciler reads; the endpoint listed the same objects in its own order. *)
Section same_cluster.
Context `{MapRange, GoStd, LabelSelectors} (snap : snapshot) (ns : string) (Hpc : PlainCluster snap ns).
Context (nodes nodes0 : list SingBoxNode) (exts exts0 : list ExternalOutbound) (policies : list EgressPolicy) (users : list User).
Context (Hnodes : snap (List KSingBoxNode (InNamespace ns)) = inr nodes0) (Hpn0 : nodes ≡ₚ nodes0).
Context (Hexts : snap (List KExternalOutbound (InNamespace ns)) = inr exts0) (Hpe0 : exts ≡ₚ exts0).
Context (Husers : snap (List KUser (InNamespace ns)) = inr users).
Context (user : User) (secret : Secret) (Huser : user ∈ users) (Hsecret : snap (Get KSecret (authKey user)) = inr secret).

Lemma nodes_unique : NoDup (GetName <$> nodes).
Proof. rewrite Hpn0. exact (pc_unique _ _ Hpc KSingBoxNode ns nodes0 Hnodes). Qed.

Lemma snapshot_served inbound tr r input :
  inbound ∈ nodes → hasRole inbound ProxyRoleInbound = true → Forall (exactly snap) tr →
  snap_run snap (collectInput r inbound) = inr input → collected inbound tr input →
  ServedBy (clientInput user {| uc_UUID := secretUUID secret |} nodes exts policies (snapGroups snap ns user)) input.
Proof.
  intros Hin Hrole Hagree Hrun Hcol. pose proof nodes_unique as Hnd.
  assert (GetNamespace inbound = ns) as Hns by (eapply pc_namespace; [done..|by rewrite <- Hpn0]).
  assert (∀ c a, Ev c a ∈ tr → a = snap c) as Htr by (intros c a He; exact (proj1 (Forall_forall _ _) Hagree _ He)).
  pose proof (collected_externals_NoDup _ _ _ Hcol) as Hextnd.
  pose proof (λ name, fresh_no_collision inbound tr input nodes0 name Hcol) as Hfresh.
  destruct (collectInput_tracked snap r inbound input) as (nodes' & exts' & Hn' & He' & Hext & Hus); [apply Hpc|done|].
  rewrite Hns in *. rewrite Hnodes in Hn'. rewrite Hexts in He'. injection Hn' as <-. injection He' as <-.
  destruct (Hus Hrole) as (users' & Hu' & Htracked). rewrite Husers in Hu'. injection Hu' as <-.
  rewrite Forall_forall in Htracked. destruct (Htracked _ Huser) as (Hmem & Hcred & Hallow & Hdeny).
  destruct Hcol as (nodesC & extsC & (ln & Hln & Hpn) & (le & Hle & Hpe) & HndC & _ & Hnode & _ & Hpeers & HextsC & _ & _).
  rewrite Hns in Hln, Hle. apply Htr in Hln, Hle. rewrite Hnodes in Hln. rewrite Hexts in Hle. injection Hln as ->. injection Hle as ->.
  rewrite <- Hpn0 in Hpn. rewrite <- Hpe0 in Hpe.
  split; simpl; rewrite ?Hnode.
  - apply found_by_name; [by apply NoDup_names_filter|by apply list_elem_of_filter].
  - done.
  - done.
  - unfold map_index. by rewrite (Hcred _ Hsecret).
  - done.
  - done.
  - done.
  - intros n [Hname Hn]%byName_Some. apply list_elem_of_filter in Hn as [Hout Hn].
    by rewrite <- (named_unique nodes n inbound Hnd Hn Hin Hname).
  - intros n [_ [Hout Hn]%list_elem_of_filter]%byName_Some Hne Hreg Hai Hao. rewrite Hpeers. apply list_elem_of_filter.
    split; [|by rewrite Hpn]. unfold peerEligible. rewrite Hout, Hai, Hao, Hreg. by rewrite bool_decide_eq_false_2, bool_decide_eq_true_2.
  - done.
  - intros e [_ He]%byName_Some _ Hne Hreg Hai Hao.
    assert (externalReachable inbound e = true) as Hreach.
    { unfold externalReachable. rewrite Hai, Hao. by rewrite bool_decide_eq_false_2, bool_decide_eq_true_2. }
    assert (e ∈ exts0) as He0 by (by rewrite <- Hpe0).
    assert (GetName e ∉ GetName inbound :: (GetName <$> nodes0)) as Hfr.
    { pose proof (pc_disjoint _ _ Hpc _ _ _ Hnodes Hexts He0) as Hd. apply not_elem_of_cons. split; [|done].
      intros Heq. apply Hd, list_elem_of_fmap. exists inbound. split; [done|]. by rewrite <- Hpn0. }
    split.
    + rewrite HextsC. apply list_elem_of_fmap_2, list_elem_of_filter. split; [|by rewrite Hpe].
      rewrite Hreach, bool_decide_eq_true_2; [done|]. by rewrite elem_of_list_to_set, Hpn, Hpn0.
    + split; [apply Hfresh; [|done]|].
      * intros l Hl. apply Htr in Hl. rewrite Hnodes in Hl. by injection Hl.
      * unfold extTracked in Hext. rewrite Hext by done. by eapply pc_external.
Qed.
End same_cluster.

Lemma groupRead_snap snap tr ns user groups :
  (∀ k key a, Ev (Get k key) a ∈ tr → a = snap (Get k key)) → groupRead tr ns user groups → groups = snapGroups snap ns user.
Proof.
  intros Htr. unfold groupRead, snapGroups, snapGroup. case_bool_decide; [done|]. intros (r & Hr & Hg). apply Htr in Hr as ->.
  by destruct (snap _) as [err|ug]; [destruct Hg as [_ ->]|].
Qed.

(** The server that answers from a snapshot. *)
Definition snap_server (snap : snapshot) : server := {| srv_state := unit; srv_step s c := (snap c, s) |}.

Lemma snap_server_exactly snap {A} (p : prog A) : Forall (exactly snap) (trace (snap_server snap) tt p).
Proof.
  unfold trace. induction p as [a|c f IH]; simpl; [constructor|]. specialize (IH (snap c)).
  destruct (exec (snap_server snap) tt (f (snap c))) as [[tr a] s]. by constructor.
Qed.

(** What collectInput returns from a snapshot is a collected input. *)
Lemma snapshot_collected `{GoStd, LabelSelectors} snap ns r inbound input :
  PlainCluster snap ns → snap_run snap (collectInput r inbound) = inr input →
  collected inbound (trace (snap_server snap) tt (collectInput r inbound)) input.
Proof.
  intros Hpc Hrun. pose proof (snap_server_exactly snap (collectInput r inbound)) as Hag.
  assert (Forall uniqueNames (trace (snap_server snap) tt (collectInput r inbound))) as Huniq.
  { eapply Forall_impl; [done|]. intros [c a] Ha. unfold exactly in Ha. simpl in *. destruct c as [|k [| |]| | | | | | | | | | |]; try done.
    destruct a as [|l]; [done|]. by eapply pc_unique. }
  pose proof (wp_exec _ _ _ (snap_server snap) tt _ (wp_collectInput r inbound []) Huniq) as Hc.
  rewrite (snap_result snap _ _ _ Hag), Hrun in Hc. done.
Qed.

Lemma exactly_agrees snap tr : Forall (exactly snap) tr → Forall (agrees snap) tr.
Proof. intros Htr. eapply Forall_impl; [exact Htr|]. intros e He. unfold agrees. rewrite He. reflexivity. Qed.

Lemma download_served `{MapRange, GoStd, LabelSelectors} snap sv s0 srv path ns uuid body :
  requestParts path = Some (ns, uuid) → PlainCluster snap ns →
  Forall (agrees snap) (trace sv s0 (handleClientConfig srv path)) →
  result sv s0 (handleClientConfig srv path) = okResponse body →
  ∃ user secret cc out t,
    snap (Get KSecret (authKey user)) = inr secret ∧ strings_EqualFold (secretUUID secret) uuid = true ∧
    cc_User cc = user ∧ BuildClientConfig cc = inr out ∧ MergeClientConfig t out cc = inr body ∧
    ∀ j, j ∈ out → isProxy j → ∃ nodes inbound target, snap (List KSingBoxNode (InNamespace ns)) = inr nodes ∧ inbound ∈ nodes ∧
      hasRole inbound ProxyRoleInbound = true ∧
      ∀ r snap' input, reordered snap' snap → snap_run snap' (collectInput r inbound) = inr input →
        Published inbound → selfAllowed inbound → Serves input user target j.
Proof.
  intros Hparts Hpc Hagree Hres. pose proof (wp_run _ _ sv s0 (wp_handleClientConfig srv path)) as Hout.
  rewrite Hres in Hout. set (tr := trace sv s0 _) in *.
  assert (∀ c a, Ev c a ∈ tr → alike c a (snap c)) as Htr by (intros c a He; exact (proj1 (Forall_forall _ _) Hagree _ He)).
  assert (∀ k key a, Ev (Get k key) a ∈ tr → a = snap (Get k key)) as Hget by (intros k key a He; exact (Htr _ _ He)).
  assert (∀ k opt l, Ev (List k opt) (inr l) ∈ tr → ∃ l', snap (List k opt) = inr l' ∧ l ≡ₚ l') as Hlist.
  { intros k opt l He. specialize (Htr _ _ He). cbn in Htr. destruct (snap (List k opt)) as [|l']; [done|]. by exists l'. }
  destruct (ok_outcome srv path ns uuid tr body Hparts Hout)
    as (users & user & cred & cc & out & t & Hus & (pre & post & -> & _ & (secret & Hsec & -> & Heq)) & Hin & Hb & _ & Hmerge).
  destruct Hin as (nodes & exts & policies & groups & Hn & He & _ & Hg & Hcc).
  apply Hget in Hsec. symmetry in Hsec. apply (groupRead_snap snap) in Hg as ->; [|done].
  destruct (Hlist _ _ _ Hus) as (users1 & Hus1 & Hpu), (Hlist _ _ _ Hn) as (nodes1 & Hn1 & Hpn), (Hlist _ _ _ He) as (exts1 & He1 & Hpe).
  exists user, secret, cc, out, t. split_and!; [by subst..|]. subst cc. intros j Hj Hproxy.
  destruct (client_outbound_served _ _ _ (clientInput_keyed _ _ _ _ _ _) Hb Hj Hproxy) as (inbound & target & Hib & Hserve).
  apply list_elem_of_filter in Hib as [Hrole Hib].
  exists nodes1, inbound, target. split_and!; [done|by rewrite <- Hpn|done|]. intros r snap' input Hre Hrun Hpub Hself.
  pose proof (reordered_plain snap snap' ns Hre Hpc) as Hpc'. pose proof (reordered_sym _ _ Hre) as Hre'.
  pose proof (snapshot_collected snap' ns r inbound input Hpc' Hrun) as Hcollected.
  apply Hserve; [by destruct Hcollected as (? & ? & _ & _ & _ & _ & ? & _)| |done|by eapply collected_routable|done].
  rewrite (reordered_groups snap snap') by done.
  destruct (reordered_list _ _ _ _ _ Hre' Hn1) as (nodes2 & Hn2 & Hpn2), (reordered_list _ _ _ _ _ Hre' He1) as (exts2 & He2 & Hpe2),
    (reordered_list _ _ _ _ _ Hre' Hus1) as (users2 & Hus2 & Hpu2).
  eapply (snapshot_served snap' ns Hpc' nodes nodes2 exts exts2 policies users2) with (tr := trace (snap_server snap') tt (collectInput r inbound)); try done.
  - by etrans.
  - by etrans.
  - rewrite <- Hpu2, <- Hpu. set_solver.
  - by rewrite <- (reordered_get snap snap').
  - apply snap_server_exactly.
Qed.

(** C3. End to end: let the endpoint and the reconcilers read one cluster, each
    listing its objects in an order of its own, in which names are unique, no
    external outbound is named like a node, and every external outbound has the
    credentials its protocol needs.  When the endpoint answers a request with a
    configuration, it is the merge of the outbounds built for a user whose Secret
    holds the requested UUID, and every proxy outbound in it belongs to an inbound
    node of the namespace and an exit target such that, provided the node's status
    publishes the endpoints of its spec, its address and its protocol names have no
    colon, its ports are 32-bit numbers, it has a port for its protocol, and it may
    use itself when it has both roles, the
    configuration which the reconciler of that node computes listens on the
    outbound's address and port with the same protocol and TLS, accepts its
    credentials as this user, routes this identity to the target and defines the
    target's outbound. *)
Theorem downloaded_config_served `{MapRange, GoStd, LabelSelectors} snap sv s0 srv path ns uuid body :
  requestParts path = Some (ns, uuid) → PlainCluster snap ns →
  Forall (agrees snap) (trace sv s0 (handleClientConfig srv path)) →
  result sv s0 (handleClientConfig srv path) = okResponse body →
  ∃ user secret cc out t,
    snap (Get KSecret (authKey user)) = inr secret ∧ strings_EqualFold (secretUUID secret) uuid = true ∧
    cc_User cc = user ∧ BuildClientConfig cc = inr out ∧ MergeClientConfig t out cc = inr body ∧
    ∀ j, j ∈ out → isProxy j → ∃ nodes inbound target, snap (List KSingBoxNode (InNamespace ns)) = inr nodes ∧ inbound ∈ nodes ∧
      hasRole inbound ProxyRoleInbound = true ∧
      ∀ r snap' sv' s' input, reordered snap' snap →
        Forall (exactly snap') (trace sv' s' (collectInput r inbound)) → result sv' s' (collectInput r inbound) = inr input →
        Published inbound → selfAllowed inbound → Serves input user target j.
Proof.
  intros Hparts Hpc Hagree Hres.
  destruct (download_served snap sv s0 srv path ns uuid body Hparts Hpc Hagree Hres) as (user & secret & cc & out & t & ? & ? & ? & ? & ? & Hall).
  exists user, secret, cc, out, t. split_and!; [done..|]. intros j Hj Hproxy.
  destruct (Hall j Hj Hproxy) as (nodes & inbound & target & ? & ? & ? & Hserve).
  exists nodes, inbound, target. split_and!; [done..|]. intros r snap' sv' s' input Hre Hex Hcol. apply (Hserve r snap' input Hre).
  by rewrite <- (snap_result snap' _ sv' s').
Qed.

(** ** The sample cluster *)
Definition client_answer (c : call) : answer c :=
  match c with
  | List k (InNamespace _) =>
    match k with
    | KSingBoxNode => inr [client_entry; client_exit] | KUser => inr [mkUser "alice" ""] | KExternalOutbound => inr [client_ext]
    | KEgressPolicy => inr [mkPolicy "p1" EgressPolicyActionRoute 10 ["exit1"]] | _ => inr []
    end
  | c => sample_answer client_entry c
  end.

Definition client_server : server := snap_server client_answer.

Lemma client_cluster : PlainCluster client_answer "proxy".
Proof.
  split.
  - intros k ns l Hl. destruct k; simpl in Hl; injection Hl as <-; (apply (bool_decide_unpack (NoDup _)); by vm_compute).
  - intros l n [= <-] Hn. repeat (apply elem_of_cons in Hn as [->|Hn]; [done|]). by apply elem_of_nil in Hn.
  - intros nodes exts e [= <-] [= <-] ->%list_elem_of_singleton. apply (bool_decide_unpack (_ ∉ _)). by vm_compute.
  - by intros exts e [= <-] ->%list_elem_of_singleton.
Qed.

Definition client_path : string := "/api/v1/client-config/proxy/" +:+ sample_uuid.
Definition client_srv : Server := {| srv_BindAddress := ":8090"; srv_TemplateRef := "" |}.
Definition client_body : string := resp_Body (result client_server tt (handleClientConfig client_srv client_path)).

(** The policies, nodes, users and external outbounds listed backwards. *)
Definition client_answer_backwards : snapshot := λ c,
  match c as c return answer c with
  | List k opt => match client_answer (List k opt) with inr l => inr (reverse l) | inl e => inl e end
  | c => client_answer c
  end.

Lemma client_backwards : reordered client_answer_backwards client_answer.
Proof.
  intros c. destruct c as [|k opt| | | | | | | | | | |]; try reflexivity. unfold client_answer_backwards.
  destruct (client_answer (List k opt)) as [e|l]; [reflexivity|]. apply reverse_Permutation.
Qed.

(** What the reconciler of the inbound node collects from them. *)
Definition client_collected : Input :=
  match result (snap_server client_answer_backwards) tt (collectInput sample_reconciler client_entry) with
  | inr i => i
  | inl _ => emptyInput sample_reconciler client_entry
  end.

(** The tags of the outbounds that alice downloads and entry1 serves. *)
Lemma downloaded_config_served_witness :
  ∃ user secret cc out t,
    client_answer (Get KSecret (authKey user)) = inr secret ∧ strings_EqualFold (secretUUID secret) sample_uuid = true ∧
    cc_User cc = user ∧ BuildClientConfig cc = inr out ∧ MergeClientConfig t out cc = inr client_body ∧
    ∀ j, j ∈ out → isProxy j → ∃ target, Serves client_collected user target j.
Proof.
  destruct (downloaded_config_served client_answer client_server tt client_srv client_path "proxy" sample_uuid client_body)
    as (user & secret & cc & out & t & Hsec & Heq & Hcc & Hb & Hm & Hall);
    [vm_compute; reflexivity|exact client_cluster|apply exactly_agrees, snap_server_exactly|vm_compute; reflexivity|].
  exists user, secret, cc, out, t. split_and!; [assumption..|]. intros j Hj Hproxy.
  destruct (Hall j Hj Hproxy) as (nodes & inbound & target & Hnodes & Hin & Hrole & Hserve). exists target.
  assert (inbound = client_entry) as ->.
  { injection Hnodes as <-. apply elem_of_cons in Hin as [->|Hin]; [done|]. apply list_elem_of_singleton in Hin as ->. by vm_compute in Hrole. }
  apply (Hserve sample_reconciler client_answer_backwards (snap_server client_answer_backwards) tt).
  - exact client_backwards.
  - apply snap_server_exactly.
  - vm_compute. reflexivity.
  - exact sample_entry_published.
  - by vm_compute.
Defined.

(** A request that is answered with a configuration merged into the built-in template, since the server has no template reference. *)
Lemma handleClientConfig_outcome_witness :
  requestOutcome {| srv_BindAddress := ":8090"; srv_TemplateRef := "" |} client_path
    (trace client_server tt (handleClientConfig client_srv client_path)) (okResponse client_body) ∧ client_body ≠ "".
Proof.
  split; [|by vm_compute]. replace (okResponse client_body) with (result client_server tt (handleClientConfig client_srv client_path)) by (vm_compute; reflexivity).
  exact (handleClientConfig_outcome client_server tt client_srv client_path).
Defined.
