(* ===== verification/Cluster.v ===== *)
(** * Cluster: the objects the API server holds

    A cluster maps every kind to its stored objects by key.  [reads c] is a
    snapshot that the manager's cached client answers from: Get by key, List by
    namespace, labels or one of the field indexes that cmd/main.go registers; the
    client may list the objects in any other order ([snapshot_of]).
    A [change] is one watch event.  The lemmas reduce equality of two listings to
    membership in the stored maps. *)

From S2P Require Import Prelude GoStrings Json Api Engine K8s CredManager NodeController NodeProps HandlerProps Snapshot.

(** ** Metadata of any object *)
Definition obj_meta (k : kind) : obj k → ObjectMeta :=
  match k with
  | KSingBoxNode => node_meta | KUser => user_meta | KUserGroup => ug_meta | KEgressPolicy => policy_meta
  | KExternalOutbound => eob_meta | KSecret => secret_meta | KConfigMap => cm_meta | KPod => pod_meta
  | KService => svc_meta | KNode => kn_meta
  end.

Definition obj_ns (k : kind) (o : obj k) : string := om_Namespace (obj_meta k o).
Definition obj_key (k : kind) (o : obj k) : NamespacedName :=
  {| nn_Namespace := obj_ns k o; nn_Name := obj_name k o |}.

(** ** The field indexes of cmd/main.go *)
Definition indexNodeRef (sbn : SingBoxNode) : list string :=
  if ns_NodeRef (node_spec sbn) ==? "" then [] else [ns_NodeRef (node_spec sbn)].

Definition indexUserGroupRef (user : User) : list string :=
  if us_UserGroupRef (user_spec user) ==? "" then [] else [us_UserGroupRef (user_spec user)].

Record fieldIndex := FieldIndex { fi_kind : kind; fi_field : string; fi_values : obj fi_kind → list string }.

Definition nodeRefIndex : fieldIndex := FieldIndex KSingBoxNode "spec.nodeRef" indexNodeRef.
Definition userGroupRefIndex : fieldIndex := FieldIndex KUser "spec.userGroupRef" indexUserGroupRef.

(** The indexes of the manager's cache after they were registered. *)
Definition fieldIndexes : list fieldIndex := [nodeRefIndex; userGroupRefIndex].

(** The values under which an object is indexed for a field; [None] when no index was registered. *)
Fixpoint indexValues (indexes : list fieldIndex) (k : kind) (field : string) : option (obj k → list string) :=
  match indexes with
  | [] => None
  | FieldIndex k' field' values :: indexes =>
    match decide (k' = k) with
    | left e => if field ==? field' then Some (eq_rect k' (λ k, obj k → list string) values k e) else indexValues indexes k field
    | right _ => indexValues indexes k field
    end
  end.

(** ** Clusters *)
Definition cluster : Type := ∀ k : kind, gmap NamespacedName (obj k).

(** Every object is stored under its own key. *)
Definition keyed (c : cluster) : Prop := ∀ k key o, c k !! key = Some o → obj_key k o = key.

Definition set_kind (c : cluster) (k : kind) (m : gmap NamespacedName (obj k)) : cluster :=
  λ k', match decide (k = k') with
        | left e => eq_rect k (λ k, gmap NamespacedName (obj k)) m k' e
        | right _ => c k'
        end.

Lemma set_kind_same c k m : set_kind c k m k = m.
Proof. unfold set_kind. destruct (decide (k = k)) as [e|]; [|done]. by rewrite (proof_irrel e eq_refl). Qed.

Lemma set_kind_ne c k m k' : k ≠ k' → set_kind c k m k' = c k'.
Proof. intros. unfold set_kind. by destruct (decide (k = k')). Qed.

(** ** Watch events *)
Inductive change :=
  | Created (k : kind) (o : obj k)
  | Updated (k : kind) (old new : obj k)
  | Deleted (k : kind) (o : obj k).

Definition ch_kind (ch : change) : kind := match ch with Created k _ | Updated k _ _ | Deleted k _ => k end.

(** The object of the event, the new one for an update. *)
Definition ch_obj (ch : change) : anyObj :=
  match ch with Created k o | Deleted k o => existT k o | Updated k _ new => existT k new end.

Definition ch_key (ch : change) : NamespacedName :=
  match ch with Created k o | Deleted k o => obj_key k o | Updated k _ new => obj_key k new end.

Definition apply_change (ch : change) (c : cluster) : cluster :=
  match ch with
  | Created k o | Updated k _ o => set_kind c k (<[obj_key k o := o]> (c k))
  | Deleted k o => set_kind c k (delete (obj_key k o) (c k))
  end.

(** The part of an object whose changes the API server counts in metadata.generation. *)
Definition same_spec (k : kind) : obj k → obj k → Prop :=
  match k with
  | KSingBoxNode => λ o n, node_spec o = node_spec n
  | KEgressPolicy => λ o n, policy_spec o = policy_spec n
  | KExternalOutbound => λ o n, eob_spec o = eob_spec n
  | _ => λ _ _, True
  end.

(** What a watch event says of the cluster it happened in: an update keeps the
    key, and a new spec comes with a new generation. *)
Definition genuine (c : cluster) (ch : change) : Prop :=
  match ch with
  | Created k o => c k !! obj_key k o = None
  | Updated k old new =>
    c k !! obj_key k new = Some old ∧ obj_key k old = obj_key k new ∧
    (om_Generation (obj_meta k old) = om_Generation (obj_meta k new) → same_spec k old new)
  | Deleted k o => c k !! obj_key k o = Some o
  end.

Lemma apply_change_keyed ch c : keyed c → keyed (apply_change ch c).
Proof.
  intros Hk k key o. destruct ch as [k1 o1|k1 o0 o1|k1 o1]; simpl; destruct (decide (k1 = k)) as [->|Hne];
    rewrite ?set_kind_same, ?set_kind_ne by done; try apply Hk.
  - intros [[<- <-]|[_ ?]]%lookup_insert_Some; [done|by apply Hk].
  - intros [[<- <-]|[_ ?]]%lookup_insert_Some; [done|by apply Hk].
  - intros [_ ?]%lookup_delete_Some. by apply Hk.
Qed.

(** Other kinds, and other keys, are untouched. *)
Lemma apply_change_kind ch c k : k ≠ ch_kind ch → apply_change ch c k = c k.
Proof. intros. by destruct ch; simpl in *; apply set_kind_ne. Qed.

Lemma apply_change_key ch c k key : key ≠ ch_key ch → apply_change ch c k !! key = c k !! key.
Proof.
  intros. destruct ch as [k1 o1|k1 o0 o1|k1 o1]; simpl in *; (destruct (decide (k1 = k)) as [->|Hne];
    [rewrite set_kind_same | by rewrite set_kind_ne]); by rewrite ?lookup_insert_ne, ?lookup_delete_ne.
Qed.

(** The objects of the event: what EnqueueRequestsFromMapFunc maps, the old object of an update first. *)
Definition ch_objs (ch : change) : list anyObj :=
  match ch with
  | Created k o | Deleted k o => [existT k o]
  | Updated k old new => [existT k old; existT k new]
  end.

(** An object that the event does not mention is stored before it iff it is stored after it. *)
Lemma apply_change_obj ch c k o :
  genuine c ch → existT k o ∉ ch_objs ch → c k !! obj_key k o = Some o ↔ apply_change ch c k !! obj_key k o = Some o.
Proof.
  intros Hg Hno. destruct (decide (ch_kind ch = k)) as [Hkind|]; [|by rewrite apply_change_kind].
  destruct (decide (obj_key k o = ch_key ch)) as [Hkey|]; [|by rewrite apply_change_key].
  destruct ch as [k1 o1|k1 old new|k1 o1]; simpl in *; subst k; rewrite set_kind_same, Hkey.
  - rewrite Hg, lookup_insert_eq. split; [done|]. intros [= ->]. set_solver.
  - destruct Hg as (-> & _ & _). rewrite lookup_insert_eq. split; intros [= ->]; set_solver.
  - rewrite Hg, lookup_delete_eq. split; [|done]. intros [= ->]. set_solver.
Qed.

(** A stored object whose key the event names is the event's old object. *)
Lemma stored_changed c ch k o :
  genuine c ch → ch_kind ch = k → ch_key ch = obj_key k o → c k !! obj_key k o = Some o → existT k o ∈ ch_objs ch.
Proof.
  intros Hg Hkind Hkey Ho. rewrite <- Hkey in Ho. destruct ch as [k1 o1|k1 old new|k1 o1]; simpl in *; subst k.
  - by rewrite Hg in Ho.
  - destruct Hg as (Hold & _). rewrite Hold in Ho. injection Ho as ->. left.
  - rewrite Hg in Ho. injection Ho as ->. left.
Qed.

(** ** Reading *)

(** apierrors.NewNotFound, as the cached client reports a missing object. *)
Class NotFoundErrors := {
  NotFoundError : kind → NamespacedName → error;
  NotFoundError_is : ∀ k key, IsNotFound (NotFoundError k key) = true;
}.

Definition selected (k : kind) (opt : listOption) (o : obj k) : bool :=
  match opt with
  | InNamespace ns => obj_ns k o ==? ns
  | MatchingFields field v =>
    match indexValues fieldIndexes k field with Some f => slices_Contains (f o) v | None => false end
  | InNamespaceMatchingLabels ns labels =>
    (obj_ns k o ==? ns) && bool_decide (map_Forall (λ l v, om_Labels (obj_meta k o) !! l = Some v) labels)
  end.

(** The objects that a listing returns, here by name.  In which order the client
    returns them is left open by [snapshot_of]. *)
Definition listing (k : kind) (opt : listOption) (m : gmap NamespacedName (obj k)) : list (obj k) :=
  sort_by (less_on (obj_name k)) (filter (λ o, selected k opt o = true) (map_to_list m).*2).

Definition reads `{NotFoundErrors} (c : cluster) : snapshot := λ call,
  match call with
  | Get k key => match c k !! key with Some o => inr o | None => inl (NotFoundError k key) end
  | List k opt => inr (listing k opt (c k))
  | Create _ _ | Update _ _ | StatusUpdate _ _ | Patch _ _ _ | Delete _ _ => None
  | CreateOrUpdate _ _ _ => inr ""
  | NowText _ => ""
  | RandRead _ => ([], None)
  | MetricInc _ _ | MetricSet _ _ _ | MetricObserveDuration _ _ => tt
  end.

(** A snapshot of the cluster: it answers as [reads] does, with listings in any order. *)
Definition snapshot_of `{NotFoundErrors} (c : cluster) (snap : snapshot) : Prop := reordered snap (reads c).

Lemma snapshot_of_reads `{NotFoundErrors} c : snapshot_of c (reads c).
Proof. intros call. reflexivity. Qed.

Lemma snapshot_get `{NotFoundErrors} c snap k key : snapshot_of c snap → snap (Get k key) = reads c (Get k key).
Proof. intros Hs. exact (Hs (Get k key)). Qed.

Lemma snapshot_list `{NotFoundErrors} c snap k opt : snapshot_of c snap → ∃ l, snap (List k opt) = inr l ∧ l ≡ₚ listing k opt (c k).
Proof.
  intros Hs. specialize (Hs (List k opt)). simpl in Hs. destruct (snap (List k opt)) as [e|l] eqn:Hl; [done|]. by exists l.
Qed.

Lemma reads_get `{NotFoundErrors} c k key o : c k !! key = Some o → reads c (Get k key) = inr o.
Proof. intros Ho. cbn [reads]. by rewrite Ho. Qed.

(** ** Listings as sets *)
Lemma elem_of_values {V} (m : gmap NamespacedName V) v : v ∈ (map_to_list m).*2 ↔ ∃ key, m !! key = Some v.
Proof.
  rewrite list_elem_of_fmap. split.
  - intros ([key v'] & -> & Hin%elem_of_map_to_list). eauto.
  - intros [key Hkey]. exists (key, v). by rewrite elem_of_map_to_list.
Qed.

Lemma elem_of_listing c k opt o :
  keyed c → o ∈ listing k opt (c k) ↔ selected k opt o = true ∧ c k !! obj_key k o = Some o.
Proof.
  intros Hk. unfold listing. rewrite elem_of_sort_by, list_elem_of_filter, elem_of_values.
  split; intros [Hs Ho]; (split; [done|]); [|eauto]. destruct Ho as [key Hkey]. by rewrite (Hk _ _ _ Hkey).
Qed.

Lemma values_keys_NoDup c k : keyed c → NoDup (obj_key k <$> (map_to_list (c k)).*2).
Proof.
  intros Hk. rewrite <- list_fmap_compose. replace ((obj_key k ∘ snd) <$> map_to_list (c k)) with ((map_to_list (c k)).*1).
  { apply NoDup_fst_map_to_list. }
  apply list_fmap_ext. intros i [key o] Hi%list_elem_of_lookup_2%elem_of_map_to_list. simpl. by rewrite (Hk _ _ _ Hi).
Qed.

(** Names are unique in the listing of a namespace. *)
Lemma listing_names_NoDup c k ns : keyed c → NoDup (obj_name k <$> listing k (InNamespace ns) (c k)).
Proof.
  intros Hk. unfold listing. rewrite sort_by_perm.
  pose proof (values_keys_NoDup c k Hk) as Hnd. induction ((map_to_list (c k)).*2) as [|o l IH]; [constructor|].
  apply NoDup_cons in Hnd as [Ho Hnd]. rewrite filter_cons. case_decide as Hs; [|by apply IH]. simpl. constructor; [|by apply IH].
  intros (o' & Hname & [Hs' Hin]%list_elem_of_filter)%list_elem_of_fmap. apply Ho. apply list_elem_of_fmap. exists o'. split; [|done].
  unfold obj_key. simpl in *. bool_prop. congruence.
Qed.

(** The listings of a namespace in any order have one sorted copy. *)
Lemma sort_listing c k ns (f : obj k → string) l :
  f = obj_name k → keyed c → l ≡ₚ listing k (InNamespace ns) (c k) →
  sort_by (less_on f) l = sort_by (less_on f) (listing k (InNamespace ns) (c k)).
Proof. intros -> Hk Hl. apply sort_on_ext; [done|]. rewrite Hl. by apply listing_names_NoDup. Qed.

(** A stable sort of distinct names commutes with a filter. *)
Lemma sort_by_filter {A} (f : A → string) (P : A → bool) l :
  NoDup (f <$> l) → filter (λ x, P x = true) (sort_by (less_on f) l) = sort_by (less_on f) (filter (λ x, P x = true) l).
Proof.
  intros Hnd. apply sort_by_unique; [apply _|by rewrite sort_by_perm| |].
  - pose proof (sort_by_sorted (less_on f) l) as Hs. induction Hs as [|x l' Hl IH Hx]; [constructor|].
    rewrite filter_cons. case_decide; [|done]. constructor; [done|]. apply Forall_forall. intros y [_ Hy]%list_elem_of_filter. rewrite Forall_forall in Hx. auto.
  - intros x y Hx Hy Hxy Hyx. apply list_elem_of_filter in Hx as [_ Hx], Hy as [_ Hy].
    assert (f x = f y) as Hf by (by apply str_less_tied).
    apply list_elem_of_lookup in Hx as [i Hi], Hy as [j Hj]. assert (i = j) as ->; [|congruence].
    apply (NoDup_lookup _ _ _ (f x) Hnd); rewrite list_lookup_fmap; [by rewrite Hi | by rewrite Hj, Hf].
Qed.

Lemma sort_by_fmap {A B} (g : A → B) (f : B → string) (f' : A → string) l :
  (∀ x, f (g x) = f' x) → sort_by (less_on f) (g <$> l) = g <$> sort_by (less_on f') l.
Proof.
  intros Hf. induction l as [|x l IH]; [done|]. unfold sort_by in *. cbn [fmap list_fmap foldr]. rewrite IH.
  generalize (foldr (sort_insert (less_on f')) [] l) as m. intros m. induction m as [|y m IHm]; [done|].
  cbn [fmap list_fmap sort_insert]. unfold less_on at 1 3. rewrite !Hf. destruct (str_less (f' y) (f' x)); [|done].
  cbn [fmap list_fmap]. by rewrite <- IHm.
Qed.

Lemma NoDup_fmap_filter {A B} (f : A → B) (P : A → Prop) `{∀ x, Decision (P x)} l : NoDup (f <$> l) → NoDup (f <$> filter P l).
Proof.
  induction l as [|x l IH]; [done|]. simpl. intros [Hx Hl]%NoDup_cons. rewrite filter_cons. case_decide; [|auto].
  simpl. constructor; [|auto]. intros (y & Hy & [_ ?]%list_elem_of_filter)%list_elem_of_fmap. apply Hx, list_elem_of_fmap. eauto.
Qed.

(** Two clusters list the same objects of interest when they store the same ones. *)
Lemma listing_filter_eq c c' k ns (P : obj k → bool) :
  keyed c → keyed c' →
  (∀ o, obj_ns k o = ns → P o = true → c k !! obj_key k o = Some o ↔ c' k !! obj_key k o = Some o) →
  filter (λ o, P o = true) (listing k (InNamespace ns) (c k)) = filter (λ o, P o = true) (listing k (InNamespace ns) (c' k)).
Proof.
  intros Hk Hk' Hsame.
  assert (∀ d : cluster, keyed d → NoDup (obj_name k <$> filter (λ o, selected k (InNamespace ns) o = true) (map_to_list (d k)).*2)) as Hnd.
  { intros d Hd. pose proof (listing_names_NoDup d k ns Hd) as H1. unfold listing in H1. by rewrite sort_by_perm in H1. }
  unfold listing. rewrite !sort_by_filter by auto. apply sort_on_ext; [|by apply NoDup_fmap_filter, Hnd].
  apply NoDup_Permutation; [by eapply NoDup_fmap_1, NoDup_fmap_filter, Hnd..|].
  intros o. rewrite !list_elem_of_filter, !elem_of_values.
  split; intros (HP & Hs & [key Hkey]); (split; [done|]); (split; [done|]); exists (obj_key k o);
    apply Hsame; simpl in Hs; bool_prop; try done; by rewrite ?(Hk _ _ _ Hkey), ?(Hk' _ _ _ Hkey).
Qed.

(** The same for the sorted copy that collectInput makes of a listing. *)
Lemma sorted_listing_filter_eq c c' k ns (f : obj k → string) (P : obj k → bool) :
  f = obj_name k → keyed c → keyed c' →
  (∀ o, obj_ns k o = ns → P o = true → c k !! obj_key k o = Some o ↔ c' k !! obj_key k o = Some o) →
  filter (λ o, P o = true) (sort_by (less_on f) (listing k (InNamespace ns) (c k)))
  = filter (λ o, P o = true) (sort_by (less_on f) (listing k (InNamespace ns) (c' k))).
Proof. intros -> Hk Hk' Hsame. rewrite !sort_by_filter by (by apply listing_names_NoDup). f_equal. by apply listing_filter_eq. Qed.

Lemma filter_all_true {A} (l : list A) : filter (λ _, true = true) l = l.
Proof. induction l as [|x l IH]; [done|]. rewrite filter_cons_True by done. by rewrite IH. Qed.

Lemma listing_eq c c' k ns :
  keyed c → keyed c' → (∀ o, obj_ns k o = ns → c k !! obj_key k o = Some o ↔ c' k !! obj_key k o = Some o) →
  listing k (InNamespace ns) (c k) = listing k (InNamespace ns) (c' k).
Proof.
  intros Hk Hk' Hsame. rewrite <- (filter_all_true (listing k _ (c k))), <- (filter_all_true (listing k _ (c' k))).
  apply (listing_filter_eq _ _ _ _ (λ _, true)); auto.
Qed.
