(* ===== verification/Watches.v ===== *)
(** * Watches: which requests a change of the cluster enqueues

    The SetupWithManager functions of the five controllers as lists of watches,
    with the predicate that filters each one and the handler that maps an event
    to reconcile requests, and controller/node_health.go's predicate.  The
    predicates and handlers of controller-runtime are parameters with the
    behaviour their documentation states. *)

From S2P Require Import Prelude GoStrings Json Api Engine K8s CredManager NodeController NodeProps HandlerProps Snapshot Cluster Controllers.

(** ** controller-runtime: predicates and handlers *)

(** predicate.Predicate: whether an event of each type is handled. *)
Record predicate := {
  p_Create : anyObj → bool;
  p_Update : ∀ k, obj k → obj k → bool;
  p_Delete : anyObj → bool;
}.

Definition accepts (p : predicate) (ch : change) : bool :=
  match ch with
  | Created k o => p_Create p (existT k o)
  | Updated k old new => p_Update p k old new
  | Deleted k o => p_Delete p (existT k o)
  end.

(** The verdict of a predicate that only decides updates. *)
Definition filters_updates (p : predicate) (f : ∀ k, obj k → obj k → bool) : Prop :=
  ∀ ch, accepts p ch = match ch with Updated k old new => f k old new | _ => true end.

(** The predicates and handlers the controllers use. *)
Class WatchLib `{ControllerUtil} := {
  GenerationChangedPredicate : predicate;
  LabelChangedPredicate : predicate;
  AnnotationChangedPredicate : predicate;
  (** predicate.Funcs{}: the zero value, with every function nil *)
  zeroFuncs : predicate;
  predicate_Or : predicate → predicate → predicate;
  (** handler.EnqueueRequestForOwner for SingBoxNode controllers, from an object's namespace and references *)
  ownerRequests : string → list OwnerReference → list NamespacedName;
  generation_changed : filters_updates GenerationChangedPredicate
    (λ k old new, om_Generation (obj_meta k old) !=? om_Generation (obj_meta k new));
  label_changed : filters_updates LabelChangedPredicate (λ k old new, om_Labels (obj_meta k old) !=? om_Labels (obj_meta k new));
  annotation_changed : filters_updates AnnotationChangedPredicate
    (λ k old new, om_Annotations (obj_meta k old) !=? om_Annotations (obj_meta k new));
  (** a nil function accepts *)
  zero_funcs : ∀ ch, accepts zeroFuncs ch = true;
  predicate_or : ∀ p q ch, accepts (predicate_Or p q) ch = accepts p ch || accepts q ch;
  (** the owner that SetControllerReference records is the one that is enqueued *)
  owner_requests : ∀ (owner : SingBoxNode) m m', SetControllerReference (node_meta owner) m = inr m' →
    om_Namespace m = GetNamespace owner → keyOf owner ∈ ownerRequests (om_Namespace m') (om_OwnerReferences m');
}.

Inductive handler :=
  (** handler.EnqueueRequestForObject, the handler of builder.For *)
  | ForObject
  (** handler.EnqueueRequestForOwner, the handler of builder.Owns *)
  | ForOwner
  (** handler.EnqueueRequestsFromMapFunc: an update maps the old and the new object *)
  | MapFunc (f : anyObj → prog (list NamespacedName)).

Record watch := { w_kind : kind; w_handler : handler; w_predicate : option predicate }.

Definition anyMeta (o : anyObj) : ObjectMeta := obj_meta (projT1 o) (projT2 o).

(** builder.For, builder.Owns, and builder.Watches without and with builder.WithPredicates. *)
Definition For (k : kind) : watch := {| w_kind := k; w_handler := ForObject; w_predicate := None |}.
Definition Owns (k : kind) : watch := {| w_kind := k; w_handler := ForOwner; w_predicate := None |}.
Definition WatchAll (k : kind) (f : anyObj → prog (list NamespacedName)) : watch :=
  {| w_kind := k; w_handler := MapFunc f; w_predicate := None |}.
Definition WatchIf (k : kind) (f : anyObj → prog (list NamespacedName)) (p : predicate) : watch :=
  {| w_kind := k; w_handler := MapFunc f; w_predicate := Some p |}.

Inductive controller :=
  | SingBoxNodeController | UserController | UserGroupController | EgressPolicyController | ExternalOutboundController.

#[export] Instance controller_eq : EqDecision controller.
Proof. solve_decision. Defined.

#[export] Instance controller_countable : Countable controller.
Proof.
  refine (inj_countable' (λ c, match c with
    | SingBoxNodeController => 0 | UserController => 1 | UserGroupController => 2 | EgressPolicyController => 3
    | ExternalOutboundController => 4 end)
    (λ n, match n with
    | 0 => SingBoxNodeController | 1 => UserController | 2 => UserGroupController | 3 => EgressPolicyController
    | _ => ExternalOutboundController end) _).
  by intros [].
Defined.

(** Finds a watch in the list of a controller. *)
Ltac watch_in := repeat first [apply list_elem_of_here | apply list_elem_of_further].

Section watches.
Context `{WatchLib, LabelSelectors}.

(** node_health.go: a struct that embeds predicate.Funcs and declares a method
    named UpdateFunc.  The method hides the embedded field of that name, but the
    Update method that a Predicate is asked for is the one promoted from the
    embedded Funcs, which looks at its own, nil, field. *)
Definition NodeReadyConditionChangedPredicate : predicate := zeroFuncs.

(** The five SetupWithManager functions. *)
Definition SingBoxNode_SetupWithManager : list watch :=
  [For KSingBoxNode; Owns KConfigMap; Owns KPod; Owns KService;
   WatchIf KSingBoxNode sameRegionNodeMapper GenerationChangedPredicate;
   WatchAll KUser matchingProtocolNodeMapper;
   WatchAll KUserGroup usersInGroupToNodesMapper;
   WatchIf KEgressPolicy egressPolicyMapper GenerationChangedPredicate;
   WatchIf KExternalOutbound externalOutboundMapper GenerationChangedPredicate;
   WatchAll KSecret externalCredentialSecretMapper;
   WatchIf KNode nodeToSingBoxNodesMapper (predicate_Or NodeReadyConditionChangedPredicate AnnotationChangedPredicate)].

Definition User_SetupWithManager : list watch := [For KUser].

Definition UserGroup_SetupWithManager : list watch := [For KUserGroup].

Definition EgressPolicy_SetupWithManager : list watch :=
  let mapper o := EgressPolicyReconciler.policyMapper (om_Namespace (anyMeta o)) in
  [For KEgressPolicy;
   WatchIf KSingBoxNode mapper (predicate_Or GenerationChangedPredicate LabelChangedPredicate);
   WatchIf KExternalOutbound mapper (predicate_Or GenerationChangedPredicate LabelChangedPredicate)].

Definition ExternalOutbound_SetupWithManager : list watch :=
  [For KExternalOutbound; WatchAll KSecret ExternalOutboundReconciler.credentialsSecretMapper].

(** The controllers that cmd/main.go registers. *)
Definition SetupWithManager (ctl : controller) : list watch :=
  match ctl with
  | SingBoxNodeController => SingBoxNode_SetupWithManager
  | UserController => User_SetupWithManager
  | UserGroupController => UserGroup_SetupWithManager
  | EgressPolicyController => EgressPolicy_SetupWithManager
  | ExternalOutboundController => ExternalOutbound_SetupWithManager
  end.

(** The requests of a watch for an event; mappers read a snapshot of the cluster after it. *)
Definition watch_requests (snap : snapshot) (ch : change) (w : watch) : list NamespacedName :=
  if (w_kind w ==? ch_kind ch) && (if w_predicate w is Some p then accepts p ch else true) then
    match w_handler w with
    | ForObject => [ch_key ch]
    | ForOwner => o ← ch_objs ch; ownerRequests (om_Namespace (anyMeta o)) (om_OwnerReferences (anyMeta o))
    | MapFunc f => o ← ch_objs ch; snap_run snap (f o)
    end
  else [].

Definition requests (snap : snapshot) (ch : change) (ctl : controller) : list NamespacedName :=
  w ← SetupWithManager ctl; watch_requests snap ch w.

(** ** Which keys are requested *)
Lemma elem_of_requests snap ch ctl key :
  key ∈ requests snap ch ctl ↔ ∃ w, w ∈ SetupWithManager ctl ∧ key ∈ watch_requests snap ch w.
Proof. unfold requests. rewrite list_elem_of_bind. naive_solver. Qed.

Lemma requested_for snap ch ctl k : For k ∈ SetupWithManager ctl → ch_kind ch = k → ch_key ch ∈ requests snap ch ctl.
Proof.
  intros Hw Hk. apply elem_of_requests. exists (For k). split; [done|]. unfold watch_requests. simpl.
  rewrite bool_decide_true by done. simpl. left.
Qed.

Lemma requested_map snap ch ctl w f o key :
  w ∈ SetupWithManager ctl → w_handler w = MapFunc f → w_kind w = ch_kind ch →
  (if w_predicate w is Some p then accepts p ch else true) = true →
  o ∈ ch_objs ch → key ∈ snap_run snap (f o) → key ∈ requests snap ch ctl.
Proof.
  intros Hw Hf Hk Hp Ho Hkey. apply elem_of_requests. exists w. split; [done|]. unfold watch_requests.
  rewrite Hk, bool_decide_true, Hp, Hf by done. simpl. apply list_elem_of_bind. eauto.
Qed.

Lemma requested_owner snap ch k o :
  Owns k ∈ SingBoxNode_SetupWithManager → ch_kind ch = k → o ∈ ch_objs ch →
  ∀ key, key ∈ ownerRequests (om_Namespace (anyMeta o)) (om_OwnerReferences (anyMeta o)) → key ∈ requests snap ch SingBoxNodeController.
Proof.
  intros Hw Hk Ho key Hkey. apply elem_of_requests. exists (Owns k). split; [done|]. unfold watch_requests. simpl.
  rewrite bool_decide_true by done. simpl. apply list_elem_of_bind. eauto.
Qed.
End watches.
