(* ===== verification/Strip.v ===== *)
(** * Strip: the engine does not read status, annotations or bookkeeping metadata

    The status of a peer or of an external outbound, and every metadata field
    but its name, namespace and labels, never reach the configuration; without a
    policy, neither do the labels.  This is what makes it sound for the watches
    to filter events by generation and labels. *)

From S2P Require Import Prelude GoStrings Json Api Engine EngineFacts K8s.

Definition strip_meta (keep : bool) (m : ObjectMeta) : ObjectMeta :=
  {| om_Name := om_Name m; om_Namespace := om_Namespace m; om_Labels := if keep then om_Labels m else ∅;
     om_Annotations := ∅; om_Generation := 0; om_Finalizers := []; om_DeletionTimestamp := None; om_OwnerReferences := [] |}.

Definition strip_node (keep : bool) (n : SingBoxNode) : SingBoxNode :=
  {| node_meta := strip_meta keep (node_meta n); node_spec := node_spec n;
     node_status := {| nst_Phase := ""; nst_ConfigHash := ""; nst_EntryEndpoints := []; nst_TLSServerName := "";
                       nst_Conditions := []; nst_ObservedGeneration := 0 |} |}.

Definition strip_ext (keep : bool) (e : ExternalOutbound) : ExternalOutbound :=
  {| eob_meta := strip_meta keep (eob_meta e); eob_spec := eob_spec e;
     eob_status := {| est_Conditions := []; est_ObservedGeneration := 0 |} |}.

(** The input with every peer and external outbound stripped; the node itself is kept. *)
Definition strip_input (keep : bool) (i : Input) : Input :=
  {| Node := Node i; Users := Users i; UserCreds := UserCreds i; OutboundNodes := fmap (M := list) (strip_node keep) (OutboundNodes i);
     Routes := Routes i; EgressPolicies := EgressPolicies i; NodeCreds := NodeCreds i;
     OutboundNodesByName := fmap (M := gmap string) (strip_node keep) (OutboundNodesByName i);
     ExternalOutbounds := fmap (M := list) (fmap (M := option) (strip_ext keep)) (ExternalOutbounds i);
     ExternalOutboundsByName := fmap (M := gmap string) (strip_ext keep) (ExternalOutboundsByName i); ExternalCreds := ExternalCreds i;
     UsageCollectionEnabled := UsageCollectionEnabled i; V2RayAPIListenAddr := V2RayAPIListenAddr i;
     UserNodeRestrictions := UserNodeRestrictions i; UserNodeAllowlist := UserNodeAllowlist i |}.

(** A loop whose body commutes with [g], over the image of a list. *)
Lemma foldl_hom {A B S T} (g : S → T) (h : A → B) (f : S → A → S) (f' : T → B → T) st (l : list A) :
  (∀ st x, x ∈ l → f' (g st) (h x) = g (f st x)) → foldl f' (g st) (h <$> l) = g (foldl f st l).
Proof.
  revert st. induction l as [|x l IH]; intros st Hf; [done|]. cbn [foldl fmap list_fmap]. rewrite Hf by left.
  apply IH. intros st' y Hy. apply Hf. by right.
Qed.

Lemma foldl_ext_in {A S} (f f' : S → A → S) st l : (∀ st x, x ∈ l → f st x = f' st x) → foldl f st l = foldl f' st l.
Proof.
  revert st. induction l as [|x l IH]; intros st Hf; [done|]. cbn [foldl]. rewrite Hf by left. apply IH. intros. apply Hf. by right.
Qed.

Lemma bind_ext_in {A B} (f g : A → list B) (l : list A) : (∀ x, x ∈ l → f x = g x) → l ≫= f = l ≫= g.
Proof.
  induction l as [|x l IH]; intros Hf; [done|]. rewrite !bind_cons, Hf by left. f_equal. apply IH. intros. apply Hf. by right.
Qed.

Lemma names_strip_nodes keep (l : list SingBoxNode) : GetName <$> (strip_node keep <$> l) = GetName <$> l.
Proof. rewrite <- list_fmap_compose. by apply list_fmap_ext. Qed.

Lemma names_strip_exts keep (l : list ExternalOutbound) : GetName <$> (strip_ext keep <$> l) = GetName <$> l.
Proof. rewrite <- list_fmap_compose. by apply list_fmap_ext. Qed.

Lemma filter_fmap_eq {A B} (h : A → B) (p : A → bool) (q : B → bool) (l : list A) :
  (∀ x, q (h x) = p x) → filter (λ y, q y = true) (h <$> l) = h <$> filter (λ x, p x = true) l.
Proof.
  intros Hpq. induction l as [|x l IH]; [done|]. cbn [fmap list_fmap]. rewrite !filter_cons, Hpq.
  destruct (p x); [rewrite !decide_True by done|by rewrite !decide_False]. cbn [fmap list_fmap]. by rewrite IH.
Qed.

(** The values of a stripped map, in any order. *)
Lemma range_values_fmap `{MapRange} {V W} (f : V → W) (m : gmap string V) : range_values (f <$> m) ≡ₚ f <$> range_values m.
Proof.
  unfold range_values. rewrite !range_perm, map_to_list_fmap, <- !list_fmap_compose. done.
Qed.

Section strip.
Context `{MapRange, LabelSelectors} (keep : bool) (i : Input).
Let S := strip_input keep i.

Lemma policyEgressAvailable_strip name : policyEgressAvailable S name = policyEgressAvailable i name.
Proof.
  unfold policyEgressAvailable. simpl. rewrite !lookup_fmap.
  destruct (OutboundNodesByName i !! name); [done|]. by destruct (ExternalOutboundsByName i !! name).
Qed.

Lemma resolvePolicyEgressName_strip p : keep = true → resolvePolicyEgressName S p = resolvePolicyEgressName i p.
Proof.
  intros Hkeep. unfold resolvePolicyEgressName. erewrite sort_strings_ext; [done|]. unfold S. rewrite Hkeep. simpl.
  rewrite !range_values_fmap.
  rewrite (filter_fmap_eq (strip_node true) (λ n, hasRole n ProxyRoleOutbound && EgressPolicySelector_Matches (ps_EgressSelector (policy_spec p)) n)) by done.
  rewrite (filter_fmap_eq (strip_ext true) (λ e, EgressPolicySelector_Matches (ps_EgressSelector (policy_spec p)) e)) by done.
  by rewrite names_strip_nodes, names_strip_exts.
Qed.

Context (Hkeep : keep = true ∨ EgressPolicies i = []).

Lemma policyEgressName_strip p : Some p ∈ EgressPolicies i → policyEgressName S p = policyEgressName i p.
Proof.
  intros Hp. unfold policyEgressName. destruct Hkeep as [Hk|Hnil]; [by rewrite resolvePolicyEgressName_strip|].
  rewrite Hnil in Hp. by apply elem_of_nil in Hp.
Qed.

Lemma policyRules_strip p : p ∈ policiesForNode i → policyRules S p = policyRules i p.
Proof.
  intros Hp%elem_of_policiesForNode. unfold policyRules. rewrite policyEgressName_strip by done.
  by rewrite !policyEgressAvailable_strip.
Qed.

Lemma buildPolicyRules_strip : buildPolicyRules S (policiesForNode S) = buildPolicyRules i (policiesForNode i).
Proof. apply bind_ext_in. intros p Hp. by apply policyRules_strip. Qed.

Lemma buildPolicyOutbound_strip name : buildPolicyOutbound S name = buildPolicyOutbound i name.
Proof.
  unfold buildPolicyOutbound. simpl. rewrite !lookup_fmap.
  destruct (OutboundNodesByName i !! name); [done|]. by destruct (ExternalOutboundsByName i !! name).
Qed.

Lemma buildPolicyOutbounds_strip : buildPolicyOutbounds S (policiesForNode S) = buildPolicyOutbounds i (policiesForNode i).
Proof.
  unfold buildPolicyOutbounds. f_equal. apply foldl_ext_in. intros st p Hp%elem_of_policiesForNode.
  unfold pushPolicyOutbound. by rewrite policyEgressName_strip, buildPolicyOutbound_strip by done.
Qed.

(** ** External outbounds *)
Lemma externalNameCollides_strip name : externalNameCollidesWithNode S name = externalNameCollidesWithNode i name.
Proof.
  unfold externalNameCollidesWithNode. simpl. f_equal; [f_equal|].
  - apply bool_decide_ext. by rewrite lookup_fmap, fmap_is_Some.
  - induction (OutboundNodes i) as [|n l IH]; [done|]. cbn [existsb fmap list_fmap]. by rewrite IH.
Qed.

Lemma addExternal_strip st e :
  addExternal S (st.1, strip_ext keep <$> st.2) (strip_ext keep <$> e)
  = ((addExternal i st e).1, strip_ext keep <$> (addExternal i st e).2).
Proof.
  destruct e as [e|]; [|done]. unfold addExternal. cbn [fmap option_fmap option_map].
  change (GetName (strip_ext keep e)) with (GetName e). rewrite externalNameCollides_strip. simpl.
  case_bool_decide; [done|]. destruct (externalNameCollidesWithNode i _); [done|].
  change (hasRequiredExternalCreds (strip_ext keep e)) with (hasRequiredExternalCreds e).
  destruct (hasRequiredExternalCreds e _); [|done]. simpl. by rewrite fmap_app.
Qed.

Lemma resolveExternalOutbounds_strip routes :
  resolveExternalOutbounds S routes = strip_ext keep <$> resolveExternalOutbounds i routes.
Proof.
  unfold resolveExternalOutbounds.
  set (g := λ st : gset string * list ExternalOutbound, (st.1, strip_ext keep <$> st.2)).
  change (∅, []) with (g (∅, [])) at 1. simpl ExternalOutbounds.
  rewrite (foldl_hom g (fmap (strip_ext keep)) (addExternal i)) by (intros; apply addExternal_strip).
  rewrite <- (list_fmap_id routes) at 1. rewrite (foldl_hom g id (λ st r,
     if EffectiveOutboundKind r !=? OutboundKindExternalOutbound then st
     else match ExternalOutboundsByName i !! rs_OutboundNode (route_spec r) with
          | None => st
          | Some eob => addExternal i st (Some eob)
          end)); [done|].
  intros st r _. simpl. destruct (_ !=? _); [done|]. rewrite lookup_fmap.
  destruct (ExternalOutboundsByName i !! _) as [e|]; [|done]. cbn [fmap option_fmap option_map]. apply (addExternal_strip st (Some e)).
Qed.

Lemma buildExternalOutbounds_strip routes : buildExternalOutbounds S routes = buildExternalOutbounds i routes.
Proof.
  unfold buildExternalOutbounds. rewrite resolveExternalOutbounds_strip. by rewrite (map_map (strip_ext keep)).
Qed.

Lemma external_names_strip routes : GetName <$> resolveExternalOutbounds S routes = GetName <$> resolveExternalOutbounds i routes.
Proof. by rewrite resolveExternalOutbounds_strip, names_strip_exts. Qed.

(** ** Peers, inbounds and outbounds *)
Lemma peerNames_strip routes : peerNames S routes = peerNames i routes.
Proof.
  unfold peerNames. simpl OutboundNodes.
  match goal with |- context [foldl ?f (∅, []) (strip_node keep <$> ?l)] =>
    change (foldl f (∅, []) (strip_node keep <$> l)) with (foldl f (id (∅, [])) (strip_node keep <$> l));
    rewrite (foldl_hom id (strip_node keep) f f (∅, []) l) by done end.
  apply foldl_ext_in. intros st r _. simpl. rewrite lookup_fmap. by destruct (OutboundNodesByName i !! _).
Qed.

Lemma routeOutboundNames_strip routes self : routeOutboundNames S routes self = routeOutboundNames i routes self.
Proof.
  unfold routeOutboundNames. rewrite peerNames_strip, external_names_strip.
  rewrite (foldl_ext_in (pushPolicyEgress S) (pushPolicyEgress i)); [done|].
  intros st [p|] Hp; [|done]. simpl in Hp. unfold pushPolicyEgress. by rewrite policyEgressName_strip, policyEgressAvailable_strip by done.
Qed.

Lemma inboundPart_strip rules : inboundPart S rules = inboundPart i rules.
Proof.
  unfold inboundPart, buildRouteInbounds. rewrite routeOutboundNames_strip.
  rewrite resolveExternalOutbounds_strip, length_fmap. simpl OutboundNodes. by rewrite length_fmap.
Qed.

Lemma omap_strip {A} (f g : SingBoxNode → option A) (l : list SingBoxNode) : (∀ n, f (strip_node keep n) = g n) → omap f (strip_node keep <$> l) = omap g l.
Proof. intros Hf. induction l as [|n l IH]; [done|]. cbn [fmap list_fmap omap list_omap]. by rewrite Hf, IH. Qed.

Lemma inboundOutbounds_strip : inboundOutbounds S = inboundOutbounds i.
Proof.
  unfold inboundOutbounds. rewrite buildExternalOutbounds_strip, buildPolicyOutbounds_strip. f_equal; [|f_equal].
  - unfold buildOutboundNodeOutbounds. by apply omap_strip.
  - unfold buildRouteOutbounds. change (routesForNode S) with (routesForNode i).
    induction (routesForNode i) as [|r l IH]; [done|]. cbn [omap list_omap]. rewrite IH. simpl OutboundNodesByName.
    rewrite lookup_fmap. by destruct (OutboundNodesByName i !! _).
Qed.

Lemma buildExperimentalConfig_strip : buildExperimentalConfig S = buildExperimentalConfig i.
Proof. unfold buildExperimentalConfig, statsOutboundNames. by rewrite peerNames_strip, external_names_strip. Qed.

Lemma Compute_strip : Compute S = Compute i.
Proof.
  unfold Compute. replace (computeConfig S) with (computeConfig i); [done|]. unfold computeConfig.
  by rewrite buildPolicyRules_strip, inboundPart_strip, inboundOutbounds_strip, buildExperimentalConfig_strip.
Qed.
End strip.
