(* ===== verification/ReadSet.v ===== *)
(** * ReadSet: what the configuration of a node depends on

    [inputOf c node policies] is what collectInput returns when it runs against
    the cluster [c], whose policies are listed in the order [policies].  Two
    clusters that agree on the objects that [node] reads (its eligible peers, its reachable external outbounds, its users with their groups
    and Secrets, the policies that select it) give the same input; clusters that
    differ in status or bookkeeping metadata give inputs with the same
    configuration. *)

From S2P Require Import Prelude GoStrings Json Api Engine K8s CredManager NodeController NodeProps HandlerProps Snapshot Cluster Strip.

(** A loop body that leaves the state alone outside [p] only sees the elements of [p]. *)
Lemma foldl_filter {A S} (p : A → bool) (f : S → A → S) st (l : list A) :
  (∀ st x, x ∈ l → p x = false → f st x = st) → foldl f st l = foldl f st (filter (λ x, p x = true) l).
Proof.
  revert st. induction l as [|x l IH]; intros st Hf; [done|]. cbn [foldl]. rewrite filter_cons.
  destruct (p x) eqn:Hp; [rewrite decide_True by done; cbn [foldl]|rewrite decide_False by done; rewrite Hf by (done || left)];
    apply IH; intros; apply Hf; try done; by right.
Qed.

Section readset.
Context `{NotFoundErrors, GoStd, LabelSelectors} (r : SingBoxNodeReconciler).

(** ** The lists collectInput ranges over *)
Definition nodesOf (c : cluster) (node : SingBoxNode) : list SingBoxNode :=
  sort_by (less_on GetName) (listing KSingBoxNode (InNamespace (GetNamespace node)) (c KSingBoxNode)).
Definition extsOf (c : cluster) (node : SingBoxNode) : list ExternalOutbound :=
  sort_by (less_on GetName) (listing KExternalOutbound (InNamespace (GetNamespace node)) (c KExternalOutbound)).
Definition usersOf (c : cluster) (node : SingBoxNode) : list User :=
  sort_by (less_on GetName) (listing KUser (InNamespace (GetNamespace node)) (c KUser)).
Definition policiesOf (c : cluster) (node : SingBoxNode) : list EgressPolicy :=
  listing KEgressPolicy (InNamespace (GetNamespace node)) (c KEgressPolicy).
Definition namesOf (c : cluster) (node : SingBoxNode) : gset string := list_to_set (GetName node :: (GetName <$> nodesOf c node)).

(** The policy selects the node as an ingress. *)
Definition selects (node : SingBoxNode) (p : EgressPolicy) : bool :=
  hasRole node ProxyRoleInbound && EgressPolicySelector_Matches (ps_IngressSelector (policy_spec p)) node.

(** Where the relay credential of a node of the namespace is stored. *)
Definition relayKey (node n : SingBoxNode) : NamespacedName :=
  {| nn_Namespace := GetNamespace node; nn_Name := secretName (GetName n) |}.

Definition extKey (e : ExternalOutbound) (ref : string) : NamespacedName :=
  {| nn_Namespace := GetNamespace e; nn_Name := ref |}.

(** ** collectInput against a cluster *)
Definition withUser (c : cluster) (node : SingBoxNode) (i : Input) (u : User) : Input :=
  upd_users i (Users i ++ [u]) (credsWith (reads c) u (UserCreds i))
    (restrWith (reads c) (GetNamespace node) u (UserNodeRestrictions i))
    (allowWith (reads c) (GetNamespace node) u (UserNodeAllowlist i)).

Definition peersInput (c : cluster) (node : SingBoxNode) : Input :=
  foldl (λ i n, snap_run (reads c) (collectPeer node i n)) (emptyInput r node) (nodesOf c node).
Definition extsInput (c : cluster) (node : SingBoxNode) : Input :=
  foldl (λ i e, snap_run (reads c) (collectExternal node (namesOf c node) i e)) (peersInput c node) (extsOf c node).
Definition usersInput (c : cluster) (node : SingBoxNode) : Input :=
  if hasRole node ProxyRoleInbound then foldl (withUser c node) (extsInput c node) (usersOf c node) else extsInput c node.
Definition policiesInput (c : cluster) (node : SingBoxNode) (policies : list EgressPolicy) : Input :=
  foldl (λ i p, snap_run (reads c) (collectPolicy node (nodesOf c node) (extsOf c node) i p)) (usersInput c node) policies.

(** Nodes, external outbounds and users are sorted after they were listed; the
    policies are used in the order in which they were listed. *)
Definition inputOf (c : cluster) (node : SingBoxNode) (policies : list EgressPolicy) : Input :=
  if hasRole node ProxyRoleOutbound
  then snap_run (reads c) (loadNodeCredential (GetName node) (GetNamespace node) (policiesInput c node policies))
  else policiesInput c node policies.

Lemma reads_collectUser c node i u : snap_run (reads c) (collectUser node i u) = inr (withUser c node i u).
Proof.
  destruct (snap_run (reads c) (collectUser node i u)) as [e|i'] eqn:Hrun; [|by apply snap_collectUser in Hrun as ->].
  exfalso. revert Hrun. unfold collectUser, mbind, prog_mbind, do. cbn [prog_bind].
  case_bool_decide; [by rewrite snap_run_bind|]. cbn [snap_run reads]. destruct (c KUserGroup !! _); [by rewrite snap_run_bind|].
  rewrite NotFoundError_is. by rewrite snap_run_bind.
Qed.

Lemma reads_collectUsers c node i l : snap_run (reads c) (foldE (collectUser node) i l) = inr (foldl (withUser c node) i l).
Proof. revert i. induction l as [|u l IH]; intros i; [done|]. cbn [foldE foldl]. by rewrite snap_run_bind, reads_collectUser, IH. Qed.

(** Two snapshots that answer every Get alike run a program without lists alike. *)
Lemma snap_run_gets {A} snap snap' (p : prog A) :
  emits (λ c, snap c = snap' c) p → snap_run snap p = snap_run snap' p.
Proof. induction p as [a|c f IH]; [done|]. intros [Hc Hf]. cbn [snap_run]. rewrite Hc. by apply IH. Qed.

Section ordered.
Context (c : cluster) (snap : snapshot) (Hk : keyed c) (Hs : snapshot_of c snap) (node : SingBoxNode).

Definition answeredAlike (call : call) : Prop := snap call = reads c call.

Lemma get_alike k key : answeredAlike (Get k key).
Proof. exact (snapshot_get c snap k key Hs). Qed.

Lemma alike_run {A} (p : prog A) : emits answeredAlike p → snap_run snap p = snap_run (reads c) p.
Proof. apply snap_run_gets. Qed.

Lemma emits_gets_node name ns i : emits answeredAlike (loadNodeCredential name ns i).
Proof. unfold loadNodeCredential, GetNodeCredential. emits_solve. apply get_alike. Qed.

Lemma emits_gets_ext e i : emits answeredAlike (loadExternalCredential e i).
Proof.
  unfold loadExternalCredential, GetExternalCredentials. destruct (es_CredentialsSecretRef (eob_spec e)) as [ref|]; emits_solve.
  apply get_alike.
Qed.

Lemma snap_peer i n : snap_run snap (collectPeer node i n) = snap_run (reads c) (collectPeer node i n).
Proof. apply alike_run. rewrite collectPeer_eligible. destruct (peerEligible node n); [apply emits_gets_node|done]. Qed.

Lemma snap_external names i e : snap_run snap (collectExternal node names i e) = snap_run (reads c) (collectExternal node names i e).
Proof. apply alike_run. rewrite collectExternal_eligible. destruct (_ && _); [apply emits_gets_ext|done]. Qed.

Lemma snap_user i u : snap_run snap (collectUser node i u) = snap_run (reads c) (collectUser node i u).
Proof. apply alike_run. unfold collectUser, addUser, GetUserCredential. emits_solve; apply get_alike. Qed.

Lemma snap_policy nodes exts i p : snap_run snap (collectPolicy node nodes exts i p) = snap_run (reads c) (collectPolicy node nodes exts i p).
Proof.
  apply alike_run. unfold collectPolicy. destruct (negb _ || _); [done|]. destruct (resolveEgressPolicy p _ _) as [[names egress] msg].
  repeat (case_match; [done|]). case_match; [apply emits_gets_node|]. case_match; [apply emits_gets_ext|done].
Qed.

Lemma snap_users i l : snap_run snap (foldE (collectUser node) i l) = inr (foldl (withUser c node) i l).
Proof.
  rewrite <- reads_collectUsers. revert i. induction l as [|u l IH]; intros i; [done|]. cbn [foldE]. rewrite !snap_run_bind, snap_user.
  destruct (snap_run (reads c) (collectUser node i u)); [done|apply IH].
Qed.

(** Against a cluster collectInput never fails, and only the order of the
    policies shows in its result. *)
Lemma collectInput_snapshot policies :
  snap (List KEgressPolicy (InNamespace (GetNamespace node))) = inr policies →
  snap_run snap (collectInput r node) = inr (inputOf c node policies).
Proof.
  intros Hp. destruct (snapshot_list c snap KSingBoxNode (InNamespace (GetNamespace node)) Hs) as (ln & Hln & Hpn).
  destruct (snapshot_list c snap KExternalOutbound (InNamespace (GetNamespace node)) Hs) as (le & Hle & Hpe).
  destruct (snapshot_list c snap KUser (InNamespace (GetNamespace node)) Hs) as (lu & Hlu & Hpu).
  assert (sort_by (less_on GetName) (ln : list SingBoxNode) = nodesOf c node) as Hn by exact (sort_listing c KSingBoxNode _ GetName ln eq_refl Hk Hpn).
  assert (sort_by (less_on GetName) (le : list ExternalOutbound) = extsOf c node) as He by exact (sort_listing c KExternalOutbound _ GetName le eq_refl Hk Hpe).
  assert (sort_by (less_on GetName) (lu : list User) = usersOf c node) as Hu by exact (sort_listing c KUser _ GetName lu eq_refl Hk Hpu).
  unfold collectInput, mbind, prog_mbind, do. cbn [prog_bind snap_run]. rewrite Hln, Hn. rewrite snap_run_bind, snap_run_foldM. cbn [snap_run]. rewrite Hle, He, snap_run_bind, snap_run_foldM.
  fold (namesOf c node).
  rewrite (foldl_ext_in _ (λ i n, snap_run (reads c) (collectPeer node i n))) by (intros; apply snap_peer).
  rewrite (foldl_ext_in _ (λ i e, snap_run (reads c) (collectExternal node (namesOf c node) i e))) by (intros; apply snap_external).
  fold (peersInput c node) (extsInput c node). rewrite snap_run_bind.
  match goal with |- context [snap_run snap (if hasRole node ProxyRoleInbound then ?p else ?q)] =>
    assert (snap_run snap (if hasRole node ProxyRoleInbound then p else q) = inr (usersInput c node)) as -> end.
  { unfold usersInput. destruct (hasRole node ProxyRoleInbound); [|done]. cbn [snap_run]. rewrite Hlu, Hu. apply snap_users. }
  cbn [snap_run]. rewrite Hp, snap_run_bind, snap_run_foldM.
  rewrite (foldl_ext_in _ (λ i p, snap_run (reads c) (collectPolicy node (nodesOf c node) (extsOf c node) i p))) by (intros; apply snap_policy).
  fold (policiesInput c node policies). unfold inputOf. destruct (hasRole node ProxyRoleOutbound); [|done].
  rewrite snap_run_bind. cbn [snap_run]. f_equal. apply alike_run, emits_gets_node.
Qed.
End ordered.

#[export] Instance listOption_eq : EqDecision listOption.
Proof. solve_decision. Defined.

(** Every order of the policies is that of some snapshot. *)
Lemma ordered_snapshot c ns policies :
  policies ≡ₚ listing KEgressPolicy (InNamespace ns) (c KEgressPolicy) →
  ∃ snap, snapshot_of c snap ∧ snap (List KEgressPolicy (InNamespace ns)) = inr policies.
Proof.
  intros Hp. exists (λ call, match call as call return answer call with
    | List k opt =>
      match k as k return answer (List k opt) with
      | KEgressPolicy => if decide (opt = InNamespace ns) then inr policies else reads c (List KEgressPolicy opt)
      | k => reads c (List k opt)
      end
    | call => reads c call end). split; [|by rewrite decide_True].
  intros call. destruct call as [|k opt| | | | | | | | | | |]; try done. destruct k; try reflexivity.
  cbn [reads]. case_decide as Hopt; [by rewrite Hopt|reflexivity].
Qed.

(** ** Congruence *)
Lemma reads_loadNode c c' name ns i :
  c KSecret !! {| nn_Namespace := ns; nn_Name := secretName name |} = c' KSecret !! {| nn_Namespace := ns; nn_Name := secretName name |} →
  snap_run (reads c) (loadNodeCredential name ns i) = snap_run (reads c') (loadNodeCredential name ns i).
Proof.
  intros Heq. unfold loadNodeCredential, GetNodeCredential, mbind, prog_mbind, do. cbn [prog_bind snap_run reads]. rewrite Heq.
  by destruct (c' KSecret !! _).
Qed.

Lemma reads_loadExternal c c' e i :
  (∀ ref, es_CredentialsSecretRef (eob_spec e) = Some ref → c KSecret !! extKey e ref = c' KSecret !! extKey e ref) →
  snap_run (reads c) (loadExternalCredential e i) = snap_run (reads c') (loadExternalCredential e i).
Proof.
  intros Heq. unfold loadExternalCredential, GetExternalCredentials, mbind, prog_mbind, do.
  destruct (es_CredentialsSecretRef (eob_spec e)) as [ref|]; [|done]. cbn [prog_bind snap_run reads].
  change {| nn_Namespace := GetNamespace e; nn_Name := ref |} with (extKey e ref). rewrite (Heq ref) by done.
  by destruct (c' KSecret !! _).
Qed.

(** A policy that does not select the node is skipped. *)
Lemma collectPolicy_skip c node nodes exts i p : selects node p = false → snap_run (reads c) (collectPolicy node nodes exts i p) = i.
Proof. unfold selects, collectPolicy. destruct (hasRole node _), (EgressPolicySelector_Matches _ node); done. Qed.

(** What [node] reads is the same in both clusters. *)
Record same_view (c c' : cluster) (node : SingBoxNode) : Prop := {
  sv_peers : filter (λ n, peerEligible node n = true) (nodesOf c node) = filter (λ n, peerEligible node n = true) (nodesOf c' node);
  sv_exts : filter (λ e, externalReachable node e = true) (extsOf c node) = filter (λ e, externalReachable node e = true) (extsOf c' node);
  sv_names : ∀ e, e ∈ extsOf c node → externalReachable node e = true → GetName e ∈ namesOf c node ↔ GetName e ∈ namesOf c' node;
  sv_users : usersOf c node = usersOf c' node;
  sv_groups : ∀ u, u ∈ usersOf c node → c KUserGroup !! groupKey node u = c' KUserGroup !! groupKey node u;
  sv_auth : ∀ u, u ∈ usersOf c node → c KSecret !! authKey u = c' KSecret !! authKey u;
  sv_policies : filter (λ p, selects node p = true) (policiesOf c node) = filter (λ p, selects node p = true) (policiesOf c' node);
  sv_resolve : filter (λ p, selects node p = true) (policiesOf c node) = [] ∨
               (nodesOf c node = nodesOf c' node ∧ extsOf c node = extsOf c' node);
  sv_relay : ∀ n, n ∈ nodesOf c node → peerEligible node n = true → c KSecret !! relayKey node n = c' KSecret !! relayKey node n;
  sv_self : hasRole node ProxyRoleOutbound = true → c KSecret !! relayKey node node = c' KSecret !! relayKey node node;
  sv_cred : ∀ e ref, e ∈ extsOf c node → externalReachable node e = true → es_CredentialsSecretRef (eob_spec e) = Some ref →
              c KSecret !! extKey e ref = c' KSecret !! extKey e ref;
}.

Section congruence.
Context (c c' : cluster) (node : SingBoxNode) (Hv : same_view c c' node).

Lemma peersInput_congr : peersInput c node = peersInput c' node.
Proof.
  unfold peersInput.
  rewrite (foldl_filter (peerEligible node) _ _ (nodesOf c node)) by (intros st n _ Hn; by rewrite collectPeer_eligible, Hn).
  rewrite (foldl_filter (peerEligible node) _ _ (nodesOf c' node)) by (intros st n _ Hn; by rewrite collectPeer_eligible, Hn).
  rewrite (sv_peers _ _ _ Hv). apply foldl_ext_in. intros st n Hn. rewrite collectPeer_eligible.
  pose proof Hn as Hn'. rewrite <- (sv_peers _ _ _ Hv) in Hn'. apply list_elem_of_filter in Hn as [Hn _], Hn' as [_ Hn'].
  rewrite Hn. apply reads_loadNode. by apply (sv_relay _ _ _ Hv).
Qed.

Lemma extsInput_congr : extsInput c node = extsInput c' node.
Proof.
  unfold extsInput. rewrite peersInput_congr.
  assert (∀ d st e, externalReachable node e = false → snap_run (reads d) (collectExternal node (namesOf d node) st e) = st) as Hskip.
  { intros d st e He. by rewrite collectExternal_eligible, He, andb_false_r. }
  rewrite (foldl_filter (externalReachable node) _ _ (extsOf c node)), (foldl_filter (externalReachable node) _ _ (extsOf c' node)) by auto.
  rewrite <- (sv_exts _ _ _ Hv). apply foldl_ext_in. intros st e [Hr He]%list_elem_of_filter. rewrite !collectExternal_eligible.
  rewrite (bool_decide_ext (GetName e ∉ namesOf c node) (GetName e ∉ namesOf c' node)) by (by rewrite (sv_names _ _ _ Hv e He Hr)).
  destruct (_ && _); [|done]. apply reads_loadExternal. intros ref Href. by apply (sv_cred _ _ _ Hv).
Qed.

Lemma withUser_congr i u : u ∈ usersOf c node → withUser c node i u = withUser c' node i u.
Proof.
  intros Hu. unfold withUser, credsWith, restrWith, allowWith, snapGroup. cbn [reads].
  rewrite (sv_auth _ _ _ Hv) by done. pose proof (sv_groups _ _ _ Hv u Hu) as Hg. unfold groupKey in Hg. rewrite Hg.
  by destruct (c' KSecret !! _), (c' KUserGroup !! _).
Qed.

Lemma usersInput_congr : usersInput c node = usersInput c' node.
Proof.
  unfold usersInput. rewrite extsInput_congr, <- (sv_users _ _ _ Hv). destruct (hasRole node _); [|done].
  apply foldl_ext_in. intros st u Hu. by apply withUser_congr.
Qed.

Lemma collectPolicy_congr i p :
  snap_run (reads c) (collectPolicy node (nodesOf c node) (extsOf c node) i p)
  = snap_run (reads c') (collectPolicy node (nodesOf c node) (extsOf c node) i p).
Proof.
  unfold collectPolicy. destruct (negb _ || _); [done|]. destruct (resolveEgressPolicy p _ _) as [[names egress] msg].
  destruct (msg !=? ""); [done|]. destruct (ps_Action _ ==? _); [done|]. destruct (egress ==? ""); [done|].
  destruct (egressConnectedToInbound node egress _ _) eqn:Hconn; [|done]. simpl negb. cbv iota.
  destruct (findOutboundNode (nodesOf c node) egress) as [n|] eqn:Hn.
  - destruct (findOutboundNode_Some _ _ _ Hn) as (Hin & _ & _).
    destruct (connected_node _ _ _ _ _ Hconn Hn) as [[Hself Hrole]|Hpeer]; apply reads_loadNode.
    + rewrite Hself. by apply (sv_self _ _ _ Hv).
    + by apply (sv_relay _ _ _ Hv).
  - destruct (findExternalOutbound (extsOf c node) egress) as [e|] eqn:He; [|done].
    destruct (findExternalOutbound_Some _ _ _ He) as [Hin _]. apply reads_loadExternal. intros ref Href.
    apply (sv_cred _ _ _ Hv); [done| |done]. by eapply connected_external.
Qed.

(** Policies that do not select the node do not matter. *)
Lemma policiesInput_selected d policies :
  policiesInput d node policies = policiesInput d node (filter (λ p, selects node p = true) policies).
Proof. unfold policiesInput. apply foldl_filter. intros. by apply collectPolicy_skip. Qed.

Lemma policiesInput_congr policies :
  policies ≡ₚ policiesOf c node → policiesInput c node policies = policiesInput c' node policies.
Proof.
  intros Hp. rewrite (policiesInput_selected c), (policiesInput_selected c'). unfold policiesInput. rewrite usersInput_congr.
  destruct (sv_resolve _ _ _ Hv) as [Hnil|[Hnodes Hexts]].
  - assert (filter (λ p, selects node p = true) policies = []) as ->; [|done].
    apply Permutation_nil_r. rewrite <- Hnil. by apply filter_Permutation.
  - apply foldl_ext_in. intros st p _. rewrite <- Hnodes, <- Hexts. apply collectPolicy_congr.
Qed.

Lemma inputOf_congr policies : policies ≡ₚ policiesOf c node → inputOf c node policies = inputOf c' node policies.
Proof.
  intros Hp. unfold inputOf. rewrite policiesInput_congr by done. destruct (hasRole node ProxyRoleOutbound) eqn:Hrole; [|done].
  apply reads_loadNode. by apply (sv_self _ _ _ Hv).
Qed.
End congruence.

(** ** Agreement is an equivalence *)
Lemma same_view_ext c c' node : (∀ k, c k = c' k) → same_view c c' node.
Proof.
  intros Heq. split; try (intros; by rewrite Heq); unfold nodesOf, extsOf, usersOf, policiesOf, namesOf, nodesOf; rewrite ?Heq; auto.
Qed.

Lemma sv_ext_iff c c' node e : same_view c c' node → externalReachable node e = true → e ∈ extsOf c node ↔ e ∈ extsOf c' node.
Proof.
  intros Hv Hr. assert (∀ l : list ExternalOutbound, e ∈ l ↔ e ∈ filter (λ e, externalReachable node e = true) l) as Hf.
  { intros l. rewrite list_elem_of_filter. naive_solver. }
  by rewrite (Hf (extsOf c node)), (Hf (extsOf c' node)), (sv_exts _ _ _ Hv).
Qed.

Lemma sv_peer_iff c c' node n : same_view c c' node → peerEligible node n = true → n ∈ nodesOf c node ↔ n ∈ nodesOf c' node.
Proof.
  intros Hv Hr. assert (∀ l : list SingBoxNode, n ∈ l ↔ n ∈ filter (λ n, peerEligible node n = true) l) as Hf.
  { intros l. rewrite list_elem_of_filter. naive_solver. }
  by rewrite (Hf (nodesOf c node)), (Hf (nodesOf c' node)), (sv_peers _ _ _ Hv).
Qed.

#[export] Instance same_view_equiv node : Equivalence (λ c c', same_view c c' node).
Proof.
  split.
  - intros c. by apply same_view_ext.
  - intros c c' Hv. pose proof (sv_users _ _ _ Hv) as Hu. split; try (symmetry; apply Hv; fail).
    + intros e He Hr. symmetry. apply (sv_names _ _ _ Hv); [by apply (sv_ext_iff _ _ _ _ Hv)|done].
    + intros u Hin. symmetry. apply (sv_groups _ _ _ Hv). by rewrite Hu.
    + intros u Hin. symmetry. apply (sv_auth _ _ _ Hv). by rewrite Hu.
    + rewrite <- (sv_policies _ _ _ Hv). destruct (sv_resolve _ _ _ Hv) as [?|[? ?]]; auto.
    + intros n Hn Hel. symmetry. apply (sv_relay _ _ _ Hv); [by apply (sv_peer_iff _ _ _ _ Hv)|done].
    + intros Hrole. symmetry. by apply (sv_self _ _ _ Hv).
    + intros e ref He Hr Href. symmetry. apply (sv_cred _ _ _ Hv); [by apply (sv_ext_iff _ _ _ _ Hv)|done..].
  - intros c1 c2 c3 H12 H23. pose proof (sv_users _ _ _ H12) as Hu. pose proof (sv_policies _ _ _ H12) as Hp.
    split; try (etrans; [apply H12|apply H23]; fail).
    + intros e He Hr. rewrite (sv_names _ _ _ H12) by done. apply (sv_names _ _ _ H23); [by apply (sv_ext_iff _ _ _ _ H12)|done].
    + intros u Hin. rewrite (sv_groups _ _ _ H12) by done. apply (sv_groups _ _ _ H23). by rewrite <- Hu.
    + intros u Hin. rewrite (sv_auth _ _ _ H12) by done. apply (sv_auth _ _ _ H23). by rewrite <- Hu.
    + destruct (sv_resolve _ _ _ H12) as [?|[Hn He]]; [by left|].
      destruct (sv_resolve _ _ _ H23) as [Hnil|[Hn' He']]; [left; by rewrite Hp|right; split; congruence].
    + intros n Hn Hel. rewrite (sv_relay _ _ _ H12) by done. apply (sv_relay _ _ _ H23); [by apply (sv_peer_iff _ _ _ _ H12)|done].
    + intros Hrole. rewrite (sv_self _ _ _ H12) by done. by apply (sv_self _ _ _ H23).
    + intros e ref He Hr Href. rewrite (sv_cred _ _ _ H12 e ref) by done. apply (sv_cred _ _ _ H23); [by apply (sv_ext_iff _ _ _ _ H12)|done..].
Qed.

(** ** Lists read at different times *)

(** The cluster whose nodes, external outbounds, users and policies are those of
    four clusters, and whose other objects are those of a fifth. *)
Definition mixed (c cn ce cu cp : cluster) : cluster := λ k,
  match k with
  | KSingBoxNode => cn KSingBoxNode | KExternalOutbound => ce KExternalOutbound | KUser => cu KUser | KEgressPolicy => cp KEgressPolicy
  | k => c k
  end.

Lemma mixed_view c cn ce cu cp node :
  same_view cn c node → same_view ce c node → same_view cu c node → same_view cp c node → same_view (mixed c cn ce cu cp) c node.
Proof.
  intros Hn He Hu Hp. split; try (intros; reflexivity).
  - exact (sv_peers _ _ _ Hn).
  - exact (sv_exts _ _ _ He).
  - intros e Hin Hr. change (e ∈ extsOf ce node) in Hin. change (namesOf (mixed c cn ce cu cp) node) with (namesOf cn node).
    apply (sv_names _ _ _ Hn); [|done]. apply (sv_ext_iff _ _ _ _ Hn Hr). by apply (sv_ext_iff _ _ _ _ He Hr).
  - exact (sv_users _ _ _ Hu).
  - exact (sv_policies _ _ _ Hp).
  - change (policiesOf (mixed c cn ce cu cp) node) with (policiesOf cp node). rewrite (sv_policies _ _ _ Hp), <- (sv_policies _ _ _ Hn).
    destruct (sv_resolve _ _ _ Hn) as [?|[Hnn _]]; [by left|]. rewrite (sv_policies _ _ _ Hn), <- (sv_policies _ _ _ He).
    destruct (sv_resolve _ _ _ He) as [?|[_ Hee]]; [by left|right]. done.
Qed.
End readset.
