(* ===== verification/ConfigOf.v ===== *)
(** * ConfigOf: the configuration a cluster calls for

    [configOf c node policies] is Compute of what collectInput reads in [c] when
    the policies are listed in the order [policies]; [callsFor c node out] says
    that [out] is that for some order.  Both are invariant under changes of status and bookkeeping metadata of the other
    objects, under label changes when no policy selects the node, and, for a node
    without the inbound role, under everything but its own relay credential. *)

From S2P Require Import Prelude GoStrings Json Api Engine K8s CredManager NodeController NodeProps HandlerProps Snapshot Cluster Strip ReadSet.

Definition strip_cluster (keep : bool) (c : cluster) : cluster := λ k,
  match k return gmap NamespacedName (obj k) with
  | KSingBoxNode => fmap (M := gmap NamespacedName) (strip_node keep) (c KSingBoxNode)
  | KExternalOutbound => fmap (M := gmap NamespacedName) (strip_ext keep) (c KExternalOutbound)
  | KUser => c KUser | KUserGroup => c KUserGroup | KEgressPolicy => c KEgressPolicy | KSecret => c KSecret
  | KConfigMap => c KConfigMap | KPod => c KPod | KService => c KService | KNode => c KNode
  end.

Lemma listing_strip k (g : obj k → obj k) ns (m : gmap NamespacedName (obj k)) :
  (∀ o, obj_name k (g o) = obj_name k o) → (∀ o, obj_ns k (g o) = obj_ns k o) →
  listing k (InNamespace ns) (g <$> m) = g <$> listing k (InNamespace ns) m.
Proof.
  intros Hname Hns. unfold listing.
  assert ((map_to_list (g <$> m)).*2 = g <$> (map_to_list m).*2) as ->.
  { rewrite map_to_list_fmap, <- !list_fmap_compose. by apply list_fmap_ext. }
  rewrite (filter_fmap_eq g (selected k (InNamespace ns))) by (intros o; simpl; by rewrite Hns).
  by apply sort_by_fmap.
Qed.

Lemma findOutboundNode_strip keep nodes name :
  findOutboundNode (strip_node keep <$> nodes) name = strip_node keep <$> findOutboundNode nodes name.
Proof.
  unfold findOutboundNode. rewrite list_find_fmap.
  change (list_find (_ ∘ strip_node keep) nodes) with (list_find (λ n, GetName n = name ∧ hasRole n ProxyRoleOutbound = true) nodes).
  by destruct (list_find _ nodes) as [[]|].
Qed.

Lemma findExternalOutbound_strip keep exts name :
  findExternalOutbound (strip_ext keep <$> exts) name = strip_ext keep <$> findExternalOutbound exts name.
Proof.
  unfold findExternalOutbound. rewrite list_find_fmap.
  change (list_find (_ ∘ strip_ext keep) exts) with (list_find (λ e, GetName e = name) exts).
  by destruct (list_find _ exts) as [[]|].
Qed.

Lemma egressConnected_strip keep node name nodes exts :
  egressConnectedToInbound node name (strip_node keep <$> nodes) (strip_ext keep <$> exts) = egressConnectedToInbound node name nodes exts.
Proof.
  unfold egressConnectedToInbound. rewrite findOutboundNode_strip, findExternalOutbound_strip.
  destruct (findOutboundNode nodes name); [done|]. by destruct (findExternalOutbound exts name).
Qed.

Section configof.
Context `{NotFoundErrors, GoStd, LabelSelectors} (r : SingBoxNodeReconciler).

Lemma resolveEgressPolicy_strip p nodes exts :
  resolveEgressPolicy p (strip_node true <$> nodes) (strip_ext true <$> exts) = resolveEgressPolicy p nodes exts.
Proof.
  unfold resolveEgressPolicy. replace (egressMatches p (strip_node true <$> nodes) (strip_ext true <$> exts)) with (egressMatches p nodes exts); [done|].
  unfold egressMatches.
  rewrite (filter_fmap_eq (strip_node true) (λ n, hasRole n ProxyRoleOutbound && EgressPolicySelector_Matches (ps_EgressSelector (policy_spec p)) n)) by done.
  rewrite (filter_fmap_eq (strip_ext true) (λ e, EgressPolicySelector_Matches (ps_EgressSelector (policy_spec p)) e)) by done.
  by rewrite names_strip_nodes, names_strip_exts.
Qed.

Section hom.
Context (keep : bool) (c : cluster) (node : SingBoxNode).
Let c' := strip_cluster keep c.
Let S := strip_input keep.

Lemma nodesOf_strip : nodesOf c' node = strip_node keep <$> nodesOf c node.
Proof.
  unfold nodesOf. simpl. rewrite (listing_strip KSingBoxNode (strip_node keep)) by done.
  by apply (sort_by_fmap (strip_node keep) GetName GetName).
Qed.

Lemma extsOf_strip : extsOf c' node = strip_ext keep <$> extsOf c node.
Proof.
  unfold extsOf. simpl. rewrite (listing_strip KExternalOutbound (strip_ext keep)) by done.
  by apply (sort_by_fmap (strip_ext keep) GetName GetName).
Qed.

Lemma namesOf_strip : namesOf c' node = namesOf c node.
Proof. unfold namesOf. by rewrite nodesOf_strip, names_strip_nodes. Qed.

Lemma reads_strip_secret key : reads c' (Get KSecret key) = reads c (Get KSecret key).
Proof. done. Qed.

Lemma loadNode_strip name ns i : snap_run (reads c') (loadNodeCredential name ns (S i)) = S (snap_run (reads c) (loadNodeCredential name ns i)).
Proof.
  unfold loadNodeCredential, GetNodeCredential, mbind, prog_mbind, do. cbn [prog_bind snap_run]. rewrite reads_strip_secret.
  by destruct (reads c (Get KSecret _)).
Qed.

Lemma loadExternal_strip e i :
  snap_run (reads c') (loadExternalCredential (strip_ext keep e) (S i)) = S (snap_run (reads c) (loadExternalCredential e i)).
Proof.
  unfold loadExternalCredential, GetExternalCredentials, mbind, prog_mbind, do. cbn [strip_ext eob_spec].
  destruct (es_CredentialsSecretRef (eob_spec e)) as [ref|]; [|done]. cbn [prog_bind snap_run]. rewrite reads_strip_secret.
  change (GetNamespace (strip_ext keep e)) with (GetNamespace e). by destruct (reads c (Get KSecret _)).
Qed.

Lemma collectPeer_strip i n :
  snap_run (reads c') (collectPeer node (S i) (strip_node keep n)) = S (snap_run (reads c) (collectPeer node i n)).
Proof.
  rewrite !collectPeer_eligible. change (peerEligible node (strip_node keep n)) with (peerEligible node n).
  destruct (peerEligible node n); [|done]. rewrite <- loadNode_strip. change (GetName (strip_node keep n)) with (GetName n). do 2 f_equal.
  unfold S, strip_input, upd_nodes. simpl. f_equal; [by rewrite fmap_app|by rewrite fmap_insert].
Qed.

Lemma collectExternal_strip names i e :
  snap_run (reads c') (collectExternal node names (S i) (strip_ext keep e)) = S (snap_run (reads c) (collectExternal node names i e)).
Proof.
  rewrite !collectExternal_eligible. change (externalReachable node (strip_ext keep e)) with (externalReachable node e).
  change (GetName (strip_ext keep e)) with (GetName e). destruct (_ && _); [|done]. rewrite <- loadExternal_strip. do 2 f_equal.
  unfold S, strip_input, upd_externals. simpl. f_equal; [by rewrite fmap_app|by rewrite fmap_insert].
Qed.

Lemma collectPolicy_strip nodes exts i p :
  keep = true →
  snap_run (reads c') (collectPolicy node (strip_node keep <$> nodes) (strip_ext keep <$> exts) (S i) p)
  = S (snap_run (reads c) (collectPolicy node nodes exts i p)).
Proof.
  intros Hkeep. unfold collectPolicy. destruct (negb _ || _); [done|].
  replace (resolveEgressPolicy p (strip_node keep <$> nodes) (strip_ext keep <$> exts)) with (resolveEgressPolicy p nodes exts)
    by (by rewrite Hkeep, resolveEgressPolicy_strip).
  destruct (resolveEgressPolicy p nodes exts) as [[names egress] msg].
  rewrite egressConnected_strip, findOutboundNode_strip, findExternalOutbound_strip. repeat (case_match; [done|]).
  destruct (findOutboundNode nodes egress) as [n|]; cbn [fmap option_fmap option_map].
  - rewrite <- loadNode_strip. change (GetName (strip_node keep n)) with (GetName n). do 2 f_equal.
    unfold S, strip_input, upd_nodes, upd_policies. simpl. by rewrite fmap_insert.
  - destruct (findExternalOutbound exts egress) as [e|]; cbn [fmap option_fmap option_map]; [|done].
    rewrite <- loadExternal_strip. change (GetName (strip_ext keep e)) with (GetName e). do 2 f_equal.
    unfold S, strip_input, upd_externals, upd_policies. simpl. by rewrite fmap_insert.
Qed.

Lemma usersInput_strip : usersInput r c' node = S (usersInput r c node).
Proof.
  assert (extsInput r c' node = S (extsInput r c node)) as He.
  { unfold extsInput. rewrite namesOf_strip, extsOf_strip. replace (peersInput r c' node) with (S (peersInput r c node)).
    { apply foldl_hom. intros. apply collectExternal_strip. }
    unfold peersInput. rewrite nodesOf_strip. symmetry.
    change (emptyInput r node) with (S (emptyInput r node)) at 1. apply foldl_hom. intros. apply collectPeer_strip. }
  unfold usersInput. rewrite He. destruct (hasRole node ProxyRoleInbound); [|done].
  change (usersOf c' node) with (usersOf c node). rewrite <- (list_fmap_id (usersOf c node)) at 1. by apply foldl_hom.
Qed.

Lemma inputOf_strip policies :
  keep = true ∨ Forall (λ p, selects node p = false) policies → inputOf r c' node policies = S (inputOf r c node policies).
Proof.
  intros Hkeep. assert (policiesInput r c' node policies = S (policiesInput r c node policies)) as Hp.
  { unfold policiesInput. rewrite nodesOf_strip, extsOf_strip, usersInput_strip. rewrite <- (list_fmap_id policies) at 1.
    apply foldl_hom. intros st p Hin. destruct Hkeep as [Hkeep|Hno]; [by apply collectPolicy_strip|].
    rewrite Forall_forall in Hno. rewrite !collectPolicy_skip by (by apply Hno). done. }
  unfold inputOf. rewrite Hp. destruct (hasRole node ProxyRoleOutbound); [|done]. apply loadNode_strip.
Qed.
End hom.

(** ** Policies of the input *)
Definition sameFields (i i' : Input) : Prop :=
  EgressPolicies i = EgressPolicies i' ∧ UsageCollectionEnabled i = UsageCollectionEnabled i' ∧
  V2RayAPIListenAddr i = V2RayAPIListenAddr i' ∧ Node i = Node i'.

Lemma loadNode_fields c name ns i : sameFields (snap_run (reads c) (loadNodeCredential name ns i)) i.
Proof. destruct (snap_loadNode (reads c) name ns i) as [creds ->]. done. Qed.

Lemma loadExternal_fields c e i : sameFields (snap_run (reads c) (loadExternalCredential e i)) i ∧
  NodeCreds (snap_run (reads c) (loadExternalCredential e i)) = NodeCreds i ∧ Users (snap_run (reads c) (loadExternalCredential e i)) = Users i.
Proof. destruct (snap_loadExternal (reads c) e i) as (creds & -> & _). done. Qed.

(** The stages before the policies leave the fields alone that the engine reads without them. *)
Lemma extsInput_fields c node :
  let i := extsInput r c node in
  sameFields i (emptyInput r node) ∧ Users i = [] ∧ NodeCreds i !! GetName node = None.
Proof.
  cbv zeta. unfold extsInput. apply foldl_inv.
  - unfold peersInput. apply foldl_inv; [done|]. intros i n _ (Hf & Hu & Hc). rewrite collectPeer_eligible.
    destruct (peerEligible node n) eqn:He; [|done].
    assert (GetName n ≠ GetName node) as Hne by (unfold peerEligible in He; by bool_prop).
    unfold loadNodeCredential, GetNodeCredential, mbind, prog_mbind, do. cbn [prog_bind snap_run reads].
    destruct (c KSecret !! _); [|done]. cbn [prog_bind snap_run]. split_and!; [done..|]. simpl. by rewrite lookup_insert_ne.
  - intros i e _ (Hf & Hu & Hc). rewrite collectExternal_eligible. destruct (_ && _); [|done].
    match goal with |- context [loadExternalCredential e ?x] => destruct (loadExternal_fields c e x) as (Hf' & -> & ->) end.
    split_and!; [|done..]. unfold sameFields in *. simpl in *. intuition congruence.
Qed.

(** No policy selects the node: the input has none. *)
Lemma inputOf_no_policies c node policies :
  Forall (λ p, selects node p = false) policies → EgressPolicies (inputOf r c node policies) = [].
Proof.
  intros Hno. rewrite Forall_forall in Hno. assert (EgressPolicies (policiesInput r c node policies) = []) as Hp.
  { unfold policiesInput. apply foldl_inv.
    - destruct (extsInput_fields c node) as ((Hf & _) & _). unfold usersInput. destruct (hasRole node _); [|done].
      apply (foldl_inv (λ i, EgressPolicies i = [])); done.
    - intros i p Hin Hi. by rewrite collectPolicy_skip by (by apply Hno). }
  unfold inputOf. destruct (hasRole node ProxyRoleOutbound); [|done].
  by destruct (loadNode_fields c (GetName node) (GetNamespace node) (policiesInput r c node policies)) as [-> _].
Qed.

Context `{MapRange}.

Definition configOf (c : cluster) (node : SingBoxNode) (policies : list EgressPolicy) : Output := Compute (inputOf r c node policies).

(** What the cluster calls for, in one of the orders in which its policies may be listed. *)
Definition callsFor (c : cluster) (node : SingBoxNode) (out : Output) : Prop :=
  ∃ policies, policies ≡ₚ policiesOf c node ∧ out = configOf c node policies.

Lemma configOf_strip keep c node policies :
  keep = true ∨ Forall (λ p, selects node p = false) policies →
  configOf (strip_cluster keep c) node policies = configOf c node policies.
Proof.
  intros Hkeep. unfold configOf. rewrite inputOf_strip by done. apply Compute_strip.
  destruct Hkeep as [?|Hno]; [by left|right]. by apply inputOf_no_policies.
Qed.

Lemma configOf_selected c node policies policies' :
  filter (λ p, selects node p = true) policies = filter (λ p, selects node p = true) policies' →
  configOf c node policies = configOf c node policies'.
Proof.
  intros Heq. unfold configOf, inputOf. rewrite (policiesInput_selected r node c policies), Heq, <- (policiesInput_selected r node c policies'). done.
Qed.

(** ** Nodes without the inbound role *)
Lemma computeConfig_relay i i' :
  sameFields i i' → EgressPolicies i = [] → Users i = [] → Users i' = [] → hasRole (Node i) ProxyRoleInbound = false →
  (hasRole (Node i) ProxyRoleOutbound = true → NodeCreds i !! GetName (Node i) = NodeCreds i' !! GetName (Node i)) →
  Compute i = Compute i'.
Proof.
  intros (Hp & He & Hl & Hn) Hno Hu Hu' Hin Hc. unfold Compute.
  assert (∀ l : list string, (l ≫= λ n, map (λ user : User, virtualUserName (GetName user) n) []) = []) as Hnil.
  { intros l. induction l as [|x l IH]; [done|]. by rewrite bind_cons, IH. }
  assert (buildExperimentalConfig i = buildExperimentalConfig i') as Hx.
  { unfold buildExperimentalConfig. by rewrite Hu, Hu', Hl, !Hnil. }
  assert (policiesForNode i = [] ∧ policiesForNode i' = []) as [Hpi Hpi'].
  { unfold policiesForNode. by rewrite <- Hp, Hno. }
  assert (hasRole (Node i) ProxyRoleOutbound = true → buildRelayInbound i = buildRelayInbound i') as Hr.
  { intros Hrole. unfold buildRelayInbound, map_index. by rewrite <- Hn, Hc. }
  unfold computeConfig. rewrite <- Hn, <- He, Hin, Hpi, Hpi', Hx.
  destruct (hasRole (Node i) ProxyRoleOutbound); [|done]. by rewrite Hr.
Qed.

(** The entry for the node's own credential. *)
Definition ownCred (c : cluster) (node : SingBoxNode) : option NodeCredential := secretCredential <$> c KSecret !! relayKey node node.

Lemma inputOf_relay c node policies :
  hasRole node ProxyRoleInbound = false →
  let i := inputOf r c node policies in
  sameFields i (emptyInput r node) ∧ Users i = [] ∧
  (hasRole node ProxyRoleOutbound = true → NodeCreds i !! GetName node = ownCred c node).
Proof.
  intros Hin. cbv zeta. destruct (extsInput_fields c node) as (Hf & Hu & Hc).
  assert (policiesInput r c node policies = extsInput r c node) as Hp.
  { unfold policiesInput, usersInput. rewrite Hin. apply (foldl_inv (λ i, i = extsInput r c node)); [done|].
    intros i p _ ->. apply collectPolicy_skip. unfold selects. by rewrite Hin. }
  unfold inputOf. rewrite Hp. destruct (hasRole node ProxyRoleOutbound) eqn:Hout; [|done].
  unfold loadNodeCredential, GetNodeCredential, ownCred, relayKey, mbind, prog_mbind, do. cbn [prog_bind snap_run reads].
  destruct (c KSecret !! _) as [secret|]; cbn [prog_bind snap_run]; [|done].
  split_and!; [done..|]. intros _. simpl. by rewrite lookup_insert_eq.
Qed.

Lemma configOf_relay c c' node policies policies' :
  hasRole node ProxyRoleInbound = false →
  (hasRole node ProxyRoleOutbound = true → c KSecret !! relayKey node node = c' KSecret !! relayKey node node) →
  configOf c node policies = configOf c' node policies'.
Proof.
  intros Hin Hself. destruct (inputOf_relay c node policies Hin) as (Hf & Hu & Hc), (inputOf_relay c' node policies' Hin) as (Hf' & Hu' & Hc').
  unfold configOf. destruct Hf as (Hp & He & Hl & Hn), Hf' as (Hp' & He' & Hl' & Hn').
  apply computeConfig_relay; rewrite ?Hn; [unfold sameFields; intuition congruence|done|done|done|done|].
  intros Hout. simpl in Hout |- *. rewrite (Hc Hout), (Hc' Hout). unfold ownCred. f_equal. exact (Hself Hout).
Qed.

(** ** Clusters that call for the same configuration *)

(** Labels matter to a node that a policy selects. *)
Definition keepOf (c : cluster) (node : SingBoxNode) : bool :=
  negb (bool_decide (filter (λ p, selects node p = true) (policiesOf c node) = [])).

(** What the node can see of the cluster. *)
Definition view (c : cluster) (node : SingBoxNode) : cluster := strip_cluster (keepOf c node) c.

(** The node sees the same: with the inbound role what collectInput reads of the
    views, otherwise its own relay credential. *)
Definition agree (node : SingBoxNode) (c c' : cluster) : Prop :=
  if hasRole node ProxyRoleInbound then same_view (view c node) (view c' node) node
  else hasRole node ProxyRoleOutbound = true → c KSecret !! relayKey node node = c' KSecret !! relayKey node node.

#[export] Instance agree_equiv node : Equivalence (agree node).
Proof.
  unfold agree. destruct (hasRole node ProxyRoleInbound).
  - pose proof (same_view_equiv node) as [Hr Hs Ht]. split; [intros c; apply Hr|intros c c'; apply Hs|intros c1 c2 c3; apply Ht].
  - split; [done|intros c c' Hc Hout; symmetry; by apply Hc|intros c1 c2 c3 H12 H23 Hout; etrans; [by apply H12|by apply H23]].
Qed.

Lemma keepOf_view c node : keepOf c node = true ∨ Forall (λ p, selects node p = false) (policiesOf c node).
Proof.
  unfold keepOf. case_bool_decide as Hnil; [right|by left]. apply Forall_forall. intros p Hp. destruct (selects node p) eqn:Hsel; [|done].
  assert (p ∈ filter (λ p, selects node p = true) (policiesOf c node)) as Hin by (by apply list_elem_of_filter).
  rewrite Hnil in Hin. by apply elem_of_nil in Hin.
Qed.

Lemma keepOf_same c c' node :
  filter (λ p, selects node p = true) (policiesOf c node) = filter (λ p, selects node p = true) (policiesOf c' node) → keepOf c node = keepOf c' node.
Proof. unfold keepOf. by intros ->. Qed.

(** Clusters that agree have the same policies that select the node. *)
Lemma agree_selected c c' node :
  agree node c c' → filter (λ p, selects node p = true) (policiesOf c node) = filter (λ p, selects node p = true) (policiesOf c' node).
Proof.
  unfold agree. destruct (hasRole node ProxyRoleInbound) eqn:Hin; [intros Hv; exact (sv_policies _ _ _ Hv)|]. intros _.
  assert (∀ l, filter (λ p, selects node p = true) l = []) as Hnone; [|by rewrite !Hnone].
  intros l. apply filter_none, Forall_forall. intros p _. unfold selects. by rewrite Hin.
Qed.

Lemma configOf_agree c c' node policies :
  agree node c c' → policies ≡ₚ policiesOf c node → configOf c node policies = configOf c' node policies.
Proof.
  intros Ha Hp. pose proof (agree_selected c c' node Ha) as Hsel. revert Ha. unfold agree.
  destruct (hasRole node ProxyRoleInbound) eqn:Hin; [|by apply configOf_relay].
  intros Hv. pose proof (inputOf_congr r _ _ node Hv policies Hp) as Hi.
  assert (keepOf c node = true ∨ Forall (λ p, selects node p = false) policies) as Hkeep.
  { rewrite Hp. apply keepOf_view. }
  apply (f_equal Compute) in Hi. fold (configOf (view c node) node policies) (configOf (view c' node) node policies) in Hi.
  unfold view in Hi. rewrite <- (keepOf_same c c' node Hsel) in Hi. by rewrite !configOf_strip in Hi.
Qed.

Lemma callsFor_agree c c' node out : agree node c c' → callsFor c node out → callsFor c' node out.
Proof.
  intros Ha (policies & Hp & ->). pose proof (agree_selected c c' node Ha) as Hsel.
  exists (filter (λ p, selects node p = true) policies ++ filter (λ p, ¬ selects node p = true) (policiesOf c' node)). split.
  - etrans; [|apply (filter_app_complement (λ p, selects node p = true))]. apply Permutation_app; [|done].
    rewrite <- Hsel. by apply filter_Permutation.
  - rewrite (configOf_agree c c') by done. apply configOf_selected. rewrite filter_app.
    rewrite (filter_none (selects node) (filter _ (policiesOf c' node))).
    + rewrite app_nil_r, list_filter_filter. apply list_filter_iff. tauto.
    + apply Forall_forall. intros p [Hno _]%list_elem_of_filter. by apply not_true_is_false.
Qed.

(** *** Views of equal, mixed and stripped clusters *)
Lemma same_view_strip keep c c' node : same_view c c' node → same_view (strip_cluster keep c) (strip_cluster keep c') node.
Proof.
  intros Hv. split; rewrite ?nodesOf_strip, ?extsOf_strip, ?namesOf_strip.
  - rewrite !(filter_fmap_eq (strip_node keep) (peerEligible node)) by done. by rewrite (sv_peers _ _ _ Hv).
  - rewrite !(filter_fmap_eq (strip_ext keep) (externalReachable node)) by done. by rewrite (sv_exts _ _ _ Hv).
  - intros e (e' & -> & He)%list_elem_of_fmap Hr. by apply (sv_names _ _ _ Hv e').
  - exact (sv_users _ _ _ Hv).
  - exact (sv_groups _ _ _ Hv).
  - exact (sv_auth _ _ _ Hv).
  - exact (sv_policies _ _ _ Hv).
  - destruct (sv_resolve _ _ _ Hv) as [?|[-> ->]]; [by left|by right].
  - intros n (n' & -> & Hn)%list_elem_of_fmap Hel. by apply (sv_relay _ _ _ Hv n').
  - exact (sv_self _ _ _ Hv).
  - intros e ref (e' & -> & He)%list_elem_of_fmap Hr. by apply (sv_cred _ _ _ Hv e').
Qed.

Lemma same_view_agree c c' node : same_view c c' node → agree node c c'.
Proof.
  intros Hv. unfold agree. destruct (hasRole node ProxyRoleInbound); [|by apply (sv_self _ _ _ Hv)].
  unfold view. rewrite (keepOf_same c c' node) by apply (sv_policies _ _ _ Hv). by apply same_view_strip.
Qed.

Lemma strip_twice keep c k : strip_cluster false (strip_cluster keep c) k = strip_cluster false c k.
Proof. destruct k; simpl; try done; rewrite <- map_fmap_compose; apply map_fmap_ext; by destruct keep. Qed.

Lemma strip_ext_eq keep (c c' : cluster) k : (∀ k, c k = c' k) → strip_cluster keep c k = strip_cluster keep c' k.
Proof. intros Heq. by destruct k; simpl; rewrite Heq. Qed.

Lemma agree_strip keep c c' node :
  hasRole node ProxyRoleInbound = true → keep = true ∨ Forall (λ p, selects node p = false) (policiesOf c' node) →
  (∀ k, strip_cluster keep c k = strip_cluster keep c' k) → agree node c c'.
Proof.
  intros Hin Hkeep Heq. unfold agree. rewrite Hin. assert (keepOf c node = keepOf c' node) as Hsame.
  { apply keepOf_same. unfold policiesOf. by rewrite (Heq KEgressPolicy : c KEgressPolicy = c' KEgressPolicy). }
  unfold view. rewrite Hsame. apply same_view_ext. intros k. destruct (decide (keepOf c' node = keep)) as [->|Hne]; [apply Heq|].
  assert (keep = true ∧ keepOf c' node = false) as [-> ->].
  { destruct keep, (keepOf c' node) eqn:Hk; try done. exfalso. destruct Hkeep as [|Hno]; [done|].
    unfold keepOf in Hk. rewrite filter_none in Hk by done. by rewrite bool_decide_true in Hk. }
  rewrite <- (strip_twice true c), <- (strip_twice true c'). by apply strip_ext_eq.
Qed.

(** Lists read from clusters that agree with one another. *)
Lemma mixed_agree c cn ce cu cp node :
  hasRole node ProxyRoleInbound = true → agree node cn c → agree node ce c → agree node cu c → agree node cp c →
  agree node (mixed c cn ce cu cp) c.
Proof.
  unfold agree. intros -> Hn He Hu Hp.
  assert (∀ d, same_view (view d node) (view c node) node → keepOf d node = keepOf c node) as Hkeep.
  { intros d Hd. apply keepOf_same. exact (sv_policies _ _ _ Hd). }
  pose proof (mixed_view (view c node) (view cn node) (view ce node) (view cu node) (view cp node) node Hn He Hu Hp) as Hm.
  refine (Equivalence_Transitive (R := λ c c', same_view c c' node) _ _ _ (same_view_ext _ _ _ _) Hm).
  intros k. unfold view. change (keepOf (mixed c cn ce cu cp) node) with (keepOf cp node).
  rewrite (Hkeep cn), (Hkeep ce), (Hkeep cu), (Hkeep cp) by done. by destruct k.
Qed.
End configof.
