(* ===== verification/ReadsApart.v ===== *)
(** * ReadsApart: collectInput when its reads are apart in time

    collectInput lists nodes, external outbounds, users and policies one after
    the other and reads a Secret or a group in between, while other clients
    write.  When every answer comes from some cluster that agrees with [c0] on
    what the node can see, not necessarily the same one, and lists its objects in
    any order, Compute still yields a configuration that [c0] calls for. *)

From S2P Require Import Prelude GoStrings Json Api Engine K8s CredManager NodeController NodeProps HandlerProps Snapshot Cluster Strip ReadSet ConfigOf.

Definition is_read (c : call) : Prop := match c with Get _ _ | List _ _ => True | _ => False end.

(** ** Runs whose answers are determined *)
Section fixed.
Context (ok : event → Prop).

(** The only answer to the call is that of [sn]. *)
Definition fixed (sn : snapshot) (c : call) : Prop := ∀ a, ok (Ev c a) → a = sn c.

Lemma wp_fixed {A} (p : prog A) tr : wp ok p tr (λ _ b, ∀ sn, emits (fixed sn) p → b = snap_run sn p).
Proof.
  revert tr. induction p as [a|c f IH]; intros tr; [done|]. intros a Ha. eapply wp_mono; [|apply IH].
  intros tr' b Hb sn [Hc Hf]. cbn [snap_run]. rewrite <- (Hc a Ha). by apply Hb.
Qed.

Lemma wp_foldM_fixed {A B} (f : B → A → prog B) st l tr :
  wp ok (foldM f st l) tr (λ _ b, ∀ sn, (∀ st x, x ∈ l → emits (fixed sn) (f st x)) → b = foldl (λ st x, snap_run sn (f st x)) st l).
Proof.
  revert st tr. induction l as [|x l IH]; intros st tr; [done|]. cbn [foldM foldl]. apply wp_bind. eapply wp_mono; [|apply wp_fixed].
  intros tr' b Hb. eapply wp_mono; [|apply IH]. intros tr'' b' Hb' sn Hf. rewrite <- (Hb sn) by (apply Hf; left). apply Hb'.
  intros st' y Hy. apply Hf. by right.
Qed.

Lemma wp_foldE_fixed {A B} (f : B → A → prog (error + B)) st l tr :
  wp ok (foldE f st l) tr (λ _ b, ∀ sn, (∀ st x, x ∈ l → emits (fixed sn) (f st x)) → b = snap_run sn (foldE f st l)).
Proof.
  revert st tr. induction l as [|x l IH]; intros st tr; [done|]. cbn [foldE]. apply wp_bind. eapply wp_mono; [|apply wp_fixed].
  intros tr' [e|st'] Hb; [intros sn Hf; rewrite snap_run_bind, <- (Hb sn) by (apply Hf; left); done|].
  eapply wp_mono; [|apply IH]. intros tr'' b' Hb' sn Hf. rewrite snap_run_bind, <- (Hb sn) by (apply Hf; left). apply Hb'.
  intros st2 y Hy. apply Hf. by right.
Qed.
End fixed.

Section apart.
Context `{NotFoundErrors, GoStd, LabelSelectors, MapRange} (r : SingBoxNodeReconciler) (c0 : cluster) (node : SingBoxNode).

(** The answer to a read is that of a cluster that agrees with [c0], with a listing in any order. *)
Definition seen (e : event) : Prop :=
  is_read (ev_call e) → ∃ c, keyed c ∧ agree node c c0 ∧ alike (ev_call e) (ev_answer e) (reads c (ev_call e)).

Lemma fixed_get sn k key :
  (∀ c, agree node c c0 → c k !! key = c0 k !! key) → sn (Get k key) = reads c0 (Get k key) → fixed seen sn (Get k key).
Proof. intros Hk Hsn a Ha. rewrite Hsn. destruct (Ha I) as (c & _ & Hc & Heq). cbn in *. by rewrite Heq, (Hk c Hc). Qed.

Lemma emits_loadNode (P : call → Prop) name ns i :
  P (Get KSecret {| nn_Namespace := ns; nn_Name := secretName name |}) → emits P (loadNodeCredential name ns i).
Proof. intros HP. unfold loadNodeCredential, GetNodeCredential. emits_solve. Qed.

Lemma emits_loadExternal (P : call → Prop) e i :
  (∀ ref, es_CredentialsSecretRef (eob_spec e) = Some ref → P (Get KSecret (extKey e ref))) → emits P (loadExternalCredential e i).
Proof.
  intros HP. unfold loadExternalCredential, GetExternalCredentials. destruct (es_CredentialsSecretRef (eob_spec e)) as [ref|]; emits_solve.
  by apply (HP ref).
Qed.

(** ** An inbound node *)
Section inbound.
Context (Hin : hasRole node ProxyRoleInbound = true).
Context (cn ce cu cp : cluster) (Hn : agree node cn c0) (He : agree node ce c0) (Hu : agree node cu c0) (Hp : agree node cp c0).
Let m := mixed c0 cn ce cu cp.

Lemma agree_view c c' : agree node c c' → same_view (view c node) (view c' node) node.
Proof. unfold agree. by rewrite Hin. Qed.

Lemma elem_of_view_nodes c n : n ∈ nodesOf c node → strip_node (keepOf c node) n ∈ nodesOf (view c node) node.
Proof. intros Hel. unfold view. rewrite nodesOf_strip. by apply list_elem_of_fmap_2. Qed.

Lemma elem_of_view_exts c e : e ∈ extsOf c node → strip_ext (keepOf c node) e ∈ extsOf (view c node) node.
Proof. intros Hel. unfold view. rewrite extsOf_strip. by apply list_elem_of_fmap_2. Qed.

Lemma fixed_relay n : n ∈ nodesOf cn node → peerEligible node n = true → fixed seen (reads m) (Get KSecret (relayKey node n)).
Proof.
  intros Hel Hp'. apply fixed_get; [|done]. intros c Hc. apply elem_of_view_nodes in Hel.
  assert (agree node cn c) as Hcn%agree_view by (by rewrite Hn, Hc). apply agree_view in Hc.
  change (relayKey node n) with (relayKey node (strip_node (keepOf cn node) n)).
  apply (sv_relay _ _ _ Hc); [|done]. by apply (sv_peer_iff _ _ _ _ Hcn).
Qed.

Lemma fixed_self : hasRole node ProxyRoleOutbound = true → fixed seen (reads m) (Get KSecret (relayKey node node)).
Proof. intros Hout. apply fixed_get; [|done]. intros c Hc%agree_view. by apply (sv_self _ _ _ Hc). Qed.

Lemma fixed_cred e ref :
  e ∈ extsOf ce node → externalReachable node e = true → es_CredentialsSecretRef (eob_spec e) = Some ref →
  fixed seen (reads m) (Get KSecret (extKey e ref)).
Proof.
  intros Hel Hr Href. apply fixed_get; [|done]. intros c Hc. apply elem_of_view_exts in Hel.
  assert (agree node ce c) as Hce%agree_view by (by rewrite He, Hc). apply agree_view in Hc.
  change (extKey e ref) with (extKey (strip_ext (keepOf ce node) e) ref).
  apply (sv_cred _ _ _ Hc); [|done..]. by apply (sv_ext_iff _ _ _ _ Hce).
Qed.

Lemma fixed_user u : u ∈ usersOf cu node →
  fixed seen (reads m) (Get KUserGroup (groupKey node u)) ∧ fixed seen (reads m) (Get KSecret (authKey u)).
Proof.
  intros Hel. assert (∀ c, agree node c c0 → u ∈ usersOf (view c node) node) as Hview.
  { intros c Hc. assert (agree node cu c) as Hcu%agree_view by (by rewrite Hu, Hc).
    rewrite <- (sv_users _ _ _ Hcu : usersOf cu node = usersOf (view c node) node). done. }
  split; (apply fixed_get; [|done]); intros c Hc; pose proof (Hview c Hc) as Hin'; apply agree_view in Hc.
  - by apply (sv_groups _ _ _ Hc).
  - by apply (sv_auth _ _ _ Hc).
Qed.

Lemma peer_fixed i n : n ∈ nodesOf cn node → emits (fixed seen (reads m)) (collectPeer node i n).
Proof.
  intros Hel. rewrite collectPeer_eligible. destruct (peerEligible node n) eqn:Hel'; [|done]. apply emits_loadNode. by apply fixed_relay.
Qed.

Lemma external_fixed i e : e ∈ extsOf ce node → emits (fixed seen (reads m)) (collectExternal node (namesOf cn node) i e).
Proof.
  intros Hel. rewrite collectExternal_eligible. destruct (_ && _) eqn:Hr; [|done]. apply andb_true_iff in Hr as [_ Hr].
  apply emits_loadExternal. intros ref Href. by apply fixed_cred.
Qed.

Lemma user_fixed i u : u ∈ usersOf cu node → emits (fixed seen (reads m)) (collectUser node i u).
Proof.
  intros [Hgroup Hauth]%fixed_user. unfold collectUser, addUser, GetUserCredential. emits_solve.
Qed.

Lemma policy_fixed i p : emits (fixed seen (reads m)) (collectPolicy node (nodesOf cn node) (extsOf ce node) i p).
Proof.
  unfold collectPolicy. destruct (negb _ || _); [done|]. destruct (resolveEgressPolicy p _ _) as [[names egress] msg].
  destruct (msg !=? ""); [done|]. destruct (ps_Action _ ==? _); [done|]. destruct (egress ==? ""); [done|].
  destruct (egressConnectedToInbound node egress _ _) eqn:Hconn; [|done]. simpl negb. cbv iota.
  destruct (findOutboundNode (nodesOf cn node) egress) as [n|] eqn:Hfind.
  - destruct (findOutboundNode_Some _ _ _ Hfind) as (Hel & _ & _).
    destruct (connected_node _ _ _ _ _ Hconn Hfind) as [[Hself Hrole]|Hpeer]; apply emits_loadNode.
    + rewrite Hself. by apply fixed_self.
    + by apply fixed_relay.
  - destruct (findExternalOutbound (extsOf ce node) egress) as [e|] eqn:Hext; [|done].
    destruct (findExternalOutbound_Some _ _ _ Hext) as [Hel _]. apply emits_loadExternal. intros ref Href.
    apply fixed_cred; [done| |done]. by eapply connected_external.
Qed.
End inbound.

(** Splits the answer to a List of [k]: the objects of some agreeing cluster. *)
Lemma seen_list k ns a : seen (Ev (List k (InNamespace ns)) a) →
  ∃ c l, a = inr l ∧ agree node c c0 ∧ l ≡ₚ listing k (InNamespace ns) (c k) ∧
    sort_by (less_on (obj_name k)) l = sort_by (less_on (obj_name k)) (listing k (InNamespace ns) (c k)).
Proof.
  intros Ha. destruct (Ha I) as (c & Hk & Hc & Heq). cbn in Heq. destruct a as [e|l]; [done|]. exists c, l. split_and!; [done..|].
  by apply (sort_listing c k ns (obj_name k)).
Qed.

Lemma inbound_apart tr :
  hasRole node ProxyRoleInbound = true →
  wp seen (collectInput r node) tr (λ _ res, ∃ cn ce cu cp policies, agree node (mixed c0 cn ce cu cp) c0 ∧
    policies ≡ₚ policiesOf (mixed c0 cn ce cu cp) node ∧ res = inr (inputOf r (mixed c0 cn ce cu cp) node policies)).
Proof.
  intros Hin. unfold collectInput, mbind, prog_mbind. apply wp_call. intros ? (cn & ln & -> & Hn & _ & Hsn)%seen_list.
  change (@sort_by SingBoxNode (less_on GetName) ln = nodesOf cn node) in Hsn. rewrite Hsn.
  fold (namesOf cn node). apply wp_bind. eapply wp_mono; [|apply wp_foldM_fixed].
  intros tr1 i1 Hi1. apply wp_call. intros ? (ce & le & -> & He & _ & Hse)%seen_list.
  change (@sort_by ExternalOutbound (less_on GetName) le = extsOf ce node) in Hse. rewrite Hse. apply wp_bind.
  eapply wp_mono; [|apply wp_foldM_fixed]. intros tr2 i2 Hi2. rewrite Hin. apply wp_bind, wp_call.
  intros ? (cu & lu & -> & Hu & _ & Hsu)%seen_list. change (@sort_by User (less_on GetName) lu = usersOf cu node) in Hsu. rewrite Hsu.
  eapply wp_mono; [|apply wp_foldE_fixed]. intros tr3 i3 Hi3.
  assert (∀ cp, agree node cp c0 → i3 = inr (foldl (withUser (mixed c0 cn ce cu cp) node) i2 (usersOf cu node))) as Hi3'.
  { intros cp Hp. rewrite <- reads_collectUsers. apply Hi3. intros st u Hel. by apply user_fixed. }
  clear Hi3. rewrite (Hi3' cu Hu). apply wp_call. intros ? (cp & policies & -> & Hp & Hpp & _)%seen_list.
  change (policies ≡ₚ policiesOf cp node) in Hpp. clear Hi3' i3.
  apply wp_bind. eapply wp_mono; [|apply wp_foldM_fixed]. intros tr4 i4 Hi4. set (m := mixed c0 cn ce cu cp) in *.
  assert (agree node m c0) as Hm by (by apply mixed_agree).
  assert (i4 = policiesInput r m node policies) as ->.
  { rewrite (Hi4 (reads m)) by (intros; by apply policy_fixed). rewrite (Hi2 (reads m)) by (intros; by apply external_fixed).
    rewrite (Hi1 (reads m)) by (intros; by apply peer_fixed). unfold policiesInput, usersInput. rewrite Hin. reflexivity. }
  clear Hi1 Hi2 Hi4. destruct (hasRole node ProxyRoleOutbound) eqn:Hout.
  - apply wp_bind. eapply wp_mono; [|apply wp_fixed]. intros tr5 i5 Hi5. rewrite (Hi5 (reads m)) by (apply emits_loadNode; by apply fixed_self).
    exists cn, ce, cu, cp, policies. split_and!; [exact Hm|exact Hpp|]. fold m. unfold inputOf. rewrite Hout. reflexivity.
  - exists cn, ce, cu, cp, policies. split_and!; [exact Hm|exact Hpp|]. fold m. unfold inputOf. rewrite Hout. reflexivity.
Qed.

(** ** A node without the inbound role *)

(** Whatever its peers' Secrets are, the engine only looks at the node's own credential. *)
Definition bare (i : Input) : Prop := sameFields i (emptyInput r node) ∧ Users i = [] ∧ NodeCreds i !! GetName node = None.

Lemma peer_bare ok i n tr : bare i → wp ok (collectPeer node i n) tr (λ _, bare).
Proof.
  intros (Hf & Hu & Hc). rewrite collectPeer_eligible. destruct (peerEligible node n) eqn:He; [|done].
  assert (GetName n ≠ GetName node) as Hne by (unfold peerEligible in He; by bool_prop).
  unfold loadNodeCredential, GetNodeCredential, mbind, prog_mbind, do. cbn [prog_bind wp]. intros [e|secret] _; cbn [prog_bind wp]; [done|].
  split_and!; [done..|]. simpl. by rewrite lookup_insert_ne.
Qed.

Lemma external_bare ok names i e tr : bare i → wp ok (collectExternal node names i e) tr (λ _, bare).
Proof.
  intros (Hf & Hu & Hc). rewrite collectExternal_eligible. destruct (_ && _); [|done].
  unfold loadExternalCredential, GetExternalCredentials. destruct (es_CredentialsSecretRef (eob_spec e)) as [ref|]; [|done].
  unfold mbind, prog_mbind, do. cbn [prog_bind wp]. by intros [?|secret] _.
Qed.

Lemma foldM_skip {A B} (f : B → A → prog B) st l : (∀ st x, f st x = Ret st) → foldM f st l = Ret st.
Proof. intros Hf. induction l as [|x l IH]; [done|]. cbn [foldM]. by rewrite Hf. Qed.

Lemma relay_apart tr :
  hasRole node ProxyRoleInbound = false →
  wp seen (collectInput r node) tr (λ _ res, ∃ i, res = inr i ∧ sameFields i (emptyInput r node) ∧ Users i = [] ∧
    (hasRole node ProxyRoleOutbound = true → NodeCreds i !! GetName node = ownCred c0 node)).
Proof.
  intros Hin. unfold collectInput, mbind, prog_mbind. apply wp_call. intros ? (cn & ln & -> & _)%seen_list. apply wp_bind.
  eapply wp_mono; [|apply (wp_foldM _ (λ _, bare)); [done|intros; by apply peer_bare]]. intros tr1 i1 Hi1.
  apply wp_call. intros ? (ce & le & -> & _)%seen_list. apply wp_bind.
  eapply wp_mono; [|apply (wp_foldM _ (λ _, bare)); [done|intros; by apply external_bare]]. intros tr2 i2 (Hf & Hu & Hc).
  rewrite Hin. cbn [prog_bind]. apply wp_call. intros ? (cp & policies & -> & _)%seen_list.
  rewrite foldM_skip by (intros; unfold collectPolicy; by rewrite Hin). cbn [prog_bind].
  destruct (hasRole node ProxyRoleOutbound) eqn:Hout; [|by exists i2].
  apply wp_bind. eapply wp_mono; [|apply wp_fixed]. intros tr3 i3 Hi3. rewrite (Hi3 (reads c0)); clear Hi3.
  - eexists. split; [reflexivity|]. unfold loadNodeCredential, GetNodeCredential, ownCred, relayKey, mbind, prog_mbind, do. cbn [prog_bind snap_run reads].
    destruct (c0 KSecret !! _) as [secret|]; cbn [prog_bind snap_run]; [|done]. split_and!; [done..|]. intros _. simpl. by rewrite lookup_insert_eq.
  - apply emits_loadNode, fixed_get; [|done]. intros c. unfold agree. rewrite Hin. intros Hc'. by apply Hc'.
Qed.

(** ** Either way *)
Lemma collectInput_apart tr : wp seen (collectInput r node) tr (λ _ res, ∃ i, res = inr i ∧ callsFor r c0 node (Compute i)).
Proof.
  destruct (hasRole node ProxyRoleInbound) eqn:Hin.
  - eapply wp_mono; [|by apply inbound_apart]. intros _ res (cn & ce & cu & cp & policies & Hm & Hp & ->). eexists. split; [reflexivity|].
    apply (callsFor_agree r _ _ _ _ Hm). by exists policies.
  - eapply wp_mono; [|by apply relay_apart]. intros _ res (i & -> & Hf & Hu & Hc). exists i. split; [reflexivity|].
    exists (policiesOf c0 node). split; [done|]. unfold configOf.
    destruct (inputOf_relay r c0 node (policiesOf c0 node) Hin) as (Hf0 & Hu0 & Hc0). destruct Hf as (Hp & He & Hl & Hn), Hf0 as (Hp' & He' & Hl' & Hn').
    apply computeConfig_relay; rewrite ?Hn; [unfold sameFields; intuition congruence|done|done|done|done|].
    intros Hout. simpl in Hout |- *. by rewrite (Hc Hout), (Hc0 Hout).
Qed.
End apart.
