(* ===== verification/WatchComplete.v ===== *)
(** * WatchComplete: the watches notice every change a configuration depends on

    For a change of the cluster and a node that it leaves alone, one of four
    things holds: the change enqueues the node; it enqueues a policy that selects
    the node (whose reconciliation touches the node); it is one of the two kinds
    of change that no watch reports ([unwatched]); or the configuration that the
    cluster calls for is the same before and after it. *)

From S2P Require Import Prelude GoStrings Json Api Engine K8s CredManager NodeController NodeProps HandlerProps Snapshot Cluster Controllers Watches Strip ReadSet ConfigOf.

(** A loop that pushes the same keys for every element. *)
Lemma foldl_push_each {A B} `{Countable A} (keys : list A) (l : list B) st x :
  seen_ok st → x ∈ keys → (∃ y, y ∈ l) ∨ x ∈ st.2 → x ∈ (foldl (λ st _, foldl push_new st keys) st l).2.
Proof.
  intros Hst Hx. revert st Hst. induction l as [|y l IH]; intros st Hst Hor; simpl.
  - destruct Hor as [[v Hv]|]; [by apply elem_of_nil in Hv|done].
  - apply IH; [auto with go|right]. apply foldl_push_new_elem; [done|by right].
Qed.

Section complete.
Context `{WatchLib, NotFoundErrors, GoStd, LabelSelectors, MapRange} (r : SingBoxNodeReconciler).

(** A requested policy of the cluster selects the node. *)
Definition covered (c : cluster) (reqs : NamespacedName → Prop) (node : SingBoxNode) : Prop :=
  ∃ p, p ∈ policiesOf c node ∧ selects node p = true ∧ reqs (keyOf p).

(** The changes that nothing reports to the node: the Secret of a relay
    credential or of a user's UUID, and a SingBoxNode that starts or stops hiding
    an external outbound of the same name. *)
Definition unwatched (c : cluster) (ch : change) (node : SingBoxNode) : bool :=
  match ch_kind ch with
  | KSecret =>
    existsb (λ n, (peerEligible node n || (GetName n ==? GetName node) && hasRole node ProxyRoleOutbound) &&
                  (ch_key ch ==? relayKey node n)) (node :: nodesOf c node) ||
    hasRole node ProxyRoleInbound && existsb (λ u, ch_key ch ==? authKey u) (usersOf c node)
  | KSingBoxNode =>
    match ch with Updated _ _ _ => false | _ => true end && hasRole node ProxyRoleInbound &&
    (nn_Namespace (ch_key ch) ==? GetNamespace node) &&
    existsb (λ e, (GetName e ==? nn_Name (ch_key ch)) && externalReachable node e) (extsOf c node)
  | _ => false
  end.

(** ** What the mappers request *)
Lemma elem_of_namespace c k ns o : keyed c → o ∈ listing k (InNamespace ns) (c k) ↔ obj_ns k o = ns ∧ c k !! obj_key k o = Some o.
Proof. intros Hk. rewrite elem_of_listing by done. simpl. by rewrite bool_decide_eq_true. Qed.

Lemma elem_of_nodesOf c node n : keyed c → n ∈ nodesOf c node ↔ GetNamespace n = GetNamespace node ∧ c KSingBoxNode !! keyOf n = Some n.
Proof. intros Hk. unfold nodesOf. rewrite elem_of_sort_by. apply (elem_of_namespace c KSingBoxNode _ n Hk). Qed.

Lemma elem_of_extsOf c node e : keyed c → e ∈ extsOf c node ↔ GetNamespace e = GetNamespace node ∧ c KExternalOutbound !! keyOf e = Some e.
Proof. intros Hk. unfold extsOf. rewrite elem_of_sort_by. apply (elem_of_namespace c KExternalOutbound _ e Hk). Qed.

Lemma elem_of_usersOf c node u : keyed c → u ∈ usersOf c node ↔ GetNamespace u = GetNamespace node ∧ c KUser !! keyOf u = Some u.
Proof. intros Hk. unfold usersOf. rewrite elem_of_sort_by. apply (elem_of_namespace c KUser _ u Hk). Qed.

Lemma elem_of_policiesOf c node p : keyed c → p ∈ policiesOf c node ↔ GetNamespace p = GetNamespace node ∧ c KEgressPolicy !! keyOf p = Some p.
Proof. intros Hk. apply (elem_of_namespace c KEgressPolicy _ p Hk). Qed.

Section mappers.
Context (c : cluster) (snap : snapshot) (Hk : keyed c) (Hs : snapshot_of c snap).
Context (node : SingBoxNode) (Hnode : c KSingBoxNode !! keyOf node = Some node).

(** What a listing of a namespace returns. *)
Lemma namespace_listed k ns : ∃ l, snap (List k (InNamespace ns)) = inr l ∧ NoDup (obj_name k <$> l) ∧
  ∀ o, o ∈ l ↔ obj_ns k o = ns ∧ c k !! obj_key k o = Some o.
Proof.
  destruct (snapshot_list c snap k (InNamespace ns) Hs) as (l & Hl & Hp). exists l. split_and!; [done| |].
  - rewrite Hp. by apply listing_names_NoDup.
  - intros o. rewrite Hp. by apply elem_of_namespace.
Qed.

Lemma nodes_listed ns : ns = GetNamespace node →
  ∃ l, snap (List KSingBoxNode (InNamespace ns)) = inr l ∧ NoDup (obj_name KSingBoxNode <$> l) ∧ node ∈ (l : list SingBoxNode).
Proof. intros ->. destruct (namespace_listed KSingBoxNode (GetNamespace node)) as (l & Hl & Hnd & Hin). exists l. split_and!; [done..|]. by apply Hin. Qed.

Lemma sameRegion_requests (n : SingBoxNode) :
  GetNamespace n = GetNamespace node → GetName node ≠ GetName n → ns_Region (node_spec node) = ns_Region (node_spec n) →
  keyOf node ∈ snap_run snap (sameRegionNodeMapper (existT KSingBoxNode n)).
Proof.
  intros Hns Hname Hreg. destruct (nodes_listed _ Hns) as (l & Hl & _ & Hin). cbn. rewrite Hl. cbn. apply list_elem_of_fmap. exists node. split; [done|].
  by apply list_elem_of_filter.
Qed.

Lemma elem_of_inboundKeys (l : list SingBoxNode) : node ∈ l → hasRole node ProxyRoleInbound = true → keyOf node ∈ inboundKeys l.
Proof. intros Hl Hin. apply list_elem_of_fmap. exists node. split; [done|]. by apply list_elem_of_filter. Qed.

Lemma user_requests (u : User) :
  GetNamespace u = GetNamespace node → hasRole node ProxyRoleInbound = true →
  keyOf node ∈ snap_run snap (matchingProtocolNodeMapper (existT KUser u)).
Proof. intros Hns Hin. destruct (nodes_listed _ Hns) as (l & Hl & _ & Hel). cbn. rewrite Hl. cbn. by apply elem_of_inboundKeys. Qed.

Lemma group_requests (g : UserGroup) u :
  GetNamespace g = GetNamespace node → hasRole node ProxyRoleInbound = true → u ∈ usersOf c node → us_UserGroupRef (user_spec u) = GetName g →
  keyOf node ∈ snap_run snap (usersInGroupToNodesMapper (existT KUserGroup g)).
Proof.
  intros Hns Hin Hu Href. destruct (nodes_listed _ Hns) as (l & Hl & _ & Hel).
  destruct (namespace_listed KUser (GetNamespace g)) as (us & Hus & _ & Huin).
  cbn. rewrite Hus. cbn. rewrite Hl. cbn. apply elem_of_usersOf in Hu as [Hu1 Hu2]; [|done].
  eapply foldl_push_each; [apply seen_ok_nil|by apply elem_of_inboundKeys|]. left. exists u. apply list_elem_of_filter. split; [done|].
  apply Huin. split; [|done]. unfold GetNamespace in *. by rewrite Hns.
Qed.

Lemma policy_requests (p : EgressPolicy) :
  GetNamespace p = GetNamespace node → selects node p = true → keyOf node ∈ snap_run snap (egressPolicyMapper (existT KEgressPolicy p)).
Proof.
  intros Hns Hsel. destruct (nodes_listed _ Hns) as (l & Hl & _ & Hin). cbn. rewrite Hl. cbn. apply list_elem_of_fmap. exists node.
  split; [done|]. by apply list_elem_of_filter.
Qed.

Lemma affected_requests ns name region :
  ns = GetNamespace node → hasRole node ProxyRoleInbound = true → region ≠ "" → region = ns_Region (node_spec node) →
  keyOf node ∈ snap_run snap (inboundsAffectedByExternalOutbound ns name region).
Proof.
  intros -> Hin Hne Hreg. destruct (nodes_listed _ eq_refl) as (ln & Hln & Hnd & Hl).
  destruct (namespace_listed KExternalOutbound (GetNamespace node)) as (le & Hle & _). destruct (namespace_listed KEgressPolicy (GetNamespace node)) as (pols & Hlp & _).
  cbn. rewrite Hln. cbn. rewrite Hle. cbn. rewrite Hlp. cbn. set (eob := findExternalOutbound _ _).
  assert (affectedBy region eob pols node = true) as Haff.
  { unfold affectedBy. by rewrite Hin, (bool_decide_false (region = "")), bool_decide_true by done. }
  set (f := λ (st : gset string * list NamespacedName) (n : SingBoxNode), _). change (keyOf node ∈ (foldl f (∅, []) ln).2).
  assert (∀ (st : gset string * list NamespacedName) l, NoDup (obj_name KSingBoxNode <$> l) → (node ∈ l ∧ GetName node ∉ st.1) ∨ keyOf node ∈ st.2 → keyOf node ∈ (foldl f st l).2) as Hfold.
  { intros st l. revert st. induction l as [|n l IH]; intros st Hnd' Hor; simpl.
    - destruct Hor as [[Hn _]|]; [by apply elem_of_nil in Hn|done].
    - apply NoDup_cons in Hnd' as [Hn Hnd']. apply IH; [done|]. destruct Hor as [[Hin' Hfresh]|Hor].
      + apply elem_of_cons in Hin' as [<-|Hin'].
        * right. unfold f. rewrite Haff, bool_decide_true by done. simpl. set_solver.
        * left. split; [done|]. unfold f. destruct (_ && _); [|done]. simpl.
          assert (GetName node ≠ GetName n); [|set_solver]. intros Heq. apply Hn. apply list_elem_of_fmap. exists node. by split.
      + right. unfold f. destruct (_ && _); [|done]. simpl. set_solver. }
  apply Hfold; [done|]. left. split; [done|set_solver].
Qed.

Lemma external_requests (e : ExternalOutbound) :
  GetNamespace e = GetNamespace node → hasRole node ProxyRoleInbound = true → es_Region (eob_spec e) ≠ "" →
  es_Region (eob_spec e) = ns_Region (node_spec node) → keyOf node ∈ snap_run snap (externalOutboundMapper (existT KExternalOutbound e)).
Proof. intros. by apply affected_requests. Qed.

Lemma secret_requests (s : Secret) (e : ExternalOutbound) :
  e ∈ extsOf c node → es_CredentialsSecretRef (eob_spec e) = Some (GetName s) → GetNamespace s = GetNamespace node →
  hasRole node ProxyRoleInbound = true → es_Region (eob_spec e) ≠ "" → es_Region (eob_spec e) = ns_Region (node_spec node) →
  keyOf node ∈ snap_run snap (externalCredentialSecretMapper (existT KSecret s)).
Proof.
  intros He Href Hns Hin Hne Hreg. unfold externalCredentialSecretMapper, listOrNil, mbind, prog_mbind, do.
  destruct (namespace_listed KExternalOutbound (GetNamespace s)) as (le & Hle & _ & Hlin).
  cbn [prog_bind snap_run]. rewrite Hle. cbn [prog_bind snap_run]. rewrite snap_run_bind, snap_run_foldM. cbn [snap_run]. rewrite Hns in *.
  apply elem_of_extsOf in He as [Hens He]; [|done].
  assert (e ∈ (le : list ExternalOutbound)) as Hel by (by apply Hlin).
  set (f := λ (st : gset NamespacedName * list NamespacedName) (x : ExternalOutbound), snap_run snap _).
  assert (∀ st x, seen_ok st → seen_ok (f st x) ∧ (keyOf node ∈ st.2 → keyOf node ∈ (f st x).2) ∧ (x = e → keyOf node ∈ (f st x).2)) as Hf.
  { intros st x Hst. unfold f. case_bool_decide as Hd; [split_and!; [done..|]; intros ->; by rewrite Href in Hd|].
    rewrite snap_run_bind. cbn [snap_run]. split_and!; [auto with go| |].
    - intros. apply foldl_push_new_elem; auto.
    - intros ->. apply foldl_push_new_elem; [done|right]. by apply affected_requests. }
  assert (∀ l st, seen_ok st → e ∈ l ∨ keyOf node ∈ st.2 → keyOf node ∈ (foldl f st l).2) as Hfold.
  { induction l as [|x l IH]; intros st Hst Hor; simpl; [destruct Hor as [Hor|]; [by apply elem_of_nil in Hor|done]|].
    destruct (Hf st x Hst) as (Hok & Hkeep & Hnew). apply IH; [done|]. destruct Hor as [[->|?]%elem_of_cons|?]; auto. }
  apply Hfold; [apply seen_ok_nil|by left].
Qed.
End mappers.

Lemma nodeRef_index : indexValues fieldIndexes KSingBoxNode "spec.nodeRef" = Some indexNodeRef.
Proof. reflexivity. Qed.

(** C39. Every update of a Kubernetes Node enqueues the SingBoxNodes that run on
    it, heartbeats included: the watch is meant to fire only when the Ready
    condition or an annotation changes, but NodeReadyConditionChangedPredicate
    declares UpdateFunc as a method, which the embedded Funcs never calls, so the
    disjunction of predicates accepts every update. *)
Theorem node_update_enqueues c snap (old new : K8sNode) (n : SingBoxNode) :
  keyed c → snapshot_of c snap → c KSingBoxNode !! keyOf n = Some n → ns_NodeRef (node_spec n) = GetName new → GetName new ≠ "" →
  keyOf n ∈ requests snap (Updated KNode old new) SingBoxNodeController.
Proof.
  intros Hk Hs Hn Href Hne. destruct (snapshot_list c snap KSingBoxNode (MatchingFields "spec.nodeRef" (GetName new)) Hs) as (l & Hl & Hp).
  eapply (requested_map _ _ _ (WatchIf KNode nodeToSingBoxNodesMapper (predicate_Or NodeReadyConditionChangedPredicate AnnotationChangedPredicate)) _ (existT KNode new));
    [watch_in|done|done| |by right; left|].
  - cbn [w_predicate WatchIf]. rewrite predicate_or. unfold NodeReadyConditionChangedPredicate. by rewrite zero_funcs.
  - cbn. rewrite Hl. cbn. apply list_elem_of_fmap. exists n. split; [done|]. rewrite Hp. apply (elem_of_listing c KSingBoxNode _ n Hk). split; [|done].
    unfold selected. rewrite nodeRef_index. unfold indexNodeRef. rewrite Href, bool_decide_false by done. apply slices_Contains_true. left.
Qed.

(** ** One change *)
Section change.
Context (c : cluster) (ch : change) (Hk : keyed c) (Hg : genuine c ch) (node : SingBoxNode).
Let c' := apply_change ch c.

Lemma ch_objs_key k o : existT k o ∈ ch_objs ch → ch_kind ch = k ∧ obj_key k o = ch_key ch.
Proof.
  destruct ch as [k1 o1|k1 old new|k1 o1]; simpl; rewrite ?elem_of_cons, ?elem_of_nil; intros Ho; destruct_or!; try done;
    simplify_eq; split; try done. by destruct Hg as (_ & ? & _).
Qed.

Lemma nodesOf_same : (∀ n, existT KSingBoxNode n ∈ ch_objs ch → GetNamespace n ≠ GetNamespace node) → nodesOf c node = nodesOf c' node.
Proof.
  intros Hno. unfold nodesOf. f_equal. apply listing_eq; [done|by apply apply_change_keyed|].
  intros o Hns. apply apply_change_obj; [done|]. intros Ho. by apply (Hno o).
Qed.

Lemma extsOf_same : (∀ e, existT KExternalOutbound e ∈ ch_objs ch → GetNamespace e ≠ GetNamespace node) → extsOf c node = extsOf c' node.
Proof.
  intros Hno. unfold extsOf. f_equal. apply listing_eq; [done|by apply apply_change_keyed|].
  intros o Hns. apply apply_change_obj; [done|]. intros Ho. by apply (Hno o).
Qed.

(** The change leaves everything alone that [node] reads. *)
Record harmless : Prop := {
  hl_nodes : ∀ n, existT KSingBoxNode n ∈ ch_objs ch → GetNamespace n = GetNamespace node → peerEligible node n = false;
  hl_names : ∀ e, e ∈ extsOf c' node → externalReachable node e = true → GetName e ∈ namesOf c node ↔ GetName e ∈ namesOf c' node;
  hl_exts : ∀ e, existT KExternalOutbound e ∈ ch_objs ch → GetNamespace e = GetNamespace node → externalReachable node e = false;
  hl_users : ∀ u, existT KUser u ∈ ch_objs ch → GetNamespace u ≠ GetNamespace node;
  hl_groups : ch_kind ch = KUserGroup → ∀ u, u ∈ usersOf c' node → groupKey node u ≠ ch_key ch;
  hl_policies : ∀ p, existT KEgressPolicy p ∈ ch_objs ch → GetNamespace p = GetNamespace node → selects node p = false;
  hl_resolve : filter (λ p, selects node p = true) (policiesOf c' node) = [] ∨
    (∀ n, existT KSingBoxNode n ∈ ch_objs ch → GetNamespace n ≠ GetNamespace node) ∧
    (∀ e, existT KExternalOutbound e ∈ ch_objs ch → GetNamespace e ≠ GetNamespace node);
  hl_auth : ch_kind ch = KSecret → ∀ u, u ∈ usersOf c' node → authKey u ≠ ch_key ch;
  hl_relay : ch_kind ch = KSecret → ∀ n, n ∈ nodesOf c' node → peerEligible node n = true → relayKey node n ≠ ch_key ch;
  hl_self : ch_kind ch = KSecret → hasRole node ProxyRoleOutbound = true → relayKey node node ≠ ch_key ch;
  hl_cred : ch_kind ch = KSecret → ∀ e ref, e ∈ extsOf c' node → externalReachable node e = true →
    es_CredentialsSecretRef (eob_spec e) = Some ref → extKey e ref ≠ ch_key ch;
}.

(** A lookup that the change does not touch. *)
Lemma untouched k key : (ch_kind ch = k → key ≠ ch_key ch) → c k !! key = c' k !! key.
Proof.
  intros Hne. unfold c'. destruct (decide (ch_kind ch = k)) as [Hkind|Hkind]; [by rewrite apply_change_key by auto|by rewrite apply_change_kind].
Qed.

Lemma harmless_view : harmless → same_view c c' node.
Proof.
  intros Hh. pose proof (apply_change_keyed ch c Hk) as Hk'. fold c' in Hk'.
  assert (filter (λ p, selects node p = true) (policiesOf c node) = filter (λ p, selects node p = true) (policiesOf c' node)) as Hpol.
  { apply (listing_filter_eq c c' KEgressPolicy); [done..|]. intros p Hns Hsel. apply apply_change_obj; [done|].
    intros Hin. rewrite (hl_policies Hh p Hin Hns) in Hsel. done. }
  assert (usersOf c node = usersOf c' node) as Husers.
  { unfold usersOf. f_equal. apply listing_eq; [done..|]. intros u Hns. apply apply_change_obj; [done|].
    intros Hin. by apply (hl_users Hh u Hin). }
  assert (ch_kind ch = KSecret → nodesOf c node = nodesOf c' node ∧ extsOf c node = extsOf c' node) as Hsec.
  { intros Hs. split; [apply nodesOf_same|apply extsOf_same]; intros o [Hkind _]%ch_objs_key; congruence. }
  assert (filter (λ e, externalReachable node e = true) (extsOf c node) = filter (λ e, externalReachable node e = true) (extsOf c' node)) as Hexts.
  { apply (sorted_listing_filter_eq c c' KExternalOutbound _ GetName (externalReachable node)); [done..|]. intros e Hns Hel.
    apply apply_change_obj; [done|]. intros Hin. rewrite (hl_exts Hh e Hin Hns) in Hel. done. }
  split; [..|done| | |done| | | |].
  - apply (sorted_listing_filter_eq c c' KSingBoxNode _ GetName); [done..|]. intros n Hns Hel. apply apply_change_obj; [done|].
    intros Hin. rewrite (hl_nodes Hh n Hin Hns) in Hel. done.
  - exact Hexts.
  - intros e He Hr. apply (hl_names Hh); [|done]. assert (e ∈ filter (λ e, externalReachable node e = true) (extsOf c node)) as Hin.
    { by apply list_elem_of_filter. }
    rewrite Hexts in Hin. by apply list_elem_of_filter in Hin as [_ Hin].
  - intros u Hu. apply untouched. intros Hkind. apply (hl_groups Hh Hkind). by rewrite <- Husers.
  - intros u Hu. apply untouched. intros Hkind. apply (hl_auth Hh Hkind). by rewrite <- Husers.
  - destruct (hl_resolve Hh) as [Hnil|[Hn He]]; [left; by rewrite Hpol|right]. split; [by apply nodesOf_same|by apply extsOf_same].
  - intros n Hn Hel. apply untouched. intros Hkind. destruct (Hsec Hkind) as [Heq _]. apply (hl_relay Hh Hkind); [by rewrite <- Heq|done].
  - intros Hrole. apply untouched. intros Hkind. by apply (hl_self Hh Hkind).
  - intros e ref He Hr Href. apply untouched. intros Hkind. destruct (Hsec Hkind) as [_ Heq].
    apply (hl_cred Hh Hkind) with (e := e) (ref := ref); [by rewrite <- Heq|done..].
Qed.

(** ** A node that the change neither enqueues nor covers *)
Context (snap : snapshot) (Hsnap : snapshot_of c' snap).
Context (Hnode : c KSingBoxNode !! keyOf node = Some node).
Context (Hreq : keyOf node ∉ requests snap ch SingBoxNodeController).
Context (Hcov : ¬ covered c' (λ key, key ∈ requests snap ch EgressPolicyController) node).
Context (Hun : unwatched c' ch node = false).

Lemma not_itself : ch_kind ch = KSingBoxNode → ch_key ch ≠ keyOf node.
Proof. intros Hkind Heq. apply Hreq. rewrite <- Heq. apply (requested_for _ _ _ KSingBoxNode); [by left|done]. Qed.

Lemma node_after : c' KSingBoxNode !! keyOf node = Some node.
Proof. rewrite <- Hnode. symmetry. apply (untouched KSingBoxNode). intros Hkind Heq. by apply not_itself. Qed.

Lemma keyed_after : keyed c'.
Proof. by apply apply_change_keyed. Qed.

(** A watch with a mapper that would request the node does not apply. *)
Lemma not_mapped w f o :
  w ∈ SingBoxNode_SetupWithManager → w_handler w = MapFunc f → w_kind w = ch_kind ch →
  (if w_predicate w is Some p then accepts p ch else true) = true → o ∈ ch_objs ch →
  keyOf node ∉ snap_run snap (f o).
Proof. intros Hw Hf Hkind Hp Ho Hin. apply Hreq. by eapply (requested_map _ _ SingBoxNodeController w f o). Qed.

Lemma elem_of_namesOf d x : keyed d → x ∈ namesOf d node ↔ x = GetName node ∨ is_Some (d KSingBoxNode !! {| nn_Namespace := GetNamespace node; nn_Name := x |}).
Proof.
  intros Hd. unfold namesOf. rewrite elem_of_list_to_set, elem_of_cons, list_elem_of_fmap. split; intros [?|Hx]; [by left| |by left|]; right.
  - destruct Hx as (n & -> & Hn). apply elem_of_nodesOf in Hn as [Hns Hn]; [|done]. exists n. unfold keyOf in Hn. by rewrite Hns in Hn.
  - destruct Hx as [n Hn]. pose proof (Hd _ _ _ Hn) as Hkey. exists n. split; [by injection Hkey|].
    apply elem_of_nodesOf; [done|]. split; [by injection Hkey|]. by rewrite <- Hkey in Hn.
Qed.

(** An event that the policy controller's mapped watches accept enqueues every policy of the namespace. *)
Lemma no_policies :
  ch_kind ch = KSingBoxNode ∨ ch_kind ch = KExternalOutbound → nn_Namespace (ch_key ch) = GetNamespace node →
  accepts GenerationChangedPredicate ch || accepts LabelChangedPredicate ch = true →
  Forall (λ p, selects node p = false) (policiesOf c' node).
Proof.
  intros Hkind Hns Hacc. apply Forall_forall. intros p Hp. destruct (selects node p) eqn:Hsel; [|done]. exfalso. apply Hcov.
  exists p. split_and!; [done..|]. apply elem_of_policiesOf in Hp as [Hpns Hp]; [|apply keyed_after].
  set (mapper := λ o : anyObj, EgressPolicyReconciler.policyMapper (om_Namespace (anyMeta o))).
  apply (requested_map _ _ EgressPolicyController
    (WatchIf (ch_kind ch) mapper (predicate_Or GenerationChangedPredicate LabelChangedPredicate)) mapper (ch_obj ch)); [|done|done|..].
  - simpl. destruct Hkind as [->| ->]; set_solver.
  - simpl. by rewrite predicate_or.
  - destruct ch; simpl; set_solver.
  - assert (om_Namespace (anyMeta (ch_obj ch)) = GetNamespace node) as Hon by (rewrite <- Hns; by destruct ch).
    destruct (namespace_listed c' snap keyed_after Hsnap KEgressPolicy (GetNamespace node)) as (l & Hl & _ & Hlin).
    unfold mapper. rewrite Hon. cbn. rewrite Hl. cbn. apply list_elem_of_fmap. exists p. split; [done|]. by apply Hlin.
Qed.

Lemma no_selected : Forall (λ p, selects node p = false) (policiesOf c' node) → filter (λ p, selects node p = true) (policiesOf c' node) = [].
Proof. apply filter_none. Qed.

(** A change in another namespace of an object that is not a Secret. *)
Lemma other_namespace : ch_kind ch ≠ KSecret → nn_Namespace (ch_key ch) ≠ GetNamespace node → agree node c c'.
Proof.
  intros Hkind Hns. apply same_view_agree, harmless_view.
  assert (∀ k (o : obj k), existT k o ∈ ch_objs ch → obj_ns k o ≠ GetNamespace node) as Hother.
  { intros k o [_ Hkey]%ch_objs_key Heq. apply Hns. by rewrite <- Hkey. }
  assert (nodesOf c node = nodesOf c' node) as Hnodes by (apply nodesOf_same; intros n; apply (Hother KSingBoxNode)).
  split; try done.
  - intros n Hn Heq. by destruct (Hother KSingBoxNode n).
  - intros e _ _. unfold namesOf. by rewrite Hnodes.
  - intros e He Heq. by destruct (Hother KExternalOutbound e).
  - intros u. apply (Hother KUser).
  - intros _ u _ Heq. apply Hns. by rewrite <- Heq.
  - intros p Hp Heq. by destruct (Hother KEgressPolicy p).
  - right. split; intros o; [apply (Hother KSingBoxNode)|apply (Hother KExternalOutbound)].
Qed.

Context (Hns : nn_Namespace (ch_key ch) = GetNamespace node).

Lemma same_key_meta k (old new : obj k) : obj_key k old = obj_key k new →
  om_Namespace (obj_meta k old) = om_Namespace (obj_meta k new) ∧ om_Name (obj_meta k old) = om_Name (obj_meta k new).
Proof. unfold obj_key, obj_ns. intros [= Hns1 Hname1]. split; [done|]. by destruct k. Qed.

(** Whether labels must be kept. *)
Definition labels_kept : bool := negb (accepts LabelChangedPredicate ch).

Lemma labels_kept_ok :
  ch_kind ch = KSingBoxNode ∨ ch_kind ch = KExternalOutbound →
  labels_kept = true ∨ Forall (λ p, selects node p = false) (policiesOf c' node).
Proof.
  intros Hkind. unfold labels_kept. destruct (accepts LabelChangedPredicate ch) eqn:Hl; [right|by left].
  apply no_policies; [done..|]. by rewrite Hl, orb_true_r.
Qed.

(** A rejected update has the old spec, and the old labels when they are kept. *)
Lemma rejected_update :
  accepts GenerationChangedPredicate ch = false →
  ∃ k old new, ch = Updated k old new ∧ c k !! obj_key k new = Some old ∧ obj_key k old = obj_key k new ∧ same_spec k old new ∧
    (labels_kept = true → om_Labels (obj_meta k old) = om_Labels (obj_meta k new)).
Proof.
  clear - Hg. unfold labels_kept. rewrite (generation_changed ch), (label_changed ch). destruct ch as [|k old new|]; [done| |done].
  destruct Hg as (Hold & Hkey & Hspec). intros Hgen%negb_false_iff. exists k, old, new. bool_prop. split_and!; [done..|by apply Hspec|].
  rewrite negb_involutive. intros. by bool_prop.
Qed.

Context (Hin : hasRole node ProxyRoleInbound = true).

Lemma node_changed : ch_kind ch = KSingBoxNode → agree node c c'.
Proof.
  intros Hkind. destruct (accepts GenerationChangedPredicate ch) eqn:Hacc.
  - apply same_view_agree, harmless_view.
    assert (∀ n, existT KSingBoxNode n ∈ ch_objs ch → ns_Region (node_spec n) ≠ ns_Region (node_spec node)) as Hregion.
    { intros n Hn Hreg. destruct (ch_objs_key _ _ Hn) as [_ Hkey].
      apply (not_mapped (WatchIf KSingBoxNode sameRegionNodeMapper GenerationChangedPredicate) _ _ ltac:(watch_in) eq_refl (eq_sym Hkind) Hacc Hn).
      apply (sameRegion_requests c'); [apply keyed_after|exact Hsnap|apply node_after|by rewrite <- Hns, <- Hkey| |done].
      intros Heq. apply not_itself; [done|]. rewrite <- Hkey. unfold keyOf. rewrite Heq, <- Hns, <- Hkey. done. }
    pose proof (no_policies (or_introl Hkind) Hns ltac:(by rewrite Hacc)) as Hno.
    split; try (intros; congruence); try (intros ? [? _]%ch_objs_key; congruence).
    + intros n Hn _. unfold peerEligible. rewrite (bool_decide_false (ns_Region _ = _)) by (by apply Hregion). by rewrite andb_false_r.
    + intros e He Hr. rewrite !elem_of_namesOf by (done || apply keyed_after). apply or_iff_compat_l.
      destruct (decide ({| nn_Namespace := GetNamespace node; nn_Name := GetName e |} = ch_key ch)) as [Heq|Hne].
      * unfold unwatched in Hun. rewrite Hkind, Hin, Hns, bool_decide_true, !andb_true_r in Hun by done.
        assert (existsb (λ e, (GetName e ==? nn_Name (ch_key ch)) && externalReachable node e) (extsOf c' node) = true) as Hex.
        { apply existsb_exists. exists e. split; [by apply list_elem_of_In|]. rewrite Hr, <- Heq, andb_true_r. by apply bool_decide_true. }
        rewrite Hex, andb_true_r in Hun. rewrite Heq. unfold c'. clear - Hun Hg Hkind. destruct ch as [|k old new|]; [done| |done].
        simpl in *. subst k. rewrite set_kind_same. destruct Hg as (Hold & _). simpl in Hold. rewrite Hold, lookup_insert_eq. by split; eexists.
      * apply (reflexive_eq (R := iff)), (f_equal is_Some), (untouched KSingBoxNode _ (λ _, Hne)).
    + left. by apply no_selected.
  - destruct (rejected_update Hacc) as (k & old & new & Hch & Hold & Hkey & Hspec & Hlab).
    assert (k = KSingBoxNode) as -> by (by rewrite Hch in Hkind).
    apply (agree_strip labels_kept); [done|apply labels_kept_ok; by left|].
    assert (strip_node labels_kept old = strip_node labels_kept new) as Hstrip.
    { apply same_key_meta in Hkey as [Hn1 Hn2]. simpl in *. unfold strip_node, strip_meta. rewrite Hspec, Hn1, Hn2.
      destruct labels_kept; [by rewrite Hlab|done]. }
    intros k. destruct (decide (k = KSingBoxNode)) as [->|Hne].
    + unfold c'. rewrite Hch. simpl. rewrite set_kind_same. simpl in Hold. symmetry. rewrite fmap_insert. apply insert_id.
      rewrite lookup_fmap. simpl. rewrite Hold. simpl. by rewrite Hstrip.
    + assert (c' k = c k) as Heq by (unfold c'; rewrite Hch; simpl; by rewrite set_kind_ne by congruence).
      by destruct k; simpl in *; rewrite ?Heq.
Qed.

Lemma external_changed : ch_kind ch = KExternalOutbound → agree node c c'.
Proof.
  intros Hkind. destruct (accepts GenerationChangedPredicate ch) eqn:Hacc.
  - apply same_view_agree, harmless_view.
    pose proof (no_policies (or_intror Hkind) Hns ltac:(by rewrite Hacc)) as Hno.
    split; try (intros; congruence); try (intros ? [? _]%ch_objs_key; congruence).
    + intros e _ _. unfold namesOf, nodesOf, c'. by rewrite apply_change_kind by congruence.
    + intros e He _. destruct (ch_objs_key _ _ He) as [_ Hkey]. destruct (externalReachable node e) eqn:Hr; [|done]. exfalso.
      unfold externalReachable in Hr. bool_prop.
      apply (not_mapped (WatchIf KExternalOutbound externalOutboundMapper GenerationChangedPredicate) _ _ ltac:(watch_in) eq_refl (eq_sym Hkind) Hacc He).
      apply (external_requests c'); [apply keyed_after|exact Hsnap|apply node_after| |done..]. by rewrite <- Hns, <- Hkey.
    + left. by apply no_selected.
  - destruct (rejected_update Hacc) as (k & old & new & Hch & Hold & Hkey & Hspec & Hlab).
    assert (k = KExternalOutbound) as -> by (by rewrite Hch in Hkind).
    apply (agree_strip labels_kept); [done|apply labels_kept_ok; by right|].
    assert (strip_ext labels_kept old = strip_ext labels_kept new) as Hstrip.
    { apply same_key_meta in Hkey as [Hn1 Hn2]. simpl in *. unfold strip_ext, strip_meta. rewrite Hspec, Hn1, Hn2.
      destruct labels_kept; [by rewrite Hlab|done]. }
    intros k. destruct (decide (k = KExternalOutbound)) as [->|Hne].
    + unfold c'. rewrite Hch. simpl. rewrite set_kind_same. simpl in Hold. symmetry. rewrite fmap_insert. apply insert_id.
      rewrite lookup_fmap. simpl. rewrite Hold. simpl. by rewrite Hstrip.
    + assert (c' k = c k) as Heq by (unfold c'; rewrite Hch; simpl; by rewrite set_kind_ne by congruence).
      by destruct k; simpl in *; rewrite ?Heq.
Qed.

(** A change of a kind whose objects are not listed as nodes, so that no name appears or disappears. *)
Lemma namesOf_frame : ch_kind ch ≠ KSingBoxNode → namesOf c' node = namesOf c node.
Proof. intros Hkind. unfold namesOf, nodesOf, c'. by rewrite apply_change_kind. Qed.

(** A kind that collectInput does not read. *)
Lemma unread_kind :
  match ch_kind ch with KConfigMap | KPod | KService | KNode => True | _ => False end → agree node c c'.
Proof.
  intros Hkind. apply same_view_agree, harmless_view.
  split; try (intros Hk2; exfalso; by rewrite Hk2 in Hkind); try (intros ? [Hk2 _]%ch_objs_key; exfalso; by rewrite Hk2 in Hkind).
  - intros e _ _. rewrite namesOf_frame; [done|]. intros Hk2. by rewrite Hk2 in Hkind.
  - right. split; intros o [Hk2 _]%ch_objs_key; exfalso; by rewrite Hk2 in Hkind.
Qed.

Lemma user_changed : ch_kind ch = KUser → agree node c c'.
Proof.
  intros Hkind. exfalso. assert (∃ u, existT KUser u ∈ ch_objs ch) as [u Hu].
  { destruct ch as [k o|k old o|k o]; simpl in *; subst k; exists o; set_solver. }
  apply (not_mapped (WatchAll KUser matchingProtocolNodeMapper) _ _ ltac:(watch_in) eq_refl (eq_sym Hkind) eq_refl Hu).
  destruct (ch_objs_key _ _ Hu) as [_ Hkey]. apply (user_requests c'); [apply keyed_after|exact Hsnap|apply node_after| |done]. by rewrite <- Hns, <- Hkey.
Qed.

Lemma group_changed : ch_kind ch = KUserGroup → agree node c c'.
Proof.
  intros Hkind. apply same_view_agree, harmless_view.
  split; try (intros; congruence); try (intros ? [? _]%ch_objs_key; congruence).
  - intros e _ _. by rewrite namesOf_frame by congruence.
  - intros _ u Hu Heq. assert (∃ g, existT KUserGroup g ∈ ch_objs ch) as [g Hg'].
    { destruct ch as [k o|k old o|k o]; simpl in *; subst k; exists o; set_solver. }
    apply (not_mapped (WatchAll KUserGroup usersInGroupToNodesMapper) _ _ ltac:(watch_in) eq_refl (eq_sym Hkind) eq_refl Hg').
    destruct (ch_objs_key _ _ Hg') as [_ Hkey]. rewrite <- Hkey in Heq. injection Heq as Hgns Hgn.
    apply (group_requests c' snap keyed_after Hsnap _ node_after g u); [by rewrite <- Hns, <- Hkey|done..].
  - right. split; intros o [? _]%ch_objs_key; congruence.
Qed.

(** A policy that selects the node and is changed without enqueueing the node still selects it. *)
Lemma policy_event p :
  existT KEgressPolicy p ∈ ch_objs ch → selects node p = true →
  ∃ new, new ∈ policiesOf c' node ∧ selects node new = true ∧ keyOf new = ch_key ch.
Proof.
  clear Hcov Hun. intros Hp Hsel. destruct (ch_objs_key _ _ Hp) as [Hkind Hkey].
  assert (GetNamespace p = GetNamespace node) as Hpns by (by rewrite <- Hns, <- Hkey).
  destruct (accepts GenerationChangedPredicate ch) eqn:Hacc.
  { exfalso. apply (not_mapped (WatchIf KEgressPolicy egressPolicyMapper GenerationChangedPredicate) _ _ ltac:(watch_in) eq_refl (eq_sym Hkind) Hacc Hp).
    apply (policy_requests c'); [apply keyed_after|exact Hsnap|apply node_after|done..]. }
  destruct (rejected_update Hacc) as (k & old & new & Hch & Hold & Hkk & Hspec & _).
  assert (k = KEgressPolicy) as -> by (by rewrite Hch in Hkind). simpl in Hspec.
  exists new. assert (ch_key ch = keyOf new) as Hkn by (by rewrite Hch). split_and!; [| |done].
  - apply elem_of_policiesOf; [apply keyed_after|]. split; [by rewrite <- Hns, Hkn|].
    unfold c'. rewrite Hch. simpl. rewrite set_kind_same. apply lookup_insert_eq.
  - rewrite Hch in Hp. simpl in Hp. rewrite !elem_of_cons, elem_of_nil in Hp. destruct Hp as [Heq|[Heq|[]]]; simplify_eq; [|done].
    rewrite <- Hsel. unfold selects. by rewrite Hspec.
Qed.

Lemma policy_changed : ch_kind ch = KEgressPolicy → agree node c c'.
Proof.
  intros Hkind. apply same_view_agree, harmless_view.
  split; try (intros; congruence); try (intros ? [? _]%ch_objs_key; congruence).
  - intros e _ _. by rewrite namesOf_frame by congruence.
  - intros p Hp _. destruct (selects node p) eqn:Hsel; [|done]. exfalso. destruct (policy_event p Hp Hsel) as (new & Hnew & Hs & Hkn).
    apply Hcov. exists new. split_and!; [done..|]. rewrite Hkn. apply (requested_for _ _ _ KEgressPolicy); [by left|done].
  - right. split; intros o [? _]%ch_objs_key; congruence.
Qed.
End change.

(** A Secret may be read across namespaces. *)
Lemma secret_changed c ch snap node :
  keyed c → genuine c ch → let c' := apply_change ch c in snapshot_of c' snap →
  c KSingBoxNode !! keyOf node = Some node → keyOf node ∉ requests snap ch SingBoxNodeController →
  unwatched c' ch node = false → hasRole node ProxyRoleInbound = true → ch_kind ch = KSecret → agree node c c'.
Proof.
  intros Hk Hg c' Hs Hnode Hreq Hun Hin Hkind. apply same_view_agree, harmless_view; [done..|].
  assert (c' KSingBoxNode !! keyOf node = Some node) as Hnode' by (unfold c'; by rewrite apply_change_kind by congruence).
  assert (keyed c') as Hk' by (by apply apply_change_keyed).
  unfold unwatched in Hun. rewrite Hkind, Hin in Hun. apply orb_false_iff in Hun as [Hrelay Hauth].
  assert (∀ n, n ∈ node :: nodesOf c' node → peerEligible node n || (GetName n ==? GetName node) && hasRole node ProxyRoleOutbound = true →
    relayKey node n ≠ ch_key ch) as Hrel.
  { intros n Hn Hel Heq. revert Hrelay. apply not_false_iff_true, existsb_exists. exists n. split; [by apply list_elem_of_In|].
    rewrite Hel. by apply bool_decide_true. }
  split; try (intros; congruence); try (intros ? [? _]%(ch_objs_key _ _ Hg); congruence).
  - intros e _ _. unfold namesOf, nodesOf, c'. by rewrite apply_change_kind by congruence.
  - right. split; intros o [? _]%(ch_objs_key _ _ Hg); congruence.
  - intros _ u Hu Heq. revert Hauth. apply not_false_iff_true. simpl. apply existsb_exists. exists u. split; [by apply list_elem_of_In|].
    by apply bool_decide_true.
  - intros _ n Hn Hel. apply Hrel; [by right|]. by rewrite Hel.
  - intros _ Hrole. apply Hrel; [by left|]. by rewrite bool_decide_true, Hrole, orb_true_r.
  - intros _ e ref He Hr Href Heq. assert (∃ s, existT KSecret s ∈ ch_objs ch) as [s Hsec].
    { clear - Hkind. destruct ch as [k o|k old o|k o]; simpl in *; subst k; exists o; set_solver. }
    destruct (ch_objs_key _ _ Hg _ _ Hsec) as [_ Hkey]. rewrite <- Hkey in Heq. injection Heq as Hens Hen.
    pose proof He as He'. apply elem_of_extsOf in He' as [Hens' _]; [|done]. unfold externalReachable in Hr. bool_prop. apply Hreq.
    eapply (requested_map _ _ SingBoxNodeController (WatchAll KSecret externalCredentialSecretMapper)); [watch_in|done|done|done|exact Hsec|].
    apply (secret_requests c' snap Hk' Hs _ Hnode' s e); [done|by rewrite Href; f_equal| |done..]. by rewrite <- Hens'.
Qed.

Lemma watched_agree c ch snap node :
  keyed c → genuine c ch → snapshot_of (apply_change ch c) snap → c KSingBoxNode !! keyOf node = Some node →
  keyOf node ∉ requests snap ch SingBoxNodeController →
  ¬ covered (apply_change ch c) (λ key, key ∈ requests snap ch EgressPolicyController) node →
  unwatched (apply_change ch c) ch node = false →
  agree node c (apply_change ch c).
Proof.
  intros Hk Hg Hsnap Hnode Hreq Hcov Hun. destruct (hasRole node ProxyRoleInbound) eqn:Hin.
  - destruct (decide (ch_kind ch = KSecret)) as [Hs|Hs]; [by apply (secret_changed c ch snap)|].
    destruct (decide (nn_Namespace (ch_key ch) = GetNamespace node)) as [Hns|Hns]; [|by apply other_namespace].
    destruct (ch_kind ch) eqn:Hkind.
    + by apply (node_changed c ch Hk Hg node snap).
    + by eapply (user_changed c ch Hk Hg node snap).
    + by apply (group_changed c ch Hk Hg node snap).
    + by apply (policy_changed c ch Hk Hg node snap).
    + by apply (external_changed c ch Hk Hg node snap).
    + by destruct Hs.
    + apply (unread_kind c ch Hk Hg node). by rewrite Hkind.
    + apply (unread_kind c ch Hk Hg node). by rewrite Hkind.
    + apply (unread_kind c ch Hk Hg node). by rewrite Hkind.
    + apply (unread_kind c ch Hk Hg node). by rewrite Hkind.
  - unfold agree. rewrite Hin. intros Hout. apply untouched. intros Hkind Heq. revert Hun. apply not_false_iff_true.
    unfold unwatched. rewrite Hkind. apply orb_true_iff. left. cbn [existsb]. rewrite Heq, Hout, !bool_decide_true by done.
    by rewrite orb_true_r.
Qed.

(** C7. The watches are complete: after any change of the cluster, a node that
    the change neither enqueues nor, through a requested policy that selects it,
    covers, and that it does not affect in one of the two unwatched ways, is
    called to exactly the configuration and hash as before: for every order in
    which its policies may be listed the configuration is the same, and so is the
    set of configurations over all orders.  The mappers may see the cluster in
    any order too. *)
Theorem watch_complete c ch snap node :
  keyed c → genuine c ch → snapshot_of (apply_change ch c) snap → c KSingBoxNode !! keyOf node = Some node →
  keyOf node ∉ requests snap ch SingBoxNodeController →
  ¬ covered (apply_change ch c) (λ key, key ∈ requests snap ch EgressPolicyController) node →
  unwatched (apply_change ch c) ch node = false →
  (∀ policies, policies ≡ₚ policiesOf c node → configOf r c node policies = configOf r (apply_change ch c) node policies) ∧
  (∀ out, callsFor r c node out ↔ callsFor r (apply_change ch c) node out).
Proof.
  intros. assert (agree node c (apply_change ch c)) as Ha by (by apply (watched_agree c ch snap)).
  split; [intros policies; by apply configOf_agree|]. intros out. split; apply callsFor_agree; [done|by symmetry].
Qed.
End complete.
