(* ===== verification/Passes.v ===== *)
(** * Passes: what a reconciler's pass achieves while others write

    The API server and the manager's cached client ([ApiServer]): reads answer
    from a cache, writes go to the server, and their watch events reach the cache
    later.  [wpi node p Q s] is a proof rule for programs whose calls are
    interleaved with those of other clients and with the delivery of events: a run
    of [p] from [s] ends in [Q] as long as no delivered event reaches [node] (the
    event enqueues it, covers it by a policy, or is one that no watch reports) and
    no trigger in [p] rewrites the stamp that [node] carries ([lost_trigger]).
    Under this rule a pass over a node that does not ask to be repeated leaves the
    node deployed, or its own write is an event still to come that will enqueue
    the node; so does a pass over a policy that selects the node. *)

From S2P Require Import Prelude GoStrings Json Api Engine K8s CredManager NodeController NodeProps HandlerProps Snapshot Cluster Controllers Watches Strip ReadSet ConfigOf ReadsApart WatchComplete.

(** ** The API server *)

(** What the operator relies on of the Kubernetes API server and its cached
    client.  [objects] is the cache, [server] what is stored; they agree when no
    event is on its way.  Reads answer from the cache, listings in any order, which
    may differ from call to call; a call leaves the cache
    alone and may add events.  A delivered event says what
    happens to the cached object.  A successful Update or status update either has
    an event on its way for the object, or the cached object already has the
    annotations, or the status, that it was given.  A successful CreateOrUpdate of
    a ConfigMap applied the closure to the cached object, and has an event on its
    way with the result or finds it in the cache.  Writes may fail at any time; a
    stale resource version is such a failure. *)
Class ApiServer `{NotFoundErrors} := {
  api_state : Type;
  objects : api_state → cluster;
  server_objects : api_state → cluster;
  events : api_state → list change;
  api_step : api_state → ∀ c : call, answer c * api_state;
  api_deliver : api_state → change → api_state → Prop;
  api_keyed : ∀ s, keyed (objects s);
  api_synced : ∀ s, events s = [] → server_objects s = objects s;
  api_read : ∀ s c, is_read c → alike c (api_step s c).1 (reads (objects s) c);
  api_cache : ∀ s c, objects (api_step s c).2 = objects s;
  api_events : ∀ s c, ∃ new, events (api_step s c).2 = events s ++ new;
  api_delivered : ∀ s ch s', api_deliver s ch s' →
    genuine (objects s) ch ∧ objects s' = apply_change ch (objects s) ∧ events s ≡ₚ ch :: events s';
  api_update : ∀ s n, let '(err, s') := api_step s (Update KSingBoxNode n) in
    err = None → om_DeletionTimestamp (node_meta n) = None →
    (∃ ch, ch ∈ events s' ∧ ch_kind ch = KSingBoxNode ∧ ch_key ch = keyOf n) ∨
    (∃ n', objects s KSingBoxNode !! keyOf n = Some n' ∧ om_Annotations (node_meta n') = om_Annotations (node_meta n));
  api_status : ∀ s n, let '(err, s') := api_step s (StatusUpdate KSingBoxNode n) in
    err = None →
    (∃ ch, ch ∈ events s' ∧ ch_kind ch = KSingBoxNode ∧ ch_key ch = keyOf n) ∨
    (∃ n', objects s KSingBoxNode !! keyOf n = Some n' ∧ node_status n' = node_status n);
  api_config : ∀ s (o : ConfigMap) mutate op, let '(res, s') := api_step s (CreateOrUpdate KConfigMap o mutate) in
    res = inr op →
    ∃ cm cm' cm'' : ConfigMap, (objects s KConfigMap !! keyOf o = Some cm ∨ objects s KConfigMap !! keyOf o = None ∧ cm = o) ∧
      mutate cm = inr cm' ∧ cm_Data cm'' = cm_Data cm' ∧ om_Namespace (cm_meta cm'') = om_Namespace (cm_meta cm') ∧
      om_OwnerReferences (cm_meta cm'') = om_OwnerReferences (cm_meta cm') ∧
      ((∃ ch, ch ∈ events s' ∧ ch_kind ch = KConfigMap ∧ existT KConfigMap cm'' ∈ ch_objs ch) ∨
       objects s KConfigMap !! keyOf o = Some cm'');
}.

#[local] Opaque configOf callsFor.

(** reconcile.Reconciler: a request is put back after an error or when the result asks for it. *)
Definition again (res : Result * option error) : bool :=
  match res.2 with Some _ => true | None => Requeue res.1 || (RequeueAfter res.1 >? 0)%Z end.

Definition configMapKey (node : SingBoxNode) : NamespacedName :=
  {| nn_Namespace := GetNamespace node; nn_Name := GetName node +:+ configMapSuffix |}.

Section passes.
Context `{WatchLib, NotFoundErrors, GoStd, LabelSelectors, MapRange, ConditionLib, TLSCerts} `{!ApiServer}.
Context (r : SingBoxNodeReconciler).

(** ** What a pass is for *)

(** The node's ConfigMap, owned by it, holds the configuration. *)
Definition deployedConfig (c : cluster) (node : SingBoxNode) (out : Output) : Prop :=
  ∃ cm : ConfigMap, c KConfigMap !! configMapKey node = Some cm ∧
    keyOf node ∈ ownerRequests (om_Namespace (cm_meta cm)) (om_OwnerReferences (cm_meta cm)) ∧
    cm_Data cm = {["config.json" := Config out]}.

(** The node's status reports that configuration and the endpoints of the spec. *)
Definition reported (node : SingBoxNode) (out : Output) : Prop :=
  nst_Phase (node_status node) = "Running" ∧ nst_ConfigHash (node_status node) = Hash out ∧
  nst_EntryEndpoints (node_status node) = entryEndpoint (ns_Address (node_spec node)) <$> ns_SupportedProtocols (node_spec node).

(** Both hold of one configuration that the cluster calls for. *)
Definition deployed (c : cluster) (node : SingBoxNode) : Prop :=
  ∃ out, callsFor r c node out ∧ deployedConfig c node out ∧ reported node out.

(** ** Events that do not reach a node *)

(** [c] is the cluster after the event, [snap] what the mappers see of it. *)
Record silent (node : SingBoxNode) (c : cluster) (snap : snapshot) (ch : change) : Prop := {
  si_snapshot : snapshot_of c snap;
  si_request : keyOf node ∉ requests snap ch SingBoxNodeController;
  si_cover : ¬ covered c (λ key, key ∈ requests snap ch EgressPolicyController) node;
  si_watched : unwatched c ch node = false;
}.

(** A call of any client, or the delivery of such an event. *)
Definition qstep (node : SingBoxNode) (s s' : api_state) : Prop :=
  (objects s' = objects s ∧ ∃ new, events s' = events s ++ new) ∨
  (∃ ch snap, genuine (objects s) ch ∧ objects s' = apply_change ch (objects s) ∧ events s ≡ₚ ch :: events s' ∧ silent node (objects s') snap ch).

Definition quiet (node : SingBoxNode) : api_state → api_state → Prop := rtc (qstep node).

(** An event on its way that will enqueue the node whatever the cache holds then:
    one of the node's own object, or of a ConfigMap that it owns. *)
Definition hits (node : SingBoxNode) (ch : change) : Prop :=
  (ch_kind ch = KSingBoxNode ∧ ch_key ch = keyOf node) ∨
  (ch_kind ch = KConfigMap ∧ ∃ cm : ConfigMap, existT KConfigMap cm ∈ ch_objs ch ∧
     keyOf node ∈ ownerRequests (om_Namespace (cm_meta cm)) (om_OwnerReferences (cm_meta cm))).

Definition due (node : SingBoxNode) (s : api_state) : Prop := ∃ ch, ch ∈ events s ∧ hits node ch.

Definition stored (node : SingBoxNode) (s : api_state) : Prop := objects s KSingBoxNode !! keyOf node = Some node.

Section quiet.
Context (node : SingBoxNode).

(** Properties of the state that quiet steps keep, for a stored node. *)
Class Kept (I : api_state → Prop) : Prop := kept : ∀ s s',
  stored node s → I s → qstep node s s' → I s'.

#[export] Instance stored_kept : Kept (stored node).
Proof.
  intros s s' Hst _ [[Heq _]|(ch & snap & Hg & Heq & _ & [_ Hreq _ _])]; unfold stored in *; rewrite Heq in *; [done|].
  by apply (node_after (objects s) ch node snap).
Qed.

Lemma kept_quiet (I : api_state → Prop) `{!Kept I} s s' : stored node s → I s → quiet node s s' → stored node s' ∧ I s'.
Proof.
  intros Hst HI Hq. induction Hq as [|s s1 s' Hstep _ IH]; [done|]. apply IH.
  - exact (stored_kept s s1 Hst Hst Hstep).
  - exact (kept s s1 Hst HI Hstep).
Qed.

Lemma quiet_stored s s' : quiet node s s' → stored node s → stored node s'.
Proof. intros Hq Hst. by apply (kept_quiet (stored node) s s'). Qed.

(** The node sees the same as before. *)
Lemma qstep_agree s s' : stored node s → qstep node s s' → agree node (objects s) (objects s').
Proof.
  intros Hst [[-> _]|(ch & snap & Hg & Heq & _ & [Hs Hreq Hcov Hun])]; [done|]. rewrite Heq in *. apply (watched_agree _ ch snap); [apply api_keyed|done..].
Qed.

#[export] Instance agree_kept c : Kept (λ s, agree node c (objects s)).
Proof. intros s s' Hst Ha Hstep. etrans; [exact Ha|]. by apply qstep_agree. Qed.

Lemma quiet_agree s s' : quiet node s s' → stored node s → agree node (objects s) (objects s').
Proof. intros Hq Hst. by apply (kept_quiet (λ s', agree node (objects s) (objects s')) s s'). Qed.

#[export] Instance callsFor_kept out : Kept (λ s, callsFor r (objects s) node out).
Proof. intros s s' Hst Ho Hstep. exact (callsFor_agree r _ _ _ _ (qstep_agree s s' Hst Hstep) Ho). Qed.

Lemma quiet_callsFor s s' out : quiet node s s' → stored node s → callsFor r (objects s) node out → callsFor r (objects s') node out.
Proof. intros Hq Hst Ho. exact (proj2 (kept_quiet (λ s, callsFor r (objects s) node out) s s' Hst Ho Hq)). Qed.

#[export] Instance config_kept out : Kept (λ s, deployedConfig (objects s) node out).
Proof.
  intros s s' Hst (cm & Hcm & Hown & Hdata) Hstep. exists cm. split_and!; [|exact Hown|exact Hdata].
  destruct Hstep as [[-> _]|(ch & snap & Hg & Heq & _ & [_ Hreq _ _])]; [exact Hcm|]. rewrite Heq in *. rewrite <- Hcm. symmetry.
  apply (untouched _ ch KConfigMap). intros Hkind Hkey. apply Hreq.
  apply (requested_owner _ _ KConfigMap (existT KConfigMap cm)); [watch_in|done| |done].
  pose proof (api_keyed s KConfigMap _ _ Hcm) as Hkc. apply (stored_changed (objects s) ch KConfigMap cm); [done|done|by rewrite Hkc|by rewrite Hkc].
Qed.

#[export] Instance deployed_kept : Kept (λ s, deployed (objects s) node).
Proof.
  intros s s' Hst (out & Ho & Hd & Hr) Hstep. exists out.
  split_and!; [exact (callsFor_kept out s s' Hst Ho Hstep)|exact (config_kept out s s' Hst Hd Hstep)|exact Hr].
Qed.

Lemma hits_requests snap ch : hits node ch → keyOf node ∈ requests snap ch SingBoxNodeController.
Proof.
  intros [[Hkind <-]|(Hkind & cm & Hcm & Hown)].
  - by apply (requested_for _ _ _ KSingBoxNode); [left|].
  - by apply (requested_owner _ _ KConfigMap (existT KConfigMap cm)); [watch_in| | |].
Qed.

#[export] Instance due_kept : Kept (due node).
Proof.
  intros s s' _ (ch & Hin & Hhit) [[_ [new Hev]]|(ch' & snap & _ & _ & Hev & [_ Hreq _ _])].
  - exists ch. rewrite Hev. split; [set_solver|done].
  - exists ch. split; [|done]. rewrite Hev in Hin. apply elem_of_cons in Hin as [->|]; [|done]. exfalso. by apply Hreq, hits_requests.
Qed.

(** A policy that selects the node stays as it is. *)
Lemma policy_kept p : selects node p = true → Kept (λ s, p ∈ policiesOf (objects s) node).
Proof.
  intros Hsel s s' Hst Hp [[-> _]|(ch & snap & Hg & Heq & _ & [Hs Hreq Hcov _])]; [done|]. rewrite Heq in *.
  apply elem_of_policiesOf in Hp as [Hpns Hp]; [|apply api_keyed].
  apply elem_of_policiesOf; [apply apply_change_keyed, api_keyed|]. split; [done|]. rewrite <- Hp. symmetry.
  apply (untouched _ ch KEgressPolicy). intros Hkind Hkey. apply Hcov.
  pose proof (stored_changed (objects s) ch KEgressPolicy p Hg Hkind (eq_sym Hkey) Hp) as Hpch.
  destruct (policy_event (objects s) ch (api_keyed s) Hg node snap Hs Hst Hreq) with (p := p) as (new & Hnew & Hsn & Hkn); [by rewrite <- Hkey|done..|].
  exists new. split_and!; [done..|]. rewrite Hkn. by apply (requested_for _ _ _ KEgressPolicy); [left|].
Qed.
End quiet.

(** ** Runs among other clients *)

(** The node whose trigger the call loses: triggerNodeReconcile writes the stamp
    that the node already carries, which the API server need not report. *)
Definition lost_trigger (ctl : controller) (s : api_state) (c : call) : gset NamespacedName :=
  match ctl, c with
  | EgressPolicyController, Update KSingBoxNode n =>
    match objects s KSingBoxNode !! keyOf n with
    | Some n' =>
      if bool_decide (om_Annotations (node_meta n') !! reconcileTriggerAnnotation = om_Annotations (node_meta n) !! reconcileTriggerAnnotation)
      then {[keyOf n]} else ∅
    | None => ∅
    end
  | _, _ => ∅
  end.

Section wpi.
Context (ctl : controller) (node : SingBoxNode).

Fixpoint wpi {A} (p : prog A) (Q : A → api_state → Prop) (s : api_state) : Prop :=
  match p with
  | Ret a => ∀ s', quiet node s s' → Q a s'
  | Call c f => ∀ s', quiet node s s' → keyOf node ∉ lost_trigger ctl s' c → wpi (f (api_step s' c).1) Q (api_step s' c).2
  end.

(** A call is a quiet step. *)
Lemma call_quiet s c : quiet node s (api_step s c).2.
Proof. apply rtc_once. left. split; [apply api_cache|apply api_events]. Qed.

Lemma wpi_quiet {A} (p : prog A) Q s s' : wpi p Q s → quiet node s s' → wpi p Q s'.
Proof. intros Hp Hq. destruct p; simpl in *; intros; apply Hp; try done; by etrans. Qed.

Lemma wpi_bind {A B} (f : A → prog B) p Q s : wpi p (λ a, wpi (f a) Q) s → wpi (prog_bind f p) Q s.
Proof.
  revert s. induction p as [a|c g IH]; intros s; simpl.
  - intros Hp. by apply (Hp s).
  - intros Hp s' Hq Hg. by apply IH, Hp.
Qed.

(** What holds however the run goes on. *)
Lemma wpi_any {A} (p : prog A) (Q : A → api_state → Prop) s : (∀ a s', quiet node s s' → Q a s') → wpi p Q s.
Proof.
  revert s. induction p as [a|c f IH]; intros s HQ; simpl; [by apply HQ|]. intros s' Hq _. apply IH. intros a s2 Hq2.
  apply HQ. etrans; [exact Hq|]. etrans; [apply (call_quiet s' c)|done].
Qed.

Lemma wpi_mono {A} (p : prog A) (Q Q' : A → api_state → Prop) s : (∀ a s', quiet node s s' → Q a s' → Q' a s') → wpi p Q s → wpi p Q' s.
Proof.
  revert s. induction p as [a|c f IH]; intros s HQ Hp; simpl in *; [by auto|]. intros s' Hq Hg. eapply IH; [|by apply Hp].
  intros a s2 Hq2. apply HQ. etrans; [exact Hq|]. etrans; [apply (call_quiet s' c)|done].
Qed.

(** A part of the run whose outcome does not matter. *)
Lemma wpi_skip {A B} (f : A → prog B) p Q s : (∀ a s', quiet node s s' → wpi (f a) Q s') → wpi (prog_bind f p) Q s.
Proof. intros Hf. by apply wpi_bind, wpi_any. Qed.

Lemma wpi_ret {A} (a : A) (Q : A → api_state → Prop) s : (∀ s', quiet node s s' → Q a s') → wpi (Ret a) Q s.
Proof. done. Qed.

Lemma wpi_call {A} c (f : answer c → prog A) Q s :
  (∀ s', quiet node s s' → keyOf node ∉ lost_trigger ctl s' c → wpi (f (api_step s' c).1) Q (api_step s' c).2) →
  wpi (prog_bind f (do c)) Q s.
Proof. done. Qed.

Lemma wpi_get {A} k key (f : answer (Get k key) → prog A) Q s :
  (∀ s', quiet node s s' → wpi (f (reads (objects s') (Get k key))) Q s') → wpi (prog_bind f (do (Get k key))) Q s.
Proof.
  intros Hf s' Hq _. pose proof (api_read s' (Get k key) I) as ->. eapply wpi_quiet; [by apply Hf|apply call_quiet].
Qed.

Lemma wpi_list {A} k opt (f : answer (List k opt) → prog A) Q s :
  (∀ s' l, quiet node s s' → l ≡ₚ listing k opt (objects s' k) → wpi (f (inr l)) Q s') → wpi (prog_bind f (do (List k opt))) Q s.
Proof.
  intros Hf s' Hq _. pose proof (api_read s' (List k opt) I) as Hl. cbn in Hl. pose proof (call_quiet s' (List k opt)) as Hown.
  destruct (api_step s' (List k opt)) as [[e|l] s2]; [done|]. eapply wpi_quiet; [by apply Hf|done].
Qed.

(** A run whose answers [wp] can account for. *)
Lemma wpi_wp {A} (p : prog A) (P : A → Prop) s0 s tr :
  stored node s0 → quiet node s0 s → wp (seen (objects s0) node) p tr (λ _, P) → wpi p (λ a _, P a) s.
Proof.
  intros Hst. revert s tr. induction p as [a|c f IH]; intros s tr Hq0 Hp; simpl in *; [done|]. intros s' Hq _.
  eapply IH; [etrans; [exact Hq0|]; etrans; [exact Hq|apply call_quiet]|]. apply Hp. intros Hc. cbn [ev_call ev_answer] in *. exists (objects s').
  split_and!; [apply api_keyed| |by apply api_read]. symmetry. apply quiet_agree; [by etrans|done].
Qed.

(** The deferred metrics do not change the result. *)
Lemma wpi_withMetrics name body (Q : Result * option error → api_state → Prop) s :
  (∀ res s s', stored node s → quiet node s s' → Q res s → Q res s') → stored node s →
  wpi body (λ out, Q out.2) s → wpi (withMetrics name body) Q s.
Proof.
  intros HQ Hst Hb. unfold withMetrics, mbind, prog_mbind. apply wpi_bind. eapply wpi_mono; [|exact Hb]. intros [e res] s1 Hq1 Hres.
  assert (stored node s1) as Hst1 by (by eapply quiet_stored). apply wpi_skip. intros _ s2 Hq2. apply wpi_skip. intros _ s3 Hq3.
  intros s4 Hq4. apply (HQ _ s1); [done|by do 2 (etrans; [eassumption|])|done].
Qed.

(** Once an event that will enqueue the node is on its way, however the run goes on. *)
Lemma wpi_due {A} (p : prog A) (Q : A → api_state → Prop) s :
  stored node s → due node s → (∀ a s', due node s' → Q a s') → wpi p Q s.
Proof. intros Hst Hdue HQ. apply wpi_any. intros a s' Hq. apply HQ. by apply (kept_quiet node (due node) s s'). Qed.

(** A loop whose turn for [x] fails or sends such an event. *)
Lemma wpi_foldE_sends {A B} (f : B → A → prog (error + B)) l x b s :
  stored node s → x ∈ l → (∀ b s', quiet node s s' → wpi (f b x) (λ res s', (∃ e, res = inl e) ∨ due node s') s') →
  wpi (foldE f b l) (λ res s', (∃ e, res = inl e) ∨ due node s') s.
Proof.
  intros Hst Hin. revert b s Hst. induction l as [|z l IH]; intros b s Hst Hx; [by apply elem_of_nil in Hin|]. cbn [foldE]. apply wpi_bind.
  apply elem_of_cons in Hin as [<-|Hin].
  - eapply wpi_mono; [|by apply Hx]. intros a s' Hq [[e ->]|Hdue]; [apply wpi_ret; eauto|].
    apply wpi_due; [by eapply quiet_stored|done|by right].
  - apply wpi_any. intros [e|b'] s' Hq; [apply wpi_ret; eauto|]. apply IH; [done|by eapply quiet_stored|]. intros b2 s2 Hq2. apply Hx. by etrans.
Qed.
End wpi.

(** ** A pass of the policy controller *)
Section policy.
Context (node : SingBoxNode) (Hlive : om_DeletionTimestamp (node_meta node) = None).

Lemma reads_stored s : stored node s → reads (objects s) (Get KSingBoxNode (keyOf node)) = inr node.
Proof. intros Hst. by apply reads_get. Qed.

Lemma trigger_sends s :
  stored node s → wpi EgressPolicyController node (triggerNodeReconcile (keyOf node)) (λ e s', (∃ err, e = Some err) ∨ due node s') s.
Proof.
  intros Hst. unfold triggerNodeReconcile, mbind, prog_mbind. apply wpi_get. intros s1 Hq1.
  pose proof (quiet_stored node s s1 Hq1 Hst) as Hst1. rewrite (reads_stored s1 Hst1). apply wpi_skip. intros now s2 Hq2.
  pose proof (quiet_stored node s1 s2 Hq2 Hst1) as Hst2. set (n := with_node_meta _ node). intros s3 Hq3 Hstamp s4 Hq4.
  pose proof (quiet_stored node s2 s3 Hq3 Hst2) as Hst3. pose proof (api_update s3 n) as Hup. pose proof (call_quiet node s3 (Update KSingBoxNode n)) as Hown.
  destruct (api_step s3 (Update KSingBoxNode n)) as [[e|] s3']; [left; by exists e|]. cbn [fst snd] in *.
  destruct (Hup eq_refl Hlive) as [(ch & Hin & Hkind & Hkey)|(n' & Hn' & Hann)].
  - right. apply (kept_quiet node (due node) s3' s4); [by eapply quiet_stored| |done]. exists ch. split; [done|by left].
  - exfalso. apply Hstamp. pose proof (eq_trans (eq_sym Hn') Hst3) as [= ->]. unfold lost_trigger. change (keyOf n) with (keyOf node).
    unfold stored in Hst3. rewrite Hst3, Hann, bool_decide_true by done. by apply elem_of_singleton.
Qed.

Lemma policy_pass s p :
  stored node s → p ∈ policiesOf (objects s) node → selects node p = true →
  wpi EgressPolicyController node (EgressPolicyReconciler.Reconcile (keyOf p)) (λ res s', again res = true ∨ due node s') s.
Proof.
  intros Hst Hp Hsel. apply wpi_withMetrics; [|done|].
  { intros res s1 s2 Hst1 Hq [?|Hdue]; [by left|right]. by apply (kept_quiet node (due node) s1 s2). }
  unfold mbind, prog_mbind. apply wpi_get. intros s1 Hq1. pose proof (policy_kept node p Hsel) as Hkeep.
  destruct (kept_quiet node (λ s, p ∈ policiesOf (objects s) node) s s1 Hst Hp Hq1) as [Hst1 [Hpns Hp1]%elem_of_policiesOf]; [|apply api_keyed].
  rewrite (reads_get (objects s1) KEgressPolicy (keyOf p) p Hp1). apply wpi_list. intros s2 nodes Hq2 Hnodes.
  pose proof (quiet_stored node s1 s2 Hq2 Hst1) as Hst2. apply wpi_list. intros s3 exts Hq3 _.
  pose proof (quiet_stored node s2 s3 Hq3 Hst2) as Hst3.
  match goal with |- context [EgressPolicyReconciler.validatePolicyResolution p ?i ?e] => set (ingress := i); set (egress := e) end.
  destruct (EgressPolicyReconciler.validatePolicyResolution p ingress egress) as [reason message].
  apply wpi_skip. intros [e|] s4 Hq4; [apply wpi_ret; by left|]. pose proof (quiet_stored node s3 s4 Hq4 Hst3) as Hst4. apply wpi_bind.
  eapply wpi_mono; [|eapply (wpi_foldE_sends _ _ _ _ (GetName node)); [exact Hst4|..]].
  - intros t s5 Hq5 [[e ->]|Hdue]; [apply wpi_ret; by left|]. apply wpi_due; [by eapply quiet_stored|done|by right].
  - unfold ingress. rewrite elem_of_sort_strings. unfold EgressPolicyReconciler.ingressMatches. apply list_elem_of_fmap. exists node.
    split; [done|]. apply list_elem_of_filter. split; [exact Hsel|]. rewrite Hnodes.
    apply (elem_of_namespace (objects s2) KSingBoxNode _ node (api_keyed s2)). by rewrite Hpns.
  - intros b s5 Hq5. assert ({| nn_Namespace := GetNamespace p; nn_Name := GetName node |} = keyOf node) as -> by (unfold keyOf; by rewrite Hpns).
    pose proof (quiet_stored node s4 s5 Hq5 Hst4) as Hst5. apply wpi_bind. eapply wpi_mono; [|by apply trigger_sends].
    intros e s6 Hq6 [[err ->]|Hdue]; [apply wpi_ret; eauto|]. apply wpi_due; [by eapply quiet_stored|done|by right].
Qed.
End policy.

(** ** A pass of the node controller *)
Section node.
Context (ctl : controller) (node : SingBoxNode) (Hlive : om_DeletionTimestamp (node_meta node) = None).

(** CreateOrUpdate sends the configuration with its owner, or finds it there. *)
Lemma config_written s output op :
  let c := CreateOrUpdate KConfigMap {| cm_meta := newMeta (GetName node +:+ configMapSuffix) (GetNamespace node) ∅ ∅; cm_Data := ∅ |}
             (mutateConfigMap node output) in
  (api_step s c).1 = inr op → due node (api_step s c).2 ∨ deployedConfig (objects (api_step s c).2) node output.
Proof.
  intros c. pose proof (api_config s {| cm_meta := newMeta (GetName node +:+ configMapSuffix) (GetNamespace node) ∅ ∅; cm_Data := ∅ |}
    (mutateConfigMap node output) op) as Hcfg. fold c in Hcfg. rewrite (api_cache s c). destruct (api_step s c) as [res s']. cbn [fst snd]. intros Hres.
  destruct (Hcfg Hres) as (cm & cm' & cm'' & Hcm & Hmut & Hdata & Hns & Href & Hafter). clear Hcfg Hres. clearbody c.
  assert (om_Namespace (cm_meta cm) = GetNamespace node) as Hcns.
  { destruct Hcm as [Hcm|[_ ->]]; [|done]. pose proof (api_keyed s KConfigMap _ _ Hcm) as Hkey. by injection Hkey. }
  unfold mutateConfigMap in Hmut.
  match type of Hmut with context [SetControllerReference ?a ?b] => destruct (SetControllerReference a b) as [e|m] eqn:Hset end; [discriminate|].
  injection Hmut as <-. cbn [cm_meta cm_Data] in *.
  assert (keyOf node ∈ ownerRequests (om_Namespace (cm_meta cm'')) (om_OwnerReferences (cm_meta cm''))) as Hown.
  { rewrite Hns, Href. by apply (owner_requests node _ m Hset). }
  destruct Hafter as [(ch & Hin & Hkind & Hch)|Hthere]; [left|right].
  - exists ch. split; [done|]. right. eauto.
  - exists cm''. split_and!; [exact Hthere|exact Hown|]. rewrite Hdata. reflexivity.
Qed.

Lemma configMap_pass s output :
  stored node s →
  wpi ctl node (reconcileConfigMap node output) (λ e s', e = None → due node s' ∨ deployedConfig (objects s') node output) s.
Proof.
  intros Hst. unfold reconcileConfigMap, mbind, prog_mbind. apply wpi_skip. intros _ s1 Hq1.
  pose proof (quiet_stored node s s1 Hq1 Hst) as Hst1. apply wpi_call.
  intros s2 Hq2 _. pose proof (quiet_stored node s1 s2 Hq2 Hst1) as Hst2.
  pose proof (config_written s2 output) as Hw. cbv zeta in Hw. set (c := CreateOrUpdate KConfigMap _ _) in *.
  pose proof (quiet_stored node s2 _ (call_quiet node s2 c) Hst2) as Hst3. destruct (api_step s2 c) as [[err|op] s3]; [done|]. cbn [fst snd] in *.
  specialize (Hw op eq_refl). apply wpi_skip. intros _ s4 Hq4. apply wpi_ret. intros s5 Hq5 _.
  assert (quiet node s3 s5) as Hq35 by (by etrans). destruct Hw as [Hdue|Hd]; [left|right].
  - by apply (kept_quiet node (due node) s3 s5).
  - exact (proj2 (kept_quiet node (λ s, deployedConfig (objects s) node output) s3 s5 Hst3 Hd Hq35)).
Qed.

(** A status that stays is the one that was written. *)
Lemma status_pass s hash :
  stored node s →
  wpi ctl node (updateStatus r node hash) (λ res s', res.2 = None → due node s' ∨ ∃ name, node_status node = runningStatus node hash name) s.
Proof.
  intros Hst. unfold updateStatus, mbind, prog_mbind. apply wpi_get. intros s1 Hq1.
  pose proof (quiet_stored node s s1 Hq1 Hst) as Hst1. rewrite (reads_stored node s1 Hst1). apply wpi_skip. intros name s2 Hq2.
  pose proof (quiet_stored node s1 s2 Hq2 Hst1) as Hst2. apply wpi_call. intros s3 Hq3 _.
  pose proof (quiet_stored node s2 s3 Hq3 Hst2) as Hst3. set (n := with_node_status _ node). pose proof (api_status s3 n) as Hup.
  pose proof (quiet_stored node s3 _ (call_quiet node s3 (StatusUpdate KSingBoxNode n)) Hst3) as Hst4.
  destruct (api_step s3 (StatusUpdate KSingBoxNode n)) as [[e|] s4]; [done|]. cbn [fst snd] in *. apply wpi_skip. intros _ s5 Hq5.
  apply wpi_ret. intros s6 Hq6 _. destruct (Hup eq_refl) as [(ch & Hin & Hkind & Hkey)|(n' & Hn' & Hstatus)].
  - left. apply (kept_quiet node (due node) s4 s6); [done| |by etrans]. exists ch. split; [done|by left].
  - right. exists name. pose proof (eq_trans (eq_sym Hn') Hst3) as [= ->]. exact Hstatus.
Qed.

(** The node is deployed, will be enqueued, or its pass will be repeated. *)
Definition settled (res : Result * option error) (s : api_state) : Prop :=
  again res = true ∨ due node s ∨ deployed (objects s) node.

Lemma settled_later res s s' : stored node s → quiet node s s' → settled res s → settled res s'.
Proof.
  intros Hst Hq [?|[Hdue|Hd]]; [by left| |].
  - right. left. by apply (kept_quiet node (due node) s s').
  - right. right. exact (proj2 (kept_quiet node (λ s, deployed (objects s) node) s s' Hst Hd Hq)).
Qed.

Lemma apply_pass s output :
  stored node s → callsFor r (objects s) node output → wpi ctl node (applyOutput r node output) (λ out, settled out.2) s.
Proof.
  intros Hst Hout. unfold applyOutput, mbind, prog_mbind. apply wpi_bind. eapply wpi_mono; [|by apply configMap_pass].
  intros [e|] s1 Hq1 Hcfg; [apply wpi_ret; by left|]. specialize (Hcfg eq_refl).
  pose proof (quiet_stored node s s1 Hq1 Hst) as Hst1. apply (quiet_callsFor node s s1 output Hq1 Hst) in Hout.
  destruct Hcfg as [Hdue|Hcfg]; [apply wpi_due; [done..|by right; left]|].
  apply wpi_skip. intros [e|[]] s2 Hq2; [apply wpi_ret; by left|apply wpi_ret; by left|].
  apply wpi_skip. intros [e|[]] s3 Hq3; [apply wpi_ret; by left|apply wpi_ret; by left|].
  assert (quiet node s1 s3) as Hq13 by (by etrans). pose proof (quiet_stored node s1 s3 Hq13 Hst1) as Hst3.
  unfold passOn, mbind, prog_mbind. apply wpi_bind. eapply wpi_mono; [|by apply status_pass].
  intros [res [e|]] s4 Hq4 Hstatus; [apply wpi_ret; by left|]. pose proof (quiet_stored node s3 s4 Hq4 Hst3) as Hst4.
  destruct (Hstatus eq_refl) as [Hdue|[name Hname]]; [apply wpi_due; [done..|by right; left]|].
  apply wpi_ret. intros s5 Hq5. right. right. assert (quiet node s1 s5) as Hq15 by (etrans; [exact Hq13|by etrans]). exists output. split_and!.
  - by apply (quiet_callsFor node s1 s5).
  - exact (proj2 (kept_quiet node (λ s, deployedConfig (objects s) node output) s1 s5 Hst1 Hcfg Hq15)).
  - unfold reported. rewrite Hname. split_and!; reflexivity.
Qed.

(** From the reads on, each of which may see a later cluster. *)
Lemma live_pass s : stored node s → wpi ctl node (reconcileLive r node) (λ out, settled out.2) s.
Proof.
  intros Hst. unfold reconcileLive, mbind, prog_mbind. apply wpi_skip. intros _ s1 Hq1. apply wpi_skip. intros [e|] s2 Hq2; [apply wpi_ret; by left|].
  assert (stored node s2) as Hst2 by (eapply quiet_stored; [|exact Hst]; by etrans). apply wpi_bind.
  eapply wpi_mono; [|exact (wpi_wp ctl node _ _ s2 s2 [] Hst2 ltac:(done) (collectInput_apart r (objects s2) node []))].
  intros input s3 Hq3 (i & -> & Hi). cbn [computeResult]. apply apply_pass; [by eapply quiet_stored|].
  by apply (quiet_callsFor node s2 s3).
Qed.

Lemma node_pass s : stored node s → wpi ctl node (NodeController.Reconcile r (keyOf node)) settled s.
Proof.
  intros Hst. apply wpi_withMetrics; [apply settled_later|done|]. unfold mbind, prog_mbind. apply wpi_get.
  intros s1 Hq1. pose proof (quiet_stored node s s1 Hq1 Hst) as Hst1. rewrite (reads_stored node s1 Hst1), Hlive.
  destruct (ContainsFinalizer (node_meta node) singboxNodeFinalizer); cbn [negb]; [by apply live_pass|].
  apply wpi_skip. intros [e|] s2 _; apply wpi_ret; by left.
Qed.
End node.
End passes.
