(* ===== verification/Store.v ===== *)
(** * Store: an API server in memory

    An executable instance of [ApiServer]: a map of objects per kind that the
    manager caches, and the events that have not reached it yet.  A changed spec
    advances the generation, status is a subresource, a write based on an outdated
    object conflicts, an update that changes nothing is no event, and an object
    with finalizers is deleted when the last one goes.  The runs of OperatorRuns.v
    are evaluated on it. *)

From S2P Require Import Prelude GoStrings Json Api Engine K8s CredManager NodeController SampleCluster Cluster Watches ReadsApart Passes.

(** ** Equality of objects *)
#[export] Instance json_eq : EqDecision json.
Proof.
  refine (fix go (x y : json) : Decision (x = y) :=
    match x, y with
    | JNull, JNull => left eq_refl
    | JBool a, JBool b => cast_if (decide (a = b))
    | JNum a, JNum b => cast_if (decide (a = b))
    | JFloat a, JFloat b => cast_if (decide (a = b))
    | JStr a, JStr b => cast_if (decide (a = b))
    | JArr a, JArr b => cast_if (@list_eq_dec _ go a b)
    | JObj a, JObj b => cast_if (@list_eq_dec _ (@prod_eq_dec _ _ _ go) a b)
    | _, _ => right _
    end); clear go; congruence.
Defined.

#[export] Instance LabelSelectorRequirement_eq : EqDecision LabelSelectorRequirement.
Proof. solve_decision. Defined.
#[export] Instance ObjectMeta_eq : EqDecision ObjectMeta.
Proof. solve_decision. Defined.
#[export] Instance ProtocolConfig_eq : EqDecision ProtocolConfig.
Proof. solve_decision. Defined.
#[export] Instance SingBoxNodeSpec_eq : EqDecision SingBoxNodeSpec.
Proof. unfold ProxyRole. solve_decision. Defined.
#[export] Instance SingBoxNodeStatus_eq : EqDecision SingBoxNodeStatus.
Proof. solve_decision. Defined.
#[export] Instance UserSpec_eq : EqDecision UserSpec.
Proof. solve_decision. Defined.
#[export] Instance UserStatus_eq : EqDecision UserStatus.
Proof. solve_decision. Defined.
#[export] Instance UserGroupSpec_eq : EqDecision UserGroupSpec.
Proof. solve_decision. Defined.
#[export] Instance EgressPolicySelector_eq : EqDecision EgressPolicySelector.
Proof. solve_decision. Defined.
#[export] Instance EgressPolicyMatch_eq : EqDecision EgressPolicyMatch.
Proof. solve_decision. Defined.
#[export] Instance EgressPolicySpec_eq : EqDecision EgressPolicySpec.
Proof. solve_decision. Defined.
#[export] Instance ExternalOutboundTLS_eq : EqDecision ExternalOutboundTLS.
Proof. solve_decision. Defined.
#[export] Instance Hysteria2Options_eq : EqDecision Hysteria2Options.
Proof. solve_decision. Defined.
#[export] Instance ExternalOutboundSpec_eq : EqDecision ExternalOutboundSpec.
Proof. solve_decision. Defined.
#[export] Instance ExternalOutboundStatus_eq : EqDecision ExternalOutboundStatus.
Proof. solve_decision. Defined.
#[export] Instance VolumeMount_eq : EqDecision VolumeMount.
Proof. solve_decision. Defined.
#[export] Instance VolumeSource_eq : EqDecision VolumeSource.
Proof. solve_decision. Defined.
#[export] Instance Volume_eq : EqDecision Volume.
Proof. solve_decision. Defined.
#[export] Instance Container_eq : EqDecision Container.
Proof. solve_decision. Defined.
#[export] Instance PodSpec_eq : EqDecision PodSpec.
Proof. solve_decision. Defined.
#[export] Instance PodStatus_eq : EqDecision PodStatus.
Proof. solve_decision. Defined.
#[export] Instance NodeCondition_eq : EqDecision NodeCondition.
Proof. solve_decision. Defined.

#[export] Instance obj_eq k : EqDecision (obj k).
Proof. destruct k; simpl; solve_decision. Defined.

(** ** What is stored *)
Definition with_generation (g : Z) (m : ObjectMeta) : ObjectMeta :=
  {| om_Name := om_Name m; om_Namespace := om_Namespace m; om_Labels := om_Labels m; om_Annotations := om_Annotations m;
     om_Generation := g; om_Finalizers := om_Finalizers m; om_DeletionTimestamp := om_DeletionTimestamp m;
     om_OwnerReferences := om_OwnerReferences m |}.

Definition with_deletion (t : Z) (m : ObjectMeta) : ObjectMeta :=
  {| om_Name := om_Name m; om_Namespace := om_Namespace m; om_Labels := om_Labels m; om_Annotations := om_Annotations m;
     om_Generation := om_Generation m + 1; om_Finalizers := om_Finalizers m; om_DeletionTimestamp := Some t;
     om_OwnerReferences := om_OwnerReferences m |}.

(** The object with other metadata. *)
Definition set_meta (k : kind) (m : ObjectMeta) : obj k → obj k :=
  match k with
  | KSingBoxNode => λ o, {| node_meta := m; node_spec := node_spec o; node_status := node_status o |}
  | KUser => λ o, {| user_meta := m; user_spec := user_spec o; user_status := user_status o |}
  | KUserGroup => λ o, {| ug_meta := m; ug_spec := ug_spec o |}
  | KEgressPolicy => λ o, {| policy_meta := m; policy_spec := policy_spec o; policy_status := policy_status o |}
  | KExternalOutbound => λ o, {| eob_meta := m; eob_spec := eob_spec o; eob_status := eob_status o |}
  | KSecret => λ o, {| secret_meta := m; Data := Data o |}
  | KConfigMap => λ o, {| cm_meta := m; cm_Data := cm_Data o |}
  | KPod => λ o, {| pod_meta := m; pod_spec := pod_spec o; pod_status := pod_status o |}
  | KService => λ o, {| svc_meta := m |}
  | KNode => λ o, {| kn_meta := m; kn_Conditions := kn_Conditions o |}
  end.

(** The new spec and metadata with the old status. *)
Definition keep_status (k : kind) : obj k → obj k → obj k :=
  match k with
  | KSingBoxNode => λ old o, {| node_meta := node_meta o; node_spec := node_spec o; node_status := node_status old |}
  | KUser => λ old o, {| user_meta := user_meta o; user_spec := user_spec o; user_status := user_status old |}
  | KEgressPolicy => λ old o, {| policy_meta := policy_meta o; policy_spec := policy_spec o; policy_status := policy_status old |}
  | KExternalOutbound => λ old o, {| eob_meta := eob_meta o; eob_spec := eob_spec o; eob_status := eob_status old |}
  | KPod => λ old o, {| pod_meta := pod_meta o; pod_spec := pod_spec o; pod_status := pod_status old |}
  | KUserGroup | KSecret | KConfigMap | KService | KNode => λ _ o, o
  end.

Definition same_specb (k : kind) : obj k → obj k → bool :=
  match k with
  | KSingBoxNode => λ o n, node_spec o ==? node_spec n
  | KUser => λ o n, user_spec o ==? user_spec n
  | KUserGroup => λ o n, ug_spec o ==? ug_spec n
  | KEgressPolicy => λ o n, policy_spec o ==? policy_spec n
  | KExternalOutbound => λ o n, eob_spec o ==? eob_spec n
  | _ => λ _ _, true
  end.

(** An update of [old] to [o]: the server keeps the status and counts spec changes. *)
Definition updated (k : kind) (old o : obj k) : obj k :=
  let g := om_Generation (obj_meta k old) in
  set_meta k (with_generation (if same_specb k old o then g else g + 1) (obj_meta k o)) (keep_status k old o).

Lemma set_meta_key k m o : om_Name m = om_Name (obj_meta k o) → om_Namespace m = om_Namespace (obj_meta k o) → obj_key k (set_meta k m o) = obj_key k o.
Proof.
  intros Hn Hns. destruct k; unfold obj_key, obj_ns; simpl in *;
    unfold GetName, meta, SingBoxNode_meta, User_meta, UserGroup_meta, EgressPolicy_meta, ExternalOutbound_meta, Secret_meta, ConfigMap_meta,
      Pod_meta, Service_meta, K8sNode_meta; simpl; by rewrite Hn, Hns.
Qed.

Lemma updated_key k old o : obj_key k (updated k old o) = obj_key k o.
Proof. unfold updated. rewrite set_meta_key; by destruct k. Qed.

Lemma updated_spec k old o :
  om_Generation (obj_meta k old) = om_Generation (obj_meta k (updated k old o)) → same_spec k old (updated k old o).
Proof.
  unfold updated. assert (om_Generation (obj_meta k (set_meta k (with_generation (if same_specb k old o then om_Generation (obj_meta k old)
    else (om_Generation (obj_meta k old) + 1)%Z) (obj_meta k o)) (keep_status k old o)))
    = (if same_specb k old o then om_Generation (obj_meta k old) else (om_Generation (obj_meta k old) + 1)%Z)) as -> by (by destruct k).
  destruct (same_specb k old o) eqn:Hs; [intros _|lia]. destruct k; try done; simpl in *; by bool_prop.
Qed.

(** ** The server and the cache *)

(** The cached objects, the events on their way, and the clock. *)
Record store := { so_cache : cluster; so_events : list change; so_now : string → string }.

(** What is stored: the cache after every event. *)
Definition apply_changes (l : list change) (c : cluster) : cluster := foldl (λ c ch, apply_change ch c) c l.
Definition so_server (s : store) : cluster := apply_changes (so_events s) (so_cache s).

Definition emit (ch : change) (s : store) : store := {| so_cache := so_cache s; so_events := so_events s ++ [ch]; so_now := so_now s |}.

(** The oldest event reaches the cache. *)
Definition store_deliver (s : store) : option (change * store) :=
  match so_events s with
  | [] => None
  | ch :: l => Some (ch, {| so_cache := apply_change ch (so_cache s); so_events := l; so_now := so_now s |})
  end.

#[export] Program Instance sample_notfound : NotFoundErrors := {| NotFoundError k key := notFound |}.
Next Obligation. done. Qed.

Definition alreadyExists : error := {| IsNotFound := false; IsConflict := false; Error := "already exists" |}.
Definition conflict : error := {| IsNotFound := false; IsConflict := true; Error := "the object has been modified" |}.

(** The cached object is not the stored one: a write based on it conflicts. *)
Definition outdated (k : kind) (key : NamespacedName) (s : store) : bool :=
  existsb (λ ch, bool_decide (ch_kind ch = k) && (ch_key ch ==? key)) (so_events s).

(** Replaces the stored [old] by [new] under the same key, unless nothing changes. *)
Definition replace (k : kind) (old new : obj k) (s : store) : bool * store :=
  if decide (old = new) then (false, s) else (true, emit (Updated k old new) s).

Definition store_update (k : kind) (o : obj k) (s : store) : option error * store :=
  match so_server s k !! obj_key k o with
  | None => (Some notFound, s)
  | Some old =>
    if outdated k (obj_key k o) s then (Some conflict, s)
    else if bool_decide (om_Finalizers (obj_meta k o) = []) && (if om_DeletionTimestamp (obj_meta k o) is Some _ then true else false)
    then (None, emit (Deleted k old) s)
    else (None, (replace k old (updated k old o) s).2)
  end.

(** Metadata and spec stay as they are. *)
Definition store_status (k : kind) (o : obj k) (s : store) : option error * store :=
  match so_server s k !! obj_key k o with
  | None => (Some notFound, s)
  | Some old => if outdated k (obj_key k o) s then (Some conflict, s) else (None, (replace k old (keep_status k o old) s).2)
  end.

Definition store_create (k : kind) (o : obj k) (s : store) : option error * store :=
  match so_server s k !! obj_key k o with
  | Some _ => (Some alreadyExists, s)
  | None => (None, emit (Created k (set_meta k (with_generation 1 (obj_meta k o)) o)) s)
  end.

Definition store_delete (k : kind) (o : obj k) (s : store) : option error * store :=
  match so_server s k !! obj_key k o with
  | None => (Some notFound, s)
  | Some old =>
    if bool_decide (om_Finalizers (obj_meta k old) = []) then (None, emit (Deleted k old) s)
    else (None, (replace k old (set_meta k (with_deletion 0 (obj_meta k old)) old) s).2)
  end.

(** Get from the cache, then Create or Update at the server. *)
Definition store_createOrUpdate (k : kind) (o : obj k) (mutate : obj k → error + obj k) (s : store) : (error + string) * store :=
  match so_cache s k !! obj_key k o with
  | None =>
    match mutate o with
    | inl err => (inl err, s)
    | inr o' =>
      if decide (obj_key k o' = obj_key k o) then
        match so_server s k !! obj_key k o with
        | Some _ => (inl alreadyExists, s)
        | None => (inr "created", emit (Created k o') s)
        end
      else (inl alreadyExists, s)
    end
  | Some old =>
    match mutate old with
    | inl err => (inl err, s)
    | inr o' =>
      if decide (obj_key k o' = obj_key k o) then
        if outdated k (obj_key k o) s then (inl conflict, s)
        else let '(changed, s) := replace k old (updated k old o') s in (inr (if changed : bool then "updated" else "unchanged"), s)
      else (inl alreadyExists, s)
    end
  end.

Definition store_step (s : store) (c : call) : answer c * store :=
  match c with
  | Get k key => (reads (so_cache s) (Get k key), s)
  | List k opt => (reads (so_cache s) (List k opt), s)
  | Create k o => store_create k o s
  | Update k o => store_update k o s
  | StatusUpdate k o => store_status k o s
  | Patch k _ o => store_update k o s
  | Delete k o => store_delete k o s
  | CreateOrUpdate k o mutate => store_createOrUpdate k o mutate s
  | NowText layout => (so_now s layout, s)
  | RandRead n => ((replicate n 7%Z, None), s)
  | MetricInc _ _ | MetricSet _ _ _ | MetricObserveDuration _ _ => (tt, s)
  end.

(** ** The laws *)

(** Every event says what happens to the object at its turn. *)
Fixpoint chain (c : cluster) (l : list change) : Prop :=
  match l with [] => True | ch :: l => genuine c ch ∧ chain (apply_change ch c) l end.

Definition store_ok (s : store) : Prop := keyed (so_cache s) ∧ chain (so_cache s) (so_events s).

Lemma chain_snoc c l ch : chain c l → genuine (apply_changes l c) ch → chain c (l ++ [ch]).
Proof. revert c. induction l as [|x l IH]; intros c; simpl; [done|]. intros [Hx Hl] Hch. split; [done|by apply IH]. Qed.

Lemma apply_changes_keyed l c : keyed c → keyed (apply_changes l c).
Proof. revert c. induction l as [|x l IH]; intros c Hc; [done|]. cbn. by apply IH, apply_change_keyed. Qed.

Lemma server_keyed s k key o : store_ok s → so_server s k !! key = Some o → obj_key k o = key.
Proof. intros [Hk _]. by apply apply_changes_keyed. Qed.

(** An object without an event on its way is the same in the cache and at the server. *)
Lemma current_object k key s : outdated k key s = false → so_server s k !! key = so_cache s k !! key.
Proof.
  unfold outdated, so_server. generalize (so_cache s). induction (so_events s) as [|ch l IH]; intros c; [done|]. cbn [existsb apply_changes foldl].
  intros [Hch Hl]%orb_false_iff. fold (apply_changes l (apply_change ch c)). rewrite IH by done.
  destruct (decide (ch_kind ch = k)) as [Hkind|Hkind]; [|by apply (f_equal (lookup key)), apply_change_kind].
  rewrite bool_decide_true in Hch by done. apply apply_change_key. intros ->. by rewrite bool_decide_true in Hch.
Qed.

(** What an operation may do: nothing, or send one event. *)
Definition effect (s s' : store) : Prop := s' = s ∨ ∃ ch, genuine (so_server s) ch ∧ s' = emit ch s.

Lemma replace_effect k old new s :
  so_server s k !! obj_key k old = Some old → obj_key k new = obj_key k old →
  (om_Generation (obj_meta k old) = om_Generation (obj_meta k new) → same_spec k old new) → effect s (replace k old new s).2.
Proof.
  intros Hold Hkey Hspec. unfold replace. case_decide; [by left|right]. eexists. split; [|reflexivity]. split_and!; [by rewrite Hkey|done..].
Qed.

Section effects.
Context (s : store) (Hok : store_ok s).

Lemma store_update_effect k o : effect s (store_update k o s).2.
Proof.
  unfold store_update. destruct (so_server s k !! obj_key k o) as [old|] eqn:Hold; [|by left].
  pose proof (server_keyed _ _ _ _ Hok Hold) as Hkey. rewrite <- Hkey in Hold. destruct (outdated _ _ _); [by left|].
  destruct (_ && _); [right; by exists (Deleted k old)|]. apply replace_effect; [done|by rewrite updated_key|apply updated_spec].
Qed.

Lemma store_status_effect k o : effect s (store_status k o s).2.
Proof.
  unfold store_status. destruct (so_server s k !! obj_key k o) as [old|] eqn:Hold; [|by left].
  pose proof (server_keyed _ _ _ _ Hok Hold) as Hkey. rewrite <- Hkey in Hold. destruct (outdated _ _ _); [by left|].
  exact (replace_effect k old (keep_status k o old) s Hold ltac:(clear; by destruct k) ltac:(clear; by destruct k)).
Qed.

Lemma store_create_effect k o : effect s (store_create k o s).2.
Proof.
  unfold store_create. destruct (so_server s k !! obj_key k o) as [old|] eqn:Hold; [by left|]. right. eexists. split; [|reflexivity].
  simpl. by rewrite set_meta_key.
Qed.

Lemma store_delete_effect k o : effect s (store_delete k o s).2.
Proof.
  unfold store_delete. destruct (so_server s k !! obj_key k o) as [old|] eqn:Hold; [|by left].
  pose proof (server_keyed _ _ _ _ Hok Hold) as Hkey. rewrite <- Hkey in Hold. case_bool_decide; [right; by exists (Deleted k old)|].
  exact (replace_effect k old (set_meta k (with_deletion 0 (obj_meta k old)) old) s Hold ltac:(by rewrite set_meta_key) ltac:(clear; by destruct k)).
Qed.

Lemma store_createOrUpdate_effect k o mutate : effect s (store_createOrUpdate k o mutate s).2.
Proof.
  unfold store_createOrUpdate. destruct (so_cache s k !! obj_key k o) as [old|] eqn:Hold.
  - destruct (mutate old) as [e|o']; [by left|]. case_decide as Hd; [|by left]. destruct (outdated _ _ _) eqn:Hout; [by left|].
    rewrite <- current_object in Hold by done. pose proof (server_keyed _ _ _ _ Hok Hold) as Hkey. rewrite <- Hkey in Hold.
    pose proof (replace_effect k old (updated k old o') s Hold ltac:(by rewrite updated_key, Hd, Hkey) (updated_spec k old o')) as He.
    by destruct (replace k old _ s).
  - destruct (mutate o) as [e|o']; [by left|]. case_decide as Hd; [|by left].
    destruct (so_server s k !! obj_key k o) as [old|] eqn:Hs; [by left|]. right. eexists. split; [|reflexivity]. simpl. by rewrite Hd.
Qed.

Lemma store_step_effect c : effect s (store_step s c).2.
Proof.
  destruct c; simpl; try by left.
  - apply store_create_effect.
  - apply store_update_effect.
  - apply store_status_effect.
  - apply store_update_effect.
  - apply store_delete_effect.
  - apply store_createOrUpdate_effect.
Qed.

Lemma store_step_ok c : store_ok (store_step s c).2.
Proof.
  destruct (store_step_effect c) as [->|(ch & Hg & ->)]; [done|]. destruct Hok as [Hk Hc]. split; [done|]. by apply chain_snoc.
Qed.
End effects.

Lemma store_deliver_ok s ch s' : store_ok s → store_deliver s = Some (ch, s') → store_ok s'.
Proof.
  unfold store_deliver, store_ok. destruct (so_events s) as [|x l]; [done|]. intros [Hk [_ Hc]] [= <- <-]. split; [by apply apply_change_keyed|done].
Qed.

(** After a replacement the event is on its way, or nothing changed. *)
Lemma replace_cases k old new s : (Updated k old new ∈ so_events (replace k old new s).2) ∨ old = new.
Proof. unfold replace. case_decide; [by right|left]. simpl. set_solver. Qed.

Lemma store_update_annotations s (n : SingBoxNode) :
  (store_update KSingBoxNode n s).1 = None → om_DeletionTimestamp (node_meta n) = None →
  (∃ ch, ch ∈ so_events (store_update KSingBoxNode n s).2 ∧ ch_kind ch = KSingBoxNode ∧ ch_key ch = keyOf n) ∨
  (∃ n', so_cache s KSingBoxNode !! keyOf n = Some n' ∧ om_Annotations (node_meta n') = om_Annotations (node_meta n)).
Proof.
  unfold store_update. intros Hans Hdel. destruct (so_server s KSingBoxNode !! obj_key KSingBoxNode n) as [old|] eqn:Hold; [|done].
  destruct (outdated KSingBoxNode (obj_key KSingBoxNode n) s) eqn:Hout; [done|]. simpl in Hdel |- *. rewrite Hdel, andb_false_r. simpl.
  destruct (replace_cases KSingBoxNode old (updated KSingBoxNode old n) s) as [Hev|Heq].
  - left. eexists. split; [exact Hev|]. split; [done|]. apply updated_key.
  - right. exists old. split; [exact (eq_trans (eq_sym (current_object _ _ _ Hout)) Hold)|]. by rewrite Heq.
Qed.

Lemma store_status_stored s (n : SingBoxNode) :
  store_ok s → (store_status KSingBoxNode n s).1 = None →
  (∃ ch, ch ∈ so_events (store_status KSingBoxNode n s).2 ∧ ch_kind ch = KSingBoxNode ∧ ch_key ch = keyOf n) ∨
  (∃ n', so_cache s KSingBoxNode !! keyOf n = Some n' ∧ node_status n' = node_status n).
Proof.
  unfold store_status. intros Hok Hans. destruct (so_server s KSingBoxNode !! obj_key KSingBoxNode n) as [old|] eqn:Hold; [|done].
  destruct (outdated KSingBoxNode (obj_key KSingBoxNode n) s) eqn:Hout; [done|]. rewrite current_object in Hold by done.
  destruct (replace_cases KSingBoxNode old (keep_status KSingBoxNode n old) s) as [Hev|Heq].
  - left. eexists. split; [exact Hev|]. split; [done|]. destruct Hok as [Hk _]. exact (Hk KSingBoxNode _ _ Hold).
  - right. exists old. split; [exact Hold|]. by rewrite Heq.
Qed.

Lemma store_config s (o : ConfigMap) mutate op :
  store_ok s → (store_createOrUpdate KConfigMap o mutate s).1 = inr op →
  ∃ cm cm' cm'' : ConfigMap, (so_cache s KConfigMap !! keyOf o = Some cm ∨ so_cache s KConfigMap !! keyOf o = None ∧ cm = o) ∧
    mutate cm = inr cm' ∧ cm_Data cm'' = cm_Data cm' ∧ om_Namespace (cm_meta cm'') = om_Namespace (cm_meta cm') ∧
    om_OwnerReferences (cm_meta cm'') = om_OwnerReferences (cm_meta cm') ∧
    ((∃ ch, ch ∈ so_events (store_createOrUpdate KConfigMap o mutate s).2 ∧ ch_kind ch = KConfigMap ∧ existT KConfigMap cm'' ∈ ch_objs ch) ∨
     so_cache s KConfigMap !! keyOf o = Some cm'').
Proof.
  intros Hok. unfold store_createOrUpdate. destruct (so_cache s KConfigMap !! obj_key KConfigMap o) as [old|] eqn:Hold.
  - destruct (mutate old) as [e|o'] eqn:Hm; [done|]. case_decide as Hd; [|done]. destruct (outdated _ _ _); [done|]. intros _.
    exists old, o', (updated KConfigMap old o'). split_and!; [by left|done..|].
    destruct (replace_cases KConfigMap old (updated KConfigMap old o') s) as [Hev|Heq].
    + left. destruct (replace KConfigMap old _ s) as [b s']. eexists. split; [exact Hev|]. split; [done|]. right. left.
    + right. etrans; [exact Hold|by f_equal].
  - destruct (mutate o) as [e|o'] eqn:Hm; [done|]. case_decide as Hd; [|done].
    destruct (so_server s KConfigMap !! obj_key KConfigMap o) as [x|]; [done|]. intros _. exists o, o', o'. split_and!; [by right|done..|].
    left. exists (Created KConfigMap o'). split_and!; [simpl; set_solver|done|left].
Qed.

(** ** The instance *)
Definition okStore : Type := {s : store | store_ok s}.

Definition okStore_step (s : okStore) (c : call) : answer c * okStore :=
  ((store_step (proj1_sig s) c).1, exist _ (store_step (proj1_sig s) c).2 (store_step_ok _ (proj2_sig s) c)).

#[export] Program Instance store_api : ApiServer := {|
  api_state := okStore; objects s := so_cache (proj1_sig s); server_objects s := so_server (proj1_sig s);
  events s := so_events (proj1_sig s); api_step := okStore_step;
  api_deliver s ch s' := store_deliver (proj1_sig s) = Some (ch, proj1_sig s');
|}.
Next Obligation. intros s. exact (proj1 (proj2_sig s)). Qed.
Next Obligation. intros [s Hok] Hev. unfold so_server. simpl in *. by rewrite Hev. Qed.
Next Obligation. intros [s Hok] c Hc. destruct c; try done; apply (Snapshot.alike_equiv (List k opt)). Qed.
Next Obligation. intros [s Hok] c. simpl. by destruct (store_step_effect s Hok c) as [->|(ch & _ & ->)]. Qed.
Next Obligation.
  intros [s Hok] c. simpl. destruct (store_step_effect s Hok c) as [->|(ch & _ & ->)]; [exists []; by rewrite app_nil_r|by exists [ch]].
Qed.
Next Obligation.
  intros [s [Hk Hc]] ch [s' Hok']. simpl. unfold store_deliver. destruct (so_events s) as [|x l]; [done|]. intros [= -> <-]. simpl in *.
  by destruct Hc.
Qed.
Next Obligation. intros [s Hok] n. exact (store_update_annotations s n). Qed.
Next Obligation. intros [s Hok] n. exact (store_status_stored s n Hok). Qed.
Next Obligation. intros [s Hok] o mutate op. exact (store_config s o mutate op Hok). Qed.

(** The delivery of the oldest event, as a function. *)
Definition okStore_deliver (s : okStore) : option (change * okStore) :=
  match store_deliver (proj1_sig s) as o return store_deliver (proj1_sig s) = o → option (change * okStore) with
  | Some (ch, s') => λ Hdel, Some (ch, exist _ s' (store_deliver_ok _ _ _ (proj2_sig s) Hdel))
  | None => λ _, None
  end eq_refl.

Lemma okStore_deliver_ok s ch s' : okStore_deliver s = Some (ch, s') → api_deliver s ch s'.
Proof.
  unfold okStore_deliver. simpl. generalize (@eq_refl _ (store_deliver (proj1_sig s))).
  destruct (store_deliver (proj1_sig s)) as [[ch0 s0]|] at 2 3; [|done]. by intros Hdel [= <- <-].
Qed.
