(* ===== verification/Operator.v ===== *)
(** * Operator: the five controllers against one API server

    The manager that cmd/main.go assembles: an API server with a cached client,
    the work queues of the controllers, filled by their watches, and workers that
    take a request from a queue, run the reconciler one API call at a time and put
    the request back when it asks for that.  A key is worked on by one worker at a
    time; a request that arrives meanwhile waits in the queue.  The calls of the
    workers and of other clients (users, the command line, the kubelet) interleave
    in any order, any write may fail, a write reaches the cache and the watches at
    any later time, and the operator may be restarted at any moment.

    The invariant: the ConfigMap of every live node holds the configuration that
    the cluster calls for and the status reports it, unless the node is queued, a
    queued policy selects it, a pass that will see to it is under way, an event
    that will enqueue it is on its way, or since its last pass began a change
    happened that no watch reports ([unwatched]) or a policy's trigger wrote the
    stamp that the node already carried ([lost_trigger]).  When nothing is queued,
    under way or on its way, the first and the last part are all that is left. *)

From S2P Require Import Prelude GoStrings Json Api Engine K8s CredManager NodeController NodeProps HandlerProps Snapshot Cluster Controllers Watches Strip ReadSet ConfigOf ReadsApart WatchComplete Passes.

#[local] Opaque configOf callsFor.

Section operator.
Context `{WatchLib, NotFoundErrors, GoStd, LabelSelectors, MapRange, ConditionLib, TLSCerts} `{!ApiServer}.
Context (r : SingBoxNodeReconciler).

(** ** The manager *)
Record op_state := {
  op_api : api_state;
  op_queue : gset (controller * NamespacedName);
  (** the passes under way, and what is left of them *)
  op_busy : gmap (controller * NamespacedName) (prog (Result * option error));
  (** the nodes that an unwatched change or a lost trigger affected since their last pass began *)
  op_stale : gset NamespacedName;
}.

Definition op_objects (st : op_state) : cluster := objects (op_api st).

(** An event reaches the watches of every controller, whose mappers read a snapshot. *)
Definition notify (snap : snapshot) (ch : change) : gset (controller * NamespacedName) :=
  list_to_set (ctl ← [SingBoxNodeController; UserController; UserGroupController; EgressPolicyController; ExternalOutboundController];
               pair ctl <$> requests snap ch ctl).

Definition unnoticed (c : cluster) (ch : change) : gset NamespacedName :=
  list_to_set (keyOf <$> filter (λ n : SingBoxNode, unwatched c ch n = true) (map_to_list (c KSingBoxNode)).*2).

Definition with_api (s : api_state) (st : op_state) : op_state :=
  {| op_api := s; op_queue := op_queue st; op_busy := op_busy st; op_stale := op_stale st |}.

(** A delivered event. *)
Definition observe (snap : snapshot) (ch : change) (s : api_state) (st : op_state) : op_state :=
  {| op_api := s; op_busy := op_busy st; op_queue := op_queue st ∪ notify snap ch; op_stale := op_stale st ∪ unnoticed (objects s) ch |}.

(** A call. *)
Definition op_server : server :=
  {| srv_state := op_state;
     srv_step st c := let '(a, s) := api_step (op_api st) c in (a, with_api s st) |}.

Definition reconcile (ctl : controller) (key : NamespacedName) : prog (Result * option error) :=
  match ctl with
  | SingBoxNodeController => NodeController.Reconcile r key
  | UserController => UserReconciler.Reconcile key
  | UserGroupController => UserGroupReconciler.Reconcile key
  | EgressPolicyController => EgressPolicyReconciler.Reconcile key
  | ExternalOutboundController => ExternalOutboundReconciler.Reconcile key
  end.

(** Taking a request; a pass over a node starts with what the cluster holds now. *)
Definition take_request (ctl : controller) (key : NamespacedName) (st : op_state) : op_state :=
  {| op_api := op_api st; op_queue := op_queue st ∖ {[(ctl, key)]}; op_busy := <[(ctl, key) := reconcile ctl key]> (op_busy st);
     op_stale := if ctl ==? SingBoxNodeController then op_stale st ∖ {[key]} else op_stale st |}.

(** A pass makes its next call; [f] is the rest of it. *)
Definition resume (ctl : controller) (key : NamespacedName) (c : call) (f : answer c → prog (Result * option error)) (st : op_state) : op_state :=
  let '(a, s) := api_step (op_api st) c in
  {| op_api := s; op_queue := op_queue st; op_busy := <[(ctl, key) := f a]> (op_busy st);
     op_stale := op_stale st ∪ lost_trigger ctl (op_api st) c |}.

Definition finish (ctl : controller) (key : NamespacedName) (res : Result * option error) (st : op_state) : op_state :=
  {| op_api := op_api st; op_queue := if again res then {[(ctl, key)]} ∪ op_queue st else op_queue st;
     op_busy := delete (ctl, key) (op_busy st); op_stale := op_stale st |}.

(** Every stored node is in the queue: a manager starts with a Create event for every stored object. *)
Definition all_queued (c : cluster) (queue : gset (controller * NamespacedName)) : Prop :=
  ∀ key n, c KSingBoxNode !! key = Some n → (SingBoxNodeController, key) ∈ queue.

(** One step.  The mappers of an event see the cache in any order; a restarted
    manager fills its cache from the server. *)
Inductive op_step : op_state → op_state → Prop :=
  | step_client c st : op_step st (srv_step op_server st c).2
  | step_deliver snap ch s st : api_deliver (op_api st) ch s → snapshot_of (objects s) snap → op_step st (observe snap ch s st)
  | step_take ctl key st :
      (ctl, key) ∈ op_queue st → op_busy st !! (ctl, key) = None → op_step st (take_request ctl key st)
  | step_call ctl key c f st : op_busy st !! (ctl, key) = Some (Call c f) → op_step st (resume ctl key c f st)
  | step_done ctl key res st : op_busy st !! (ctl, key) = Some (Ret res) → op_step st (finish ctl key res st)
  | step_tick st s : objects s = op_objects st → events s = events (op_api st) → op_step st (with_api s st)
  | step_restart st s queue :
      server_objects s = server_objects (op_api st) → events s = [] → all_queued (objects s) queue →
      op_step st {| op_api := s; op_queue := queue; op_busy := ∅; op_stale := ∅ |}.

Definition started (st : op_state) : Prop := all_queued (op_objects st) (op_queue st).

(** Every event has arrived, and no request for a node or a policy is pending or under way. *)
Definition idle (st : op_state) : Prop :=
  events (op_api st) = [] ∧
  ∀ ctl key, ctl = SingBoxNodeController ∨ ctl = EgressPolicyController → ((ctl, key) ∉ op_queue st) ∧ op_busy st !! (ctl, key) = None.

(** Nothing at all is pending: no event, and no request of any of the five controllers. *)
Definition at_rest (st : op_state) : Prop := events (op_api st) = [] ∧ op_queue st = ∅ ∧ op_busy st = ∅.

Lemma at_rest_idle st : at_rest st → idle st.
Proof. intros (Hev & Hq & Hb). split; [done|]. intros ctl key _. rewrite Hq, Hb. split; [set_solver|apply lookup_empty]. Qed.

(** ** The invariant *)
Definition queued (st : op_state) (node : SingBoxNode) : Prop := (SingBoxNodeController, keyOf node) ∈ op_queue st.

Definition covered_by (st : op_state) (node : SingBoxNode) : Prop :=
  covered (op_objects st) (λ key, (EgressPolicyController, key) ∈ op_queue st) node.

(** Why the node may not be deployed: the queue or the stale set has it. *)
Definition noticed (st : op_state) (node : SingBoxNode) : Prop :=
  queued st node ∨ covered_by st node ∨ keyOf node ∈ op_stale st.

(** A pass over the node, or over a policy that selects it, is under way and will see to it. *)
Definition attended (st : op_state) (node : SingBoxNode) : Prop :=
  (∃ q, op_busy st !! (SingBoxNodeController, keyOf node) = Some q ∧
     wpi SingBoxNodeController node q (settled r node) (op_api st)) ∨
  (∃ p q, p ∈ policiesOf (op_objects st) node ∧ selects node p = true ∧ op_busy st !! (EgressPolicyController, keyOf p) = Some q ∧
     wpi EgressPolicyController node q (λ res s, again res = true ∨ due node s) (op_api st)).

Definition looked_after (st : op_state) (node : SingBoxNode) : Prop :=
  noticed st node ∨ due node (op_api st) ∨ attended st node ∨ deployed r (op_objects st) node.

Definition op_inv (st : op_state) : Prop :=
  ∀ node, stored node (op_api st) → om_DeletionTimestamp (node_meta node) = None → looked_after st node.

(** ** One event *)
Lemma elem_of_notify snap ch ctl key : (ctl, key) ∈ notify snap ch ↔ key ∈ requests snap ch ctl.
Proof.
  unfold notify. rewrite elem_of_list_to_set, list_elem_of_bind. split.
  - intros (ctl' & Hin & _). apply list_elem_of_fmap in Hin as (key' & [= -> ->] & ?). done.
  - intros Hin. exists ctl. split; [by apply list_elem_of_fmap_2|]. destruct ctl; set_solver.
Qed.

Lemma elem_of_unnoticed c ch node : c KSingBoxNode !! keyOf node = Some node → unwatched c ch node = true → keyOf node ∈ unnoticed c ch.
Proof.
  intros Hnode Hun. apply elem_of_list_to_set, list_elem_of_fmap. exists node. split; [done|]. apply list_elem_of_filter.
  split; [done|]. apply elem_of_values. eauto.
Qed.

Lemma srv_step_eq st c : srv_step op_server st c = ((api_step (op_api st) c).1, with_api (api_step (op_api st) c).2 st).
Proof. simpl. by destruct (api_step (op_api st) c) as [a s]. Qed.

(** A delivered event leaves the node alone, or the manager takes notice. *)
Lemma deliver_cases st snap ch s node :
  api_deliver (op_api st) ch s → snapshot_of (objects s) snap → stored node s →
  noticed (observe snap ch s st) node ∨ stored node (op_api st) ∧ qstep node (op_api st) s.
Proof.
  intros (Hg & Hobj & Hev)%api_delivered Hsnap Hst. unfold noticed, queued, covered_by, op_objects. cbn [observe op_queue op_stale op_api].
  destruct (decide (keyOf node ∈ requests snap ch SingBoxNodeController)) as [Hreq|Hreq].
  { left. left. apply elem_of_union_r. by apply elem_of_notify. }
  destruct (decide (Exists (λ p, selects node p = true ∧ keyOf p ∈ requests snap ch EgressPolicyController) (policiesOf (objects s) node))) as [Hcov|Hcov].
  { apply Exists_exists in Hcov as (p & Hp & Hsel & Hr). left. right. left. exists p. split_and!; [done..|].
    apply elem_of_union_r. by apply elem_of_notify. }
  destruct (unwatched (objects s) ch node) eqn:Hun; [left; right; right; apply elem_of_union_r; by apply elem_of_unnoticed|].
  right. split.
  - unfold stored in *. rewrite <- Hst, Hobj. apply (untouched _ ch KSingBoxNode). intros Hkind Hkey. apply Hreq. rewrite Hkey.
    by apply (requested_for _ _ _ KSingBoxNode); [left|].
  - right. exists ch, snap. split_and!; [done..|]. split; [done|done| |done]. intros (p & Hp & Hsel & Hr). apply Hcov, Exists_exists. eauto.
Qed.

(** A call leaves every cached object alone. *)
Lemma call_qstep st c node : qstep node (op_api st) (api_step (op_api st) c).2.
Proof. left. split; [apply api_cache|apply api_events]. Qed.

Lemma call_stored s c node : stored node (api_step s c).2 → stored node s.
Proof. unfold stored. by rewrite api_cache. Qed.

(** ** Steps that keep the reasons *)

(** A larger queue, a larger stale set and a quiet step keep what the manager knows. *)
Lemma noticed_mono st st' node :
  stored node (op_api st) → qstep node (op_api st) (op_api st') → op_queue st ⊆ op_queue st' → op_stale st ⊆ op_stale st' →
  noticed st node → noticed st' node.
Proof.
  intros Hst Hq Hqueue Hstale [Hn|[(p & Hp & Hsel & Hr)|Hs]]; [left; by apply Hqueue| |right; right; by apply Hstale].
  right. left. exists p. split_and!; [by apply (policy_kept node p Hsel (op_api st))|done|by apply Hqueue].
Qed.

(** The same for a pass under way that the step does not touch. *)
Lemma attended_mono st st' node :
  stored node (op_api st) → qstep node (op_api st) (op_api st') → (∀ k q, op_busy st !! k = Some q → op_busy st' !! k = Some q) →
  attended st node → attended st' node.
Proof.
  intros Hst Hq Hbusy [(q & Hb & Hw)|(p & q & Hp & Hsel & Hb & Hw)].
  - left. exists q. split; [by apply Hbusy|]. eapply wpi_quiet; [exact Hw|by apply rtc_once].
  - right. exists p, q. split_and!; [by apply (policy_kept node p Hsel (op_api st))|done|by apply Hbusy|].
    eapply wpi_quiet; [exact Hw|by apply rtc_once].
Qed.

Lemma looked_after_mono st st' node :
  stored node (op_api st) → qstep node (op_api st) (op_api st') → op_queue st ⊆ op_queue st' → op_stale st ⊆ op_stale st' →
  (∀ k q, op_busy st !! k = Some q → op_busy st' !! k = Some q) → looked_after st node → looked_after st' node.
Proof.
  intros Hst Hq Hqueue Hstale Hbusy [Hn|[Hdue|[Ha|Hd]]].
  - left. by eapply noticed_mono.
  - right. left. exact (due_kept node _ _ Hst Hdue Hq).
  - right. right. left. by eapply attended_mono.
  - right. right. right. exact (deployed_kept r node _ _ Hst Hd Hq).
Qed.

(** ** Every step preserves the invariant *)
Lemma client_inv st c : op_inv st → op_inv (srv_step op_server st c).2.
Proof.
  rewrite srv_step_eq. cbn [snd]. intros Hinv node Hst Hlive. apply call_stored in Hst.
  eapply (looked_after_mono st (with_api _ st)); [done|apply call_qstep|done..|by apply Hinv].
Qed.

Lemma deliver_inv st snap ch s : api_deliver (op_api st) ch s → snapshot_of (objects s) snap → op_inv st → op_inv (observe snap ch s st).
Proof.
  intros Hdel Hsnap Hinv node Hst Hlive. destruct (deliver_cases st snap ch s node Hdel Hsnap Hst) as [Hn|[Hbefore Hq]]; [by left|].
  eapply (looked_after_mono st (observe snap ch s st)); [done|done|simpl; set_solver..|done|by apply Hinv].
Qed.

(** The worker of a pass under way makes its next call. *)
Lemma call_inv st ctl key c f :
  op_busy st !! (ctl, key) = Some (Call c f) → op_inv st → op_inv (resume ctl key c f st).
Proof.
  intros Hb Hinv node. pose proof (call_qstep st c node) as Hq. pose proof (call_stored (op_api st) c node) as Hback.
  set (st' := resume ctl key c f st). assert (op_api st' = (api_step (op_api st) c).2 ∧ op_queue st' = op_queue st ∧
    op_stale st' = op_stale st ∪ lost_trigger ctl (op_api st) c ∧ op_busy st' = <[(ctl, key) := f (api_step (op_api st) c).1]> (op_busy st)) as (Hapi & Hqueue & Hstale & Hbusy).
  { unfold st', resume. by destruct (api_step (op_api st) c). }
  rewrite <- Hapi in Hq, Hback. intros Hst Hlive. apply Hback in Hst. clear Hback. specialize (Hinv node Hst Hlive).
  destruct (decide (keyOf node ∈ lost_trigger ctl (op_api st) c)) as [Hlost|Hkept].
  { left. right. right. rewrite Hstale. by apply elem_of_union_r. }
  assert (∀ ctl' key' q Q, op_busy st !! (ctl', key') = Some q → wpi ctl' node q Q (op_api st) →
    ∃ q', op_busy st' !! (ctl', key') = Some q' ∧ wpi ctl' node q' Q (op_api st')) as Hnext.
  { intros ctl' key' q Q Hb' Hw. rewrite Hbusy. destruct (decide ((ctl, key) = (ctl', key'))) as [[= <- <-]|Hne].
    - eexists. rewrite lookup_insert_eq. split; [reflexivity|]. rewrite Hb in Hb'. injection Hb' as <-. rewrite Hapi. by apply (Hw (op_api st)).
    - exists q. rewrite lookup_insert_ne by done. split; [done|]. eapply wpi_quiet; [exact Hw|by apply rtc_once]. }
  destruct Hinv as [Hn|[Hdue|[[(q & Hb' & Hw)|(p & q & Hp & Hsel & Hb' & Hw)]|Hd]]].
  - left. eapply (noticed_mono st st'); [done|done|by rewrite Hqueue|rewrite Hstale; apply union_subseteq_l|done].
  - right. left. exact (due_kept node _ _ Hst Hdue Hq).
  - right. right. left. left. by apply (Hnext _ _ q).
  - right. right. left. right. destruct (Hnext _ _ q _ Hb' Hw) as (q' & ? & ?). exists p, q'.
    split_and!; [by apply (policy_kept node p Hsel (op_api st))|done..].
  - right. right. right. exact (deployed_kept r node _ _ Hst Hd Hq).
Qed.

Lemma qstep_refl node s : qstep node s s.
Proof. left. split; [done|]. exists []. by rewrite app_nil_r. Qed.
#[local] Hint Resolve qstep_refl : core.

(** A worker takes a request: a pass begins, which will see to the node, or to the nodes of the policy. *)
Lemma take_inv st ctl key :
  op_busy st !! (ctl, key) = None → op_inv st → op_inv (take_request ctl key st).
Proof.
  intros Hfree Hinv node Hst Hlive. specialize (Hinv node Hst Hlive).
  assert (∀ k q, op_busy st !! k = Some q → op_busy (take_request ctl key st) !! k = Some q) as Hbusy.
  { intros k q Hk. cbn [take_request op_busy]. rewrite lookup_insert_ne; [done|]. intros <-. by rewrite Hfree in Hk. }
  destruct (decide ((ctl, key) = (SingBoxNodeController, keyOf node))) as [[= -> ->]|Hnode].
  { right. right. left. left. eexists. split; [apply lookup_insert_eq|]. by apply node_pass. }
  destruct Hinv as [[Hq|[(p & Hp & Hsel & Hq)|Hs]]|[Hdue|[Ha|Hd]]].
  - left. left. unfold queued in *. cbn [take_request op_queue]. set_solver.
  - destruct (decide ((ctl, key) = (EgressPolicyController, keyOf p))) as [[= -> ->]|Hpol].
    + right. right. left. right. eexists p, _. split_and!; [done|done|apply lookup_insert_eq|]. by apply policy_pass.
    + left. right. left. exists p. split_and!; [done..|]. cbn [take_request op_queue]. set_solver.
  - left. right. right. cbn [take_request op_stale]. case_bool_decide; [|done]. apply elem_of_difference. split; [done|].
    intros Heq%elem_of_singleton. apply Hnode. congruence.
  - by right; left.
  - right. right. left. by eapply (attended_mono st (take_request ctl key st)).
  - by right; right; right.
Qed.

(** A pass ends: it asks to be repeated, or it has done its work. *)
Lemma done_inv st ctl key res :
  op_busy st !! (ctl, key) = Some (Ret res) → op_inv st → op_inv (finish ctl key res st).
Proof.
  intros Hb Hinv node Hst Hlive. specialize (Hinv node Hst Hlive).
  assert (op_queue st ⊆ op_queue (finish ctl key res st)) as Hqueue by (cbn [finish op_queue]; destruct (again res); set_solver).
  assert (again res = true → (ctl, key) ∈ op_queue (finish ctl key res st)) as Hagain by (intros Ha; cbn [finish op_queue]; rewrite Ha; set_solver).
  destruct Hinv as [Hn|[Hdue|[[(q & Hb' & Hw)|(p & q & Hp & Hsel & Hb' & Hw)]|Hd]]].
  - left. by eapply (noticed_mono st (finish ctl key res st)).
  - by right; left.
  - destruct (decide ((ctl, key) = (SingBoxNodeController, keyOf node))) as [[= -> ->]|Hne].
    + rewrite Hb in Hb'. injection Hb' as <-. destruct (Hw (op_api st)) as [Ha|[Hdue|Hd]]; [done|left; left; by apply Hagain|by right; left|by right; right; right].
    + right. right. left. left. exists q. split; [|done]. cbn [finish op_busy]. by rewrite lookup_delete_ne.
  - destruct (decide ((ctl, key) = (EgressPolicyController, keyOf p))) as [[= -> ->]|Hne].
    + rewrite Hb in Hb'. injection Hb' as <-. destruct (Hw (op_api st)) as [Ha|Hdue]; [done| |by right; left].
      left. right. left. exists p. split_and!; [done..|]. by apply Hagain.
    + right. right. left. right. exists p, q. split_and!; [done..| |done]. cbn [finish op_busy]. by rewrite lookup_delete_ne.
  - by right; right; right.
Qed.

Lemma op_step_inv st st' : op_step st st' → op_inv st → op_inv st'.
Proof.
  intros Hstep Hinv. destruct Hstep as [c st|snap ch s st Hdel Hsnap|ctl key st _ Hfree|ctl key c f st Hb|ctl key res st Hb|st s Hobj Hev|st s queue _ _ Hall].
  - by apply client_inv.
  - by apply deliver_inv.
  - by apply take_inv.
  - by apply call_inv.
  - by apply done_inv.
  - intros node Hst Hlive. assert (stored node (op_api st)) as Hbefore by (unfold stored in *; cbn [with_api op_api] in Hst; by rewrite Hobj in Hst).
    eapply (looked_after_mono st (with_api s st)); [done| |done..|by apply Hinv]. left. split; [done|]. exists []. by rewrite app_nil_r.
  - intros node Hst _. left. left. by apply (Hall (keyOf node) node).
Qed.

Lemma op_reachable_inv st0 st : started st0 → rtc op_step st0 st → op_inv st.
Proof.
  intros Hst Hsteps. assert (op_inv st0) as Hinv by (intros node Hnode _; left; left; by apply (Hst (keyOf node) node)). clear Hst.
  induction Hsteps as [|x y z Hxy _ IH]; [done|]. apply IH. by eapply op_step_inv.
Qed.

Lemma idle_deployed st0 st node :
  started st0 → rtc op_step st0 st → idle st →
  op_objects st KSingBoxNode !! keyOf node = Some node → om_DeletionTimestamp (node_meta node) = None →
  keyOf node ∉ op_stale st → deployed r (op_objects st) node.
Proof.
  intros Hst Hsteps [Hev Hidle] Hnode Hlive Hfresh.
  destruct (op_reachable_inv st0 st Hst Hsteps node Hnode Hlive)
    as [[Hq|[(p & _ & _ & Hq)|Ht]]|[(ch & Hch & _)|[[(q & Hb & _)|(p & q & _ & _ & Hb & _)]|Hd]]]; [..|done].
  - by destruct (Hidle SingBoxNodeController (keyOf node)) as [Hno _]; [left|].
  - by destruct (Hidle EgressPolicyController (keyOf p)) as [Hno _]; [right|].
  - done.
  - rewrite Hev in Hch. by apply elem_of_nil in Hch.
  - destruct (Hidle SingBoxNodeController (keyOf node)) as [_ Hno]; [by left|]. by rewrite Hno in Hb.
  - destruct (Hidle EgressPolicyController (keyOf p)) as [_ Hno]; [by right|]. by rewrite Hno in Hb.
Qed.

(** C2. The operator comes to rest in the right state.  Start the manager on any
    cluster; let the workers of the controllers, users and other clients make
    their API calls in any order, one call at a time, any write failing at any
    time, its event reaching the cache and the watches at any later time, every
    listing returning its objects in any order, and the operator being restarted
    at any time.  Whenever every event has arrived and no request for a node or a
    policy is pending or under way, every stored node that is not being deleted and
    is not marked stale has a ConfigMap that it owns and that holds a configuration
    which the stored objects call for: Compute of what collectInput reads, for some
    order of the policies; and the node's status reports Running, the hash of that
    very configuration and the endpoints of its spec.  A node is marked stale when,
    since its last pass began, a change happened that no watch reports (a relay or
    user Secret, a node that takes or frees an external outbound's name) or a
    policy's trigger wrote the stamp that the node already carried. *)
Theorem operator_quiescent st0 st node :
  started st0 → rtc op_step st0 st → idle st →
  server_objects (op_api st) KSingBoxNode !! keyOf node = Some node → om_DeletionTimestamp (node_meta node) = None →
  keyOf node ∉ op_stale st → deployed r (server_objects (op_api st)) node.
Proof.
  intros Hst Hsteps Hidle. rewrite (api_synced (op_api st)) by apply Hidle. by apply (idle_deployed st0).
Qed.
End operator.
