(* ===== verification/Missed.v ===== *)
(** * Missed: changes that the operator does not act on

    Two general statements about the ways in which a node's configuration can
    stay out of date although nothing is pending: a Secret that no external
    outbound refers to is not watched, and a trigger in the second of the last one
    writes the node back as it was. *)

From S2P Require Import Prelude GoStrings Json Api Engine K8s CredManager NodeController NodeProps HandlerProps Snapshot Cluster Controllers Watches Strip ReadSet ConfigOf ReadsApart WatchComplete Passes Operator.

#[local] Opaque configOf callsFor.

Section rotation.
Context `{WatchLib, NotFoundErrors, GoStd, LabelSelectors, MapRange, ConditionLib, TLSCerts} `{!ApiServer}.
Context (r : SingBoxNodeReconciler).

(** No external outbound of the Secret's namespace takes its credentials from it. *)
Definition unreferenced (c : cluster) (secret : Secret) : Prop :=
  ∀ e : ExternalOutbound, c KExternalOutbound !! keyOf e = Some e → GetNamespace e = GetNamespace secret →
    es_CredentialsSecretRef (eob_spec e) ≠ Some (GetName secret).

(** What the two Secret mappers find. *)
Lemma secret_listed c snap (secret : Secret) :
  keyed c → snapshot_of c snap → unreferenced c secret →
  ∃ l, snap (List KExternalOutbound (InNamespace (GetNamespace secret))) = inr l ∧
    Forall (λ e : ExternalOutbound, es_CredentialsSecretRef (eob_spec e) ≠ Some (GetName secret)) l.
Proof.
  intros Hk Hs Hun. destruct (namespace_listed c snap Hk Hs KExternalOutbound (GetNamespace secret)) as (l & Hl & _ & Hin).
  exists l. split; [done|]. apply Forall_forall. intros e [Hns He]%Hin. by apply (Hun e).
Qed.

Lemma unreferenced_node c snap (secret : Secret) :
  keyed c → snapshot_of c snap → unreferenced c secret → snap_run snap (externalCredentialSecretMapper (existT KSecret secret)) = [].
Proof.
  intros Hk Hs Hun. destruct (secret_listed c snap secret Hk Hs Hun) as (l & Hl & Hall).
  unfold externalCredentialSecretMapper, listOrNil, mbind, prog_mbind, do. cbn [prog_bind snap_run]. rewrite Hl. cbn [prog_bind snap_run].
  rewrite snap_run_bind, snap_run_foldM. cbn [snap_run]. clear Hl. induction Hall as [|e l He _ IH]; [done|]. cbn [foldl].
  by rewrite bool_decide_true.
Qed.

Lemma unreferenced_ext c snap (secret : Secret) :
  keyed c → snapshot_of c snap → unreferenced c secret →
  snap_run snap (ExternalOutboundReconciler.credentialsSecretMapper (existT KSecret secret)) = [].
Proof.
  intros Hk Hs Hun. destruct (secret_listed c snap secret Hk Hs Hun) as (l & Hl & Hall).
  cbn. rewrite Hl. cbn. clear Hl. induction Hall as [|e l He _ IH]; [done|]. by rewrite filter_cons_False.
Qed.

(** The watches of Secrets. *)
Lemma secret_watches ctl w :
  w ∈ SetupWithManager ctl → w_kind w = KSecret →
  ∃ f, w_handler w = MapFunc f ∧ (f = externalCredentialSecretMapper ∨ f = ExternalOutboundReconciler.credentialsSecretMapper).
Proof.
  intros Hw Hkind. destruct ctl; cbn [SetupWithManager] in Hw;
    repeat (apply elem_of_cons in Hw as [->|Hw]; [first [discriminate Hkind|eexists; split; [reflexivity|auto]]|]); by apply elem_of_nil in Hw.
Qed.

(** Its events enqueue nothing, for any controller. *)
Lemma unreferenced_requests c snap old new ctl :
  keyed c → snapshot_of c snap → obj_key KSecret old = obj_key KSecret new → unreferenced c new →
  requests snap (Updated KSecret old new) ctl = [].
Proof.
  intros Hk Hs Hkey Hun. assert (unreferenced c old) as Hun'.
  { intros e He Hns. injection Hkey as Hns' Hname. assert (GetName (old : Secret) = GetName (new : Secret)) as -> by exact Hname.
    apply Hun; [done|]. etrans; [exact Hns|exact Hns']. }
  apply elem_of_nil_inv. intros key (w & Hw & Hin)%elem_of_requests. revert Hin. unfold watch_requests. cbn [ch_kind].
  case_bool_decide as Hkind; cbn [andb]; [|by intros ?%elem_of_nil]. destruct (secret_watches ctl w Hw Hkind) as (f & -> & Hf).
  case_match; [|by intros ?%elem_of_nil]. intros (o & Ho & Hobj)%list_elem_of_bind. cbn [ch_objs] in Hobj.
  assert (∀ s : Secret, unreferenced c s → snap_run snap (f (existT KSecret s)) = []) as Hnone.
  { intros s Hu. destruct Hf as [->| ->]; [by apply (unreferenced_node c)|by apply (unreferenced_ext c)]. }
  rewrite !elem_of_cons, elem_of_nil in Hobj. destruct Hobj as [->|[->|[]]]; rewrite Hnone in Ho by done; by apply elem_of_nil in Ho.
Qed.

Lemma unreferenced_notify c snap old new :
  keyed c → snapshot_of c snap → obj_key KSecret old = obj_key KSecret new → unreferenced c new → notify snap (Updated KSecret old new) = ∅.
Proof.
  intros. apply elem_of_equiv_empty_L. intros [ctl key] Hin%elem_of_notify. rewrite (unreferenced_requests c) in Hin by done. by apply elem_of_nil in Hin.
Qed.

(** C37. Credential rotation goes unnoticed.  Take any state of the operator in
    which nothing at all is pending (no event, no request of any of the five
    controllers), and a Secret that no external outbound of its namespace refers
    to, such as a user's UUID or the relay credential of a node.  Let a client
    replace it, and the event, the only one, arrive: the operator is at rest
    again, nothing but the Secret has changed, and every node whose ConfigMap held
    a configuration that the changed cluster no longer calls for is left without
    the right one: neither Secret is watched. *)
Theorem secret_rotation_missed st (sent old new : Secret) s1 s2 snap :
  at_rest st → obj_key KSecret old = obj_key KSecret new → unreferenced (op_objects st) new →
  api_step (op_api st) (Update KSecret sent) = (None, s1) → events s1 = [Updated KSecret old new] →
  api_deliver s1 (Updated KSecret old new) s2 → snapshot_of (objects s2) snap →
  let st' := observe snap (Updated KSecret old new) s2 (with_api s1 st) in
  rtc (op_step r) st st' ∧ at_rest st' ∧ op_objects st' KSecret !! keyOf new = Some new ∧
  (∀ k, k ≠ KSecret → op_objects st' k = op_objects st k) ∧
  ∀ node out, deployedConfig (op_objects st) node out → (∀ out', callsFor r (op_objects st') node out' → Config out' ≠ Config out) →
    ¬ deployed r (op_objects st') node.
Proof.
  intros (Hev & Hq & Hb) Hkey Hun Hstep Hev1 Hdel Hsnap st'. pose proof (api_delivered _ _ _ Hdel) as (Hg & Hobj & Hev2).
  pose proof (api_cache (op_api st) (Update KSecret sent)) as Hcache. rewrite Hstep in Hcache. cbn [snd] in Hcache.
  assert (∀ k, k ≠ KSecret → objects s2 k = op_objects st k) as Hsame.
  { intros k Hne. rewrite Hobj, apply_change_kind by done. by rewrite Hcache. }
  assert (unreferenced (objects s2) new) as Hun2 by (intros e; rewrite Hsame by done; apply Hun).
  assert (notify snap (Updated KSecret old new) = ∅) as Hno by (by apply (unreferenced_notify (objects s2)); [apply api_keyed|..]).
  split_and!.
  - eapply rtc_l; [exact (step_client r (Update KSecret sent) st)|]. rewrite srv_step_eq, Hstep. cbn [snd].
    apply rtc_once. by apply step_deliver.
  - split_and!; [|unfold st'; cbn [observe op_queue with_api]; rewrite Hq, Hno; set_solver|exact Hb].
    rewrite Hev1 in Hev2. by apply Permutation_cons_inv, Permutation_nil_l in Hev2.
  - unfold op_objects, st'. cbn [observe op_api]. rewrite Hobj. cbn [apply_change]. rewrite set_kind_same. apply lookup_insert_eq.
  - exact Hsame.
  - intros node out (cm & Hcm & _ & Hdata) Hdiff (out' & Hcall & (cm' & Hcm' & _ & Hdata') & _). apply (Hdiff out' Hcall).
    assert (op_objects st' KConfigMap = op_objects st KConfigMap) as Heq by (by apply Hsame). rewrite Heq, Hcm in Hcm'. injection Hcm' as <-.
    rewrite Hdata in Hdata'. apply (f_equal (lookup "config.json")) in Hdata'. rewrite !lookup_singleton_eq in Hdata'. by injection Hdata'.
Qed.
End rotation.

(** ** Triggers within one second *)
Section trigger.
Context `{GoStd, LabelSelectors, ConditionLib}.

(** The clock shows [t], and a node that is read carries [t] as its trigger stamp. *)
Definition same_second (t : string) (e : event) : Prop :=
  (∀ n : SingBoxNode, ev_got KSingBoxNode e = Some n → om_Annotations (node_meta n) !! reconcileTriggerAnnotation = Some t) ∧
  match ev_call e as c return answer c → Prop with NowText _ => λ now, now = t | _ => λ _, True end (ev_answer e).

(** A write that changes no node: it writes back an object that was read, or a policy's status. *)
Definition writes_back (tr : list event) (e : event) : Prop :=
  writes e = true →
  (∃ (n : SingBoxNode) key a, e = Ev (Update KSingBoxNode n) a ∧ Ev (Get KSingBoxNode key) (inr n) ∈ tr) ∨
  (∃ (p : EgressPolicy) a, e = Ev (StatusUpdate KEgressPolicy p) a).

Definition unchanged (tr : list event) : Prop := Forall (writes_back tr) tr.

Lemma unchanged_snoc tr e : unchanged tr → writes_back (tr ++ [e]) e → unchanged (tr ++ [e]).
Proof.
  intros Htr He. apply Forall_app. split; [|by constructor]. eapply Forall_impl; [exact Htr|]. intros e' He' Hw.
  destruct (He' Hw) as [(n & key & a & -> & Hin)|?]; [left|by right]. exists n, key, a. split; [done|]. set_solver.
Qed.

Lemma unchanged_read tr e : unchanged tr → writes e = false → unchanged (tr ++ [e]).
Proof. intros Htr He. apply unchanged_snoc; [done|]. intros Hw. by rewrite He in Hw. Qed.

Lemma stamp_again t (n : SingBoxNode) :
  om_Annotations (node_meta n) !! reconcileTriggerAnnotation = Some t →
  with_node_meta (with_annotation reconcileTriggerAnnotation t (node_meta n)) n = n.
Proof.
  intros Ht. destruct n as [m sp st]. unfold with_node_meta, with_annotation. simpl in *. f_equal. destruct m. simpl in *. f_equal. by apply insert_id.
Qed.

Lemma trigger_unchanged t key tr :
  unchanged tr → wp (same_second t) (triggerNodeReconcile key) tr (λ tr _, unchanged tr).
Proof.
  intros Htr. unfold triggerNodeReconcile, mbind, prog_mbind. apply wp_call. intros [err|n] Hok.
  { by apply unchanged_read. }
  apply wp_call. intros now [_ Hnow]. cbn in Hnow. subst now.
  assert (om_Annotations (node_meta n) !! reconcileTriggerAnnotation = Some t) as Ht.
  { apply (proj1 Hok). exact (cast_obj_same KSingBoxNode n). }
  rewrite (stamp_again t n Ht). intros a _. apply unchanged_snoc; [by apply unchanged_read; [apply unchanged_read|]|].
  intros _. left. exists n, key, a. split; [done|]. set_solver.
Qed.

Lemma triggers_unchanged t ns l tr :
  unchanged tr →
  wp (same_second t) (foldE (λ _ name, e ← triggerNodeReconcile {| nn_Namespace := ns; nn_Name := name |}; Ret (or_error tt e)) tt l) tr (λ tr _, unchanged tr).
Proof.
  revert tr. induction l as [|name l IH]; intros tr Htr; [done|]. cbn [foldE]. apply wp_bind, wp_bind.
  eapply wp_mono; [|by apply trigger_unchanged]. intros tr' [e|] Htr'; cbn [wp or_error prog_bind]; [done|by apply IH].
Qed.

Lemma wp_withMetrics_unchanged t name body tr :
  wp (same_second t) body tr (λ tr out, unchanged tr ∧ (out.2.2 = None → again out.2 = false)) →
  wp (same_second t) (withMetrics name body) tr (λ tr res, unchanged tr ∧ (res.2 = None → again res = false)).
Proof.
  intros Hb. unfold withMetrics, mbind, prog_mbind. apply wp_bind. eapply wp_mono; [|exact Hb]. intros tr1 [e res] [Htr1 Hres].
  apply wp_bind. assert (wp (same_second t) (if e is Some _ then do (MetricInc "singbox_reconcile_errors_total" [name; "reconcile_error"]) else Ret tt) tr1
    (λ tr _, unchanged tr)) as Hm by (destruct e; [intros a _; by apply unchanged_read|done]).
  eapply wp_mono; [|exact Hm]. intros tr2 a2 Htr2. apply wp_call. intros a _. cbn [wp]. split; [by apply unchanged_read|done].
Qed.

(** C38. A trigger can be lost.  triggerNodeReconcile stamps a node with the time
    in whole seconds.  A pass of the policy controller that runs, against any API
    server, in the second in which the nodes it triggers were last stamped writes
    every one of these nodes back exactly as it read it, makes no other write than
    the policy's status, and does not ask to be repeated unless it fails: an API
    server for which an update without a change is no event then enqueues no node,
    although the policy may have changed since their last pass. *)
Theorem same_second_trigger_lost sv s key t :
  Forall (same_second t) (trace sv s (EgressPolicyReconciler.Reconcile key)) →
  Forall (writes_back (trace sv s (EgressPolicyReconciler.Reconcile key))) (trace sv s (EgressPolicyReconciler.Reconcile key)) ∧
  ((result sv s (EgressPolicyReconciler.Reconcile key)).2 = None → again (result sv s (EgressPolicyReconciler.Reconcile key)) = false).
Proof.
  intros Hok. refine (wp_exec (same_second t) _ (λ tr res, unchanged tr ∧ (res.2 = None → again res = false)) sv s [] _ Hok). clear Hok.
  assert (unchanged []) as Hnil by constructor.
  apply wp_withMetrics_unchanged. unfold mbind, prog_mbind. apply wp_call. intros [err|p] _.
  { destruct (IsNotFound err); (split; [by apply unchanged_read|done]). }
  apply wp_call. intros [err|nodes] _; [split; [by repeat apply unchanged_read|done]|].
  apply wp_call. intros [err|exts] _; [split; [by repeat apply unchanged_read|done]|].
  destruct (EgressPolicyReconciler.validatePolicyResolution p _ _) as [reason message]. apply wp_bind.
  eapply (wp_mono _ _ _ (λ tr _, unchanged tr)).
  - intros tr1 [err|] Htr1; [done|]. apply wp_bind. eapply wp_mono; [|by apply triggers_unchanged]. by intros tr2 [err|[]] Htr2.
  - unfold EgressPolicyReconciler.updateStatus, mbind, prog_mbind. apply wp_call. intros [err|latest] _; [by repeat apply unchanged_read|].
    destruct (policy_status _ ==? _); [by repeat apply unchanged_read|]. intros a _. apply unchanged_snoc; [by repeat apply unchanged_read|].
    intros _. right. by eexists _, a.
Qed.
End trigger.
