(* ===== verification/Metrics.v ===== *)
(** * Metrics: what the operator counts

    internal/metrics/metrics.go declares five metrics and registers them; the
    reconcilers use them by value.  A metric vector panics when it is used with
    another number of label values than it was declared with.  The theorem: no
    reconciler ever does that, whatever the API server answers, and every pass of
    the four instrumented controllers observes exactly one duration. *)

From S2P Require Import Prelude GoStrings Json Api Engine Samples K8s CredManager NodeController NodeProps SampleCluster Controllers Watches Passes Operator.

(** ** The declared metrics *)
Inductive metricType := Counter | Gauge | Histogram.

Record metricDesc := { md_Name : string; md_Type : metricType; md_Labels : list string }.

Definition ProxyNodesTotal : metricDesc :=
  {| md_Name := "singbox_proxy_nodes_total"; md_Type := Gauge; md_Labels := ["region"; "role"; "phase"] |}.
Definition ProxyUsersTotal : metricDesc := {| md_Name := "singbox_proxy_users_total"; md_Type := Gauge; md_Labels := [] |}.
Definition ReconcileDurationSeconds : metricDesc :=
  {| md_Name := "singbox_reconcile_duration_seconds"; md_Type := Histogram; md_Labels := ["controller"; "result"] |}.
Definition ReconcileErrorsTotal : metricDesc :=
  {| md_Name := "singbox_reconcile_errors_total"; md_Type := Counter; md_Labels := ["controller"; "error_type"] |}.
Definition ConfigUpdatesTotal : metricDesc :=
  {| md_Name := "singbox_config_updates_total"; md_Type := Counter; md_Labels := ["node_region"; "trigger"] |}.

(** init: what MustRegister is called with. *)
Definition registered : list metricDesc :=
  [ProxyNodesTotal; ProxyUsersTotal; ReconcileDurationSeconds; ReconcileErrorsTotal; ConfigUpdatesTotal].

#[export] Instance metricType_eq : EqDecision metricType.
Proof. solve_decision. Defined.

(** WithLabelValues accepts the labels, and the metric has the operation. *)
Definition uses (t : metricType) (name : string) (labels : list string) : bool :=
  existsb (λ d, (md_Name d ==? name) && bool_decide (md_Type d = t) && bool_decide (length labels = length (md_Labels d))) registered.

Definition metric_ok (c : call) : bool :=
  match c with
  | MetricInc name labels => uses Counter name labels
  | MetricSet name labels _ => uses Gauge name labels
  | MetricObserveDuration name labels => uses Histogram name labels
  | _ => true
  end.

(** ** What a program may return *)
Fixpoint yields {A} (P : A → Prop) (p : prog A) : Prop :=
  match p with Ret a => P a | Call c f => ∀ a, yields P (f a) end.

Lemma yields_bind {A B} (P : B → Prop) (f : A → prog B) p : yields (λ a, yields P (f a)) p → yields P (prog_bind f p).
Proof. induction p as [a|c g IH]; simpl; [done|]. intros Hp a. by apply IH. Qed.

Lemma yields_all {A} (P : A → Prop) (p : prog A) : (∀ a, P a) → yields P p.
Proof. intros HP. by induction p; simpl. Qed.

Lemma yields_result {A} (P : A → Prop) (p : prog A) sv s : yields P p → P (result sv s p).
Proof.
  unfold result. revert s. induction p as [a|c f IH]; intros s; [done|]. intros Hp. cbn [exec].
  destruct (srv_step sv s c) as [a s1]. specialize (IH a s1 (Hp a)). by destruct (exec sv s1 (f a)) as [[tr b] s2].
Qed.

(** ** The deferred function of a pass *)

(** The metrics of a pass as a whole. *)
Definition pass_metric (c : call) : bool :=
  match c with MetricObserveDuration _ _ => true | MetricInc name _ => name ==? md_Name ReconcileErrorsTotal | _ => false end.

Definition pass_events (controller : string) (failed : bool) : list event :=
  (if failed then [Ev (MetricInc (md_Name ReconcileErrorsTotal) [controller; "reconcile_error"]) tt] else []) ++
  [Ev (MetricObserveDuration (md_Name ReconcileDurationSeconds) [controller; if failed then "error" else "success"]) tt].

(** One duration per pass, at its end; a pass that counts an error returns one. *)
Definition observed (controller : string) (p : prog (Result * option error)) : Prop := ∀ sv s, ∃ body failed,
  trace sv s p = body ++ pass_events controller failed ∧ Forall (λ e, pass_metric (ev_call e) = false) body ∧
  (failed = true → is_Some (result sv s p).2).

Lemma trace_emits {A} P (p : prog A) sv s : emits P p → Forall (λ e, P (ev_call e)) (trace sv s p).
Proof.
  intros He. destruct (wp_exec (λ _, True) p _ sv s [] (wp_emits _ P p [] He)) as (new & Hnew & Hall); [by apply Forall_true|].
  simpl in Hnew. by rewrite Hnew.
Qed.

Lemma exec_bind {A B} (f : A → prog B) p sv s :
  exec sv s (prog_bind f p) = let '(tr, a, s1) := exec sv s p in let '(tr2, b, s2) := exec sv s1 (f a) in (tr ++ tr2, b, s2).
Proof.
  revert s. induction p as [a|c g IH]; intros s; cbn [prog_bind exec]; [by destruct (exec sv s (f a)) as [[tr b] s2]|].
  destruct (srv_step sv s c) as [a s1]. rewrite IH. destruct (exec sv s1 (g a)) as [[tr b] s2]. by destruct (exec sv s2 (f b)) as [[tr2 b2] s3].
Qed.

Lemma withMetrics_observed controller body :
  emits (λ c, pass_metric c = false) body → yields (λ out, is_Some out.1 → is_Some out.2.2) body → observed controller (withMetrics controller body).
Proof.
  intros Hem Hy sv s. apply (trace_emits _ _ sv s) in Hem. apply (yields_result _ _ sv s) in Hy.
  unfold withMetrics, trace, result, mbind, prog_mbind in *. rewrite exec_bind. destruct (exec sv s body) as [[tr [e res]] s1]. cbn [fst snd] in *.
  exists tr, (if e is Some _ then true else false). destruct e as [e|]; cbn [do prog_bind exec pass_events app] in *.
  - destruct (srv_step sv s1 _) as [[] s2]. cbn. destruct (srv_step sv s2 _) as [[] s3]. cbn. split_and!; [done..|]. intros _. by apply Hy.
  - destruct (srv_step sv s1 _) as [[] s2]. cbn. by split_and!.
Qed.

Lemma yields_mono {A} (P Q : A → Prop) (p : prog A) : (∀ a, P a → Q a) → yields P p → yields Q p.
Proof. intros HPQ. induction p as [a|c f IH]; simpl; [by apply HPQ|]. intros Hp a. by apply IH. Qed.

(** setDegraded always returns an error. *)
Lemma setDegraded_fails `{ConditionLib} node reason message : yields (λ res, is_Some res.2) (setDegraded node reason message).
Proof. unfold setDegraded. intros [e|latest]; simpl; [eauto|]. intros [e|]; simpl; eauto. Qed.

(** Walks through a program; the result of a call or of a part does not matter. *)
Ltac yields_step :=
  match goal with
  | |- yields _ (setDegraded _ _ _ ≫= _) => apply yields_bind; eapply yields_mono; [|apply setDegraded_fails]; by intros ? ? _
  | |- yields _ (prog_bind _ _) => apply yields_bind, yields_all; intro
  | |- yields _ (_ ≫= _) => apply yields_bind, yields_all; intro
  | |- yields _ (let ns := _ in _) => cbv zeta
  | |- yields _ (match ?x with _ => _ end) => destruct x
  | |- yields _ (failWith _) => by intros _; eexists
  | |- yields _ (passOn _) => apply yields_bind, yields_all; by intros ? []
  | |- yields _ (Ret _) => by intros []
  end.

(** Every function that a reconciler calls. *)
Ltac unfold_reconcilers :=
  unfold reconcile, NodeController.Reconcile, reconcileLive, applyOutput, handleDeletion, passOn, updateNodeReadyStatus, ensureCredential, EnsureNodeCredential,
    generateUUID, generatePassword, reconcileConfigMap, reconcilePod, reconcileServices, deleteOrphanServices, updateStatus, resolveTLSServerName,
    UserReconciler.Reconcile, UserReconciler.findMatchingInboundNodes, UserReconciler.updateStatus, UserReconciler.writeStatus,
    UserGroupReconciler.Reconcile, EgressPolicyReconciler.Reconcile, EgressPolicyReconciler.updateStatus, ExternalOutboundReconciler.Reconcile,
    ExternalOutboundReconciler.findViolation, ExternalOutboundReconciler.setAccepted, triggerNodeReconcile, setDegraded, withMetrics,
    ExternalOutboundReconciler.nameConflict, ExternalOutboundReconciler.credentialViolation, passOn.

Section metrics.
Context `{WatchLib, NotFoundErrors, GoStd, LabelSelectors, MapRange, ConditionLib, TLSCerts}.
Context (r : SingBoxNodeReconciler).

Definition controllerName (ctl : controller) : string :=
  match ctl with
  | SingBoxNodeController => "singboxnode" | UserController => "user" | UserGroupController => "usergroup"
  | EgressPolicyController => "egresspolicy" | ExternalOutboundController => "externaloutbound"
  end.

Lemma reconcile_metrics ctl key : emits (λ c, metric_ok c = true) (reconcile r ctl key).
Proof. destruct ctl; unfold_reconcilers; emits_solve; by apply collectInput_emits. Qed.

Lemma reconcile_observed ctl key : ctl ≠ UserGroupController → observed (controllerName ctl) (reconcile r ctl key).
Proof.
  destruct ctl; intros Hctl; [..|]; try done; apply withMetrics_observed.
  all: try (unfold_reconcilers; emits_solve; by apply collectInput_emits).
  - repeat yields_step. unfold reconcileLive. repeat yields_step. unfold applyOutput. repeat yields_step.
  - repeat yields_step.
  - repeat yields_step.
  - repeat yields_step.
Qed.

(** C29. The operator's metrics are used as they are declared: the registered
    names are distinct, every metric call that any of the five reconcilers can
    make, whatever the API server answers, names a registered metric of the right
    type with as many label values as it has labels, so that WithLabelValues never
    panics; and a pass of the four instrumented controllers ends with exactly one
    observation of its duration, labelled error only if the error counter was
    incremented just before and the pass returns an error. *)
Theorem metrics_sound ctl key :
  NoDup (md_Name <$> registered) ∧ emits (λ c, metric_ok c = true) (reconcile r ctl key) ∧
  (ctl ≠ UserGroupController → observed (controllerName ctl) (reconcile r ctl key)).
Proof.
  split_and!; [apply (bool_decide_unpack _); by vm_compute|apply reconcile_metrics|apply reconcile_observed].
Qed.
End metrics.

(** ** An error that is not counted *)

(** An API server on which every status update conflicts. *)
Definition conflicting : server :=
  {| srv_state := unit;
     srv_step s c := (match c return answer c with
                      | StatusUpdate k o => Some {| IsNotFound := false; IsConflict := true; Error := "conflict" |}
                      | Get KUser _ => inr (mkUser "bob" "")
                      | c => sample_answer sample_node c
                      end, tt) |}.

(** The converse fails: a status update that fails is returned as an error, which
    the manager logs and retries, but the pass is observed as a success and the
    error counter stays where it is. *)
Lemma status_error_uncounted :
  let p := UserReconciler.Reconcile {| nn_Namespace := "proxy"; nn_Name := "bob" |} in
  is_Some (result conflicting tt p).2 ∧ ∃ body, trace conflicting tt p = body ++ pass_events "user" false.
Proof.
  cbv zeta. split; [by eexists|]. exists (take (length (trace conflicting tt (UserReconciler.Reconcile {| nn_Namespace := "proxy"; nn_Name := "bob" |})) - 1)
    (trace conflicting tt (UserReconciler.Reconcile {| nn_Namespace := "proxy"; nn_Name := "bob" |}))). vm_compute. reflexivity.
Qed.
