(* ===== verification/OperatorRuns.v ===== *)
(** * OperatorRuns: the operator on concrete clusters

    The reconcilers, the watches and the in-memory API server, executed by a
    scheduler that lets the passes of the five controllers take turns after every
    call until nothing is pending.  The runs are inputs at which the hypotheses of
    the general theorems on the operator hold. *)

From S2P Require Import Prelude GoStrings Json Api Engine Samples K8s CredManager NodeController SampleCluster NodeProps HandlerProps Snapshot Cluster Controllers Watches ReadSet ConfigOf ReadsApart WatchComplete Passes Store Operator Missed.

(** ** Library parameters *)
#[export] Program Instance sample_watches : WatchLib := {|
  GenerationChangedPredicate := {| p_Create _ := true; p_Delete _ := true;
    p_Update k old new := om_Generation (obj_meta k old) !=? om_Generation (obj_meta k new) |};
  LabelChangedPredicate := {| p_Create _ := true; p_Delete _ := true;
    p_Update k old new := om_Labels (obj_meta k old) !=? om_Labels (obj_meta k new) |};
  AnnotationChangedPredicate := {| p_Create _ := true; p_Delete _ := true;
    p_Update k old new := om_Annotations (obj_meta k old) !=? om_Annotations (obj_meta k new) |};
  zeroFuncs := {| p_Create _ := true; p_Delete _ := true; p_Update _ _ _ := true |};
  predicate_Or p q := {| p_Create o := p_Create p o || p_Create q o; p_Delete o := p_Delete p o || p_Delete q o;
                         p_Update k old new := p_Update p k old new || p_Update q k old new |};
  ownerRequests ns refs := omap (λ ref, if or_Kind ref ==? "SingBoxNode" then Some {| nn_Namespace := ns; nn_Name := or_Name ref |} else None) refs;
|}.
Next Obligation. by intros []. Qed.
Next Obligation. by intros []. Qed.
Next Obligation. by intros []. Qed.
Next Obligation. by intros []. Qed.
Next Obligation. by intros p q []. Qed.
Next Obligation.
  intros owner m m' [= <-] Hns. simpl in *. rewrite Hns. apply list_elem_of_omap.
  exists {| or_Kind := "SingBoxNode"; or_Name := om_Name (node_meta owner) |}. split; [|done].
  destruct (slices_Contains _ _) eqn:Hin; [by apply slices_Contains_true|left].
Qed.

(** ** Clusters and clocks *)
Definition empty_cluster : cluster := λ k, ∅.

Lemma empty_keyed : keyed empty_cluster.
Proof. intros k key o Ho. unfold empty_cluster in Ho. by rewrite lookup_empty in Ho. Qed.

(** The manager on an empty cluster, at a time. *)
Definition boot_store : store := {| so_cache := empty_cluster; so_events := []; so_now := λ _, "t" |}.

Lemma boot_ok : store_ok boot_store.
Proof. split; [exact empty_keyed|done]. Qed.

Definition boot : op_state := {| op_api := exist _ boot_store boot_ok; op_queue := ∅; op_busy := ∅; op_stale := ∅ |}.

Lemma boot_started : started boot.
Proof. intros key n Hn. assert (op_objects boot KSingBoxNode !! key = None) as Hnone by reflexivity. by pose proof (eq_trans (eq_sym Hnone) Hn). Qed.

Definition store_at (t : string) (s : okStore) : okStore :=
  exist _ {| so_cache := so_cache (proj1_sig s); so_events := so_events (proj1_sig s); so_now := λ _, t |} (proj2_sig s).

Definition set_clock (t : string) (st : op_state) : op_state := with_api (store_at t (op_api st)) st.

(** ** A scheduler *)

(** Other clients create objects. *)
Fixpoint create_all (os : list anyObj) : prog unit :=
  match os with
  | [] => Ret tt
  | existT k o :: os => _ ← do (Create k o); create_all os
  end.

(** A whole program run by another client. *)
Definition then_client {A} (p : prog A) (st : op_state) : op_state := (exec op_server st p).2.

Lemma client_steps r {A} (p : prog A) st : rtc (op_step r) st (then_client p st).
Proof.
  unfold then_client. revert st. induction p as [a|c f IH]; intros st; [done|]. cbn [exec].
  eapply rtc_l; [exact (step_client r c st)|]. destruct (srv_step op_server st c) as [a st1]. cbn [snd].
  specialize (IH a st1). by destruct (exec op_server st1 (f a)) as [[tr b] st2].
Qed.

Section runs.
Context (r : SingBoxNodeReconciler).

Lemma set_clock_step t st : op_step r st (set_clock t st).
Proof. by apply step_tick. Qed.

(** The next step for a request: take it, make the next call of its pass, or end the pass. *)
Definition act (x : controller * NamespacedName) (st : op_state) : op_state :=
  match op_busy st !! x with
  | None => take_request r x.1 x.2 st
  | Some (Ret res) => finish x.1 x.2 res st
  | Some (Call c f) => resume x.1 x.2 c f st
  end.

(** The next event arrives, or a request is worked on. *)
Inductive action := Deliver | Work (x : controller * NamespacedName).

Definition candidates (st : op_state) : list action :=
  (if events (op_api st) is [] then [] else [Deliver]) ++ (Work <$> elements (op_queue st) ++ (map_to_list (op_busy st)).*1).

Definition perform (a : action) (st : op_state) : option op_state :=
  match a with
  | Deliver => if okStore_deliver (op_api st) is Some (ch, s) then Some (observe (reads (objects s)) ch s st) else None
  | Work x => Some (act x st)
  end.

Lemma act_step x st : x ∈ elements (op_queue st) ++ (map_to_list (op_busy st)).*1 → op_step r st (act x st).
Proof.
  destruct x as [ctl key]. intros Hx. unfold act. cbn [fst snd]. destruct (op_busy st !! (ctl, key)) as [[res|c f]|] eqn:Hb.
  - by apply step_done.
  - by apply step_call.
  - apply step_take; [|done]. apply elem_of_app in Hx as [Hx%elem_of_elements|Hx]; [done|].
    exfalso. apply list_elem_of_fmap in Hx as ([k q] & Hk & Hq%elem_of_map_to_list). simpl in Hk. subst k. by rewrite Hq in Hb.
Qed.

Lemma perform_step a st st' : a ∈ candidates st → perform a st = Some st' → op_step r st st'.
Proof.
  intros Ha. destruct a as [|x]; cbn [perform].
  - destruct (okStore_deliver (op_api st)) as [[ch s]|] eqn:Hd; [|done]. intros [= <-].
    apply step_deliver; [by apply okStore_deliver_ok|apply snapshot_of_reads].
  - intros [= <-]. apply act_step. apply elem_of_app in Ha as [Ha|Ha].
    + exfalso. destruct (events (op_api st)); [by apply elem_of_nil in Ha|by apply list_elem_of_singleton in Ha].
    + by apply list_elem_of_fmap in Ha as (y & [= <-] & Hy).
Qed.

Lemma candidates_nil st : candidates st = [] → at_rest st.
Proof.
  intros [Hd [Hp Hb]%fmap_nil_inv%app_nil]%app_nil. split_and!.
  - by destruct (events (op_api st)).
  - by apply elements_empty_iff, leibniz_equiv in Hp.
  - by apply fmap_nil_inv, map_to_list_empty_iff in Hb.
Qed.

(** Deliveries and passes take turns until nothing is left; [tick] moves the clock before each step. *)
Fixpoint drain (tick : nat → op_state → op_state) (fuel : nat) (st : op_state) : option op_state :=
  match candidates st with
  | [] => Some st
  | x :: l =>
    match fuel with
    | 0 => None
    | S fuel => st' ← perform (default x ((x :: l) !! (fuel `mod` length (x :: l)))) (tick fuel st); drain tick fuel st'
    end
  end.

Lemma drain_steps tick fuel st st' :
  (∀ n st, rtc (op_step r) st (tick n st) ∧ candidates (tick n st) = candidates st) →
  drain tick fuel st = Some st' → rtc (op_step r) st st' ∧ at_rest st'.
Proof.
  intros Htick. revert st. induction fuel as [|fuel IH]; intros st; cbn [drain]; destruct (candidates st) as [|x l] eqn:Hc; try done.
  - intros [= <-]. split; [done|by apply candidates_nil].
  - intros [= <-]. split; [done|by apply candidates_nil].
  - intros (st1 & Hact & [Hsteps Hrest]%IH)%bind_Some. split; [|done]. destruct (Htick fuel st) as [Ht Hct].
    etrans; [exact Ht|]. eapply rtc_l; [|exact Hsteps]. eapply perform_step; [|exact Hact]. rewrite Hct, Hc. destruct ((x :: l) !! _) as [y|] eqn:Hy; [by eapply list_elem_of_lookup_2|left].
Qed.
End runs.

(** Every step at its own time. *)
Definition each_second (n : nat) (st : op_state) : op_state := set_clock ("t" +:+ pretty n) st.

(** A settled run, and a test of the state it settles in. *)
Lemma drain_check r (P : op_state → bool) fuel st :
  P <$> drain r each_second fuel st = Some true → ∃ st', rtc (op_step r) st st' ∧ at_rest st' ∧ P st' = true.
Proof.
  intros (st' & Hd & HP)%fmap_Some. exists st'. destruct (drain_steps r each_second fuel st st') as [Hsteps Hq]; [|exact Hd|done].
  intros n st1. split; [apply rtc_once, set_clock_step|done].
Qed.

(** The node is stored, is not being deleted, and no unwatched change is pending for it. *)
Definition steady (key : NamespacedName) (st : op_state) : bool :=
  match op_objects st KSingBoxNode !! key with
  | Some n => bool_decide (keyOf (n : SingBoxNode) = key) && bool_decide (om_DeletionTimestamp (node_meta n) = None) && bool_decide (key ∉ op_stale st)
  | None => false
  end.

(** ** A run that settles, and changes that leave it stale *)
Definition mkSecret (name : string) (data : gmap string string) : Secret := {| secret_meta := mkMeta name; Data := data |}.

(** A node that already has the finalizer. *)
Definition known_node (name : string) (roles : list ProxyRole) (relay : Z) : SingBoxNode :=
  with_node_meta (with_finalizers [singboxNodeFinalizer] (mkMeta name)) (mkNode name roles relay []).

Definition plain_reconciler : SingBoxNodeReconciler :=
  {| r_DefaultTLSSecret := "tls"; r_SingBoxImage := ""; r_UsageCollectionEnabled := false; r_V2RayAPIListenAddr := "" |}.

(** A user, an inbound node and a relay come up together. *)
Definition sample_up : op_state :=
  then_client (create_all [existT KSecret (mkSecret "bob" {["uuid" := sample_uuid]}); existT KUser (mkUser "bob" "");
    existT KSingBoxNode (known_node "in1" [ProxyRoleInbound] 0); existT KSingBoxNode (known_node "out1" [ProxyRoleOutbound] 10808)]) boot.

Definition keyIn1 : NamespacedName := {| nn_Namespace := "proxy"; nn_Name := "in1" |}.

(** The run goes on until nothing is left to do. *)
Definition settle (st : op_state) : option op_state := drain plain_reconciler each_second 900 st.

Lemma steady_inv st : steady keyIn1 st = true → ∃ n : SingBoxNode, op_objects st KSingBoxNode !! keyIn1 = Some n ∧ keyOf n = keyIn1 ∧
  om_DeletionTimestamp (node_meta n) = None ∧ keyIn1 ∉ op_stale st.
Proof.
  unfold steady. destruct (op_objects st KSingBoxNode !! keyIn1) as [n|] eqn:Hn; [|done]. intros. bool_prop. exists n. done.
Qed.

(** *** What a client does to one Secret *)
Definition new_uuid : Secret := mkSecret "bob" {["uuid" := "00000000-1111-4222-8333-444455556666"]}.
Definition new_relay : Secret := mkSecret (secretName "out1") {["username" := "relay"; "password" := "rotated"]}.

(** The old and the new object, and the server before and after the event arrives. *)
Definition rotated (sent : Secret) (s : api_state) : option (Secret * Secret * api_state * api_state) :=
  let '(a, s1) := api_step s (Update KSecret sent) in
  match a, events s1 with
  | None, [Updated KSecret old new] => if okStore_deliver s1 is Some (_, s2) then Some (old, new, s1, s2) else None
  | _, _ => None
  end.

Lemma rotated_inv sent s (old new : Secret) s1 s2 :
  rotated sent s = Some (old, new, s1, s2) →
  api_step s (Update KSecret sent) = (None, s1) ∧ events s1 = [Updated KSecret old new] ∧ api_deliver s1 (Updated KSecret old new) s2.
Proof.
  unfold rotated. destruct (api_step s (Update KSecret sent)) as [[e|] s1']; [done|].
  destruct (events s1') as [|[k o|k o n|k o] l] eqn:Hev; [done|done| |done]. destruct k; try done. destruct l; [|done].
  destruct (okStore_deliver s1') as [[ch s2']|] eqn:Hd; [|done]. intros [= -> -> -> ->]. split_and!; [done..|].
  apply okStore_deliver_ok in Hd. pose proof (api_delivered _ _ _ Hd) as (_ & _ & Hp). rewrite Hev in Hp.
  apply Permutation_length_1_inv in Hp. injection Hp as -> _. done.
Qed.

(** No external outbound is stored, no policy either, and the node's ConfigMap
    differs from what the objects after the change call for. *)
Definition outdates (sent : Secret) (st : op_state) : bool :=
  match rotated sent (op_api st), op_objects st KSingBoxNode !! keyIn1 with
  | Some (old, new, s1, s2), Some n =>
    bool_decide (obj_key KSecret old = obj_key KSecret new) && bool_decide (map_to_list (op_objects st KExternalOutbound) = []) &&
    bool_decide (policiesOf (objects s2) n = []) &&
    match op_objects st KConfigMap !! configMapKey n with
    | Some cm => bool_decide (cm_Data (cm : ConfigMap) !! "config.json" ≠ Some (Config (configOf plain_reconciler (objects s2) n [])))
    | None => false
    end
  | _, _ => false
  end.

Lemma sample_settles : (λ st, steady keyIn1 st && outdates new_uuid st && outdates new_relay st) <$> settle sample_up = Some true.
Proof. vm_compute. reflexivity. Qed.

(** The state the cluster settles in. *)
Lemma sample_settled :
  ∃ st, rtc (op_step plain_reconciler) boot st ∧ at_rest st ∧ steady keyIn1 st = true ∧ outdates new_uuid st = true ∧ outdates new_relay st = true.
Proof.
  destruct (drain_check _ _ _ _ sample_settles) as (st & Hsteps & Hq & Hst). exists st.
  apply andb_true_iff in Hst as [[Hs Hu]%andb_true_iff Hr]. split; [etrans; [apply client_steps|exact Hsteps]|].
  exact (conj Hq (conj Hs (conj Hu Hr))).
Qed.

Lemma operator_quiescent_witness :
  ∃ st (node : SingBoxNode), server_objects (op_api st) KSingBoxNode !! keyIn1 = Some node ∧
    deployed plain_reconciler (server_objects (op_api st)) node.
Proof.
  destruct sample_settled as (st & Hsteps & Hq%at_rest_idle & Hst & _). destruct (steady_inv st Hst) as (n & Hn & Hkey & Hlive & Hfresh).
  pose proof (api_synced (op_api st) (proj1 Hq)) as Hsync. exists st, n. split; [rewrite Hsync; exact Hn|].
  apply (operator_quiescent plain_reconciler boot st n).
  - exact boot_started.
  - exact Hsteps.
  - exact Hq.
  - rewrite Hkey, Hsync. exact Hn.
  - exact Hlive.
  - rewrite Hkey. exact Hfresh.
Defined.

(** Both kinds of Secret, from a reachable state in which the node is deployed. *)
Lemma secret_rotation_missed_witness :
  ∃ st (node : SingBoxNode), rtc (op_step plain_reconciler) boot st ∧ at_rest st ∧ keyOf node = keyIn1 ∧
    deployed plain_reconciler (op_objects st) node ∧
    ∀ sent, sent = new_uuid ∨ sent = new_relay →
      ∃ st', rtc (op_step plain_reconciler) st st' ∧ at_rest st' ∧ ¬ deployed plain_reconciler (op_objects st') node.
Proof.
  destruct sample_settled as (st & Hsteps & Hq & Hst & Hu & Hr). destruct (steady_inv st Hst) as (n & Hn & Hkey & Hlive & Hfresh).
  assert (deployed plain_reconciler (op_objects st) n) as Hd.
  { apply (idle_deployed plain_reconciler boot st n boot_started Hsteps (at_rest_idle _ Hq)); rewrite ?Hkey; [exact Hn|exact Hlive|exact Hfresh]. }
  exists st, n. split_and!; [exact Hsteps|exact Hq|exact Hkey|exact Hd|]. intros sent Hsent.
  assert (outdates sent st = true) as Hout by (destruct Hsent as [-> | ->]; assumption). clear Hu Hr Hsent. unfold outdates in Hout.
  destruct (rotated sent (op_api st)) as [[[[old new] s1] s2]|] eqn:Hrot; [|discriminate]. rewrite Hn in Hout.
  apply rotated_inv in Hrot as (Hstep & Hev & Hdel).
  apply andb_true_iff in Hout as [[[Hold%bool_decide_eq_true_1 Hext%bool_decide_eq_true_1]%andb_true_iff Hpol%bool_decide_eq_true_1]%andb_true_iff Hcm].
  destruct Hd as (out & _ & Hcfg & _). pose proof Hcfg as (cm & Hcmap & _ & Hdata). rewrite Hcmap in Hcm. apply bool_decide_eq_true_1 in Hcm.
  assert (unreferenced (op_objects st) new) as Hun.
  { intros e He. apply map_to_list_empty_iff in Hext. rewrite Hext, lookup_empty in He. discriminate. }
  destruct (secret_rotation_missed plain_reconciler st sent old new s1 s2 (reads (objects s2)) Hq Hold Hun Hstep Hev Hdel (snapshot_of_reads _))
    as (Hsteps' & Hrest & _ & _ & Hno).
  eexists. split_and!; [exact Hsteps'|exact Hrest|]. apply (Hno n out Hcfg). intros out' (policies & Hp & ->) Heq.
  assert (policies = []) as ->. { apply Permutation_nil_r. etrans; [exact Hp|]. unfold op_objects. cbn [observe op_api]. rewrite Hpol. reflexivity. }
  apply Hcm. rewrite Hdata, lookup_singleton_eq. f_equal. symmetry. exact Heq.
Defined.

(** ** The watches on the sample cluster *)
Definition sample_cluster : cluster := server_objects (op_api sample_up).

Lemma sample_keyed : keyed sample_cluster.
Proof. apply apply_changes_keyed. exact (proj1 (proj2_sig (op_api sample_up))). Qed.

Definition sample_in1 : SingBoxNode := known_node "in1" [ProxyRoleInbound] 0.
Definition sample_out1 : SingBoxNode := known_node "out1" [ProxyRoleOutbound] 10808.

(** A new status of the relay: nothing the inbound node's configuration depends on. *)
Definition relay_ready : change :=
  Updated KSingBoxNode sample_out1
    {| node_meta := node_meta sample_out1; node_spec := node_spec sample_out1;
       node_status := {| nst_Phase := "Ready"; nst_ConfigHash := "hash"; nst_EntryEndpoints := ["10.0.0.1"]; nst_TLSServerName := "";
                         nst_Conditions := []; nst_ObservedGeneration := 1 |} |}.

Lemma watch_complete_witness :
  (∀ policies, policies ≡ₚ policiesOf sample_cluster sample_in1 →
     configOf plain_reconciler sample_cluster sample_in1 policies = configOf plain_reconciler (apply_change relay_ready sample_cluster) sample_in1 policies) ∧
  (∀ out, callsFor plain_reconciler sample_cluster sample_in1 out ↔ callsFor plain_reconciler (apply_change relay_ready sample_cluster) sample_in1 out).
Proof.
  apply (watch_complete plain_reconciler sample_cluster relay_ready (reads (apply_change relay_ready sample_cluster))).
  - exact sample_keyed.
  - split; [vm_compute; reflexivity|]. split; [vm_compute; reflexivity|]. intros _. reflexivity.
  - apply snapshot_of_reads.
  - vm_compute. reflexivity.
  - apply (bool_decide_unpack _). vm_compute. exact I.
  - intros (p & Hp & _). replace (policiesOf _ _) with (@nil EgressPolicy) in Hp by (vm_compute; reflexivity). by apply elem_of_nil in Hp.
  - vm_compute. reflexivity.
Defined.

(** A heartbeat: the Node object is stored again with nothing changed. *)
Lemma node_update_enqueues_witness :
  keyIn1 ∈ requests (reads sample_cluster) (Updated KNode sample_k8s_node sample_k8s_node) SingBoxNodeController.
Proof.
  apply (node_update_enqueues sample_cluster (reads sample_cluster) sample_k8s_node sample_k8s_node sample_in1).
  - exact sample_keyed.
  - apply snapshot_of_reads.
  - vm_compute. reflexivity.
  - reflexivity.
  - discriminate.
Defined.

(** ** Triggers within one second *)

Definition with_labels (ls : gmap string string) (m : ObjectMeta) : ObjectMeta :=
  {| om_Name := om_Name m; om_Namespace := om_Namespace m; om_Labels := ls; om_Annotations := om_Annotations m;
     om_Generation := om_Generation m; om_Finalizers := om_Finalizers m; om_DeletionTimestamp := om_DeletionTimestamp m;
     om_OwnerReferences := om_OwnerReferences m |}.

(** A policy that routes example.com through whatever is labelled as the exit. *)
Definition label_policy : EgressPolicy :=
  let p := mkPolicy "p1" EgressPolicyActionRoute 10 [] in
  {| policy_meta := policy_meta p; policy_status := policy_status p;
     policy_spec := {| ps_IngressSelector := anySelector;
                       ps_EgressSelector := {| MatchLabels := {["tier" := "exit"]}; MatchExpressions := []; MatchNames := [] |};
                       ps_Match := ps_Match (policy_spec p); ps_Action := EgressPolicyActionRoute; ps_Priority := 10; ps_FallbackAction := "" |} |}.

Definition label_exit : prog (option error) :=
  do (Update KExternalOutbound {| eob_meta := with_labels {["tier" := "exit"]} (eob_meta sample_ext); eob_spec := eob_spec sample_ext; eob_status := eob_status sample_ext |}).

Definition label_up : op_state :=
  then_client (create_all [existT KSecret (mkSecret "bob" {["uuid" := sample_uuid]}); existT KUser (mkUser "bob" "");
    existT KExternalOutbound sample_ext; existT KEgressPolicy label_policy; existT KSingBoxNode (known_node "in1" [ProxyRoleInbound] 0)]) boot.

(** The clock stands still. *)
Definition drain_now (st : op_state) : option op_state := drain plain_reconciler (λ _ st, st) 600 st.

(** The cluster settles, the label changes and its event arrives; the clock still shows the same time. *)
Definition labelled : option op_state := st ← drain_now label_up; perform plain_reconciler Deliver (then_client label_exit st).

Definition keyP1 : NamespacedName := {| nn_Namespace := "proxy"; nn_Name := "p1" |}.

Definition same_secondb (t : string) (e : event) : bool :=
  match ev_got KSingBoxNode e with
  | Some n => bool_decide (om_Annotations (node_meta (n : SingBoxNode)) !! reconcileTriggerAnnotation = Some t)
  | None => true
  end &&
  match ev_call e as c return answer c → bool with NowText _ => λ now, bool_decide (now = t) | _ => λ _, true end (ev_answer e).

Lemma same_secondb_ok t e : same_secondb t e = true → same_second t e.
Proof.
  intros [Hn Ht]%andb_true_iff. split.
  - intros n Hgot. rewrite Hgot in Hn. by apply bool_decide_eq_true_1 in Hn.
  - destruct e as [c a]. destruct c; try done. by apply bool_decide_eq_true_1 in Ht.
Qed.

(** The pass over the policy triggers the node, and the policy has changed. *)
Definition trigger_check (st : op_state) : bool :=
  let p := EgressPolicyReconciler.Reconcile keyP1 in
  bool_decide ((EgressPolicyController, keyP1) ∈ op_queue st) && forallb (same_secondb "t") (trace op_server st p) &&
  existsb (λ e, match ev_call e with Update KSingBoxNode _ => true | _ => false end) (trace op_server st p) &&
  bool_decide ((result op_server st p).2 = None).

Lemma label_settles : trigger_check <$> labelled = Some true.
Proof. vm_compute. reflexivity. Qed.

Lemma same_second_trigger_lost_witness :
  ∃ st, (EgressPolicyController, keyP1) ∈ op_queue st ∧
    let p := EgressPolicyReconciler.Reconcile keyP1 in
    (∃ e, e ∈ trace op_server st p ∧ writes e = true) ∧
    Forall (writes_back (trace op_server st p)) (trace op_server st p) ∧ again (result op_server st p) = false.
Proof.
  destruct (proj1 (fmap_Some _ _ _) label_settles) as (st & _ & Hc). symmetry in Hc. unfold trigger_check in Hc. exists st.
  apply andb_true_iff in Hc as [[[Hq%bool_decide_eq_true_1 Hall]%andb_true_iff Hex]%andb_true_iff Hres%bool_decide_eq_true_1].
  destruct (same_second_trigger_lost op_server st keyP1 "t") as [Hback Hagain].
  { apply Forall_forall. intros e He%list_elem_of_In. apply same_secondb_ok. exact (proj1 (forallb_forall _ _) Hall e He). }
  apply existsb_exists in Hex as (e & He%list_elem_of_In & Hw).
  split; [exact Hq|]. cbv zeta. split; [|exact (conj Hback (Hagain Hres))]. exists e. split; [exact He|].
  unfold writes. destruct (ev_call e); try discriminate; reflexivity.
Defined.
