(* ===== verification/System.v ===== *)
(** * System: the operator and the endpoint together

    The controllers keep the nodes' ConfigMaps up to date, the endpoint builds a
    client's configuration from the same objects.  When the operator has nothing
    pending, what a user downloads is served by what is deployed. *)

From S2P Require Import Prelude GoStrings Json Api Engine EngineFacts K8s CredManager NodeController NodeProps ClientConfig ClientProps ClientTargets ClientSelectors ClientServed Template Handler HandlerProps Snapshot EndToEnd Cluster Controllers Watches Strip ReadSet ConfigOf ReadsApart WatchComplete Passes Store Operator Samples SampleCluster SampleClient OperatorRuns.
From Stdlib Require Import Ascii.

#[local] Opaque configOf.

(** ** A cluster as a snapshot *)
Section plain.
Context `{NotFoundErrors}.

(** What admission and the controllers cannot ensure: an external outbound does
    not share its name with a node, and its credentials are there. *)
Record externals_ready (c : cluster) (ns : string) : Prop := {
  er_disjoint : ∀ e : ExternalOutbound, c KExternalOutbound !! keyOf e = Some e → GetNamespace e = ns → c KSingBoxNode !! keyOf e = None;
  er_creds : ∀ e : ExternalOutbound, c KExternalOutbound !! keyOf e = Some e → GetNamespace e = ns →
    hasRequiredExternalCreds e (snapExternal (reads c) e) = true;
}.

Lemma listed c k ns (l : list (obj k)) o :
  keyed c → reads c (List k (InNamespace ns)) = inr l → o ∈ l → obj_ns k o = ns ∧ c k !! obj_key k o = Some o.
Proof. intros Hk [= <-] Ho. by apply elem_of_namespace in Ho. Qed.

Lemma reads_plain c ns : keyed c → externals_ready c ns → PlainCluster (reads c) ns.
Proof.
  intros Hk [Hdis Hcred]. split.
  - intros k ns' l [= <-]. by apply listing_names_NoDup.
  - intros l n Hl Hn. by destruct (listed c KSingBoxNode ns l n Hk Hl Hn).
  - intros nodes exts e Hnodes Hexts He. destruct (listed c KExternalOutbound ns exts e Hk Hexts He) as [Hns Hin].
    intros (n & Hname & Hn)%list_elem_of_fmap. destruct (listed c KSingBoxNode ns nodes n Hk Hnodes Hn) as [Hnns Hnin].
    specialize (Hdis e Hin Hns). assert (obj_key KSingBoxNode n = keyOf e) as Hkey.
    { unfold obj_key, keyOf. rewrite Hnns. change (GetNamespace e = ns) in Hns. rewrite Hns. f_equal. by symmetry. }
    rewrite Hkey in Hnin. by pose proof (eq_trans (eq_sym Hdis) Hnin).
  - intros exts e Hexts He. destruct (listed c KExternalOutbound ns exts e Hk Hexts He) as [Hns Hin]. by apply Hcred.
Qed.
End plain.

Section system.
Context `{WatchLib, NotFoundErrors, GoStd, LabelSelectors, MapRange, ConditionLib, TLSCerts} `{!ApiServer}.
Context (r : SingBoxNodeReconciler).

(** What a node's spec must have for its endpoints to reach clients: an address
    without a colon ([ipv6_endpoint_lost]), protocol names without one, and a port
    for the protocol it listens with. *)
Record reachable_spec (n : SingBoxNode) : Prop := {
  rs_address : has_char ":"%char (ns_Address (node_spec n)) = false;
  rs_protocols : Forall plainProtocol (ns_SupportedProtocols (node_spec n));
  rs_port : findProtocolPort n (EffectiveInboundProtocol n) ≠ 0%Z;
}.

(** The operator publishes the endpoints. *)
Lemma reported_published n out : reported n out → reachable_spec n → Published n.
Proof. intros (_ & _ & Hep) []. by split. Qed.

(** A program that only reads, run while nothing changes, sees the stored objects,
    every listing in an order of its own. *)
Lemma reads_agree {A} (p : prog A) st : emits is_read p → Forall (agrees (reads (op_objects st))) (trace op_server st p).
Proof.
  unfold trace. revert st. induction p as [a|c f IH]; intros st; [by constructor|]. intros [Hc Hf]. cbn [exec].
  rewrite srv_step_eq. pose proof (api_read (op_api st) c Hc) as Hread. cbn [fst snd].
  specialize (IH (api_step (op_api st) c).1 (with_api (api_step (op_api st) c).2 st) (Hf _)).
  replace (op_objects (with_api (api_step (op_api st) c).2 st)) with (op_objects st) in IH by (symmetry; apply api_cache).
  destruct (exec op_server _ _) as [[tr b] st']. by constructor.
Qed.

Lemma download_reads st srv path ns uuid :
  requestParts path = Some (ns, uuid) → Forall (agrees (reads (op_objects st))) (trace op_server st (handleClientConfig srv path)).
Proof.
  intros Hparts. apply reads_agree. eapply emits_mono; [|by eapply handleClientConfig_emits]. by intros [].
Qed.

(** What a deployed node's ConfigMap holds is collected from a snapshot of the stored objects. *)
Lemma deployed_collected c n :
  keyed c → deployed r c n →
  ∃ (cm : ConfigMap) input snap, c KConfigMap !! configMapKey n = Some cm ∧ cm_Data cm = {["config.json" := Config (Compute input)]} ∧
    snapshot_of c snap ∧ snap_run snap (collectInput r n) = inr input ∧ (reachable_spec n → Published n).
Proof.
  intros Hk (out & (policies & Hp & Hout) & (cm & Hcm & _ & Hdata) & Hrep).
  destruct (ordered_snapshot c (GetNamespace n) policies Hp) as (snap & Hs & Hl).
  exists cm, (inputOf r c n policies), snap. split_and!; [exact Hcm|by rewrite Hdata, Hout|exact Hs|by apply collectInput_snapshot|].
  by eapply reported_published.
Qed.

(** C1. What a user downloads is deployed.  Start the operator on any cluster and
    let controllers and other clients make their calls in any order, every listing
    returning its objects in any order.  Suppose that every event has arrived, no
    request for a node or a policy is pending or under way, no external outbound of
    the namespace shares its name with a node, and every one has the credentials
    its protocol needs.  When the endpoint then answers a download with a
    configuration, it is built for the user whose Secret holds the UUID, and every
    proxy outbound in it belongs to a stored inbound node and an exit target, such
    that the ConfigMap of the node holds a configuration that accepts the outbound
    as this user and routes it to the target, provided that the node is not being
    deleted, is not marked stale (since its last pass began no unwatched change, such
    as a rotated user or relay Secret, affected it and no policy trigger rewrote
    the stamp that it carried), has an address and protocol names without a colon,
    32-bit ports and a port for its protocol, and may use itself when it has both
    roles. *)
Theorem download_deployed st0 st srv path ns uuid body :
  started st0 → rtc (op_step r) st0 st → idle st →
  requestParts path = Some (ns, uuid) → externals_ready (op_objects st) ns →
  result op_server st (handleClientConfig srv path) = okResponse body →
  ∃ user secret cc out t,
    op_objects st KSecret !! authKey user = Some secret ∧ strings_EqualFold (secretUUID secret) uuid = true ∧
    cc_User cc = user ∧ BuildClientConfig cc = inr out ∧ MergeClientConfig t out cc = inr body ∧
    ∀ j, j ∈ out → isProxy j → ∃ (inbound : SingBoxNode) target,
      op_objects st KSingBoxNode !! keyOf inbound = Some inbound ∧ GetNamespace inbound = ns ∧ hasRole inbound ProxyRoleInbound = true ∧
      (om_DeletionTimestamp (node_meta inbound) = None → keyOf inbound ∉ op_stale st → reachable_spec inbound → selfAllowed inbound →
       ∃ (cm : ConfigMap) input, op_objects st KConfigMap !! configMapKey inbound = Some cm ∧
         cm_Data cm = {["config.json" := Config (Compute input)]} ∧ Serves input user target j).
Proof.
  intros Hst Hsteps Hidle Hparts Hext Hres. set (c := op_objects st) in *.
  assert (keyed c) as Hk by apply api_keyed. pose proof (reads_plain c ns Hk Hext) as Hpc.
  destruct (download_served (reads c) _ _ srv path ns uuid body Hparts Hpc (download_reads st srv path ns uuid Hparts) Hres)
    as (user & secret & cc & out & t & Hsec & Heq & Hcc & Hb & Hm & Hall).
  exists user, secret, cc, out, t. split_and!; [|done..|].
  { revert Hsec. cbn [reads]. destruct (c KSecret !! authKey user) as [s|]; [|done]. by intros [= ->]. }
  intros j Hj Hproxy. destruct (Hall j Hj Hproxy) as (nodes & inbound & target & Hnodes & Hin & Hrole & Hserve).
  destruct (listed c KSingBoxNode ns nodes inbound Hk Hnodes Hin) as [Hns Hstored].
  exists inbound, target. split_and!; [exact Hstored|exact Hns|exact Hrole|]. intros Hlive Hfresh Hspec Hself.
  destruct (deployed_collected c inbound Hk (idle_deployed r st0 st inbound Hst Hsteps Hidle Hstored Hlive Hfresh))
    as (cm & input & snap & Hcm & Hdata & Hsnap & Hrun & Hpub).
  exists cm, input. split_and!; [exact Hcm|exact Hdata|]. exact (Hserve r snap input Hsnap Hrun (Hpub Hspec) Hself).
Qed.
End system.

(** ** A download from a settled cluster *)
Definition mkK8sNode (name : string) : K8sNode :=
  {| kn_meta := {| om_Name := name; om_Namespace := ""; om_Labels := ∅; om_Annotations := ∅; om_Generation := 0; om_Finalizers := [];
                   om_DeletionTimestamp := None; om_OwnerReferences := [] |};
     kn_Conditions := [{| nc_Type := "Ready"; nc_Status := "True" |}] |}.

(** A node as its owner creates it: no status yet. *)
Definition new_node (n : SingBoxNode) : SingBoxNode :=
  {| node_meta := with_finalizers [singboxNodeFinalizer] (node_meta n); node_spec := node_spec n; node_status := emptyNodeStatus |}.

Definition online_up : op_state :=
  then_client (create_all [existT KNode (mkK8sNode "entry1"); existT KNode (mkK8sNode "exit1");
    existT KSecret (mkSecret "bob" {["uuid" := sample_uuid]}); existT KUser (mkUser "bob" "");
    existT KSingBoxNode (new_node client_entry); existT KSingBoxNode (new_node client_exit)]) boot.

Definition online_download (st : op_state) : Response :=
  result op_server st (handleClientConfig {| srv_BindAddress := ":8082"; srv_TemplateRef := "" |} client_path).

#[export] Instance Response_eq : EqDecision Response.
Proof. solve_decision. Defined.

(** An inbound node that the theorem speaks of: live, not stale, reachable and allowed to use itself. *)
Definition servedNode (st : op_state) (n : SingBoxNode) : bool :=
  bool_decide (om_DeletionTimestamp (node_meta n) = None) && bool_decide (keyOf n ∉ op_stale st) &&
  negb (has_char ":"%char (ns_Address (node_spec n))) && bool_decide (ns_SupportedProtocols (node_spec n) = ns_SupportedProtocols (node_spec client_entry)) &&
  negb (findProtocolPort n (EffectiveInboundProtocol n) =? 0)%Z && bool_decide (ns_AllowedOutbounds (node_spec n) = []).

(** The download succeeds, offers an outbound of the inbound node, no external
    outbound is stored, and every inbound node is one that the theorem speaks of. *)
Definition online_ok (st : op_state) : bool :=
  bool_decide (online_download st = okResponse (resp_Body (online_download st))) &&
  bool_decide (is_Some (strings_Cut (resp_Body (online_download st)) "10.0.0.1")) &&
  (length (map_to_list (op_objects st KExternalOutbound)) =? 0) &&
  forallb (λ n : SingBoxNode, negb (hasRole n ProxyRoleInbound) || servedNode st n) (map_to_list (op_objects st KSingBoxNode)).*2.

Lemma online_settles : online_ok <$> drain plain_reconciler each_second 1500 online_up = Some true.
Proof. vm_compute. reflexivity. Qed.

Lemma no_externals c ns : length (map_to_list (c KExternalOutbound)) = 0 → externals_ready c ns.
Proof.
  intros Hlen%nil_length_inv%map_to_list_empty_iff. split; intros e He; exfalso; by rewrite Hlen, lookup_empty in He.
Qed.

(** Every outbound that bob downloads is served by what is deployed. *)
Lemma download_deployed_witness :
  ∃ st body user secret cc out t,
    is_Some (strings_Cut body "10.0.0.1") ∧ op_objects st KSecret !! authKey user = Some secret ∧
    strings_EqualFold (secretUUID secret) sample_uuid = true ∧
    cc_User cc = user ∧ BuildClientConfig cc = inr out ∧ MergeClientConfig t out cc = inr body ∧
    ∀ j, j ∈ out → isProxy j → ∃ (inbound : SingBoxNode) target (cm : ConfigMap) input,
      op_objects st KConfigMap !! configMapKey inbound = Some cm ∧
      cm_Data cm = {["config.json" := Config (Compute input)]} ∧ Serves input user target j.
Proof.
  destruct (drain_check _ _ _ _ online_settles) as (st & Hsteps & Hq & Hok).
  apply andb_true_iff in Hok as [[[Hres%bool_decide_eq_true_1 Hbody%bool_decide_eq_true_1]%andb_true_iff Hext%Nat.eqb_eq]%andb_true_iff Hnodes].
  exists st, (resp_Body (online_download st)).
  destruct (download_deployed plain_reconciler boot st {| srv_BindAddress := ":8082"; srv_TemplateRef := "" |} client_path "proxy" sample_uuid
    (resp_Body (online_download st))) as (user & secret & cc & out & t & Hsec & Heq & Hcc & Hb & Hm & Hall).
  - exact boot_started.
  - etrans; [apply client_steps|exact Hsteps].
  - exact (at_rest_idle _ Hq).
  - vm_compute. reflexivity.
  - exact (no_externals _ _ Hext).
  - exact Hres.
  - exists user, secret, cc, out, t. split_and!; try assumption. intros j Hj Hproxy.
    destruct (Hall j Hj Hproxy) as (inbound & target & Hstored & _ & Hrole & Hserve). exists inbound, target.
    assert (servedNode st inbound = true) as Hn.
    { assert (In inbound (map_to_list (op_objects st KSingBoxNode)).*2) as Hin by (apply list_elem_of_In, elem_of_values; eexists; exact Hstored).
      pose proof (proj1 (forallb_forall _ _) Hnodes inbound Hin) as Hn. cbv beta in Hn. rewrite Hrole in Hn. exact Hn. }
    unfold servedNode in Hn. repeat apply andb_true_iff in Hn as [Hn ?]. apply bool_decide_eq_true_1 in Hn. bool_prop.
    apply Hserve; [assumption..|split; [assumption| |by apply Z.eqb_neq]|].
    + match goal with H : ns_SupportedProtocols _ = _ |- _ => rewrite H end. by destruct sample_entry_published.
    + unfold selfAllowed. match goal with H : ns_AllowedOutbounds _ = _ |- _ => rewrite H end. reflexivity.
Defined.
