(* ===== verification/Cli.v ===== *)
(** * Cli: the commands of sbctl

    internal/cli: [initCmd] is the body of `sbctl user init`, which provisions a
    User with a fresh credential Secret, [addCmd] the body of `sbctl node add`.
    Both are programs over the Kubernetes API.  The identifier that
    uuid.New().String() returns (github.com/google/uuid) is an argument, and so
    is whether the context holds a client; the result is the error, or the text
    printed.  The flag defaults are [defaultNamespace] and [defaultRoles]. *)

From S2P Require Import Prelude GoStrings Json Api K8s CredManager.

Definition defaultNamespace : string := "default".
Definition defaultRoles : list string := ["inbound"].

Definition noClient : error := Errorf "failed to get Kubernetes client from context".

(** ** user init *)
Definition initSecret (id namespace name : string) : Secret :=
  {| secret_meta := newMeta (name +:+ "-auth") namespace ∅ ∅; Data := {["uuid" := id]} |}.

Definition initUser (namespace name : string) : User :=
  {| user_meta := newMeta name namespace ∅ ∅;
     user_spec := {| us_AuthSecret_Name := name +:+ "-auth"; us_AuthSecret_Namespace := namespace; us_UserGroupRef := "" |};
     user_status := {| ust_ActiveNodeCount := 0; ust_ActiveNodes := []; ust_Conditions := []; ust_ObservedGeneration := 0 |} |}.

Section commands.
Context `{GoStd}.

Definition initText (id namespace name : string) : string :=
  "User " +:+ strconv_Quote name +:+ " initialized in namespace " +:+ strconv_Quote namespace +:+ newline +:+
  "  UUID: " +:+ id +:+ newline.

Definition initCmd (hasClient : bool) (id namespace name : string) : prog (error + string) :=
  if negb hasClient then Ret (inl noClient)
  else
    let secret := initSecret id namespace name in
    e ← do (Create KSecret secret);
    match e with
    | Some err => Ret (inl (wrapErr "creating auth secret: " err))
    | None =>
      e ← do (Create KUser (initUser namespace name));
      match e with
      | Some err =>
        _ ← do (Delete KSecret secret);
        Ret (inl (wrapErr "creating user: " err))
      | None => Ret (inr (initText id namespace name))
      end
    end.

(** ** node add *)
Record addFlags := {
  fl_nodeRef : string; fl_address : string; fl_region : string; fl_roles : list string; fl_relayPort : Z; fl_namespace : string
}.

(** The loop over --roles: the first value outside validRoles ends it. *)
Fixpoint parseRoles (roles : list string) : error + list ProxyRole :=
  match roles with
  | [] => inr []
  | r :: roles =>
    if negb (slices_Contains [ProxyRoleInbound; ProxyRoleOutbound] r)
    then inl (Errorf ("invalid role " +:+ strconv_Quote r +:+ ": must be one of inbound|outbound"))
    else let! rest := parseRoles roles in inr (r :: rest)
  end.

Definition addedNode (f : addFlags) (name : string) (parsedRoles : list ProxyRole) : SingBoxNode :=
  {| node_meta := newMeta name (fl_namespace f) ∅ ∅;
     node_spec := {| ns_NodeRef := fl_nodeRef f; ns_Address := fl_address f; ns_Region := fl_region f; ns_ClientGroups := [];
                     ns_Roles := parsedRoles; ns_SupportedProtocols := []; ns_InboundProtocol := ""; ns_RelayPort := fl_relayPort f;
                     ns_AllowedInbounds := []; ns_AllowedOutbounds := []; ns_Tag := ""; ns_TLSSecretName := ""; ns_Resources := None |};
     node_status := {| nst_Phase := ""; nst_ConfigHash := ""; nst_EntryEndpoints := []; nst_TLSServerName := ""; nst_Conditions := [];
                       nst_ObservedGeneration := 0 |} |}.

Definition addText (f : addFlags) (name : string) (parsedRoles : list ProxyRole) : string :=
  "SingBoxNode " +:+ strconv_Quote name +:+ " created in namespace " +:+ strconv_Quote (fl_namespace f) +:+ newline +:+
  "  Roles: [" +:+ join " " parsedRoles +:+ "]" +:+ newline +:+
  "  NodeRef: " +:+ fl_nodeRef f +:+ newline +:+ "  Address: " +:+ fl_address f +:+ newline +:+ "  Region: " +:+ fl_region f +:+ newline.

Definition addCmd (hasClient : bool) (f : addFlags) (name : string) : prog (error + string) :=
  match parseRoles (fl_roles f) with
  | inl err => Ret (inl err)
  | inr parsedRoles =>
    if negb hasClient then Ret (inl noClient)
    else
      e ← do (Create KSingBoxNode (addedNode f name parsedRoles));
      match e with
      | Some err => Ret (inl (wrapErr "creating SingBoxNode: " err))
      | None => Ret (inr (addText f name parsedRoles))
      end
  end.
End commands.
