(* ===== verification/CliProps.v ===== *)
(** * CliProps: what the commands leave in the cluster

    `user init` adds both its objects or, unless an error leaves open what was
    stored, none, and the user it creates is the one that the client configuration endpoint identifies by the
    printed UUID; `node add` creates only nodes that admission decides by their
    role. *)

From S2P Require Import Prelude GoStrings GoNet Json Api Engine Samples K8s CredManager NodeController NodeProps SampleCluster Webhooks ClientConfig Template Handler HandlerProps Snapshot EndToEnd Cli.
From Stdlib Require Import Ascii.

(** ** The objects as the API server holds them *)

(** What is stored of an object that was sent: the server may fill in metadata of its own. *)
Definition storedSecret (sent o : Secret) : Prop :=
  keyOf o = keyOf sent ∧ Data o = Data sent ∧ om_Finalizers (secret_meta o) = om_Finalizers (secret_meta sent).
Definition storedUser (sent o : User) : Prop := keyOf o = keyOf sent ∧ user_spec o = user_spec sent.

(** [m'] is [m] with one new entry, under a free key. *)
Definition added {A} (key : NamespacedName) (ok : A → Prop) (m m' : gmap NamespacedName A) : Prop :=
  m !! key = None ∧ ∃ o, ok o ∧ m' = <[key := o]> m.

(** The Secrets and Users of the cluster, while no one else writes them, and how
    the calls of the command act on them.  An object is created only under a free
    key.  An error that is a rejection ([rejected]) says that nothing was stored;
    after any other error, such as a timeout, the call may have taken effect.  A
    deleted Secret without finalizers is gone. *)
Class ObjectStore (sv : server) := {
  secrets : srv_state sv → gmap NamespacedName Secret;
  users : srv_state sv → gmap NamespacedName User;
  rejected : error → bool;
  create_secret : ∀ s o, let '(a, s') := srv_step sv s (Create KSecret o) in
    users s' = users s ∧
    match a with
    | None => added (keyOf o) (storedSecret o) (secrets s) (secrets s')
    | Some e => secrets s' = secrets s ∨ rejected e = false ∧ added (keyOf o) (storedSecret o) (secrets s) (secrets s')
    end;
  create_user : ∀ s o, let '(a, s') := srv_step sv s (Create KUser o) in
    secrets s' = secrets s ∧
    match a with
    | None => added (keyOf o) (storedUser o) (users s) (users s')
    | Some e => users s' = users s ∨ rejected e = false ∧ added (keyOf o) (storedUser o) (users s) (users s')
    end;
  delete_secret : ∀ s o, let '(a, s') := srv_step sv s (Delete KSecret o) in
    users s' = users s ∧
    ∀ stored, secrets s !! keyOf o = Some stored → om_Finalizers (secret_meta stored) = [] →
      secrets s' = delete (keyOf o) (secrets s) ∨ is_Some a ∧ secrets s' = secrets s;
}.

Section init.
Context `{GoStd} (sv : server) `{!ObjectStore sv} (id ns name : string).

Definition secretKey : NamespacedName := keyOf (initSecret id ns name).
Definition userKey : NamespacedName := keyOf (initUser ns name).

(** The run's result and the state after it. *)
Definition initRun (s : srv_state sv) : (error + string) * srv_state sv :=
  ((exec sv s (initCmd true id ns name)).1.2, (exec sv s (initCmd true id ns name)).2).

(** Every error of the run is a rejection, and the deletion that follows a
    rejected user succeeds. *)
Definition clearErrors (e : event) : Prop :=
  match ev_call e as c return answer c → Prop with
  | Create _ _ => λ a, ∀ err, a = Some err → rejected err = true
  | Delete _ _ => λ a, a = None
  | _ => λ _, True
  end (ev_answer e).

Definition newSecret : gmap NamespacedName Secret → gmap NamespacedName Secret → Prop := added secretKey (storedSecret (initSecret id ns name)).
Definition newUser : gmap NamespacedName User → gmap NamespacedName User → Prop := added userKey (storedUser (initUser ns name)).

(** What a run of the command does to the cluster. *)
Definition initOutcome (s : srv_state sv) (res : error + string) (s' : srv_state sv) : Prop :=
  match res with
  | inr text => text = initText id ns name ∧ newSecret (secrets s) (secrets s') ∧ newUser (users s) (users s')
  | inl _ =>
    (secrets s' = secrets s ∨ newSecret (secrets s) (secrets s')) ∧ (users s' = users s ∨ newUser (users s) (users s')) ∧
    (Forall clearErrors (trace sv s (initCmd true id ns name)) → secrets s' = secrets s ∧ users s' = users s)
  end.

(** Undoing the Secret after the user was refused. *)
Lemma rollback_secret s S o :
  added secretKey (storedSecret (initSecret id ns name)) S (secrets s) → o = initSecret id ns name →
  let '(a, s') := srv_step sv s (Delete KSecret o) in
  users s' = users s ∧ (secrets s' = S ∨ is_Some a ∧ added secretKey (storedSecret (initSecret id ns name)) S (secrets s')).
Proof.
  intros (Hfree & stored & Hst & HS) ->. pose proof (delete_secret s (initSecret id ns name)) as Hd. fold secretKey in Hd.
  destruct (srv_step sv s _) as [a s']. destruct Hd as [Hu Hd]. split; [done|].
  destruct (Hd stored) as [Heq|[Ha Heq]]; [by rewrite HS, lookup_insert_eq|by destruct Hst as (_ & _ & ->)|left|right].
  - rewrite Heq, HS. by apply delete_insert_id.
  - split; [done|]. rewrite Heq. split; [done|]. by exists stored.
Qed.

Lemma initRun_outcome s : initOutcome s (initRun s).1 (initRun s).2.
Proof.
  unfold initOutcome, initRun, trace, newSecret, newUser, initCmd. cbn -[initSecret initUser initText].
  pose proof (create_secret s (initSecret id ns name)) as Hs. fold secretKey in Hs.
  destruct (srv_step sv s _) as [[e|] s1]; cbn -[initSecret initUser initText]; destruct Hs as [Hu1 Hs1].
  { split_and!; [destruct Hs1 as [|[_ ?]]; by auto|by left|]. intros [Hc _]%Forall_cons. split; [|done].
    destruct Hs1 as [|[Hr _]]; [done|]. by rewrite (Hc e eq_refl) in Hr. }
  pose proof (create_user s1 (initUser ns name)) as Hu. fold userKey in Hu.
  destruct (srv_step sv s1 _) as [[e|] s2]; cbn -[initSecret initUser initText]; destruct Hu as [Hs2 Hu2]; rewrite Hu1 in Hu2;
    rewrite <- Hs2 in Hs1; [|done].
  pose proof (rollback_secret s2 (secrets s) (initSecret id ns name) Hs1 eq_refl) as Hd.
  destruct (srv_step sv s2 _) as [a s3]; cbn -[initSecret initUser initText]. destruct Hd as [Hu3 Hs3]. rewrite <- Hu3 in Hu2. split_and!.
  - destruct Hs3 as [|[_ ?]]; by auto.
  - destruct Hu2 as [|[_ ?]]; by auto.
  - rewrite !Forall_cons. intros (_ & Hc & Ha & _). cbn -[initSecret initUser] in Ha, Hc. split.
    + destruct Hs3 as [|[[? Hsome] _]]; [done|]. by rewrite Ha in Hsome.
    + destruct Hu2 as [|[Hr _]]; [done|]. by rewrite (Hc e eq_refl) in Hr.
Qed.

(** C19. Provisioning a user, while no one else writes these objects: when `user
    init` succeeds it has added exactly the Secret <name>-auth with the printed
    UUID and the User that refers to it, both under keys that were free.  When it
    fails, no existing object was changed or removed: the Secrets are as before or
    have the new one in addition, and so do the Users; and both are as before
    whenever the errors were rejections (after which nothing is stored) and the
    deletion that undoes the Secret succeeded.  After an error that leaves open
    whether the object was stored, such as a timeout, either may remain. *)
Theorem init_atomic s : initOutcome s (initRun s).1 (initRun s).2.
Proof. apply initRun_outcome. Qed.
End init.

(** ** Downloads of the new user *)

(** What the cache has caught up with: a successful read returns what is stored. *)
Definition current (S : gmap NamespacedName Secret) (U : gmap NamespacedName User) (e : event) : Prop :=
  match e with
  | Ev c a => match c return answer c → Prop with
              | Get KSecret key => λ a, ∀ secret, a = inr secret → S !! key = Some secret
              | List KUser (InNamespace ns) => λ a, ∀ l, a = inr l → ∀ user, user ∈ l ↔ U !! keyOf user = Some user ∧ GetNamespace user = ns
              | _ => λ _, True
              end a
  end.

Section download.
Context `{MapRange, GoStd, LabelSelectors} (sv : server) `{!ObjectStore sv} (id ns name : string).

(** The user that a request for [id] is matched to, in a store that holds the
    objects of `user init` and no other user of the namespace with this UUID. *)
Lemma firstMatch_initUser S S' U U' tr l m :
  newSecret id ns name S S' → newUser ns name U U' → Forall (current S' U') tr →
  (∀ u, U !! keyOf u = Some u → GetNamespace u = ns →
     authKey u ≠ secretKey id ns name ∧ ∀ secret, S !! authKey u = Some secret → strings_EqualFold (secretUUID secret) id = false) →
  Ev (List KUser (InNamespace ns)) (inr l) ∈ tr → firstMatch tr id l m →
  (∃ user, storedUser (initUser ns name) user ∧ U' !! userKey ns name = Some user ∧ m = Some (user, {| uc_UUID := id |})) ∨
  (m = None ∧ ∃ err, Ev (Get KSecret (secretKey id ns name)) (inl err) ∈ tr).
Proof.
  intros (_ & secret0 & (_ & Hdata & _) & HS) (_ & user0 & [Hkey Hspec] & HU) Hok Hother Hl Hm. rewrite Forall_forall in Hok.
  pose proof (Hok _ Hl l eq_refl) as Husers.
  assert (GetNamespace user0 = ns) as Hns0 by exact (f_equal nn_Namespace Hkey).
  assert (authKey user0 = secretKey id ns name) as Hauth.
  { unfold authKey. rewrite Hspec, Hns0. unfold secretKey, keyOf, GetNamespace, GetName. simpl. by case_bool_decide; subst. }
  assert (secretUUID secret0 = id) as Huuid.
  { unfold secretUUID, map_index. rewrite Hdata. cbn [initSecret Data]. by rewrite lookup_singleton_eq. }
  destruct m as [[u c]|]; simpl in Hm.
  - left. destruct Hm as (pre & post & -> & _ & (secret & Hread & -> & Heq)).
    apply Hok in Hread. specialize (Hread secret eq_refl). destruct (proj1 (Husers u)) as [Hu Hns]; [set_solver|].
    rewrite HU in Hu. apply lookup_insert_Some in Hu as [[_ <-]|[_ Hu]].
    + rewrite Hauth, HS, lookup_insert_eq in Hread. injection Hread as <-. exists user0. rewrite Huuid. split_and!; [done| |done].
      by rewrite HU, lookup_insert_eq.
    + destruct (Hother u Hu Hns) as [Hne Hdiff]. rewrite HS, lookup_insert_ne in Hread by done. apply Hdiff in Hread. congruence.
  - right. split; [done|]. rewrite Forall_forall in Hm. destruct (Hm user0) as (r & Hr & Hdiff).
    { apply Husers. split; [|done]. rewrite HU. unfold userKey. rewrite <- Hkey. apply lookup_insert_eq. }
    rewrite Hauth in Hr. destruct r as [err|secret]; [by exists err|]. exfalso. pose proof (Hok _ Hr secret eq_refl) as Hst.
    rewrite HS, lookup_insert_eq in Hst. injection Hst as <-. specialize (Hdiff _ eq_refl). rewrite Huuid in Hdiff.
    unfold strings_EqualFold in Hdiff. by rewrite bool_decide_true in Hdiff.
Qed.

(** C18. The printed UUID works: after a successful `user init`, in a namespace
    where no other user has the UUID, consider a request for it, to an endpoint
    whose successful reads return what is stored (its cache has caught up), while
    any of its reads may fail.  It is answered 500 when the listing of the users
    failed, 404 only when the read of the new user's Secret failed, and otherwise
    for the new user with that UUID: 500 when a read that the answer depends on
    failed or the configuration could not be built or merged, and else the
    configuration built for this user. *)
Theorem init_then_download s sv' s' srv path :
  uuidMatch id = true → requestParts path = Some (ns, id) →
  (∀ u, users s !! keyOf u = Some u → GetNamespace u = ns →
     authKey u ≠ secretKey id ns name ∧ ∀ secret, secrets s !! authKey u = Some secret → strings_EqualFold (secretUUID secret) id = false) →
  (initRun sv id ns name s).1 = inr (initText id ns name) →
  let after := (initRun sv id ns name s).2 in
  let tr := trace sv' s' (handleClientConfig srv path) in
  let resp := result sv' s' (handleClientConfig srv path) in
  Forall (current (secrets after) (users after)) tr →
  (∃ err, Ev (List KUser (InNamespace ns)) (inl err) ∈ tr ∧ resp = writeInternalError) ∨
  (resp = http_NotFound ∧ ∃ err, Ev (Get KSecret (secretKey id ns name)) (inl err) ∈ tr) ∨
  ∃ user, storedUser (initUser ns name) user ∧ users after !! userKey ns name = Some user ∧
    (readFailed tr ns user resp ∨ ∃ input, inputRead tr ns user {| uc_UUID := id |} input ∧ builtResponse srv tr input resp).
Proof.
  intros Huuid Hpath Hother Hrun after tr resp Hcur. pose proof (initRun_outcome sv id ns name s) as Hout. rewrite Hrun in Hout.
  destruct Hout as (_ & Hs & Hu). pose proof (wp_run _ _ sv' s' (wp_handleClientConfig srv path)) as Ho.
  fold tr resp in Ho. unfold requestOutcome in Ho. rewrite Hpath, Huuid in Ho. cbn [negb] in Ho.
  destruct Ho as [?|(l & m & Hl & Hm & Hresp)]; [by left|]. right.
  destruct (firstMatch_initUser _ _ _ _ _ _ _ Hs Hu Hcur Hother Hl Hm) as [(user & Hst & Hin & ->)|[-> Herr]]; [right; eauto|by left].
Qed.
End download.

(** ** node add *)
Lemma parseRoles_inr `{GoStd} roles parsed :
  parseRoles roles = inr parsed → parsed = roles ∧ Forall (λ r, r = ProxyRoleInbound ∨ r = ProxyRoleOutbound) roles.
Proof.
  revert parsed. induction roles as [|r roles IH]; intros parsed; cbn [parseRoles]; [by intros [= <-]|].
  destruct (slices_Contains [ProxyRoleInbound; ProxyRoleOutbound] r) eqn:Hr; cbn [negb]; [|done]. apply slices_Contains_true in Hr.
  destruct (parseRoles roles) as [|rest]; simpl; [done|]. intros [= <-]. destruct (IH rest eq_refl) as [-> ?]. split; [done|].
  constructor; [set_solver|done].
Qed.

(** Admission of nodes made by `node add`: the webhook accepts the node that
    the command asks to create exactly when the roles are not empty, the address
    and the relay port pass and, since the command declares no protocol, the
    inbound role is not among the roles. *)
Theorem node_add_admission `{GoStd} sv s w f name node a :
  (node, a) ∈ omap (ev_create KSingBoxNode) (trace sv s (addCmd true f name)) →
  (validateSingBoxNode w node = [] ↔
  fl_roles f ≠ [] ∧ (ProxyRoleInbound ∉ fl_roles f) ∧
  (fl_address f ≠ "" ∧ (net_ParseIP (fl_address f) = true ∨ String.length (fl_address f) ≤ 253 ∧ has_char " "%char (fl_address f) = false)) ∧
  (fl_relayPort f = 0%Z ∨ inNodePortRange w (fl_relayPort f) = false)).
Proof.
  unfold trace, addCmd. destruct (parseRoles (fl_roles f)) as [e|roles] eqn:Hroles; [by intros ?%elem_of_nil|].
  apply parseRoles_inr in Hroles as [-> Hroles]. intros Hin.
  assert (node = addedNode f name (fl_roles f)) as ->.
  { simpl in Hin. destruct (srv_step sv s _) as [[e|] s1]; simpl in Hin;
      apply list_elem_of_singleton in Hin; congruence. }
  rewrite validateSingBoxNode_nil. split.
  - intros [Ha _ _ Hrel [Hne _] _ _ Hin']. split_and!; try done; try apply Ha.
    intros Hi. destruct (Hin' Hi) as (_ & p & Hp & _). by apply elem_of_nil in Hp.
  - intros (Hne & Hni & Ha & Hrel). split; try done; repeat split; try constructor; done.
Qed.

(** ** A store of users and secrets *)
Record store := { st_secrets : gmap NamespacedName Secret; st_users : gmap NamespacedName User }.

Definition with_generation (g : Z) (m : ObjectMeta) : ObjectMeta :=
  {| om_Name := om_Name m; om_Namespace := om_Namespace m; om_Labels := om_Labels m; om_Annotations := om_Annotations m;
     om_Generation := g; om_Finalizers := om_Finalizers m; om_DeletionTimestamp := om_DeletionTimestamp m;
     om_OwnerReferences := om_OwnerReferences m |}.

(** The server counts generations. *)
Definition keepSecret (o : Secret) : Secret := {| secret_meta := with_generation 1 (secret_meta o); Data := Data o |}.
Definition keepUser (o : User) : User := {| user_meta := with_generation 1 (user_meta o); user_spec := user_spec o; user_status := user_status o |}.

Definition timeout : error := Errorf "timeout".
Definition alreadyExists : error := Errorf "already exists".

(** Other objects are answered from the sample cluster of the client
    configuration.  With [slow] the server stores a User but answers too late. *)
Definition store_step (slow : bool) (s : store) (c : call) : answer c * store :=
  match c return answer c * store with
  | Create k o =>
    match k return obj k → option error * store with
    | KSecret => λ o, if bool_decide (st_secrets s !! keyOf o = None)
                      then (None, {| st_secrets := <[keyOf o := keepSecret o]> (st_secrets s); st_users := st_users s |})
                      else (Some alreadyExists, s)
    | KUser => λ o, if bool_decide (st_users s !! keyOf o = None)
                    then (if slow then Some timeout else None, {| st_secrets := st_secrets s; st_users := <[keyOf o := keepUser o]> (st_users s) |})
                    else (Some alreadyExists, s)
    | _ => λ _, (None, s)
    end o
  | Delete k o =>
    match k return obj k → option error * store with
    | KSecret => λ o, (None, {| st_secrets := delete (keyOf o) (st_secrets s); st_users := st_users s |})
    | _ => λ _, (None, s)
    end o
  | Get k key =>
    match k return answer (Get k key) * store with
    | KSecret => (match st_secrets s !! key with Some o => inr o | None => inl notFound end, s)
    | k => (client_answer (Get k key), s)
    end
  | List k opt =>
    match k, opt return answer (List k opt) * store with
    | KUser, InNamespace ns =>
      (inr ((filter (λ kv, keyOf kv.2 = kv.1 ∧ GetNamespace kv.2 = ns) (map_to_list (st_users s))).*2), s)
    | k, opt => (client_answer (List k opt), s)
    end
  | c => (client_answer c, s)
  end.

Definition slow_server (slow : bool) : server := {| srv_state := store; srv_step := store_step slow |}.
Definition store_server : server := slow_server false.

#[export] Program Instance slow_server_ok slow : ObjectStore (slow_server slow) :=
  {| secrets (s : srv_state (slow_server slow)) := st_secrets s; users (s : srv_state (slow_server slow)) := st_users s;
     rejected e := Error e ==? "already exists" |}.
Next Obligation. intros slow s o. simpl. case_bool_decide; simpl; split; try done; [|by left]. split; [done|]. eexists. by split; [|reflexivity]. Qed.
Next Obligation.
  intros slow s o. simpl. case_bool_decide; simpl; split; try done; [|by left]. destruct slow; [right; split; [done|]|]; (split; [done|]); eexists; by split; [|reflexivity].
Qed.
Next Obligation. intros slow s o. split; [done|]. by left. Qed.

(** Reads of the store return what it holds. *)
Lemma store_current {A} (p : prog A) ns s :
  emits (readsOnly ns) p → Forall (current (st_secrets s) (st_users s)) (trace store_server s p).
Proof.
  unfold trace. induction p as [a|c f IH]; simpl; [constructor|]. intros [Hc Hf].
  assert ((store_step false s c).2 = s ∧ current (st_secrets s) (st_users s) (Ev c (store_step false s c).1)) as [Hs Hok].
  { destruct c as [k key|k opt| | | | | | | | | | | ]; try done; [destruct k; try done|destruct k, opt; try done]; (split; [done|]).
    - simpl. destruct (st_secrets s !! key); naive_solver.
    - intros l [= <-] user. rewrite list_elem_of_fmap. split.
      + intros ([k u] & -> & ([Hk Hns] & Hin%elem_of_map_to_list)%list_elem_of_filter). simpl in *. by subst k.
      + intros [Hu Hns]. exists (keyOf user, user). split; [done|]. apply list_elem_of_filter. split; [done|]. by apply elem_of_map_to_list. }
  destruct (store_step false s c) as [r s1]. simpl in *. subst s1. specialize (IH r (Hf r)).
  destruct (exec store_server s (f r)) as [[tr a] s2]. by constructor.
Qed.

Definition empty_store : store := {| st_secrets := ∅; st_users := ∅ |}.

(** A refused user leaves no Secret behind; the second `init` of a name changes nothing. *)
Lemma init_atomic_witness :
  let s := (initRun store_server sample_uuid "proxy" "bob" empty_store).2 in
  initOutcome store_server sample_uuid "proxy" "bob" empty_store (inr (initText sample_uuid "proxy" "bob")) s ∧
  (initRun store_server "other" "proxy" "bob" s).2 = s.
Proof.
  cbv zeta. split; [exact (init_atomic store_server sample_uuid "proxy" "bob" empty_store)|]. vm_compute. reflexivity.
Defined.

(** A timeout of the second call: the command fails, the User is there, and its Secret was deleted. *)
Lemma init_timeout :
  let '(res, s) := initRun (slow_server true) sample_uuid "proxy" "bob" empty_store in
  res = inl (wrapErr "creating user: " timeout) ∧
  st_users s !! userKey "proxy" "bob" = Some (keepUser (initUser "proxy" "bob")) ∧ st_secrets s = ∅.
Proof. vm_compute. done. Qed.

Lemma init_then_download_witness :
  ∃ body, resp_Status (result store_server (initRun store_server sample_uuid "proxy" "bob" empty_store).2 (handleClientConfig client_srv client_path)) = StatusOK ∧
    result store_server (initRun store_server sample_uuid "proxy" "bob" empty_store).2 (handleClientConfig client_srv client_path) = okResponse body.
Proof.
  set (s := (initRun store_server sample_uuid "proxy" "bob" empty_store).2).
  assert (resp_Status (result store_server s (handleClientConfig client_srv client_path)) = StatusOK) as Hst by (vm_compute; reflexivity).
  assert (∀ r, resp_Status r ≠ StatusOK → result store_server s (handleClientConfig client_srv client_path) ≠ r) as Hne by (intros r Hr <-; exact (Hr Hst)).
  destruct (init_then_download store_server sample_uuid "proxy" "bob" empty_store store_server s client_srv client_path)
    as [(err & _ & H)|[[H _]|(user & _ & _ & [[(k & err & _ & _ & H)|(_ & err & _ & _ & H)]|(input & _ & H)])]].
  - vm_compute. reflexivity.
  - vm_compute. reflexivity.
  - intros u Hu. discriminate Hu.
  - vm_compute. reflexivity.
  - refine (store_current (handleClientConfig client_srv client_path) "proxy" s _).
    refine (handleClientConfig_emits client_srv client_path "proxy" sample_uuid _). vm_compute. reflexivity.
  - exfalso; revert H; apply Hne; vm_compute; discriminate.
  - exfalso; revert H; apply Hne; vm_compute; discriminate.
  - exfalso; revert H; apply Hne; vm_compute; discriminate.
  - exfalso; revert H; apply Hne; vm_compute; discriminate.
  - unfold builtResponse in H. destruct (BuildClientConfig input) as [|out]; [exfalso; revert H; apply Hne; vm_compute; discriminate|].
    destruct H as (t & _ & H). destruct (MergeClientConfig t out input) as [|body]; [exfalso; revert H; apply Hne; vm_compute; discriminate|].
    exists body. exact (conj Hst H).
Defined.

Definition default_add : addFlags :=
  {| fl_nodeRef := "host1"; fl_address := "198.51.100.7"; fl_region := "hk"; fl_roles := defaultRoles; fl_relayPort := 0; fl_namespace := defaultNamespace |}.

(** With its default roles the command only ever makes nodes that are refused. *)
Lemma node_add_admission_witness :
  validateSingBoxNode {| NodePortRangeMin := 30000; NodePortRangeMax := 32767 |} (addedNode default_add "n" defaultRoles) ≠ [].
Proof.
  rewrite (node_add_admission store_server empty_store _ default_add "n" (addedNode default_add "n" defaultRoles) None);
    [|vm_compute; left]. intros (_ & Hin & _). apply Hin. left.
Defined.
