(* ===== verification/UsageCollector.v ===== *)
(** * UsageCollector: internal/usagecollector

    Traffic records (model.go), counter names (v2rayclient.go, discovery.go), the
    configuration check (config.go), target discovery (discovery.go), the poll
    cycle and its lock (collector.go), and the evaluation of a bulk response
    (elasticsearch.go). *)

From S2P Require Import Prelude GoStrings Crypto Json Api Engine K8s NodeController.
From Stdlib Require Import Ascii.

(** ** Records (model.go) *)

(** Instants are nanoseconds since the epoch (time.Time.UnixNano). *)
Record UsageRecord := {
  ur_Timestamp : Z;
  ur_User : string;
  ur_InboundNode : string;
  ur_Node : string;
  ur_UplinkBytes : Z;
  ur_DownlinkBytes : Z;
  ur_CollectedAt : Z;
}.

Definition nul : string := String "000"%char "".

Definition ValidateRecord (r : UsageRecord) : option string :=
  if ur_User r ==? "" then Some "usage record: user field is required"
  else if ur_Node r ==? "" then Some "usage record: node field is required"
  else None.

(** The text that DocumentKey hashes. *)
Definition documentText (r : UsageRecord) : string :=
  ur_User r +:+ nul +:+ ur_InboundNode r +:+ nul +:+ ur_Node r +:+ nul +:+ fmt_d (ur_CollectedAt r).

Definition DocumentKey (r : UsageRecord) : string := hex_encode (sha256_Sum256 (bytes_of_string (documentText r))).

(** ** Configuration (config.go) *)

(** Durations are nanoseconds. *)
Record CollectorConfig := {
  cfg_Enabled : bool;
  cfg_PollInterval : Z;
  cfg_NodeTimeout : Z;
  cfg_ESEndpoint : string;
  cfg_ESAPIKey : string;
  cfg_ESDataStream : string;
  cfg_MaxBufferSize : Z;
  cfg_ShutdownTimeout : Z;
}.

Definition DefaultCollectorConfig : CollectorConfig :=
  {| cfg_Enabled := false; cfg_PollInterval := 30 * 10 ^ 9; cfg_NodeTimeout := 10 * 10 ^ 9; cfg_ESEndpoint := "";
     cfg_ESAPIKey := ""; cfg_ESDataStream := ""; cfg_MaxBufferSize := 10000; cfg_ShutdownTimeout := 30 * 10 ^ 9 |}.

(** The errors of Validate, with the value that the message reports. *)
Inductive ConfigError :=
  | PollIntervalNotPositive (d : Z)
  | NodeTimeoutNotPositive (d : Z)
  | MaxBufferSizeNotPositive (n : Z)
  | ShutdownTimeoutNotPositive (d : Z)
  | ESEndpointRequired
  | ESDataStreamRequired.

Definition CollectorConfig_Validate (c : CollectorConfig) : option ConfigError :=
  if negb (cfg_Enabled c) then None
  else if (cfg_PollInterval c <=? 0)%Z then Some (PollIntervalNotPositive (cfg_PollInterval c))
  else if (cfg_NodeTimeout c <=? 0)%Z then Some (NodeTimeoutNotPositive (cfg_NodeTimeout c))
  else if (cfg_MaxBufferSize c <=? 0)%Z then Some (MaxBufferSizeNotPositive (cfg_MaxBufferSize c))
  else if (cfg_ShutdownTimeout c <=? 0)%Z then Some (ShutdownTimeoutNotPositive (cfg_ShutdownTimeout c))
  else if cfg_ESEndpoint c ==? "" then Some ESEndpointRequired
  else if cfg_ESDataStream c ==? "" then Some ESDataStreamRequired
  else None.

(** ** Counter names (v2rayclient.go, discovery.go) *)
Record RawStatEntry := { se_Name : string; se_Value : Z }.

(** (user, node, direction), or [None] for [ok == false] *)
Definition ParseUserCounterName (name : string) : option (string * string * string) :=
  match strip_prefix "user>>>" name with
  | None => None
  | Some rest =>
    match strings_Split rest ">>>" with
    | [virtualUser; traffic; direction] =>
      if virtualUser ==? "" then None
      else if traffic !=? "traffic" then None
      else if (direction !=? "uplink") && (direction !=? "downlink") then None
      else match strings_Cut virtualUser "#" with
           | None => Some (virtualUser, "", direction)
           | Some (before, after) => Some (before, after, direction)
           end
    | _ => None
    end
  end.

Definition normalizeCounterName (counter : string) : option (string * string * string) :=
  match strings_Split counter ">>>" with
  | [user; virtualUser; traffic; direction] =>
    if user !=? "user" then None
    else if traffic !=? "traffic" then None
    else match strings_CutLast virtualUser "#" with
         | None => None
         | Some (userName, nodeName) =>
           if (userName ==? "") || (nodeName ==? "") then None
           else if (direction !=? "uplink") && (direction !=? "downlink") then None
           else Some (userName, nodeName, direction)
         end
  | _ => None
  end.

Definition NormalizeCounterToRecord (counterName : string) (delta collectedAt : Z) : option UsageRecord :=
  match normalizeCounterName counterName with
  | None => None
  | Some (user, node, direction) =>
    Some {| ur_Timestamp := collectedAt; ur_User := user; ur_InboundNode := ""; ur_Node := node;
            ur_UplinkBytes := if direction ==? "uplink" then delta else 0%Z;
            ur_DownlinkBytes := if direction ==? "uplink" then 0%Z else delta; ur_CollectedAt := collectedAt |}
  end.

(** ** Discovery (discovery.go) *)
Record CollectTarget := { tg_NodeName : string; tg_V2RayAPIAddr : string; tg_VirtualUsers : list string }.

Definition regionOrDefault (region : string) : string := if region ==? "" then "default" else region.

(** [if m[k] == nil { m[k] = make(...) }; m[k][name] = true] *)
Definition addRoute (inbound name : string) (m : gmap string (gmap string bool)) : gmap string (gmap string bool) :=
  <[inbound := <[name := true]> (map_index ∅ m inbound)]> m.

Definition outboundByRegion (nodes : list SingBoxNode) : gmap string (list string) :=
  foldl (λ m n,
    if hasRole n ProxyRoleOutbound then
      let region := regionOrDefault (ns_Region (node_spec n)) in
      <[region := map_index [] m region ++ [GetName n]]> m
    else m) ∅ nodes.

(** The address of a running pod of the node, or the node's own address. *)
Definition resolveV2RayAPIAddr (node : SingBoxNode) : prog string :=
  pods ← do (List KPod (InNamespaceMatchingLabels (GetNamespace node) {["app" := "singbox"; "singboxnode" := GetName node]}));
  let fallback := ns_Address (node_spec node) +:+ ":10085" in
  match pods with
  | inl _ => Ret fallback
  | inr pods =>
    match list_find (λ p, Phase (pod_status p) = "Running" ∧ PodIP (pod_status p) ≠ "") (pods : list Pod) with
    | Some (_, p) => Ret (PodIP (pod_status p) +:+ ":10085")
    | None => Ret fallback
    end
  end.

Section discovery.
Context `{MapRange, LabelSelectors}.

Definition routesByInbound (policies : list EgressPolicy) (inboundNodes nodes : list SingBoxNode)
    : gmap string (gmap string bool) :=
  foldl (λ m policy,
    if ps_Action (policy_spec policy) !=? EgressPolicyActionRoute then m
    else foldl (λ m inbound,
      if negb (EgressPolicySelector_Matches (ps_IngressSelector (policy_spec policy)) inbound) then m
      else foldl (λ m egress,
        if hasRole egress ProxyRoleOutbound && EgressPolicySelector_Matches (ps_EgressSelector (policy_spec policy)) egress
        then addRoute (GetName inbound) (GetName egress) m else m) m nodes) m inboundNodes) ∅ policies.

(** The exit targets of an inbound node, sorted. *)
Definition collectOutbounds (routes : gmap string (gmap string bool)) (byRegion : gmap string (list string))
    (inbound : SingBoxNode) : list string :=
  let names := foldl (λ m kv, <[kv.1 := true]> m) ∅ (range (map_index ∅ routes (GetName inbound))) in
  let names := foldl (λ m name, <[name := true]> m) names
                 (map_index [] byRegion (regionOrDefault (ns_Region (node_spec inbound)))) in
  sort_strings (range (names : gmap string bool)).*1.

Definition virtualUsers (users : list User) (outbounds : list string) : list string :=
  sort_strings (user ← users; map (virtualUserName (GetName user)) outbounds).

Definition K8sDiscoverer_Discover (namespace : string) : prog (error + list CollectTarget) :=
  allNodes ← do (List KSingBoxNode (InNamespace namespace));
  match allNodes with
  | inl err => Ret (inl (wrapErr "listing SingBoxNodes: " err))
  | inr allNodes =>
    let nodes : list SingBoxNode := sort_by (less_on GetName) allNodes in
    let inboundNodes := filter (λ n, hasRole n ProxyRoleInbound = true) nodes in
    if bool_decide (length inboundNodes = 0) then Ret (inr [])
    else
      allPolicies ← do (List KEgressPolicy (InNamespace namespace));
      match allPolicies with
      | inl err => Ret (inl (wrapErr "listing EgressPolicies: " err))
      | inr allPolicies =>
        let routes := routesByInbound allPolicies inboundNodes nodes in
        let byRegion := outboundByRegion nodes in
        allUsers ← do (List KUser (InNamespace namespace));
        match allUsers with
        | inl err => Ret (inl (wrapErr "listing Users: " err))
        | inr allUsers =>
          let users : list User := sort_by (less_on GetName) allUsers in
          targets ← foldM (λ targets inbound,
            addr ← resolveV2RayAPIAddr inbound;
            Ret (targets ++ [{| tg_NodeName := GetName inbound; tg_V2RayAPIAddr := addr;
                                tg_VirtualUsers := virtualUsers users (collectOutbounds routes byRegion inbound) |}]))
            [] inboundNodes;
          Ret (inr targets)
        end
      end
  end.
End discovery.

(** ** The poll cycle (collector.go) *)

(** [x += y] on int64 *)
Definition wrap64 (x : Z) : Z := ((x + 2 ^ 63) mod 2 ^ 64 - 2 ^ 63)%Z.

Definition recordKey (inbound user node : string) : string := inbound +:+ nul +:+ user +:+ nul +:+ node.

Definition newRecord (collectedAt : Z) (inbound user node : string) : UsageRecord :=
  {| ur_Timestamp := collectedAt; ur_User := user; ur_InboundNode := inbound; ur_Node := node;
     ur_UplinkBytes := 0; ur_DownlinkBytes := 0; ur_CollectedAt := collectedAt |}.

Definition addBytes (direction : string) (value : Z) (r : UsageRecord) : UsageRecord :=
  {| ur_Timestamp := ur_Timestamp r; ur_User := ur_User r; ur_InboundNode := ur_InboundNode r; ur_Node := ur_Node r;
     ur_UplinkBytes := if direction ==? "uplink" then wrap64 (ur_UplinkBytes r + value) else ur_UplinkBytes r;
     ur_DownlinkBytes := if direction ==? "uplink" then ur_DownlinkBytes r else wrap64 (ur_DownlinkBytes r + value);
     ur_CollectedAt := ur_CollectedAt r |}.

(** The body of the loop over the entries of a target. *)
Definition addEntry (collectedAt : Z) (inbound : string) (recordIndex : gmap string UsageRecord) (entry : RawStatEntry)
    : gmap string UsageRecord :=
  match ParseUserCounterName (se_Name entry) with
  | None => recordIndex
  | Some (user, node, direction) =>
    if bool_decide (se_Value entry = 0%Z) then recordIndex
    else
      let key := recordKey inbound user node in
      let rec := default (newRecord collectedAt inbound user node) (recordIndex !! key) in
      <[key := addBytes direction (se_Value entry) rec]> recordIndex
  end.

(** The interfaces Discoverer, StatsClient and UsageSink and the clock, over a
    state [St] that their calls may change: a stats query resets the counters. *)
Class Collaborators (St : Type) := {
  Discover : St → (error + list CollectTarget) * St;
  time_Now : St → Z * St;
  QueryUserStats : St → string → (error + list RawStatEntry) * St;
  UsageSink_Write : St → list UsageRecord → option error * St;
}.

Section poll.
Context `{MapRange, Collaborators St}.

(** The body of the loop over the targets. *)
Definition pollTarget (collectedAt : Z) (st : gmap string UsageRecord * St) (tgt : CollectTarget)
    : gmap string UsageRecord * St :=
  match QueryUserStats st.2 (tg_V2RayAPIAddr tgt) with
  | (inl _, s) => (st.1, s)
  | (inr entries, s) => (foldl (addEntry collectedAt (tg_NodeName tgt)) st.1 entries, s)
  end.

(** pollCycle once the lock is held: the batch handed to the sink, if any, the
    sink's error and the new state. *)
Definition pollCycle (s : St) : option (list UsageRecord * option error) * St :=
  match Discover s with
  | (inl _, s) => (None, s)
  | (inr targets, s) =>
    if bool_decide (length targets = 0) then (None, s)
    else
      let '(collectedAt, s) := time_Now s in
      let '(recordIndex, s) := foldl (pollTarget collectedAt) (∅, s) targets in
      let batch := range_values recordIndex in
      if bool_decide (length batch = 0) then (None, s)
      else let '(err, s) := UsageSink_Write s batch in (Some (batch, err), s)
  end.
End poll.

(** ** The lock of pollCycle

    Any number of goroutines may call pollCycle.  Each is at one of the points
    below; a step is one atomic action: the load of inPoll, the acquisition of
    pollMu, the store of true, the body followed by the deferred store of false,
    and the deferred unlock (deferred calls run in reverse order). *)
Module PollLock.
Inductive pc := Idle | Loaded | Acquired | Polling | Finished.

#[export] Instance pc_eq : EqDecision pc.
Proof. solve_decision. Defined.

Record state := { pcs : gmap nat pc; inPoll : bool; pollMu : option nat }.

Definition init : state := {| pcs := ∅; inPoll := false; pollMu := None |}.

Definition pc_of (s : state) (t : nat) : pc := default Idle (pcs s !! t).

(** The next action of goroutine [t], [None] when it is blocked on the mutex. *)
Definition next (s : state) (t : nat) : option state :=
  let at_pc p b m := Some {| pcs := <[t := p]> (pcs s); inPoll := b; pollMu := m |} in
  match pc_of s t with
  | Idle => if inPoll s then Some s else at_pc Loaded (inPoll s) (pollMu s)
  | Loaded => match pollMu s with None => at_pc Acquired (inPoll s) (Some t) | Some _ => None end
  | Acquired => at_pc Polling true (pollMu s)
  | Polling => at_pc Finished false (pollMu s)
  | Finished => at_pc Idle (inPoll s) None
  end.

Inductive step (s : state) : state → Prop :=
  | step_next t s' : next s t = Some s' → step s s'.

Definition reachable : state → Prop := rtc step init.
End PollLock.

(** ** Bulk responses (elasticsearch.go) *)
Record bulkItemCreate := { bi_ID : string; bi_Status : Z; bi_Error : option (string * string) }.
Record bulkResponse := { br_Errors : bool; br_Items : list bulkItemCreate }.
Record BulkPartialFailureError := { bf_Succeeded : Z; bf_Failed : Z; bf_FailedIDs : list string }.

Definition itemOk (item : bulkItemCreate) : bool := (bi_Status item =? 201)%Z || (bi_Status item =? 409)%Z.

(** [None] is a nil error. *)
Definition evaluateBulkResponse (resp : bulkResponse) : option BulkPartialFailureError :=
  let '(succeeded, failed, failedIDs) :=
    foldl (λ '(succeeded, failed, ids) item,
      if itemOk item then (succeeded + 1, failed, ids)%Z
      else ((succeeded, failed + 1)%Z, if bi_ID item !=? "" then ids ++ [bi_ID item] else ids))
      (0%Z, 0%Z, []) (br_Items resp) in
  if (failed =? 0)%Z then None
  else Some {| bf_Succeeded := succeeded; bf_Failed := failed; bf_FailedIDs := failedIDs |}.
