(* ===== verification/StatsGrpc.v ===== *)
(** * StatsGrpc: the stats service of the nodes

    internal/usagecollector/v2rayapi: the messages (stats.pb.go), and the
    hand-written client stubs, handlers and service descriptor (stats_grpc.go).
    The gRPC runtime and the protobuf encoding are parameters.  The theorem is
    that a client stub calls the method of the same name of the server that is
    registered at the other end: the path constants, the descriptor and the
    handlers fit together. *)

From S2P Require Import Prelude GoStrings K8s.
From Stdlib Require Import Ascii.

(** ** Messages (stats.pb.go) *)
Record GetStatsRequest := { gr_Name : string; gr_Reset : bool }.
Record Stat := { stat_Name : string; stat_Value : Z }.
Record GetStatsResponse := { gp_Stat : option Stat }.
Record QueryStatsRequest := { qs_Pattern : string; qs_Reset : bool; qs_Patterns : list string; qs_Regexp : bool }.
Record QueryStatsResponse := { qp_Stat : list Stat }.
Record SysStatsRequest := {}.
Record SysStatsResponse := {
  ss_NumGoroutine : Z; ss_NumGC : Z; ss_Alloc : Z; ss_TotalAlloc : Z; ss_Sys : Z; ss_Mallocs : Z; ss_Frees : Z;
  ss_LiveObjects : Z; ss_PauseTotalNs : Z; ss_Uptime : Z
}.

Inductive message :=
  | MGetStatsRequest | MGetStatsResponse | MQueryStatsRequest | MQueryStatsResponse | MSysStatsRequest | MSysStatsResponse.

Definition msg (t : message) : Type :=
  match t with
  | MGetStatsRequest => GetStatsRequest | MGetStatsResponse => GetStatsResponse
  | MQueryStatsRequest => QueryStatsRequest | MQueryStatsResponse => QueryStatsResponse
  | MSysStatsRequest => SysStatsRequest | MSysStatsResponse => SysStatsResponse
  end.

(** google.golang.org/protobuf: what can be encoded is decoded again. *)
Class Protobuf := {
  proto_Marshal : ∀ t, msg t → error + string;
  proto_Unmarshal : ∀ t, string → error + msg t;
  proto_lossless : ∀ t m b, proto_Marshal t m = inr b → proto_Unmarshal t b = inr m;
}.

(** ** The server side (stats_grpc.go) *)
Record StatsServiceServer (St : Type) := {
  srv_GetStats : St → GetStatsRequest → (error + GetStatsResponse) * St;
  srv_QueryStats : St → QueryStatsRequest → (error + QueryStatsResponse) * St;
  srv_GetSysStats : St → SysStatsRequest → (error + SysStatsResponse) * St;
}.
Arguments srv_GetStats {St} _.
Arguments srv_QueryStats {St} _.
Arguments srv_GetSysStats {St} _.

(** status.Error(codes.Unimplemented, ...) *)
Definition Unimplemented (text : string) : error := Errorf ("rpc error: code = Unimplemented desc = " +:+ text).

Definition UnimplementedStatsServiceServer {St} : StatsServiceServer St := {|
  srv_GetStats s _ := (inl (Unimplemented "method GetStats not implemented"), s);
  srv_QueryStats s _ := (inl (Unimplemented "method QueryStats not implemented"), s);
  srv_GetSysStats s _ := (inl (Unimplemented "method GetSysStats not implemented"), s);
|}.

Definition anyMsg : Type := {t : message & msg t}.

(** A handler: the server, its state and the decoder of the request, [func(any) error]. *)
Definition Handler (St : Type) : Type := StatsServiceServer St → St → (∀ t, error + msg t) → (error + anyMsg) * St.

Definition respond {St} (t : message) (out : (error + msg t) * St) : (error + anyMsg) * St :=
  (match out.1 with inl err => inl err | inr m => inr (existT t m) end, out.2).

Definition handlerGetStats {St} : Handler St := λ srv s dec,
  match dec MGetStatsRequest with
  | inl err => (inl err, s)
  | inr req => respond MGetStatsResponse (srv_GetStats srv s req)
  end.

Definition handlerQueryStats {St} : Handler St := λ srv s dec,
  match dec MQueryStatsRequest with
  | inl err => (inl err, s)
  | inr req => respond MQueryStatsResponse (srv_QueryStats srv s req)
  end.

Definition handlerGetSysStats {St} : Handler St := λ srv s dec,
  match dec MSysStatsRequest with
  | inl err => (inl err, s)
  | inr req => respond MSysStatsResponse (srv_GetSysStats srv s req)
  end.

Record ServiceDesc (St : Type) := { sd_ServiceName : string; sd_Methods : list (string * Handler St) }.
Arguments sd_ServiceName {St} _.
Arguments sd_Methods {St} _.

Definition StatsService_ServiceDesc {St} : ServiceDesc St := {|
  sd_ServiceName := "v2ray.core.app.stats.command.StatsService";
  sd_Methods := [("GetStats", handlerGetStats); ("QueryStats", handlerQueryStats); ("GetSysStats", handlerGetSysStats)];
|}.

(** The path of a method on the wire. *)
Definition fullMethod (service method : string) : string := "/" +:+ service +:+ "/" +:+ method.

(** ** The client side *)

(** google.golang.org/grpc over a state: dialling an address, a unary call of a
    method, each with the timeout it runs under, and closing the connection. *)
Class StatsNetwork (St Conn : Type) := {
  grpc_DialContext : St → string → Z → (error + Conn) * St;
  grpc_Invoke : St → Conn → Z → string → ∀ tin, msg tin → ∀ tout, (error + msg tout) * St;
  conn_Close : St → Conn → St;
}.

Definition statsServiceGetStatsFullMethod : string := "/v2ray.core.app.stats.command.StatsService/GetStats".
Definition statsServiceQueryStatsFullMethod : string := "/v2ray.core.app.stats.command.StatsService/QueryStats".
Definition statsServiceGetSysStatsFullMethod : string := "/v2ray.core.app.stats.command.StatsService/GetSysStats".

Section client.
Context `{StatsNetwork St Conn}.

(** statsServiceClient: a client is its connection. *)
Definition statsServiceClient_GetStats (s : St) (cc : Conn) (timeout : Z) (req : GetStatsRequest) : (error + GetStatsResponse) * St :=
  match grpc_Invoke s cc timeout statsServiceGetStatsFullMethod MGetStatsRequest req MGetStatsResponse with
  | (inl err, s) => (inl err, s)
  | (inr out, s) => (inr out, s)
  end.

Definition statsServiceClient_QueryStats (s : St) (cc : Conn) (timeout : Z) (req : QueryStatsRequest) : (error + QueryStatsResponse) * St :=
  match grpc_Invoke s cc timeout statsServiceQueryStatsFullMethod MQueryStatsRequest req MQueryStatsResponse with
  | (inl err, s) => (inl err, s)
  | (inr out, s) => (inr out, s)
  end.

Definition statsServiceClient_GetSysStats (s : St) (cc : Conn) (timeout : Z) (req : SysStatsRequest) : (error + SysStatsResponse) * St :=
  match grpc_Invoke s cc timeout statsServiceGetSysStatsFullMethod MSysStatsRequest req MSysStatsResponse with
  | (inl err, s) => (inl err, s)
  | (inr out, s) => (inr out, s)
  end.
End client.

(** ** The two sides together *)

(** What a method's handler makes of the bytes of a request: the encoded response. *)
Definition served `{Protobuf} {St} (h : Handler St) (srv : StatsServiceServer St) (s : St) (body : string) : (error + string) * St :=
  let '(r, s) := h srv s (λ t, proto_Unmarshal t body) in
  (match r with inl err => inl err | inr (existT t m) => proto_Marshal t m end, s).

(** What gRPC documents of a call over a healthy connection: the request is
    encoded, the handler registered for the path runs on its bytes, the response
    is decoded; an error arrives as its status. *)
Class GrpcServing `{Protobuf, StatsNetwork St Conn} := {
  (** the services registered at the other end *)
  peer : Conn → list (ServiceDesc St * StatsServiceServer St);
  healthy : St → Conn → Z → Prop;
  statusError : error → error;
  registrar : Type;
  RegisterService : registrar → ServiceDesc St → StatsServiceServer St → registrar;
  serves : registrar → Conn → Prop;
  register_peer : ∀ reg desc srv conn, serves (RegisterService reg desc srv) conn → (desc, srv) ∈ peer conn;
  invoke_served : ∀ s conn timeout desc srv method h tin req tout body,
    healthy s conn timeout → (desc, srv) ∈ peer conn → (method, h) ∈ sd_Methods desc →
    NoDup (sd_Methods desc).*1 → proto_Marshal tin req = inr body →
    grpc_Invoke s conn timeout (fullMethod (sd_ServiceName desc) method) tin req tout =
      (match (served h srv s body).1 with
       | inl err => inl (statusError err)
       | inr bytes => match proto_Unmarshal tout bytes with inl err => inl (statusError err) | inr out => inr out end
       end, (served h srv s body).2);
}.

Section wire.
Context `{GrpcServing St Conn}.

Definition RegisterStatsServiceServer (reg : registrar) (srv : StatsServiceServer St) : registrar :=
  RegisterService reg StatsService_ServiceDesc srv.

Definition encodable {t} (m : msg t) : Prop := ∃ b, proto_Marshal t m = inr b.

(** [stub] behaves as the server's [method], up to the status of errors, for messages that can be encoded. *)
Definition stub_ok {tin tout} (stub : St → msg tin → (error + msg tout) * St) (method : St → msg tin → (error + msg tout) * St) (s : St) : Prop :=
  ∀ req : msg tin, encodable req → (∀ out, (method s req).1 = inr out → encodable out) →
    stub s req = (match (method s req).1 with inl err => inl (statusError err) | inr out => inr out end, (method s req).2).

(** The paths that the client has are those of the descriptor. *)
Lemma fullMethods :
  statsServiceGetStatsFullMethod = fullMethod (sd_ServiceName (@StatsService_ServiceDesc St)) "GetStats" ∧
  statsServiceQueryStatsFullMethod = fullMethod (sd_ServiceName (@StatsService_ServiceDesc St)) "QueryStats" ∧
  statsServiceGetSysStatsFullMethod = fullMethod (sd_ServiceName (@StatsService_ServiceDesc St)) "GetSysStats".
Proof. done. Qed.

(** One method: its handler decodes its request type, calls it and answers with its response type. *)
Lemma stub_served {tin tout} name (h : Handler St) (method : St → msg tin → (error + msg tout) * St) srv s conn timeout :
  healthy s conn timeout → (StatsService_ServiceDesc, srv) ∈ peer conn → (name, h) ∈ sd_Methods (@StatsService_ServiceDesc St) →
  (∀ dec, h srv s dec = match dec tin with inl err => (inl err, s) | inr req => respond tout (method s req) end) →
  stub_ok (λ s req, match grpc_Invoke s conn timeout (fullMethod (sd_ServiceName (@StatsService_ServiceDesc St)) name) tin req tout with
                    | (inl err, s) => (inl err, s) | (inr out, s) => (inr out, s) end) method s.
Proof.
  intros Hup Hpeer Hin Hh req [body Hbody] Henc.
  assert (NoDup (sd_Methods (@StatsService_ServiceDesc St)).*1) as Hnd by (apply (bool_decide_unpack _); by vm_compute).
  rewrite (invoke_served s conn timeout _ srv name h tin req tout body Hup Hpeer Hin Hnd Hbody).
  unfold served. rewrite Hh, (proto_lossless _ _ _ Hbody). unfold respond. destruct (method s req) as [[err|out] s']; cbn [fst snd] in *; [done|].
  destruct (Henc out eq_refl) as [bytes Hbytes]. by rewrite Hbytes, (proto_lossless _ _ _ Hbytes).
Qed.

(** C31. The client and the server side of the stats service fit together: over a
    healthy connection to a server that RegisterStatsServiceServer was called
    with, each of the three client stubs returns what the server's method of that
    name returns for the request, with the server's state after it, and an error
    as its status. *)
Theorem stubs_reach_server reg srv s conn timeout :
  serves (RegisterStatsServiceServer reg srv) conn → healthy s conn timeout →
  stub_ok (tin := MGetStatsRequest) (tout := MGetStatsResponse) (λ s, statsServiceClient_GetStats s conn timeout) (srv_GetStats srv) s ∧
  stub_ok (tin := MQueryStatsRequest) (tout := MQueryStatsResponse) (λ s, statsServiceClient_QueryStats s conn timeout) (srv_QueryStats srv) s ∧
  stub_ok (tin := MSysStatsRequest) (tout := MSysStatsResponse) (λ s, statsServiceClient_GetSysStats s conn timeout) (srv_GetSysStats srv) s.
Proof.
  intros Hserves%register_peer Hup. split_and!.
  - apply (stub_served (tin := MGetStatsRequest) (tout := MGetStatsResponse) "GetStats" handlerGetStats _ srv); [done..|set_solver|done].
  - apply (stub_served (tin := MQueryStatsRequest) (tout := MQueryStatsResponse) "QueryStats" handlerQueryStats _ srv); [done..|set_solver|done].
  - apply (stub_served (tin := MSysStatsRequest) (tout := MSysStatsResponse) "GetSysStats" handlerGetSysStats _ srv); [done..|set_solver|done].
Qed.
End wire.

(** ** A server that counts *)

(** Messages as the bits of their number. *)
Fixpoint bits (p : positive) : string :=
  match p with xH => "" | xO p => "0" +:+ bits p | xI p => "1" +:+ bits p end%positive.

Fixpoint unbits (s : string) : option positive :=
  match s with
  | "" => Some 1%positive
  | String "0"%char s => xO <$> unbits s
  | String "1"%char s => xI <$> unbits s
  | String _ _ => None
  end.

Lemma unbits_bits p : unbits (bits p) = Some p.
Proof. induction p as [p IH|p IH|]; simpl; [by rewrite IH..|done]. Qed.

#[export] Instance GetStatsRequest_eq : EqDecision GetStatsRequest.
Proof. solve_decision. Defined.
#[export] Instance Stat_eq : EqDecision Stat.
Proof. solve_decision. Defined.
#[export] Instance GetStatsResponse_eq : EqDecision GetStatsResponse.
Proof. solve_decision. Defined.
#[export] Instance QueryStatsRequest_eq : EqDecision QueryStatsRequest.
Proof. solve_decision. Defined.
#[export] Instance QueryStatsResponse_eq : EqDecision QueryStatsResponse.
Proof. solve_decision. Defined.
#[export] Instance SysStatsRequest_eq : EqDecision SysStatsRequest.
Proof. solve_decision. Defined.
#[export] Instance SysStatsResponse_eq : EqDecision SysStatsResponse.
Proof. solve_decision. Defined.

#[export] Instance GetStatsRequest_countable : Countable GetStatsRequest.
Proof. refine (inj_countable' (λ m, (gr_Name m, gr_Reset m)) (λ x, {| gr_Name := x.1; gr_Reset := x.2 |}) _). by intros []. Defined.
#[export] Instance Stat_countable : Countable Stat.
Proof. refine (inj_countable' (λ m, (stat_Name m, stat_Value m)) (λ x, {| stat_Name := x.1; stat_Value := x.2 |}) _). by intros []. Defined.
#[export] Instance GetStatsResponse_countable : Countable GetStatsResponse.
Proof. refine (inj_countable' gp_Stat (λ x, {| gp_Stat := x |}) _). by intros []. Defined.
#[export] Instance QueryStatsRequest_countable : Countable QueryStatsRequest.
Proof.
  refine (inj_countable' (λ m, (qs_Pattern m, qs_Reset m, qs_Patterns m, qs_Regexp m))
    (λ x, {| qs_Pattern := x.1.1.1; qs_Reset := x.1.1.2; qs_Patterns := x.1.2; qs_Regexp := x.2 |}) _). by intros [].
Defined.
#[export] Instance QueryStatsResponse_countable : Countable QueryStatsResponse.
Proof. refine (inj_countable' qp_Stat (λ x, {| qp_Stat := x |}) _). by intros []. Defined.
#[export] Instance SysStatsRequest_countable : Countable SysStatsRequest.
Proof. refine (inj_countable' (λ _, tt) (λ _, Build_SysStatsRequest) _). by intros []. Defined.
#[export] Instance SysStatsResponse_countable : Countable SysStatsResponse.
Proof.
  refine (inj_countable' (λ m, (ss_NumGoroutine m, ss_NumGC m, ss_Alloc m, ss_TotalAlloc m, ss_Sys m, ss_Mallocs m, ss_Frees m, ss_LiveObjects m, ss_PauseTotalNs m, ss_Uptime m))
    (λ '(a, b, c, d, e, f, g, h, i, j), Build_SysStatsResponse a b c d e f g h i j) _). by intros [].
Defined.

#[export] Instance msg_eq t : EqDecision (msg t).
Proof. destruct t; apply _. Defined.
#[export] Instance msg_countable t : Countable (msg t).
Proof. destruct t; apply _. Defined.

Definition bits_Unmarshal (t : message) (b : string) : error + msg t :=
  match (unbits b ≫= decode : option (msg t)) with Some m => inr m | None => inl (Errorf "proto: cannot parse") end.

#[export] Program Instance bits_proto : Protobuf := {| proto_Marshal t m := inr (bits (encode m)); proto_Unmarshal := bits_Unmarshal |}.
Next Obligation. intros t m b [= <-]. unfold bits_Unmarshal. rewrite unbits_bits. cbn [mbind option_bind]. by rewrite decode_encode. Qed.

(** The state is one counter; QueryStats reports it and, when asked to, resets it. *)
Definition counting_server : StatsServiceServer Z := {|
  srv_GetStats s req := (inr {| gp_Stat := Some {| stat_Name := gr_Name req; stat_Value := s |} |}, if gr_Reset req then 0%Z else s);
  srv_QueryStats s req := (inr {| qp_Stat := [{| stat_Name := "user>>>alice#out1>>>traffic>>>uplink"; stat_Value := s |}] |}, if qs_Reset req then 0%Z else s);
  srv_GetSysStats := srv_GetSysStats UnimplementedStatsServiceServer;
|}.

(** A connection to it. *)
Definition counting_invoke (s : Z) (path : string) (tin : message) (req : msg tin) (tout : message) : (error + msg tout) * Z :=
  match proto_Marshal tin req with
  | inl err => (inl err, s)
  | inr body =>
    match list_find (λ mh, path = fullMethod (sd_ServiceName (@StatsService_ServiceDesc Z)) mh.1) (sd_Methods (@StatsService_ServiceDesc Z)) with
    | None => (inl (Unimplemented "unknown method"), s)
    | Some (_, (_, h)) =>
      let '(r, s) := served h counting_server s body in
      (match r with inl err => inl err | inr bytes => proto_Unmarshal tout bytes end, s)
    end
  end.

#[local] Instance counting_network : StatsNetwork Z unit := {|
  grpc_DialContext s _ _ := (inr tt, s);
  grpc_Invoke s _ _ path tin req tout := counting_invoke s path tin req tout;
  conn_Close s _ := s;
|}.

#[local] Program Instance counting_serving : GrpcServing (St := Z) (Conn := unit) := {|
  peer _ := [(StatsService_ServiceDesc, counting_server)];
  healthy _ _ _ := True;
  statusError err := err;
  registrar := list (ServiceDesc Z * StatsServiceServer Z);
  RegisterService reg desc srv := (desc, srv) :: reg;
  serves reg _ := reg ⊆ [(StatsService_ServiceDesc, counting_server)];
|}.
Next Obligation. intros reg desc srv conn Hsub. apply Hsub. left. Qed.
Next Obligation.
  intros s conn timeout desc srv method h tin req tout body _ [= -> ->]%list_elem_of_singleton Hin _ Hbody.
  assert (∃ i, list_find (λ mh, fullMethod (sd_ServiceName (@StatsService_ServiceDesc Z)) method = fullMethod (sd_ServiceName (@StatsService_ServiceDesc Z)) mh.1)
    (sd_Methods (@StatsService_ServiceDesc Z)) = Some (i, (method, h))) as [i Hfind].
  { cbn [sd_Methods StatsService_ServiceDesc] in Hin. rewrite !elem_of_cons, elem_of_nil in Hin.
    destruct Hin as [[= -> ->]|[[= -> ->]|[[= -> ->]|[]]]]; [exists 0|exists 1|exists 2]; reflexivity. }
  cbn [grpc_Invoke counting_network]. unfold counting_invoke. rewrite Hbody, Hfind. destruct (served h counting_server s body) as [[e|bytes] s']; [done|].
  cbn [fst snd]. by destruct (proto_Unmarshal tout bytes).
Qed.

(** The answer to a query, whatever the counter is. *)
Lemma counting_query s req :
  counting_invoke s (fullMethod "v2ray.core.app.stats.command.StatsService" "QueryStats") MQueryStatsRequest req MQueryStatsResponse
  = (inr {| qp_Stat := [{| stat_Name := "user>>>alice#out1>>>traffic>>>uplink"; stat_Value := s |}] |}, if qs_Reset req then 0%Z else s).
Proof.
  pose proof (stub_served (St := Z) (Conn := unit) (tin := MQueryStatsRequest) (tout := MQueryStatsResponse) "QueryStats" handlerQueryStats
    (srv_QueryStats counting_server) counting_server s tt 0 I ltac:(left) ltac:(set_solver) ltac:(done) req ltac:(by eexists) ltac:(by eexists)) as Hq.
  cbn [grpc_Invoke counting_network] in Hq. destruct (counting_invoke s _ _ req _) as [[e|out] s']; [discriminate|]. exact Hq.
Qed.

(** Reading alice's counter through the wire resets it. *)
Lemma stubs_reach_server_witness :
  let req := {| qs_Pattern := ""; qs_Reset := true; qs_Patterns := ["user>>>"]; qs_Regexp := false |} in
  statsServiceClient_QueryStats 7%Z tt 1 req
  = (inr {| qp_Stat := [{| stat_Name := "user>>>alice#out1>>>traffic>>>uplink"; stat_Value := 7%Z |}] |}, 0%Z).
Proof.
  intros req. set (reg := [] : @registrar _ Z unit _ counting_serving).
  assert (serves (RegisterStatsServiceServer reg counting_server) tt) as Hserves by (intros x Hx; exact Hx).
  destruct (stubs_reach_server reg counting_server 7%Z tt 1 Hserves I) as (_ & Hquery & _).
  apply (Hquery req).
  - eexists. reflexivity.
  - intros out _. eexists. reflexivity.
Defined.
