(* ===== verification/Elasticsearch.v ===== *)
(** * Elasticsearch: the usage sink of internal/usagecollector/elasticsearch.go

    Building the sink, the _bulk request for a batch, decoding the response with
    encoding/json's rules for structs, and the verdict.  The HTTP round trip, URL
    joining and the text of an instant are parameters. *)

From S2P Require Import Prelude GoStrings Crypto Json JsonParse K8s UsageCollector.
From Stdlib Require Import Ascii.

(** ** Parameters *)

(** url.JoinPath: an error text, or the URL. *)
Class URLs := { url_JoinPath : string → list string → string + string }.

(** The text of an instant in the process's time zone (RFC 3339 with
    nanoseconds), as time.Time.MarshalJSON writes it between quotes: digits,
    dashes, colons, a dot, T, Z and a sign.  MarshalJSON fails only for years
    outside 0..9999, which no clock reading has, so encoding a record succeeds. *)
Definition time_char (c : ascii) : bool :=
  bool_decide (is_Some (digit_val c)) || slices_Contains ["-"; ":"; "."; "T"; "Z"; "+"]%char c.

Fixpoint all_chars (p : ascii → bool) (s : string) : bool :=
  match s with EmptyString => true | String c s => p c && all_chars p s end.

Class TimeText := {
  time_JSON : Z → string;
  time_JSON_chars : ∀ t, all_chars time_char (time_JSON t) = true;
}.

(** ** The sink *)
Record ElasticsearchSink := { es_bulkURL : string; es_apiKey : string; es_closed : bool }.

Definition NewElasticsearchSink `{URLs} (cfg : CollectorConfig) : string + ElasticsearchSink :=
  if cfg_ESEndpoint cfg ==? "" then inl "ESEndpoint is required"
  else if cfg_ESDataStream cfg ==? "" then inl "ESDataStream is required"
  else
    let base := match strings_CutLast (cfg_ESEndpoint cfg) "/" with
                | Some (before, "") => before
                | _ => cfg_ESEndpoint cfg
                end in
    match url_JoinPath base [cfg_ESDataStream cfg; "_bulk"] with
    | inl err => inl ("failed to build ES bulk URL: " +:+ err)
    | inr bulkURL => inr {| es_bulkURL := bulkURL; es_apiKey := cfg_ESAPIKey cfg; es_closed := false |}
    end.

(** Close; the idle connections are the client's. *)
Definition ElasticsearchSink_Close (s : ElasticsearchSink) : ElasticsearchSink :=
  {| es_bulkURL := es_bulkURL s; es_apiKey := es_apiKey s; es_closed := true |}.

(** ** The request *)
(** bulkAction with the empty _index left out *)
Definition bulkAction_json (id : string) : json := JObj [("create", JObj [("_id", JStr id)])].

Section request.
Context `{TimeText}.

Definition UsageRecord_json (r : UsageRecord) : json :=
  JObj [("@timestamp", JStr (time_JSON (ur_Timestamp r))); ("user", JStr (ur_User r)); ("inbound_node", JStr (ur_InboundNode r));
        ("node", JStr (ur_Node r)); ("uplink_bytes", JNum (ur_UplinkBytes r)); ("downlink_bytes", JNum (ur_DownlinkBytes r));
        ("collected_at", JStr (time_JSON (ur_CollectedAt r)))].

(** The two lines of a record; the encoder does not escape HTML. *)
Definition recordLines (r : UsageRecord) : list string :=
  [json_Encode false (bulkAction_json (DocumentKey r)); json_Encode false (UsageRecord_json r)].

(** Every line ends with a newline. *)
Fixpoint lines_text (lines : list string) : string :=
  match lines with [] => "" | l :: lines => l +:+ newline +:+ lines_text lines end.

Definition bulkBody (batch : list UsageRecord) : string := lines_text (batch ≫= recordLines).
End request.

Record Request := { rq_URL : string; rq_ContentType : string; rq_Authorization : option string; rq_Body : string }.

(** ** Decoding the response *)

(** The key of a member as it is compared with field names: encoding/json folds
    ASCII case, and the Kelvin sign and the long s to k and s. *)
Fixpoint foldName (s : string) : string :=
  match s with
  | EmptyString => ""
  | String c s1 =>
    match c, s1 with
    | "226"%char, String "132"%char (String "170"%char s2) => String "k" (foldName s2)
    | "197"%char, String "191"%char s2 => String "s" (foldName s2)
    | _, _ => let n := N_of_ascii c in
              String (if (65 <=? n)%N && (n <=? 90)%N then ascii_of_N (n + 32) else c) (foldName s1)
    end
  end.

(** A scalar field keeps its value on null; [None] is a type error. *)
Definition decode_bool (old : bool) (t : jtree) : option bool :=
  match t with TBool b => Some b | TNull => Some old | _ => None end.
Definition decode_string (old : string) (t : jtree) : option string :=
  match t with TStr s => Some s | TNull => Some old | _ => None end.
Definition decode_int (old : Z) (t : jtree) : option Z :=
  match t with TNum literal => strconv_Atoi literal | TNull => Some old | _ => None end.

(** A struct: the members in order, each decoded into the field of its name. *)
Fixpoint decode_members {A} (field : A → string → jtree → option A) (v : A) (l : list (string * jtree)) : option A :=
  match l with
  | [] => Some v
  | (k, t) :: l => v ← field v (foldName k) t; decode_members field v l
  end.

Definition decode_struct {A} (field : A → string → jtree → option A) (old : A) (t : jtree) : option A :=
  match t with TObj l => decode_members field old l | TNull => Some old | _ => None end.

Definition decode_error (old : option (string * string)) (t : jtree) : option (option (string * string)) :=
  match t with
  | TNull => Some None
  | _ =>
    Some <$> decode_struct (λ v k t,
      if k ==? "type" then (λ s, (s, v.2)) <$> decode_string v.1 t
      else if k ==? "reason" then (λ s, (v.1, s)) <$> decode_string v.2 t
      else Some v) (default ("", "") old) t
  end.

Definition decode_create (old : bulkItemCreate) (t : jtree) : option bulkItemCreate :=
  decode_struct (λ v k t,
    if k ==? "_id" then (λ s, {| bi_ID := s; bi_Status := bi_Status v; bi_Error := bi_Error v |}) <$> decode_string (bi_ID v) t
    else if k ==? "status" then (λ n, {| bi_ID := bi_ID v; bi_Status := n; bi_Error := bi_Error v |}) <$> decode_int (bi_Status v) t
    else if k ==? "error" then (λ e, {| bi_ID := bi_ID v; bi_Status := bi_Status v; bi_Error := e |}) <$> decode_error (bi_Error v) t
    else Some v) old t.

Definition decode_item (old : bulkItemCreate) (t : jtree) : option bulkItemCreate :=
  decode_struct (λ v k t, if k ==? "create" then decode_create v t else Some v) old t.

Definition zeroItem : bulkItemCreate := {| bi_ID := ""; bi_Status := 0; bi_Error := None |}.

(** An array decoded into a slice: the elements of the backing array are reused. *)
Fixpoint decode_elements (backing : list bulkItemCreate) (l : list jtree) : option (list bulkItemCreate) :=
  match l with
  | [] => Some []
  | t :: l =>
    v ← decode_item (default zeroItem (head backing)) t;
    rest ← decode_elements (tail backing) l;
    Some (v :: rest)
  end.

(** The slice as its backing array and its length. *)
Definition decode_items (old : list bulkItemCreate * nat) (t : jtree) : option (list bulkItemCreate * nat) :=
  match t with
  | TNull | TArr [] => Some ([], 0)
  | TArr l => (λ vs, (vs ++ drop (length l) old.1, length l)) <$> decode_elements old.1 l
  | _ => None
  end.

Definition decode_response (t : jtree) : option bulkResponse :=
  (λ v, {| br_Errors := v.1; br_Items := take v.2.2 v.2.1 |}) <$>
  decode_struct (λ v k t,
    if k ==? "errors" then (λ b, (b, v.2)) <$> decode_bool v.1 t
    else if k ==? "items" then (λ items, (v.1, items)) <$> decode_items v.2 t
    else Some v) (false, ([], 0)) t.

(** json.Unmarshal(body, &bulkResp), [None] for an error *)
Definition Unmarshal_bulkResponse (body : string) : option bulkResponse := json_parse body ≫= decode_response.

(** ** Write *)

Definition BulkPartialFailureError_Error (e : BulkPartialFailureError) : string :=
  "bulk write partial failure: " +:+ fmt_d (bf_Succeeded e) +:+ " succeeded, " +:+ fmt_d (bf_Failed e) +:+
  " failed (failed ids: " +:+ join ", " (bf_FailedIDs e) +:+ ")".

(** How a Write fails. *)
Inductive WriteError :=
  | SinkClosed
  | RequestFailed (e : string)
  | ReadFailed (e : string)
  | HTTPStatus (code : Z) (body : string)
  | BadResponse
  | PartialFailure (e : BulkPartialFailureError).

(** http.NewRequest and Client.Do over a state: an error, or the status and the
    body, whose reading may fail. *)
Class HTTPClient (St : Type) := { http_Do : St → Request → (string + Z * (string + string)) * St }.

Section write.
Context `{TimeText, HTTPClient St}.

Definition bulkRequest (s : ElasticsearchSink) (batch : list UsageRecord) : Request :=
  {| rq_URL := es_bulkURL s; rq_ContentType := "application/x-ndjson";
     rq_Authorization := if es_apiKey s !=? "" then Some ("ApiKey " +:+ es_apiKey s) else None; rq_Body := bulkBody batch |}.

(** The verdict on the answer to the request. *)
Definition bulkVerdict (r : string + Z * (string + string)) : option WriteError :=
  match r with
  | inl err => Some (RequestFailed err)
  | inr (_, inl err) => Some (ReadFailed err)
  | inr (code, inr body) =>
    if (300 <=? code)%Z then Some (HTTPStatus code body)
    else match Unmarshal_bulkResponse body with
         | None => Some BadResponse
         | Some resp => PartialFailure <$> evaluateBulkResponse resp
         end
  end.

Definition ElasticsearchSink_Write (s : ElasticsearchSink) (batch : list UsageRecord) (st : St) : option WriteError * St :=
  if es_closed s then (Some SinkClosed, st)
  else if bool_decide (length batch = 0) then (None, st)
  else let '(r, st) := http_Do st (bulkRequest s batch) in (bulkVerdict r, st).
End write.
