(* ===== verification/UsageProps.v ===== *)
(** * UsageProps: properties of the usage collector

    Counter names round trip, a poll cycle writes one record per (inbound, user,
    node) with the totals of its counters, the identity of a record determines
    its document text, poll cycles exclude each other, and a bulk response is
    accepted exactly when every item was stored. *)

From S2P Require Import Prelude GoStrings Crypto Json Api Engine K8s NodeController UsageCollector.
From Stdlib Require Import Ascii.

(** ** Counter names *)
Lemma strings_Split_app c sep a b :
  has_char c a = false → strings_Split (a +:+ String c sep +:+ b) (String c sep) = a :: strings_Split b (String c sep).
Proof.
  intros Ha. rewrite <-(split_cuts_enough c sep (S (String.length (a +:+ String c sep +:+ b)))) by lia.
  cbn [split_cuts]. rewrite strings_Cut_app by done. f_equal. apply split_cuts_enough.
  rewrite !str_app_length. lia.
Qed.

(** The name under which sing-box counts the traffic of an identity. *)
Definition counterName (virtualUser direction : string) : string :=
  "user>>>" +:+ virtualUser +:+ ">>>traffic>>>" +:+ direction.

Definition isDirection (d : string) : Prop := d = "uplink" ∨ d = "downlink".

Lemma Split_counter virtualUser direction :
  has_char ">" virtualUser = false → isDirection direction →
  strings_Split (virtualUser +:+ ">>>traffic>>>" +:+ direction) ">>>" = [virtualUser; "traffic"; direction].
Proof.
  intros Hv Hd. change (">>>traffic>>>" +:+ direction) with (">>>" +:+ ("traffic>>>" +:+ direction)).
  rewrite (strings_Split_app ">" ">>") by done. f_equal. by destruct Hd as [-> | ->].
Qed.

Lemma virtualUserName_ne u n : virtualUserName u n ≠ "".
Proof. unfold virtualUserName. by destruct u. Qed.

(** C16. The counters of the identities that the config engine creates are
    attributed to the right user and exit target: for names without the
    separators, both parsers recover user, node and direction from the counter
    name of virtualUserName. *)
Theorem counter_roundtrip user node direction :
  has_char "#" user = false → has_char "#" node = false → has_char ">" user = false → has_char ">" node = false →
  user ≠ "" → node ≠ "" → isDirection direction →
  ParseUserCounterName (counterName (virtualUserName user node) direction) = Some (user, node, direction) ∧
  normalizeCounterName (counterName (virtualUserName user node) direction) = Some (user, node, direction).
Proof.
  intros Hu Hn Hu' Hn' Hune Hnne Hd.
  assert (has_char ">" (virtualUserName user node) = false) as Hv
    by (unfold virtualUserName; by rewrite !has_char_app, Hu', Hn').
  assert ((direction !=? "uplink") && (direction !=? "downlink") = false) as Hdir by (by destruct Hd as [-> | ->]).
  split.
  - unfold ParseUserCounterName, counterName. rewrite strip_prefix_app, Split_counter by done.
    rewrite bool_decide_eq_false_2 by apply virtualUserName_ne. rewrite Hdir. simpl.
    unfold virtualUserName. by rewrite (strings_Cut_app "#" "").
  - unfold normalizeCounterName, counterName.
    change ("user>>>" +:+ ?x) with ("user" +:+ ">>>" +:+ x). rewrite (strings_Split_app ">" ">>"), Split_counter by done.
    rewrite Hdir. simpl. unfold virtualUserName. rewrite (strings_CutLast_app "#" user) by done.
    by rewrite !bool_decide_eq_false_2.
Qed.

Lemma counter_roundtrip_witness :
  ParseUserCounterName (counterName "alice#exit1" "uplink") = Some ("alice", "exit1", "uplink") ∧
  normalizeCounterName (counterName "alice#exit1" "uplink") = Some ("alice", "exit1", "uplink").
Proof. apply (counter_roundtrip "alice" "exit1" "uplink"); try done. by left. Defined.

(** ** Characters of the parsed names *)
Lemma split_cuts_char c n s sep x : has_char c s = false → x ∈ split_cuts n s sep → has_char c x = false.
Proof.
  revert s. induction n as [|n IH]; intros s Hs; simpl; [by intros ->%list_elem_of_singleton|].
  destruct (strings_Cut s sep) as [[a b]|] eqn:Hc; [|by intros ->%list_elem_of_singleton].
  apply strings_Cut_Some in Hc as ->. rewrite !has_char_app in Hs. bool_prop.
  rewrite elem_of_cons. intros [->|?]; [done|]. eauto.
Qed.

Lemma ParseUserCounterName_char c name user node direction :
  has_char c name = false → ParseUserCounterName name = Some (user, node, direction) →
  has_char c user = false ∧ has_char c node = false ∧ isDirection direction.
Proof.
  intros Hc. unfold ParseUserCounterName. destruct (strip_prefix _ name) as [rest|] eqn:Hp; [|done].
  apply strip_prefix_Some in Hp as ->. rewrite has_char_app in Hc. bool_prop.
  destruct (strings_Split rest ">>>") as [|v [|tr [|d [|]]]] eqn:Hs; try done.
  assert (has_char c v = false) as Hv.
  { eapply (split_cuts_char c (String.length rest)); [done|]. unfold strings_Split in Hs. rewrite Hs. left. }
  repeat (case_match; try done); intros; simplify_eq/=; bool_prop.
  all: assert (isDirection direction) as Hd
    by (unfold isDirection; destruct (decide (direction = "uplink")), (decide (direction = "downlink")); auto;
        rewrite !bool_decide_eq_false_2 in * by done; done).
  - match goal with H : strings_Cut _ _ = Some _ |- _ => apply strings_Cut_Some in H as -> end.
    rewrite !has_char_app in Hv. bool_prop. done.
  - done.
Qed.

(** ** Totals of a poll cycle *)
Lemma wrap64_add x y : wrap64 (wrap64 x + y) = wrap64 (x + y).
Proof.
  unfold wrap64. f_equal.
  replace ((x + 2 ^ 63) mod 2 ^ 64 - 2 ^ 63 + y + 2 ^ 63)%Z with ((x + 2 ^ 63) mod 2 ^ 64 + y)%Z by lia.
  rewrite Zplus_mod_idemp_l. f_equal. lia.
Qed.

Lemma wrap64_small x : (- 2 ^ 63 ≤ x < 2 ^ 63)%Z → wrap64 x = x.
Proof. intros. unfold wrap64. rewrite Z.mod_small by lia. lia. Qed.

(** The counters of one cycle, each with the inbound node it was read from. *)
Definition reading : Type := string * RawStatEntry.

(** The reading [e] counts [value] bytes of (inbound, user, node) in a direction. *)
Definition counts (e : reading) (inbound user node direction : string) : Prop :=
  e.1 = inbound ∧ ParseUserCounterName (se_Name e.2) = Some (user, node, direction) ∧ se_Value e.2 ≠ 0%Z.

#[export] Instance counts_dec e i u n d : Decision (counts e i u n d).
Proof. unfold counts. apply _. Defined.

(** The sum of the readings of (inbound, user, node) in a direction. *)
Definition total (l : list reading) (inbound user node direction : string) : Z :=
  foldr Z.add 0%Z ((λ e, se_Value e.2) <$> filter (λ e, counts e inbound user node direction) l).

Definition counted (l : list reading) (inbound user node : string) : Prop :=
  ∃ e d, e ∈ l ∧ counts e inbound user node d.

(** No NUL byte in a node name or in a counter name. *)
Definition plainReading (e : reading) : Prop :=
  has_char "000" e.1 = false ∧ has_char "000" (se_Name e.2) = false.

Lemma recordKey_inj i u n i' u' n' :
  has_char "000" i = false → has_char "000" u = false → has_char "000" i' = false → has_char "000" u' = false →
  recordKey i u n = recordKey i' u' n' → i = i' ∧ u = u' ∧ n = n'.
Proof.
  unfold recordKey, nul. intros Hi Hu Hi' Hu' Heq.
  pose proof (strings_Cut_app "000" "" i (u +:+ String "000" "" +:+ n) Hi) as H1.
  pose proof (strings_Cut_app "000" "" i' (u' +:+ String "000" "" +:+ n') Hi') as H2.
  rewrite Heq, H2 in H1. injection H1 as -> Heq2.
  pose proof (strings_Cut_app "000" "" u n Hu) as H3. pose proof (strings_Cut_app "000" "" u' n' Hu') as H4.
  simpl in *. rewrite <-Heq2, H4 in H3. naive_solver.
Qed.

Lemma sum_app l1 l2 : foldr Z.add 0%Z (l1 ++ l2) = (foldr Z.add 0 l1 + foldr Z.add 0 l2)%Z.
Proof. induction l1; simpl; lia. Qed.

Lemma total_snoc l e i u n d :
  total (l ++ [e]) i u n d = (total l i u n d + if decide (counts e i u n d) then se_Value e.2 else 0)%Z.
Proof.
  unfold total. rewrite filter_app, fmap_app, sum_app, filter_cons, filter_nil. case_decide; simpl; lia.
Qed.

Lemma filter_iff_none {A} (P : A → Prop) `{∀ x, Decision (P x)} (l : list A) : (∀ x, x ∈ l → ¬ P x) → filter P l = [].
Proof.
  induction l as [|x l IH]; intros Hl; [done|]. rewrite filter_cons, decide_False by (apply Hl; left).
  apply IH. intros. apply Hl. by right.
Qed.

Section totals.
Context (at_ : Z).

Definition addReading (m : gmap string UsageRecord) (e : reading) : gmap string UsageRecord := addEntry at_ e.1 m e.2.

(** The record of (inbound, user, node) after the readings [l]. *)
Definition totalRecord (l : list reading) (i u n : string) : UsageRecord :=
  {| ur_Timestamp := at_; ur_User := u; ur_InboundNode := i; ur_Node := n;
     ur_UplinkBytes := wrap64 (total l i u n "uplink"); ur_DownlinkBytes := wrap64 (total l i u n "downlink");
     ur_CollectedAt := at_ |}.

(** The index holds the totals of exactly the counted keys. *)
Definition indexed (l : list reading) (m : gmap string UsageRecord) : Prop :=
  ∀ k r, m !! k = Some r ↔ ∃ i u n, counted l i u n ∧ k = recordKey i u n ∧ r = totalRecord l i u n.

Lemma counted_plain l i u n :
  Forall plainReading l → counted l i u n → has_char "000" i = false ∧ has_char "000" u = false.
Proof.
  intros Hl (e & d & He & <- & Hp & _). rewrite Forall_forall in Hl. destruct (Hl e He) as [? Hname].
  by apply (ParseUserCounterName_char _ _ _ _ _ Hname) in Hp as (? & _).
Qed.

(** A reading of another key changes neither the record nor whether it is counted. *)
Lemma snoc_other l e i u n :
  (∀ d, ¬ counts e i u n d) →
  (counted (l ++ [e]) i u n ↔ counted l i u n) ∧ totalRecord (l ++ [e]) i u n = totalRecord l i u n.
Proof.
  intros He. split.
  - unfold counted. setoid_rewrite elem_of_app. setoid_rewrite list_elem_of_singleton. naive_solver.
  - unfold totalRecord. rewrite !total_snoc, !decide_False, !Z.add_0_r by done. done.
Qed.

Lemma total_uncounted l i u n d : ¬ counted l i u n → total l i u n d = 0%Z.
Proof.
  intros Hn. unfold total. rewrite (filter_iff_none (λ e, counts e i u n d)); [done|].
  intros e He Hc. apply Hn. by exists e, d.
Qed.

Lemma addBytes_total l e i u n d :
  counts e i u n d → isDirection d →
  addBytes d (se_Value e.2) (totalRecord l i u n) = totalRecord (l ++ [e]) i u n.
Proof.
  intros Hc Hd. unfold addBytes, totalRecord. simpl. rewrite !total_snoc.
  assert (∀ d', counts e i u n d' ↔ d' = d) as Heq.
  { intros d'. destruct Hc as (? & Hp & ?). unfold counts. rewrite Hp. naive_solver. }
  destruct Hd as [-> | ->]; simpl; f_equal;
    repeat (case_decide as Hx; rewrite Heq in Hx; try done); by rewrite ?wrap64_add, ?Z.add_0_r.
Qed.

Lemma newRecord_total l i u n : ¬ counted l i u n → newRecord at_ i u n = totalRecord l i u n.
Proof. intros Hn. unfold newRecord, totalRecord. by rewrite !total_uncounted. Qed.

Lemma indexed_skip l m e : (∀ i u n d, ¬ counts e i u n d) → indexed l m → indexed (l ++ [e]) m.
Proof.
  intros He Hm k r. rewrite (Hm k r).
  split; intros (i & u & n & Hc & -> & ->); exists i, u, n; destruct (snoc_other l e i u n) as [Hiff Heq]; try apply He;
    rewrite ?Heq; by rewrite ?Hiff in *.
Qed.

Lemma addReading_indexed l m e :
  Forall plainReading (l ++ [e]) → indexed l m → indexed (l ++ [e]) (addReading m e).
Proof.
  intros Hplain Hm. pose proof Hplain as [Hl He]%Forall_app. apply Forall_singleton in He as [Hi0 Hname].
  unfold addReading, addEntry. destruct (ParseUserCounterName (se_Name e.2)) as [[[u0 n0] d0]|] eqn:Hp.
  2: { apply indexed_skip; [|done]. unfold counts. rewrite Hp. naive_solver. }
  case_bool_decide as Hv; [apply indexed_skip; [|done]; unfold counts; naive_solver|].
  destruct (ParseUserCounterName_char _ _ _ _ _ Hname Hp) as (Hu0 & _ & Hd).
  assert (counts e e.1 u0 n0 d0) as Hc by done.
  assert (default (newRecord at_ e.1 u0 n0) (m !! recordKey e.1 u0 n0) = totalRecord l e.1 u0 n0) as ->.
  { destruct (m !! recordKey e.1 u0 n0) as [r|] eqn:Hr; simpl.
    - apply Hm in Hr as (i & u & n & Hcnt & Hk & ->). destruct (counted_plain _ _ _ _ Hl Hcnt).
      by apply recordKey_inj in Hk as (-> & -> & ->).
    - apply newRecord_total. intros Hcnt. assert (m !! recordKey e.1 u0 n0 = Some (totalRecord l e.1 u0 n0)) by (apply Hm; eauto 10).
      congruence. }
  rewrite (addBytes_total _ _ _ _ _ _ Hc Hd). intros k r. rewrite lookup_insert_Some, (Hm k r). split.
  - intros [[<- <-]|[Hne (i & u & n & Hcnt & -> & ->)]].
    + exists e.1, u0, n0. split; [|done]. exists e, d0. split; [set_solver|done].
    + exists i, u, n. destruct (snoc_other l e i u n) as [-> ->]; [|done].
      intros d (<- & Hp' & _). rewrite Hp in Hp'. naive_solver.
  - intros (i & u & n & Hcnt & -> & ->). destruct (counted_plain _ _ _ _ Hplain Hcnt).
    destruct (decide (recordKey e.1 u0 n0 = recordKey i u n)) as [Hk|Hk].
    + left. by apply recordKey_inj in Hk as (-> & -> & ->).
    + right. split; [done|]. exists i, u, n. destruct (snoc_other l e i u n) as [Hcl Htr].
      * intros d (<- & Hp' & _). rewrite Hp in Hp'. naive_solver.
      * rewrite Htr. by rewrite <-Hcl.
Qed.

Lemma foldl_addReading l : Forall plainReading l → indexed l (foldl addReading ∅ l).
Proof.
  induction l as [|e l IH] using rev_ind; intros Hl.
  - intros k r. simpl. rewrite lookup_empty. split; [done|]. intros (i & u & n & (e & d & He & _) & _).
    by apply elem_of_nil in He.
  - rewrite foldl_app. simpl. apply addReading_indexed; [done|]. apply IH. by apply Forall_app in Hl as [? _].
Qed.
End totals.

Section cycle.
Context `{MapRange, Collaborators St}.

(** The readings that the targets answer, in order, and the state afterwards. *)
Definition readTarget (st : list reading * St) (tgt : CollectTarget) : list reading * St :=
  match QueryUserStats st.2 (tg_V2RayAPIAddr tgt) with
  | (inl _, s) => (st.1, s)
  | (inr entries, s) => (st.1 ++ map (pair (tg_NodeName tgt)) entries, s)
  end.

Definition readTargets (s : St) (targets : list CollectTarget) : list reading * St := foldl readTarget ([], s) targets.

(** The readings of the cycle that starts in [s]. *)
Definition cycleReadings (s : St) : list reading :=
  match Discover s with
  | (inl _, _) => []
  | (inr targets, s) => (readTargets (time_Now s).2 targets).1
  end.

Lemma pollTarget_read at_ st tgt :
  pollTarget at_ (foldl (addReading at_) ∅ st.1, st.2) tgt =
  (foldl (addReading at_) ∅ (readTarget st tgt).1, (readTarget st tgt).2).
Proof.
  unfold pollTarget, readTarget. cbn [fst snd]. destruct (QueryUserStats _ _) as [[|entries] s']; [done|]. cbn [fst snd].
  f_equal. rewrite foldl_app. generalize (foldl (addReading at_) ∅ st.1).
  induction entries as [|e entries IHe]; intros m; simpl; [done|]. apply IHe.
Qed.

Lemma foldl_pollTarget at_ st targets :
  foldl (pollTarget at_) (foldl (addReading at_) ∅ st.1, st.2) targets =
  (foldl (addReading at_) ∅ (foldl readTarget st targets).1, (foldl readTarget st targets).2).
Proof.
  revert st. induction targets as [|tgt targets IH]; intros st; [done|]. cbn [foldl]. by rewrite pollTarget_read, IH.
Qed.

Lemma poll_batch s batch err s' :
  Forall plainReading (cycleReadings s) → pollCycle s = (Some (batch, err), s') →
  ∃ targets s1, Discover s = (inr targets, s1) ∧ let collectedAt := (time_Now s1).1 in let l := cycleReadings s in
    NoDup ((λ r, (ur_InboundNode r, ur_User r, ur_Node r)) <$> batch) ∧
    ∀ r, r ∈ batch ↔ ∃ i u n, counted l i u n ∧ r = totalRecord collectedAt l i u n.
Proof.
  unfold cycleReadings, pollCycle. destruct (Discover s) as [[|targets] s1]; [done|]. case_bool_decide; [done|].
  destruct (time_Now s1) as [at_ s2] eqn:Hnow. simpl. intros Hplain. rewrite (foldl_pollTarget at_ ([], s2)).
  unfold readTargets in *. destruct (foldl readTarget ([], s2) targets) as [l s3]. cbn [fst snd] in *.
  case_bool_decide; [done|]. destruct (UsageSink_Write _ _). intros [= <- <- <-]. exists targets, s1. split; [done|]. rewrite Hnow. cbn zeta. cbn [fst].
  pose proof (foldl_addReading at_ l Hplain) as Hidx. set (m := foldl _ ∅ l) in *. split.
  - apply (NoDup_fmap_1 (λ k : string * string * string, recordKey k.1.1 k.1.2 k.2)). rewrite <-list_fmap_compose.
    assert (((λ k, recordKey k.1.1 k.1.2 k.2) ∘ (λ r, (ur_InboundNode r, ur_User r, ur_Node r))) <$> range_values m = (range m).*1) as ->.
    { unfold range_values. rewrite <-list_fmap_compose. apply list_fmap_ext. intros j [k r] Hj.
      apply list_elem_of_lookup_2, elem_of_range, Hidx in Hj as (i & u & n & _ & -> & ->). done. }
    rewrite range_perm. apply NoDup_fst_map_to_list.
  - intros r. rewrite elem_of_range_values. setoid_rewrite (λ k, Hidx k r). naive_solver.
Qed.
(** A poll cycle that writes hands the sink exactly the totals of its
    readings: one record for each (inbound, user, node) with a non-zero counter,
    whose uplink and downlink bytes are the sums of the counters of that key read
    in this cycle (modulo 2^64), stamped with the time of the cycle; no two
    records of the batch have the same key. *)
Theorem poll_totals s batch err s' :
  Forall plainReading (cycleReadings s) → pollCycle s = (Some (batch, err), s') →
  ∃ targets s1, Discover s = (inr targets, s1) ∧ let collectedAt := (time_Now s1).1 in let l := cycleReadings s in
    NoDup ((λ r, (ur_InboundNode r, ur_User r, ur_Node r)) <$> batch) ∧
    ∀ r, r ∈ batch ↔ ∃ i u n, counted l i u n ∧ r = totalRecord collectedAt l i u n.
Proof. apply poll_batch. Qed.

Lemma wrap64_range x : (- 2 ^ 63 ≤ wrap64 x < 2 ^ 63)%Z.
Proof. unfold wrap64. pose proof (Z.mod_pos_bound (x + 2 ^ 63) (2 ^ 64)). lia. Qed.

(** Bounds of the counters: the bytes of every record that a cycle hands to
    the sink are int64 values, and they are the exact sums of the counters read,
    with no wrap-around, whenever these sums fit in an int64. *)
Theorem poll_bounds s batch err s' r :
  Forall plainReading (cycleReadings s) → pollCycle s = (Some (batch, err), s') → r ∈ batch →
  let sum := total (cycleReadings s) (ur_InboundNode r) (ur_User r) (ur_Node r) in
  (- 2 ^ 63 ≤ ur_UplinkBytes r < 2 ^ 63)%Z ∧ (- 2 ^ 63 ≤ ur_DownlinkBytes r < 2 ^ 63)%Z ∧
  ((- 2 ^ 63 ≤ sum "uplink" < 2 ^ 63)%Z → ur_UplinkBytes r = sum "uplink") ∧
  ((- 2 ^ 63 ≤ sum "downlink" < 2 ^ 63)%Z → ur_DownlinkBytes r = sum "downlink").
Proof.
  intros Hplain Hpoll Hr. destruct (poll_batch _ _ _ _ Hplain Hpoll) as (targets & s1 & _ & _ & Hbatch).
  apply Hbatch in Hr as (i & u & n & _ & ->). simpl. split_and!; auto using wrap64_small; apply wrap64_range.
Qed.
End cycle.

(** One inbound node whose counters of alice#exit1 were split over two entries. *)
Definition sample_entries : list RawStatEntry :=
  [{| se_Name := counterName "alice#exit1" "uplink"; se_Value := 5 |};
   {| se_Name := counterName "alice#exit1" "downlink"; se_Value := 70 |};
   {| se_Name := counterName "bob#exit1" "uplink"; se_Value := 0 |};
   {| se_Name := "inbound>>>x>>>traffic>>>uplink"; se_Value := 9 |};
   {| se_Name := counterName "alice#exit1" "uplink"; se_Value := 6 |}].

(** The state counts the calls. *)
#[export] Instance sample_collaborators : Collaborators nat := {|
  Discover s := (inr [{| tg_NodeName := "entry1"; tg_V2RayAPIAddr := "10.0.0.1:10085"; tg_VirtualUsers := [] |}], S s);
  time_Now s := (1000%Z, s);
  QueryUserStats s _ := (inr sample_entries, S s);
  UsageSink_Write s _ := (None, S s);
|}.

Definition sample_record : UsageRecord :=
  {| ur_Timestamp := 1000; ur_User := "alice"; ur_InboundNode := "entry1"; ur_Node := "exit1";
     ur_UplinkBytes := 11; ur_DownlinkBytes := 70; ur_CollectedAt := 1000 |}.

Lemma poll_totals_witness :
  pollCycle 0 = (Some ([sample_record], None), 3) ∧
  ∃ targets s1, Discover 0 = (inr targets, s1) ∧ let collectedAt := (time_Now s1).1 in let l := cycleReadings 0 in
    NoDup ((λ r, (ur_InboundNode r, ur_User r, ur_Node r)) <$> [sample_record]) ∧
    ∀ r, r ∈ [sample_record] ↔ ∃ i u n, counted l i u n ∧ r = totalRecord collectedAt l i u n.
Proof.
  split; [by vm_compute|]. apply (poll_totals 0 [sample_record] None 3); [repeat constructor | by vm_compute].
Defined.

Lemma poll_bounds_witness : ur_UplinkBytes sample_record = total (cycleReadings 0) "entry1" "alice" "exit1" "uplink".
Proof.
  apply (poll_bounds 0 [sample_record] None 3 sample_record);
    [repeat constructor|by vm_compute|by apply list_elem_of_singleton|vm_compute; split; [discriminate|reflexivity]].
Defined.

(** ** Document identifiers *)
Lemma nul_split a b a' b' :
  has_char "000" a = false → has_char "000" a' = false → a +:+ nul +:+ b = a' +:+ nul +:+ b' → a = a' ∧ b = b'.
Proof.
  unfold nul. intros Ha Ha' Heq. pose proof (strings_Cut_app "000" "" a b Ha) as H1.
  pose proof (strings_Cut_app "000" "" a' b' Ha') as H2. rewrite Heq, H2 in H1. naive_solver.
Qed.

(** The text hashed into a document id determines the user, the inbound node,
    the exit target and the collection time of a record whose names contain no NUL
    byte, so two records of one batch, or of two cycles, get the same id only by a
    collision of SHA-256. *)
Theorem documentText_inj r r' :
  Forall (λ s, has_char "000" s = false) [ur_User r; ur_InboundNode r; ur_Node r; ur_User r'; ur_InboundNode r'; ur_Node r'] →
  documentText r = documentText r' →
  ur_User r = ur_User r' ∧ ur_InboundNode r = ur_InboundNode r' ∧ ur_Node r = ur_Node r' ∧ ur_CollectedAt r = ur_CollectedAt r'.
Proof.
  rewrite !Forall_cons. intros (? & ? & ? & ? & ? & ? & _). unfold documentText.
  intros [-> [-> [-> Ht]%nul_split]%nul_split]%nul_split; try done. split_and!; try done.
  by apply (inj pretty) in Ht.
Qed.

Lemma documentText_inj_witness :
  let r := newRecord 7 "in1" "alice" "out1" in
  DocumentKey r ≠ DocumentKey (newRecord 8 "in1" "alice" "out1") ∧ documentText r ≠ documentText (newRecord 8 "in1" "alice" "out1").
Proof.
  split; [by vm_compute|]. intros Heq. by apply documentText_inj in Heq as (_ & _ & _ & ?); [|repeat constructor].
Defined.

(** ** Mutual exclusion *)
Module PollExclusion.
Import PollLock.

(** The goroutine is between the acquisition and the release of pollMu. *)
Definition holds (p : pc) : bool := match p with Acquired | Polling | Finished => true | Idle | Loaded => false end.

Definition Inv (s : state) : Prop :=
  (∀ t, holds (pc_of s t) = true ↔ pollMu s = Some t) ∧ (inPoll s = true ↔ ∃ t, pc_of s t = Polling).

Lemma pc_of_insert s t p b m t' :
  pc_of {| pcs := <[t := p]> (pcs s); inPoll := b; pollMu := m |} t' = if decide (t' = t) then p else pc_of s t'.
Proof. unfold pc_of. simpl. case_decide; subst; [by rewrite lookup_insert, decide_True|by rewrite lookup_insert_ne]. Qed.

(** The invariant after goroutine [t] moves to [p]. *)
Lemma Inv_move s t p b m :
  (∀ t', t' ≠ t → holds (pc_of s t') = true ↔ m = Some t') → (holds p = true ↔ m = Some t) →
  (b = true ↔ p = Polling ∨ ∃ t', t' ≠ t ∧ pc_of s t' = Polling) →
  Inv {| pcs := <[t := p]> (pcs s); inPoll := b; pollMu := m |}.
Proof.
  intros Hothers Hp Hb. split; simpl.
  - intros t'. rewrite pc_of_insert. case_decide; subst; auto.
  - rewrite Hb. setoid_rewrite pc_of_insert. split.
    + intros [->|(t' & ? & ?)]; [exists t; by rewrite decide_True | exists t'; by rewrite decide_False].
    + intros [t' Ht']. case_decide; eauto.
Qed.

Lemma holder_alone s t t' : Inv s → holds (pc_of s t) = true → t' ≠ t → holds (pc_of s t') = false.
Proof.
  intros [Hmu _] Ht Hne. apply not_true_iff_false. rewrite Hmu. apply Hmu in Ht. congruence.
Qed.

Lemma step_inv s s' : Inv s → step s s' → Inv s'.
Proof.
  intros Hinv [t s1 Hn]. pose proof Hinv as [Hmu Hin]. pose proof (Hmu t) as Ht. unfold next in Hn.
  assert (holds (pc_of s t) = true → ∀ t', t' ≠ t → pc_of s t' ≠ Polling) as Halone.
  { intros Hh t' Hne Hpoll. pose proof (holder_alone s t t' Hinv Hh Hne) as Hf. by rewrite Hpoll in Hf. }
  assert (∀ t', t' ≠ t → pollMu s = Some t → holds (pc_of s t') = true ↔ None = Some t') as Hfree.
  { intros t' ? Hm. split; [|done]. rewrite Hmu, Hm. congruence. }
  destruct (pc_of s t) eqn:Hpc; simpl in *.
  - case_match eqn:Hb; simplify_eq; [done|]. apply Inv_move; [auto|rewrite <-Ht; done|].
    rewrite Hin. split; [|intros [?|(t' & _ & ?)]; [done|eauto]].
    intros [t' ?]. right. exists t'. split; [congruence|done].
  - destruct (pollMu s) eqn:Hm; simplify_eq. apply Inv_move.
    + intros t' ?. rewrite Hmu. naive_solver.
    + done.
    + rewrite Hin. split; [|intros [?|(t' & _ & ?)]; [done|eauto]].
      intros [t' ?]. right. exists t'. split; [congruence|done].
  - simplify_eq. apply Inv_move; [auto|tauto|naive_solver].
  - simplify_eq. apply Inv_move; [auto|tauto|]. split; [done|]. intros [?|(t' & Hne & Hp)]; [done|].
    by destruct (Halone eq_refl t' Hne).
  - simplify_eq. apply Inv_move; [intros; apply Hfree; tauto|done|].
    rewrite Hin. split; [|intros [?|(t' & _ & ?)]; [done|eauto]].
    intros [t' ?]. right. exists t'. split; [congruence|done].
Qed.

Lemma reachable_inv s : reachable s → Inv s.
Proof.
  intros Hr. assert (Inv init) as Hinit.
  { split; simpl; [|split; [done|]]; unfold pc_of; simpl; [intros t|intros [t Ht]]; by rewrite lookup_empty in *. }
  unfold reachable in Hr. induction Hr; eauto using step_inv.
Qed.

(** [k] steps of one goroutine, with the others standing still. *)
Fixpoint alone (t : nat) (k : nat) (s : state) : option state :=
  match k with 0 => Some s | S k => next s t ≫= alone t k end.

(** The holder of the mutex releases it within three steps of its own. *)
Lemma holder_releases s t' :
  Inv s → pollMu s = Some t' → ∃ k s', k ≤ 3 ∧ alone t' k s = Some s' ∧ pollMu s' = None ∧ ∀ t, t ≠ t' → pc_of s' t = pc_of s t.
Proof.
  intros [Hmu _] Hm. assert (holds (pc_of s t') = true) as Hh by (by apply Hmu). clear Hmu Hm.
  assert (∀ s k p b m, next s t' = Some {| pcs := <[t' := p]> (pcs s); inPoll := b; pollMu := m |} →
    alone t' (S k) s = alone t' k {| pcs := <[t' := p]> (pcs s); inPoll := b; pollMu := m |}) as Hstep by (intros * Hn; simpl; by rewrite Hn).
  destruct (pc_of s t') eqn:Hpc; try done; [exists 3|exists 2|exists 1];
    repeat (erewrite Hstep by (unfold next; rewrite ?pc_of_insert, ?decide_True by done; rewrite ?Hpc; reflexivity));
    (eexists; split; [lia|]; split; [done|]; split; [done|]); intros t Ht; by rewrite !pc_of_insert, !decide_False.
Qed.

(** C25. Poll cycles exclude each other: in every reachable state of any number
    of goroutines calling pollCycle, at most one is polling, inPoll is set exactly
    while one is, and a goroutine that cannot step waits for the mutex, held by
    another goroutine which can itself step and releases the mutex within three
    steps of its own (storing inPoll, the cycle, the deferred calls), after which
    the waiting one can take it. *)
Theorem poll_exclusion s :
  reachable s →
  (∀ t t', pc_of s t = Polling → pc_of s t' = Polling → t = t') ∧
  (inPoll s = true ↔ ∃ t, pc_of s t = Polling) ∧
  (∀ t, next s t = None → ∃ t' k s', pollMu s = Some t' ∧ t' ≠ t ∧ is_Some (next s t') ∧
     k ≤ 3 ∧ alone t' k s = Some s' ∧ pollMu s' = None ∧ is_Some (next s' t)).
Proof.
  intros Hinv%reachable_inv. pose proof Hinv as [Hmu Hin]. split_and!; [|done|].
  - intros t t' Ht Ht'. destruct (Hmu t) as [H1 _], (Hmu t') as [H2 _]. rewrite Ht in H1. rewrite Ht' in H2.
    specialize (H1 eq_refl). specialize (H2 eq_refl). congruence.
  - intros t Hn. unfold next in Hn. destruct (pc_of s t) eqn:Hpc; try done; [by case_match|].
    destruct (pollMu s) as [t'|] eqn:Hm; [|done].
    assert (holds (pc_of s t') = true) as Hh by (by apply Hmu). assert (t' ≠ t) as Hne by (intros ->; by rewrite Hpc in Hh).
    destruct (holder_releases s t' Hinv Hm) as (k & s' & Hk & Hrun & Hfree & Hothers). exists t', k, s'.
    split_and!; [done|done| |done|done|done|]; unfold next.
    + destruct (pc_of s t'); simpl in Hh; eauto; done.
    + rewrite Hothers, Hpc, Hfree by done. eauto.
Qed.

(** Two goroutines that both load inPoll before either stores it. *)
Lemma poll_exclusion_witness :
  let s := {| pcs := {[1 := Polling; 2 := Loaded]}; inPoll := true; pollMu := Some 1 |} in
  next s 2 = None ∧ (∀ t t', pc_of s t = Polling → pc_of s t' = Polling → t = t') ∧
  (inPoll s = true ↔ ∃ t, pc_of s t = Polling) ∧
  ∃ t' k s', pollMu s = Some t' ∧ t' ≠ 2 ∧ is_Some (next s t') ∧ k ≤ 3 ∧ alone t' k s = Some s' ∧ pollMu s' = None ∧ is_Some (next s' 2).
Proof.
  intros s. assert (reachable s) as Hr.
  { eapply rtc_l; [apply (step_next _ 1); reflexivity|]. eapply rtc_l; [apply (step_next _ 2); reflexivity|].
    eapply rtc_l; [apply (step_next _ 1); reflexivity|]. eapply rtc_l; [apply (step_next _ 1); reflexivity|].
    match goal with |- rtc _ ?x _ => replace x with s by (by vm_compute) end. apply rtc_refl. }
  destruct (poll_exclusion s Hr) as (Hone & Hin & Hwait). split_and!; [done|exact Hone|exact Hin|]. exact (Hwait 2 eq_refl).
Defined.
End PollExclusion.

(** ** Bulk responses *)
Lemma evaluate_fold items st :
  foldl (λ '(succeeded, failed, ids) item,
      if itemOk item then (succeeded + 1, failed, ids)%Z
      else ((succeeded, failed + 1)%Z, if bi_ID item !=? "" then ids ++ [bi_ID item] else ids)) st items =
  ((st.1.1 + Z.of_nat (length (filter (λ i, itemOk i = true) items)),
    st.1.2 + Z.of_nat (length (filter (λ i, itemOk i = false) items)))%Z,
   st.2 ++ filter (.≠ "") (bi_ID <$> filter (λ i, itemOk i = false) items)).
Proof.
  revert st. induction items as [|item items IH]; intros [[ok bad] ids]; cbn [foldl].
  - cbn. by rewrite !Z.add_0_r, app_nil_r.
  - rewrite IH, !filter_cons. destruct (itemOk item); simpl.
    + f_equal. f_equal; lia.
    + rewrite filter_cons. destruct (decide (bi_ID item = "")) as [->|Hne]; simpl.
      * f_equal. f_equal; lia.
      * rewrite bool_decide_eq_false_2, decide_True by done. simpl. rewrite <-app_assoc. f_equal. f_equal; lia.
Qed.

(** A bulk response is accepted exactly when every item reports 201 or 409;
    otherwise the error counts all items and names the failed ones that carry
    an id, in order. *)
Lemma bulk_response_verdict resp :
  (evaluateBulkResponse resp = None ↔ ∀ item, item ∈ br_Items resp → bi_Status item = 201%Z ∨ bi_Status item = 409%Z) ∧
  ∀ e, evaluateBulkResponse resp = Some e →
    (bf_Succeeded e + bf_Failed e = Z.of_nat (length (br_Items resp)))%Z ∧ (0 < bf_Failed e)%Z ∧
    ∀ id, id ∈ bf_FailedIDs e ↔ id ≠ "" ∧ ∃ item, item ∈ br_Items resp ∧ bi_ID item = id ∧ itemOk item = false.
Proof.
  unfold evaluateBulkResponse. rewrite evaluate_fold. cbn [fst snd app]. rewrite !Z.add_0_l.
  set (bad := filter (λ i, itemOk i = false) (br_Items resp)). set (ok := filter (λ i, itemOk i = true) (br_Items resp)).
  assert (length ok + length bad = length (br_Items resp)) as Hlen.
  { unfold ok, bad. clear. induction (br_Items resp) as [|x l IH]; [done|]. rewrite !filter_cons.
    destruct (itemOk x); simpl; lia. }
  assert (∀ item, itemOk item = true ↔ bi_Status item = 201%Z ∨ bi_Status item = 409%Z) as Hok.
  { intros item. unfold itemOk. by rewrite orb_true_iff, !Z.eqb_eq. }
  destruct (Z.of_nat (length bad) =? 0)%Z eqn:Hz; (split; [|intros e [= <-]]).
  - split; [intros _|done]. intros item Hin. rewrite <-Hok. apply not_false_is_true. intros Hf.
    apply Z.eqb_eq in Hz. assert (item ∈ bad) as Hbad by (by apply list_elem_of_filter).
    destruct bad; [by apply elem_of_nil in Hbad|simpl in Hz; lia].
  - split; [done|]. intros Hall. apply Z.eqb_neq in Hz. destruct bad as [|item l] eqn:Hbad; [done|]. exfalso.
    assert (item ∈ bad) as Hin by (rewrite Hbad; left). apply list_elem_of_filter in Hin as [Hf Hin].
    apply Hall, Hok in Hin. congruence.
  - apply Z.eqb_neq in Hz. simpl. split_and!; [lia..|]. intros id. rewrite list_elem_of_filter, list_elem_of_fmap.
    unfold bad. setoid_rewrite list_elem_of_filter. naive_solver.
Qed.
