(* ===== verification/ElasticsearchProps.v ===== *)
(** * ElasticsearchProps: what reaches Elasticsearch, and when a write succeeded

    The bulk body is one action line and one document line per record whatever
    the records hold, and Write reports success exactly when the response says
    so. *)

From S2P Require Import Prelude GoStrings Crypto Json JsonParse JsonFacts JsonRoundtrip EngineJson K8s UsageCollector UsageProps Elasticsearch Template.
From Stdlib Require Import Ascii.

(** ** No control characters in an encoded value *)
Definition printable (c : ascii) : bool := (32 <=? byte_val c)%Z.

Lemma all_chars_app p s t : all_chars p (s +:+ t) = all_chars p s && all_chars p t.
Proof. induction s as [|c s IH]; simpl; [done|]. by rewrite IH, andb_assoc. Qed.

Lemma all_chars_has p c s : p c = false → all_chars p s = true → has_char c s = false.
Proof.
  intros Hc. induction s as [|d s IH]; simpl; [done|]. rewrite andb_true_iff. intros [Hd Hs]. rewrite IH, orb_false_r by done.
  apply bool_decide_eq_false_2. congruence.
Qed.

Lemma json_ascii_printable html c : (byte_val c <? 128)%Z = true → all_chars printable (json_ascii html c) = true.
Proof. destruct html, c as [[] [] [] [] [] [] [] []]; intros Hc; try discriminate Hc; reflexivity. Qed.

(** The bytes of a rune after the first are continuation bytes. *)
Lemma utf8_size_tail b bs n : utf8_size (b :: bs) = Some n → Forall (λ x, 128 ≤ x)%Z (take (pred n) bs).
Proof.
  unfold utf8_size. destruct bs as [|b1 bs]; [done|]. intros Hn.
  repeat (case_match; simplify_eq/=; try done).
  all: bool_prop; repeat match goal with H : (_ <=? _)%Z = true |- _ => apply Z.leb_le in H end; repeat constructor; lia.
Qed.

Lemma json_escape_printable html copy skip s :
  Forall (λ x, 128 ≤ x)%Z (take copy (drop skip (bytes_of_string s))) → all_chars printable (json_escape html copy skip s) = true.
Proof.
  revert copy skip. induction s as [|c s IH]; intros copy skip Hcopy; [done|].
  change (bytes_of_string (String c s)) with (byte_val c :: bytes_of_string s) in *.
  cbn [json_escape]. destruct skip as [|skip]; [|by apply IH]. destruct copy as [|copy].
  - fold (byte_val c). destruct (byte_val c <? 128)%Z eqn:Hc.
    + rewrite all_chars_app, json_ascii_printable by done. simpl. by apply IH.
    + change (bytes_of_string (String c s)) with (byte_val c :: bytes_of_string s).
      destruct (utf8_size (byte_val c :: bytes_of_string s)) as [n|] eqn:Hn.
      * assert (all_chars printable (String c (json_escape html (pred n) 0 s)) = true) as Hdef.
        { simpl. rewrite IH by (by eapply utf8_size_tail). unfold printable. rewrite andb_true_r. apply Z.leb_le. apply Z.ltb_ge in Hc. lia. }
        assert (all_chars printable (json_escape html 0 2 s) = true) as Hsep by (by apply IH).
        repeat case_match; simplify_eq/=; first [exact Hdef|exact Hsep].
      * rewrite !all_chars_app. by apply IH.
  - simpl in *. apply Forall_cons in Hcopy as [Hb Hcopy]. rewrite IH by done. unfold printable. rewrite andb_true_r. apply Z.leb_le. lia.
Qed.

(** Encoded values without floats are printable. *)
Lemma pretty_printable (n : Z) : all_chars printable (pretty n) = true.
Proof.
  assert (∀ (x : N) s, all_chars printable s = true → all_chars printable (pretty_N_go x s) = true) as Hgo.
  { intros x. induction (N.lt_wf_0 x) as [x _ IH]; intros s Hs. destruct (decide (0 < x)%N) as [Hx|Hx].
    - rewrite pretty_N_go_step by done. apply IH; [by apply N.div_lt|]. simpl. rewrite Hs, andb_true_r.
      assert (x mod 10 < 10)%N as Hlt by (by apply N.mod_lt). generalize (x mod 10)%N Hlt. intros d Hd.
      assert (d = 0 ∨ d = 1 ∨ d = 2 ∨ d = 3 ∨ d = 4 ∨ d = 5 ∨ d = 6 ∨ d = 7 ∨ d = 8 ∨ d = 9)%N as Hc by lia. by destruct_or! Hc; subst.
    - assert (x = 0)%N as -> by lia. done. }
  destruct n as [|p|p]; [done|by apply (Hgo (Npos p))|]. change (pretty (Zneg p)) with ("-" +:+ pretty_N_go (Npos p) "").
  rewrite all_chars_app. by apply Hgo.
Qed.

Lemma join_printable l : Forall (λ s, all_chars printable s = true) l → all_chars printable (join "," l) = true.
Proof.
  induction 1 as [|s l Hs Hl IH]; [done|]. destruct l as [|s' l]; [done|]. rewrite join_cons, !all_chars_app, Hs. exact IH.
Qed.

Lemma json_quote_printable html s : all_chars printable (json_quote html s) = true.
Proof. unfold json_quote. rewrite !all_chars_app, json_escape_printable; [done|constructor]. Qed.

Lemma json_obj_printable html o :
  Forall (λ kv, all_chars printable (json_Encode html kv.2) = true) o → all_chars printable (json_Encode html (JObj o)) = true.
Proof.
  intros Ho. cbn [json_Encode]. rewrite !all_chars_app, join_printable; [done|]. apply Forall_fmap. eapply Forall_impl; [done|].
  intros kv Hkv. unfold compose. by rewrite !all_chars_app, json_quote_printable, Hkv.
Qed.

Section lines.
Context `{TimeText}.

Lemma action_printable id : all_chars printable (json_Encode false (bulkAction_json id)) = true.
Proof. repeat (apply json_obj_printable, Forall_singleton). apply json_quote_printable. Qed.

Lemma record_printable r : all_chars printable (json_Encode false (UsageRecord_json r)) = true.
Proof. apply json_obj_printable. repeat constructor; first [apply json_quote_printable|apply pretty_printable]. Qed.

(** ** The framing of the body *)
Lemma split_lines lines :
  Forall (λ l, all_chars printable l = true) lines → strings_Split (lines_text lines) newline = lines ++ [""].
Proof.
  induction 1 as [|l lines Hl Hls IH]; [done|]. cbn [lines_text]. unfold newline in *.
  rewrite strings_Split_app by (by apply (all_chars_has printable)). rewrite IH. done.
Qed.

Lemma recordLines_printable batch : Forall (λ l, all_chars printable l = true) (batch ≫= recordLines).
Proof.
  apply Forall_forall. intros l (r & Hl & _)%list_elem_of_bind.
  apply elem_of_cons in Hl as [->|Hl%list_elem_of_singleton]; [apply action_printable|subst; apply record_printable].
Qed.

Lemma record_plain r : plain 1 (UsageRecord_json r).
Proof. unfold UsageRecord_json. auto 20 with plain. Qed.

Lemma action_plain id : plain 2 (bulkAction_json id).
Proof. unfold bulkAction_json. auto 20 with plain. Qed.

(** Framing of a bulk request: split at its newlines, the body is, for every
    record of the batch in order, the create action with the record's document
    key and then the record, whatever user and node names hold, and each line
    parses back to exactly that value: a name cannot add, drop or alter an
    action. *)
Theorem bulk_body_framed batch :
  strings_Split (bulkBody batch) newline = (batch ≫= recordLines) ++ [""] ∧
  Forall (λ r, ∃ action doc, recordLines r = [action; doc] ∧
    json_parse action = Some (TObj [("create", TObj [("_id", TStr (utf8_sanitize 0 (DocumentKey r)))])]) ∧
    json_parse doc = Some (tree_of (UsageRecord_json r))) batch.
Proof.
  split; [apply split_lines, recordLines_printable|]. apply Forall_true. intros r.
  eexists _, _. split; [done|]. split; eapply json_parse_plain; try apply record_plain; try apply action_plain; unfold maxNestingDepth; lia.
Qed.
End lines.

(** ** The verdict of Write *)

(** C26. When a write counts as done: Write returns no error exactly when the
    sink is open and either the batch is empty, and then nothing is sent, or the
    request was answered below 300 with a response that decodes and in which
    every item has status 201 or 409; a partial failure reports the numbers of
    items and the ids of the failed ones; a closed sink sends nothing. *)
Theorem Write_verdict `{TimeText, HTTPClient St} s batch (st : St) :
  (∀ st', ElasticsearchSink_Write s batch st = (None, st') ↔
    es_closed s = false ∧
    (batch = [] ∧ st' = st ∨
     batch ≠ [] ∧ ∃ code body resp, http_Do st (bulkRequest s batch) = (inr (code, inr body), st') ∧ (code < 300)%Z ∧
       Unmarshal_bulkResponse body = Some resp ∧ ∀ item, item ∈ br_Items resp → bi_Status item = 201%Z ∨ bi_Status item = 409%Z)) ∧
  (∀ e st', ElasticsearchSink_Write s batch st = (Some (PartialFailure e), st') →
    ∃ code body resp, http_Do st (bulkRequest s batch) = (inr (code, inr body), st') ∧ Unmarshal_bulkResponse body = Some resp ∧
      (bf_Succeeded e + bf_Failed e = Z.of_nat (length (br_Items resp)))%Z ∧ (0 < bf_Failed e)%Z ∧
      ∀ id, id ∈ bf_FailedIDs e ↔ id ≠ "" ∧ ∃ item, item ∈ br_Items resp ∧ bi_ID item = id ∧ itemOk item = false) ∧
  ElasticsearchSink_Write (ElasticsearchSink_Close s) batch st = (Some SinkClosed, st).
Proof.
  unfold ElasticsearchSink_Write. split; [|split; [|done]].
  - intros st'. destruct (es_closed s); [naive_solver|]. case_bool_decide as Hb; [apply nil_length_inv in Hb as ->; naive_solver|].
    assert (batch ≠ []) as Hne by (by intros ->). destruct (http_Do st _) as [[err|[code [err|body]]] st1]; simpl; [naive_solver..|].
    destruct (300 <=? code)%Z eqn:Hcode; [apply Z.leb_le in Hcode; split; [done|]; intros (_ & [[? _]|(_ & c & b & r & [= -> -> ->] & ? & _)]); [done|lia]|].
    apply Z.leb_gt in Hcode. destruct (Unmarshal_bulkResponse body) as [resp|] eqn:Hu; [|naive_solver].
    destruct (bulk_response_verdict resp) as [Hiff _]. destruct (evaluateBulkResponse resp) as [e|]; simpl.
    + split; [done|]. intros (_ & [[? _]|(_ & c & b & r & [= <- <- <-] & _ & Hr & Hall)]); [done|]. rewrite Hu in Hr. injection Hr as <-.
      by apply Hiff in Hall.
    + split; [intros [= <-]|intros (_ & [[? _]|(_ & c & b & r & [= <- <- <-] & _)]); done]. split; [done|]. right. split; [done|].
      exists code, body, resp. split_and!; [done..|]. by apply Hiff.
  - intros e st'. destruct (es_closed s); [done|]. case_bool_decide; [done|].
    destruct (http_Do st _) as [[err|[code [err|body]]] st1]; simpl; [done..|]. destruct (300 <=? code)%Z; [done|].
    destruct (Unmarshal_bulkResponse body) as [resp|] eqn:Hu; [|done]. destruct (bulk_response_verdict resp) as [_ Hpart].
    destruct (evaluateBulkResponse resp) as [e'|] eqn:He; [|done]. intros [= <- <-].
    exists code, body, resp. destruct (Hpart e' eq_refl) as (? & ? & ?). done.
Qed.

(** ** Examples *)
#[export] Program Instance sample_time : TimeText := {| time_JSON _ := "2026-01-01T00:00:00Z" |}.
Next Obligation. done. Qed.

(** The response of one stored and one already stored document decodes; an empty
    object decodes to no items, which counts as success for any batch. *)
Definition ok_response : string :=
  Template.quoted "{'took':3,'errors':false,'items':[{'create':{'_id':'a','status':201}},{'CREATE':{'_id':'b','status':409}}]}".

Example decode_examples :
  (br_Items <$> Unmarshal_bulkResponse ok_response) =
    Some [{| bi_ID := "a"; bi_Status := 201; bi_Error := None |}; {| bi_ID := "b"; bi_Status := 409; bi_Error := None |}] ∧
  Unmarshal_bulkResponse "{}" = Some {| br_Errors := false; br_Items := [] |} ∧
  Unmarshal_bulkResponse (Template.quoted "{'items':[{'create':{'status':'201'}}]}") = None ∧
  Unmarshal_bulkResponse (Template.quoted "{'items':[{'create':{'status':201.5}}]}") = None ∧
  Unmarshal_bulkResponse "[]" = None ∧ Unmarshal_bulkResponse "" = None.
Proof. vm_compute. done. Qed.

(** A name with a newline and quotes stays inside its line. *)
Definition odd_record : UsageRecord :=
  {| ur_Timestamp := 0; ur_User := "al" +:+ newline +:+ dquote +:+ "ice"; ur_InboundNode := "in1"; ur_Node := "out1"; ur_UplinkBytes := 1; ur_DownlinkBytes := 2; ur_CollectedAt := 0 |}.

Lemma bulk_body_framed_witness : strings_Split (bulkBody [odd_record]) newline = recordLines odd_record ++ [""].
Proof. exact (proj1 (bulk_body_framed [odd_record])). Defined.

(** A server that answers every request with [body]. *)
Definition answering (code : Z) (body : string) : HTTPClient unit := {| http_Do st _ := (inr (code, inr body), st) |}.

(** The empty object counts as success for a batch of one record. *)
Lemma Write_verdict_witness :
  let sink := {| es_bulkURL := "http://es/ds/_bulk"; es_apiKey := ""; es_closed := false |} in
  ElasticsearchSink_Write (H0 := answering 200 "{}") sink [odd_record] tt = (None, tt).
Proof.
  cbv zeta. apply (proj1 (Write_verdict (H0 := answering 200 "{}") {| es_bulkURL := "http://es/ds/_bulk"; es_apiKey := ""; es_closed := false |} [odd_record] tt) tt).
  split; [reflexivity|]. right. split; [discriminate|]. exists 200%Z, "{}", {| br_Errors := false; br_Items := [] |}.
  split; [reflexivity|]. split; [lia|]. split; [vm_compute; reflexivity|]. intros item Hin. inversion Hin.
Defined.
