(* ===== verification/UsageRun.v ===== *)
(** * UsageRun: the collection loop and where the traffic goes

    The gRPC stats client (v2rayclient.go), the loop of Run (collector.go) and
    the collector assembled from its real parts: discovery over the Kubernetes
    API, the gRPC client and the Elasticsearch sink.  The theorem is an
    accounting one: over any run, the bytes that the nodes counted are still on
    the nodes, were handed to the sink, once, or were reset by a query whose
    response never arrived. *)

From S2P Require Import Prelude GoStrings Json Api Engine Samples K8s NodeController SampleCluster UsageCollector StatsGrpc Elasticsearch UsageProps ElasticsearchProps.
From Stdlib Require Import Ascii.

(** ** The stats client (v2rayclient.go) *)
Record GRPCStatsClient (Conn : Type) := { gs_nodeTimeout : Z; gs_PooledClient : option Conn }.
Arguments gs_nodeTimeout {Conn} _.
Arguments gs_PooledClient {Conn} _.

Definition NewGRPCStatsClient {Conn} (nodeTimeout : Z) : GRPCStatsClient Conn :=
  {| gs_nodeTimeout := nodeTimeout; gs_PooledClient := None |}.

Definition userStatsRequest : QueryStatsRequest :=
  {| qs_Pattern := ""; qs_Reset := true; qs_Patterns := ["user>>>"]; qs_Regexp := false |}.

(** The entries of a response. *)
Definition statEntries (resp : QueryStatsResponse) : list RawStatEntry :=
  (λ s, {| se_Name := stat_Name s; se_Value := stat_Value s |}) <$> qp_Stat resp.

(** [statsClient.QueryStats(...)] and what is made of its result. *)
Definition queryEntries `{StatsNetwork St Conn} (s : St) (conn : Conn) (timeout : Z) : (error + list RawStatEntry) * St :=
  match statsServiceClient_QueryStats s conn timeout userStatsRequest with
  | (inl err, s) => (inl err, s)
  | (inr resp, s) => (inr (statEntries resp), s)
  end.

Definition GRPCStatsClient_QueryUserStats `{StatsNetwork St Conn} (c : GRPCStatsClient Conn) (s : St) (addr : string)
    : (error + list RawStatEntry) * St :=
  match gs_PooledClient c with
  | Some conn => queryEntries s conn (gs_nodeTimeout c)
  | None =>
    match grpc_DialContext s addr (gs_nodeTimeout c) with
    | (inl dialErr, s) => (inl dialErr, s)
    | (inr conn, s) => let '(r, s) := queryEntries s conn (gs_nodeTimeout c) in (r, conn_Close s conn)
    end
  end.

(** ** The loop (collector.go) *)
Section run.
Context `{MapRange, Collaborators St}.

(** Run until the context is done: [world] lists what happens before each tick
    that the loop takes; the results of the cycles and the last state. *)
Fixpoint Collector_Run (world : list (St → St)) (s : St) : list (option (list UsageRecord * option error)) * St :=
  match world with
  | [] => ([], s)
  | f :: world =>
    let '(r, s) := pollCycle (f s) in
    let '(rs, s) := Collector_Run world s in (r :: rs, s)
  end.
End run.

(** ** The assembled collector (cmd/main.go) *)
Section assembled.
Context `{MapRange, LabelSelectors, TimeText, StatsNetwork St Conn, HTTPClient St}.

(** The Kubernetes API and the clock of the same world. *)
Context (kube : St → ∀ c : call, answer c * St) (clock : St → Z * St).
Context (namespace : string) (statsClient : GRPCStatsClient Conn) (sink : ElasticsearchSink).

(** The text of a failed Write is only logged. *)
Definition writeError (e : WriteError) : error :=
  Errorf (match e with
          | SinkClosed => "elasticsearch sink is closed"
          | RequestFailed err => "ES bulk request failed: " +:+ err
          | ReadFailed err => "failed to read ES response: " +:+ err
          | HTTPStatus code body => "ES returned HTTP " +:+ fmt_d code +:+ ": " +:+ body
          | BadResponse => "failed to parse ES bulk response"
          | PartialFailure e => BulkPartialFailureError_Error e
          end).

Definition usageCollector : Collaborators St := {|
  Discover (s : St) := let '(_, r, s) := exec {| srv_state := St; srv_step := kube |} s (K8sDiscoverer_Discover namespace) in (r, s);
  time_Now := clock;
  QueryUserStats := GRPCStatsClient_QueryUserStats statsClient;
  UsageSink_Write (s : St) batch := let '(e, s) := ElasticsearchSink_Write (St := St) sink batch s in (writeError <$> e, s);
|}.
End assembled.

(** ** Equality of int64 sums *)
Definition eq64 (x y : Z) : Prop := ∃ k, x = (y + k * 2 ^ 64)%Z.

#[export] Instance eq64_equiv : Equivalence eq64.
Proof.
  split.
  - intros x. exists 0%Z. lia.
  - intros x y [k ->]. exists (- k)%Z. lia.
  - intros x y z [k ->] [j ->]. exists (k + j)%Z. lia.
Qed.

#[export] Instance eq64_add : Proper (eq64 ==> eq64 ==> eq64) Z.add.
Proof. intros x x' [k ->] y y' [j ->]. exists (k + j)%Z. lia. Qed.

Lemma eq64_wrap x : eq64 (wrap64 x) x.
Proof.
  unfold wrap64. exists (- ((x + 2 ^ 63) / 2 ^ 64))%Z. pose proof (Z.div_mod (x + 2 ^ 63) (2 ^ 64)). lia.
Qed.

(** ** Sums over maps *)
Definition sumZ (l : list Z) : Z := foldr Z.add 0%Z l.

#[export] Instance sumZ_perm : Proper (Permutation ==> eq) sumZ.
Proof. induction 1; simpl; lia. Qed.

Definition mapSum {A} (f : string → A → Z) (m : gmap string A) : Z := sumZ (uncurry f <$> map_to_list m).

Lemma mapSum_insert {A} f (m : gmap string A) k v :
  mapSum f (<[k := v]> m) = (mapSum f m - from_option (f k) 0 (m !! k) + f k v)%Z.
Proof.
  assert (∀ kv (l : list (string * A)), sumZ (uncurry f <$> kv :: l) = (uncurry f kv + sumZ (uncurry f <$> l))%Z) as Hcons by done.
  unfold mapSum. rewrite <- (insert_delete_eq m k v), map_to_list_insert, Hcons by apply lookup_delete_eq.
  destruct (m !! k) as [w|] eqn:Hk; simpl from_option; simpl uncurry.
  - rewrite <- (insert_delete_id m k w Hk) at 2. rewrite (map_to_list_insert (delete k m)), Hcons by apply lookup_delete_eq. simpl uncurry. lia.
  - rewrite delete_id by done. lia.
Qed.

Lemma mapSum_zero {A} f (m : gmap string A) : (∀ k v, m !! k = Some v → f k v = 0%Z) → mapSum f m = 0%Z.
Proof.
  intros Hf. unfold mapSum. assert (Forall (λ x, x = 0%Z) (uncurry f <$> map_to_list m)) as Hall.
  { apply Forall_fmap, Forall_forall. intros [k v] Hkv%elem_of_map_to_list. by apply Hf. }
  induction Hall as [|x l -> _ IH]; simpl; lia.
Qed.

(** ** Traffic of a user through an exit target, in one direction *)
Section traffic.
Context (u n d : string).

Definition entryBytes (name : string) (value : Z) : Z :=
  if bool_decide (ParseUserCounterName name = Some (u, n, d)) then value else 0%Z.

(** On the nodes: all counters of all addresses. *)
Definition nodeBytes (_ : string) (counters : gmap string Z) : Z := mapSum entryBytes counters.

(** In records. *)
Definition recordBytes (r : UsageRecord) : Z :=
  if bool_decide (ur_User r = u ∧ ur_Node r = n) then if d ==? "uplink" then ur_UplinkBytes r else ur_DownlinkBytes r else 0%Z.

(** Handed to the sink by a cycle, whether or not the sink accepted it. *)
Definition handed (res : option (list UsageRecord * option error)) : Z :=
  match res with Some (batch, _) => sumZ (recordBytes <$> batch) | None => 0%Z end.

(** In the readings of a cycle. *)
Definition readBytes (l : list reading) : Z := sumZ ((λ e : reading, entryBytes (se_Name e.2) (se_Value e.2)) <$> l).

Lemma readBytes_app l l' : readBytes (l ++ l') = (readBytes l + readBytes l')%Z.
Proof. unfold readBytes. rewrite fmap_app. apply sum_app. Qed.

(** One counter added to a record. *)
Lemma addBytes_record r name value u0 n0 d0 :
  isDirection d → isDirection d0 → ParseUserCounterName name = Some (u0, n0, d0) → ur_User r = u0 → ur_Node r = n0 →
  eq64 (recordBytes (addBytes d0 value r)) (recordBytes r + entryBytes name value).
Proof.
  intros Hd Hd0 Hp Hu Hn. unfold recordBytes, entryBytes. rewrite Hp. simpl. rewrite Hu, Hn.
  destruct (decide (u0 = u ∧ n0 = n)) as [[-> ->]|Hne].
  - rewrite (bool_decide_eq_true_2 (u = u ∧ n = n)) by done.
    destruct Hd as [Hd | Hd], Hd0 as [-> | ->]; rewrite !Hd; simpl; rewrite ?eq64_wrap, ?Z.add_0_r; try reflexivity.
    all: rewrite ?bool_decide_eq_true_2, ?bool_decide_eq_false_2 by congruence; rewrite ?eq64_wrap, ?Z.add_0_r; reflexivity.
  - rewrite !bool_decide_eq_false_2 by naive_solver. reflexivity.
Qed.

(** The index holds all bytes read. *)
Lemma index_bytes at_ l :
  isDirection d → Forall plainReading l → eq64 (mapSum (λ _, recordBytes) (foldl (addReading at_) ∅ l)) (readBytes l).
Proof.
  intros Hd. induction l as [|e l IH] using rev_ind; intros Hl; [reflexivity|].
  pose proof Hl as [Hl0 [Hi Hname]%Forall_singleton]%Forall_app. specialize (IH Hl0).
  pose proof (foldl_addReading at_ l Hl0) as Hidx. rewrite foldl_app, readBytes_app. simpl foldl. set (m := foldl _ _ l) in *.
  assert (readBytes [e] = entryBytes (se_Name e.2) (se_Value e.2)) as -> by (unfold readBytes; simpl; lia).
  unfold addReading, addEntry. destruct (ParseUserCounterName (se_Name e.2)) as [[[u0 n0] d0]|] eqn:Hp.
  2: { unfold entryBytes. rewrite Hp, bool_decide_eq_false_2, Z.add_0_r by done. exact IH. }
  case_bool_decide as Hv.
  { assert (entryBytes (se_Name e.2) (se_Value e.2) = 0%Z) as -> by (unfold entryBytes; rewrite Hv; by case_match). by rewrite Z.add_0_r. }
  destruct (ParseUserCounterName_char _ _ _ _ _ Hname Hp) as (Hu0 & _ & Hd0).
  rewrite mapSum_insert. rewrite <- IH. set (rec := default _ _).
  assert (ur_User rec = u0 ∧ ur_Node rec = n0 ∧ from_option recordBytes 0%Z (m !! recordKey e.1 u0 n0) = recordBytes rec) as (Hru & Hrn & ->).
  { unfold rec. destruct (m !! recordKey e.1 u0 n0) as [r|] eqn:Hr; simpl.
    - apply Hidx in Hr as (i & u' & n' & Hc & Hk & ->). destruct (counted_plain _ _ _ _ Hl0 Hc).
      by apply recordKey_inj in Hk as (_ & -> & ->).
    - split_and!; [done..|]. unfold recordBytes. simpl. by repeat case_match. }
  rewrite (addBytes_record rec (se_Name e.2) (se_Value e.2) u0 n0 d0) by done. apply reflexive_eq. lia.
Qed.

Lemma batch_bytes at_ l `{MapRange} :
  isDirection d → Forall plainReading l → eq64 (sumZ (recordBytes <$> range_values (foldl (addReading at_) ∅ l))) (readBytes l).
Proof.
  intros Hd Hl. rewrite <- (index_bytes at_ l Hd Hl). unfold mapSum, range_values. rewrite range_perm.
  rewrite <- list_fmap_compose. apply reflexive_eq. f_equal. apply list_fmap_ext. by intros ? [].
Qed.
End traffic.

(** ** Conservation *)

(** The counters after a reset of one address. *)
Definition zeroed (addr : string) (m : gmap string (gmap string Z)) : gmap string (gmap string Z) :=
  <[addr := (λ _, 0%Z) <$> default ∅ (m !! addr)]> m.

(** What the collaborators promise of the counters on the nodes, by address: a
    stats query that is answered returns every user counter of its address once
    and leaves them at zero; a query that fails left them alone or, as when the
    deadline expired after the node had answered, reset them all the same;
    nothing else the collector does touches a counter.  Node and counter names
    contain no NUL byte. *)
Class CounterStore `{Collaborators St} := {
  counters : St → gmap string (gmap string Z);
  discover_counters : ∀ s, counters (Discover s).2 = counters s;
  now_counters : ∀ s, counters (time_Now s).2 = counters s;
  write_counters : ∀ s batch, counters (UsageSink_Write s batch).2 = counters s;
  query_counters : ∀ s addr, match QueryUserStats s addr with
    | (inl _, s') => counters s' = counters s ∨ counters s' = zeroed addr (counters s)
    | (inr entries, s') =>
      entries ≡ₚ (λ kv, {| se_Name := kv.1; se_Value := kv.2 |}) <$> map_to_list (default ∅ (counters s !! addr)) ∧
      counters s' = zeroed addr (counters s)
    end;
  plain_readings : ∀ s, Forall plainReading (cycleReadings s);
}.

Section conservation.
Context `{MapRange, Collaborators St} `{!CounterStore}.
Context (u n d : string) (Hd : isDirection d).

(** The bytes that the nodes have counted and not yet reported. *)
Definition pending (s : St) : Z := mapSum (nodeBytes u n d) (counters s).

(** What a failed query lost: the counters of its address, if it has reset them. *)
Definition lostAt (s s' : St) (addr : string) : Z :=
  if bool_decide (counters s' = counters s) then 0%Z else nodeBytes u n d addr (default ∅ (counters s !! addr)).

(** The failed queries of a cycle, one entry each. *)
Fixpoint failedQueries (targets : list CollectTarget) (s : St) : list Z :=
  match targets with
  | [] => []
  | tgt :: targets =>
    match QueryUserStats s (tg_V2RayAPIAddr tgt) with
    | (inl _, s') => lostAt s s' (tg_V2RayAPIAddr tgt) :: failedQueries targets s'
    | (inr _, s') => failedQueries targets s'
    end
  end.

Definition cycleFailures (s : St) : list Z :=
  match Discover s with (inr targets, s1) => failedQueries targets (time_Now s1).2 | _ => [] end.

Lemma pending_zeroed s s' addr :
  counters s' = zeroed addr (counters s) → (pending s = pending s' + nodeBytes u n d addr (default ∅ (counters s !! addr)))%Z.
Proof.
  intros Hc. unfold pending, zeroed in *. rewrite Hc, mapSum_insert. set (c := default ∅ _).
  assert (nodeBytes u n d addr ((λ _, 0%Z) <$> c) = 0%Z) as ->.
  { apply mapSum_zero. intros k v. rewrite lookup_fmap_Some. intros (? & <- & _). unfold entryBytes. by case_match. }
  assert (from_option (nodeBytes u n d addr) 0%Z (counters s !! addr) = nodeBytes u n d addr c) as ->; [|lia].
  unfold c. destruct (counters s !! addr); simpl; [done|]. symmetry. by apply mapSum_zero.
Qed.

Lemma pending_failed s s' addr :
  counters s' = counters s ∨ counters s' = zeroed addr (counters s) → (pending s = pending s' + lostAt s s' addr)%Z.
Proof.
  intros Hc. unfold lostAt. case_bool_decide as Heq; [unfold pending; rewrite Heq; lia|].
  destruct Hc as [?|Hz]; [done|]. by apply pending_zeroed.
Qed.

Lemma readTargets_pending l s targets :
  let st := foldl readTarget (l, s) targets in
  (pending s + readBytes u n d l = pending st.2 + readBytes u n d st.1 + sumZ (failedQueries targets s))%Z.
Proof.
  revert l s. induction targets as [|tgt targets IH]; intros l s; [simpl; lia|]. cbn [foldl failedQueries].
  unfold readTarget at 2 4. cbn [fst snd]. pose proof (query_counters s (tg_V2RayAPIAddr tgt)) as Hq.
  destruct (QueryUserStats s _) as [[e|entries] s'].
  - specialize (IH l s'). apply pending_failed in Hq. cbv zeta in *. cbn [sumZ foldr]. unfold sumZ in *. lia.
  - destruct Hq as [Hent Hc]. apply pending_zeroed in Hc. specialize (IH (l ++ map (pair (tg_NodeName tgt)) entries) s'). cbv zeta in *.
    rewrite readBytes_app in IH.
    assert (readBytes u n d (map (pair (tg_NodeName tgt)) entries) = nodeBytes u n d (tg_V2RayAPIAddr tgt) (default ∅ (counters s !! tg_V2RayAPIAddr tgt))) as Hr; [|lia].
    unfold readBytes, nodeBytes, mapSum. rewrite <- list_fmap_compose. rewrite Hent, <- list_fmap_compose.
    f_equal. apply list_fmap_ext. by intros ? [].
Qed.

(** What leaves the nodes in a cycle is handed to the sink, or was lost by a failed query. *)
Lemma pollCycle_pending s : eq64 (pending s) (pending (pollCycle s).2 + handed u n d (pollCycle s).1 + sumZ (cycleFailures s)).
Proof.
  pose proof (plain_readings s) as Hplain. pose proof (discover_counters s) as Hdisc. unfold cycleReadings, cycleFailures, pollCycle in *.
  assert (∀ s1 s2, counters s2 = counters s1 → pending s2 = pending s1) as Heq by (intros s1 s2 He; unfold pending; by rewrite He).
  destruct (Discover s) as [[e|targets] s1]; cbn [fst snd handed sumZ foldr] in *; [rewrite (Heq _ _ Hdisc), !Z.add_0_r; reflexivity|].
  case_bool_decide as Hlen; cbn [fst snd handed].
  { apply nil_length_inv in Hlen as ->. cbn [failedQueries sumZ foldr]. rewrite (Heq _ _ Hdisc), !Z.add_0_r. reflexivity. }
  pose proof (now_counters s1) as Hnow. destruct (time_Now s1) as [at_ s2]. cbn [snd] in *.
  pose proof (foldl_pollTarget at_ ([], s2) targets) as Hfold. cbn [fst snd foldl] in Hfold. rewrite Hfold.
  pose proof (readTargets_pending [] s2 targets) as Hread. unfold readTargets in Hplain.
  destruct (foldl readTarget ([], s2) targets) as [l s3]. cbn [fst snd] in *. set (lost := sumZ (failedQueries targets s2)) in *.
  assert (pending s = (pending s3 + readBytes u n d l + lost)%Z) as ->.
  { rewrite <- (Heq _ _ Hdisc), <- (Heq _ _ Hnow). change (readBytes u n d []) with 0%Z in Hread. lia. }
  pose proof (batch_bytes u n d at_ l Hd Hplain) as Hb. set (batch := range_values _) in *. case_bool_decide as Hnil; cbn [fst snd handed].
  - apply nil_length_inv in Hnil. rewrite Hnil in Hb. change (sumZ (recordBytes u n d <$> [])) with 0%Z in Hb. by rewrite <- Hb.
  - pose proof (write_counters s3 batch) as Hw. destruct (UsageSink_Write s3 batch) as [err s4]. cbn [fst snd handed] in *.
    rewrite (Heq _ _ Hw). by rewrite Hb.
Qed.

(** What the world adds to the counters before each tick of a run. *)
Fixpoint growth (world : list (St → St)) (s : St) : Z :=
  match world with
  | [] => 0
  | f :: world => (pending (f s) - pending s) + growth world (pollCycle (f s)).2
  end%Z.

(** The failed queries of a run: one entry each, zero when the node had not reset its counters. *)
Fixpoint runFailures (world : list (St → St)) (s : St) : list Z :=
  match world with
  | [] => []
  | f :: world => cycleFailures (f s) ++ runFailures world (pollCycle (f s)).2
  end.

(** C9. No traffic is counted twice, and none is forgotten before the sink unless
    the response that carried it was lost: over any run of the collector, whatever
    the world does between its ticks, the bytes of a user through an exit target
    that were on the nodes at the start or came later equal, as int64 sums, the
    bytes still on the nodes at the end, plus the bytes of the records handed to
    the sink, plus, for every stats query that failed although the node had reset
    its counters (a deadline that expires after the node answered), the bytes those
    counters held.  A batch counts as handed over even if the sink refused it. *)
Theorem usage_conserved world s :
  eq64 (pending s + growth world s)
       (pending (Collector_Run world s).2 + sumZ (handed u n d <$> (Collector_Run world s).1) + sumZ (runFailures world s)).
Proof.
  revert s. induction world as [|f world IH]; intros s; [simpl; rewrite !Z.add_0_r; reflexivity|]. cbn [growth Collector_Run runFailures].
  pose proof (pollCycle_pending (f s)) as Hc. destruct (pollCycle (f s)) as [r s1]. cbn [fst snd] in *. specialize (IH s1).
  destruct (Collector_Run world s1) as [rs s2]. cbn [fst snd] in *. rewrite fmap_cons.
  change (sumZ (handed u n d r :: ?l)) with (handed u n d r + sumZ l)%Z.
  assert (∀ l l', sumZ (l ++ l') = (sumZ l + sumZ l')%Z) as -> by (induction l; intros; simpl; [done|]; rewrite IHl; lia).
  replace (pending s + (pending (f s) - pending s + growth world s1))%Z with (pending (f s) + growth world s1)%Z by lia.
  rewrite Hc. replace (pending s1 + handed u n d r + sumZ (cycleFailures (f s)) + growth world s1)%Z
    with (handed u n d r + sumZ (cycleFailures (f s)) + (pending s1 + growth world s1))%Z by lia.
  rewrite IH. apply reflexive_eq. lia.
Qed.
End conservation.

(** ** The assembled collector keeps the promise *)
Lemma exec_preserves {A B} (sv : server) (f : srv_state sv → B) (p : prog A) s :
  (∀ s c, f (srv_step sv s c).2 = f s) → f (exec sv s p).2 = f s.
Proof.
  intros Hf. revert s. induction p as [a|c g IH]; intros s; simpl; [done|].
  pose proof (Hf s c) as Hc. destruct (srv_step sv s c) as [r s']. specialize (IH r s'). destruct (exec sv s' (g r)) as [[tr a] s''].
  simpl in *. congruence.
Qed.

(** Every event of a run is an answer of the server in some state. *)
Lemma trace_answers {A} (sv : server) (p : prog A) s :
  Forall (λ e, ∃ s', ev_answer e = (srv_step sv s' (ev_call e)).1) (trace sv s p).
Proof.
  unfold trace. revert s. induction p as [a|c g IH]; intros s; simpl; [constructor|].
  destruct (srv_step sv s c) as [r s'] eqn:Hs. specialize (IH r s'). destruct (exec sv s' (g r)) as [[tr a] s''].
  constructor; [|done]. exists s. simpl. by rewrite Hs.
Qed.

(** Targets are listed nodes. *)
Lemma wp_Discover `{MapRange, LabelSelectors} ns :
  wp (λ _, True) (K8sDiscoverer_Discover ns) [] (λ tr r, ∀ targets, r = inr targets →
    targets = [] ∨ ∃ nodes, Ev (List KSingBoxNode (InNamespace ns)) (inr nodes) ∈ tr ∧
      Forall (λ t, ∃ node, node ∈ nodes ∧ tg_NodeName t = GetName node) targets).
Proof.
  unfold K8sDiscoverer_Discover, mbind, prog_mbind. cbn [prog_bind do wp]. intros [e|nodes] _; [done|]. cbv zeta.
  case_bool_decide; [intros ? [= <-]; by left|]. cbn [prog_bind do wp]. intros [e|policies] _; [done|]. cbn [prog_bind do wp].
  intros [e|users] _; [done|]. cbv zeta. apply wp_bind.
  eapply wp_mono; [|apply (wp_foldM _ (λ tr targets, Ev (List KSingBoxNode (InNamespace ns)) (inr nodes) ∈ tr ∧
    Forall (λ t, ∃ node, node ∈ nodes ∧ tg_NodeName t = GetName node) targets))].
  - intros tr targets [Hev Hall] ? [= <-]. right. eauto.
  - split; [set_solver|constructor].
  - intros tr targets node Hnode [Hev Hall]. apply wp_bind. unfold resolveV2RayAPIAddr, mbind, prog_mbind. cbn [prog_bind do wp].
    intros r _. apply list_elem_of_filter in Hnode as [_ Hnode]. rewrite sort_by_perm in Hnode.
    assert (∀ addr vs, Forall (λ t, ∃ n, n ∈ nodes ∧ tg_NodeName t = GetName n)
      (targets ++ [{| tg_NodeName := GetName node; tg_V2RayAPIAddr := addr; tg_VirtualUsers := vs |}])) as Hsnoc.
    { intros addr vs. apply Forall_app_2; [done|]. constructor; [eauto|constructor]. }
    destruct r as [e|pods]; [|destruct (list_find _ _) as [[? ?]|]]; cbn [wp]; (split; [set_solver|apply Hsnoc]).
Qed.

(** What the assembled collector relies on: an answered QueryStats call for the
    user counters with reset returns the counters of the address that was
    dialled and zeroes them; one that fails may have zeroed them or not; no other
    call touches them; names are free of NUL. *)
Class CounterNetwork `{StatsNetwork St Conn, HTTPClient St} (kube : St → ∀ c : call, answer c * St) (clock : St → Z * St) := {
  net_counters : St → gmap string (gmap string Z);
  conn_addr : Conn → string;
  kube_counters : ∀ s c, net_counters (kube s c).2 = net_counters s;
  clock_counters : ∀ s, net_counters (clock s).2 = net_counters s;
  http_counters : ∀ s rq, net_counters (http_Do s rq).2 = net_counters s;
  close_counters : ∀ s conn, net_counters (conn_Close s conn) = net_counters s;
  dial_counters : ∀ s addr t, net_counters (grpc_DialContext s addr t).2 = net_counters s;
  dial_addr : ∀ s addr t conn, (grpc_DialContext s addr t).1 = inr conn → conn_addr conn = addr;
  query_net : ∀ s conn t, match grpc_Invoke s conn t (fullMethod "v2ray.core.app.stats.command.StatsService" "QueryStats")
                                   MQueryStatsRequest userStatsRequest MQueryStatsResponse with
    | (inl _, s') => net_counters s' = net_counters s ∨ net_counters s' = zeroed (conn_addr conn) (net_counters s)
    | (inr resp, s') =>
      qp_Stat resp ≡ₚ (λ kv, {| stat_Name := kv.1; stat_Value := kv.2 |}) <$> map_to_list (default ∅ (net_counters s !! conn_addr conn)) ∧
      net_counters s' = zeroed (conn_addr conn) (net_counters s)
    end;
  counter_names : ∀ s addr c name v, net_counters s !! addr = Some c → c !! name = Some v → has_char "000" name = false;
  node_names : ∀ s ns nodes, (kube s (List KSingBoxNode (InNamespace ns))).1 = inr nodes →
    Forall (λ node, has_char "000" (GetName node) = false) nodes;
}.

Section discharge.
Context `{MapRange, LabelSelectors, TimeText, StatsNetwork St Conn, HTTPClient St} (kube : St → ∀ c : call, answer c * St) (clock : St → Z * St).
Context `{!CounterNetwork kube clock} (ns : string) (timeout : Z) (sink : ElasticsearchSink).

#[local] Abbreviation collab := (usageCollector kube clock ns (NewGRPCStatsClient timeout) sink).

Lemma assembled_discover s : net_counters (@Discover St collab s).2 = net_counters s.
Proof.
  unfold usageCollector. cbn [Discover]. pose proof (exec_preserves {| srv_state := St; srv_step := kube |} net_counters (K8sDiscoverer_Discover ns) s kube_counters) as He.
  by destruct (exec _ _ _) as [[tr r] s'].
Qed.

Lemma assembled_write s batch : net_counters (@UsageSink_Write St collab s batch).2 = net_counters s.
Proof.
  unfold usageCollector. cbn [UsageSink_Write]. unfold ElasticsearchSink_Write. destruct (es_closed sink); [done|]. case_bool_decide; [done|].
  pose proof (http_counters s (bulkRequest sink batch)) as Hh. by destruct (http_Do s _).
Qed.

Lemma assembled_query s addr : match @QueryUserStats St collab s addr with
    | (inl _, s') => net_counters s' = net_counters s ∨ net_counters s' = zeroed addr (net_counters s)
    | (inr entries, s') =>
      entries ≡ₚ (λ kv, {| se_Name := kv.1; se_Value := kv.2 |}) <$> map_to_list (default ∅ (net_counters s !! addr)) ∧
      net_counters s' = zeroed addr (net_counters s)
    end.
Proof.
  unfold usageCollector. cbn [QueryUserStats]. unfold GRPCStatsClient_QueryUserStats. simpl. pose proof (dial_counters s addr timeout) as Hd. pose proof (dial_addr s addr timeout) as Ha.
  destruct (grpc_DialContext s addr timeout) as [[e|conn] s1]; [by left|]. simpl in *. specialize (Ha conn eq_refl).
  pose proof (query_net s1 conn timeout) as Hq. unfold queryEntries, statsServiceClient_QueryStats.
  change (fullMethod _ _) with statsServiceQueryStatsFullMethod in Hq.
  rewrite Ha in Hq. destruct (grpc_Invoke _ _ _ _ _ _ _) as [[e|resp] s2]; rewrite close_counters, <- Hd; [done|].
  destruct Hq as [Hent Hc]. split; [|done]. unfold statEntries. by rewrite Hent, <- list_fmap_compose.
Qed.

Lemma assembled_plain s : Forall plainReading (@cycleReadings St collab s).
Proof.
  unfold cycleReadings. destruct (@Discover St collab s) as [[e|targets] s1] eqn:Hdisc; [constructor|].
  assert (Forall (λ t, has_char "000" (tg_NodeName t) = false) targets) as Hnames.
  { unfold usageCollector in Hdisc. cbn [Discover] in Hdisc. set (sv := {| srv_state := St; srv_step := kube |}) in *.
    pose proof (wp_run _ _ sv s (wp_Discover ns)) as Hwp. pose proof (trace_answers sv (K8sDiscoverer_Discover ns) s) as Htr.
    unfold trace, result in *. destruct (exec sv s _) as [[tr r] s2]. simpl in *. injection Hdisc as -> ->.
    destruct (Hwp targets eq_refl) as [->|(nodes & Hev & Hall)]; [constructor|].
    rewrite Forall_forall in Htr. destruct (Htr _ Hev) as [s' Hans]. simpl in Hans. symmetry in Hans. apply node_names in Hans.
    eapply Forall_impl; [done|]. intros t (node & Hnode & ->). by eapply Forall_forall in Hans. }
  unfold readTargets. generalize (@time_Now St collab s1).2. clear Hdisc.
  assert (∀ l s, Forall plainReading l → Forall plainReading (foldl (@readTarget St collab) (l, s) targets).1) as Hgen; [|intros; by apply Hgen].
  induction Hnames as [|t targets Ht _ IH]; intros l s' Hl; [done|]. cbn [foldl]. unfold readTarget at 2. cbn [fst snd].
  pose proof (assembled_query s' (tg_V2RayAPIAddr t)) as Hq. destruct (@QueryUserStats St collab s' _) as [[e|entries] s2]; [by apply IH|].
  apply IH, Forall_app_2; [done|]. apply Forall_fmap, Forall_forall. intros e He. destruct Hq as [Hent _]. split; [done|].
  rewrite Hent in He. apply list_elem_of_fmap in He as ([k v] & -> & Hkv%elem_of_map_to_list). simpl.
  destruct (net_counters s' !! _) as [c|] eqn:Hc; simpl in Hkv; [by eapply counter_names|]. by rewrite lookup_empty in Hkv.
Qed.

#[export] Instance assembled_store : @CounterStore St collab :=
  {| counters := net_counters; discover_counters := assembled_discover; now_counters := clock_counters;
     write_counters := assembled_write; query_counters := assembled_query; plain_readings := assembled_plain |}.
End discharge.

(** ** A world with one counter *)

(** The state is the value of alice's uplink counter through out1 on in1. *)
Definition one_addr : string := "10.0.0.1:10085".
Definition one_counter : string := counterName (virtualUserName "alice" "out1") "uplink".
Definition one_kube (s : Z) (c : call) : answer c * Z := (sample_answer sample_node c, s).
Definition one_clock (s : Z) : Z * Z := (0%Z, s).

(** A query of twelve bytes is answered too late. *)
#[export] Instance one_network : StatsNetwork Z unit := {|
  grpc_DialContext s addr _ := (if addr ==? one_addr then inr tt else inl (Errorf "connection refused"), s);
  grpc_Invoke s _ _ path tin req tout := if (s =? 12)%Z then (inl (Errorf "deadline exceeded"), 0%Z) else counting_invoke s path tin req tout;
  conn_Close s _ := s;
|}.

(** Elasticsearch is down. *)
#[export] Instance one_http : HTTPClient Z := {| http_Do s _ := (inr (503%Z, inr "unavailable"), s) |}.

#[export] Program Instance one_counters : CounterNetwork one_kube one_clock :=
  {| net_counters s := {[one_addr := {[one_counter := s]}]}; conn_addr _ := one_addr |}.
Next Obligation. done. Qed.
Next Obligation. done. Qed.
Next Obligation. done. Qed.
Next Obligation. done. Qed.
Next Obligation. done. Qed.
Next Obligation. intros s addr t []. cbn. by case_bool_decide. Qed.
Next Obligation.
  intros s conn t. cbn [grpc_Invoke one_network]. unfold zeroed. rewrite !lookup_singleton_eq. cbn [from_option]. unfold id.
  rewrite map_fmap_singleton, insert_singleton_eq, map_to_list_singleton. destruct (s =? 12)%Z; [by right|]. rewrite counting_query. done.
Qed.
Next Obligation.
  intros s addr c name v [_ <-]%lookup_singleton_Some [<- _]%lookup_singleton_Some. reflexivity.
Qed.
Next Obligation. intros s ns nodes [= <-]. repeat constructor. Qed.

Definition one_collector : Collaborators Z :=
  usageCollector one_kube one_clock "proxy" (NewGRPCStatsClient 1) {| es_bulkURL := "http://es/usage/_bulk"; es_apiKey := ""; es_closed := false |}.

(** Two ticks, after 5 and 3 more bytes, starting with 7: the first twelve bytes
    are lost with their response, the other three were in a batch that was refused. *)
Lemma usage_conserved_witness :
  let run := @Collector_Run _ Z one_collector [(λ s, s + 5)%Z; (λ s, s + 3)%Z] 7%Z in
  eq64 15 (run.2 + sumZ (handed "alice" "out1" "uplink" <$> run.1) + 12) ∧
  run.2 = 0%Z ∧ sumZ (handed "alice" "out1" "uplink" <$> run.1) = 3%Z.
Proof.
  cbv zeta. split; [|split; vm_compute; reflexivity].
  pose proof (@usage_conserved _ Z one_collector (assembled_store one_kube one_clock "proxy" 1 _) "alice" "out1" "uplink" (or_introl eq_refl)
    [(λ s, s + 5)%Z; (λ s, s + 3)%Z] 7%Z) as Hc. vm_compute in Hc. vm_compute. exact Hc.
Defined.
