(* ===== verification/Main.v ===== *)
(** * Main: cmd/main.go

    What main makes of its flags: the options of the manager and its servers, and
    the sequence of registrations that ends with starting it.  Registrations and
    the manager are controller-runtime's, so whether one succeeds is a parameter;
    a failed one makes main log a message and exit with status 1. *)

From S2P Require Import Prelude GoStrings Json Api Engine Samples K8s CredManager NodeController SampleCluster NodeProps HandlerProps Snapshot Cluster Controllers Watches Webhooks Handler UsageCollector Elasticsearch UsageRun Passes Store Operator Metrics OperatorRuns.

(** ** Flags *)

(** The values after flag.Parse; durations are nanoseconds. *)
Record Flags := {
  fl_metricsAddr : string;
  fl_metricsCertPath : string; fl_metricsCertName : string; fl_metricsCertKey : string;
  fl_webhookCertPath : string; fl_webhookCertName : string; fl_webhookCertKey : string;
  fl_enableLeaderElection : bool;
  fl_probeAddr : string;
  fl_secureMetrics : bool;
  fl_enableHTTP2 : bool;
  fl_apiBindAddress : string;
  fl_clientConfigTemplate : string;
  fl_defaultTLSSecret : string;
  fl_singboxImage : string;
  fl_nodePortRangeMin : Z;
  fl_nodePortRangeMax : Z;
  fl_usageCollectEnabled : bool;
  fl_usageV2RayAPIListenAddr : string;
  fl_usagePollInterval : Z;
  fl_usageNodeTimeout : Z;
  fl_usageESEndpoint : string;
  fl_usageESAPIKey : string;
  fl_usageESDataStream : string;
  fl_usageMaxBufferSize : Z;
  fl_usageShutdownTimeout : Z;
}.

Definition defaultFlags : Flags := {|
  fl_metricsAddr := "0";
  fl_metricsCertPath := ""; fl_metricsCertName := "tls.crt"; fl_metricsCertKey := "tls.key";
  fl_webhookCertPath := ""; fl_webhookCertName := "tls.crt"; fl_webhookCertKey := "tls.key";
  fl_enableLeaderElection := false;
  fl_probeAddr := ":8081";
  fl_secureMetrics := true;
  fl_enableHTTP2 := false;
  fl_apiBindAddress := ":8082";
  fl_clientConfigTemplate := "";
  fl_defaultTLSSecret := "sing-box-tls";
  fl_singboxImage := "ghcr.io/sagernet/sing-box:latest";
  fl_nodePortRangeMin := 30000;
  fl_nodePortRangeMax := 32767;
  fl_usageCollectEnabled := false;
  fl_usageV2RayAPIListenAddr := "0.0.0.0:10085";
  fl_usagePollInterval := 30 * 10 ^ 9;
  fl_usageNodeTimeout := 10 * 10 ^ 9;
  fl_usageESEndpoint := "";
  fl_usageESAPIKey := "";
  fl_usageESDataStream := "usage-traffic";
  fl_usageMaxBufferSize := 10000;
  fl_usageShutdownTimeout := 30 * 10 ^ 9;
|}.

(** ** Server options *)

(** The part of tls.Config that main sets. *)
Record TLSConfig := { NextProtos : list string }.

Definition disableHTTP2 (c : TLSConfig) : TLSConfig := {| NextProtos := ["http/1.1"] |}.

Definition tlsOpts (f : Flags) : list (TLSConfig → TLSConfig) := if negb (fl_enableHTTP2 f) then [disableHTTP2] else [].

(** Certificate options; empty strings leave the choice to the server. *)
Record CertOptions := { CertDir : string; CertName : string; KeyName : string }.
Definition noCert : CertOptions := {| CertDir := ""; CertName := ""; KeyName := "" |}.

Record WebhookServerOptions := { ws_TLSOpts : list (TLSConfig → TLSConfig); ws_Cert : CertOptions }.

Definition webhookServerOptions (f : Flags) : WebhookServerOptions :=
  {| ws_TLSOpts := tlsOpts f;
     ws_Cert := if fl_webhookCertPath f !=? ""
                then {| CertDir := fl_webhookCertPath f; CertName := fl_webhookCertName f; KeyName := fl_webhookCertKey f |} else noCert |}.

(** FilterProvider is filters.WithAuthenticationAndAuthorization or nil. *)
Inductive MetricsFilter := WithAuthenticationAndAuthorization.

Record MetricsServerOptions := {
  ms_BindAddress : string; ms_SecureServing : bool; ms_TLSOpts : list (TLSConfig → TLSConfig);
  ms_FilterProvider : option MetricsFilter; ms_Cert : CertOptions;
}.

Definition metricsServerOptions (f : Flags) : MetricsServerOptions :=
  {| ms_BindAddress := fl_metricsAddr f; ms_SecureServing := fl_secureMetrics f; ms_TLSOpts := tlsOpts f;
     ms_FilterProvider := if fl_secureMetrics f then Some WithAuthenticationAndAuthorization else None;
     ms_Cert := if fl_metricsCertPath f !=? ""
                then {| CertDir := fl_metricsCertPath f; CertName := fl_metricsCertName f; KeyName := fl_metricsCertKey f |} else noCert |}.

Record ManagerOptions := {
  mo_Metrics : MetricsServerOptions; mo_WebhookServer : WebhookServerOptions; mo_HealthProbeBindAddress : string;
  mo_LeaderElection : bool; mo_LeaderElectionID : string;
}.

Definition managerOptions (f : Flags) : ManagerOptions :=
  {| mo_Metrics := metricsServerOptions f; mo_WebhookServer := webhookServerOptions f; mo_HealthProbeBindAddress := fl_probeAddr f;
     mo_LeaderElection := fl_enableLeaderElection f; mo_LeaderElectionID := "7d42b374.singboxoperator.shlande.top" |}.

(** ** What is registered *)

(** usagecollector.NewK8sDiscoverer, NewGRPCStatsClient, NewCollector and CollectorRunnable,
    by the values they are given. *)
Record CollectorRunnable := {
  cr_cfg : CollectorConfig; cr_namespace : string; cr_nodeTimeout : Z; cr_sink : ElasticsearchSink;
}.

Inductive runnable := RunServer (s : Server) | RunCollector (c : CollectorRunnable).

Definition NeedLeaderElection (r : runnable) : bool :=
  match r with RunServer _ => false | RunCollector _ => true end.

Inductive registration :=
  | GetConfigOrDie
  | NewManager (o : ManagerOptions)
  | IndexField (index : fieldIndex)
  | SetupSingBoxNode (r : SingBoxNodeReconciler)
  | SetupController (ctl : controller)
  | SetupWebhook (k : kind) (wh : Webhook (obj k))
  | AddRunnable (r : runnable)
  | AddHealthzCheck (name : string)
  | AddReadyzCheck (name : string)
  | StartManager.

(** ** Set-up: attempt, and exit when one fails *)

(** os.Exit(1) after a logged message and error. *)
Record failure := { fail_msg : string; fail_err : string }.

(** The registrations attempted so far, in order, and the result. *)
Definition setup (A : Type) : Type := list registration → list registration * (failure + A).
#[export] Instance setup_ret : MRet setup := λ A x log, (log, inr x).
#[export] Instance setup_bind : MBind setup := λ A B k m log,
  match m log with
  | (log, inl e) => (log, inl e)
  | (log, inr x) => k x log
  end.

Definition os_Exit {A} (msg err : string) : setup A := λ log, (log, inl {| fail_msg := msg; fail_err := err |}).

(** ** Listings by field *)

(** The cached client refuses a listing by a field that no index was registered for. *)
Definition answerable (indexes : list fieldIndex) (c : call) : Prop :=
  match c with List k (MatchingFields field _) => is_Some (indexValues indexes k field) | _ => True end.

Section listings.
Context `{WatchLib, NotFoundErrors, GoStd, LabelSelectors, MapRange, ConditionLib, TLSCerts}.

(** Every program of the operator that reads through the cached client only makes
    listings that the indexes answer, and the index by node finds the nodes. *)
Record indexesServe (indexes : list fieldIndex) : Prop := {
  is_reconcile : ∀ r ctl key, emits (answerable indexes) (reconcile r ctl key);
  is_mapper : ∀ ctl w f o, w ∈ SetupWithManager ctl → w_handler w = MapFunc f → emits (answerable indexes) (f o);
  is_endpoint : ∀ srv path, emits (answerable indexes) (handleClientConfig srv path);
  is_discover : ∀ ns, emits (answerable indexes) (K8sDiscoverer_Discover ns);
  is_nodeRef : ∃ values, indexValues indexes KSingBoxNode "spec.nodeRef" = Some values ∧
    ∀ (n : SingBoxNode) v, v ∈ values n ↔ v ≠ "" ∧ ns_NodeRef (node_spec n) = v;
}.

Section nodeRef.
Context (indexes : list fieldIndex) (Hnode : indexValues indexes KSingBoxNode "spec.nodeRef" = Some indexNodeRef).

Lemma reconcile_answerable r ctl key : emits (answerable indexes) (reconcile r ctl key).
Proof. destruct ctl; unfold_reconcilers; emits_solve; by apply collectInput_emits. Qed.

Lemma mapper_answerable ctl w f o : w ∈ SetupWithManager ctl → w_handler w = MapFunc f → emits (answerable indexes) (f o).
Proof.
  intros Hw Hf. assert (∃ f', f' o = f o ∧ f' ∈ [sameRegionNodeMapper; matchingProtocolNodeMapper; usersInGroupToNodesMapper; egressPolicyMapper;
    externalOutboundMapper; externalCredentialSecretMapper; nodeToSingBoxNodesMapper;
    (λ o, EgressPolicyReconciler.policyMapper (om_Namespace (anyMeta o))); ExternalOutboundReconciler.credentialsSecretMapper]) as (f' & <- & Hin).
  { exists f. split; [done|]. destruct ctl; unfold SetupWithManager, SingBoxNode_SetupWithManager, User_SetupWithManager, UserGroup_SetupWithManager,
      EgressPolicy_SetupWithManager, ExternalOutbound_SetupWithManager in Hw; rewrite ?elem_of_cons, ?elem_of_nil in Hw; destruct_or!; try done; subst w;
      try discriminate; injection Hf as <-; rewrite !elem_of_cons; tauto. }
  clear Hw Hf. rewrite !elem_of_cons, elem_of_nil in Hin. destruct_or!; try done; subst f';
    unfold sameRegionNodeMapper, matchingProtocolNodeMapper, usersInGroupToNodesMapper, egressPolicyMapper, externalOutboundMapper,
      externalCredentialSecretMapper, nodeToSingBoxNodesMapper, EgressPolicyReconciler.policyMapper, ExternalOutboundReconciler.credentialsSecretMapper,
      inboundsAffectedByExternalOutbound, listOrNil; destruct o as [[] o]; try done; emits_solve; exists indexNodeRef; exact Hnode.
Qed.

Lemma nodeRef_serves : indexesServe indexes.
Proof.
  split.
  - exact reconcile_answerable.
  - exact mapper_answerable.
  - intros srv path. destruct (requestParts path) as [[ns uuid]|] eqn:Hp; [|by unfold handleClientConfig; rewrite Hp].
    eapply emits_mono; [|by eapply handleClientConfig_emits]. by intros [|? []| | | | | | | | | | |].
  - intros ns. unfold K8sDiscoverer_Discover, resolveV2RayAPIAddr. emits_solve.
  - exists indexNodeRef. split; [exact Hnode|]. intros n v. unfold indexNodeRef. case_bool_decide as Hn.
    + rewrite elem_of_nil. split; [done|]. intros [Hv Heq]. congruence.
    + rewrite list_elem_of_singleton. split; [intros ->; done|by intros []].
Qed.
End nodeRef.

(** The index by spec.userGroupRef is not needed: the UserGroup controller filters the users itself. *)
Lemma userGroupRef_unused : indexesServe [nodeRefIndex].
Proof. by apply nodeRef_serves. Qed.
End listings.

Section main.
Context `{WatchLib, NotFoundErrors, GoStd, LabelSelectors, MapRange, ConditionLib, TLSCerts, DNSNames, URLs}.
(** Whether a registration fails, given those before it. *)
Context (attempt : list registration → registration → option error).

Definition must (reg : registration) (msg : string) : setup unit := λ log,
  (log ++ [reg], match attempt log reg with Some err => inl {| fail_msg := msg; fail_err := Error err |} | None => inr tt end).

Definition nodeReconciler (f : Flags) : SingBoxNodeReconciler :=
  {| r_DefaultTLSSecret := fl_defaultTLSSecret f; r_SingBoxImage := fl_singboxImage f;
     r_UsageCollectionEnabled := fl_usageCollectEnabled f; r_V2RayAPIListenAddr := fl_usageV2RayAPIListenAddr f |}.

(** [int32(n)] of an int. *)
Definition nodeWebhook (f : Flags) : Webhook SingBoxNode :=
  SetupSingBoxNodeWebhookWithManager (UserReconciler.int32_of (fl_nodePortRangeMin f)) (UserReconciler.int32_of (fl_nodePortRangeMax f)).

Definition apiServer (f : Flags) : Server := {| srv_BindAddress := fl_apiBindAddress f; srv_TemplateRef := fl_clientConfigTemplate f |}.

Definition usageCfg (f : Flags) : CollectorConfig :=
  {| cfg_Enabled := true; cfg_PollInterval := fl_usagePollInterval f; cfg_NodeTimeout := fl_usageNodeTimeout f;
     cfg_ESEndpoint := fl_usageESEndpoint f; cfg_ESAPIKey := fl_usageESAPIKey f; cfg_ESDataStream := fl_usageESDataStream f;
     cfg_MaxBufferSize := fl_usageMaxBufferSize f; cfg_ShutdownTimeout := fl_usageShutdownTimeout f |}.

(** The text of Validate's errors is only logged. *)
Definition configErrorText (e : ConfigError) : string :=
  match e with
  | PollIntervalNotPositive _ => "PollInterval must be positive"
  | NodeTimeoutNotPositive _ => "NodeTimeout must be positive"
  | MaxBufferSizeNotPositive n => "MaxBufferSize must be positive, got " +:+ fmt_d n
  | ShutdownTimeoutNotPositive _ => "ShutdownTimeout must be positive"
  | ESEndpointRequired => "ESEndpoint is required when collector is enabled"
  | ESDataStreamRequired => "ESDataStream is required when collector is enabled"
  end.

Definition setupUsage (f : Flags) (watchNamespace : string) : setup unit :=
  match CollectorConfig_Validate (usageCfg f) with
  | Some err => os_Exit "Invalid usage collector configuration" (configErrorText err)
  | None =>
    match NewElasticsearchSink (usageCfg f) with
    | inl err => os_Exit "Failed to create Elasticsearch sink" err
    | inr esSink =>
      must (AddRunnable (RunCollector {| cr_cfg := usageCfg f; cr_namespace := watchNamespace;
                                         cr_nodeTimeout := cfg_NodeTimeout (usageCfg f); cr_sink := esSink |}))
        "Failed to register usage collector"
    end
  end.

(** main up to the start of the manager, from the parsed flags and the environment
    variable WATCH_NAMESPACE. *)
Definition setupManager (f : Flags) (watchNamespace : string) : setup unit :=
  _ ← must GetConfigOrDie "unable to get kubeconfig";
  _ ← must (NewManager (managerOptions f)) "Failed to start manager";
  _ ← must (IndexField nodeRefIndex) "Failed to set up field index for spec.nodeRef";
  _ ← must (IndexField userGroupRefIndex) "Failed to set up field index for spec.userGroupRef";
  _ ← must (SetupSingBoxNode (nodeReconciler f)) "Failed to create controller";
  _ ← must (SetupController UserController) "Failed to create controller";
  _ ← must (SetupController EgressPolicyController) "Failed to create controller";
  _ ← must (SetupWebhook KSingBoxNode (nodeWebhook f)) "Failed to create webhook";
  _ ← must (SetupWebhook KUser SetupUserWebhookWithManager) "Failed to create webhook";
  _ ← must (SetupWebhook KEgressPolicy SetupEgressPolicyWebhookWithManager) "Failed to create webhook";
  _ ← must (SetupWebhook KUserGroup SetupUserGroupWebhookWithManager) "Failed to create webhook";
  _ ← must (AddRunnable (RunServer (apiServer f))) "Failed to register API server";
  _ ← must (SetupController UserGroupController) "Failed to create controller";
  _ ← must (SetupController ExternalOutboundController) "Failed to create controller";
  _ ← must (SetupWebhook KExternalOutbound SetupExternalOutboundWebhookWithManager) "Failed to create webhook";
  _ ← (if fl_usageCollectEnabled f then setupUsage f watchNamespace else mret tt);
  _ ← must (AddHealthzCheck "healthz") "Failed to set up health check";
  must (AddReadyzCheck "readyz") "Failed to set up ready check".

(** mgr.Start blocks; main returns when it does without an error. *)
Definition main (f : Flags) (watchNamespace : string) : list registration * (failure + unit) :=
  (_ ← setupManager f watchNamespace; must StartManager "Failed to run manager") [].

(** ** Reasoning about set-up *)

(** Every registration of the log but a failed last one succeeded. *)
Definition succeeded (log : list registration) : Prop := ∀ i reg, log !! i = Some reg → attempt (take i log) reg = None.

(** A set-up that returns extends the log by registrations that satisfy [P] and succeeded. *)
Definition registers {A} (m : setup A) (regs : list registration → Prop) : Prop :=
  ∀ log log' x, m log = (log', inr x) → succeeded log → succeeded log' ∧ ∃ new, log' = log ++ new ∧ regs new.

Lemma must_registers reg msg : registers (must reg msg) (λ new, new = [reg]).
Proof.
  intros log log' x Hm Hs. unfold must in Hm. destruct (attempt log reg) eqn:Ha; [done|]. injection Hm as <- _. split; [|eauto].
  intros i reg' Hi. destruct (decide (i < length log)) as [Hlt|Hge].
  - rewrite lookup_app_l in Hi by done. rewrite take_app_le by lia. by apply Hs.
  - rewrite lookup_app_r in Hi by lia. apply list_lookup_singleton_Some in Hi as [Hi <-].
    by replace i with (length log) by lia; rewrite take_app_length.
Qed.

Lemma bind_registers {A B} (m : setup A) (k : A → setup B) P Q :
  registers m P → (∀ x, registers (k x) Q) → registers (m ≫= k) (λ new, ∃ l1 l2, new = l1 ++ l2 ∧ P l1 ∧ Q l2).
Proof.
  intros Hm Hk log log' y Hrun Hs. unfold mbind, setup_bind in Hrun. destruct (m log) as [log1 [e|x]] eqn:Hlog1; [done|].
  destruct (Hm _ _ _ Hlog1 Hs) as (Hs1 & l1 & -> & HP). destruct (Hk _ _ _ _ Hrun Hs1) as (Hs2 & l2 & -> & HQ). split; [done|].
  exists (l1 ++ l2). rewrite app_assoc. split; [done|eauto].
Qed.

Lemma must_then {B} reg msg (k : unit → setup B) Q :
  registers (k tt) Q → registers (must reg msg ≫= k) (λ new, ∃ l, new = reg :: l ∧ Q l).
Proof.
  intros Hk log log' y Hrun Hs.
  destruct (bind_registers _ _ _ Q (must_registers reg msg) ltac:(by intros []) _ _ _ Hrun Hs) as (Hs' & new & -> & l1 & l2 & -> & -> & HQ).
  split; [done|]. exists (reg :: l2). eauto.
Qed.

Lemma registers_weaken {A} (m : setup A) (P Q : list registration → Prop) : registers m P → (∀ new, P new → Q new) → registers m Q.
Proof. intros Hm HPQ log log' x Hrun Hs. destruct (Hm _ _ _ Hrun Hs) as (Hs' & new & -> & HP). split; eauto. Qed.

(** A set-up whose attempts all satisfy [P]. *)
Definition attempts {A} (P : registration → Prop) (m : setup A) : Prop := ∀ log, Forall P log → Forall P (m log).1.

Lemma must_attempts (P : registration → Prop) reg msg : P reg → attempts P (must reg msg).
Proof. intros HP log Hlog. simpl. by apply Forall_app_2, Forall_singleton. Qed.

Lemma bind_attempts {A B} P (m : setup A) (k : A → setup B) : attempts P m → (∀ x, attempts P (k x)) → attempts P (m ≫= k).
Proof.
  intros Hm Hk log Hlog. unfold mbind, setup_bind. specialize (Hm log Hlog). destruct (m log) as [log1 [e|x]]; [done|]. by apply Hk.
Qed.

Lemma usage_attempts f ns : attempts (λ reg, reg ≠ StartManager) (setupUsage f ns).
Proof. unfold setupUsage. destruct (CollectorConfig_Validate _); [by intros log|]. destruct (NewElasticsearchSink _); [by intros log|]. by apply must_attempts. Qed.

Lemma setupManager_attempts f ns : attempts (λ reg, reg ≠ StartManager) (setupManager f ns).
Proof.
  unfold setupManager. repeat (apply bind_attempts; [by apply must_attempts|intros _]).
  apply bind_attempts; [|intros _; apply bind_attempts; [by apply must_attempts|intros _; by apply must_attempts]].
  destruct (fl_usageCollectEnabled f); [apply usage_attempts|by intros log].
Qed.

(** What the optional part registers. *)
Definition usageRegistrations (f : Flags) (ns : string) (new : list registration) : Prop :=
  if fl_usageCollectEnabled f then
    CollectorConfig_Validate (usageCfg f) = None ∧
    ∃ sink, NewElasticsearchSink (usageCfg f) = inr sink ∧
      new = [AddRunnable (RunCollector {| cr_cfg := usageCfg f; cr_namespace := ns; cr_nodeTimeout := fl_usageNodeTimeout f; cr_sink := sink |})]
  else new = [].

Lemma usage_registers f ns : registers (if fl_usageCollectEnabled f then setupUsage f ns else mret tt) (usageRegistrations f ns).
Proof.
  unfold usageRegistrations. destruct (fl_usageCollectEnabled f).
  - unfold setupUsage. destruct (CollectorConfig_Validate _); [done|]. destruct (NewElasticsearchSink _) as [|sink] eqn:Hsink; [done|].
    intros log log' x Hrun Hs. destruct (must_registers _ _ _ _ _ Hrun Hs) as (Hs' & new & -> & ->). split; [done|]. eexists. split; [done|].
    split; [done|]. exists sink. done.
  - intros log log' x [= <- _] Hs. split; [done|]. exists []. by rewrite app_nil_r.
Qed.

(** Everything but the optional part. *)
Definition coreRegistrations (f : Flags) : list registration :=
  [GetConfigOrDie; NewManager (managerOptions f); IndexField nodeRefIndex;
   IndexField userGroupRefIndex; SetupSingBoxNode (nodeReconciler f); SetupController UserController;
   SetupController EgressPolicyController; SetupWebhook KSingBoxNode (nodeWebhook f); SetupWebhook KUser SetupUserWebhookWithManager;
   SetupWebhook KEgressPolicy SetupEgressPolicyWebhookWithManager; SetupWebhook KUserGroup SetupUserGroupWebhookWithManager;
   AddRunnable (RunServer (apiServer f)); SetupController UserGroupController; SetupController ExternalOutboundController;
   SetupWebhook KExternalOutbound SetupExternalOutboundWebhookWithManager].

Lemma setupManager_registers f ns :
  registers (setupManager f ns) (λ new, ∃ usage, new = coreRegistrations f ++ usage ++ [AddHealthzCheck "healthz"; AddReadyzCheck "readyz"] ∧
    usageRegistrations f ns usage).
Proof.
  eapply registers_weaken.
  - unfold setupManager. do 15 (eapply must_then; cbv beta). eapply bind_registers; [apply usage_registers|intros _].
    eapply must_then; cbv beta. apply must_registers.
  - cbv beta. intros new Hnew. repeat (destruct Hnew as (? & -> & Hnew)). destruct Hnew as (usage & l & -> & Hu & l' & -> & ->). by exists usage.
Qed.

(** ** Reading a log *)
Definition controllerOf (reg : registration) : option controller :=
  match reg with
  | SetupSingBoxNode _ => Some SingBoxNodeController
  | SetupController ctl => Some ctl
  | _ => None
  end.

Definition webhookKind (reg : registration) : option kind := match reg with SetupWebhook k _ => Some k | _ => None end.

Definition nodeWebhookOf (reg : registration) : option (Webhook SingBoxNode) :=
  match reg with SetupWebhook KSingBoxNode wh => Some wh | _ => None end.

Definition collectorOf (reg : registration) : option CollectorRunnable :=
  match reg with AddRunnable (RunCollector c) => Some c | _ => None end.

Definition indexOf (reg : registration) : option fieldIndex := match reg with IndexField index => Some index | _ => None end.

(** The log of a process whose manager was started. *)
Lemma main_started f ns log r :
  main f ns = (log, r) → StartManager ∈ log →
  ∃ usage, let regs := coreRegistrations f ++ usage ++ [AddHealthzCheck "healthz"; AddReadyzCheck "readyz"] in
    log = regs ++ [StartManager] ∧ succeeded regs ∧ usageRegistrations f ns usage.
Proof.
  unfold main, mbind, setup_bind. destruct (setupManager f ns []) as [log1 [e|x]] eqn:Hset.
  - intros [= <- _] Hin. pose proof (setupManager_attempts f ns [] ltac:(constructor)) as Hno. rewrite Hset, Forall_forall in Hno.
    by destruct (Hno _ Hin).
  - unfold must. intros [= <- _] _.
    destruct (setupManager_registers f ns _ _ _ Hset) as (Hs & new & -> & usage & -> & Hu); [by intros i reg Hi; rewrite lookup_nil in Hi|].
    by exists usage.
Qed.

(** ** What a started operator is *)

(** The collector that was registered can run: time.NewTicker panics on an interval that is not positive. *)
Definition runnable_config (c : CollectorRunnable) : Prop :=
  (0 < cfg_PollInterval (cr_cfg c))%Z ∧ (0 < cr_nodeTimeout c)%Z ∧ es_closed (cr_sink c) = false ∧
  NewElasticsearchSink (cr_cfg c) = inr (cr_sink c).

Lemma validated_runnable f ns sink :
  CollectorConfig_Validate (usageCfg f) = None → NewElasticsearchSink (usageCfg f) = inr sink →
  runnable_config {| cr_cfg := usageCfg f; cr_namespace := ns; cr_nodeTimeout := fl_usageNodeTimeout f; cr_sink := sink |}.
Proof.
  unfold CollectorConfig_Validate, runnable_config. simpl. intros Hv Hsink. repeat case_match; try done. split_and!; [lia..| |done].
  revert Hsink. unfold NewElasticsearchSink. repeat case_match; intros; simplify_eq; done.
Qed.

(** C20. The operator starts whole or not at all.  When main starts the manager,
    every registration before it has succeeded: each of the five controllers once,
    a webhook for each of the five resources, the API server, the health checks,
    and field indexes such that every listing by field which a reconciler, a watch
    mapper, the endpoint or the usage collector can make is answered from one, the
    one for spec.nodeRef finding exactly the nodes that name the value.  A
    usage collector is registered exactly when the nodes are told to count
    traffic, at most one, and its configuration lets its ticker run and its sink
    write. *)
Theorem main_complete f ns log r :
  main f ns = (log, r) → StartManager ∈ log →
  ∃ regs, log = regs ++ [StartManager] ∧ succeeded regs ∧
    omap controllerOf regs ≡ₚ [SingBoxNodeController; UserController; UserGroupController; EgressPolicyController; ExternalOutboundController] ∧
    omap webhookKind regs ≡ₚ [KSingBoxNode; KUser; KUserGroup; KEgressPolicy; KExternalOutbound] ∧
    AddRunnable (RunServer (apiServer f)) ∈ regs ∧ AddHealthzCheck "healthz" ∈ regs ∧ AddReadyzCheck "readyz" ∈ regs ∧
    indexesServe (omap indexOf regs) ∧
    (∀ rec, SetupSingBoxNode rec ∈ regs → r_UsageCollectionEnabled rec = bool_decide (length (omap collectorOf regs) = 1)) ∧
    Forall runnable_config (omap collectorOf regs).
Proof.
  intros Hrun Hstart. destruct (main_started f ns log r Hrun Hstart) as (usage & Hlog & Hs & Hu). eexists. split; [exact Hlog|].
  split; [exact Hs|]. clear Hs Hlog Hrun Hstart.
  assert ((usage = [] ∧ fl_usageCollectEnabled f = false) ∨ ∃ c, usage = [AddRunnable (RunCollector c)] ∧ runnable_config c ∧ fl_usageCollectEnabled f = true) as Hcase.
  { unfold usageRegistrations in Hu. destruct (fl_usageCollectEnabled f); [|by left]. destruct Hu as (Hv & sink & Hsink & ->).
    right. eexists. split; [done|]. split; [|done]. by apply validated_runnable. }
  destruct Hcase as [[-> Hdis]|(c & -> & Hc & Hen)]; cbn -[runnable_config]; split_and!; try solve [repeat first [left | right]].
  all: try solve [solve_Permutation].
  all: try (by apply nodeRef_serves).
  all: try (intros rec; rewrite !elem_of_cons, elem_of_nil; intros Hin; destruct_or!; try discriminate; injection Hin as ->; assumption).
  by constructor.
Qed.

(** With a valid configuration the manager is started unless a registration fails. *)
Lemma usage_ready f ns log :
  (∀ log reg, attempt log reg = None) → (∃ new, usageRegistrations f ns new) →
  ∃ new, (if fl_usageCollectEnabled f then setupUsage f ns else mret tt) log = (log ++ new, inr tt).
Proof.
  intros Hok [new Hnew]. unfold usageRegistrations in Hnew. destruct (fl_usageCollectEnabled f).
  - destruct Hnew as (Hv & sink & Hsink & ->). unfold setupUsage, must. rewrite Hv, Hsink, Hok. eauto.
  - exists []. by rewrite app_nil_r.
Qed.

(** The operator starts.  When no registration fails, main starts the manager
    if and only if usage collection is off or its configuration validates and its
    sink can be built; otherwise main exits without starting it. *)
Theorem main_starts f ns :
  (∀ log reg, attempt log reg = None) →
  StartManager ∈ (main f ns).1 ↔
    fl_usageCollectEnabled f = false ∨
    CollectorConfig_Validate (usageCfg f) = None ∧ ∃ sink, NewElasticsearchSink (usageCfg f) = inr sink.
Proof.
  intros Hok. split.
  - intros Hin. destruct (main f ns) as [log r] eqn:Hrun. destruct (main_started f ns log r Hrun Hin) as (usage & _ & _ & Hu).
    unfold usageRegistrations in Hu. destruct (fl_usageCollectEnabled f); [|by left]. right. destruct Hu as (Hv & sink & Hsink & _). eauto.
  - intros Huse. unfold main, setupManager, must, mbind, setup_bind. rewrite !Hok. simpl.
    assert (∃ new, usageRegistrations f ns new) as Hready.
    { unfold usageRegistrations. destruct (fl_usageCollectEnabled f); [|by exists []]. destruct Huse as [|(Hv & sink & Hsink)]; [done|]. eauto. }
    match goal with |- context [(if _ then _ else _) ?log] => destruct (usage_ready f ns log Hok Hready) as [new ->] end.
    rewrite !Hok. cbn [fst]. apply elem_of_app. right. left.
Qed.

(** The webhook that is registered. *)
Lemma registered_webhook f ns log r wh :
  main f ns = (log, r) → StartManager ∈ log → wh ∈ omap nodeWebhookOf log → wh = nodeWebhook f.
Proof.
  intros Hrun Hstart Hwh. destruct (main_started f ns log r Hrun Hstart) as (usage & -> & _ & Hu).
  assert (omap nodeWebhookOf usage = []) as Husage.
  { unfold usageRegistrations in Hu. destruct (fl_usageCollectEnabled f); [by destruct Hu as (_ & sink & _ & ->)|by subst]. }
  rewrite !omap_app, Husage in Hwh. cbn in Hwh. by apply list_elem_of_singleton in Hwh.
Qed.

(** An admitted object passed its validator. *)
Lemma admission_node w req node :
  admission {| wh_Defaulter := Some SingBoxNode_Default; wh_Validator := SingBoxNode_Validator w |} req = inr (Some node) → ValidNode w (node_spec node).
Proof.
  intros Hadm. apply validateSingBoxNode_nil. destruct req as [o|old o|o]; simpl in Hadm; [..|done];
    unfold SingBoxNode_Default in Hadm; destruct (validateSingBoxNode w o) eqn:Hv; try done; by injection Hadm as ->.
Qed.

Lemma int32_of_id n : (- 2 ^ 31 ≤ n < 2 ^ 31)%Z → UserReconciler.int32_of n = n.
Proof. intros. unfold UserReconciler.int32_of. rewrite Z.mod_small; lia. Qed.

Lemma outside_range w port :
  (NodePortRangeMin w ≠ 0%Z ∨ NodePortRangeMax w ≠ 0%Z) → inNodePortRange w port = false → ¬ (NodePortRangeMin w ≤ port ≤ NodePortRangeMax w)%Z.
Proof.
  unfold inNodePortRange. intros Hnz. destruct ((_ =? 0)%Z && _) eqn:Hz; [|lia]. apply andb_true_iff in Hz as [?%Z.eqb_eq ?%Z.eqb_eq]. tauto.
Qed.

(** C21. The flags guard the ports.  The webhook that main registers refuses every
    SingBoxNode, new or updated, that uses a port in the range given by the flags,
    provided the bounds fit in 32 bits (main converts them) and are not both 0. *)
Theorem admitted_ports_clear f ns log r wh req node port :
  main f ns = (log, r) → StartManager ∈ log → wh ∈ omap nodeWebhookOf log → admission wh req = inr (Some node) →
  (- 2 ^ 31 ≤ fl_nodePortRangeMin f < 2 ^ 31)%Z → (- 2 ^ 31 ≤ fl_nodePortRangeMax f < 2 ^ 31)%Z →
  (fl_nodePortRangeMin f ≠ 0%Z ∨ fl_nodePortRangeMax f ≠ 0%Z) →
  port ∈ ns_RelayPort (node_spec node) :: (pc_Port <$> ns_SupportedProtocols (node_spec node)) → port ≠ 0%Z →
  ¬ (fl_nodePortRangeMin f ≤ port ≤ fl_nodePortRangeMax f)%Z.
Proof.
  intros Hrun Hstart Hwh Hadm Hmin Hmax Hnz Hport Hp0. pose proof (registered_webhook f ns log r wh Hrun Hstart Hwh) as ->.
  apply admission_node in Hadm as [_ _ [_ Hports] Hrelay _ _ _ _]. rewrite !int32_of_id in Hports, Hrelay by done.
  apply (outside_range {| NodePortRangeMin := fl_nodePortRangeMin f; NodePortRangeMax := fl_nodePortRangeMax f |} port Hnz).
  apply elem_of_cons in Hport as [->|Hport]; [by destruct Hrelay|]. rewrite Forall_forall in Hports. apply Hports.
  unfold usedPorts. by apply list_elem_of_filter.
Qed.
End main.

(** ** Replicas *)

(** Whether a replica runs a runnable: the manager holds back those that need leader
    election on the replicas that are not the leader, when election is enabled. *)
Definition runsOn (o : ManagerOptions) (isLeader : bool) (r : runnable) : bool :=
  negb (NeedLeaderElection r) || negb (mo_LeaderElection o) || isLeader.

(** Every replica answers downloads; the usage collector is alone only if leader
    election is enabled, which is not the default. *)
Theorem replicas_running f leaders s c :
  Forall (λ l, runsOn (managerOptions f) l (RunServer s) = true) leaders ∧
  length (filter (λ l, runsOn (managerOptions f) l (RunCollector c) = true) leaders) =
    if fl_enableLeaderElection f then length (filter (λ l, l = true) leaders) else length leaders.
Proof.
  split; [by apply Forall_true|]. unfold runsOn, managerOptions. simpl.
  destruct (fl_enableLeaderElection f); simpl; [done|]. induction leaders as [|l leaders IH]; [done|].
  rewrite filter_cons_True by done. simpl. by rewrite IH.
Qed.

(** ** A started operator *)
#[export] Instance sample_names : DNSNames := {| IsDNS1123Subdomain name := if name ==? "" then ["a name is required"] else [] |}.

#[export] Instance sample_urls : URLs := {| url_JoinPath base elems := inr (foldl (λ url e, url +:+ "/" +:+ e) base elems) |}.

(** Usage collection is on, and NodePorts are moved. *)
Definition sample_flags : Flags := {|
  fl_metricsAddr := "0"; fl_metricsCertPath := ""; fl_metricsCertName := "tls.crt"; fl_metricsCertKey := "tls.key";
  fl_webhookCertPath := "/certs"; fl_webhookCertName := "tls.crt"; fl_webhookCertKey := "tls.key";
  fl_enableLeaderElection := true; fl_probeAddr := ":8081"; fl_secureMetrics := true; fl_enableHTTP2 := false;
  fl_apiBindAddress := ":8082"; fl_clientConfigTemplate := ""; fl_defaultTLSSecret := "sing-box-tls"; fl_singboxImage := "sing-box";
  fl_nodePortRangeMin := 20000; fl_nodePortRangeMax := 22000;
  fl_usageCollectEnabled := true; fl_usageV2RayAPIListenAddr := "0.0.0.0:10085"; fl_usagePollInterval := 30 * 10 ^ 9;
  fl_usageNodeTimeout := 10 * 10 ^ 9; fl_usageESEndpoint := "http://es:9200/"; fl_usageESAPIKey := ""; fl_usageESDataStream := "usage-traffic";
  fl_usageMaxBufferSize := 10000; fl_usageShutdownTimeout := 30 * 10 ^ 9;
|}.

Definition sample_main : list registration * (failure + unit) := main (λ _ _, None) sample_flags "proxy".

Lemma sample_main_started : StartManager ∈ sample_main.1.
Proof. apply (proj2 (main_starts (λ _ _, None) sample_flags "proxy" (λ _ _, eq_refl))). right. split; [done|]. eexists. vm_compute. reflexivity. Qed.

Lemma main_complete_witness :
  ∃ regs c, sample_main.1 = regs ++ [StartManager] ∧ omap collectorOf regs = [c] ∧ (0 < cfg_PollInterval (cr_cfg c))%Z ∧
    es_bulkURL (cr_sink c) = "http://es:9200/usage-traffic/_bulk".
Proof.
  destruct (main_complete (λ _ _, None) sample_flags "proxy" sample_main.1 sample_main.2 (surjective_pairing _) sample_main_started)
    as (regs & Hlog & _ & _ & _ & _ & _ & _ & _ & Hnode & Hall).
  exists regs, {| cr_cfg := usageCfg sample_flags; cr_namespace := "proxy"; cr_nodeTimeout := 10 * 10 ^ 9;
    cr_sink := {| es_bulkURL := "http://es:9200/usage-traffic/_bulk"; es_apiKey := ""; es_closed := false |} |}.
  split; [exact Hlog|]. split; [|by split].
  assert (regs = removelast sample_main.1) as -> by (by rewrite Hlog, removelast_last). vm_compute. reflexivity.
Defined.

(** A node that relays on a port of the moved range is refused; this one is not. *)
Lemma admitted_ports_clear_witness :
  admission (nodeWebhook sample_flags) (CreateRequest (mkNode "out1" [ProxyRoleOutbound] 30808 [])) =
    inr (Some (mkNode "out1" [ProxyRoleOutbound] 30808 [])) ∧ ¬ (20000 ≤ 30808 ≤ 22000)%Z.
Proof.
  assert (admission (nodeWebhook sample_flags) (CreateRequest (mkNode "out1" [ProxyRoleOutbound] 30808 [])) =
    inr (Some (mkNode "out1" [ProxyRoleOutbound] 30808 []))) as Hadm by (vm_compute; reflexivity).
  split; [exact Hadm|].
  apply (admitted_ports_clear (λ _ _, None) sample_flags "proxy" sample_main.1 sample_main.2 (nodeWebhook sample_flags)
    (CreateRequest (mkNode "out1" [ProxyRoleOutbound] 30808 [])) (mkNode "out1" [ProxyRoleOutbound] 30808 []) 30808).
  - apply surjective_pairing.
  - exact sample_main_started.
  - exact (list_elem_of_here (nodeWebhook sample_flags) []).
  - exact Hadm.
  - simpl. lia.
  - simpl. lia.
  - left. simpl. lia.
  - left.
  - lia.
Defined.
